(* ===== verification/_CoqProject ===== *)
-Q . S2P
Prelude.v
Queue.v
Semaphore.v
Merge.v
Fetcher.v
Persister.v
RaftServer.v
RaftServerFacts.v
RaftCluster.v
RaftElection.v
RaftMemory.v
RaftServerSpec.v
RaftSafe.v
RaftLogs.v
RaftOrder.v
RaftAliasing.v
RaftAgree.v
RaftAgreeInv.v
RaftCalmPeer.v
RaftCalm.v
RaftAgreement.v
RaftLive.v
RaftProgress.v
Strconv.v
Effects.v
FailureInjection.v
Services.v
ServicesSpec.v
VideoRec.v
VideoRecTop.v
VideoRecSpec.v
VideoRecFresh.v
VideoRecMock.v
VideoRecExamples.v
VideoRecPool.v
VideoRecPoolSpec.v
VideoRecPoolExamples.v
Base64.v
Bcrypt.v
BcryptSpec.v
Ranker.v
Labgob.v
LabgobSpec.v
Labrpc.v
LabrpcSystem.v
LabrpcSpec.v
LabrpcRefine.v
LabrpcLive.v
LabrpcExamples.v
RaftRpc.v
RaftRpcSpec.v
Config.v
ConfigLogic.v
ConfigRouting.v
ConfigSpec.v
ConfigAgree.v
ConfigLeader.v
ConfigExamples.v
Loadgen.v
Clients.v
ClientsSpec.v
