(* ===== verification/Prelude.v ===== *)
(** * A verification library for the CPSC426 labs

    The repository holds the Go code of four labs.  This library models the
    parts with logic of their own and proves what makes them correct, or shows
    by a run where they are not.

    ** The program and its model

    - Lab 0, goroutines and channels.  [Queue] is [lab0/queue.go]: a linked list
      over an explicit store of nodes, and the queue under a mutex as a
      transition system in which goroutines interleave at every access to that
      store.  [Semaphore] is [lab0/semaphore.go], [Merge]
      [lab0/merge_channels.go] and [Fetcher] [lab0/parallel_fetcher.go]: one
      program counter per goroutine, one step per channel or lock operation, and
      a panic where the runtime panics.
    - Lab 3, Raft.  [Persister] is [lab3/raft/persister.go].  [RaftServer] holds
      the state of a peer and the functions of [lab3/raft/raft.go], one
      definition for each critical section; a function that makes an RPC is cut
      at the call, and takes the reply as an argument.  The log is a slice of an
      array ([Backing]): [append] and reslicing work on that array in place where
      Go does, [broadcastHeartbeat] hands out slices of it, and
      [sendAppendEntries] copies what its slice shows when it gets the lock; how
      much an array grows is a parameter, [newcap] of [GoRuntime].
      [RaftCluster] puts peers, goroutines between critical sections and messages in flight together; its
      network loses, delays and reorders messages, and runs a handler at most once
      for each, as [LabrpcSpec] shows of [labrpc].  Its environments say what does not happen:
      in a [quiet] cluster peers do not restart and an election goroutine reads its
      arguments in the term it was started in; in a [steady] one, moreover, a
      goroutine copies the entries it sends in the term they were cut in.
      [RaftServerFacts] has the lemmas about single functions, [RaftMemory] those
      about arrays and slices, [RaftServerSpec] the specifications of functions,
      [RaftElection], [RaftSafe] and [RaftLogs] the theorems about whole executions.
      [RaftOrder] narrows those of steady clusters to the executions of calm ones,
      where the [AppendEntries] of a leader to a peer keep their order and a peer is elected
      with an empty [matchIdx]; [RaftAliasing] shows what late copies of entries
      break even then.  [RaftAgree] has the argument why committed entries
      stay, over ghost records of what each term's leader had and each peer
      accepted, [RaftAgreeInv] the invariant that ties these records to peers and
      messages, [RaftCalmPeer] and [RaftCalm] its preservation by the functions and
      by the actions, and [RaftAgreement] the theorems that follow.  [RaftLive] runs
      elections from arbitrary reachable states, and [RaftProgress] what a leader
      does with a command after one.
    - Under Raft.  [Labgob] is [lab3/labgob/labgob.go], the checks before encoding
      and decoding; [LabgobSpec] says what they report, in general and for Raft's
      messages.  [Labrpc] holds the data and the methods of
      [lab3/labrpc/labrpc.go], [LabrpcSystem] its goroutines as a transition
      system over calls; [LabrpcSpec] and [LabrpcLive] prove what a call means and
      that it returns, [LabrpcRefine] that the network implements a system of
      atomic calls, [LabrpcExamples] has runs.  [RaftRpc] writes Raft's messages
      as Go values and registers the two handlers with a service; [RaftRpcSpec]
      shows that a call of Raft through the network runs them.
    - Around Raft.  [Config] is [lab3/raft/config.go], the harness of the tests,
      function by function, in a monad ([tst]) whose computations return, fail the
      test, end the process or run for ever; what the peers and the rest of the
      process do meanwhile, the class [Rest], is arbitrary.  [ConfigLogic] has the
      rules to reason about it, [ConfigRouting] the invariant of the names and
      connections, [ConfigSpec], [ConfigAgree] and [ConfigLeader] the theorems,
      [ConfigExamples] their instances.
    - Labs 1 and 2, a video recommendation service.  [Strconv] is the part of
      [strconv] and [fmt] the code uses, [Effects] the state monad of the service
      code.  [FailureInjection] is [lab1/failure_injection], [Services] the user
      and video services with their mock clients ([lab1/user_service],
      [lab1/video_service]); [ServicesSpec] specifies them.  [VideoRec] and
      [VideoRecTop] are [lab1/video_rec_service/server_lib/server_lib.go]: the
      cache and the refreshing goroutine, the probes, and [GetTopVideos] stage by
      stage.  They are written against the interface [Backend] (the services
      behind the clients, the network, the clock); [VideoRecMock] implements it
      by the mock clients.  [VideoRecSpec] has what holds over every backend,
      [VideoRecFresh] what holds over backends that keep the promise [Answering] (each
      service answers over the connections that lead to it),
      [VideoRecExamples] concrete runs.  [VideoRecPool], [VideoRecPoolSpec] and
      [VideoRecPoolExamples] are lab 2's version with its connection pools, one to each
      service; nothing is supposed of a call sent over a connection to the other
      service.  The pools stand beside the backend's state, so that the functions
      lab 2 did not change are those of lab 1.  [Base64], [Bcrypt] and [BcryptSpec] are
      [lab1/det_bcrypt], [Ranker] is [lab1/ranker].
    - Around the services.  [Loadgen] is [lab1/cmd/loadgen], a transition system of
      its goroutines; [Clients] is [lab1/cmd/frontend], [lab1/cmd/stats] and
      [lab1/logging], programs over the interface [Network] that log lines and may
      exit; [ClientsSpec] runs them against the services and the server.

    ** What is proved

    - Refinement and linearizability of the queues; conservation and wakeups of
      the semaphore; safety, termination and refinement of the merges; the limit
      of the parallel fetcher.
    - Raft: each handler's behaviour on every branch, with the well-formedness of
      peers it preserves; election safety for quiet clusters of any size and log
      matching for steady ones, each resting on an
      invariant of peers, goroutines, messages and slices; convergence of logs; no panic of
      any goroutine but the one that applies entries, and of that one as long as
      no log is cut below its commit index; in calm clusters, state machine safety,
      leader completeness, and no panic at all; from every reachable state whose
      notification channels have room some schedule elects a leader, unless the
      cluster has a single server, which never leads, and in a calm cluster some
      schedule goes on to replicate, commit and apply any command; and executions that break election
      safety when those conditions fail; log matching and state machine safety when
      a goroutine copies entries after its peer's array was overwritten in a later
      term; state machine safety when all that holds but
      messages overtake each other or a peer is elected with old matches; or make
      the applying goroutine panic.
    - The network under Raft: a call runs its handler at most once, returns true
      only with the handler's reply, returns if the handler does, and gets nothing
      from a deleted server; the whole network refines atomic remote calls that run
      at most once, and for Raft those are its two handlers, run on the peer the
      network holds and leaving it in the state they compute.  The checks of types
      end on recursive types and mark exactly what is reachable; Raft's messages pass them.
    - The harness of the tests: who reaches whom after any session with it; what a
      restarted peer starts with; which messages the applier accepts; that [one]
      always returns and what it means when it succeeds; that [checkOneLeader] ends
      and finds a leader there was.
    - Recommendation: the system made of the services, the probes and a request
      answers with exactly the liked videos of the followed users, ranked, under
      every schedule; accounting and availability over arbitrary backends; the
      pools; the batches; the branches of the services; the agreement of the two
      databases; two runs with wrong answers.
    - The frontend, run against all of lab 1 over mock clients, logs exactly the
      user and the recommendations of the three users it asks for, and succeeds
      exactly when those of the last two are what its tests expect; the counters of the load
      generator count its requests, and a run in which a line it prints is wrong;
      the log of the middleware agrees with the statistics of the server.
    - Ranks do not depend on the order of map iteration; hashing and checking
      passwords, parsing and printing hashes, base64.

    ** Bounds and fuel

    The loops of the code are structural recursions over lists or counters.
    [connect_loop], [probe_loop] and the refresh loops repeat until something
    outside changes and take a number of turns; [probes_learn_limits] shows that
    one turn is enough when the services answer.  In
    [Config], [await_fuel] and [one_fuel] bound the loops that wait for 5 and for
    25 seconds in steps of 20 and 50 milliseconds at least, and running out of
    them is the verdict [Forever]: [one_agrees] shows it never happens.  [digits] has 20 digits, enough
    for 64 bits.  Integers are [Z] with the wrap-around of their width written
    out ([u64], [i64], [i32]).

    ** Not modelled

    The encoding [gob] itself, a class; [makeSeed] of the harness and the tests that
    use it; the binaries under [server], which parse flags and serve; the ratios
    the load generator and the loggers print, in floating point; generated protobuf code; the read-write lock around the cache of
    trending videos.  The goroutines of one group of batches run one after the
    other, in any order: they share only atomic counters, a slice under a mutex
    and buffered channels with room for every message.  Lab 2's copies of lab 1's
    packages and the [bws26] directories repeat modelled files.  Third-party
    packages ([grpc], [gofakeit], [tdigest], [blowfish]) are parameters. *)
From Stdlib Require Export ZArith Lia.
From stdpp Require Export base tactics option list numbers sets gmap relations.

#[global] Set Default Goal Selector "!".
#[global] Set Printing Projections.

Declare Scope go_scope.
Delimit Scope go_scope with go.

(** ** Outcomes of a Go computation

    A Go statement sequence executed by one goroutine either finishes, panics
    (index out of range, nil dereference, integer division by zero), or blocks
    forever in the state it is run in (a send on a full channel, a receive on
    an empty one). *)
Inductive outcome (A : Type) : Type :=
  | Ok (a : A)
  | Panic
  | Block.
Arguments Ok {A} a.
Arguments Panic {A}.
Arguments Block {A}.

#[export] Instance outcome_ret : MRet outcome := fun A a => Ok a.
#[export] Instance outcome_bind : MBind outcome := fun A B f m =>
  match m with Ok a => f a | Panic => Panic | Block => Block end.
#[export] Instance outcome_fmap : FMap outcome := fun A B f m =>
  match m with Ok a => Ok (f a) | Panic => Panic | Block => Block end.

(** A Go condition that must hold for execution to continue. *)
Definition check_index (b : bool) : outcome unit := if b then Ok tt else Panic.

(** ** Machine integers

    Go's [int] and [int64] are 64-bit two's complement, [int32] is 32-bit, and
    the unsigned types wrap modulo [2^w]. *)
Definition u64 (z : Z) : Z := z mod 2 ^ 64.
Definition u32 (z : Z) : Z := z mod 2 ^ 32.
Definition u8 (z : Z) : Z := z mod 2 ^ 8.
Definition i64 (z : Z) : Z := (z + 2 ^ 63) mod 2 ^ 64 - 2 ^ 63.
Definition i32 (z : Z) : Z := (z + 2 ^ 31) mod 2 ^ 32 - 2 ^ 31.

(** Go's integer division and remainder truncate toward zero; a zero divisor
    panics. *)
Definition go_quot (a b : Z) : outcome Z := if (b =? 0)%Z then Panic else Ok (Z.quot a b).
Definition go_rem (a b : Z) : outcome Z := if (b =? 0)%Z then Panic else Ok (Z.rem a b).

(** ** Slices

    A slice is modelled by its visible elements.  Indexing outside [0, len)
    panics; the slice expressions [s[lo:hi]], [s[lo:]] and [s[:hi]] panic when
    the bounds are out of order or above the length. *)
Definition len {A} (l : list A) : Z := Z.of_nat (length l).

(** The number of elements a test accepts. *)
Definition tally {A} (f : A -> bool) (l : list A) : Z := len (filter (fun a => f a = true) l).

Definition index {A} (l : list A) (i : Z) : outcome A :=
  if (i <? 0)%Z then Panic
  else match l !! Z.to_nat i with Some a => Ok a | None => Panic end.

Definition set_index {A} (l : list A) (i : Z) (a : A) : outcome (list A) :=
  if (i <? 0)%Z || (len l <=? i)%Z then Panic else Ok (<[Z.to_nat i := a]> l).

Definition slice {A} (l : list A) (lo hi : Z) : outcome (list A) :=
  if ((0 <=? lo) && (lo <=? hi) && (hi <=? len l))%Z
  then Ok (take (Z.to_nat (hi - lo)) (drop (Z.to_nat lo) l))
  else Panic.

Definition slice_from {A} (l : list A) (lo : Z) : outcome (list A) := slice l lo (len l).
Definition slice_to {A} (l : list A) (hi : Z) : outcome (list A) := slice l 0 hi.

(** ** Transition systems

    Concurrent components are step relations on an explicit global state;
    [reachable] is reflexive-transitive closure from the initial states. *)
Record lts (S : Type) := Lts { lts_init : S -> Prop; lts_step : S -> S -> Prop }.
Arguments Lts {S} _ _.
Arguments lts_init {S} _ _.
Arguments lts_step {S} _ _ _.

Definition reachable {S} (M : lts S) (s : S) : Prop :=
  exists s0, lts_init M s0 /\ rtc (lts_step M) s0 s.

Definition invariant {S} (M : lts S) (P : S -> Prop) : Prop :=
  forall s, reachable M s -> P s.

(** ** Tactics *)

(** Split every conjunction, existential and equation of the context. *)
Ltac go_destruct :=
  repeat match goal with
  | H : _ /\ _ |- _ => destruct H
  | H : exists _, _ |- _ => destruct H
  | H : Ok _ = Ok _ |- _ => injection H as H; subst
  | H : Ok _ = Panic |- _ => discriminate H
  | H : Panic = Ok _ |- _ => discriminate H
  | H : Ok _ = Block |- _ => discriminate H
  | H : Block = Ok _ |- _ => discriminate H
  | H : (_, _) = (_, _) |- _ => injection H as H; subst
  end.

(** Turn the boolean comparisons of the context and the goal into
    propositions. *)
Ltac zbool :=
  repeat match goal with
  | H : (_ <? _)%Z = true |- _ => apply Z.ltb_lt in H
  | H : (_ <? _)%Z = false |- _ => apply Z.ltb_ge in H
  | H : (_ <=? _)%Z = true |- _ => apply Z.leb_le in H
  | H : (_ <=? _)%Z = false |- _ => apply Z.leb_gt in H
  | H : (_ =? _)%Z = true |- _ => apply Z.eqb_eq in H
  | H : (_ =? _)%Z = false |- _ => apply Z.eqb_neq in H
  | H : (_ >? _)%Z = _ |- _ => rewrite Z.gtb_ltb in H
  | H : (_ >=? _)%Z = _ |- _ => rewrite Z.geb_leb in H
  | H : _ && _ = true |- _ => apply andb_true_iff in H; destruct H
  | H : _ || _ = false |- _ => apply orb_false_iff in H; destruct H
  | H : _ && _ = false |- _ => apply andb_false_iff in H
  | H : _ || _ = true |- _ => apply orb_true_iff in H
  | H : negb _ = true |- _ => apply negb_true_iff in H
  | H : negb _ = false |- _ => apply negb_false_iff in H
  | H : bool_decide _ = true |- _ => apply bool_decide_eq_true_1 in H
  | H : bool_decide _ = false |- _ => apply bool_decide_eq_false_1 in H
  end.

(** Case analysis on the conditions of a branching definition. *)
Ltac branch :=
  match goal with
  | |- context [if ?b then _ else _] => let E := fresh "E" in destruct b eqn:E; zbool
  | H : context [if ?b then _ else _] |- _ => let E := fresh "E" in destruct b eqn:E; zbool
  end.

Create Rewrite HintDb go.

(** ** Lemmas on outcomes *)
Section outcome_lemmas.
Context {A B : Type}.
Implicit Types (m : outcome A) (f : A -> outcome B).

Lemma bind_Ok a f : (Ok a ≫= f) = f a.
Proof. reflexivity. Qed.

Lemma bind_inv m f b : m ≫= f = Ok b <-> exists a, m = Ok a /\ f a = Ok b.
Proof. destruct m; simpl; naive_solver. Qed.

Lemma bind_total m f :
  (exists a, m = Ok a /\ exists b, f a = Ok b) -> exists b, m ≫= f = Ok b.
Proof. intros (a & -> & b & Hb). exists b. exact Hb. Qed.

Lemma check_index_inv b u : check_index b = Ok u <-> b = true.
Proof. destruct b, u; simpl; naive_solver. Qed.
End outcome_lemmas.

#[export] Hint Rewrite @bind_Ok : go.

(** Decompose a successful bind in the context. *)
Ltac inv_bind :=
  repeat match goal with
  | H : _ ≫= _ = Ok _ |- _ => apply bind_inv in H as (? & ? & H)
  | H : check_index _ = Ok _ |- _ => apply check_index_inv in H
  end; go_destruct.

(** ** Lemmas on machine integers *)
Section ints.
Local Open Scope Z_scope.

Lemma u64_range z : 0 <= u64 z < 2 ^ 64.
Proof. apply Z.mod_pos_bound. reflexivity. Qed.

Lemma u64_small z : 0 <= z < 2 ^ 64 -> u64 z = z.
Proof. apply Z.mod_small. Qed.

Lemma u32_range z : 0 <= u32 z < 2 ^ 32.
Proof. apply Z.mod_pos_bound. reflexivity. Qed.

Lemma i64_range z : - 2 ^ 63 <= i64 z < 2 ^ 63.
Proof. unfold i64. pose proof (Z.mod_pos_bound (z + 2 ^ 63) (2 ^ 64) eq_refl). lia. Qed.

Lemma i64_small z : - 2 ^ 63 <= z < 2 ^ 63 -> i64 z = z.
Proof. intros H. unfold i64. rewrite Z.mod_small; lia. Qed.

Lemma i32_small z : - 2 ^ 31 <= z < 2 ^ 31 -> i32 z = z.
Proof. intros H. unfold i32. rewrite Z.mod_small; lia. Qed.

Lemma u64_add_l a b : u64 (u64 a + b) = u64 (a + b).
Proof. unfold u64. apply Zplus_mod_idemp_l. Qed.

Lemma u64_add_r a b : u64 (a + u64 b) = u64 (a + b).
Proof. unfold u64. apply Zplus_mod_idemp_r. Qed.

Lemma u64_idemp a : u64 (u64 a) = u64 a.
Proof. unfold u64. apply Zmod_mod. Qed.
End ints.

#[export] Hint Rewrite u64_add_l u64_add_r u64_idemp : go.

(** ** Lemmas on slices *)
Section slices.
Local Open Scope Z_scope.
Context {A : Type}.
Implicit Types l : list A.

Lemma len_nonneg l : 0 <= len l.
Proof. unfold len. lia. Qed.

Lemma len_app l k : len (l ++ k) = len l + len k.
Proof. unfold len. rewrite length_app. lia. Qed.

Lemma index_Ok l i a : index l i = Ok a <-> 0 <= i /\ l !! Z.to_nat i = Some a.
Proof.
  unfold index. destruct (i <? 0) eqn:E; zbool.
  - split; [discriminate | lia].
  - destruct (l !! Z.to_nat i); split; intros; naive_solver.
Qed.

Lemma index_total l i : 0 <= i < len l -> exists a, index l i = Ok a.
Proof.
  intros Hi. destruct (lookup_lt_is_Some_2 l (Z.to_nat i)) as [a Ha].
  - unfold len in Hi. lia.
  - exists a. apply index_Ok. split; [lia | exact Ha].
Qed.

Lemma index_lt l i a : index l i = Ok a -> 0 <= i < len l.
Proof.
  intros [Hi H]%index_Ok. apply lookup_lt_Some in H. unfold len. lia.
Qed.

Lemma slice_Ok l lo hi r :
  slice l lo hi = Ok r <->
  (0 <= lo <= hi /\ hi <= len l) /\ r = take (Z.to_nat (hi - lo)) (drop (Z.to_nat lo) l).
Proof.
  unfold slice. destruct ((0 <=? lo) && (lo <=? hi) && (hi <=? len l)) eqn:E; zbool.
  - naive_solver lia.
  - split; [discriminate | ]. intros [Hb _]. zbool.
    destruct E as [E | E]; zbool; [destruct E as [E | E]; zbool; lia | lia].
Qed.

Lemma slice_to_Ok l hi r :
  slice_to l hi = Ok r <-> 0 <= hi <= len l /\ r = take (Z.to_nat hi) l.
Proof.
  unfold slice_to. rewrite slice_Ok, Z.sub_0_r, drop_0. naive_solver lia.
Qed.

Lemma slice_from_Ok l lo r :
  slice_from l lo = Ok r <-> 0 <= lo <= len l /\ r = drop (Z.to_nat lo) l.
Proof.
  unfold slice_from. rewrite slice_Ok. split.
  - intros [H ->]. split; [lia | ]. apply take_ge. rewrite length_drop. unfold len. lia.
  - intros [H ->]. split; [lia | ]. symmetry. apply take_ge. rewrite length_drop. unfold len. lia.
Qed.

Lemma set_index_Ok l i a r :
  set_index l i a = Ok r <-> 0 <= i < len l /\ r = <[Z.to_nat i := a]> l.
Proof.
  unfold set_index. destruct ((i <? 0) || (len l <=? i)) eqn:E; zbool.
  - split; [discriminate | ]. destruct E as [E | E]; zbool; lia.
  - naive_solver lia.
Qed.
End slices.

(** ** Lemmas on tallies *)
Section tallies.
Local Open Scope Z_scope.
Context {A : Type}.
Implicit Types (f g : A -> bool) (a : A) (l : list A).

Lemma tally_cons f a l : tally f (a :: l) = (if f a then 1 else 0) + tally f l.
Proof. unfold tally, len. rewrite filter_cons. destruct (f a); case_decide; simpl; try done; lia. Qed.

Lemma tally_app f l l' : tally f (l ++ l') = tally f l + tally f l'.
Proof. unfold tally. by rewrite filter_app, len_app. Qed.

Lemma tally_snoc f l a : tally f (l ++ [a]) = tally f l + (if f a then 1 else 0).
Proof. rewrite tally_app, tally_cons. change (tally f []) with 0. lia. Qed.

Lemma tally_insert f l i a a' :
  l !! i = Some a -> tally f (<[i := a']> l) = tally f l + (if f a' then 1 else 0) - (if f a then 1 else 0).
Proof.
  revert i. induction l as [|x l IH]; intros [|i] Hi; simplify_eq/=; rewrite !tally_cons; [lia | ].
  rewrite (IH i) by done. lia.
Qed.

Lemma tally_bounds f l : 0 <= tally f l <= len l.
Proof. unfold tally, len. pose proof (list.length_filter (fun a => f a = true) l). lia. Qed.

Lemma tally_le f g l : (forall a, f a = true -> g a = true) -> tally f l <= tally g l.
Proof.
  intros H. induction l as [|a l IH]; [done | ]. rewrite !tally_cons.
  pose proof (H a). destruct (f a), (g a); try lia; naive_solver.
Qed.

Lemma tally_all f l : Forall (fun a => f a = true) l -> tally f l = len l.
Proof. unfold len. induction 1 as [|a l Ha _ IH]; [done | ]. rewrite tally_cons, Ha, IH. simpl. lia. Qed.
End tallies.

(** ** Lemmas on transition systems *)
Section lts_lemmas.
Context {S : Type} (M : lts S).

Lemma reachable_init s : lts_init M s -> reachable M s.
Proof. intros H. exists s. split; [exact H | apply rtc_refl]. Qed.

Lemma reachable_step s s' : reachable M s -> lts_step M s s' -> reachable M s'.
Proof.
  intros (s0 & H0 & Hs) Hstep. exists s0. split; [exact H0 | ].
  eapply rtc_r; [exact Hs | exact Hstep].
Qed.

(** Rule induction: what holds initially and is kept by every step is an
    invariant. *)
Lemma invariant_ind (P : S -> Prop) :
  (forall s, lts_init M s -> P s) ->
  (forall s s', P s -> lts_step M s s' -> P s') ->
  invariant M P.
Proof.
  intros Hi Hs s (s0 & H0 & Hr). apply Hi in H0.
  induction Hr as [x | x y z Hxy Hyz IH]; eauto.
Qed.
End lts_lemmas.
