(* ===== verification/Queue.v ===== *)
(** * The FIFO queues of [lab0/queue.go]

    [Queue] is a singly linked list with a head and a tail pointer.  The nodes
    live in an explicit heap, so that the pointer updates of [Push] and [Pop]
    (and the aliasing of [head] and [tail]) are modelled as written.
    [ConcurrentQueue] is the same queue behind a mutex, shared by any number of
    goroutines that interleave at every access to the queue's memory; its
    contract is linearizability. *)
From S2P Require Import Prelude.

(** ** Data *)
Definition loc : Type := positive.

Section data.
Context {T : Type}.

Record node := Node { value : T; next : option loc }.
Record Queue := MkQueue { head : option loc; tail : option loc }.

(** The operations of the queue, and what each returns. *)
Inductive qop := OpPush (t : T) | OpPop.
Inductive qres := RPush | RPop (r : T * bool).
End data.
Arguments node : clear implicits.
Arguments qop : clear implicits.
Arguments qres : clear implicits.

(** ** Operations *)
Section ops.
Context {T : Type} (zero : T).
Implicit Types (h : gmap loc (node T)) (q : Queue).

Definition alloc h (n : node T) : gmap loc (node T) * loc :=
  let l := fresh (dom h) in (<[l := n]> h, l).

(** Dereferencing [nil] or a dangling pointer panics. *)
Definition load h (p : option loc) : outcome (node T) :=
  match p with
  | Some l => match h !! l with Some n => Ok n | None => Panic end
  | None => Panic
  end.

Definition NewQueue : Queue := MkQueue None None.

Definition Push h q (t : T) : outcome (gmap loc (node T) * Queue) :=
  let '(h, newNode) := alloc h (Node t None) in
  match tail q with
  | None => Ok (h, MkQueue (Some newNode) (Some newNode))
  | Some last_loc =>
      n ← load h (tail q);
      Ok (<[last_loc := Node (value n) (Some newNode)]> h, MkQueue (head q) (Some newNode))
  end.

Definition Pop h q : outcome (Queue * (T * bool)) :=
  match head q with
  | None => Ok (q, (zero, false))
  | Some _ =>
      n ← load h (head q);
      let v := value n in
      let head' := next n in
      let tail' := match head' with None => None | Some _ => tail q end in
      Ok (MkQueue head' tail', (v, true))
  end.

(** One operation of either kind. *)
Definition run_op h q (o : qop T) : outcome (gmap loc (node T) * Queue * qres T) :=
  match o with
  | OpPush t => '(h, q) ← Push h q t; Ok (h, q, RPush)
  | OpPop => '(q, r) ← Pop h q; Ok (h, q, RPop r)
  end.

Fixpoint run_ops h q (os : list (qop T)) : outcome (gmap loc (node T) * Queue * list (qres T)) :=
  match os with
  | [] => Ok (h, q, [])
  | o :: os =>
      '(h, q, r) ← run_op h q o;
      '(h, q, rs) ← run_ops h q os;
      Ok (h, q, r :: rs)
  end.

(** *** The specification: an unbounded FIFO list *)
Definition spec_op (vs : list T) (o : qop T) : list T * qres T :=
  match o with
  | OpPush t => (vs ++ [t], RPush)
  | OpPop => match vs with
             | [] => ([], RPop (zero, false))
             | v :: vs => (vs, RPop (v, true))
             end
  end.

Fixpoint spec_ops (vs : list T) (os : list (qop T)) : list T * list (qres T) :=
  match os with
  | [] => (vs, [])
  | o :: os => let '(vs, r) := spec_op vs o in
               let '(vs, rs) := spec_ops vs os in (vs, r :: rs)
  end.

(** The queue at [q] in heap [h] holds the values [vs], oldest first: the
    nodes [ls] are distinct, linked in order, the last one ends the chain. *)
Definition queue_rep h q (vs : list T) : Prop :=
  exists ls : list loc,
    NoDup ls /\ length ls = length vs /\ head q = ls !! 0 /\ tail q = last ls /\
    forall i l v, ls !! i = Some l -> vs !! i = Some v -> h !! l = Some (Node v (ls !! S i)).
End ops.

(** ** The concurrent queue *)

(** Where a goroutine is inside [Push] or [Pop]: each constructor is the next
    access to the memory of the queue, with the local variables set so far. *)
Inductive qpc (T : Type) :=
  | PushTest (t : T)                           (* newNode := ...; q.tail == nil *)
  | PushHead (newNode : loc)                   (* q.head = newNode *)
  | PushLast (newNode : loc)                   (* q.tail, of q.tail.next = newNode *)
  | PushLink (newNode last_loc : loc)          (* last.next = newNode *)
  | PushTail (newNode : loc)                   (* q.tail = newNode *)
  | PopTest                                    (* q.head == nil *)
  | PopFirst                                   (* q.head, of v := q.head.value *)
  | PopValue (first : option loc)              (* v := first.value *)
  | PopHead (v : T)                            (* q.head, of q.head.next *)
  | PopNext (v : T) (first : option loc)       (* first.next *)
  | PopStore (v : T) (rest : option loc)       (* q.head = rest *)
  | PopEmpty (v : T)                           (* q.head == nil *)
  | PopClear (v : T).                          (* q.tail = nil *)
Arguments PushTest {T}.
Arguments PushHead {T}.
Arguments PushLast {T}.
Arguments PushLink {T}.
Arguments PushTail {T}.
Arguments PopTest {T}.
Arguments PopFirst {T}.
Arguments PopValue {T}.
Arguments PopHead {T}.
Arguments PopNext {T}.
Arguments PopStore {T}.
Arguments PopEmpty {T}.
Arguments PopClear {T}.

Section concurrent.
Context {T : Type} (zero : T).
Implicit Types (h : gmap loc (node T)) (q : Queue).

Definition entry (o : qop T) : qpc T := match o with OpPush t => PushTest t | OpPop => PopTest end.

(** One access; the call goes on or returns. *)
Definition access h q (k : qpc T) : outcome (gmap loc (node T) * Queue * (qpc T + qres T)) :=
  match k with
  | PushTest t =>
      let '(h, newNode) := alloc h (Node t None) in
      Ok (h, q, inl (match tail q with None => PushHead newNode | Some _ => PushLast newNode end))
  | PushHead newNode => Ok (h, MkQueue (Some newNode) (tail q), inl (PushTail newNode))
  | PushLast newNode =>
      match tail q with Some last_loc => Ok (h, q, inl (PushLink newNode last_loc)) | None => Panic end
  | PushLink newNode last_loc =>
      n ← load h (Some last_loc);
      Ok (<[last_loc := Node (value n) (Some newNode)]> h, q, inl (PushTail newNode))
  | PushTail newNode => Ok (h, MkQueue (head q) (Some newNode), inr RPush)
  | PopTest =>
      match head q with None => Ok (h, q, inr (RPop (zero, false))) | Some _ => Ok (h, q, inl PopFirst) end
  | PopFirst => Ok (h, q, inl (PopValue (head q)))
  | PopValue first => n ← load h first; Ok (h, q, inl (PopHead (value n)))
  | PopHead v => Ok (h, q, inl (PopNext v (head q)))
  | PopNext v first => n ← load h first; Ok (h, q, inl (PopStore v (next n)))
  | PopStore v rest => Ok (h, MkQueue rest (tail q), inl (PopEmpty v))
  | PopEmpty v =>
      match head q with None => Ok (h, q, inl (PopClear v)) | Some _ => Ok (h, q, inr (RPop (v, true))) end
  | PopClear v => Ok (h, MkQueue (head q) None, inr (RPop (v, true)))
  end.

(** A method run alone, for at most [n] accesses. *)
Fixpoint run_alone (n : nat) h q (k : qpc T) : outcome (gmap loc (node T) * Queue * qres T) :=
  match n with
  | O => Block
  | S n =>
      '(h, q, x) ← access h q k;
      match x with inl k => run_alone n h q k | inr r => Ok (h, q, r) end
  end.

(** Where a goroutine is inside a method of [ConcurrentQueue]: outside, past
    [mutex.Lock()], or past the queue's method with the deferred [Unlock]
    pending. *)
Inductive cpc := PcIdle | PcLocked (o : qop T) (k : qpc T) | PcUnlock (r : qres T).

Record cthread := CThread { todo : list (qop T); pc : cpc; results : list (qres T) }.

Record ConcurrentQueue := MkConcurrentQueue {
  cq_mutex : bool;
  cq_heap : gmap loc (node T);
  cq_queue : Queue;
  cq_threads : list cthread;
  cq_panicked : bool;
  cq_lin : list (nat * qop T * qres T)   (* the operations, in the order they took effect *)
}.

Definition NewConcurrentQueue (progs : list (list (qop T))) : ConcurrentQueue :=
  MkConcurrentQueue false ∅ NewQueue ((fun p => CThread p PcIdle []) <$> progs) false [].

(** The next step of goroutine [i] in [Push] or [Pop] of [ConcurrentQueue],
    if it can take one: [Lock], which waits while the mutex is locked, an
    access of the queue's method, or the deferred [Unlock], which is a fatal
    error on an unlocked mutex. *)
Definition goroutine (i : nat) (s : ConcurrentQueue) : option ConcurrentQueue :=
  let '(MkConcurrentQueue m h q ts panicked lin) := s in
  let at_pc m h q os k rs lin := Some (MkConcurrentQueue m h q (<[i := CThread os k rs]> ts) false lin) in
  let panics := Some (MkConcurrentQueue m h q ts true lin) in
  if panicked then None else
  match ts !! i with
  | None => None
  | Some (CThread os PcIdle rs) =>
      match os with
      | o :: os => if m then None else at_pc true h q os (PcLocked o (entry o)) rs lin
      | [] => None
      end
  | Some (CThread os (PcLocked o k) rs) =>
      match access h q k with
      | Ok (h, q, inl k) => at_pc m h q os (PcLocked o k) rs lin
      | Ok (h, q, inr r) => at_pc m h q os (PcUnlock r) rs (lin ++ [(i, o, r)])
      | Panic => panics
      | Block => None
      end
  | Some (CThread os (PcUnlock r) rs) =>
      if m then at_pc false h q os PcIdle (rs ++ [r]) lin else panics
  end.

Definition cq_step (s s' : ConcurrentQueue) : Prop := exists i, goroutine i s = Some s'.

Definition cq_system (progs : list (list (qop T))) : lts ConcurrentQueue :=
  Lts (fun s => s = NewConcurrentQueue progs) cq_step.

(** A schedule, as the goroutines that take the steps. *)
Fixpoint run_schedule (sched : list nat) (s : ConcurrentQueue) : option ConcurrentQueue :=
  match sched with
  | [] => Some s
  | i :: sched => match goroutine i s with Some s => run_schedule sched s | None => None end
  end.

Definition in_critical (t : cthread) : bool :=
  match pc t with PcIdle => false | _ => true end.

(** The results a goroutine has produced, the one it is about to return
    included. *)
Definition produced (t : cthread) : list (qres T) :=
  results t ++ match pc t with PcUnlock r => [r] | _ => [] end.

(** The part of the linearization a goroutine contributed. *)
Definition lin_of (i : nat) (lin : list (nat * qop T * qres T)) : list (nat * qop T * qres T) :=
  filter (fun e => e.1.1 = i) lin.

(** The operations a goroutine has yet to perform. *)
Definition pending (t : cthread) : list (qop T) :=
  match pc t with PcLocked o _ => [o] | _ => [] end ++ todo t.
End concurrent.

(** ** Sequential correctness *)
Section seq_proofs.
Context {T : Type} (zero : T).
Implicit Types (h : gmap loc (node T)) (q : Queue) (vs : list T).

Lemma NewQueue_rep h : queue_rep h NewQueue [].
Proof. exists []. split_and!; try done. constructor. Qed.

Lemma alloc_fresh h (n : node T) : exists l, alloc h n = (<[l := n]> h, l) /\ l ∉ dom h.
Proof. exists (fresh (dom h)). split; [reflexivity | apply is_fresh]. Qed.

(** A represented node is allocated. *)
Lemma rep_allocated h (ls : list loc) vs :
  length ls = length vs ->
  (forall i l v, ls !! i = Some l -> vs !! i = Some v -> h !! l = Some (Node v (ls !! S i))) ->
  forall l, l ∈ ls -> l ∈ dom h.
Proof.
  intros Hlen Hn l [i Hi]%list_elem_of_lookup_1.
  destruct (lookup_lt_is_Some_2 vs i) as [v Hv].
  - rewrite <- Hlen. by eapply lookup_lt_Some.
  - apply elem_of_dom. eexists. by eapply Hn.
Qed.

Lemma Push_rep h q vs t :
  queue_rep h q vs ->
  exists h' q', Push h q t = Ok (h', q') /\ queue_rep h' q' (vs ++ [t]).
Proof.
  intros (ls & Hnd & Hlen & Hhd & Htl & Hn). unfold Push.
  destruct (alloc_fresh h (Node t None)) as (new & -> & Hfresh).
  pose proof (rep_allocated h ls vs Hlen Hn) as Hal.
  assert (Hnew : new ∉ ls) by (intros Hin; apply Hfresh, Hal, Hin).
  destruct (last ls) as [k|] eqn:Hlast; rewrite Htl; simpl.
  - apply last_Some in Hlast as [ls0 ->].
    assert (Hk : new <> k) by set_solver.
    rewrite length_app in Hlen; simpl in Hlen.
    destruct (lookup_lt_is_Some_2 vs (length ls0)) as [v Hv]; [lia | ].
    rewrite lookup_insert_ne by done.
    pose proof (Hn (length ls0) k v) as Hkv.
    rewrite list_lookup_middle in Hkv by done. rewrite (Hkv eq_refl Hv). simpl.
    do 2 eexists. split; [reflexivity | ].
    exists ((ls0 ++ [k]) ++ [new]). split_and!.
    + apply NoDup_app. split_and!; [done | set_solver | apply NoDup_singleton].
    + rewrite !length_app. simpl. lia.
    + simpl. rewrite Hhd. destruct ls0; done.
    + by rewrite last_snoc.
    + intros i l w Hl Hw. apply lookup_snoc_Some in Hl as [[Hi Hl] | [Hi ->]].
      * rewrite length_app in Hi; simpl in Hi.
        rewrite lookup_app_l in Hw by lia.
        destruct (decide (l = k)) as [-> | Hlk].
        -- assert (i = length ls0) as ->.
           { eapply NoDup_lookup; [exact Hnd | exact Hl | ]. by rewrite list_lookup_middle. }
           rewrite lookup_insert_eq. simplify_eq.
           rewrite lookup_app_r; rewrite length_app; simpl; [ | lia].
           by replace (S (length ls0) - (length ls0 + 1)) with 0 by lia.
        -- rewrite lookup_insert_ne by done. rewrite lookup_insert_ne.
           2:{ intros ->. apply Hnew. by eapply list_elem_of_lookup_2. }
           rewrite (Hn i l w Hl Hw). do 2 f_equal.
           assert (S i < length (ls0 ++ [k])).
           { rewrite length_app; simpl. apply lookup_snoc_Some in Hl as [[? _]|[? ->]]; [lia | done]. }
           by rewrite (lookup_app_l (ls0 ++ [k])).
      * rewrite length_app in Hi; simpl in Hi.
        rewrite lookup_app_r in Hw by lia.
        replace (i - length vs) with 0 in Hw by lia. simplify_eq/=.
        rewrite lookup_insert_ne by done. rewrite lookup_insert_eq. do 2 f_equal.
        symmetry. apply lookup_ge_None_2. rewrite !length_app. simpl. lia.
  - apply last_None in Hlast as ->. simpl in *. destruct vs; [ | done].
    do 2 eexists. split; [reflexivity | ].
    exists [new]. split_and!; try done; [apply NoDup_singleton | ].
    intros [|i] l v ??; simplify_eq/=; by rewrite lookup_insert_eq.
Qed.

Lemma Pop_rep h q vs :
  queue_rep h q vs ->
  exists q', Pop zero h q =
      Ok (q', match vs with [] => (zero, false) | v :: _ => (v, true) end) /\
    queue_rep h q' (List.tl vs).
Proof.
  intros (ls & Hnd & Hlen & Hhd & Htl & Hn). unfold Pop.
  destruct vs as [|v vs], ls as [|l ls]; simplify_eq/=.
  - rewrite Hhd. exists q. split; [done | ]. exists []. split_and!; done.
  - rewrite Hhd. simpl. rewrite (Hn 0 l v) by done. simpl.
    eexists. split; [reflexivity | ].
    exists ls. apply NoDup_cons in Hnd as [Hl Hnd]. split_and!; try done.
    + simpl. rewrite Htl. by destruct ls.
    + intros i k w Hk Hw. by apply (Hn (S i) k w).
Qed.

(** One operation refines one step of the list specification. *)
Lemma run_op_refines h q vs o :
  queue_rep h q vs ->
  exists h' q', run_op zero h q o = Ok (h', q', (spec_op zero vs o).2) /\
    queue_rep h' q' (spec_op zero vs o).1.
Proof.
  intros Hrep. destruct o as [t|]; simpl.
  - destruct (Push_rep h q vs t Hrep) as (h' & q' & -> & Hrep'). simpl. eauto.
  - destruct (Pop_rep h q vs Hrep) as (q' & -> & Hrep'). simpl.
    exists h, q'. by destruct vs.
Qed.

Lemma run_ops_rep h q vs os :
  queue_rep h q vs ->
  exists h' q', run_ops zero h q os = Ok (h', q', (spec_ops zero vs os).2) /\
    queue_rep h' q' (spec_ops zero vs os).1.
Proof.
  revert h q vs. induction os as [|o os IH]; intros h q vs Hrep; simpl; [eauto | ].
  destruct (run_op_refines h q vs o Hrep) as (h1 & q1 & -> & Hrep1).
  destruct (spec_op zero vs o) as [vs1 r]; simpl in *.
  destruct (IH h1 q1 vs1 Hrep1) as (h2 & q2 & -> & Hrep2). simpl.
  destruct (spec_ops zero vs1 os) as [vs2 rs]; simpl in *. eauto.
Qed.

(** The accesses of a method, run alone, are [Push] or [Pop]. *)
Lemma run_alone_run_op h q o : run_alone zero 8 h q (entry o) = run_op zero h q o.
Proof.
  destruct o as [t|], q as [[hd|] [tl|]]; simpl; try done.
  - unfold Push. simpl. by destruct (_ !! tl).
  - unfold Push. simpl. by destruct (_ !! tl).
  - unfold Pop. simpl. destruct (h !! hd) as [[v [nx|]]|] eqn:E; simpl; rewrite ?E; done.
  - unfold Pop. simpl. destruct (h !! hd) as [[v [nx|]]|] eqn:E; simpl; rewrite ?E; done.
Qed.
End seq_proofs.

(** Any sequence of [Push] and [Pop] calls on a new queue runs without a
    nil dereference and returns exactly what an unbounded FIFO list returns:
    the pointer-based queue refines the list specification. *)
Theorem run_ops_refines {T} (zero : T) (os : list (qop T)) :
  exists h q, run_ops zero ∅ NewQueue os = Ok (h, q, (spec_ops zero [] os).2).
Proof.
  destruct (run_ops_rep zero ∅ NewQueue [] os (NewQueue_rep ∅)) as (h & q & E & _). eauto.
Qed.

(** ** Concurrent correctness *)
Section conc_proofs.
Context {T : Type} (zero : T).

Lemma spec_ops_app (vs : list T) os os' :
  spec_ops zero vs (os ++ os') =
  let '(vs1, rs1) := spec_ops zero vs os in
  let '(vs2, rs2) := spec_ops zero vs1 os' in (vs2, rs1 ++ rs2).
Proof.
  revert vs. induction os as [|o os IH]; intros vs; simpl.
  - by destruct (spec_ops zero vs os').
  - destruct (spec_op zero vs o) as [vs1 r]. rewrite IH.
    destruct (spec_ops zero vs1 os) as [vs2 rs2].
    by destruct (spec_ops zero vs2 os').
Qed.

Lemma lin_of_snoc i (lin : list (nat * qop T * qres T)) e :
  lin_of i (lin ++ [e]) = lin_of i lin ++ (if decide (e.1.1 = i) then [e] else []).
Proof. unfold lin_of. rewrite filter_app. reflexivity. Qed.

(** A goroutine's share of the linearization is its own program, in order,
    with the results it obtained. *)
Definition thread_ok (lin : list (nat * qop T * qres T)) (i : nat) (p : list (qop T)) (t : cthread) : Prop :=
  (fun e => e.1.2) <$> lin_of i lin = take (length (lin_of i lin)) p /\
  pending t = drop (length (lin_of i lin)) p /\
  snd <$> lin_of i lin = produced t.

(** The rest of a method, run alone, gives the result of the specification and
    leaves the queue it leaves. *)
Definition completes h q (k : qpc T) (vs : list T) (o : qop T) : Prop :=
  exists n h' q', run_alone zero n h q k = Ok (h', q', (spec_op zero vs o).2) /\
    queue_rep h' q' (spec_op zero vs o).1.

Lemma completes_entry h q vs o : queue_rep h q vs -> completes h q (entry o) vs o.
Proof.
  intros Hrep. destruct (run_op_refines zero h q vs o Hrep) as (h' & q' & E & Hrep').
  exists 8, h', q'. by rewrite run_alone_run_op.
Qed.

Lemma completes_access h q k vs o :
  completes h q k vs o ->
  exists h' q' x, access zero h q k = Ok (h', q', x) /\
    match x with
    | inl k' => completes h' q' k' vs o
    | inr r => r = (spec_op zero vs o).2 /\ queue_rep h' q' (spec_op zero vs o).1
    end.
Proof.
  intros ([|n] & h' & q' & E & Hrep); [done | ]. cbn [run_alone] in E.
  destruct (access zero h q k) as [[[h1 q1] x]| | ] eqn:Ea; [ | done..]. cbn in E.
  exists h1, q1, x. split; [done | ]. destruct x as [k'|r]; [by exists n, h', q' | ].
  by injection E as -> -> ->.
Qed.

(** The values of the queue, by the operations that took effect. *)
Definition values (lin : list (nat * qop T * qres T)) : list T := (spec_ops zero [] ((fun e => e.1.2) <$> lin)).1.

(** Nobody inside and the queue whole, or one goroutine inside. *)
Inductive memory_ok (s : ConcurrentQueue) : Prop :=
  | memory_free :
      cq_mutex s = false -> (forall j t, cq_threads s !! j = Some t -> in_critical t = false) ->
      queue_rep (cq_heap s) (cq_queue s) (values (cq_lin s)) -> memory_ok s
  | memory_held i t :
      cq_mutex s = true -> cq_threads s !! i = Some t ->
      (forall j u, cq_threads s !! j = Some u -> in_critical u = true -> j = i) ->
      match pc t with
      | PcIdle => False
      | PcLocked o k => completes (cq_heap s) (cq_queue s) k (values (cq_lin s)) o
      | PcUnlock _ => queue_rep (cq_heap s) (cq_queue s) (values (cq_lin s))
      end -> memory_ok s.

Record cq_inv (progs : list (list (qop T))) (s : ConcurrentQueue) : Prop := {
  inv_memory : memory_ok s;
  inv_calm : cq_panicked s = false;
  inv_lin : (spec_ops zero [] ((fun e => e.1.2) <$> cq_lin s)).2 = snd <$> cq_lin s;
  inv_threads : forall i t, cq_threads s !! i = Some t ->
    exists p, progs !! i = Some p /\ thread_ok (cq_lin s) i p t
}.

Lemma cq_inv_init progs : cq_inv progs (NewConcurrentQueue progs).
Proof.
  split; simpl; try done.
  - apply memory_free; simpl; [done | | apply NewQueue_rep].
    by intros j t [p [-> _]]%list_lookup_fmap_Some.
  - intros i t (p & -> & Hp)%list_lookup_fmap_Some. exists p. done.
Qed.

(** Replacing thread [i] keeps the clauses about the other threads. *)
Lemma threads_update (P : nat -> cthread -> Prop) (ts : list (@cthread T)) i t :
  (forall j u, ts !! j = Some u -> j <> i -> P j u) -> P i t ->
  forall j u, <[i := t]> ts !! j = Some u -> P j u.
Proof.
  intros Hother Hi j u Hj.
  apply list_lookup_insert_Some in Hj as [(-> & -> & _) | [Hne Hj]]; [done | ]. by apply Hother.
Qed.

Ltac on_threads :=
  match goal with
  | |- forall j u, <[_ := _]> _ !! _ = Some _ -> @?P j u => apply (threads_update P)
  end.

(** While goroutine [i] is inside, the others stay out. *)
Lemma held_insert m h q (ts : list cthread) lin i t t' :
  ts !! i = Some t ->
  (forall j u, ts !! j = Some u -> in_critical u = true -> j = i) ->
  match pc t' with
  | PcIdle => False
  | PcLocked o k => completes h q k (values lin) o
  | PcUnlock _ => queue_rep h q (values lin)
  end -> m = true -> memory_ok (MkConcurrentQueue m h q (<[i := t']> ts) false lin).
Proof.
  intros Hi Hin Hk ->. apply (memory_held _ i t'); simpl; try done.
  - apply list_lookup_insert_eq. by eapply lookup_lt_Some.
  - on_threads; [intros j u Hj _; by apply Hin | done].
Qed.

Lemma thread_ok_other lin i j p o r (t : @cthread T) :
  thread_ok lin j p t -> j <> i -> thread_ok (lin ++ [(i, o, r)]) j p t.
Proof.
  unfold thread_ok. intros H Hne. rewrite lin_of_snoc. simpl.
  rewrite decide_False by done. by rewrite app_nil_r.
Qed.

Lemma thread_ok_body lin i p o k os rs r :
  thread_ok lin i p (CThread os (PcLocked o k) rs) ->
  thread_ok (lin ++ [(i, o, r)]) i p (CThread os (PcUnlock r) rs).
Proof.
  unfold thread_ok, pending, produced. simpl. intros (Hops & Hpend & Hres).
  rewrite lin_of_snoc. simpl. rewrite decide_True by done.
  rewrite !fmap_app, !length_app. simpl. rewrite app_nil_r in Hres.
  set (n := length (lin_of i lin)) in *.
  assert (Ho : p !! n = Some o) by (rewrite <- (Nat.add_0_r n), <- lookup_drop, <- Hpend; done).
  split_and!.
  - rewrite Nat.add_1_r, (take_S_r _ _ _ Ho). by rewrite Hops.
  - rewrite <- drop_drop, <- Hpend. done.
  - by rewrite Hres.
Qed.

(** The clause about the threads after a step that has no effect yet. *)
Lemma threads_move (progs : list (list (qop T))) (ts : list cthread) lin i t t' :
  ts !! i = Some t ->
  (forall j u, ts !! j = Some u -> exists p, progs !! j = Some p /\ thread_ok lin j p u) ->
  pending t' = pending t -> produced t' = produced t ->
  forall j u, <[i := t']> ts !! j = Some u -> exists p, progs !! j = Some p /\ thread_ok lin j p u.
Proof.
  intros Hi Hth E1 E2. on_threads; [intros; by apply Hth | ].
  destruct (Hth i t Hi) as (p & Hp & H1 & H2 & H3). exists p. split; [done | ].
  unfold thread_ok. by rewrite E1, E2.
Qed.

Lemma values_snoc lin i o r : values (lin ++ [(i, o, r)]) = (spec_op zero (values lin) o).1.
Proof.
  unfold values. rewrite fmap_app, spec_ops_app. simpl.
  destruct (spec_ops zero [] _) as [vs rs]. simpl. by destruct (spec_op zero vs o).
Qed.

Lemma lin_snoc lin i o :
  (spec_ops zero [] ((fun e => e.1.2) <$> lin)).2 = snd <$> lin ->
  let lin' := lin ++ [(i, o, (spec_op zero (values lin) o).2)] in
  (spec_ops zero [] ((fun e => e.1.2) <$> lin')).2 = snd <$> lin'.
Proof.
  unfold values. intros E. simpl. rewrite !fmap_app, spec_ops_app. simpl.
  destruct (spec_ops zero [] _) as [vs rs]. simpl in *. destruct (spec_op zero vs o). simpl. by subst.
Qed.

(** The goroutine inside takes a step of its method. *)
Lemma cq_inv_access progs h q ts lin i os o k rs s' :
  cq_inv progs (MkConcurrentQueue true h q ts false lin) ->
  ts !! i = Some (CThread os (PcLocked o k) rs) ->
  goroutine zero i (MkConcurrentQueue true h q ts false lin) = Some s' -> cq_inv progs s'.
Proof.
  intros [Hmem _ Hlin Hth] Hi E. simpl in *. rewrite Hi in E.
  destruct Hmem as [Hm _ _ | i0 t _ Hi0 Hin Hk]; [done | ]. simpl in *.
  rewrite <- (Hin i _ Hi eq_refl) in Hi0. rewrite Hi in Hi0. injection Hi0 as <-. simpl in Hk.
  rewrite <- (Hin i _ Hi eq_refl) in Hin.
  destruct (completes_access h q k _ o Hk) as (h' & q' & x & Ea & Hx). rewrite Ea in E.
  destruct x as [k'|r]; injection E as <-; split; simpl; try done.
  - by eapply held_insert.
  - by apply (threads_move _ _ _ _ _ _ Hi).
  - destruct Hx as [-> Hrep]. eapply held_insert; try done. by rewrite values_snoc.
  - destruct Hx as [-> _]. by apply lin_snoc.
  - on_threads.
    + intros j u Hj Hne. destruct (Hth j u Hj) as (p & Hp & Hok). exists p.
      split; [done | ]. by apply thread_ok_other.
    + destruct (Hth i _ Hi) as (p & Hp & Hok). exists p. split; [done | ]. by eapply thread_ok_body.
Qed.

Lemma cq_inv_step progs s s' : cq_inv progs s -> cq_step zero s s' -> cq_inv progs s'.
Proof.
  intros Hinv [i E]. pose proof Hinv as [Hmem Hp Hlin Hth].
  destruct s as [m h q ts panicked lin]. simpl in Hp, Hlin, Hth. subst panicked.
  destruct (ts !! i) as [[os p rs]|] eqn:Hi; [ | simpl in E; by rewrite Hi in E].
  destruct p as [|o k|r].
  - simpl in E. rewrite Hi in E. destruct os as [|o os], m; try done. injection E as <-.
    destruct Hmem as [_ Hout Hrep | ]; [ | done]. simpl in *. split; simpl; try done.
    + eapply held_insert; try done; [ | by apply completes_entry].
      intros j u Hj Hc. by rewrite (Hout j u Hj) in Hc.
    + by apply (threads_move _ _ _ _ _ _ Hi).
  - destruct m; [by eapply cq_inv_access | ].
    destruct Hmem as [_ Hout _ | ]; [ | done]. by specialize (Hout i _ Hi).
  - simpl in E. rewrite Hi in E. destruct Hmem as [_ Hout _ | i0 t Hm Hi0 Hin Hk].
    { by specialize (Hout i _ Hi). }
    simpl in *. subst m. injection E as <-. pose proof (Hin i _ Hi eq_refl) as <-.
    rewrite Hi in Hi0. injection Hi0 as <-. simpl in Hk. split; simpl; try done.
    + apply memory_free; simpl; [done | | done]. on_threads; [ | done].
      intros j u Hj Hne. destruct (in_critical u) eqn:Hc; [ | done]. by destruct Hne; apply (Hin j u).
    + apply (threads_move _ _ _ _ _ _ Hi); [done | done | ].
      unfold produced. simpl. by rewrite app_nil_r.
Qed.

Lemma cq_invariant progs : invariant (cq_system zero progs) (cq_inv progs).
Proof.
  apply invariant_ind.
  - intros s ->. apply cq_inv_init.
  - intros s s'. apply cq_inv_step.
Qed.

Lemma run_schedule_reachable progs sched s s' :
  reachable (cq_system zero progs) s -> run_schedule zero sched s = Some s' -> reachable (cq_system zero progs) s'.
Proof.
  revert s. induction sched as [|i sched IH]; intros s Hr E; simpl in E; [by injection E as <- | ].
  destruct (goroutine zero i s) as [s1|] eqn:E1; [ | done]. apply (IH s1); [ | done].
  eapply reachable_step; [exact Hr | by exists i].
Qed.
End conc_proofs.

(** C23: the concurrent queue is linearizable.  Any number of goroutines call
    [Push] and [Pop] and interleave at every access to the queue's memory, the
    mutex alone keeping them apart.  In every reachable state nothing has
    panicked; the operations that took effect, in the order they did, form a
    run of the sequential FIFO specification with the same results; and each
    goroutine's share of that run is the prefix of its own program, in program
    order, with the results the goroutine was given. *)
Theorem ConcurrentQueue_linearizable {T} (zero : T) (progs : list (list (qop T))) s :
  reachable (cq_system zero progs) s ->
  cq_panicked s = false /\
  (spec_ops zero [] ((fun e => e.1.2) <$> cq_lin s)).2 = snd <$> cq_lin s /\
  forall i t, cq_threads s !! i = Some t -> exists p, progs !! i = Some p /\
    (fun e => e.1.2) <$> lin_of i (cq_lin s) = take (length (lin_of i (cq_lin s))) p /\
    snd <$> lin_of i (cq_lin s) = produced t.
Proof.
  intros Hr. destruct (cq_invariant zero progs s Hr) as [_ Hp Hlin Hth].
  split; [done | ]. split; [done | ]. intros i t Hi. destruct (Hth i t Hi) as (p & Hpr & H1 & _ & H3). eauto.
Qed.

(** Two goroutines push and one pops twice, and is still inside its second
    [Pop] at the end. *)
Definition three_callers : list (list (qop nat)) := [[OpPush 7]; [OpPush 8]; [OpPop; OpPop]].
Definition contended : list nat := [0; 0; 0; 0; 0] ++ [2; 2; 2; 2; 2; 2; 2; 2; 2; 2] ++ [1; 1; 1; 1; 1] ++ [2; 2; 2; 2].

Lemma ConcurrentQueue_linearizable_witness :
  exists s, run_schedule 0 contended (NewConcurrentQueue three_callers) = Some s /\
    cq_lin s = [(0, OpPush 7, RPush); (2, OpPop, RPop (7, true)); (1, OpPush 8, RPush)] /\
    cq_panicked s = false /\
    (spec_ops 0 [] ((fun e => e.1.2) <$> cq_lin s)).2 = snd <$> cq_lin s.
Proof.
  eexists. match goal with |- ?P /\ _ => assert (E : P) by (vm_compute; reflexivity) end.
  split; [exact E | ]. split; [reflexivity | ].
  apply run_schedule_reachable with (progs := three_callers) in E; [ | by apply reachable_init].
  destruct (ConcurrentQueue_linearizable 0 three_callers _ E) as (H1 & H2 & _). by split.
Defined.

(** The mutex never deadlocks the queue: in every reachable state in which
    some goroutine still has a call to make or to finish, some goroutine can
    take a step. *)
Theorem ConcurrentQueue_progress {T} (zero : T) (progs : list (list (qop T))) s :
  reachable (cq_system zero progs) s ->
  (exists i t, cq_threads s !! i = Some t /\ (todo t <> [] \/ in_critical t = true)) ->
  exists s', cq_step zero s s'.
Proof.
  intros Hr (i & t & Hi & Hwork). destruct (cq_invariant zero progs s Hr) as [Hmem Hp _ _].
  destruct s as [m h q ts panicked lin]; simpl in *. subst panicked.
  destruct Hmem as [Hm Hout _ | j [os p rs] Hm Hj _ Hk]; simpl in *; subst m.
  - destruct t as [[|o os] p rs]; destruct Hwork as [Hwork|Hwork]; try done;
      try (by rewrite (Hout i _ Hi) in Hwork).
    specialize (Hout i _ Hi). destruct p; [ | done..].
    eexists. exists i. simpl. by rewrite Hi.
  - destruct p as [|o k|r]; [done | | ]; unfold cq_step.
    + destruct (completes_access zero h q k _ o Hk) as (h' & q' & [k'|r] & Ea & _);
        eexists; exists j; simpl; by rewrite Hj, Ea.
    + eexists. exists j. simpl. by rewrite Hj.
Qed.

Lemma ConcurrentQueue_progress_witness :
  exists s', cq_step 0 (NewConcurrentQueue [[OpPush 7]]) s'.
Proof.
  apply (ConcurrentQueue_progress 0 [[OpPush 7]]).
  - apply reachable_init. reflexivity.
  - exists 0, (CThread [OpPush 7] PcIdle []). split; [reflexivity | left; discriminate].
Defined.
