(* ===== verification/Semaphore.v ===== *)
(** * The counting semaphore of [lab0/semaphore.go]

    [Post] and [Wait] run in any number of goroutines over an atomic counter
    and a channel of capacity one.  Each atomic access and each channel
    operation is one step.  A goroutine blocked in [select] is parked in the
    channel's FIFO receive queue, and a send hands its value directly to the
    first parked receiver, as the Go runtime does. *)
From S2P Require Import Prelude.

Local Open Scope Z_scope.

(** ** State *)

(** What [ctx.Err()] returns once the context is done. *)
Inductive ctx_error := Canceled | DeadlineExceeded.

(** Program counter of a [Wait] call.  [WaitDone None] returned [nil]. *)
Inductive wait_pc :=
  | WaitLoad                     (* v := s.available.Load() *)
  | WaitCas (v : Z)              (* s.available.CompareAndSwap(v, v-1) *)
  | WaitCheckCtx                 (* the first, non-blocking select *)
  | WaitSelect                   (* the second select *)
  | WaitParked                   (* blocked in the second select *)
  | WaitDone (err : option ctx_error).

(** Program counter of a [Post] call. *)
Inductive post_pc := PostAdd | PostSend | PostDone.

(** A goroutine: a [Post] call, or a [Wait] call with the state of its context
    ([None] while the context is not done). *)
Inductive goroutine :=
  | GPost (p : post_pc)
  | GWait (p : wait_pc) (ctx : option ctx_error).

Record Semaphore := MkSemaphore {
  signal : bool;              (* the channel's one-slot buffer is full *)
  available : Z;              (* atomic.Int64 *)
  parked : list nat;          (* the channel's queue of blocked receivers *)
  goroutines : list goroutine
}.

Definition NewSemaphore (gs : list goroutine) : Semaphore := MkSemaphore false 0 [] gs.

Definition set_goroutine (s : Semaphore) (i : nat) (g : goroutine) : Semaphore :=
  MkSemaphore (signal s) (available s) (parked s) (<[i := g]> (goroutines s)).

(** ** Steps *)

(** The next step of goroutine [i] inside [Post]. *)
Definition Post (s : Semaphore) (i : nat) (p : post_pc) : option Semaphore :=
  match p with
  | PostAdd =>
      Some (MkSemaphore (signal s) (i64 (available s + 1)) (parked s)
              (<[i := GPost PostSend]> (goroutines s)))
  | PostSend =>
      let s := set_goroutine s i (GPost PostDone) in
      match parked s with
      | j :: js =>
          match goroutines s !! j with
          | Some (GWait WaitParked ctx) =>
              Some (MkSemaphore (signal s) (available s) js
                      (<[j := GWait WaitLoad ctx]> (goroutines s)))
          | _ => None
          end
      | [] => Some (MkSemaphore true (available s) [] (goroutines s))
      end
  | PostDone => None
  end.

(** The next step of goroutine [i] inside [Wait].  [pick_ctx] is the choice of
    the second [select] when both of its cases are ready. *)
Definition Wait (s : Semaphore) (i : nat) (pick_ctx : bool) (p : wait_pc)
    (ctx : option ctx_error) : option Semaphore :=
  match p with
  | WaitLoad =>
      let v := available s in
      Some (set_goroutine s i (GWait (if 0 <? v then WaitCas v else WaitCheckCtx) ctx))
  | WaitCas v =>
      if available s =? v
      then Some (MkSemaphore (signal s) (i64 (v - 1)) (parked s)
                   (<[i := GWait (WaitDone None) ctx]> (goroutines s)))
      else Some (set_goroutine s i (GWait WaitLoad ctx))
  | WaitCheckCtx =>
      Some (set_goroutine s i
              (GWait (match ctx with Some e => WaitDone (Some e) | None => WaitSelect end) ctx))
  | WaitSelect =>
      let recv := Some (MkSemaphore false (available s) (parked s)
                          (<[i := GWait WaitLoad ctx]> (goroutines s))) in
      match ctx with
      | Some e =>
          let done := Some (set_goroutine s i (GWait (WaitDone (Some e)) ctx)) in
          if signal s then (if pick_ctx then done else recv) else done
      | None =>
          if signal s then recv
          else Some (MkSemaphore false (available s) (parked s ++ [i])
                       (<[i := GWait WaitParked ctx]> (goroutines s)))
      end
  | WaitParked =>
      match ctx with
      | Some e => Some (MkSemaphore (signal s) (available s) (filter (fun j => j <> i) (parked s))
                          (<[i := GWait (WaitDone (Some e)) ctx]> (goroutines s)))
      | None => None
      end
  | WaitDone _ => None
  end.

Inductive sem_label := Run (i : nat) (pick_ctx : bool) | CtxDone (i : nat) (e : ctx_error).

Definition sem_exec (l : sem_label) (s : Semaphore) : option Semaphore :=
  match l with
  | Run i pick =>
      match goroutines s !! i with
      | Some (GPost p) => Post s i p
      | Some (GWait p ctx) => Wait s i pick p ctx
      | None => None
      end
  | CtxDone i e =>
      match goroutines s !! i with
      | Some (GWait p None) => Some (set_goroutine s i (GWait p (Some e)))
      | _ => None
      end
  end.

(** A schedule: run the labels in order. *)
Fixpoint sem_run (ls : list sem_label) (s : Semaphore) : option Semaphore :=
  match ls with
  | [] => Some s
  | l :: ls => match sem_exec l s with Some s => sem_run ls s | None => None end
  end.

Definition sem_step (s s' : Semaphore) : Prop := exists l, sem_exec l s = Some s'.

(** Calls that have not started. *)
Definition fresh_call (g : goroutine) : Prop := g = GPost PostAdd \/ exists ctx, g = GWait WaitLoad ctx.

Definition sem_system (gs : list goroutine) : lts Semaphore :=
  Lts (fun s => s = NewSemaphore gs) sem_step.

(** ** Counting *)

(** A [Post] that has incremented the counter; a [Wait] that returned [nil]. *)
Definition posted (g : goroutine) : bool :=
  match g with GPost PostAdd => false | GPost _ => true | _ => false end.
Definition acquired (g : goroutine) : bool :=
  match g with GWait (WaitDone None) _ => true | _ => false end.

(** A [Wait] call in progress. *)
Definition waiting (g : goroutine) : bool :=
  match g with GWait (WaitDone _) _ => false | GWait _ _ => true | _ => false end.

(** The ghost-free invariant. *)
Definition pc_ok (s : Semaphore) (i : nat) (g : goroutine) : Prop :=
  match g with
  | GWait (WaitCas v) _ => 0 < v < 2 ^ 63
  | GWait (WaitDone (Some e)) ctx => ctx = Some e
  | GWait WaitParked _ => i ∈ parked s
  | _ => True
  end.

Record sem_inv (s : Semaphore) : Prop := {
  sem_count : available s = tally posted (goroutines s) - tally acquired (goroutines s);
  sem_nonneg : 0 <= available s;
  sem_pc : forall i g, goroutines s !! i = Some g -> pc_ok s i g;
  sem_parked : forall j, j ∈ parked s -> exists ctx, goroutines s !! j = Some (GWait WaitParked ctx);
  sem_nodup : NoDup (parked s);
  sem_signal : parked s <> [] -> signal s = false
}.

(** ** The invariant is kept *)
Section invariant.
Implicit Types (s : Semaphore) (gs : list goroutine).

(** Changing goroutine [i] to something that is not parked, when it was not
    parked, without touching the queue. *)
Lemma sem_inv_local s i g g' sig av :
  sem_inv s -> goroutines s !! i = Some g ->
  (forall ctx, g <> GWait WaitParked ctx) ->
  let s' := MkSemaphore sig av (parked s) (<[i := g']> (goroutines s)) in
  pc_ok s i g' -> (forall ctx, g' <> GWait WaitParked ctx) ->
  av = tally posted (goroutines s') - tally acquired (goroutines s') -> 0 <= av ->
  (parked s <> [] -> sig = false) ->
  sem_inv s'.
Proof.
  intros [Hc Hn Hpc Hp Hnd Hs] Hi Hg s' Hok Hg' Hav Hav0 Hsig. split; simpl; try done.
  - intros k u Hk. apply list_lookup_insert_Some in Hk as [(-> & -> & _) | [Hne Hk]].
    + by destruct u as [|[] ?].
    + pose proof (Hpc k u Hk). by destruct u as [|[] ?].
  - intros k Hk. destruct (decide (k = i)) as [-> | Hne].
    + destruct (Hp i Hk) as [ctx Hctx]. rewrite Hi in Hctx. injection Hctx as ->. by destruct (Hg ctx).
    + rewrite list_lookup_insert_ne by done. by apply Hp.
Qed.

(** Waking a parked goroutine [j]: it leaves the queue. *)
Lemma sem_inv_unpark s j ctx g' js sig :
  sem_inv s -> goroutines s !! j = Some (GWait WaitParked ctx) ->
  acquired g' = false -> posted g' = false -> (forall c, g' <> GWait WaitParked c) ->
  pc_ok s j g' ->
  (forall k, k ∈ js <-> k ∈ parked s /\ k <> j) -> NoDup js ->
  (js <> [] -> sig = false) ->
  sem_inv (MkSemaphore sig (available s) js (<[j := g']> (goroutines s))).
Proof.
  intros [Hc Hn Hpc Hp Hnd Hs] Hj Ha Hpo Hg' Hok Hjs Hnd' Hsig. split; simpl; try done.
  - rewrite !(tally_insert _ _ j _ _ Hj), Ha, Hpo. simpl. lia.
  - intros k u Hk. apply list_lookup_insert_Some in Hk as [(-> & -> & _) | [Hne Hk]].
    + destruct u as [|[] c]; simpl in *; try done. by destruct (Hg' c).
    + pose proof (Hpc k u Hk) as H. destruct u as [|[] ?]; simpl in *; try done.
      apply Hjs. split; [done | congruence].
  - intros k [Hk Hne]%Hjs. rewrite list_lookup_insert_ne by done. by apply Hp.
Qed.

Lemma Post_inv s s' i p :
  len (goroutines s) < 2 ^ 63 ->
  sem_inv s -> goroutines s !! i = Some (GPost p) -> Post s i p = Some s' -> sem_inv s'.
Proof.
  intros Hlen Hinv Hi Hstep. pose proof Hinv as [Hc Hn Hpc Hp Hnd Hs].
  destruct p; simpl in Hstep; [ | | done].
  - injection Hstep as <-.
    pose proof (tally_bounds posted (<[i := GPost PostSend]> (goroutines s))) as Hb.
    pose proof (tally_bounds acquired (goroutines s)) as Hb'.
    unfold len in *. rewrite length_insert in Hb. rewrite (tally_insert _ _ i _ _ Hi) in Hb. simpl in Hb.
    rewrite i64_small by lia.
    eapply sem_inv_local; simpl; try done; [ | lia].
    rewrite !(tally_insert _ _ i _ _ Hi). simpl. lia.
  - assert (Hinv1 : sem_inv (set_goroutine s i (GPost PostDone))).
    { eapply sem_inv_local; simpl; try done.
      rewrite !(tally_insert _ _ i _ _ Hi). simpl. lia. }
    destruct (parked s) as [|j js] eqn:Hq.
    + injection Hstep as <-.
      pose proof (sem_inv_local s i _ (GPost PostDone) true (available s) Hinv Hi) as L.
      simpl in *. rewrite Hq in L. apply L; try done.
      rewrite !(tally_insert _ _ i _ _ Hi). simpl. lia.
    + destruct (<[i := GPost PostDone]> (goroutines s) !! j) as [[|[] ctx]|] eqn:Hj; try done.
      injection Hstep as <-. apply NoDup_cons in Hnd as [Hnin Hnd].
      apply (sem_inv_unpark _ j ctx (GWait WaitLoad ctx) js (signal s) Hinv1); simpl; try done.
      * rewrite Hq. set_solver.
      * intros _. by apply Hs.
Qed.

Lemma Wait_inv s s' i pick p ctx :
  len (goroutines s) < 2 ^ 63 ->
  sem_inv s -> goroutines s !! i = Some (GWait p ctx) -> Wait s i pick p ctx = Some s' -> sem_inv s'.
Proof.
  intros Hlen Hinv Hi Hstep. pose proof Hinv as [Hc Hn Hpc Hp Hnd Hs].
  assert (Hav : available s <= len (goroutines s)).
  { pose proof (tally_bounds posted (goroutines s)). pose proof (tally_bounds acquired (goroutines s)). lia. }
  pose proof (Hpc i _ Hi) as Hok.
  assert (Hlocal : forall g' sig, (forall c, p = WaitParked -> ctx = c -> False) ->
    acquired g' = false -> posted g' = false -> acquired (GWait p ctx) = false ->
    (forall c, g' <> GWait WaitParked c) -> pc_ok s i g' -> (parked s <> [] -> sig = false) ->
    sem_inv (MkSemaphore sig (available s) (parked s) (<[i := g']> (goroutines s)))).
  { intros g' sig Hpk Ha Hpo Ha' Hg' Hok' Hsig. eapply sem_inv_local; simpl; try done.
    - intros c [= -> ->]. by apply (Hpk c).
    - rewrite !(tally_insert _ _ i _ _ Hi), Ha, Ha', Hpo. simpl. lia. }
  destruct p as [|v| | | |err]; simpl in Hstep.
  - injection Hstep as <-. apply Hlocal; try done; destruct (0 <? available s) eqn:E; zbool; simpl; try done. lia.
  - branch; injection Hstep as <-; [ | by apply Hlocal].
    simpl in Hok. rewrite i64_small by lia.
    eapply sem_inv_local; simpl; try done; [ | lia].
    rewrite !(tally_insert _ _ i _ _ Hi). simpl. lia.
  - injection Hstep as <-. apply Hlocal; try done; by destruct ctx.
  - destruct ctx as [e|]; [ | destruct (signal s) eqn:E]; simplify_eq; try by apply Hlocal.
    + assert (Hdone : sem_inv (set_goroutine s i (GWait (WaitDone (Some e)) (Some e)))) by by apply Hlocal.
      repeat branch; simplify_eq; try done. by apply Hlocal.
    + assert (Hnin : i ∉ parked s).
      { intros [c Hc']%Hp. rewrite Hi in Hc'. done. }
      split; simpl; try done.
      * rewrite !(tally_insert _ _ i _ _ Hi). simpl. lia.
      * intros k u Hk. apply list_lookup_insert_Some in Hk as [(<- & <- & _) | [Hne Hk]].
        -- simpl. set_solver.
        -- pose proof (Hpc k u Hk) as H. destruct u as [|[] c]; simpl in *; set_solver.
      * intros k Hk. apply elem_of_app in Hk as [Hk | ->%list_elem_of_singleton].
        -- rewrite list_lookup_insert_ne by congruence. by apply Hp.
        -- eexists. apply list_lookup_insert_eq. by eapply lookup_lt_Some.
      * apply NoDup_app. split_and!; [done | set_solver | apply NoDup_singleton].
  - destruct ctx as [e|]; [ | done]. injection Hstep as <-.
    eapply sem_inv_unpark; try done.
    + intros k. rewrite list_elem_of_filter. naive_solver.
    + by apply NoDup_filter.
    + intros Hne. apply Hs. intros Hnil. by rewrite Hnil in Hne.
  - done.
Qed.

Lemma sem_inv_step s s' :
  len (goroutines s) < 2 ^ 63 -> sem_inv s -> sem_step s s' ->
  sem_inv s' /\ len (goroutines s') = len (goroutines s).
Proof.
  intros Hlen Hinv [[i pick | i e] Hstep]; simpl in Hstep;
    destruct (goroutines s !! i) as [[p|p ctx]|] eqn:Hi; try done.
  - split; [by eapply Post_inv | ]. destruct p; simpl in Hstep; try done; simplify_eq; simpl.
    + unfold len. by rewrite length_insert.
    + repeat case_match; simplify_eq; simpl; unfold len; by rewrite ?length_insert.
  - split; [by eapply Wait_inv | ].
    destruct p; simpl in Hstep; repeat case_match; simplify_eq; simpl; unfold len; by rewrite ?length_insert.
  - destruct ctx; simplify_eq. simpl. split; [ | unfold len; by rewrite length_insert].
    destruct Hinv as [Hc Hn Hpc Hp Hnd Hs]. split; simpl; try done.
    + rewrite !(tally_insert _ _ i _ _ Hi). destruct p as [| | | | |[]]; simpl; lia.
    + intros k u Hk. apply list_lookup_insert_Some in Hk as [(<- & <- & _) | [Hne Hk]].
      * pose proof (Hpc i _ Hi) as H. by destruct p as [| | | | |[]].
      * pose proof (Hpc k u Hk). by destruct u as [|[] ?].
    + intros k Hk. destruct (decide (k = i)) as [-> | Hne].
      * destruct (Hp i Hk) as [c Hc']. rewrite Hi in Hc'. simplify_eq.
        eexists. apply list_lookup_insert_eq. by eapply lookup_lt_Some.
      * rewrite list_lookup_insert_ne by done. by apply Hp.
Qed.

Lemma sem_invariant gs :
  Forall fresh_call gs -> len gs < 2 ^ 63 ->
  invariant (sem_system gs) (fun s => sem_inv s /\ len (goroutines s) = len gs).
Proof.
  intros Hf Hlen. apply invariant_ind.
  - intros s ->. split; [ | done]. split; simpl; try done.
    + assert (tally posted gs = 0 /\ tally acquired gs = 0) as [-> ->]; [ | done].
      clear Hlen. induction Hf as [|g gs Hg _ [IH1 IH2]]; [done | ].
      rewrite !tally_cons, IH1, IH2. by destruct Hg as [-> | [ctx ->]].
    + intros i g Hi. rewrite Forall_lookup in Hf. by destruct (Hf i g Hi) as [-> | [ctx ->]].
    + set_solver.
    + constructor.
  - intros s s' [Hinv Hl] Hstep. rewrite <- Hl in Hlen |- *.
    destruct (sem_inv_step s s' Hlen Hinv Hstep) as [H1 H2]. split; [done | lia].
Qed.
End invariant.

(** ** Safety *)

Ltac fresh_calls :=
  repeat (apply List.Forall_cons; [unfold fresh_call; eauto | ]); apply List.Forall_nil.

Lemma sem_run_reachable ls gs s :
  sem_run ls (NewSemaphore gs) = Some s -> reachable (sem_system gs) s.
Proof.
  assert (forall s0, reachable (sem_system gs) s0 -> sem_run ls s0 = Some s -> reachable (sem_system gs) s) as H.
  { induction ls as [|l ls IH]; intros s0 H0 Hrun; simpl in Hrun; [by simplify_eq | ].
    destruct (sem_exec l s0) as [s1|] eqn:E; [ | done].
    apply (IH s1); [ | done]. eapply reachable_step; [exact H0 | ]. by exists l. }
  apply H. by apply reachable_init.
Qed.

(** C33: the semaphore conserves resources.  In every reachable state of any
    number of concurrent [Post] and [Wait] calls, the counter is the number of
    [Post]s that have taken effect minus the number of [Wait]s that returned
    [nil], it is never negative (so no more [Wait]s succeed than [Post]s were
    made), and a [Wait] returns an error only when its context is done, with
    that context's error. *)
Theorem semaphore_conservation gs s :
  Forall fresh_call gs -> len gs < 2 ^ 63 -> reachable (sem_system gs) s ->
  available s = tally posted (goroutines s) - tally acquired (goroutines s) /\
  0 <= available s /\ tally acquired (goroutines s) <= tally posted (goroutines s) /\
  forall i e ctx, goroutines s !! i = Some (GWait (WaitDone (Some e)) ctx) -> ctx = Some e.
Proof.
  intros Hf Hlen Hr. destruct (sem_invariant gs Hf Hlen s Hr) as [[Hc Hn Hpc _ _ _] _].
  split_and!; [done | done | lia | ]. intros i e ctx Hi. exact (Hpc i _ Hi).
Qed.

Lemma semaphore_conservation_witness :
  let gs := [GPost PostAdd; GWait WaitLoad None] in
  exists s, sem_run [Run 0 false; Run 0 false; Run 1 false; Run 1 false] (NewSemaphore gs) = Some s /\
    tally acquired (goroutines s) = 1 /\ available s = 0 /\
    tally acquired (goroutines s) <= tally posted (goroutines s).
Proof.
  intros gs. eexists. split; [vm_compute; reflexivity | ].
  split; [reflexivity | ]. split; [reflexivity | ].
  eapply (semaphore_conservation gs).
  - fresh_calls.
  - vm_compute. reflexivity.
  - apply (sem_run_reachable [Run 0 false; Run 0 false; Run 1 false; Run 1 false]).
    vm_compute. reflexivity.
Defined.

(** [Post] never blocks and never fails: in every reachable state, a [Post]
    call that has not returned can take its next step, whatever the other
    goroutines do. *)
Theorem Post_nonblocking gs s i p :
  Forall fresh_call gs -> len gs < 2 ^ 63 -> reachable (sem_system gs) s ->
  goroutines s !! i = Some (GPost p) -> p <> PostDone ->
  exists s', sem_exec (Run i false) s = Some s'.
Proof.
  intros Hf Hlen Hr Hi Hp. destruct (sem_invariant gs Hf Hlen s Hr) as [[_ _ _ Hpk _ _] _].
  simpl. rewrite Hi. destruct p; simpl; [eauto | | done].
  destruct (parked s) as [|j js] eqn:Hq; [eauto | ].
  destruct (Hpk j) as [ctx Hj]; [set_solver | ].
  rewrite list_lookup_insert_ne by congruence. rewrite Hj. eauto.
Qed.

(** ** Wakeups *)
Section single_waiter.
Definition is_wait (g : goroutine) : bool := match g with GWait _ _ => true | _ => false end.

(** At most one goroutine calls [Wait]. *)
Definition one_waiter (gs : list goroutine) : Prop :=
  forall i j g h, gs !! i = Some g -> gs !! j = Some h -> is_wait g = true -> is_wait h = true -> i = j.

(** A [Post] between its two statements. *)
Definition post_in_flight (s : Semaphore) : Prop :=
  exists j, goroutines s !! j = Some (GPost PostSend).

Definition wakeup_inv (s : Semaphore) : Prop :=
  one_waiter (goroutines s) /\
  forall i p ctx, goroutines s !! i = Some (GWait p ctx) ->
    p = WaitCheckCtx \/ p = WaitSelect \/ p = WaitParked ->
    available s <= 0 \/ signal s = true \/ post_in_flight s.

Lemma one_waiter_insert gs i g g' :
  one_waiter gs -> gs !! i = Some g -> is_wait g' = is_wait g -> one_waiter (<[i := g']> gs).
Proof.
  intros H Hi Hw j k u v Hj Hk Hu Hv.
  apply list_lookup_insert_Some in Hj as [(-> & -> & _) | [? Hj]],
    Hk as [(Hjk & -> & _) | [? Hk]]; subst; try done.
  - rewrite Hw in Hu. by eapply H.
  - rewrite Hw in Hv. by eapply H.
  - by eapply H.
Qed.

(** A step of the only waiter: the clause about waiters speaks of it alone. *)
Lemma wakeup_waiter s i p ctx g' sig av pk :
  wakeup_inv s -> goroutines s !! i = Some (GWait p ctx) -> is_wait g' = true ->
  let s' := MkSemaphore sig av pk (<[i := g']> (goroutines s)) in
  (forall p' c, g' = GWait p' c -> p' = WaitCheckCtx \/ p' = WaitSelect \/ p' = WaitParked ->
     av <= 0 \/ sig = true \/ post_in_flight s) ->
  wakeup_inv s'.
Proof.
  intros [H1 H2] Hi Hw s' H. split; [by eapply one_waiter_insert | ].
  intros j p' c Hj Hp'. simpl in *.
  apply list_lookup_insert_Some in Hj as [(-> & -> & _) | [Hne Hj]].
  - destruct (H p' c eq_refl Hp') as [?|[?|[k Hk]]]; eauto. right; right. exists k. simpl.
    rewrite list_lookup_insert_ne; [done | congruence].
  - destruct Hne. by eapply H1.
Qed.

(** A step of a [Post] call, or of a context. *)
Lemma wakeup_other s i g g' sig av pk :
  wakeup_inv s -> goroutines s !! i = Some g -> is_wait g' = is_wait g ->
  let s' := MkSemaphore sig av pk (<[i := g']> (goroutines s)) in
  (forall j p c, <[i := g']> (goroutines s) !! j = Some (GWait p c) ->
     p = WaitCheckCtx \/ p = WaitSelect \/ p = WaitParked ->
     av <= 0 \/ sig = true \/ post_in_flight s') ->
  wakeup_inv s'.
Proof. intros [H1 H2] Hi Hw s' H. split; [by eapply one_waiter_insert | done]. Qed.

Lemma wakeup_Post s s' i p :
  wakeup_inv s -> goroutines s !! i = Some (GPost p) -> Post s i p = Some s' -> wakeup_inv s'.
Proof.
  intros Hinv Hi Hstep. destruct p; simpl in Hstep; [ | | done].
  - injection Hstep as <-. eapply wakeup_other; try done. intros _ _ _ _ _. right; right.
    exists i. simpl. apply list_lookup_insert_eq. by eapply lookup_lt_Some.
  - assert (Hone : one_waiter (<[i := GPost PostDone]> (goroutines s)))
      by (eapply one_waiter_insert; [apply Hinv | exact Hi | done]).
    destruct (parked s) as [|j js].
    + injection Hstep as <-. split; [done | ]. intros ??? _ _. right. by left.
    + destruct (<[i := GPost PostDone]> (goroutines s) !! j) as [[|[] ctx]|] eqn:Hj; try done.
      injection Hstep as <-. simpl. split; simpl; [by eapply one_waiter_insert | ].
      intros k p c Hk Hp. apply list_lookup_insert_Some in Hk as [(-> & [= <- <-] & _) | [Hne Hk]].
      * naive_solver.
      * destruct Hne. by eapply (Hone j k).
Qed.

Lemma wakeup_Wait s s' i pick p ctx :
  wakeup_inv s -> goroutines s !! i = Some (GWait p ctx) -> Wait s i pick p ctx = Some s' ->
  wakeup_inv s'.
Proof.
  intros Hinv Hi Hstep. pose proof Hinv as [H1 H2]. pose proof (H2 i p ctx Hi) as Hp.
  destruct p as [|v| | | |err]; simpl in Hstep; simplify_eq.
  - eapply wakeup_waiter; try done. intros p' c Hg Hp'. branch; [naive_solver | by left].
  - branch; simplify_eq; (eapply wakeup_waiter; [done.. | naive_solver]).
  - eapply wakeup_waiter; try done. intros p' c _ _. by apply Hp; left.
  - assert (av : forall g', (forall p' c, g' = GWait p' c ->
      p' = WaitCheckCtx \/ p' = WaitSelect \/ p' = WaitParked -> False) -> is_wait g' = true ->
      forall sig pk, wakeup_inv (MkSemaphore sig (available s) pk (<[i := g']> (goroutines s)))).
    { intros g' Hg' Hw sig pk. eapply wakeup_waiter; try done. intros p' c ? ?. by destruct (Hg' p' c). }
    destruct ctx as [e|]; [ | destruct (signal s) eqn:E].
    + repeat branch; simplify_eq; apply av; naive_solver.
    + simplify_eq. apply av; naive_solver.
    + simplify_eq. eapply wakeup_waiter; try done. intros p' c _ _.
      destruct Hp as [?|[?|?]]; [naive_solver | by left | congruence | naive_solver].
  - destruct ctx; simplify_eq. eapply wakeup_waiter; [done.. | naive_solver].
Qed.

Lemma wakeup_invariant gs :
  Forall fresh_call gs -> one_waiter gs -> invariant (sem_system gs) wakeup_inv.
Proof.
  intros Hf Hone. apply invariant_ind.
  - intros s ->. split; [done | ]. intros i p ctx Hi. simpl in *.
    rewrite Forall_lookup in Hf. destruct (Hf i _ Hi) as [? | [c Hc]]; [done | ].
    injection Hc as -> ->. naive_solver.
  - intros s s' Hinv [[i pick | i e] Hstep]; simpl in Hstep;
      destruct (goroutines s !! i) as [[p|p ctx]|] eqn:Hi; try done.
    + by eapply wakeup_Post.
    + by eapply wakeup_Wait.
    + destruct ctx; simplify_eq. eapply wakeup_waiter; try done.
      intros p' c [= <- <-] Hp. apply (proj2 Hinv i p None Hi Hp).
Qed.
End single_waiter.

(** C39: no wakeup is lost when at most one goroutine waits: in every reachable
    state, if its [Wait] is blocked on the channel while the counter is
    positive, some [Post] has incremented the counter and is about to signal. *)
Theorem single_waiter_no_lost_wakeup gs s i ctx :
  Forall fresh_call gs -> one_waiter gs -> len gs < 2 ^ 63 -> reachable (sem_system gs) s ->
  goroutines s !! i = Some (GWait WaitParked ctx) -> 0 < available s ->
  exists j, goroutines s !! j = Some (GPost PostSend).
Proof.
  intros Hf Hone Hlen Hr Hi Hav.
  destruct (sem_invariant gs Hf Hlen s Hr) as [[_ _ Hpc _ _ Hs] _].
  destruct (wakeup_invariant gs Hf Hone s Hr) as [_ H].
  destruct (H i _ _ Hi) as [?|[Hsig|?]]; [naive_solver | lia | | done].
  pose proof (Hpc i _ Hi) as Hin. simpl in Hin.
  rewrite Hs in Hsig; [done | ]. by destruct (parked s); [apply elem_of_nil in Hin | ].
Qed.

Lemma single_waiter_no_lost_wakeup_witness :
  let gs := [GWait WaitLoad None; GPost PostAdd] in
  exists s, sem_run [Run 0 false; Run 0 false; Run 0 false; Run 1 false] (NewSemaphore gs) = Some s /\
    exists j, goroutines s !! j = Some (GPost PostSend).
Proof.
  intros gs. eexists. split; [vm_compute; reflexivity | ].
  eapply (single_waiter_no_lost_wakeup gs _ 0 None).
  - fresh_calls.
  - intros [|[|i]] [|[|j]] g h Hg Hh; simpl in *; try done; simplify_eq/=; done.
  - vm_compute. reflexivity.
  - apply (sem_run_reachable [Run 0 false; Run 0 false; Run 0 false; Run 1 false]). vm_compute. reflexivity.
  - reflexivity.
  - reflexivity.
Defined.

(** The schedule of the lost wakeup: both waiters read a zero counter before
    either blocks; the two posts then find the one-slot channel empty and full. *)
Definition lost_wakeup_schedule : list sem_label :=
  [Run 0 false; Run 1 false; Run 0 false; Run 1 false;   (* both load 0 and check their context *)
   Run 2 false; Run 2 false; Run 3 false; Run 3 false;   (* two Posts, one signal *)
   Run 0 false; Run 1 false;                              (* 0 receives it, 1 parks *)
   Run 0 false; Run 0 false].                             (* 0 acquires and returns *)

(** With two waiters a wakeup can be lost: after two [Post]s have returned
    and one [Wait] has succeeded, the other [Wait] stays blocked although the
    counter is still one, and no goroutine can take a step any more, so only
    the cancellation of its context (or a later [Post]) would end it. *)
Theorem two_waiters_lost_wakeup :
  exists s, reachable (sem_system [GWait WaitLoad None; GWait WaitLoad None; GPost PostAdd; GPost PostAdd]) s /\
    goroutines s = [GWait (WaitDone None) None; GWait WaitParked None; GPost PostDone; GPost PostDone] /\
    available s = 1 /\
    forall i pick, sem_exec (Run i pick) s = None.
Proof.
  eexists. split; [ | split; [ | split]].
  - apply (sem_run_reachable lost_wakeup_schedule). vm_compute. reflexivity.
  - reflexivity.
  - reflexivity.
  - intros i pick. do 4 (destruct i as [|i]; [reflexivity | ]). reflexivity.
Qed.
