(* ===== verification/Merge.v ===== *)
(** * Merging two sources: [lab0/merge_channels.go]

    Two worker goroutines move values from their source to [out]; a third waits
    for both and closes [out].  The states below hold what the workers still
    have to read, what they hold in a local variable, where the third is, and
    what [out] received.  A send on a closed channel, a second [close] and a
    WaitGroup below zero panic, and end the process.  A consumer of [out] is
    assumed to keep receiving, as the functions' contract requires. *)
From S2P Require Import Prelude Semaphore.

(** ** Interleavings *)

(** [merge l1 l2 l]: [l] contains the elements of [l1] and of [l2], each in
    their order. *)
Inductive merge {T} : list T -> list T -> list T -> Prop :=
  | merge_nil : merge [] [] []
  | merge_l x l1 l2 l : merge l1 l2 l -> merge (x :: l1) l2 (x :: l)
  | merge_r x l1 l2 l : merge l1 l2 l -> merge l1 (x :: l2) (x :: l).

(** ** What the three functions share *)

(** [wg.Done()]: a counter below zero panics. *)
Definition Done (wg : Z) : outcome Z := if (wg <=? 0)%Z then Panic else Ok (wg - 1)%Z.

(** The goroutine that closes [out]: in [wg.Wait()], about to [close(out)],
    about to send on [errCh] (in [MergeChannelsOrCancel]), returned. *)
Inductive closer_pc := KWait | KClose | KSend | KDone.

(** One of its steps up to the [close], after which it is at [next]: whether
    [out] is closed, and where it is. *)
Definition closer (next : closer_pc) (wg : Z) (closed : bool) (k : closer_pc) : outcome (bool * closer_pc) :=
  match k with
  | KWait => if (wg =? 0)%Z then Ok (closed, KClose) else Block
  | KClose => if closed then Panic else Ok (true, next)
  | KSend | KDone => Block
  end.

(** ** [MergeChannels] *)
Section channels.
Context {T : Type}.

(** [readFrom]: receiving, sending the value received, returned. *)
Inductive reader_pc := RRecv | RSend (v : T) | RDone.

(** A reader and the values its channel delivers before it is closed. *)
Record reader := Reader { r_input : list T; r_pc : reader_pc }.

Record mstate := MState {
  m_a : reader;
  m_b : reader;
  m_wg : Z;             (* the WaitGroup's counter *)
  m_out : list T;       (* what has been sent to out *)
  m_closed : bool;      (* whether out is closed *)
  m_closer : closer_pc;
  m_panicked : bool
}.

Definition MergeChannels (a b : list T) : mstate :=
  MState (Reader a RRecv) (Reader b RRecv) 2 [] false KWait false.

(** One step of [readFrom] on a reader: the reader after it, the WaitGroup
    and the values sent.  A send on the closed [out] panics. *)
Definition readFrom (wg : Z) (closed : bool) (r : reader) : outcome (reader * Z * list T) :=
  match r_pc r with
  | RRecv => match r_input r with
             | v :: vs => Ok (Reader vs (RSend v), wg, [])
             | [] => wg ← Done wg; Ok (Reader [] RDone, wg, [])
             end
  | RSend v => if closed then Panic else Ok (Reader (r_input r) RRecv, wg, [v])
  | RDone => Block
  end.

(** A goroutine about to panic. *)
Definition mc_panics (s : mstate) : Prop :=
  readFrom (m_wg s) (m_closed s) (m_a s) = Panic \/ readFrom (m_wg s) (m_closed s) (m_b s) = Panic \/
  closer KDone (m_wg s) (m_closed s) (m_closer s) = Panic.

Inductive mc_step : mstate -> mstate -> Prop :=
| mc_a a b wg out closed k r wg' vs :
    readFrom wg closed a = Ok (r, wg', vs) ->
    mc_step (MState a b wg out closed k false) (MState r b wg' (out ++ vs) closed k false)
| mc_b a b wg out closed k r wg' vs :
    readFrom wg closed b = Ok (r, wg', vs) ->
    mc_step (MState a b wg out closed k false) (MState a r wg' (out ++ vs) closed k false)
| mc_close a b wg out closed k closed' k' :
    closer KDone wg closed k = Ok (closed', k') ->
    mc_step (MState a b wg out closed k false) (MState a b wg out closed' k' false)
| mc_panic a b wg out closed k :
    mc_panics (MState a b wg out closed k false) ->
    mc_step (MState a b wg out closed k false) (MState a b wg out closed k true).

Definition mc_system (a b : list T) : lts mstate := Lts (fun s => s = MergeChannels a b) mc_step.

Definition mc_final (s : mstate) : Prop :=
  m_panicked s = false /\ m_closed s = true /\ m_closer s = KDone /\
  r_pc (m_a s) = RDone /\ r_pc (m_b s) = RDone.

(** What a reader has taken from its channel but not yet sent. *)
Definition in_hand (r : reader) : list T := match r_pc r with RSend v => [v] | _ => [] end.
Definition working (r : reader) : Z := match r_pc r with RDone => 0 | _ => 1 end.

(** A bound on the steps left. *)
Definition reader_measure (r : reader) : nat :=
  2 * length (r_input r) + match r_pc r with RRecv => 1 | RSend _ => 2 | RDone => 0 end.
Definition mc_measure (s : mstate) : nat :=
  reader_measure (m_a s) + reader_measure (m_b s) + 
  match m_closer s with KWait => 2 | KClose => 1 | KSend | KDone => 0 end.
End channels.
Arguments reader_pc : clear implicits.
Arguments reader : clear implicits.
Arguments mstate : clear implicits.

(** ** [MergeChannelsOrCancel] *)
Section cancel.
Context {T : Type}.

(** The reader with a context: the first [select], the second, sending,
    returned. *)
Inductive creader_pc := CCheck | CRecv | CSend (v : T) | CDone.
Record creader := CReader { c_input : list T; c_pc : creader_pc }.

Record cstate := CState {
  c_ctx : option ctx_error;          (* ctx.Err() *)
  c_a : creader;
  c_b : creader;
  c_wg : Z;
  c_out : list T;
  c_closed : bool;
  c_closer : closer_pc;
  c_errCh : option (option ctx_error);  (* the buffer of errCh *)
  c_ret : option (option ctx_error);    (* what the call returned *)
  c_panicked : bool
}.

(** The call up to the start of its goroutines: a context that is already
    done closes [out] and returns at once. *)
Definition MergeChannelsOrCancel (ctx : option ctx_error) (a b : list T) : cstate :=
  match ctx with
  | Some e => CState ctx (CReader a CDone) (CReader b CDone) 0 [] true KDone None (Some (Some e)) false
  | None => CState ctx (CReader a CCheck) (CReader b CCheck) 2 [] false KWait None None false
  end.

(** One step of a reader; [pick_ctx] is the choice of the second [select]
    when the context is done and the channel is ready. *)
Definition readFromCtx (ctx : option ctx_error) (wg : Z) (closed pick_ctx : bool) (r : creader)
    : outcome (creader * Z * list T) :=
  let exit := wg ← Done wg; Ok (CReader (c_input r) CDone, wg, []) in
  match c_pc r with
  | CCheck => match ctx with Some _ => exit | None => Ok (CReader (c_input r) CRecv, wg, []) end
  | CRecv =>
      let recv := match c_input r with
                  | v :: vs => Ok (CReader vs (CSend v), wg, [])
                  | [] => exit
                  end in
      match ctx with Some _ => if pick_ctx then exit else recv | None => recv end
  | CSend v => if closed then Panic else Ok (CReader (c_input r) CCheck, wg, [v])
  | CDone => Block
  end.

Definition cc_panics (s : cstate) : Prop :=
  (exists pick, readFromCtx (c_ctx s) (c_wg s) (c_closed s) pick (c_a s) = Panic) \/
  (exists pick, readFromCtx (c_ctx s) (c_wg s) (c_closed s) pick (c_b s) = Panic) \/
  closer KSend (c_wg s) (c_closed s) (c_closer s) = Panic.

Inductive cc_step : cstate -> cstate -> Prop :=
| cc_a ctx a b wg out closed k err ret pick r wg' vs :
    readFromCtx ctx wg closed pick a = Ok (r, wg', vs) ->
    cc_step (CState ctx a b wg out closed k err ret false) (CState ctx r b wg' (out ++ vs) closed k err ret false)
| cc_b ctx a b wg out closed k err ret pick r wg' vs :
    readFromCtx ctx wg closed pick b = Ok (r, wg', vs) ->
    cc_step (CState ctx a b wg out closed k err ret false) (CState ctx a r wg' (out ++ vs) closed k err ret false)
| cc_close ctx a b wg out closed k err ret closed' k' :
    closer KSend wg closed k = Ok (closed', k') ->
    cc_step (CState ctx a b wg out closed k err ret false) (CState ctx a b wg out closed' k' err ret false)
| cc_err ctx a b wg out closed ret :   (* errCh <- ctx.Err() *)
    cc_step (CState ctx a b wg out closed KSend None ret false) (CState ctx a b wg out closed KDone (Some ctx) ret false)
| cc_return ctx a b wg out closed k r :   (* return <-errCh *)
    cc_step (CState ctx a b wg out closed k (Some r) None false) (CState ctx a b wg out closed k None (Some r) false)
| cc_cancel a b wg out closed k err ret e :
    cc_step (CState None a b wg out closed k err ret false) (CState (Some e) a b wg out closed k err ret false)
| cc_panic s :
    c_panicked s = false -> cc_panics s ->
    cc_step s (CState (c_ctx s) (c_a s) (c_b s) (c_wg s) (c_out s) (c_closed s) (c_closer s) (c_errCh s) (c_ret s) true).

Definition cc_system ctx (a b : list T) : lts cstate :=
  Lts (fun s => s = MergeChannelsOrCancel ctx a b) cc_step.

Definition c_in_hand (r : creader) : list T := match c_pc r with CSend v => [v] | _ => [] end.
Definition c_working (r : creader) : Z := match c_pc r with CDone => 0 | _ => 1 end.
End cancel.
Arguments creader_pc : clear implicits.
Arguments creader : clear implicits.
Arguments cstate : clear implicits.

(** ** [MergeFetches] *)
Section fetches.
Context {T : Type}.

(** A [Fetcher] by the results of its successive calls. *)
Definition Fetcher : Type := nat -> T * bool.

(** [fetchFrom]: how many times it called [Fetch], and where it is. *)
Record fworker := FWorker { f_calls : nat; f_pc : reader_pc T }.

Record fstate := FState {
  fs_a : fworker; fs_b : fworker; fs_wg : Z; fs_out : list T; fs_closed : bool; fs_closer : closer_pc; fs_panicked : bool
}.

Definition MergeFetches : fstate := FState (FWorker 0 RRecv) (FWorker 0 RRecv) 2 [] false KWait false.

Definition fetchFrom (f : Fetcher) (wg : Z) (closed : bool) (w : fworker) : outcome (fworker * Z * list T) :=
  match f_pc w with
  | RRecv => let '(v, ok) := f (f_calls w) in
             if ok then Ok (FWorker (S (f_calls w)) (RSend v), wg, [])
             else wg ← Done wg; Ok (FWorker (S (f_calls w)) RDone, wg, [])
  | RSend v => if closed then Panic else Ok (FWorker (f_calls w) RRecv, wg, [v])
  | RDone => Block
  end.

Definition mf_panics (fa fb : Fetcher) (s : fstate) : Prop :=
  fetchFrom fa (fs_wg s) (fs_closed s) (fs_a s) = Panic \/ fetchFrom fb (fs_wg s) (fs_closed s) (fs_b s) = Panic \/
  closer KDone (fs_wg s) (fs_closed s) (fs_closer s) = Panic.

Inductive mf_step (fa fb : Fetcher) : fstate -> fstate -> Prop :=
| mf_a a b wg out closed k w wg' vs :
    fetchFrom fa wg closed a = Ok (w, wg', vs) ->
    mf_step fa fb (FState a b wg out closed k false) (FState w b wg' (out ++ vs) closed k false)
| mf_b a b wg out closed k w wg' vs :
    fetchFrom fb wg closed b = Ok (w, wg', vs) ->
    mf_step fa fb (FState a b wg out closed k false) (FState a w wg' (out ++ vs) closed k false)
| mf_close a b wg out closed k closed' k' :
    closer KDone wg closed k = Ok (closed', k') ->
    mf_step fa fb (FState a b wg out closed k false) (FState a b wg out closed' k' false)
| mf_panic a b wg out closed k :
    mf_panics fa fb (FState a b wg out closed k false) ->
    mf_step fa fb (FState a b wg out closed k false) (FState a b wg out closed k true).

Definition mf_system (fa fb : Fetcher) : lts fstate := Lts (fun s => s = MergeFetches) (mf_step fa fb).

(** The values a fetcher yields before call [n]. *)
Definition fetched (f : Fetcher) (n : nat) : list T := (fun i => (f i).1) <$> seq 0 n.

(** Call [n] is the first that returns [false]. *)
Definition stops_at (f : Fetcher) (n : nat) : Prop :=
  (f n).2 = false /\ forall i, (i < n)%nat -> (f i).2 = true.
End fetches.
Arguments Fetcher : clear implicits.

(** ** Proofs: interleavings *)
Section merge_lemmas.
Context {T : Type}.
Implicit Types l : list T.

Lemma merge_snoc_l l1 l2 l x : merge l1 l2 l -> merge (l1 ++ [x]) l2 (l ++ [x]).
Proof. induction 1; simpl; repeat constructor; done. Qed.

Lemma merge_snoc_r l1 l2 l x : merge l1 l2 l -> merge l1 (l2 ++ [x]) (l ++ [x]).
Proof. induction 1; simpl; repeat constructor; done. Qed.

Lemma merge_app_l l1 l2 l vs : merge l1 l2 l -> merge (l1 ++ vs) l2 (l ++ vs).
Proof.
  revert l1 l. induction vs as [|v vs IH]; intros l1 l H; [by rewrite !app_nil_r | ].
  rewrite !(cons_middle v), !app_assoc. apply IH. by apply merge_snoc_l.
Qed.

Lemma merge_app_r l1 l2 l vs : merge l1 l2 l -> merge l1 (l2 ++ vs) (l ++ vs).
Proof.
  revert l2 l. induction vs as [|v vs IH]; intros l2 l H; [by rewrite !app_nil_r | ].
  rewrite !(cons_middle v), !app_assoc. apply IH. by apply merge_snoc_r.
Qed.

Lemma merge_perm l1 l2 l : merge l1 l2 l -> l ≡ₚ l1 ++ l2.
Proof. induction 1; simpl; [done | by constructor | ]. by rewrite <- Permutation_middle, IHmerge. Qed.
End merge_lemmas.
#[export] Hint Resolve merge_snoc_l merge_snoc_r merge_nil : core.

(** ** Proofs: [MergeChannels] *)
Section channels_proofs.
Context {T : Type}.
Local Open Scope Z_scope.
Implicit Types (a b : list T) (s : mstate T).

(** What one step of a reader does: the values it sends leave the front of
    what it holds, and its share of the WaitGroup follows its state. *)
Lemma Done_spec wg wg' : Done wg = Ok wg' -> wg' = wg - 1 /\ 0 < wg.
Proof. unfold Done. destruct (Z.leb_spec wg 0); [done | ]. intros [= <-]. lia. Qed.

Lemma Done_runs wg : 0 < wg -> Done wg = Ok (wg - 1).
Proof. intros H. unfold Done. destruct (Z.leb_spec wg 0); [lia | done]. Qed.

Lemma readFrom_spec wg closed (r r' : reader T) wg' vs :
  readFrom wg closed r = Ok (r', wg', vs) ->
  in_hand r ++ r_input r = vs ++ in_hand r' ++ r_input r' /\
  wg' = wg + working r' - working r /\ (r_pc r' = RDone -> r_input r' = []) /\
  (reader_measure r' < reader_measure r)%nat /\ r_pc r <> RDone.
Proof.
  destruct r as [l [|v|]]; unfold readFrom, in_hand, working, reader_measure; simpl.
  - destruct l; [ | intros [= <- <- <-]; simpl; split_and!; try done; lia].
    destruct (Done wg) as [wg1| | ] eqn:E; [ | done..]. apply Done_spec in E as [-> _].
    intros [= <- <- <-]. simpl. split_and!; try done; lia.
  - destruct closed; intros [= <- <- <-]; simpl; split_and!; try done; lia.
  - done.
Qed.

(** A reader that has not returned runs, while [out] is open and the WaitGroup
    counts it. *)
Lemma readFrom_runs wg (r : reader T) :
  r_pc r <> RDone -> 0 < wg -> exists r' wg' vs, readFrom wg false r = Ok (r', wg', vs).
Proof. destruct r as [[|v l] [|w|]]; unfold readFrom; simpl; intros H ?; rewrite ?Done_runs by done; simpl; eauto; done. Qed.

Record mc_inv a b s : Prop := {
  mc_out : exists ca cb, merge ca cb (m_out s) /\
    a = ca ++ in_hand (m_a s) ++ r_input (m_a s) /\ b = cb ++ in_hand (m_b s) ++ r_input (m_b s);
  mc_wg : m_wg s = working (m_a s) + working (m_b s);
  mc_cl : match m_closer s with
          | KWait => m_closed s = false
          | KClose => m_closed s = false /\ m_wg s = 0
          | KSend => False
          | KDone => m_closed s = true /\ m_wg s = 0
          end;
  mc_done_a : r_pc (m_a s) = RDone -> r_input (m_a s) = [];
  mc_done_b : r_pc (m_b s) = RDone -> r_input (m_b s) = [];
  mc_calm : m_panicked s = false
}.

Lemma working_range (r : reader T) : 0 <= working r <= 1 /\ (working r = 0 <-> r_pc r = RDone).
Proof. unfold working. destruct (r_pc r); split; try lia; naive_solver lia. Qed.

(** When the WaitGroup is at zero both readers have returned. *)
Lemma mc_all_done a b s :
  mc_inv a b s -> m_wg s = 0 -> r_pc (m_a s) = RDone /\ r_pc (m_b s) = RDone.
Proof.
  intros [_ Hwg _ _ _ _] H0.
  pose proof (working_range (m_a s)) as [? [Ha _]]. pose proof (working_range (m_b s)) as [? [Hb _]].
  split; [apply Ha | apply Hb]; lia.
Qed.

Lemma mc_closed_zero a b s : mc_inv a b s -> m_closed s = true -> m_closer s = KDone /\ m_wg s = 0.
Proof. intros [_ _ Hcl _ _ _] Hc. destruct (m_closer s); [congruence | destruct Hcl; congruence | done | by destruct Hcl]. Qed.

(** While a reader runs, [out] is open and the third goroutine waits. *)
Lemma mc_open a b s :
  mc_inv a b s -> r_pc (m_a s) <> RDone \/ r_pc (m_b s) <> RDone ->
  m_closed s = false /\ m_closer s = KWait /\ 0 < m_wg s.
Proof.
  intros Hinv H. pose proof (mc_wg _ _ _ Hinv) as Hwg.
  pose proof (working_range (m_a s)) as [Ra [Ha _]]. pose proof (working_range (m_b s)) as [Rb [Hb _]].
  assert (H0 : 0 < m_wg s) by (destruct (decide (m_wg s = 0)) as [E|]; [destruct (mc_all_done a b s Hinv E); naive_solver | lia]).
  pose proof (mc_cl _ _ _ Hinv) as Hcl. destruct (m_closer s); [by split_and! | | done | ]; destruct Hcl; lia.
Qed.

(** A reader that is about to panic has not returned, and sends on the closed
    [out] or takes the WaitGroup below zero. *)
Lemma readFrom_Panic wg closed (r : reader T) :
  readFrom wg closed r = Panic -> r_pc r <> RDone /\ (closed = true \/ wg <= 0).
Proof.
  destruct r as [[|v l] [|w|]]; unfold readFrom, Done; simpl; try done; try (by destruct closed; auto).
  destruct (Z.leb_spec wg 0); [auto | done].
Qed.

Lemma mc_no_panic a b s : mc_inv a b s -> ~ mc_panics s.
Proof.
  intros Hinv [Hp | [Hp | Hp]].
  - apply readFrom_Panic in Hp as [Hr Hp]. destruct (mc_open a b s Hinv) as (? & _ & ?); [by left | ].
    destruct Hp; [congruence | lia].
  - apply readFrom_Panic in Hp as [Hr Hp]. destruct (mc_open a b s Hinv) as (? & _ & ?); [by right | ].
    destruct Hp; [congruence | lia].
  - pose proof (mc_cl _ _ _ Hinv) as Hcl. unfold closer in Hp. destruct (m_closer s); try done.
    + by destruct (_ =? 0).
    + destruct Hcl as [Hc _]. by rewrite Hc in Hp.
Qed.

Lemma mc_inv_step a b s s' : mc_inv a b s -> mc_step s s' -> mc_inv a b s'.
Proof.
  intros Hinv Hstep. pose proof Hinv as [(ca & cb & Hm & Ha & Hb) Hwg Hcl Hda Hdb _].
  destruct Hstep as [ra rb wg out closed k r wg' vs E | ra rb wg out closed k r wg' vs E | ra rb wg out closed k closed' k' E
                    | ra rb wg out closed k Hp]; simpl in *.
  - apply readFrom_spec in E as (Hvs & -> & Hdone & _ & Hrun).
    destruct (mc_open _ _ _ Hinv) as (Ho & Hk & _); [by left | ]. simpl in Ho, Hk. subst closed k.
    split; simpl; try done; [ | lia].
    exists (ca ++ vs), cb. rewrite Ha, Hvs, <- app_assoc. split_and!; auto using merge_app_l.
  - apply readFrom_spec in E as (Hvs & -> & Hdone & _ & Hrun).
    destruct (mc_open _ _ _ Hinv) as (Ho & Hk & _); [by right | ]. simpl in Ho, Hk. subst closed k.
    split; simpl; try done; [ | lia].
    exists ca, (cb ++ vs). rewrite Hb, Hvs, <- app_assoc. split_and!; auto using merge_app_r.
  - split; simpl; eauto. destruct k; simpl in E; try done.
    + destruct (Z.eqb_spec wg 0); [ | done]. by injection E as <- <-.
    + destruct Hcl as [-> ?]. by injection E as <- <-.
  - by destruct (mc_no_panic _ _ _ Hinv).
Qed.

Lemma mc_invariant a b : invariant (mc_system a b) (mc_inv a b).
Proof.
  apply invariant_ind; [intros s -> | apply mc_inv_step].
  split; simpl; try done. by exists [], [].
Qed.

Lemma mc_measure_decreases a b s s' : mc_inv a b s -> mc_step s s' -> (mc_measure s' < mc_measure s)%nat.
Proof.
  intros Hinv Hs. destruct Hs as [ra rb wg out closed k r wg' vs E | ra rb wg out closed k r wg' vs E | ra rb wg out closed k closed' k' E
              | ra rb wg out closed k Hp]; unfold mc_measure; simpl.
  - apply readFrom_spec in E as (_ & _ & _ & ? & _). lia.
  - apply readFrom_spec in E as (_ & _ & _ & ? & _). lia.
  - destruct k; simpl in E; try done.
    + destruct (Z.eqb_spec wg 0); [ | done]. injection E as <- <-. lia.
    + destruct closed; [done | ]. injection E as <- <-. lia.
  - destruct (mc_no_panic _ _ _ Hinv Hp).
Qed.
End channels_proofs.

Section channels_theorems.
Context {T : Type}.
Implicit Types (a b : list T) (s : mstate T).

Lemma mc_progress a b s : mc_inv a b s -> mc_final s \/ exists s', mc_step s s'.
Proof.
  intros Hinv. assert (Hdec : forall r : reader T, r_pc r = RDone \/ r_pc r <> RDone)
    by (intros [l [|v|]]; simpl; auto).
  pose proof (mc_calm _ _ _ Hinv) as Hp. pose proof (mc_cl _ _ _ Hinv) as Hcl. pose proof (mc_wg _ _ _ Hinv) as Hwg.
  destruct (Hdec (m_a s)) as [Ha | Ha].
  - destruct (Hdec (m_b s)) as [Hb | Hb].
    + unfold working in Hwg. rewrite Ha, Hb in Hwg.
      destruct s as [ra rb wg out closed k p]; simpl in *; subst p wg. destruct k; [right | right | done | ].
      * eexists. by apply mc_close.
      * destruct Hcl as [-> _]. eexists. by apply mc_close.
      * left. by destruct Hcl as [-> _].
    + right. destruct (mc_open a b s Hinv) as (Ho & _ & H0); [by right | ].
      destruct (readFrom_runs _ _ Hb H0) as (r & wg' & vs & E).
      destruct s; simpl in *; subst. eexists. by eapply mc_b.
  - right. destruct (mc_open a b s Hinv) as (Ho & _ & H0); [by left | ].
    destruct (readFrom_runs _ _ Ha H0) as (r & wg' & vs & E).
    destruct s; simpl in *; subst. eexists. by eapply mc_a.
Qed.

Lemma mc_final_out a b s : mc_inv a b s -> mc_final s -> merge a b (m_out s).
Proof.
  intros [(ca & cb & Hm & Ha & Hb) _ _ Hda Hdb _] (_ & _ & _ & Hpa & Hpb).
  unfold in_hand in *. rewrite Hpa, Hda, app_nil_r in Ha by done. rewrite Hpb, Hdb, app_nil_r in Hb by done.
  by subst.
Qed.

Lemma mc_closed_final a b s : mc_inv a b s -> m_closed s = true -> mc_final s.
Proof.
  intros Hinv Hc. destruct (mc_closed_zero a b s Hinv Hc) as [Hk H0].
  split; [by apply Hinv | ]. split; [done | ]. split; [done | ]. by apply (mc_all_done a b s Hinv).
Qed.
End channels_theorems.

(** C34: safety of [MergeChannels].  In every reachable state, [out] is an
    interleaving of what was read from [a] and from [b] (each in its order,
    nothing lost but what a reader holds, nothing duplicated); no goroutine has
    panicked or is about to, so [out] is never sent to after it was closed nor
    closed twice, and the WaitGroup never falls below zero; and once [out] is
    closed it holds an interleaving of all of [a] and all of [b]. *)
Theorem MergeChannels_safe {T} (a b : list T) s :
  reachable (mc_system a b) s ->
  (exists ca cb, merge ca cb (m_out s) /\
     a = ca ++ in_hand (m_a s) ++ r_input (m_a s) /\ b = cb ++ in_hand (m_b s) ++ r_input (m_b s)) /\
  m_panicked s = false /\ ~ mc_panics s /\ (m_closed s = true -> merge a b (m_out s)).
Proof.
  intros Hr. pose proof (mc_invariant a b s Hr) as Hinv.
  split; [apply Hinv | ]. split; [apply Hinv | ]. split; [by eapply mc_no_panic | ].
  intros Hc. eapply mc_final_out; [done | by eapply mc_closed_final].
Qed.

(** One reader has sent and returned while the other has a value to send; and
    the end, with [out] just closed. *)
Definition merging : mstate nat := MState (Reader [2] (RSend 1)) (Reader [] RDone) 1 [3] false KWait false.
Definition merged : mstate nat := MState (Reader [] RDone) (Reader [] RDone) 0 [3; 1; 2] true KDone false.

Lemma merging_reachable : reachable (mc_system [1; 2] [3]) merging.
Proof.
  eapply reachable_step; [ | by eapply (mc_a (Reader [1; 2] RRecv) (Reader [] RDone) 1 [3] false KWait)].
  eapply reachable_step; [ | by eapply (mc_b (Reader [1; 2] RRecv) (Reader [] RRecv) 2 [3] false KWait)].
  eapply reachable_step; [ | by eapply (mc_b (Reader [1; 2] RRecv) (Reader [] (RSend 3)) 2 [] false KWait)].
  eapply reachable_step; [by apply reachable_init | by apply (mc_b (Reader [1; 2] RRecv) (Reader [3] RRecv) 2 [] false KWait (Reader [] (RSend 3)) 2 [])].
Qed.

Lemma merged_reachable : reachable (mc_system [1; 2] [3]) merged.
Proof.
  eapply reachable_step; [ | by eapply (mc_close (Reader [] RDone) (Reader [] RDone) 0 [3; 1; 2] false KClose)].
  eapply reachable_step; [ | by eapply (mc_close (Reader [] RDone) (Reader [] RDone) 0 [3; 1; 2] false KWait)].
  eapply reachable_step; [ | by eapply (mc_a (Reader [] RRecv) (Reader [] RDone) 1 [3; 1; 2] false KWait)].
  eapply reachable_step; [ | by eapply (mc_a (Reader [] (RSend 2)) (Reader [] RDone) 1 [3; 1] false KWait)].
  eapply reachable_step; [ | by eapply (mc_a (Reader [2] RRecv) (Reader [] RDone) 1 [3; 1] false KWait)].
  eapply reachable_step; [exact merging_reachable | by apply (mc_a (Reader [2] (RSend 1)) (Reader [] RDone) 1 [3] false KWait (Reader [2] RRecv) 1 [1])].
Qed.

Lemma MergeChannels_safe_witness :
  ~ mc_panics merging /\ merge [1; 2] [3] (m_out merged).
Proof.
  split.
  - apply (MergeChannels_safe [1; 2] [3]). exact merging_reachable.
  - apply (MergeChannels_safe [1; 2] [3] merged); [exact merged_reachable | reflexivity].
Defined.

(** C24: termination of [MergeChannels].  Every execution is finite, and one
    that cannot be extended has closed [out] after sending an interleaving of
    [a] and [b], with both readers returned: no schedule deadlocks. *)
Theorem MergeChannels_terminates {T} (a b : list T) s :
  reachable (mc_system a b) s ->
  (forall s', mc_step s s' -> mc_measure s' < mc_measure s) /\
  ((forall s', ~ mc_step s s') -> mc_final s /\ merge a b (m_out s)).
Proof.
  intros Hr. pose proof (mc_invariant a b s Hr) as Hinv.
  split; [intros s' Hs; by eapply mc_measure_decreases | ].
  intros Hstuck. destruct (mc_progress a b s Hinv) as [Hf | [s' Hs]]; [ | by destruct (Hstuck s')].
  split; [done | by eapply mc_final_out].
Qed.

Lemma MergeChannels_terminates_witness :
  exists s', mc_step (MergeChannels [1; 2] [3]) s' /\ mc_measure s' < mc_measure (MergeChannels [1; 2] [3]).
Proof.
  assert (Hs : exists s', mc_step (MergeChannels [1; 2] [3]) s') by (eexists; apply mc_a; reflexivity).
  destruct Hs as [s' Hs]. exists s'. split; [exact Hs | ]. apply (MergeChannels_terminates [1; 2] [3]); [by apply reachable_init | exact Hs].
Defined.

(** ** Proofs: [MergeChannelsOrCancel] *)
Section cancel_proofs.
Context {T : Type}.
Local Open Scope Z_scope.
Implicit Types (a b : list T) (s : cstate T).

Lemma readFromCtx_spec ctx wg closed pick (r r' : creader T) wg' vs :
  readFromCtx ctx wg closed pick r = Ok (r', wg', vs) ->
  c_in_hand r ++ c_input r = vs ++ c_in_hand r' ++ c_input r' /\
  wg' = wg + c_working r' - c_working r /\
  (c_pc r' = CDone -> c_input r' = [] \/ ctx <> None) /\ c_pc r <> CDone.
Proof.
  assert (Hexit : forall wg1 l, (wg0 ← Done wg; Ok (CReader l CDone, wg0, [] : list T)) = Ok (r', wg1, vs) ->
            r' = CReader l CDone /\ wg1 = wg - 1 /\ vs = []).
  { intros wg1 l E. destruct (Done wg) as [wg0| | ] eqn:Ed; [ | done..]. apply Done_spec in Ed as [-> _].
    by injection E as <- <- <-. }
  destruct r as [l [| |v|]]; unfold readFromCtx, c_in_hand, c_working; simpl.
  - destruct ctx; [intros (-> & -> & ->)%Hexit | intros [= <- <- <-]]; simpl; split_and!; try done; auto; lia.
  - destruct ctx, pick, l; (intros (-> & -> & ->)%Hexit || intros [= <- <- <-]); simpl; split_and!; try done; auto; lia.
  - destruct closed; intros [= <- <- <-]; simpl; split_and!; try done; lia.
  - done.
Qed.

Lemma readFromCtx_Panic ctx wg closed pick (r : creader T) :
  readFromCtx ctx wg closed pick r = Panic -> c_pc r <> CDone /\ (closed = true \/ wg <= 0).
Proof.
  destruct r as [[|v l] [| |w|]]; unfold readFromCtx, Done; simpl; destruct ctx, closed, pick; simpl; try done; auto;
    destruct (Z.leb_spec wg 0); auto; done.
Qed.

Record cc_inv a b s : Prop := {
  cc_out : exists ca cb, merge ca cb (c_out s) /\
    a = ca ++ c_in_hand (c_a s) ++ c_input (c_a s) /\ b = cb ++ c_in_hand (c_b s) ++ c_input (c_b s);
  cc_wg : c_wg s = c_working (c_a s) + c_working (c_b s);
  cc_cl : match c_closer s with
          | KWait => c_closed s = false
          | KClose => c_closed s = false /\ c_wg s = 0
          | KSend | KDone => c_closed s = true /\ c_wg s = 0
          end;
  cc_done_a : c_pc (c_a s) = CDone -> c_input (c_a s) = [] \/ c_ctx s <> None;
  cc_done_b : c_pc (c_b s) = CDone -> c_input (c_b s) = [] \/ c_ctx s <> None;
  cc_ret : forall r, c_ret s = Some r \/ c_errCh s = Some r -> c_closer s = KDone /\
    (r = None -> c_input (c_a s) = [] /\ c_input (c_b s) = []) /\ (forall e, r = Some e -> c_ctx s = Some e);
  cc_calm : c_panicked s = false
}.

Lemma c_working_range (r : creader T) : 0 <= c_working r <= 1 /\ (c_working r = 0 <-> c_pc r = CDone).
Proof. unfold c_working. destruct (c_pc r); split; try lia; by split. Qed.

Lemma cc_all_done a b s :
  cc_inv a b s -> c_wg s = 0 -> c_pc (c_a s) = CDone /\ c_pc (c_b s) = CDone.
Proof.
  intros [_ Hwg _ _ _ _ _] H0.
  pose proof (c_working_range (c_a s)) as [Ra [Ha _]]. pose proof (c_working_range (c_b s)) as [Rb [Hb _]].
  split; [apply Ha | apply Hb]; lia.
Qed.

(** A reader that still runs has not let [out] be closed or the call return. *)
Lemma cc_open a b s :
  cc_inv a b s -> c_pc (c_a s) <> CDone \/ c_pc (c_b s) <> CDone ->
  c_closed s = false /\ c_closer s = KWait /\ 0 < c_wg s.
Proof.
  intros Hinv H. pose proof (cc_wg _ _ _ Hinv) as Hwg.
  pose proof (c_working_range (c_a s)) as [Ra [Ha _]]. pose proof (c_working_range (c_b s)) as [Rb [Hb _]].
  assert (H0 : 0 < c_wg s) by (destruct (decide (c_wg s = 0)) as [E|]; [destruct (cc_all_done a b s Hinv E); naive_solver | lia]).
  pose proof (cc_cl _ _ _ Hinv) as Hcl.
  destruct (c_closer s); [by split_and! | | | ]; destruct Hcl; lia.
Qed.

Lemma cc_no_panic a b s : cc_inv a b s -> ~ cc_panics s.
Proof.
  intros Hinv [[pick Hp] | [[pick Hp] | Hp]].
  - apply readFromCtx_Panic in Hp as [Hr Hp]. destruct (cc_open a b s Hinv) as (? & _ & ?); [by left | ].
    destruct Hp; [congruence | lia].
  - apply readFromCtx_Panic in Hp as [Hr Hp]. destruct (cc_open a b s Hinv) as (? & _ & ?); [by right | ].
    destruct Hp; [congruence | lia].
  - pose proof (cc_cl _ _ _ Hinv) as Hcl. unfold closer in Hp. destruct (c_closer s); try done.
    + by destruct (_ =? 0).
    + destruct Hcl as [Hc _]. by rewrite Hc in Hp.
Qed.

(** Nothing is on [errCh] nor returned before the third goroutine ends. *)
Lemma cc_not_returned a b s : cc_inv a b s -> c_closer s <> KDone -> c_ret s = None /\ c_errCh s = None.
Proof.
  intros Hinv Hk. split.
  - destruct (c_ret s) as [r|] eqn:E; [ | done]. destruct Hk. apply (cc_ret _ _ _ Hinv r). by left.
  - destruct (c_errCh s) as [r|] eqn:E; [ | done]. destruct Hk. apply (cc_ret _ _ _ Hinv r). by right.
Qed.

Lemma cc_inv_step a b s s' : cc_inv a b s -> cc_step s s' -> cc_inv a b s'.
Proof.
  intros Hinv Hstep. pose proof Hinv as [(ca & cb & Hm & Ha & Hb) Hwg Hcl Hda Hdb Hret _].
  destruct Hstep as [ctx ra rb wg out closed k err ret pick r wg' vs E | ctx ra rb wg out closed k err ret pick r wg' vs E
    | ctx ra rb wg out closed k err ret closed' k' E | ctx ra rb wg out closed ret | ctx ra rb wg out closed k r
    | ra rb wg out closed k err ret e | s _ Hp]; simpl in *.
  - apply readFromCtx_spec in E as (Hvs & -> & Hdone & Hrun).
    destruct (cc_open _ _ _ Hinv) as (Ho & Hk & _); [by left | ]. simpl in Ho, Hk. subst closed k.
    destruct (cc_not_returned _ _ _ Hinv) as [E1 E2]; [done | ]. simpl in E1, E2. subst.
    split; simpl; try done; [ | lia | by intros r' [|]].
    exists (ca ++ vs), cb. rewrite Hvs, <- app_assoc. split_and!; auto using merge_app_l.
  - apply readFromCtx_spec in E as (Hvs & -> & Hdone & Hrun).
    destruct (cc_open _ _ _ Hinv) as (Ho & Hk & _); [by right | ]. simpl in Ho, Hk. subst closed k.
    destruct (cc_not_returned _ _ _ Hinv) as [E1 E2]; [done | ]. simpl in E1, E2. subst.
    split; simpl; try done; [ | lia | by intros r' [|]].
    exists ca, (cb ++ vs). rewrite Hvs, <- app_assoc. split_and!; auto using merge_app_r.
  - assert (Hk : k <> KDone) by (by intros ->). destruct (cc_not_returned _ _ _ Hinv Hk) as [E1 E2]. simpl in E1, E2. subst.
    split; simpl; eauto; [ | by intros r' [|]]. destruct k; simpl in E; try done.
    + destruct (_ =? 0) eqn:E0; [ | done]. injection E as <- <-. by apply Z.eqb_eq in E0.
    + destruct Hcl as [-> ?]. by injection E as <- <-.
  - destruct (cc_not_returned _ _ _ Hinv) as [E1 _]; [done | ]. simpl in E1. subst ret.
    split; simpl; eauto. intros r [[=]|[= <-]]. split; [done | ]. split; [ | done].
    intros Hn. destruct (cc_all_done _ _ _ Hinv) as [Hpa Hpb]; [apply Hcl | ]. split; [destruct (Hda Hpa) | destruct (Hdb Hpb)]; done.
  - split; simpl; eauto. intros r' [[= <-]|[=]]. apply Hret. by right.
  - split; simpl; eauto. intros r Hr. destruct (Hret r Hr) as (? & ? & He). split_and!; try done.
    intros e' ->. by specialize (He e' eq_refl).
  - destruct (cc_no_panic _ _ _ Hinv Hp).
Qed.

Lemma cc_invariant ctx a b : invariant (cc_system ctx a b) (cc_inv a b).
Proof.
  apply invariant_ind; [intros s -> | apply cc_inv_step].
  destruct ctx; (split; simpl; [by exists [], [] | ..]); try done; try by right.
  - intros r [[= <-]|[=]]. naive_solver.
  - by intros r [|].
Qed.
End cancel_proofs.

(** [MergeChannelsOrCancel] loses nothing it has read.  When the call has
    returned, [out] is closed and is an interleaving of exactly the values
    taken from [a] and from [b] ([a] and [b] split into what was sent and what
    is still in the channels); a [nil] result means both inputs were merged
    completely, and an error result is the error of the done context. *)
Theorem MergeChannelsOrCancel_returns {T} ctx (a b : list T) s r :
  reachable (cc_system ctx a b) s -> c_ret s = Some r ->
  c_closed s = true /\ c_panicked s = false /\
  (exists ca cb, merge ca cb (c_out s) /\ a = ca ++ c_input (c_a s) /\ b = cb ++ c_input (c_b s)) /\
  (r = None -> merge a b (c_out s)) /\ (forall e, r = Some e -> c_ctx s = Some e).
Proof.
  intros Hr Hret. pose proof (cc_invariant ctx a b s Hr) as Hinv.
  destruct (cc_ret _ _ _ Hinv r) as (Hk & Hnil & He); [by left | ].
  pose proof (cc_cl _ _ _ Hinv) as Hc. rewrite Hk in Hc. destruct Hc as [Hc H0].
  destruct (cc_all_done a b s Hinv H0) as [Ha Hb].
  destruct (cc_out _ _ _ Hinv) as (ca & cb & Hm & Hca & Hcb).
  unfold c_in_hand in *. rewrite Ha in Hca. rewrite Hb in Hcb. simpl in *.
  split; [done | ]. split; [apply Hinv | ]. split; [eauto 6 | ]. split; [ | done].
  intros ->. destruct Hnil as [Hna Hnb]; [done | ].
  rewrite Hna, app_nil_r in Hca. rewrite Hnb, app_nil_r in Hcb. by subst.
Qed.

Lemma MergeChannelsOrCancel_returns_witness :
  c_closed (MergeChannelsOrCancel (Some Canceled) [1] [2]) = true.
Proof.
  eapply (MergeChannelsOrCancel_returns (Some Canceled) [1] [2] _ (Some Canceled)); [ | reflexivity].
  by apply reachable_init.
Defined.

(** ** Proofs: [MergeFetches] *)
Section fetches_proofs.
Context {T : Type} (fa fb : Fetcher T) (na nb : nat).
Hypothesis Ha : stops_at fa na.
Hypothesis Hb : stops_at fb nb.

(** The reader of a channel that holds what the fetcher has yet to yield. *)
Definition as_reader (f : Fetcher T) (n : nat) (w : fworker) : reader T :=
  Reader ((fun i => (f i).1) <$> seq (f_calls w) (n - f_calls w)) (f_pc w).

Definition as_mstate (s : fstate) : mstate T :=
  MState (as_reader fa na (fs_a s)) (as_reader fb nb (fs_b s)) (fs_wg s) (fs_out s) (fs_closed s)
         (fs_closer s) (fs_panicked s).

(** How often [Fetch] was called: at most once per value, and once more for
    the [false] that ends it. *)
Definition calls_ok (n : nat) (w : fworker (T := T)) : Prop :=
  match f_pc w with RDone => f_calls w = S n | _ => f_calls w <= n end.

Lemma fetchFrom_readFrom f n wg closed w :
  stops_at f n -> calls_ok n w ->
  match fetchFrom f wg closed w with
  | Ok (w', wg', vs) => calls_ok n w' /\ readFrom wg closed (as_reader f n w) = Ok (as_reader f n w', wg', vs)
  | Panic => readFrom wg closed (as_reader f n w) = Panic
  | Block => True
  end.
Proof.
  intros [Hstop Hgo] Hok. destruct w as [k [|v|]]; unfold fetchFrom, readFrom, calls_ok in *; simpl in *.
  - destruct (decide (k = n)) as [-> | Hne].
    + destruct (f n) as [v ok]; simpl in *. subst ok. rewrite Nat.sub_diag. simpl.
      destruct (Done wg) as [wg1| | ]; simpl; [ | done..]. split; [done | ]. unfold as_reader. simpl.
      by replace (n - S n) with 0 by lia.
    + assert (Hk : (f k).2 = true) by (apply Hgo; lia).
      destruct (f k) as [v ok] eqn:E; simpl in *. subst ok. simpl.
      split; [lia | ]. replace (n - k) with (S (n - S k)) by lia. simpl. unfold as_reader. simpl. by rewrite E.
  - destruct closed; [done | ]. simpl. split; [lia | done].
  - done.
Qed.

Lemma mf_simulates s s' :
  calls_ok na (fs_a s) -> calls_ok nb (fs_b s) -> mf_step fa fb s s' ->
  calls_ok na (fs_a s') /\ calls_ok nb (fs_b s') /\ mc_step (as_mstate s) (as_mstate s').
Proof.
  intros Hca Hcb Hstep.
  destruct Hstep as [a b wg out closed k w wg' vs E | a b wg out closed k w wg' vs E | a b wg out closed k closed' k' E
                    | a b wg out closed k Hp]; simpl in *.
  - pose proof (fetchFrom_readFrom fa na wg closed a Ha Hca) as H. rewrite E in H. destruct H as [H1 H2].
    split_and!; try done. by apply mc_a.
  - pose proof (fetchFrom_readFrom fb nb wg closed b Hb Hcb) as H. rewrite E in H. destruct H as [H1 H2].
    split_and!; try done. by apply mc_b.
  - split_and!; try done. by apply mc_close.
  - split_and!; try done. apply mc_panic. unfold mc_panics, mf_panics in *. simpl in *.
    pose proof (fetchFrom_readFrom fa na wg closed a Ha Hca) as H1.
    pose proof (fetchFrom_readFrom fb nb wg closed b Hb Hcb) as H2.
    destruct Hp as [E | [E | E]]; [rewrite E in H1 | rewrite E in H2 | ]; auto.
Qed.

Lemma mf_invariant :
  invariant (mf_system fa fb) (fun s => calls_ok na (fs_a s) /\ calls_ok nb (fs_b s) /\
    reachable (mc_system (fetched fa na) (fetched fb nb)) (as_mstate s)).
Proof.
  apply invariant_ind.
  - intros s ->. split_and!; [unfold calls_ok; simpl; lia.. | ].
    apply reachable_init. unfold as_mstate, as_reader, MergeFetches, fetched. simpl. by rewrite !Nat.sub_0_r.
  - intros s s' (H1 & H2 & H3) Hstep. destruct (mf_simulates s s' H1 H2 Hstep) as (H1' & H2' & Hm).
    split_and!; try done. eapply reachable_step; [exact H3 | exact Hm].
Qed.
End fetches_proofs.

(** [MergeFetches] refines [MergeChannels].  For fetchers that eventually
    return [false], every reachable state of [MergeFetches] is, seen through
    the values still to be fetched, a reachable state of [MergeChannels] over
    the fetched values; when [out] is closed it is an interleaving of all of
    them; and no fetcher is called again after it returned [false]. *)
Theorem MergeFetches_refines {T} (fa fb : Fetcher T) na nb s :
  stops_at fa na -> stops_at fb nb -> reachable (mf_system fa fb) s ->
  reachable (mc_system (fetched fa na) (fetched fb nb)) (as_mstate fa fb na nb s) /\
  (fs_closed s = true -> merge (fetched fa na) (fetched fb nb) (fs_out s)) /\
  f_calls (fs_a s) <= S na /\ f_calls (fs_b s) <= S nb.
Proof.
  intros Ha Hb Hr. destruct (mf_invariant fa fb na nb Ha Hb s Hr) as (H1 & H2 & H3).
  split; [done | ]. split; [ | unfold calls_ok in *; repeat case_match; lia].
  intros Hc. pose proof (mc_invariant _ _ _ H3) as Hinv.
  apply (mc_final_out _ _ _ Hinv). by apply (mc_closed_final _ _ _ Hinv).
Qed.

Lemma MergeFetches_refines_witness :
  f_calls (fs_a (MergeFetches (T := nat))) <= 2.
Proof.
  apply (MergeFetches_refines (fun i => (7, Nat.eqb i 0)) (fun _ => (0, false)) 1 0 MergeFetches).
  - split; [reflexivity | ]. intros [|i] H; [reflexivity | lia].
  - split; [reflexivity | ]. intros i H; lia.
  - by apply reachable_init.
Defined.
