(* ===== verification/Fetcher.v ===== *)
(** * Bounded parallel fetching: [lab0/parallel_fetcher.go]

    Any number of goroutines call [ParallelFetcher.Fetch] concurrently.  The
    weighted semaphore of golang.org/x/sync is outside the repository: it is an
    interface, [Weighted], whose laws are the documented behaviour of
    [NewWeighted], [Acquire(ctx, 1)] and [Release(1)]. *)
From S2P Require Import Prelude.
From stdpp Require Import strings.

Local Open Scope Z_scope.

(** ** The semaphore the fetcher relies on *)

(** [try_acquire w] is the state after an [Acquire(ctx, 1)] that succeeds in
    [w]; it is [None] where the call blocks.  The context is
    [context.Background()], which is never done, so [Acquire] has no error. *)
Class Weighted := {
  weighted : Type;
  new_weighted : Z -> weighted;
  try_acquire : weighted -> option weighted;
  release : weighted -> weighted
}.

(** The laws: [held] counts the permits given out, of [permits] in all. *)
Class WeightedLaws (W : Weighted) := {
  permits : weighted -> Z;
  held : weighted -> Z;
  new_permits n : permits (new_weighted n) = n;
  new_held n : held (new_weighted n) = 0;
  acquire_permits w w' : try_acquire w = Some w' -> permits w' = permits w;
  acquire_held w w' : try_acquire w = Some w' -> held w' = held w + 1;
  acquire_bound w w' : try_acquire w = Some w' -> held w < permits w;
  release_permits w : permits (release w) = permits w;
  release_held w : held (release w) = held w - 1
}.

Section fetcher.
Context `{W : Weighted}.

(** ** Data *)

(** Where a call of [Fetch] is. *)
Inductive fetch_pc :=
  | FetchCheck                     (* if !pf.callAgain *)
  | FetchAcquire                   (* pf.sema.Acquire *)
  | FetchCall                      (* about to call pf.fetcher.Fetch() *)
  | FetchInside                    (* inside pf.fetcher.Fetch() *)
  | FetchSet (s : string) (more : bool)      (* if !more { pf.callAgain = false } *)
  | FetchRelease (s : string) (more : bool)  (* the deferred Release *)
  | FetchDone (s : string) (more : bool).

Record ParallelFetcher := MkParallelFetcher {
  pf_sema : weighted;
  pf_callAgain : bool;
  pf_calls : list fetch_pc;          (* the calls in progress *)
  pf_started : list bool;            (* for each call of the underlying Fetch, in order: *)
  pf_false_seen : bool               (* whether one had returned false when it started *)
}.

Definition NewParallelFetcher (maxConcurrencyLimit : Z) (n : nat) : ParallelFetcher :=
  MkParallelFetcher (new_weighted (i64 (Z.max maxConcurrencyLimit 1))) true
    (replicate n FetchCheck) [] false.

(** ** [Fetch]

    The step of call [i]; [res] is what the underlying [Fetch] returns when
    this step is its return. *)
Definition Fetch (pf : ParallelFetcher) (i : nat) (res : string * bool) : option ParallelFetcher :=
  let go (p : fetch_pc) (w : weighted) (again : bool) (started : list bool) (seen : bool) :=
    Some (MkParallelFetcher w again (<[i := p]> (pf_calls pf)) started seen) in
  let stay p := go p (pf_sema pf) (pf_callAgain pf) (pf_started pf) (pf_false_seen pf) in
  match pf_calls pf !! i with
  | Some FetchCheck => stay (if pf_callAgain pf then FetchAcquire else FetchDone EmptyString false)
  | Some FetchAcquire =>
      match try_acquire (pf_sema pf) with
      | Some w => go FetchCall w (pf_callAgain pf) (pf_started pf) (pf_false_seen pf)
      | None => None
      end
  | Some FetchCall =>
      go FetchInside (pf_sema pf) (pf_callAgain pf) (pf_started pf ++ [pf_false_seen pf]) (pf_false_seen pf)
  | Some FetchInside =>
      go (FetchSet res.1 res.2) (pf_sema pf) (pf_callAgain pf) (pf_started pf)
         (pf_false_seen pf || negb res.2)
  | Some (FetchSet s more) =>
      go (FetchRelease s more) (pf_sema pf) (if more then pf_callAgain pf else false)
         (pf_started pf) (pf_false_seen pf)
  | Some (FetchRelease s more) =>
      go (FetchDone s more) (release (pf_sema pf)) (pf_callAgain pf) (pf_started pf) (pf_false_seen pf)
  | Some (FetchDone _ _) | None => None
  end.

Definition pf_step (pf pf' : ParallelFetcher) : Prop := exists i res, Fetch pf i res = Some pf'.

Definition pf_system (limit : Z) (n : nat) : lts ParallelFetcher :=
  Lts (fun pf => pf = NewParallelFetcher limit n) pf_step.

Fixpoint pf_run (ls : list (nat * (string * bool))) (pf : ParallelFetcher) : option ParallelFetcher :=
  match ls with
  | [] => Some pf
  | (i, res) :: ls => match Fetch pf i res with Some pf => pf_run ls pf | None => None end
  end.

(** A call that holds a permit; a call inside the underlying [Fetch]. *)
Definition holds (p : fetch_pc) : bool :=
  match p with FetchCall | FetchInside | FetchSet _ _ | FetchRelease _ _ => true | _ => false end.
Definition inside (p : fetch_pc) : bool := match p with FetchInside => true | _ => false end.

End fetcher.

(** ** Proofs *)
Section proofs.
Context {W : Weighted} {WL : WeightedLaws W}.
Implicit Types pf : ParallelFetcher.

Record pf_inv (limit : Z) pf : Prop := {
  pf_permits : permits (pf_sema pf) = Z.max limit 1;
  pf_held : held (pf_sema pf) = tally holds (pf_calls pf);
  pf_le : held (pf_sema pf) <= permits (pf_sema pf);
  (* [callAgain] is cleared only for a [Fetch] that returned false *)
  pf_again : pf_callAgain pf = false -> pf_false_seen pf = true;
  pf_set : forall i s, pf_calls pf !! i = Some (FetchSet s false) -> pf_false_seen pf = true
}.

(** Moving call [i] along its program. *)
Lemma pf_inv_move limit pf i p p' w again started seen :
  pf_inv limit pf -> pf_calls pf !! i = Some p ->
  permits w = Z.max limit 1 ->
  held w = held (pf_sema pf) + (if holds p' then 1 else 0) - (if holds p then 1 else 0) ->
  held w <= permits w ->
  (pf_false_seen pf = true -> seen = true) -> (again = false -> seen = true) ->
  (forall s, p' = FetchSet s false -> seen = true) ->
  pf_inv limit (MkParallelFetcher w again (<[i := p']> (pf_calls pf)) started seen).
Proof.
  intros [Hp Hh Hle Hf Hs] Hi Hw Hhw Hle' Hseen Hagain Hset. split; simpl; try done.
  - rewrite (tally_insert _ _ i _ _ Hi). lia.
  - intros j s Hj. apply list_lookup_insert_Some in Hj as [(-> & Hj & _) | [_ Hj]]; eauto.
Qed.

Lemma pf_inv_step limit pf pf' : pf_inv limit pf -> pf_step pf pf' -> pf_inv limit pf'.
Proof.
  intros Hinv (i & res & Hstep). unfold Fetch in Hstep. pose proof Hinv as [Hp Hh Hle Hf Hs].
  destruct (pf_calls pf !! i) as [p|] eqn:Hi; [ | done].
  destruct p as [| | | |s more|s more|s more]; simplify_eq.
  - destruct (pf_callAgain pf); simplify_eq; (eapply (pf_inv_move _ _ i _ _ _ _ _ _ Hinv Hi); simpl; try done; try lia; auto).
  - destruct (try_acquire (pf_sema pf)) as [w|] eqn:E; [ | done]. simplify_eq.
    pose proof (acquire_permits _ _ E). pose proof (acquire_held _ _ E). pose proof (acquire_bound _ _ E).
    eapply (pf_inv_move _ _ i _ _ _ _ _ _ Hinv Hi); simpl; try done; lia.
  - eapply (pf_inv_move _ _ i _ _ _ _ _ _ Hinv Hi); simpl; try done; lia.
  - eapply (pf_inv_move _ _ i _ _ _ _ _ _ Hinv Hi); simpl; try done; try lia.
    + intros ->. done.
    + intros ->%Hf. done.
    + intros s [= <- ->]. apply orb_true_r.
  - eapply (pf_inv_move _ _ i _ _ _ _ _ _ Hinv Hi); simpl; try done; try lia. destruct more; [done | ]. intros _. by eapply Hs.
  - eapply (pf_inv_move _ _ i _ _ _ _ _ _ Hinv Hi); simpl; try done; rewrite ?release_permits, ?release_held; simpl; try lia.
Qed.

Lemma pf_invariant limit n :
  limit < 2 ^ 63 -> invariant (pf_system limit n) (pf_inv limit).
Proof.
  intros Hl. apply invariant_ind; [ | intros; by eapply pf_inv_step].
  assert (Hnum : tally holds (replicate n FetchCheck) = 0).
  { induction n as [|n IH]; [done | ]. simpl. by rewrite tally_cons, IH. }
  intros pf ->. split; simpl; rewrite ?new_permits, ?new_held, ?Hnum; try done.
  - apply i64_small. lia.
  - rewrite i64_small; lia.
  - by intros i s [? _]%lookup_replicate.
Qed.

Lemma pf_run_reachable limit n ls pf :
  pf_run ls (NewParallelFetcher limit n) = Some pf -> reachable (pf_system limit n) pf.
Proof.
  assert (H : forall pf0, reachable (pf_system limit n) pf0 -> pf_run ls pf0 = Some pf ->
    reachable (pf_system limit n) pf).
  { induction ls as [|[i res] ls IH]; intros pf0 Hr Hrun; simpl in Hrun; [by simplify_eq | ].
    destruct (Fetch pf0 i res) as [pf1|] eqn:E; [ | done].
    apply (IH pf1); [ | exact Hrun]. eapply reachable_step; [exact Hr | ]. by exists i, res. }
  apply H. by apply reachable_init.
Qed.
End proofs.

(** C40: the concurrency limit holds.  In every reachable state of any number
    of concurrent [ParallelFetcher.Fetch] calls, at most [max(limit, 1)] of
    them are inside the underlying [Fetch], for every semaphore that satisfies
    its documented laws. *)
Theorem ParallelFetcher_limit {W : Weighted} {WL : WeightedLaws W} limit n pf :
  limit < 2 ^ 63 -> reachable (pf_system limit n) pf ->
  tally inside (pf_calls pf) <= Z.max limit 1.
Proof.
  intros Hl Hr. destruct (pf_invariant limit n Hl pf Hr) as [Hp Hh Hle _ _].
  pose proof (tally_le inside holds (pf_calls pf)) as H.
  rewrite Hh, Hp in Hle. etrans; [ | exact Hle]. apply H. by intros [].
Qed.

(** A counter meets the laws of the semaphore. *)
#[export] Instance counter_weighted : Weighted := {|
  weighted := Z * Z;
  new_weighted n := (n, 0);
  try_acquire '(n, h) := if h <? n then Some (n, h + 1) else None;
  release '(n, h) := (n, h - 1)
|}.

#[export] Instance counter_weighted_laws : WeightedLaws counter_weighted.
Proof.
  refine {| permits := fst : weighted -> Z; held := snd : weighted -> Z |}.
  - done.
  - done.
  - intros [n h] w'; simpl. branch; intros; by simplify_eq.
  - intros [n h] w'; simpl. branch; intros; by simplify_eq.
  - intros [n h] w'; simpl. branch; intros; by simplify_eq.
  - by intros [n h].
  - by intros [n h].
Defined.

Lemma ParallelFetcher_limit_witness :
  exists pf, pf_run (replicate 3 (0%nat, (EmptyString, true))) (NewParallelFetcher 0 2) = Some pf /\
    tally inside (pf_calls pf) = 1 /\ tally inside (pf_calls pf) <= Z.max 0 1.
Proof.
  eexists. split; [vm_compute; reflexivity | ]. split; [reflexivity | ].
  apply (ParallelFetcher_limit 0 2); [lia | ].
  by apply (pf_run_reachable 0 2 (replicate 3 (0%nat, (EmptyString, true)))).
Defined.

(** Two calls pass the [callAgain] check; the first one's [Fetch] returns
    [false] while the second waits for the only permit. *)
Definition called_again_schedule : list (nat * (string * bool)) :=
  [(0, (EmptyString, true)); (1, (EmptyString, true));     (* both check *)
   (0, (EmptyString, true)); (0, (EmptyString, true));     (* 0 acquires and calls *)
   (0, (EmptyString, false));                               (* its Fetch returns false *)
   (0, (EmptyString, true)); (0, (EmptyString, true));     (* callAgain = false, Release *)
   (1, (EmptyString, true)); (1, (EmptyString, true))]%nat. (* 1 acquires and calls *)

(** The addendum to the contract is broken: a call that passed the
    [callAgain] check and then waited for the semaphore starts the underlying
    [Fetch] after another one had returned [false], with [callAgain] already
    cleared and nothing in progress before it. *)
Theorem ParallelFetcher_calls_again :
  exists pf, pf_run called_again_schedule (NewParallelFetcher 1 2) = Some pf /\
    reachable (pf_system 1 2) pf /\
    pf_started pf = [false; true] /\ pf_callAgain pf = false /\
    pf_calls pf = [FetchDone EmptyString false; FetchInside].
Proof.
  eexists. split; [vm_compute; reflexivity | ]. split; [ | repeat split].
  by apply (pf_run_reachable 1 2 called_again_schedule).
Qed.
