(* ===== verification/Persister.v ===== *)
(** * Stable storage: [lab3/raft/persister.go]

    A [Persister] keeps the last saved Raft state and service snapshot.  The
    byte type is a parameter: the persister copies bytes without reading them.
    Every method holds the mutex for its whole body, so each is one function. *)
From S2P Require Import Prelude.

Section persister.
Context {B : Type}.

Record Persister := MkPersister { raftstate : list B; snapshot : list B }.

Definition MakePersister : Persister := MkPersister [] [].

(** [make([]byte, len(orig))] followed by [copy]. *)
Definition clone (orig : list B) : list B := take (length orig) orig.

Definition Copy (ps : Persister) : Persister := MkPersister (raftstate ps) (snapshot ps).

Definition SaveRaftState (ps : Persister) (state : list B) : Persister :=
  MkPersister (clone state) (snapshot ps).

Definition ReadRaftState (ps : Persister) : list B := clone (raftstate ps).

Definition RaftStateSize (ps : Persister) : Z := len (raftstate ps).

Definition SaveStateAndSnapshot (ps : Persister) (state snap : list B) : Persister :=
  MkPersister (clone state) (clone snap).

Definition ReadSnapshot (ps : Persister) : list B := clone (snapshot ps).

Definition SnapshotSize (ps : Persister) : Z := len (snapshot ps).

Lemma clone_id l : clone l = l.
Proof. unfold clone. by apply take_ge. Qed.

Lemma Read_Save ps state : ReadRaftState (SaveRaftState ps state) = state.
Proof. unfold ReadRaftState, SaveRaftState. simpl. by rewrite !clone_id. Qed.
End persister.
Arguments Persister : clear implicits.
#[export] Hint Rewrite @clone_id @Read_Save : go.
