(* ===== verification/RaftServer.v ===== *)
(** * A Raft peer: [lab3/raft/raft.go]

    The state of one peer and every function that reads or changes it, each
    run under [rf.mu] as the code does: a function below is one critical
    section.  Functions that do I/O in the middle are split where the code
    releases the lock; the network between the two halves is in [RaftCluster].

    Terms and log indices are unbounded integers here: the code only ever
    increments them by one per election or per command, so they stay far below
    2^63.  The command type is a parameter, [None] standing for the [nil]
    interface. *)
From S2P Require Import Prelude Persister.

Local Open Scope Z_scope.

(** What the code leaves to the runtime: whether a command's dynamic type is
    registered with gob ([labgob.Register]), since only such a command can be
    encoded; and the capacity of the array [append] allocates when an array of a
    given capacity has no room for a given number of elements (less than that
    number stands for exactly that number). *)
Class GoRuntime (Cmd : Type) := { registered : Cmd -> bool; newcap : nat -> nat -> nat }.

(** ** Data *)
Inductive role := FOLLOWER | CANDIDATE | LEADER.

#[export] Instance role_eq_dec : EqDecision role.
Proof. solve_decision. Defined.

Section data.
Context {Cmd : Type}.

Record ApplyMsg := MkApplyMsg { CommandValid : bool; am_Command : option Cmd; CommandIndex : Z }.

Record LogElement := MkLogElement { le_Term : Z; le_Command : option Cmd; le_Index : Z }.

(** What the gob encoder writes to the persister's buffer: one
    self-delimiting message per encoded value. *)
Inductive gob_message := GobInt (z : Z) | GobLog (l : list LogElement).

(** The arrays behind the slices of a log.  [log] is the part of its array that
    the slice [rf.log] shows; [bk_spare] is the rest of that array, and [bk_left]
    the arrays [rf.log] was in before, which nothing writes to any more. *)
Record Backing := MkBacking { bk_spare : list LogElement; bk_left : list (list LogElement) }.

(** A slice of one of them. *)
Record slice := MkSlice { sl_array : nat; sl_start : nat; sl_len : nat }.

Record Raft := MkRaft {
  peers : Z;   (* len(rf.peers) *)
  persister : Persister gob_message;
  me : Z;
  dead : Z;   (* 0, or 1 once Kill() ran *)
  votedFor : Z;
  numVotesReceived : Z;
  state : role;
  currentTerm : Z;
  log : list LogElement;
  backing : Backing;
  commitIdx : Z;
  nextIdx : list Z;   (* only for leaders *)
  matchIdx : list Z;   (* only for leaders *)
  appliedLast : Z;
  cApplyMsg : list ApplyMsg;   (* what has been sent on the apply channel *)
  cWinElection : Z;   (* messages buffered in the channel *)
  cHeartbeat : Z;   (* messages buffered in the channel *)
  appliers : nat   (* apply goroutines spawned, not yet run *)
}.

Record RequestVoteArgs := MkRequestVoteArgs {
  rv_Term : Z; rv_IDcand : Z; rv_LastLogIdx : Z; rv_LastLogTerm : Z
}.

Record RequestVoteReply := MkRequestVoteReply { rvr_Term : Z; rvr_VoteGranted : bool }.

Record AppendEntriesArgs := MkAppendEntriesArgs {
  ae_Term : Z; ae_LeaderId : Z; ae_PrevLogIdx : Z; ae_PrevLogTerm : Z;
  ae_Entries : list LogElement; ae_LeaderCommit : Z
}.

Record AppendEntriesResults := MkAppendEntriesResults {
  aer_Term : Z; aer_Success : bool; aer_NextTryIdx : Z
}.
End data.
Arguments ApplyMsg : clear implicits.
Arguments LogElement : clear implicits.
Arguments gob_message : clear implicits.
Arguments Backing : clear implicits.
Arguments Raft : clear implicits.
Arguments AppendEntriesArgs : clear implicits.

(** ** Setters *)
Section setters.
Context {Cmd : Type}.
Abbreviation ApplyMsg := (ApplyMsg Cmd).
Abbreviation LogElement := (LogElement Cmd).
Abbreviation gob_message := (gob_message Cmd).
Abbreviation Backing := (Backing Cmd).
Abbreviation Raft := (Raft Cmd).

Definition set_persister (v : Persister gob_message) (rf : Raft) : Raft :=
  MkRaft (peers rf) v (me rf) (dead rf) (votedFor rf) (numVotesReceived rf) (state rf) (currentTerm rf) (log rf) (backing rf) (commitIdx rf) (nextIdx rf) (matchIdx rf) (appliedLast rf) (cApplyMsg rf) (cWinElection rf) (cHeartbeat rf) (appliers rf).
Definition set_dead (v : Z) (rf : Raft) : Raft :=
  MkRaft (peers rf) (persister rf) (me rf) v (votedFor rf) (numVotesReceived rf) (state rf) (currentTerm rf) (log rf) (backing rf) (commitIdx rf) (nextIdx rf) (matchIdx rf) (appliedLast rf) (cApplyMsg rf) (cWinElection rf) (cHeartbeat rf) (appliers rf).
Definition set_votedFor (v : Z) (rf : Raft) : Raft :=
  MkRaft (peers rf) (persister rf) (me rf) (dead rf) v (numVotesReceived rf) (state rf) (currentTerm rf) (log rf) (backing rf) (commitIdx rf) (nextIdx rf) (matchIdx rf) (appliedLast rf) (cApplyMsg rf) (cWinElection rf) (cHeartbeat rf) (appliers rf).
Definition set_numVotesReceived (v : Z) (rf : Raft) : Raft :=
  MkRaft (peers rf) (persister rf) (me rf) (dead rf) (votedFor rf) v (state rf) (currentTerm rf) (log rf) (backing rf) (commitIdx rf) (nextIdx rf) (matchIdx rf) (appliedLast rf) (cApplyMsg rf) (cWinElection rf) (cHeartbeat rf) (appliers rf).
Definition set_state (v : role) (rf : Raft) : Raft :=
  MkRaft (peers rf) (persister rf) (me rf) (dead rf) (votedFor rf) (numVotesReceived rf) v (currentTerm rf) (log rf) (backing rf) (commitIdx rf) (nextIdx rf) (matchIdx rf) (appliedLast rf) (cApplyMsg rf) (cWinElection rf) (cHeartbeat rf) (appliers rf).
Definition set_currentTerm (v : Z) (rf : Raft) : Raft :=
  MkRaft (peers rf) (persister rf) (me rf) (dead rf) (votedFor rf) (numVotesReceived rf) (state rf) v (log rf) (backing rf) (commitIdx rf) (nextIdx rf) (matchIdx rf) (appliedLast rf) (cApplyMsg rf) (cWinElection rf) (cHeartbeat rf) (appliers rf).
Definition set_log (v : list LogElement) (rf : Raft) : Raft :=
  MkRaft (peers rf) (persister rf) (me rf) (dead rf) (votedFor rf) (numVotesReceived rf) (state rf) (currentTerm rf) v (backing rf) (commitIdx rf) (nextIdx rf) (matchIdx rf) (appliedLast rf) (cApplyMsg rf) (cWinElection rf) (cHeartbeat rf) (appliers rf).
Definition set_backing (v : Backing) (rf : Raft) : Raft :=
  MkRaft (peers rf) (persister rf) (me rf) (dead rf) (votedFor rf) (numVotesReceived rf) (state rf) (currentTerm rf) (log rf) v (commitIdx rf) (nextIdx rf) (matchIdx rf) (appliedLast rf) (cApplyMsg rf) (cWinElection rf) (cHeartbeat rf) (appliers rf).
Definition set_commitIdx (v : Z) (rf : Raft) : Raft :=
  MkRaft (peers rf) (persister rf) (me rf) (dead rf) (votedFor rf) (numVotesReceived rf) (state rf) (currentTerm rf) (log rf) (backing rf) v (nextIdx rf) (matchIdx rf) (appliedLast rf) (cApplyMsg rf) (cWinElection rf) (cHeartbeat rf) (appliers rf).
Definition set_nextIdx (v : list Z) (rf : Raft) : Raft :=
  MkRaft (peers rf) (persister rf) (me rf) (dead rf) (votedFor rf) (numVotesReceived rf) (state rf) (currentTerm rf) (log rf) (backing rf) (commitIdx rf) v (matchIdx rf) (appliedLast rf) (cApplyMsg rf) (cWinElection rf) (cHeartbeat rf) (appliers rf).
Definition set_matchIdx (v : list Z) (rf : Raft) : Raft :=
  MkRaft (peers rf) (persister rf) (me rf) (dead rf) (votedFor rf) (numVotesReceived rf) (state rf) (currentTerm rf) (log rf) (backing rf) (commitIdx rf) (nextIdx rf) v (appliedLast rf) (cApplyMsg rf) (cWinElection rf) (cHeartbeat rf) (appliers rf).
Definition set_appliedLast (v : Z) (rf : Raft) : Raft :=
  MkRaft (peers rf) (persister rf) (me rf) (dead rf) (votedFor rf) (numVotesReceived rf) (state rf) (currentTerm rf) (log rf) (backing rf) (commitIdx rf) (nextIdx rf) (matchIdx rf) v (cApplyMsg rf) (cWinElection rf) (cHeartbeat rf) (appliers rf).
Definition set_cApplyMsg (v : list ApplyMsg) (rf : Raft) : Raft :=
  MkRaft (peers rf) (persister rf) (me rf) (dead rf) (votedFor rf) (numVotesReceived rf) (state rf) (currentTerm rf) (log rf) (backing rf) (commitIdx rf) (nextIdx rf) (matchIdx rf) (appliedLast rf) v (cWinElection rf) (cHeartbeat rf) (appliers rf).
Definition set_cWinElection (v : Z) (rf : Raft) : Raft :=
  MkRaft (peers rf) (persister rf) (me rf) (dead rf) (votedFor rf) (numVotesReceived rf) (state rf) (currentTerm rf) (log rf) (backing rf) (commitIdx rf) (nextIdx rf) (matchIdx rf) (appliedLast rf) (cApplyMsg rf) v (cHeartbeat rf) (appliers rf).
Definition set_cHeartbeat (v : Z) (rf : Raft) : Raft :=
  MkRaft (peers rf) (persister rf) (me rf) (dead rf) (votedFor rf) (numVotesReceived rf) (state rf) (currentTerm rf) (log rf) (backing rf) (commitIdx rf) (nextIdx rf) (matchIdx rf) (appliedLast rf) (cApplyMsg rf) (cWinElection rf) v (appliers rf).
Definition set_appliers (v : nat) (rf : Raft) : Raft :=
  MkRaft (peers rf) (persister rf) (me rf) (dead rf) (votedFor rf) (numVotesReceived rf) (state rf) (currentTerm rf) (log rf) (backing rf) (commitIdx rf) (nextIdx rf) (matchIdx rf) (appliedLast rf) (cApplyMsg rf) (cWinElection rf) (cHeartbeat rf) v.
End setters.

(** ** The functions of [raft.go] *)
Section raft.
Context {Cmd : Type} `{GoRuntime Cmd}.
Implicit Types rf : Raft Cmd.

(** The last element of the log: [rf.log[len(rf.log)-1]]. *)
Definition last_entry rf : outcome (LogElement Cmd) := index (log rf) (len (log rf) - 1).

(** *** The memory of the log

    [append(rf.log, es...)] writes the elements into the array behind the slice
    when it has room for them, over what was there, and otherwise copies the
    slice to a new array. *)
Definition zero_element : LogElement Cmd := MkLogElement 0 None 0.

(** The array [rf.log] is in. *)
Definition array rf : list (LogElement Cmd) := log rf ++ bk_spare (backing rf).

Definition append_log (es : list (LogElement Cmd)) rf : Raft Cmd :=
  let cap := length (array rf) in
  let need := length (log rf ++ es) in
  set_log (log rf ++ es)
    (set_backing (if Nat.leb need cap
                  then MkBacking (drop (length es) (bk_spare (backing rf))) (bk_left (backing rf))
                  else MkBacking (replicate (newcap cap need - need) zero_element) (bk_left (backing rf) ++ [array rf])) rf).

(** [rf.log = rf.log[:k]], where [kept] are the first [k] elements of the array. *)
Definition cut_log (kept : list (LogElement Cmd)) rf : Raft Cmd :=
  set_log kept (set_backing (MkBacking (drop (length kept) (array rf)) (bk_left (backing rf))) rf).

(** What a slice of one of the arrays shows now. *)
Definition arrays rf : list (list (LogElement Cmd)) := bk_left (backing rf) ++ [array rf].
Definition read_slice rf (sl : slice) : list (LogElement Cmd) :=
  take (sl_len sl) (drop (sl_start sl) (default [] (arrays rf !! sl_array sl))).

(** [rf.log[k:]] *)
Definition slice_log rf (k : nat) : slice := MkSlice (length (bk_left (backing rf))) k (length (log rf) - k).
Definition nil_slice : slice := MkSlice 0 0 0.

Definition GetState rf : Z * bool := (currentTerm rf, bool_decide (state rf = LEADER)).

(** *** Persistence *)

(** Encoding the log fails when it holds a command of an unregistered type. *)
Definition encodable (l : list (LogElement Cmd)) : bool :=
  forallb (fun e => match le_Command e with Some c => registered c | None => true end) l.

Definition persist rf : Raft Cmd :=
  if encodable (log rf)
  then set_persister (SaveRaftState (persister rf)
         [GobInt (currentTerm rf); GobInt (votedFor rf); GobLog (log rf)]) rf
  else rf.

Definition decode_int (d : list (gob_message Cmd)) : option (Z * list (gob_message Cmd)) :=
  match d with GobInt z :: d => Some (z, d) | _ => None end.
Definition decode_log (d : list (gob_message Cmd))
    : option (list (LogElement Cmd) * list (gob_message Cmd)) :=
  match d with GobLog l :: d => Some (l, d) | _ => None end.

(** The fields are decoded in place, in order, up to the first error; a slice
    that is decoded into keeps its array when that is large enough. *)
Definition readPersist (data : list (gob_message Cmd)) rf : Raft Cmd :=
  if len data <? 1 then rf
  else match decode_int data with
       | None => rf
       | Some (t, d) =>
           let rf := set_currentTerm t rf in
           match decode_int d with
           | None => rf
           | Some (v, d) =>
               let rf := set_votedFor v rf in
               match decode_log d with
               | None => rf
               | Some (l, _) => append_log l (cut_log [] rf)
               end
           end
       end.

(** *** Channels

    Both notification channels have a buffer of 1000; a send on a full one
    blocks. *)
Definition chan_cap : Z := 1000.
Definition notify_heartbeat rf : outcome (Raft Cmd) :=
  if cHeartbeat rf <? chan_cap then Ok (set_cHeartbeat (cHeartbeat rf + 1) rf) else Block.
Definition notify_win rf : outcome (Raft Cmd) :=
  if cWinElection rf <? chan_cap then Ok (set_cWinElection (cWinElection rf + 1) rf) else Block.

(** A message of a later term makes the peer a follower of that term that
    has not voted: the three assignments [RequestVote] and [AppendEntries]
    make under [rf.currentTerm < args.Term]. *)
Definition step_down (t : Z) rf : Raft Cmd :=
  if currentTerm rf <? t
  then set_state FOLLOWER (set_votedFor (-1) (set_currentTerm t rf))
  else rf.

(** *** Elections *)

(** [reply] comes in as the caller allocated it. *)
Definition RequestVote rf (args : RequestVoteArgs) (reply : RequestVoteReply)
    : outcome (Raft Cmd * RequestVoteReply) :=
  if rv_Term args <? currentTerm rf then
    Ok (rf, MkRequestVoteReply (currentTerm rf) false)
  else
    let rf := step_down (rv_Term args) rf in
    lst ← last_entry rf;
    let up_to_date :=
      (le_Term lst <? rv_LastLogTerm args)
      || ((rv_LastLogTerm args =? le_Term lst) && (le_Index lst <=? rv_LastLogIdx args)) in
    let free := (votedFor rf =? -1) || (votedFor rf =? rv_IDcand args) in
    if up_to_date && free then
      rf ← notify_heartbeat (set_votedFor (rv_IDcand args) rf);
      Ok (rf, MkRequestVoteReply (rv_Term args) true)
    else Ok (rf, MkRequestVoteReply (rv_Term args) false).

(** [for i := range rf.peers { rf.nextIdx[i] = v }] *)
Fixpoint fill_nextIdx (n : nat) (l : list Z) (v : Z) : outcome (list Z) :=
  match n with
  | O => Ok l
  | S n => l ← fill_nextIdx n l v; set_index l (Z.of_nat n) v
  end.

(** [sendRequestVote] after [Call] has returned [ok] and [reply]. *)
Definition sendRequestVote rf (args : RequestVoteArgs) (ok : bool) (reply : RequestVoteReply)
    : outcome (Raft Cmd) :=
  if negb ok then Ok rf
  else if negb (currentTerm rf =? rv_Term args) || bool_decide (state rf <> CANDIDATE) then Ok rf
  else if currentTerm rf <? rvr_Term reply then
    Ok (set_state FOLLOWER (set_currentTerm (rvr_Term reply) (set_votedFor (-1) rf)))
  else if rvr_VoteGranted reply then
    let rf := set_numVotesReceived (numVotesReceived rf + 1) rf in
    if Z.quot (peers rf) 2 <? numVotesReceived rf then
      let rf := persist rf in
      lst ← last_entry rf;
      next ← fill_nextIdx (Z.to_nat (peers rf)) (nextIdx rf) (le_Index lst + 1);
      notify_win (set_state LEADER (set_nextIdx next rf))
    else Ok rf
  else Ok rf.

(** *** Log replication *)

(** The loop of [AppendEntries] that looks, below the conflicting entry, for
    one of another term: [k] counts the entries left, the next one examined
    is [rf.log[k-1]]. *)
Fixpoint conflict_start (l : list (LogElement Cmd)) (baseIdx term : Z) (k : nat) : outcome (option Z) :=
  match k with
  | O => Ok None
  | S k =>
      e ← index l (Z.of_nat k);
      if le_Term e =? term then conflict_start l baseIdx term k
      else Ok (Some (baseIdx + Z.of_nat k + 1))
  end.

(** Advancing [commitIdx] spawns a goroutine that applies the new entries. *)
Definition commit_to (c : Z) rf : Raft Cmd :=
  set_appliers (S (appliers rf)) (set_commitIdx c rf).

(** [AppendEntries] past the term check and the heartbeat. *)
Definition append_current rf (args : AppendEntriesArgs Cmd) (reply : AppendEntriesResults)
    (lastLogIdx baseIdx : Z) : outcome (Raft Cmd * AppendEntriesResults) :=
  let prev := ae_PrevLogIdx args in
  if lastLogIdx <? prev then
    Ok (rf, MkAppendEntriesResults (ae_Term args) (aer_Success reply) (lastLogIdx + 1))
  else
    (* the Go condition reads the log only when PrevLogIdx >= baseIdx *)
    conflict ← (if baseIdx <=? prev
                then e ← index (log rf) (prev - baseIdx);
                     Ok (if le_Term e =? ae_PrevLogTerm args then None else Some (le_Term e))
                else Ok None);
    match conflict with
    | Some term =>
        found ← conflict_start (log rf) baseIdx term (Z.to_nat (prev - baseIdx));
        match found with
        | Some next => Ok (rf, MkAppendEntriesResults (ae_Term args) (aer_Success reply) next)
        | None =>
            Ok (persist rf, MkAppendEntriesResults (ae_Term args) (aer_Success reply) (aer_NextTryIdx reply))
        end
    | None =>
        if baseIdx - 2 <? prev then
          kept ← slice_to (array rf) (prev - baseIdx + 1);
          let rf := append_log (ae_Entries args) (cut_log kept rf) in
          let reply := MkAppendEntriesResults (ae_Term args) true (len (ae_Entries args) + prev) in
          if commitIdx rf <? ae_LeaderCommit args then
            lst ← last_entry rf;
            Ok (persist (commit_to (Z.min (ae_LeaderCommit args) (le_Index lst)) rf), reply)
          else Ok (persist rf, reply)
        else
          Ok (persist rf, MkAppendEntriesResults (ae_Term args) (aer_Success reply) (aer_NextTryIdx reply))
    end.

Definition AppendEntries rf (args : AppendEntriesArgs Cmd) (reply : AppendEntriesResults)
    : outcome (Raft Cmd * AppendEntriesResults) :=
  lst ← last_entry rf;
  base ← index (log rf) 0;
  if ae_Term args <? currentTerm rf then
    Ok (rf, MkAppendEntriesResults (currentTerm rf) false (le_Index lst + 1))
  else
    rf ← notify_heartbeat (step_down (ae_Term args) rf);
    append_current rf args reply (le_Index lst) (le_Index base).

(** The apply goroutine: send every entry above [appliedLast] up to
    [commitIdx], then move [appliedLast]. *)
Fixpoint apply_from (n : nat) (i : Z) (l : list (LogElement Cmd)) : outcome (list (ApplyMsg Cmd)) :=
  match n with
  | O => Ok []
  | S n =>
      base ← index l 0;
      e ← index l (i - le_Index base);
      ms ← apply_from n (i + 1) l;
      Ok (MkApplyMsg true (le_Command e) i :: ms)
  end.

Definition applyCommitted rf : outcome (Raft Cmd) :=
  ms ← apply_from (Z.to_nat (commitIdx rf - appliedLast rf)) (appliedLast rf + 1) (log rf);
  Ok (set_appliedLast (commitIdx rf) (set_cApplyMsg (cApplyMsg rf ++ ms) rf)).

(** [count := 1; for j := range rf.peers ...]: how many peers hold entry [i],
    this one included. *)
Fixpoint count_matching (n : nat) rf (i : Z) : outcome Z :=
  match n with
  | O => Ok 1
  | S n =>
      c ← count_matching n rf i;
      m ← index (matchIdx rf) (Z.of_nat n);
      Ok (if (i <=? m) && negb (Z.of_nat n =? me rf) then c + 1 else c)
  end.

(** The commit loop of [sendAppendEntries]: [k] entries are left above
    [commitIdx], the next one examined is entry [i = commitIdx + k]. *)
Fixpoint advance_commit (k : nat) (baseIdx : Z) rf : outcome (Raft Cmd) :=
  match k with
  | O => Ok rf
  | S k' =>
      let i := commitIdx rf + Z.of_nat k in
      e ← index (log rf) (i - baseIdx);
      if currentTerm rf =? le_Term e then
        c ← count_matching (Z.to_nat (peers rf)) rf i;
        if Z.quot (peers rf) 2 <? c then Ok (commit_to i rf)
        else advance_commit k' baseIdx rf
      else Ok rf
  end.

(** The deep copy [sendAppendEntries] makes of its arguments before [Call]: of
    the elements the slice [arg.Entries] shows when the goroutine gets the lock. *)
Definition copy_args rf (arg : AppendEntriesArgs Cmd) (sl : slice) : AppendEntriesArgs Cmd :=
  MkAppendEntriesArgs (ae_Term arg) (ae_LeaderId arg) (ae_PrevLogIdx arg) (ae_PrevLogTerm arg)
    (read_slice rf sl) (ae_LeaderCommit arg).

(** [sendAppendEntries] after [Call] has returned [ok] and [reply]. *)
Definition sendAppendEntries rf (server : Z) (args : AppendEntriesArgs Cmd) (ok : bool)
    (reply : AppendEntriesResults) : outcome (Raft Cmd) :=
  base ← index (log rf) 0;
  let baseIdx := le_Index base in
  if negb ok || negb (currentTerm rf =? ae_Term args) || bool_decide (state rf <> LEADER) then Ok rf
  else if currentTerm rf <? aer_Term reply then
    Ok (persist (set_state FOLLOWER (set_currentTerm (aer_Term reply) (set_votedFor (-1) rf))))
  else
    rf ← (if aer_Success reply then
            if 0 <? len (ae_Entries args) then
              e ← index (ae_Entries args) (len (ae_Entries args) - 1);
              next ← set_index (nextIdx rf) server (le_Index e + 1);
              match_ ← set_index (matchIdx rf) server (le_Index e);
              Ok (set_matchIdx match_ (set_nextIdx next rf))
            else Ok rf
          else
            next ← set_index (nextIdx rf) server (aer_NextTryIdx reply);
            Ok (set_nextIdx next rf));
    lst ← last_entry rf;
    advance_commit (Z.to_nat (le_Index lst - commitIdx rf)) baseIdx rf.

(** The arguments [broadcastHeartbeat] prepares for peer [i], with the slice of
    the log that is their [Entries]; [None] when it sends nothing to it. *)
Definition heartbeat_args rf (baseIdx : Z) (i : Z) : outcome (option (AppendEntriesArgs Cmd * slice)) :=
  if bool_decide (state rf = LEADER) && negb (i =? me rf) then
    next ← index (nextIdx rf) i;
    if next <=? baseIdx then Ok None
    else
      let prev := next - 1 in
      prevTerm ← (if baseIdx <=? prev then e ← index (log rf) (prev - baseIdx); Ok (le_Term e) else Ok 0);
      lst ← last_entry rf;
      '(entries, sl) ← (if next <=? le_Index lst
                        then es ← slice_from (log rf) (next - baseIdx); Ok (es, slice_log rf (Z.to_nat (next - baseIdx)))
                        else Ok ([], nil_slice));
      Ok (Some (MkAppendEntriesArgs (currentTerm rf) (me rf) prev prevTerm entries (commitIdx rf), sl))
  else Ok None.

Fixpoint broadcast_to (n : nat) rf (baseIdx : Z) : outcome (list (Z * (AppendEntriesArgs Cmd * slice))) :=
  match n with
  | O => Ok []
  | S n =>
      sent ← broadcast_to n rf baseIdx;
      a ← heartbeat_args rf baseIdx (Z.of_nat n);
      Ok (sent ++ match a with Some args => [(Z.of_nat n, args)] | None => [] end)
  end.

Definition broadcastHeartbeat rf : outcome (list (Z * (AppendEntriesArgs Cmd * slice))) :=
  base ← index (log rf) 0;
  broadcast_to (Z.to_nat (peers rf)) rf (le_Index base).

(** *** The service interface *)
Definition Start rf (command : option Cmd) : outcome (Raft Cmd * (Z * Z * bool)) :=
  if bool_decide (state rf = LEADER) then
    let term := currentTerm rf in
    lst ← last_entry rf;
    let idx := le_Index lst + 1 in
    Ok (persist (append_log [MkLogElement term command idx] rf), (idx, term, true))
  else Ok (rf, (-1, -1, false)).

Definition Kill rf : Raft Cmd := set_dead 1 rf.
Definition killed rf : bool := dead rf =? 1.

(** *** The ticker

    [TickTop] is the loop head; the other states are the [select] of a
    follower, the one of a candidate, and the leader's sleep. *)
Inductive ticker_pc := TickTop | TickFollower | TickCandidate | TickLeader | TickExit.

(** What ends a wait: the timer, a heartbeat, or winning the election. *)
Inductive tick_event := Timeout | Heartbeat | WonElection.

(** The goroutines a ticker step starts. *)
Inductive spawn := SpawnNothing | SpawnElection | SpawnBroadcast.

(** The [CANDIDATE] case up to the unlock. *)
Definition start_election rf : Raft Cmd :=
  persist (set_numVotesReceived 1 (set_votedFor (me rf) (set_currentTerm (currentTerm rf + 1) rf))).

Definition ticker rf (pc : ticker_pc) (ev : tick_event) : outcome (Raft Cmd * ticker_pc * spawn) :=
  match pc with
  | TickTop =>
      if killed rf then Ok (rf, TickExit, SpawnNothing)
      else match state rf with
           | FOLLOWER => Ok (rf, TickFollower, SpawnNothing)
           | CANDIDATE => Ok (start_election rf, TickCandidate, SpawnElection)
           | LEADER => Ok (rf, TickLeader, SpawnBroadcast)
           end
  | TickFollower =>
      match ev with
      | Timeout => Ok (persist (set_state CANDIDATE rf), TickTop, SpawnNothing)
      | Heartbeat => if 0 <? cHeartbeat rf
                     then Ok (set_cHeartbeat (cHeartbeat rf - 1) rf, TickTop, SpawnNothing) else Block
      | WonElection => Block
      end
  | TickCandidate =>
      match ev with
      | WonElection => if 0 <? cWinElection rf
                       then Ok (set_cWinElection (cWinElection rf - 1) rf, TickTop, SpawnNothing) else Block
      | Timeout => Ok (set_state FOLLOWER rf, TickTop, SpawnNothing)
      | Heartbeat => if 0 <? cHeartbeat rf
                     then Ok (set_state FOLLOWER (set_cHeartbeat (cHeartbeat rf - 1) rf), TickTop, SpawnNothing)
                     else Block
      end
  | TickLeader =>   (* the second critical section, then the 100 ms sleep *)
      match ev with Timeout => Ok (persist rf, TickTop, SpawnNothing) | _ => Block end
  | TickExit => Block
  end.

(** The arguments the election goroutine reads when it gets the lock. *)
Definition vote_args rf : outcome RequestVoteArgs :=
  lst ← last_entry rf;
  Ok (MkRequestVoteArgs (currentTerm rf) (me rf) (le_Index lst) (le_Term lst)).

Definition Make (npeers : nat) (me_ : Z) (ps : Persister (gob_message Cmd)) : Raft Cmd :=
  let rf := MkRaft (Z.of_nat npeers) ps me_ 0 0 0 FOLLOWER 0
              [] (MkBacking [] []) 0 (replicate npeers 0) (replicate npeers 0) 0 [] 0 0 O in
  let rf := append_log [MkLogElement 0 None 0] rf in
  let rf := readPersist (ReadRaftState ps) rf in
  let rf := persist rf in
  set_votedFor (-1) rf.
End raft.

(** ** Well-formed peers *)
Section wf.
Context {Cmd : Type} `{GoRuntime Cmd}.
Implicit Types (rf : Raft Cmd) (l : list (LogElement Cmd)).

(** A well-formed log starts with the sentinel entry [{0, nil, 0}], numbers
    its entries by position, and holds positive terms above it. *)
Record log_wf l : Prop := {
  lw_base : l !! O = Some (MkLogElement 0 None 0);
  lw_index : forall k e, l !! k = Some e -> le_Index e = Z.of_nat k;
  lw_term : forall k e, l !! S k = Some e -> 1 <= le_Term e
}.

Record raft_wf rf : Prop := {
  wf_log : log_wf (log rf);
  wf_current : 0 <= currentTerm rf;
  wf_next_len : len (nextIdx rf) = peers rf;
  wf_match_len : len (matchIdx rf) = peers rf;
  wf_me : 0 <= me rf < peers rf;
  wf_commit : 0 <= commitIdx rf;
  wf_applied : 0 <= appliedLast rf
}.

(** Arguments a leader of a term [ae_Term] sends. *)
Record append_wf (args : AppendEntriesArgs Cmd) : Prop := {
  aw_term : 1 <= ae_Term args;
  aw_prev : 0 <= ae_PrevLogIdx args;
  aw_base : ae_PrevLogIdx args = 0 -> ae_PrevLogTerm args = 0;
  aw_index : forall k e, ae_Entries args !! k = Some e -> le_Index e = ae_PrevLogIdx args + 1 + Z.of_nat k;
  aw_entry : forall k e, ae_Entries args !! k = Some e -> 1 <= le_Term e
}.

(** The log has an entry at [prev] with term [t]. *)
Definition log_matches l (prev t : Z) : bool :=
  match l !! Z.to_nat prev with Some e => le_Term e =? t | None => false end.
End wf.
