(* ===== verification/RaftServerFacts.v ===== *)
(** * What the functions of a Raft peer do

    Totality, functional behaviour and preservation of well-formedness of the
    functions of [RaftServer], each on every branch. *)
From S2P Require Import Prelude Persister RaftServer.

Local Open Scope Z_scope.

Section logs.
Context {Cmd : Type}.
Implicit Types (l : list (LogElement Cmd)) (rf : Raft Cmd).

Lemma log_wf_len l : log_wf l -> 1 <= len l.
Proof. intros [Hb _ _]. apply lookup_lt_Some in Hb. unfold len. lia. Qed.

Lemma log_wf_take l n : log_wf l -> log_wf (take (S n) l).
Proof.
  intros [Hb Hi Ht]. split.
  - by rewrite lookup_take_lt by lia.
  - intros k e [Hk _]%lookup_take_Some. eauto.
  - intros k e [Hk _]%lookup_take_Some. eauto.
Qed.

(** Appending entries numbered after the last one. *)
Lemma log_wf_app l k :
  log_wf l ->
  (forall i e, k !! i = Some e -> le_Index e = len l + Z.of_nat i /\ 1 <= le_Term e) ->
  log_wf (l ++ k).
Proof.
  intros Hwf Hk. pose proof (log_wf_len _ Hwf) as Hlen. destruct Hwf as [Hb Hi Ht].
  unfold len in *. split.
  - by apply lookup_app_l_Some.
  - intros i e [He | [Hge He]]%lookup_app_Some; [eauto | ]. apply Hk in He as [-> _]. lia.
  - intros i e [He | [Hge He]]%lookup_app_Some; [eauto | ]. by apply Hk in He as [_ ?].
Qed.

Lemma last_entry_wf rf :
  log_wf (log rf) ->
  exists e, last_entry rf = Ok e /\ log rf !! Z.to_nat (len (log rf) - 1) = Some e /\
    le_Index e = len (log rf) - 1.
Proof.
  intros Hwf. pose proof (log_wf_len _ Hwf) as Hlen.
  destruct (index_total (log rf) (len (log rf) - 1)) as [e He]; [lia | ].
  exists e. apply index_Ok in He as Hl. destruct Hl as [_ Hl]. split; [exact He | ].
  split; [exact Hl | ]. rewrite (lw_index _ Hwf _ _ Hl). lia.
Qed.

Lemma base_wf rf : log_wf (log rf) -> index (log rf) 0 = Ok (MkLogElement 0 None 0).
Proof. intros [Hb _ _]. apply index_Ok. done. Qed.

(** The loop below a conflicting entry of a positive term stops above the
    sentinel at the latest. *)
Lemma conflict_start_spec l term k :
  log_wf l -> 1 <= term -> (k <= length l)%nat -> (1 <= k)%nat ->
  exists n, conflict_start l 0 term k = Ok (Some n) /\ 1 <= n <= Z.of_nat k /\
    (exists e, l !! Z.to_nat (n - 1) = Some e /\ le_Term e <> term) /\
    forall i e, n <= Z.of_nat i < Z.of_nat k -> l !! i = Some e -> le_Term e = term.
Proof.
  intros Hwf Hterm. induction k as [|k IH]; intros Hk Hpos; [lia | ]. simpl.
  destruct (index_total l (Z.of_nat k)) as [e He]; [unfold len; lia | ].
  rewrite He. simpl. apply index_Ok in He as [_ He]. rewrite Nat2Z.id in He.
  destruct (le_Term e =? term) eqn:E; zbool.
  - destruct k as [|k].
    + rewrite (lw_base _ Hwf) in He. simplify_eq/=. lia.
    + destruct IH as (n & Hn & Hr & Hx & Hall); [lia | lia | ].
      exists n. split; [done | ]. split; [lia | ]. split; [done | ]. intros i e' Hi He'.
      destruct (decide (i = S k)) as [-> | Hne]; [by simplify_eq | ]. apply (Hall i); [lia | done].
  - exists (Z.of_nat k + 1). rewrite Z.add_0_l. split; [done | ]. split; [lia | ]. split.
    + exists e. replace (Z.to_nat (Z.of_nat k + 1 - 1)) with k by lia. done.
    + intros i e' Hi. lia.
Qed.
End logs.

Section peers.
Context {Cmd : Type} `{GoRuntime Cmd}.
Implicit Types (rf : Raft Cmd) (args : AppendEntriesArgs Cmd).

(** [persist] changes the persister only. *)
Lemma persist_set rf : exists ps, persist rf = set_persister ps rf.
Proof.
  unfold persist. destruct (encodable (log rf)); [eauto | ]. exists (persister rf). by destruct rf.
Qed.

(** What [persist] has written can be read off the state it leaves. *)
Lemma persist_persister rf : persister (persist rf) = persister (persist (set_persister (persister rf) (persist rf))).
Proof. unfold persist. destruct (encodable (log rf)) eqn:E; simpl; by rewrite E. Qed.

Lemma wf_persist rf : raft_wf rf -> raft_wf (persist rf).
Proof. intros Hwf. destruct (persist_set rf) as [ps ->]. by destruct Hwf. Qed.

Lemma step_down_wf t rf : raft_wf rf -> raft_wf (step_down t rf).
Proof.
  intros Hwf. unfold step_down. branch; [ | done]. destruct Hwf. split; simpl; try done; lia.
Qed.

Lemma step_down_term t rf : currentTerm (step_down t rf) = Z.max (currentTerm rf) t.
Proof. unfold step_down. branch; simpl; lia. Qed.

Lemma step_down_log t rf : log (step_down t rf) = log rf.
Proof. unfold step_down. by branch. Qed.

Lemma step_down_commit t rf : commitIdx (step_down t rf) = commitIdx rf.
Proof. unfold step_down. by branch. Qed.

Lemma step_down_heartbeat t rf : cHeartbeat (step_down t rf) = cHeartbeat rf.
Proof. unfold step_down. by branch. Qed.

Lemma notify_heartbeat_Ok rf :
  cHeartbeat rf < chan_cap -> notify_heartbeat rf = Ok (set_cHeartbeat (cHeartbeat rf + 1) rf).
Proof. intros H1. unfold notify_heartbeat. apply Z.ltb_lt in H1. by rewrite H1. Qed.

(** The log after a successful [AppendEntries]. *)
Lemma append_log_wf args l :
  log_wf l -> append_wf args -> ae_PrevLogIdx args < len l ->
  log_wf (take (S (Z.to_nat (ae_PrevLogIdx args))) l ++ ae_Entries args) /\
  len (take (S (Z.to_nat (ae_PrevLogIdx args))) l ++ ae_Entries args)
    = ae_PrevLogIdx args + 1 + len (ae_Entries args).
Proof.
  intros Hl [Ht Hp Hb Hi He] Hlt.
  assert (Htake : len (take (S (Z.to_nat (ae_PrevLogIdx args))) l) = ae_PrevLogIdx args + 1).
  { unfold len in *. rewrite length_take. lia. }
  split; [ | rewrite len_app; lia].
  apply log_wf_app; [by apply log_wf_take | ]. intros k e Hk.
  rewrite Htake, (Hi k e Hk). specialize (He k e Hk). lia.
Qed.

Lemma append_raft_wf es rf : log_wf (log rf ++ es) -> raft_wf rf -> raft_wf (append_log es rf).
Proof. intros Hl []. by split. Qed.

Lemma overwrite_raft_wf kept es rf : log_wf (kept ++ es) -> raft_wf rf -> raft_wf (append_log es (cut_log kept rf)).
Proof. intros Hl []. by split. Qed.

Lemma set_heartbeat_wf n rf : raft_wf rf -> raft_wf (set_cHeartbeat n rf).
Proof. intros []. by split. Qed.

Lemma commit_to_wf c rf : 0 <= c -> raft_wf rf -> raft_wf (commit_to c rf).
Proof. intros Hc []. by split. Qed.

Definition zero_append_reply : AppendEntriesResults := MkAppendEntriesResults 0 false 0.

(** What a peer that is not behind the sender does with the entries. *)
Lemma append_current_match rf args :
  raft_wf rf -> append_wf args -> ae_Term args = currentTerm rf ->
  log_matches (log rf) (ae_PrevLogIdx args) (ae_PrevLogTerm args) = true ->
  exists rf', append_current rf args zero_append_reply (len (log rf) - 1) 0 =
      Ok (rf', MkAppendEntriesResults (ae_Term args) true (len (ae_Entries args) + ae_PrevLogIdx args)) /\
    raft_wf rf' /\ currentTerm rf' = currentTerm rf /\
    log rf' = take (S (Z.to_nat (ae_PrevLogIdx args))) (log rf) ++ ae_Entries args /\
    commitIdx rf' = (if commitIdx rf <? ae_LeaderCommit args
                     then Z.min (ae_LeaderCommit args) (ae_PrevLogIdx args + len (ae_Entries args))
                     else commitIdx rf) /\
    cHeartbeat rf' = cHeartbeat rf /\ votedFor rf' = votedFor rf /\ state rf' = state rf /\
    persister rf' = persister (persist (set_persister (persister rf) rf')).
Proof.
  intros Hwf Haw Hterm Hm. pose proof (wf_log _ Hwf) as Hl. pose proof (aw_prev _ Haw) as Hprev.
  unfold log_matches in Hm. destruct (log rf !! _) as [e|] eqn:He; [ | done]. zbool.
  assert (Hlt : ae_PrevLogIdx args < len (log rf)) by (apply lookup_lt_Some in He; unfold len; lia).
  unfold append_current.
  replace (len (log rf) - 1 <? ae_PrevLogIdx args) with false by (symmetry; apply Z.ltb_ge; lia).
  replace (0 <=? ae_PrevLogIdx args) with true by (symmetry; apply Z.leb_le; lia).
  rewrite Z.sub_0_r. replace (index (log rf) (ae_PrevLogIdx args)) with (Ok e) by (symmetry; by apply index_Ok).
  simpl. replace (le_Term e =? ae_PrevLogTerm args) with true by (symmetry; by apply Z.eqb_eq). simpl.
  replace (0 - 2 <? ae_PrevLogIdx args) with true by (symmetry; apply Z.ltb_lt; lia).
  set (kept := take (S (Z.to_nat (ae_PrevLogIdx args))) (log rf)).
  replace (slice_to (array rf) (ae_PrevLogIdx args + 1)) with (Ok kept).
  2:{ symmetry. apply slice_to_Ok. unfold array, kept. rewrite len_app. pose proof (len_nonneg (bk_spare (backing rf))).
      split; [lia | ]. rewrite take_app_le by (unfold len in *; lia). f_equal. lia. }
  simpl. destruct (append_log_wf args (log rf)) as [Hl' Hlen']; [done | done | done | ].
  fold kept in Hl', Hlen'.
  assert (Hwf' : raft_wf (append_log (ae_Entries args) (cut_log kept rf))) by by apply overwrite_raft_wf.
  destruct (last_entry_wf (append_log (ae_Entries args) (cut_log kept rf))) as (lst & Hlst & _ & Hidx); [done | ].
  simpl in *. branch.
  - rewrite Hlst. simpl. eexists. split; [reflexivity | ].
    assert (Hwf'' : raft_wf (commit_to (Z.min (ae_LeaderCommit args) (le_Index lst)) (append_log (ae_Entries args) (cut_log kept rf)))).
    { apply commit_to_wf; [ | done]. pose proof (wf_commit _ Hwf). pose proof (len_nonneg (ae_Entries args)). lia. }
    pose proof (wf_persist _ Hwf'') as Hwf3.
    pose proof (persist_persister (commit_to (Z.min (ae_LeaderCommit args) (le_Index lst))
      (append_log (ae_Entries args) (cut_log kept rf)))) as Hps.
    destruct (persist_set (commit_to (Z.min (ae_LeaderCommit args) (le_Index lst))
      (append_log (ae_Entries args) (cut_log kept rf)))) as [ps Eps]; rewrite Eps in *.
    split_and!; try done. simpl. f_equal. lia.
  - eexists. split; [reflexivity | ]. pose proof (wf_persist _ Hwf') as Hwf3.
    pose proof (persist_persister (append_log (ae_Entries args) (cut_log kept rf))) as Hps.
    destruct (persist_set (append_log (ae_Entries args) (cut_log kept rf))) as [ps Eps]; rewrite Eps in *. done.
Qed.

(** And when its log has no such entry: it asks for an earlier one. *)
Lemma append_current_mismatch rf args :
  raft_wf rf -> append_wf args ->
  log_matches (log rf) (ae_PrevLogIdx args) (ae_PrevLogTerm args) = false ->
  exists next, append_current rf args zero_append_reply (len (log rf) - 1) 0 =
      Ok (rf, MkAppendEntriesResults (ae_Term args) false next) /\
    1 <= next <= ae_PrevLogIdx args /\ next <= len (log rf).
Proof.
  intros Hwf Haw Hm. pose proof (wf_log _ Hwf) as Hl. pose proof (aw_prev _ Haw) as Hprev.
  pose proof (log_wf_len _ Hl) as Hlen.
  unfold append_current. destruct (len (log rf) - 1 <? ae_PrevLogIdx args) eqn:E; zbool.
  - exists (len (log rf) - 1 + 1). split; [done | lia].
  - replace (0 <=? ae_PrevLogIdx args) with true by (symmetry; apply Z.leb_le; lia).
    rewrite Z.sub_0_r. destruct (index_total (log rf) (ae_PrevLogIdx args)) as [e He]; [lia | ].
    rewrite He. simpl. apply index_Ok in He as [_ He]. unfold log_matches in Hm. rewrite He in Hm.
    rewrite Hm. simpl. zbool.
    assert (Hpos : ae_PrevLogIdx args <> 0).
    { intros H0. rewrite H0 in He. change (Z.to_nat 0) with 0%nat in He. rewrite (lw_base _ Hl) in He. simplify_eq/=.
      by rewrite (aw_base _ Haw H0) in Hm. }
    assert (Hterm : 1 <= le_Term e).
    { destruct (Z.to_nat (ae_PrevLogIdx args)) as [|k] eqn:Ek; [lia | ].
      pose proof (lw_term _ Hl k e He). lia. }
    destruct (conflict_start_spec _ (le_Term e) (Z.to_nat (ae_PrevLogIdx args)) Hl Hterm)
      as (next & -> & Hnext & _); [unfold len in *; lia | lia | ].
    simpl. exists next. split; [done | lia].
Qed.
End peers.

(** ** Counting replicas and advancing the commit index *)
Section commit.
Context {Cmd : Type} `{GoRuntime Cmd}.
Implicit Types (rf : Raft Cmd).

(** Peer [j] holds entry [i], as far as this peer knows; it holds its own. *)
Definition holds_entry rf (i : Z) (j : nat) : bool :=
  (Z.of_nat j =? me rf) || match matchIdx rf !! j with Some m => i <=? m | None => false end.

Definition replicas rf (i : Z) : Z :=
  len (filter (fun j => holds_entry rf i j = true) (seq 0 (Z.to_nat (peers rf)))).

Lemma count_matching_spec n rf i :
  (n <= length (matchIdx rf))%nat ->
  count_matching n rf i =
    Ok (len (filter (fun j => holds_entry rf i j = true) (seq 0 n))
        + (if (0 <=? me rf) && (me rf <? Z.of_nat n) then 0 else 1)).
Proof.
  induction n as [|n IH]; intros Hn.
  { simpl. f_equal. branch; [lia | done]. }
  cbn [count_matching]. rewrite IH by lia. rewrite bind_Ok.
  destruct (index_total (matchIdx rf) (Z.of_nat n)) as [m Hm]; [unfold len; lia | ].
  rewrite Hm, bind_Ok. apply index_Ok in Hm as [_ Hm]. rewrite Nat2Z.id in Hm.
  rewrite seq_S, filter_app, Nat.add_0_l, len_app, filter_cons, filter_nil.
  assert (Hh : holds_entry rf i n = (Z.of_nat n =? me rf) || (i <=? m)) by (unfold holds_entry; by rewrite Hm).
  rewrite Hh. clear Hh.
  set (c := len (filter _ (seq 0 n))). unfold len. f_equal.
  destruct (i <=? m) eqn:E1; destruct (Z.of_nat n =? me rf) eqn:E2; zbool;
    simpl; repeat case_decide; simpl in *; try done;
    repeat match goal with |- context [(?x <? ?y)] => destruct (Z.ltb_spec x y) | |- context [(?x <=? ?y)] => destruct (Z.leb_spec x y) end;
    simpl; try lia.
Qed.

Lemma count_matching_replicas rf i :
  raft_wf rf -> count_matching (Z.to_nat (peers rf)) rf i = Ok (replicas rf i).
Proof.
  intros [_ _ _ Hlen Hme _ _]. rewrite count_matching_spec by (unfold len in *; lia).
  unfold replicas. rewrite Z2Nat.id by lia.
  replace ((0 <=? me rf) && (me rf <? peers rf)) with true; [f_equal; lia | ].
  symmetry. apply andb_true_iff. rewrite Z.leb_le, Z.ltb_lt. lia.
Qed.

(** The commit loop either leaves the peer alone or commits an entry of the
    current term, above the commit index, that a majority holds. *)
Lemma advance_commit_spec k rf :
  raft_wf rf -> commitIdx rf + Z.of_nat k < len (log rf) ->
  exists rf', advance_commit k 0 rf = Ok rf' /\
    (rf' = rf \/ exists i e, rf' = commit_to i rf /\ commitIdx rf < i <= commitIdx rf + Z.of_nat k /\
       log rf !! Z.to_nat i = Some e /\ le_Term e = currentTerm rf /\ peers rf < 2 * replicas rf i).
Proof.
  intros Hwf. induction k as [|k IH]; intros Hk; [simpl; eauto | ].
  cbn [advance_commit]. rewrite Z.sub_0_r.
  pose proof (wf_commit _ Hwf).
  destruct (index_total (log rf) (commitIdx rf + Z.of_nat (S k))) as [e He]; [lia | ].
  rewrite He. simpl. apply index_Ok in He as [_ He]. branch; [ | eauto].
  rewrite count_matching_replicas by done. simpl. branch.
  - eexists. split; [reflexivity | ]. right. do 2 eexists. split; [reflexivity | ].
    split; [lia | ]. split; [exact He | ]. split; [done | ].
    pose proof (wf_me _ Hwf). rewrite Z.quot_div_nonneg in * by lia.
    pose proof (Z.div_mod (peers rf) 2). pose proof (Z.mod_pos_bound (peers rf) 2). lia.
  - destruct IH as (rf' & -> & Hrf'); [lia | ]. exists rf'. split; [done | ].
    destruct Hrf' as [? | (i & e' & Hi & Hr & ?)]; [by left | ].
    right. exists i, e'. split; [done | ]. split; [lia | done].
Qed.
End commit.

(** ** The answer to an [AppendEntries] *)
Section answers.
Context {Cmd : Type} `{GoRuntime Cmd}.
Implicit Types (rf : Raft Cmd) (args : AppendEntriesArgs Cmd).

(** The leader may act on the answer. *)
Definition answer_current rf args (ok : bool) : bool :=
  ok && (currentTerm rf =? ae_Term args) && bool_decide (state rf = LEADER).

(** [sendAppendEntries] before the commit loop. *)
Definition note_answer rf (server : Z) args (reply : AppendEntriesResults) : Raft Cmd :=
  if aer_Success reply then
    match last (ae_Entries args) with
    | Some e => set_matchIdx (<[Z.to_nat server := le_Index e]> (matchIdx rf))
                  (set_nextIdx (<[Z.to_nat server := le_Index e + 1]> (nextIdx rf)) rf)
    | None => rf
    end
  else set_nextIdx (<[Z.to_nat server := aer_NextTryIdx reply]> (nextIdx rf)) rf.

Lemma note_answer_wf rf server args reply : raft_wf rf -> raft_wf (note_answer rf server args reply).
Proof.
  intros []. unfold note_answer. destruct (aer_Success reply); [destruct (last _) | ];
    split; simpl; unfold len in *; rewrite ?length_insert; try done.
Qed.

Lemma note_answer_fields rf server args reply (rf' := note_answer rf server args reply) :
  log rf' = log rf /\ commitIdx rf' = commitIdx rf /\ currentTerm rf' = currentTerm rf /\
  peers rf' = peers rf /\ state rf' = state rf /\ me rf' = me rf.
Proof.
  subst rf'. unfold note_answer. destruct (aer_Success reply); [destruct (last _) | ]; done.
Qed.

Lemma sendAppendEntries_current rf server args reply :
  raft_wf rf -> 0 <= server < peers rf -> answer_current rf args true = true ->
  aer_Term reply <= currentTerm rf ->
  sendAppendEntries rf server args true reply =
    advance_commit (Z.to_nat (len (log rf) - 1 - commitIdx rf)) 0 (note_answer rf server args reply).
Proof.
  intros Hwf Hs Hc Ht. unfold answer_current in Hc. zbool. simpl in *.
  unfold sendAppendEntries. rewrite (base_wf _ (wf_log _ Hwf)), bind_Ok. simpl.
  replace (currentTerm rf =? ae_Term args) with true by (symmetry; by apply Z.eqb_eq).
  rewrite bool_decide_eq_false_2 by (intros X; by apply X). simpl.
  replace (currentTerm rf <? aer_Term reply) with false by (symmetry; by apply Z.ltb_ge).
  destruct (note_answer_fields rf server args reply) as (Hlog & Hci & _).
  rewrite <- Hlog, <- Hci. pose proof (note_answer_wf rf server args reply Hwf) as Hwf'.
  destruct (last_entry_wf _ (wf_log _ Hwf')) as (e & He & _ & Hidx). rewrite <- Hidx.
  assert (Hn : forall (l : list Z) v, len l = peers rf -> set_index l server v = Ok (<[Z.to_nat server := v]> l)).
  { intros l v Hl. apply set_index_Ok. split; [lia | done]. }
  assert (Hlast : forall (l : list (LogElement Cmd)) v, last l = Some v -> index l (len l - 1) = Ok v).
  { intros l v Hl. apply index_Ok. rewrite last_lookup in Hl. pose proof (lookup_lt_Some _ _ _ Hl).
    unfold len. split; [lia | ]. rewrite <- Hl. f_equal. lia. }
  unfold note_answer in *. destruct (aer_Success reply).
  - destruct (last (ae_Entries args)) as [x|] eqn:Ex.
    + replace (0 <? len (ae_Entries args)) with true.
      2:{ symmetry. apply Z.ltb_lt. unfold len. by destruct (ae_Entries args). }
      rewrite (Hlast _ _ Ex), bind_Ok, (Hn _ _ (wf_next_len _ Hwf)), bind_Ok,
        (Hn _ _ (wf_match_len _ Hwf)), !bind_Ok, He. done.
    + apply last_None in Ex. rewrite Ex. simpl. rewrite He. done.
  - rewrite (Hn _ _ (wf_next_len _ Hwf)), !bind_Ok, He. done.
Qed.
End answers.

Lemma fill_nextIdx_spec n l v :
  (n <= length l)%nat -> fill_nextIdx n l v = Ok (replicate n v ++ drop n l).
Proof.
  induction n as [|n IH]; intros Hn; [done | ]. cbn [fill_nextIdx]. rewrite IH, bind_Ok by lia.
  apply set_index_Ok. unfold len. rewrite length_app, length_replicate, length_drop. split; [lia | ].
  rewrite Nat2Z.id, insert_app_r_alt by (rewrite length_replicate; lia).
  rewrite length_replicate, Nat.sub_diag, replicate_S_end, <- app_assoc. f_equal.
  destruct (drop n l) as [|x k] eqn:E.
  - apply (f_equal length) in E. rewrite length_drop in E. simpl in E. lia.
  - simpl. f_equal. apply (f_equal (drop 1)) in E. rewrite drop_drop in E. simpl in E.
    by rewrite Nat.add_1_r, drop_0 in E.
Qed.

Lemma fill_nextIdx_full p l v :
  len l = p -> fill_nextIdx (Z.to_nat p) l v = Ok (replicate (Z.to_nat p) v).
Proof.
  unfold len. intros <-. rewrite Nat2Z.id, fill_nextIdx_spec by lia. by rewrite drop_all, app_nil_r.
Qed.

(** ** The two halves of a replication round *)
Section round.
Context {Cmd : Type} `{GoRuntime Cmd}.
Implicit Types (rf : Raft Cmd) (args : AppendEntriesArgs Cmd).

Lemma advance_commit_total rf :
  raft_wf rf ->
  exists rf', advance_commit (Z.to_nat (len (log rf) - 1 - commitIdx rf)) 0 rf = Ok rf' /\
    (rf' = rf \/ exists i e, rf' = commit_to i rf /\ commitIdx rf < i < len (log rf) /\
       log rf !! Z.to_nat i = Some e /\ le_Term e = currentTerm rf /\ peers rf < 2 * replicas rf i).
Proof.
  intros Hwf. destruct (decide (commitIdx rf < len (log rf))) as [Hlt | Hge].
  - destruct (advance_commit_spec (Z.to_nat (len (log rf) - 1 - commitIdx rf)) rf)
      as (rf' & -> & Hrf'); [done | lia | ].
    exists rf'. split; [done | ]. destruct Hrf' as [-> | (i & e & ? & ? & ?)]; [by left | ].
    right. exists i, e. split; [done | ]. split; [lia | done].
  - replace (Z.to_nat (len (log rf) - 1 - commitIdx rf)) with O by lia. exists rf. split; [done | by left].
Qed.

(** The peer as [AppendEntries] leaves it before looking at its log. *)
Definition met_leader rf args : Raft Cmd :=
  set_cHeartbeat (cHeartbeat (step_down (ae_Term args) rf) + 1) (step_down (ae_Term args) rf).

Lemma AppendEntries_current rf args reply0 :
  raft_wf rf -> currentTerm rf <= ae_Term args -> cHeartbeat rf < chan_cap ->
  AppendEntries rf args reply0 = append_current (met_leader rf args) args reply0 (len (log rf) - 1) 0 /\
  raft_wf (met_leader rf args) /\ log (met_leader rf args) = log rf /\
  currentTerm (met_leader rf args) = ae_Term args /\ commitIdx (met_leader rf args) = commitIdx rf /\
  cHeartbeat (met_leader rf args) = cHeartbeat rf + 1 /\ persister (met_leader rf args) = persister rf.
Proof.
  intros Hwf Hterm Hhb. pose proof (wf_log _ Hwf) as Hl.
  destruct (last_entry_wf _ Hl) as (lst & Hlst & _ & Hidx). split_and!.
  - unfold AppendEntries. rewrite Hlst, (base_wf _ Hl). simpl. rewrite Hidx.
    replace (ae_Term args <? currentTerm rf) with false by (symmetry; by apply Z.ltb_ge).
    by rewrite notify_heartbeat_Ok by by rewrite step_down_heartbeat.
  - by apply set_heartbeat_wf, step_down_wf.
  - apply step_down_log.
  - simpl. rewrite step_down_term. lia.
  - apply step_down_commit.
  - simpl. by rewrite step_down_heartbeat.
  - simpl. unfold step_down. by branch.
Qed.

Lemma met_leader_role rf args :
  votedFor (met_leader rf args) = (if currentTerm rf <? ae_Term args then -1 else votedFor rf) /\
  state (met_leader rf args) = (if currentTerm rf <? ae_Term args then FOLLOWER else state rf).
Proof. unfold met_leader. simpl. unfold step_down. by branch. Qed.

(** What a leader sends to a peer whose [nextIdx] is in range. *)
Lemma heartbeat_args_spec rf i next :
  raft_wf rf -> state rf = LEADER -> i <> me rf -> 1 <= currentTerm rf ->
  index (nextIdx rf) i = Ok next -> 1 <= next <= len (log rf) ->
  exists args sl, heartbeat_args rf 0 i = Ok (Some (args, sl)) /\ append_wf args /\
    ae_Term args = currentTerm rf /\ ae_LeaderId args = me rf /\ ae_PrevLogIdx args = next - 1 /\
    log_matches (log rf) (next - 1) (ae_PrevLogTerm args) = true /\
    ae_Entries args = drop (Z.to_nat next) (log rf) /\ ae_LeaderCommit args = commitIdx rf.
Proof.
  intros Hwf Hst Hi Hterm Hn Hr. pose proof (wf_log _ Hwf) as Hl. unfold heartbeat_args.
  rewrite bool_decide_eq_true_2 by done. replace (i =? me rf) with false by (symmetry; by apply Z.eqb_neq).
  rewrite Hn. simpl. replace (next <=? 0) with false by (symmetry; apply Z.leb_gt; lia).
  replace (0 <=? next - 1) with true by (symmetry; apply Z.leb_le; lia). rewrite !Z.sub_0_r.
  destruct (index_total (log rf) (next - 1)) as [e He]; [lia | ].
  destruct (last_entry_wf _ Hl) as (lst & Hlst & _ & Hidx).
  rewrite He, Hlst, !bind_Ok, Hidx. apply index_Ok in He as [_ He].
  assert (Hes : exists sl, (if next <=? len (log rf) - 1
      then es ← slice_from (log rf) next; Ok (es, slice_log rf (Z.to_nat next)) else Ok ([], nil_slice))
    = Ok (drop (Z.to_nat next) (log rf), sl)).
  { branch.
    - eexists. replace (slice_from (log rf) next) with (Ok (drop (Z.to_nat next) (log rf))); [done | ].
      symmetry. apply slice_from_Ok. split; [lia | done].
    - eexists. by rewrite drop_ge by (unfold len in *; lia). }
  destruct Hes as [sl ->]. simpl. do 2 eexists. split; [reflexivity | ]. split; [ | simpl; split_and!; try done].
  - split; simpl; try lia.
    + intros H0. replace (Z.to_nat (next - 1)) with O in He by lia. rewrite (lw_base _ Hl) in He.
      by simplify_eq/=.
    + intros k x Hk. rewrite lookup_drop in Hk. rewrite (lw_index _ Hl _ _ Hk). lia.
    + intros k x Hk. rewrite lookup_drop in Hk. replace (Z.to_nat next + k)%nat with (S (Z.to_nat (next - 1) + k)) in Hk by lia.
      by apply (lw_term _ Hl) in Hk.
  - unfold log_matches. rewrite He. apply Z.eqb_refl.
Qed.
End round.
