(* ===== verification/RaftCluster.v ===== *)
(** * A Raft cluster: [lab3/raft/raft.go] over an asynchronous network

    Peers run concurrently, but every access to a peer's state is under its
    [rf.mu], so an execution is a sequence of critical sections: the functions
    of [RaftServer], interleaved with the delivery of messages.  A goroutine
    between two critical sections, and a message in flight, is a packet.

    The goroutines of one peer share its memory.  [broadcastHeartbeat] hands each
    [sendAppendEntries] a slice of the log, which it copies when it gets the lock;
    until then the array behind the slice can change.

    The network ([labrpc]) delivers each request and each reply at most once,
    in any order, and may lose either; [Call] then returns false. *)
From S2P Require Import Prelude Persister RaftServer RaftServerFacts.

Local Open Scope Z_scope.

Section cluster.
Context {Cmd : Type} `{GoRuntime Cmd}.

Inductive packet :=
  | VoteGo (i : nat) (t : Z)   (* i's election goroutine, started in term t *)
  | VoteRequest (i j : nat) (args : RequestVoteArgs)
  | VoteReply (i j : nat) (args : RequestVoteArgs) (reply : RequestVoteReply)
  | BroadcastGo (i : nat)   (* go rf.broadcastHeartbeat() *)
  (* go rf.sendAppendEntries(...): [entries] is the slice [arg.Entries]; what it
     showed when it was cut, [ae_Entries arg], is never looked at again *)
  | AppendGo (i j : nat) (arg : AppendEntriesArgs Cmd) (entries : slice)
  | AppendRequest (i j : nat) (args : AppendEntriesArgs Cmd)
  | AppendReply (i j : nat) (args : AppendEntriesArgs Cmd) (reply : AppendEntriesResults).

Record cluster := Cluster {
  nodes : list (Raft Cmd);
  tickers : list ticker_pc;
  net : list packet
}.

Inductive action :=
  | Tick (i : nat) (ev : tick_event)
  | Deliver (k : nat)   (* run packet k *)
  | Drop (k : nat)   (* lose packet k: Call returns false *)
  | ClientStart (i : nat) (command : option Cmd)
  | Apply (i : nat)   (* run one of i's apply goroutines *)
  | Restart (i : nat).   (* crash, and Make from the persister *)

Definition node (s : cluster) (i : nat) : outcome (Raft Cmd) := index (nodes s) (Z.of_nat i).
Definition set_node (i : nat) (rf : Raft Cmd) (s : cluster) : cluster :=
  Cluster (<[i := rf]> (nodes s)) (tickers s) (net s).
Definition set_ticker (i : nat) (pc : ticker_pc) (s : cluster) : cluster :=
  Cluster (nodes s) (<[i := pc]> (tickers s)) (net s).
Definition set_net (ps : list packet) (s : cluster) : cluster := Cluster (nodes s) (tickers s) ps.
Definition send (ps : list packet) (s : cluster) : cluster := set_net (net s ++ ps) s.

(** One [go sendRequestVote] per other peer. *)
Definition vote_requests (n i : nat) (args : RequestVoteArgs) : list packet :=
  map (fun j => VoteRequest i j args) (filter (fun j => j <> i) (seq 0 n)).

(** The packets that follow from a ticker step. *)
Definition spawned (i : nat) (t : Z) (g : spawn) : list packet :=
  match g with SpawnNothing => [] | SpawnElection => [VoteGo i t] | SpawnBroadcast => [BroadcastGo i] end.

(** Run one packet, already removed from the network. *)
Definition run_packet (p : packet) (s : cluster) : outcome cluster :=
  match p with
  | VoteGo i _ =>
      rf ← node s i; args ← vote_args rf;
      Ok (send (vote_requests (length (nodes s)) i args) s)
  | VoteRequest i j args =>
      rf ← node s j;
      '(rf, reply) ← RequestVote rf args (MkRequestVoteReply 0 false);
      Ok (send [VoteReply i j args reply] (set_node j rf s))
  | VoteReply i j args reply =>
      rf ← node s i; rf ← sendRequestVote rf args true reply; Ok (set_node i rf s)
  | BroadcastGo i =>
      rf ← node s i; sent ← broadcastHeartbeat rf;
      Ok (send (map (fun a => AppendGo i (Z.to_nat a.1) a.2.1 a.2.2) sent) s)
  | AppendGo i j arg entries => rf ← node s i; Ok (send [AppendRequest i j (copy_args rf arg entries)] s)
  | AppendRequest i j args =>
      rf ← node s j;
      '(rf, reply) ← AppendEntries rf args (MkAppendEntriesResults 0 false 0);
      Ok (send [AppendReply i j args reply] (set_node j rf s))
  | AppendReply i j args reply =>
      rf ← node s i; rf ← sendAppendEntries rf (Z.of_nat j) args true reply; Ok (set_node i rf s)
  end.

(** A lost request or reply: the caller sees [ok = false]. *)
Definition drop_packet (p : packet) (s : cluster) : outcome cluster :=
  match p with
  | VoteRequest i j args | VoteReply i j args _ =>
      rf ← node s i; rf ← sendRequestVote rf args false (MkRequestVoteReply 0 false); Ok (set_node i rf s)
  | AppendRequest i j args | AppendReply i j args _ =>
      rf ← node s i;
      rf ← sendAppendEntries rf (Z.of_nat j) args false (MkAppendEntriesResults 0 false 0); Ok (set_node i rf s)
  | _ => Block
  end.

(** The peer whose goroutine a packet belongs to. *)
Definition owner (p : packet) : nat :=
  match p with
  | VoteGo i _ | BroadcastGo i | AppendGo i _ _ _
  | VoteRequest i _ _ | VoteReply i _ _ _ | AppendRequest i _ _ | AppendReply i _ _ _ => i
  end.

Definition do_action (a : action) (s : cluster) : outcome cluster :=
  match a with
  | Tick i ev =>
      rf ← node s i; pc ← index (tickers s) (Z.of_nat i);
      '(rf, pc, g) ← ticker rf pc ev;
      Ok (send (spawned i (currentTerm rf) g) (set_ticker i pc (set_node i rf s)))
  | Deliver k => match net s !! k with Some p => run_packet p (set_net (delete k (net s)) s) | None => Block end
  | Drop k => match net s !! k with Some p => drop_packet p (set_net (delete k (net s)) s) | None => Block end
  | ClientStart i command => rf ← node s i; '(rf, _) ← Start rf command; Ok (set_node i rf s)
  | Apply i =>
      rf ← node s i;
      match appliers rf with
      | O => Block
      | S n => rf ← applyCommitted rf; Ok (set_node i (set_appliers n rf) s)
      end
  | Restart i =>
      rf ← node s i;
      (* the goroutines and calls of the crashed instance are gone *)
      let s := set_net (filter (fun p => owner p <> i) (net s)) s in
      Ok (set_ticker i TickTop (set_node i (Make (length (nodes s)) (Z.of_nat i) (Copy (persister rf))) s))
  end.

Definition boot (n : nat) : cluster :=
  Cluster (map (fun i => Make n (Z.of_nat i) MakePersister) (seq 0 n)) (replicate n TickTop) [].

(** The environment: whether peers restart, whether an election goroutine reads
    its arguments before its peer's term changes again, and whether a goroutine
    that sends entries copies them before its peer's term changes. *)
Record env := MkEnv { env_restarts : bool; env_prompt : bool; env_copies : bool }.

Definition allowed (e : env) (a : action) (s : cluster) : bool :=
  match a with
  | Restart _ => env_restarts e
  | Deliver k =>
      match net s !! k with
      | Some (VoteGo i t) =>
          negb (env_prompt e) || match nodes s !! i with Some rf => currentTerm rf =? t | None => false end
      | Some (AppendGo i _ arg _) =>
          negb (env_copies e) || match nodes s !! i with Some rf => currentTerm rf =? ae_Term arg | None => false end
      | _ => true
      end
  | _ => true
  end.

Definition cluster_system (e : env) (n : nat) : lts cluster :=
  Lts (fun s => s = boot n)
      (fun s s' => exists a, allowed e a s = true /\ do_action a s = Ok s').

(** No restarts and prompt election goroutines; and prompt copies as well. *)
Definition quiet : env := MkEnv false true false.
Definition steady : env := MkEnv false true true.

Lemma steady_allowed a s : allowed steady a s = true -> allowed quiet a s = true.
Proof. destruct a; simpl; try done. by destruct (net s !! k) as [[] | ]. Qed.

Lemma steady_quiet n s s' : rtc (lts_step (cluster_system steady n)) s s' -> rtc (lts_step (cluster_system quiet n)) s s'.
Proof. apply rtc_subrel. intros s1 s2 (a & Ha & Hd). exists a. split; [by apply steady_allowed | done]. Qed.

Lemma steady_reachable n s : reachable (cluster_system steady n) s -> reachable (cluster_system quiet n) s.
Proof. intros (s0 & Hs0 & Hr). exists s0. split; [exact Hs0 | by apply steady_quiet]. Qed.

Definition leads (s : cluster) (i : nat) (t : Z) : Prop :=
  exists rf, nodes s !! i = Some rf /\ state rf = LEADER /\ currentTerm rf = t.

(** Run a schedule, checking that the environment allows each action. *)
Fixpoint run_actions (e : env) (acts : list action) (s : cluster) : outcome cluster :=
  match acts with
  | [] => Ok s
  | a :: acts => if allowed e a s then s ← do_action a s; run_actions e acts s else Block
  end.

Lemma run_actions_rtc e n acts s s' :
  run_actions e acts s = Ok s' -> rtc (lts_step (cluster_system e n)) s s'.
Proof.
  revert s. induction acts as [|a acts IH]; intros s Hr; simpl in *.
  { injection Hr as <-. apply rtc_refl. }
  destruct (allowed e a s) eqn:Ha; [ | done]. apply bind_inv in Hr as (s1 & H1 & Hr).
  apply rtc_l with s1; [by exists a | by apply IH].
Qed.

Lemma run_actions_reachable e n acts s :
  run_actions e acts (boot n) = Ok s -> reachable (cluster_system e n) s.
Proof. intros Hr. exists (boot n). split; [done | by eapply run_actions_rtc]. Qed.
End cluster.
Arguments packet : clear implicits.
Arguments cluster : clear implicits.
Arguments action : clear implicits.
