(* ===== verification/RaftElection.v ===== *)
(** * Election safety of the Raft cluster

    Which of a peer's functions matter to elections, the voting invariant of
    the cluster, and election safety; then the runs that break it when its two
    environment assumptions are dropped. *)
From S2P Require Import Prelude Persister RaftServer RaftServerFacts RaftCluster.

Local Open Scope Z_scope.

(** ** Functions that do not vote *)
Section neutral.
Context {Cmd : Type} `{GoRuntime Cmd}.
Implicit Types rf : Raft Cmd.

(** From [rf] to [rf'] no vote of the current term is withdrawn or changed,
    no vote is counted, and no leader appears. *)
Record vote_neutral rf rf' : Prop := {
  vn_me : me rf' = me rf;
  vn_peers : peers rf' = peers rf;
  vn_votes : numVotesReceived rf' = numVotesReceived rf;
  vn_term : currentTerm rf <= currentTerm rf';
  vn_vote : currentTerm rf' = currentTerm rf -> votedFor rf' = votedFor rf \/ votedFor rf = -1;
  vn_leader : state rf' = LEADER -> state rf = LEADER /\ currentTerm rf' = currentTerm rf
}.

Lemma neutral_refl rf : vote_neutral rf rf.
Proof. split; auto; lia. Qed.

Lemma neutral_trans rf1 rf2 rf3 : vote_neutral rf1 rf2 -> vote_neutral rf2 rf3 -> vote_neutral rf1 rf3.
Proof.
  intros [? ? ? Ht1 Hv1 Hl1] [? ? ? Ht2 Hv2 Hl2]. split; try congruence; try lia.
  intros [Hl Ht]%Hl2. apply Hl1 in Hl as [? ?]. split; [done | lia].
Qed.

(** The fields elections depend on. *)
Lemma neutral_same rf rf' :
  me rf' = me rf -> peers rf' = peers rf -> numVotesReceived rf' = numVotesReceived rf ->
  currentTerm rf' = currentTerm rf -> votedFor rf' = votedFor rf ->
  (state rf' = state rf \/ state rf' <> LEADER) -> vote_neutral rf rf'.
Proof. intros ????? [Hs | Hs]; split; try done; try lia; try (by left). by rewrite Hs. Qed.

Lemma neutral_persist rf : vote_neutral rf (persist rf).
Proof. destruct (persist_set rf) as [ps ->]. apply neutral_same; auto. Qed.

Lemma neutral_step_down t rf : vote_neutral rf (step_down t rf).
Proof. unfold step_down. branch; [ | apply neutral_refl]. split; simpl; try done; lia. Qed.

Lemma neutral_heartbeat rf rf' : notify_heartbeat rf = Ok rf' -> vote_neutral rf rf'.
Proof. unfold notify_heartbeat. branch; intros [=<-]. apply neutral_same; auto. Qed.

Lemma neutral_commit_to c rf : vote_neutral rf (commit_to c rf).
Proof. apply neutral_same; auto. Qed.

Lemma neutral_append_current rf args reply0 last base rf' reply :
  append_current rf args reply0 last base = Ok (rf', reply) -> vote_neutral rf rf'.
Proof.
  unfold append_current. intros E. branch; [simplify_eq; apply neutral_refl | ].
  inv_bind. destruct x as [term|].
  - inv_bind. destruct x; simplify_eq; [apply neutral_refl | apply neutral_persist].
  - branch; [ | simplify_eq; apply neutral_persist]. inv_bind.
    assert (Hl : vote_neutral rf (append_log (ae_Entries args) (cut_log x rf))) by (apply neutral_same; auto).
    branch; inv_bind; simplify_eq.
    + eapply neutral_trans; [exact Hl | ]. eapply neutral_trans; [ | apply neutral_persist]. apply neutral_commit_to.
    + eapply neutral_trans; [exact Hl | ]. apply neutral_persist.
Qed.

Lemma neutral_AppendEntries rf args reply0 rf' reply :
  AppendEntries rf args reply0 = Ok (rf', reply) -> vote_neutral rf rf'.
Proof.
  unfold AppendEntries. intros E. inv_bind. branch; [simplify_eq; apply neutral_refl | ]. inv_bind.
  eapply neutral_trans; [apply neutral_step_down | ].
  eapply neutral_trans; [by eapply neutral_heartbeat | by eapply neutral_append_current].
Qed.

Lemma neutral_advance_commit k base rf rf' : advance_commit k base rf = Ok rf' -> vote_neutral rf rf'.
Proof.
  induction k as [|k IH]; simpl; intros E; [simplify_eq; apply neutral_refl | ]. inv_bind.
  branch; [ | simplify_eq; apply neutral_refl]. inv_bind.
  branch; [simplify_eq; apply neutral_commit_to | auto].
Qed.

Lemma neutral_sendAppendEntries rf server args ok reply rf' :
  sendAppendEntries rf server args ok reply = Ok rf' -> vote_neutral rf rf'.
Proof.
  unfold sendAppendEntries. intros E. inv_bind.
  destruct (_ || _) eqn:E1; [simplify_eq; apply neutral_refl | ]. branch.
  - simplify_eq. eapply neutral_trans; [ | apply neutral_persist]. split; simpl; try done; lia.
  - inv_bind. eapply neutral_trans; [ | by eapply neutral_advance_commit].
    repeat branch; inv_bind; simplify_eq; apply neutral_same; auto.
Qed.

Lemma neutral_Start rf command rf' res : Start rf command = Ok (rf', res) -> vote_neutral rf rf'.
Proof.
  unfold Start. intros E. branch; inv_bind; [ | simplify_eq; apply neutral_refl]. simplify_eq.
  eapply neutral_trans; [ | apply neutral_persist]. apply neutral_same; auto.
Qed.

Lemma neutral_applyCommitted n rf rf' : applyCommitted rf = Ok rf' -> vote_neutral rf (set_appliers n rf').
Proof. unfold applyCommitted. intros E. inv_bind. apply neutral_same; auto. Qed.

(** The ticker, except where it starts an election. *)
Lemma neutral_ticker rf pc ev rf' pc' g :
  ticker rf pc ev = Ok (rf', pc', g) ->
  vote_neutral rf rf' /\ g <> SpawnElection \/
  state rf = CANDIDATE /\ rf' = start_election rf /\ g = SpawnElection.
Proof.
  assert (Hf : forall n, vote_neutral rf (set_state FOLLOWER (set_cHeartbeat n rf)))
    by (intros n; apply neutral_same; auto).
  unfold ticker. intros E. destruct pc.
  - destruct (killed rf); [ | destruct (state rf) eqn:Es]; simplify_eq;
      [left; split; [apply neutral_refl | done].. | by right | left; split; [apply neutral_refl | done]].
  - left. destruct ev; [ | branch | ]; simplify_eq; split; try done.
    + eapply neutral_trans; [ | apply neutral_persist]. apply neutral_same; auto.
    + apply neutral_same; auto.
  - left. destruct ev; [ | branch | branch]; simplify_eq; split; try done; apply neutral_same; auto.
  - left. destruct ev; simplify_eq. split; [apply neutral_persist | done].
  - done.
Qed.

(** Granting a vote and counting one. *)
Lemma RequestVote_vote rf args reply0 rf' reply :
  RequestVote rf args reply0 = Ok (rf', reply) ->
  vote_neutral rf rf' /\
  (rvr_VoteGranted reply = true -> votedFor rf' = rv_IDcand args /\ currentTerm rf' = rv_Term args).
Proof.
  unfold RequestVote. intros E. branch; [simplify_eq; split; [apply neutral_refl | done] | ].
  inv_bind. branch; inv_bind; simplify_eq; (split; [ | try done]).
  - zbool. eapply neutral_trans; [apply (neutral_step_down (rv_Term args)) | ].
    eapply neutral_trans; [ | by eapply neutral_heartbeat].
    split; simpl; try done. intros _.
    match goal with Hf : (votedFor _ =? -1) = true \/ _ |- _ => destruct Hf; zbool; [by right | left; simpl; congruence] end.
  - unfold notify_heartbeat in *. branch; simplify_eq/=. split; [done | ]. rewrite step_down_term. lia.
  - apply neutral_step_down.
Qed.

Lemma sendRequestVote_vote rf args reply rf' :
  sendRequestVote rf args true reply = Ok rf' ->
  vote_neutral rf rf' \/
  rvr_VoteGranted reply = true /\ currentTerm rf = rv_Term args /\
  me rf' = me rf /\ peers rf' = peers rf /\ currentTerm rf' = currentTerm rf /\ votedFor rf' = votedFor rf /\
  numVotesReceived rf' = numVotesReceived rf + 1 /\ (state rf' = LEADER -> Z.quot (peers rf) 2 < numVotesReceived rf').
Proof.
  unfold sendRequestVote. simpl. intros E. destruct (_ || _) eqn:E1; [simplify_eq; left; apply neutral_refl | ]. zbool.
  branch; [simplify_eq; left; split; simpl; try done; lia | ].
  branch; [ | simplify_eq; left; apply neutral_refl]. right. split; [done | ]. split; [done | ].
  destruct (persist_set (set_numVotesReceived (numVotesReceived rf + 1) rf)) as [ps Eps].
  branch; inv_bind; simplify_eq/=.
  - rewrite Eps in *. unfold notify_win in *. branch; simplify_eq/=. split_and!; try done.
  - split_and!; try done. intros Hl. exfalso. destruct (state rf); naive_solver.
Qed.
End neutral.

(** ** The voting invariant *)

(** [(voter, term, candidate)]. *)
Definition vote : Type := nat * Z * nat.

Section invariant.
Context {Cmd : Type} `{GoRuntime Cmd} (n : nat).
Implicit Types (rf : Raft Cmd) (s : cluster Cmd) (p : packet Cmd) (V : list vote) (e : nat -> Z) (W : nat -> list nat).

(** [p] may still turn into a vote of [j] for [i] in term [t]. *)
Definition outstanding (i j : nat) (t : Z) p : bool :=
  match p with
  | VoteGo i' t' => bool_decide (i' = i) && (t' =? t)
  | VoteRequest i' j' args | VoteReply i' j' args _ =>
      bool_decide (i' = i) && bool_decide (j' = j) && (rv_Term args =? t)
  | _ => false
  end.
Definition owing (i j : nat) (t : Z) (ps : list (packet Cmd)) : nat := length (List.filter (outstanding i j t) ps).

(** [e i] is the last term in which [i] started an election, [W i] the peers
    whose vote it has counted in it, [V] all votes ever cast. *)
Definition packet_ok V e p : Prop :=
  match p with
  | VoteGo i t => (i < n)%nat /\ t <= e i
  | VoteRequest i j args =>
      (i < n)%nat /\ (j < n)%nat /\ i <> j /\ rv_IDcand args = Z.of_nat i /\ rv_Term args <= e i
  | VoteReply i j args reply =>
      (i < n)%nat /\ (j < n)%nat /\ i <> j /\ rv_Term args <= e i /\
      (rvr_VoteGranted reply = true -> (j, rv_Term args, i) ∈ V)
  | _ => True
  end.

Record node_ok V e W (ps : list (packet Cmd)) (i : nat) rf : Prop := {
  no_me : me rf = Z.of_nat i;
  no_peers : peers rf = Z.of_nat n;
  no_elect : e i <= currentTerm rf;
  no_nodup : NoDup (W i);
  no_count : numVotesReceived rf = len (W i);
  no_counted : forall v, v ∈ W i -> (v, e i, i) ∈ V;
  no_leader : state rf = LEADER -> e i = currentTerm rf /\ (n < 2 * length (W i))%nat;
  no_owing : forall j, j <> i -> (owing i j (e i) ps + (if decide (j ∈ W i) then 1 else 0) <= 1)%nat;
  no_vote : forall t c, (i, t, c) ∈ V -> t <= currentTerm rf /\ (t = currentTerm rf -> votedFor rf = Z.of_nat c)
}.

Record Inv V e W s : Prop := {
  inv_len : length (nodes s) = n;
  inv_once : forall v t c c', (v, t, c) ∈ V -> (v, t, c') ∈ V -> c = c';
  inv_bound : forall v t c, (v, t, c) ∈ V -> (v < n)%nat;
  inv_node : forall i rf, nodes s !! i = Some rf -> node_ok V e W (net s) i rf;
  inv_net : Forall (packet_ok V e) (net s)
}.

Lemma packet_ok_mono V V' e e' p :
  (forall x, x ∈ V -> x ∈ V') -> (forall i, e i <= e' i) -> packet_ok V e p -> packet_ok V' e' p.
Proof.
  intros HV He. destruct p; simpl; try done.
  - specialize (He i). lia.
  - specialize (He i). naive_solver lia.
  - specialize (He i). naive_solver lia.
Qed.

Lemma owing_app i j t ps qs : owing i j t (ps ++ qs) = (owing i j t ps + owing i j t qs)%nat.
Proof. unfold owing. by rewrite List.filter_app, length_app. Qed.

Lemma owing_cons i j t p ps : owing i j t (p :: ps) = ((if outstanding i j t p then 1 else 0) + owing i j t ps)%nat.
Proof. unfold owing. simpl. by destruct (outstanding i j t p). Qed.

Lemma owing_delete i j t k p ps :
  ps !! k = Some p -> owing i j t ps = ((if outstanding i j t p then 1 else 0) + owing i j t (delete k ps))%nat.
Proof.
  intros Hk. rewrite delete_take_drop. rewrite <- (take_drop_middle _ _ _ Hk) at 1.
  rewrite !owing_app, owing_cons. lia.
Qed.

(** Packets that carry no vote owe none. *)
Lemma owing_none i j t ps : Forall (fun p => outstanding i j t p = false) ps -> owing i j t ps = 0%nat.
Proof. induction 1 as [|p ps Hp Hps IH]; [done | ]. by rewrite owing_cons, Hp, IH. Qed.

(** A step of peer [i] that does not vote, except that it may record its own
    vote of its new term. *)
Lemma Inv_neutral V V' e W s i rf rf' pcs ps :
  Inv V e W s -> nodes s !! i = Some rf -> vote_neutral rf rf' ->
  (forall x, x ∈ V -> x ∈ V') ->
  (forall x, x ∈ V' -> x ∈ V \/ exists c, x = (i, currentTerm rf', c) /\ votedFor rf' = Z.of_nat c) ->
  Forall (packet_ok V' e) ps ->
  (forall k j t, (owing k j t ps <= owing k j t (net s))%nat) ->
  Inv V' e W (Cluster (<[i := rf']> (nodes s)) pcs ps).
Proof.
  intros [Hlen Honce Hbound Hnode Hnet] Hi Hn HV HV' Hps How.
  pose proof (Hnode _ _ Hi) as Hi0.
  assert (Hold : forall t c, (i, t, c) ∈ V -> t <= currentTerm rf' /\ (t = currentTerm rf' -> votedFor rf' = Z.of_nat c)).
  { intros t c Hx. destruct (no_vote _ _ _ _ _ _ Hi0 _ _ Hx) as [Ht Hc]. pose proof (vn_term _ _ Hn).
    split; [lia | ]. intros ->. assert (Heq : currentTerm rf' = currentTerm rf) by lia. specialize (Hc Heq).
    destruct (vn_vote _ _ Hn Heq); [congruence | lia]. }
  split; simpl.
  - by rewrite length_insert.
  - intros v t c c' [H1 | (d & E1 & Hd)]%HV' [H2 | (d' & E2 & Hd')]%HV'; simplify_eq; [by eapply Honce | | | lia].
    + apply Hold in H1 as [_ H1]. specialize (H1 eq_refl). lia.
    + apply Hold in H2 as [_ H2]. specialize (H2 eq_refl). lia.
  - intros v t c [H1 | (d & E1 & Hd)]%HV'; [by eapply Hbound | ]. simplify_eq.
    rewrite <- Hlen. by eapply lookup_lt_Some.
  - intros k r Hk. destruct (decide (k = i)) as [-> | Hne].
    + rewrite list_lookup_insert_eq in Hk by by eapply lookup_lt_Some. simplify_eq.
      destruct Hi0, Hn. split; try congruence; try done; try lia.
      * intros v Hv. auto.
      * intros [Hl Ht]%vn_leader0. rewrite Ht. auto.
      * intros j Hj. specialize (How i j (e i)). specialize (no_owing0 j Hj). lia.
      * intros t c [H1 | (d & E1 & Hd)]%HV'; [auto | ]. by simplify_eq.
    + rewrite list_lookup_insert_ne in Hk by done. destruct (Hnode _ _ Hk). split; try done.
      * intros v Hv. auto.
      * intros j Hj. specialize (How k j (e k)). specialize (no_owing0 j Hj). lia.
      * intros t c [H1 | (d & E1 & Hd)]%HV'; [auto | ]. by simplify_eq.
  - done.
Qed.

(** Counting the vote of [j] for [i]. *)
Lemma Inv_count V e W s i j rf rf' pcs ps :
  Inv V e W s -> nodes s !! i = Some rf -> i <> j -> e i = currentTerm rf -> (j, currentTerm rf, i) ∈ V ->
  me rf' = me rf -> peers rf' = peers rf -> currentTerm rf' = currentTerm rf -> votedFor rf' = votedFor rf ->
  numVotesReceived rf' = numVotesReceived rf + 1 ->
  (state rf' = LEADER -> Z.quot (peers rf) 2 < numVotesReceived rf') ->
  Forall (packet_ok V e) ps ->
  (forall k j' t, (owing k j' t ps <= owing k j' t (net s))%nat) ->
  (owing i j (e i) ps < owing i j (e i) (net s))%nat ->
  Inv V e (fun k => if decide (k = i) then j :: W i else W k) (Cluster (<[i := rf']> (nodes s)) pcs ps).
Proof.
  intros [Hlen Honce Hbound Hnode Hnet] Hi Hij He Hv Hme Hp Ht Hvf Hc Hl Hps How Hlt.
  split; simpl; [by rewrite length_insert | done | done | | done].
  intros k r Hk. destruct (decide (k = i)) as [-> | Hne].
  - rewrite list_lookup_insert_eq in Hk by by eapply lookup_lt_Some. simplify_eq.
    destruct (Hnode _ _ Hi). pose proof (no_owing0 j ltac:(done)) as Hj.
    assert (Hnin : j ∉ W i) by (destruct (decide (j ∈ W i)); [lia | done]).
    split; rewrite ?decide_True by done; try congruence; try lia.
    + by constructor.
    + rewrite Hc, no_count0. unfold len. simpl. lia.
    + intros v [-> | Hv']%elem_of_cons; [congruence | auto].
    + intros Hlead. split; [congruence | ]. specialize (Hl Hlead). rewrite Hc, no_peers0, no_count0 in Hl.
      unfold len in Hl. simpl. rewrite Z.quot_div_nonneg in Hl by lia.
      pose proof (Z.div_mod (Z.of_nat n) 2). pose proof (Z.mod_pos_bound (Z.of_nat n) 2). lia.
    + intros j' Hj'. specialize (How i j' (e i)). specialize (no_owing0 j' Hj').
      destruct (decide (j' = j)) as [-> | Hjj].
      * rewrite decide_True by by constructor. rewrite decide_False in Hj by done. lia.
      * destruct (decide (j' ∈ W i)) as [Hin | Hnin'].
        -- rewrite decide_True by by constructor. lia.
        -- rewrite decide_False; [lia | ]. by intros [-> | ?]%elem_of_cons.
    + intros t c Hx. rewrite Ht, Hvf. auto.
  - rewrite list_lookup_insert_ne in Hk by done. destruct (Hnode _ _ Hk).
    split; rewrite ?decide_False by done; try done.
    intros j' Hj'. specialize (How k j' (e k)). specialize (no_owing0 j' Hj'). lia.
Qed.

Definition upd {A} (i : nat) (a : A) (f : nat -> A) : nat -> A := fun k => if decide (k = i) then a else f k.
Lemma upd_eq {A} i (a : A) f : upd i a f i = a.
Proof. unfold upd. by rewrite decide_True. Qed.
Lemma upd_ne {A} i k (a : A) f : k <> i -> upd i a f k = f k.
Proof. intros Hne. unfold upd. by rewrite decide_False. Qed.

(** No packet of [i] is of a term above the last it started an election in. *)
Lemma owing_above V e ps i j t : Forall (packet_ok V e) ps -> e i < t -> owing i j t ps = 0%nat.
Proof.
  intros Hps Ht. apply owing_none. eapply Forall_impl; [exact Hps | ].
  intros p Hp. destruct p; simpl in *; try done.
  - destruct (bool_decide (i0 = i)) eqn:E; simpl; [ | done]. zbool. subst. apply Z.eqb_neq. lia.
  - destruct (bool_decide (i0 = i)) eqn:E; simpl; [ | done]. zbool. subst. apply andb_false_iff. right. apply Z.eqb_neq. lia.
  - destruct (bool_decide (i0 = i)) eqn:E; simpl; [ | done]. zbool. subst. apply andb_false_iff. right. apply Z.eqb_neq. lia.
Qed.

(** Starting an election. *)
Lemma Inv_start V e W s i rf pcs :
  Inv V e W s -> nodes s !! i = Some rf -> state rf = CANDIDATE ->
  Inv ((i, currentTerm rf + 1, i) :: V) (upd i (currentTerm rf + 1) e) (upd i [i] W)
    (Cluster (<[i := start_election rf]> (nodes s)) pcs (net s ++ [VoteGo i (currentTerm rf + 1)])).
Proof.
  intros [Hlen Honce Hbound Hnode Hnet] Hi Hs. pose proof (Hnode _ _ Hi) as Hi0.
  assert (Hnew : forall t c, (i, t, c) ∈ V -> t <= currentTerm rf) by (intros t c Hx; by apply (no_vote _ _ _ _ _ _ Hi0) in Hx as [? _]).
  pose proof (no_elect _ _ _ _ _ _ Hi0) as Hle.
  unfold start_election.
  destruct (persist_set (set_numVotesReceived 1 (set_votedFor (me rf) (set_currentTerm (currentTerm rf + 1) rf)))) as [q ->].
  split; simpl.
  - by rewrite length_insert.
  - intros v t c c' [E1 | H1]%elem_of_cons [E2 | H2]%elem_of_cons; simplify_eq; [done | | | by eapply Honce].
    + apply Hnew in H2. lia.
    + apply Hnew in H1. lia.
  - intros v t c [E1 | H1]%elem_of_cons; [ | by eapply Hbound]. simplify_eq. rewrite <- Hlen. by eapply lookup_lt_Some.
  - intros k r Hk. destruct (decide (k = i)) as [-> | Hne].
    + rewrite list_lookup_insert_eq in Hk by by eapply lookup_lt_Some. simplify_eq.
      destruct Hi0. split; rewrite ?upd_eq; simpl; try done; try lia.
      * apply NoDup_singleton.
      * intros v ->%list_elem_of_singleton. by constructor.
      * by rewrite Hs.
      * intros j Hj. rewrite owing_app, (owing_above V e) by (done || lia). rewrite owing_cons.
        rewrite decide_False by by intros ->%list_elem_of_singleton. change (owing i j (currentTerm rf + 1) []) with 0%nat. by destruct (outstanding _ _ _ _); simpl; lia.
      * intros t c [E1 | H1]%elem_of_cons; [by simplify_eq | ]. apply Hnew in H1. split; lia.
    + rewrite list_lookup_insert_ne in Hk by done. destruct (Hnode _ _ Hk).
      split; rewrite ?upd_ne by done; try done.
      * intros v Hv. constructor. auto.
      * intros j Hj. specialize (no_owing0 j Hj). rewrite owing_app, owing_cons. simpl.
        rewrite bool_decide_eq_false_2 by done. change (owing k j (e k) []) with 0%nat. simpl. lia.
      * intros t c [E1 | H1]%elem_of_cons; [by simplify_eq | auto].
  - apply Forall_app. split.
    + eapply Forall_impl; [exact Hnet | ]. intros p. apply packet_ok_mono; [by constructor | ].
      intros k. destruct (decide (k = i)) as [-> | Hne]; [rewrite upd_eq; lia | by rewrite upd_ne].
    + repeat constructor; rewrite ?upd_eq; [rewrite <- Hlen; by eapply lookup_lt_Some | lia].
Qed.

Lemma owing_requests m i args k j t :
  (owing k j t (vote_requests m i args) <= if bool_decide (k = i) && (rv_Term args =? t)%Z then 1 else 0)%nat.
Proof.
  unfold vote_requests. destruct (decide (k = i /\ rv_Term args = t)) as [[-> <-] | Hne].
  - rewrite bool_decide_eq_true_2, Z.eqb_refl by done. simpl.
    assert (Hnd : NoDup (filter (fun j => j <> i) (seq 0 m))) by apply NoDup_filter, NoDup_seq.
    induction Hnd as [|x l Hx Hl IH]; simpl; [unfold owing; simpl; lia | ]. rewrite owing_cons. simpl.
    rewrite bool_decide_eq_true_2, Z.eqb_refl, andb_true_r by done. simpl.
    destruct (bool_decide (x = j)) eqn:E3; [ | lia]. zbool. subst x.
    rewrite owing_none; [lia | ]. apply Forall_forall. intros p (y & -> & Hy)%list_elem_of_fmap. simpl.
    rewrite bool_decide_eq_true_2, (bool_decide_eq_false_2 (y = j)) by (done || congruence). done.
  - rewrite owing_none; [lia | ]. apply Forall_forall. intros p (y & -> & Hy)%list_elem_of_fmap. simpl.
    destruct (bool_decide (i = k)) eqn:E1; [ | done]. destruct (rv_Term args =? t)%Z eqn:E2; [ | by rewrite andb_false_r].
    zbool. naive_solver.
Qed.

(** A change of the network alone. *)
Lemma Inv_set_net V e W s ps :
  Inv V e W s -> Forall (packet_ok V e) ps ->
  (forall k j t, (owing k j t ps <= owing k j t (net s))%nat) -> Inv V e W (set_net ps s).
Proof.
  intros [Hlen Honce Hbound Hnode Hnet] Hps How. split; simpl; try done.
  intros i rf Hi. destruct (Hnode _ _ Hi). split; try done.
  intros j Hj. specialize (How i j (e i)). specialize (no_owing0 j Hj). lia.
Qed.

(** Some state kept the votes cast so far. *)
Definition preserved V s' : Prop := exists V' e' W', (forall x, x ∈ V -> x ∈ V') /\ Inv V' e' W' s'.

(** The next state does, and its new votes are those its peers have just cast. *)
Definition new_votes V V' s' : Prop :=
  forall v t c, (v, t, c) ∈ V' -> (v, t, c) ∈ V \/
    exists rf', nodes s' !! v = Some rf' /\ currentTerm rf' = t /\ votedFor rf' = Z.of_nat c.
Definition stepped V s' : Prop := exists V' e' W', (forall x, x ∈ V -> x ∈ V') /\ new_votes V V' s' /\ Inv V' e' W' s'.

Lemma node_Ok s i rf : node s i = Ok rf -> nodes s !! i = Some rf.
Proof. unfold node. intros [_ Hi]%index_Ok. by rewrite Nat2Z.id in Hi. Qed.

(** A neutral step of peer [i] that removes a packet and sends packets that
    carry no vote. *)
Lemma preserved_neutral V e W s i rf rf' pcs ps qs :
  Inv V e W s -> nodes s !! i = Some rf -> vote_neutral rf rf' ->
  Forall (packet_ok V e) ps -> (forall k j t, (owing k j t ps <= owing k j t (net s))%nat) ->
  Forall (fun p => forall k j t, packet_ok V e p /\ outstanding k j t p = false) qs ->
  stepped V (Cluster (<[i := rf']> (nodes s)) pcs (ps ++ qs)).
Proof.
  intros HI Hi Hn Hps How Hqs. exists V, e, W. split; [done | ]. split; [by left | ].
  eapply Inv_neutral; try done; [by left | | ].
  - apply Forall_app. split; [done | ]. eapply Forall_impl; [exact Hqs | ]. intros p Hp. by destruct (Hp O O 0).
  - intros k j t. rewrite owing_app, (owing_none _ _ _ qs); [specialize (How k j t); lia | ].
    eapply Forall_impl; [exact Hqs | ]. intros p Hp. by destruct (Hp k j t).
Qed.

Lemma preserved_packet V e W s k p s' :
  Inv V e W s -> net s !! k = Some p -> allowed quiet (Deliver k) s = true ->
  run_packet p (set_net (delete k (net s)) s) = Ok s' -> stepped V s'.
Proof.
  intros HI Hk Ha Hr. pose proof (inv_net _ _ _ _ HI) as Hnet.
  assert (Hp : packet_ok V e p) by (eapply Forall_lookup_1; done).
  set (ps := delete k (net s)) in *.
  assert (Hps : Forall (packet_ok V e) ps) by by apply Forall_delete.
  assert (How : forall k' j t, (owing k' j t (net s) = (if outstanding k' j t p then 1 else 0) + owing k' j t ps)%nat)
    by (intros; by apply owing_delete).
  assert (Hle : forall k' j t, (owing k' j t ps <= owing k' j t (net s))%nat) by (intros; rewrite How; lia).
  destruct p as [i t | i j args | i j args reply | i | i j args | i j args | i j args reply]; simpl in *.
  - (* VoteGo: the requests replace it *)
    inv_bind.
    apply node_Ok in H0. simpl in H0. rewrite Hk, H0 in Ha. zbool. unfold vote_args in H1. inv_bind.
    pose proof (inv_node _ _ _ _ HI _ _ H0) as Hi0. pose proof (no_elect _ _ _ _ _ _ Hi0).
    exists V, e, W. split; [done | ]. split; [by left | ]. apply (Inv_set_net V e W s (ps ++ _)); [exact HI | | ].
    + apply Forall_app. split; [done | ]. apply Forall_forall.
      intros p (y & -> & [Hy Hseq]%list_elem_of_filter)%list_elem_of_fmap. apply elem_of_seq in Hseq.
      simpl. rewrite (inv_len _ _ _ _ HI) in Hseq. rewrite (no_me _ _ _ _ _ _ Hi0).
      split_and!; try done; try lia.
    + intros k' j t'. rewrite owing_app. pose proof (owing_requests (length (nodes s)) i
        (MkRequestVoteArgs (currentTerm x) (me x) (le_Index x1) (le_Term x1)) k' j t') as Hreq.
      rewrite How. simpl in *.
      replace (bool_decide (i = k')) with (bool_decide (k' = i)) by (apply bool_decide_ext; done). lia.
  - (* VoteRequest: the reply replaces it *)
    destruct Hp as (Hi & Hj & Hij & Hid & Hterm). inv_bind. destruct x0 as [rf' reply]. simplify_eq.
    apply node_Ok in H0. simpl in H0. apply RequestVote_vote in H1 as [Hneu Hvote].
    exists (if rvr_VoteGranted reply then (j, rv_Term args, i) :: V else V), e, W. split.
    { destruct (rvr_VoteGranted reply); [by constructor | done]. }
    assert (HV : forall v, v ∈ V -> v ∈ if rvr_VoteGranted reply then (j, rv_Term args, i) :: V else V)
      by (destruct (rvr_VoteGranted reply); [by constructor | done]).
    split.
    { intros v t c. destruct (rvr_VoteGranted reply); [ | by left]. intros [E | ?]%elem_of_cons; [right | by left]. simplify_eq.
      destruct Hvote as [Hv Ht]; [done | ]. exists rf'. split; [ | by rewrite Ht, Hv]. simpl.
      apply list_lookup_insert_eq. by eapply lookup_lt_Some. }
    eapply (Inv_neutral _ _ _ _ s); try done.
    + destruct (rvr_VoteGranted reply); [ | by left]. intros v [-> | ?]%elem_of_cons; [right | by left].
      exists i. destruct Hvote as [Hv Ht]; [done | ]. rewrite Ht, Hv. done.
    + apply Forall_app. split.
      * eapply Forall_impl; [exact Hps | ]. intros p. by apply packet_ok_mono.
      * repeat constructor; try done. destruct (rvr_VoteGranted reply); [by constructor | done].
    + intros k' j' t'. rewrite owing_app, owing_cons, How. simpl. change (owing k' j' t' []) with 0%nat. lia.
  - (* VoteReply *)
    destruct Hp as (Hi & Hj & Hij & Hterm & Hg). inv_bind. simplify_eq. apply node_Ok in H0. simpl in H0.
    apply sendRequestVote_vote in H1 as [Hneu | (Hgr & Ht & Hme & Hpe & Hct & Hvf & Hnum & Hlead)].
    { rewrite <- (app_nil_r ps). eapply (preserved_neutral _ _ _ s); try done. }
    specialize (Hg Hgr). pose proof (no_elect _ _ _ _ _ _ (inv_node _ _ _ _ HI _ _ H0)).
    exists V, e, (fun k => if decide (k = i) then j :: W i else W k). split; [done | ]. split; [by left | ].
    eapply (Inv_count _ _ _ s i j x); try done; [lia | by rewrite Ht | ].
    rewrite How. simpl. rewrite !bool_decide_eq_true_2 by done.
    replace (rv_Term args =? e i) with true by (symmetry; apply Z.eqb_eq; lia). simpl. lia.
  - (* BroadcastGo *)
    inv_bind.
    exists V, e, W. split; [done | ]. split; [by left | ]. apply (Inv_set_net V e W s (ps ++ _)); [exact HI | | ].
    + apply Forall_app. split; [done | ]. apply Forall_forall. by intros p (y & -> & _)%list_elem_of_fmap.
    + intros k' j t'. rewrite owing_app, (owing_none _ _ _ (map _ _)); [specialize (Hle k' j t'); simpl; lia | ].
      apply Forall_forall. by intros p (y & -> & _)%list_elem_of_fmap.
  - (* AppendGo *)
    inv_bind.
    exists V, e, W. split; [done | ]. split; [by left | ]. apply (Inv_set_net V e W s (ps ++ _)); [exact HI | | ].
    + apply Forall_app. split; [done | ]. by repeat constructor.
    + intros k' j' t'. rewrite owing_app, owing_cons. simpl. specialize (Hle k' j' t'). change (owing k' j' t' []) with 0%nat. lia.
  - (* AppendRequest *)
    inv_bind.
    destruct x0 as [rf' reply]. simplify_eq. apply node_Ok in H0. simpl in H0.
    eapply (preserved_neutral _ _ _ s); try done; [by eapply neutral_AppendEntries | ]. by repeat constructor.
  - (* AppendReply *)
    inv_bind.
    simplify_eq. apply node_Ok in H0. simpl in H0. rewrite <- (app_nil_r ps).
    eapply (preserved_neutral _ _ _ s); try done. by eapply neutral_sendAppendEntries.
Qed.

Lemma preserved_drop V e W s k p s' :
  Inv V e W s -> net s !! k = Some p -> drop_packet p (set_net (delete k (net s)) s) = Ok s' -> stepped V s'.
Proof.
  intros HI Hk Hr.
  assert (Hps : Forall (packet_ok V e) (delete k (net s))) by by apply Forall_delete, (inv_net _ _ _ _ HI).
  assert (Hle : forall k' j t, (owing k' j t (delete k (net s)) <= owing k' j t (net s))%nat).
  { intros. rewrite (owing_delete k' j t k p (net s)) by done. lia. }
  rewrite <- (app_nil_r (delete k (net s))) in Hr.
  destruct p; simpl in Hr; inv_bind; try done; simplify_eq; apply node_Ok in H0; simpl in H0;
    (eapply (preserved_neutral _ _ _ s); try done);
    first [apply neutral_refl | by eapply neutral_sendAppendEntries].
Qed.

Lemma preserved_action V e W s a s' :
  Inv V e W s -> allowed quiet a s = true -> do_action a s = Ok s' -> stepped V s'.
Proof.
  intros HI Ha Hr. pose proof (inv_net _ _ _ _ HI) as Hnet.
  destruct a as [i ev | k | k | i command | i | i]; simpl in Hr.
  - inv_bind. destruct x1 as [[rf' pc'] g]. simplify_eq. apply node_Ok in H0.
    apply neutral_ticker in H2 as [[Hneu Hg] | (Hs & -> & ->)].
    + eapply (preserved_neutral _ _ _ s); try done. destruct g; [constructor | done | by repeat constructor].
    + exists ((i, currentTerm x + 1, i) :: V), (upd i (currentTerm x + 1) e), (upd i [i] W). split; [by constructor | ].
      split.
      { intros v t c [E | ?]%elem_of_cons; [right | by left]. simplify_eq. exists (start_election x). split.
        - simpl. apply list_lookup_insert_eq. by eapply lookup_lt_Some.
        - unfold start_election. destruct (persist_set (set_numVotesReceived 1 (set_votedFor (me x)
            (set_currentTerm (currentTerm x + 1) x)))) as [q ->]. split; [done | ]. simpl. by eapply no_me, inv_node. }
      pose proof (Inv_start _ _ _ _ _ _ (<[i := pc']> (tickers s)) HI H0 Hs) as Hst.
      assert (Ht : currentTerm (start_election x) = currentTerm x + 1).
      { unfold start_election. by destruct (persist_set (set_numVotesReceived 1 (set_votedFor (me x)
          (set_currentTerm (currentTerm x + 1) x)))) as [q ->]. }
      rewrite <- Ht in Hst at 3. exact Hst.
  - destruct (net s !! k) as [p|] eqn:Hk; [ | done]. eapply preserved_packet; try done.
  - destruct (net s !! k) as [p|] eqn:Hk; [ | done]. by eapply preserved_drop.
  - inv_bind. destruct x0 as [rf' res]. simplify_eq. apply node_Ok in H0.
    unfold stepped, set_node. rewrite <- (app_nil_r (net s)).
    eapply (preserved_neutral _ _ _ s); try done. by eapply neutral_Start.
  - inv_bind. apply node_Ok in H0. destruct (appliers x) as [|m]; inv_bind; simplify_eq.
    unfold stepped, set_node. rewrite <- (app_nil_r (net s)).
    eapply (preserved_neutral _ _ _ s); try done. by apply neutral_applyCommitted.
  - done.
Qed.

Lemma Inv_boot : Inv [] (fun _ => 0) (fun _ => []) (boot n).
Proof.
  split; simpl; try (by intros *; inversion 1).
  - by rewrite length_map, length_seq.
  - intros i rf Hi. apply list_lookup_fmap_Some in Hi as (x & -> & [Hx _]%lookup_seq).
    unfold Make. simpl in Hx. subst x.
    match goal with |- context [persist ?r] => destruct (persist_set r) as [ps ->] end.
    split; simpl; try done; [constructor | by intros *; inversion 1 | | by intros *; inversion 1].
    intros j _. unfold owing. simpl. lia.
  - constructor.
Qed.

Lemma reachable_Inv s : reachable (cluster_system quiet n) s -> exists V, preserved V s.
Proof.
  intros (s0 & -> & Hr). assert (H0 : exists V, preserved V (@boot Cmd _ n)).
  { exists [], [], (fun _ => 0), (fun _ => []). split; [done | apply Inv_boot]. }
  induction Hr as [s | s1 s2 s3 (a & Ha & Hd) Hr IH]; [done | ]. apply IH.
  destruct H0 as (V & V' & e & W & _ & HI). exists V'.
  destruct (preserved_action _ _ _ _ _ _ HI Ha Hd) as (V'' & e' & W' & Hsub & _ & HI'). by exists V'', e', W'.
Qed.

Lemma rtc_Inv V s s' :
  preserved V s -> rtc (lts_step (cluster_system quiet n)) s s' -> preserved V s'.
Proof.
  intros HV Hr. induction Hr as [s | s1 s2 s3 (a & Ha & Hd) Hr IH]; [done | ]. apply IH.
  destruct HV as (V' & e & W & Hsub & HI).
  destruct (preserved_action _ _ _ _ _ _ HI Ha Hd) as (V'' & e' & W' & Hsub' & _ & HI').
  exists V'', e', W'. split; [by auto | done].
Qed.

(** Two majorities share a peer. *)
Lemma majorities_meet (A B : list nat) :
  NoDup A -> NoDup B -> (forall v, v ∈ A -> (v < n)%nat) -> (forall v, v ∈ B -> (v < n)%nat) ->
  (n < 2 * length A)%nat -> (n < 2 * length B)%nat -> exists v, v ∈ A /\ v ∈ B.
Proof.
  intros HA HB HAn HBn HlA HlB.
  destruct (decide (Exists (fun v => v ∈ B) A)) as [(v & HvA & HvB)%Exists_exists | Hno]; [eauto | exfalso].
  assert (Hnd : NoDup (A ++ B)).
  { apply NoDup_app. split_and!; try done. intros v HvA HvB. apply Hno, Exists_exists. eauto. }
  assert (Hsub : A ++ B ⊆+ seq 0 n).
  { apply NoDup_submseteq; [done | ]. intros v [Hv | Hv]%elem_of_app; apply elem_of_seq; [apply HAn in Hv | apply HBn in Hv]; lia. }
  apply submseteq_length in Hsub. rewrite length_app, length_seq in Hsub. lia.
Qed.

Lemma leads_quorum V e W s i t :
  Inv V e W s -> leads s i t ->
  NoDup (W i) /\ (n < 2 * length (W i))%nat /\ forall v, v ∈ W i -> (v, t, i) ∈ V /\ (v < n)%nat.
Proof.
  intros HI (rf & Hi & Hl & <-). destruct (inv_node _ _ _ _ HI _ _ Hi).
  destruct (no_leader0 Hl) as [He Hq]. split; [done | ]. split; [done | ].
  intros v Hv. apply no_counted0 in Hv. rewrite He in Hv. split; [done | ]. by eapply inv_bound.
Qed.
(** A majority has voted for [i] in term [t]. *)
Definition elected V (t : Z) (i : nat) : Prop :=
  exists Q, NoDup Q /\ (n < 2 * length Q)%nat /\ forall v, v ∈ Q -> (v, t, i) ∈ V.

Lemma elected_mono V V' t i : (forall x, x ∈ V -> x ∈ V') -> elected V t i -> elected V' t i.
Proof. intros HV (Q & HQ & Hlen & Hv). exists Q. auto. Qed.

Lemma elected_unique V e W s t i j : Inv V e W s -> elected V t i -> elected V t j -> i = j.
Proof.
  intros HI (Q & HQ & Hlen & Hv) (Q' & HQ' & Hlen' & Hv').
  destruct (majorities_meet Q Q') as (v & H1 & H2); [done.. | | | done | done |].
  - intros v Hq. by eapply inv_bound, Hv.
  - intros v Hq. by eapply inv_bound, Hv'.
  - eapply (inv_once _ _ _ _ HI); [by apply Hv | by apply Hv'].
Qed.

Lemma leader_elected V e W s i rf :
  Inv V e W s -> nodes s !! i = Some rf -> state rf = LEADER -> elected V (currentTerm rf) i.
Proof.
  intros HI Hi Hl. destruct (leads_quorum V e W s i (currentTerm rf) HI) as (HQ & Hlen & Hv); [by exists rf |].
  exists (W i). split; [done |]. split; [done |]. intros v Hw. by apply Hv.
Qed.

End invariant.

(** ** Election safety *)

(** Votes are counted: two leaders of a term have a voter in common. *)
Lemma one_leader_per_term {Cmd} `{GoRuntime Cmd} (n : nat) (s s' : cluster Cmd) (i j : nat) (t : Z) :
  reachable (cluster_system quiet n) s -> rtc (lts_step (cluster_system quiet n)) s s' ->
  leads s i t -> leads s' j t -> i = j.
Proof.
  intros Hs Hr Hi Hj. destruct (reachable_Inv _ _ Hs) as (V0 & V & e & W & _ & HI).
  destruct (rtc_Inv n V s s') as (V' & e' & W' & Hsub & HI'); [by exists V, e, W | done | ].
  destruct (leads_quorum _ _ _ _ _ _ _ HI Hi) as (Hn1 & Hq1 & Hv1).
  destruct (leads_quorum _ _ _ _ _ _ _ HI' Hj) as (Hn2 & Hq2 & Hv2).
  destruct (majorities_meet n (W i) (W' j)) as (v & Hv & Hv'); [done.. | by apply Hv1 | by apply Hv2 | done | done | ].
  apply Hv1 in Hv as [Hv _]. apply Hv2 in Hv' as [Hv' _]. by eapply (inv_once _ _ _ _ _ HI'); [apply Hsub | ].
Qed.

(** C1: election safety.  In every execution of a cluster of any size, with
    any interleaving of the peers' critical sections and messages lost and
    reordered at will, two peers that are leaders of the same term, be it at
    different times, are the same peer, as long as no peer restarts and each
    election goroutine reads its arguments in the term it was started in. *)
Theorem election_safety {Cmd} `{GoRuntime Cmd} (n : nat) (s s' : cluster Cmd) (i j : nat) (t : Z) :
  reachable (cluster_system quiet n) s -> rtc (lts_step (cluster_system quiet n)) s s' ->
  leads s i t -> leads s' j t -> i = j.
Proof. apply one_leader_per_term. Qed.

(** ** Schedules *)
Section schedules.
#[local] Instance all_registered : GoRuntime nat := {| registered := fun _ => true; newcap := fun cap _ => (2 * cap)%nat |}.

(** Peer [i] times out twice and starts an election. *)
Definition elect (i : nat) : list (action nat) := [Tick i Timeout; Tick i Timeout; Tick i Timeout].

(** Peer 0 of 3 wins term 1 with the vote of peer 1. *)
Definition win_0 : list (action nat) := elect 0 ++ [Deliver 0; Deliver 0; Deliver 1].

Lemma election_safety_witness :
  exists s, run_actions quiet win_0 (boot 3) = Ok s /\ leads s 0 1 /\ (forall j, leads s j 1 -> 0%nat = j).
Proof.
  destruct (run_actions quiet win_0 (boot 3)) as [s | | ] eqn:E; [ | vm_compute in E; discriminate E..].
  assert (H0 : leads s 0 1).
  { vm_compute in E. injection E as <-. eexists. split; [reflexivity | ]. split; reflexivity. }
  exists s. split; [reflexivity | ]. split; [exact H0 | ]. intros j Hj.
  apply (election_safety 3 s s 0 j 1); [by eapply run_actions_reachable | apply rtc_refl | exact H0 | exact Hj].
Defined.

(** With restarts, election safety fails.  Peer 1 votes for peer 0 in
    term 1 and restarts; it has not persisted the term or the vote, so it
    votes for peer 2 in term 1, and peers 0 and 2 lead term 1 together. *)
Theorem restart_breaks_election_safety :
  exists s, reachable (cluster_system (Cmd := nat) (MkEnv true true false) 3) s /\ leads s 0 1 /\ leads s 2 1.
Proof.
  destruct (run_actions (MkEnv true true false) (win_0 ++ Restart 1 :: elect 2 ++ [Deliver 1; Deliver 2; Deliver 2]) (boot 3))
    as [s | | ] eqn:E; [ | vm_compute in E; discriminate E..].
  exists s. split; [by eapply run_actions_reachable | ]. vm_compute in E. injection E as <-.
  split; (eexists; split; [reflexivity | split; reflexivity]).
Qed.

(** Without restarts, a slow election goroutine breaks election
    safety.  The goroutine of peer 0's election of term 1 runs after peer 0
    has voted for peer 1 in term 2: it asks for votes in term 2 for peer 0,
    and the vote of peer 2, counted on top of the vote peer 0 gave itself in
    term 1 while peer 0 is a candidate that has not yet moved to its next
    term, makes peer 0 a second leader of term 2. *)
Theorem slow_goroutine_breaks_election_safety :
  exists s, reachable (cluster_system (Cmd := nat) (MkEnv false false false) 3) s /\ leads s 0 2 /\ leads s 1 2.
Proof.
  destruct (run_actions (MkEnv false false false) (elect 0 ++ elect 1 ++ [Tick 1 Timeout] ++ elect 1 ++
      [Deliver 2; Deliver 2; Deliver 3; Deliver 0; Deliver 3; Tick 0 Heartbeat; Tick 0 Timeout; Tick 0 Timeout; Deliver 3])
    (boot 3)) as [s | | ] eqn:E; [ | vm_compute in E; discriminate E..].
  exists s. split; [by eapply run_actions_reachable | ]. vm_compute in E. injection E as <-.
  split; (eexists; split; [reflexivity | split; reflexivity]).
Qed.

(** Peer 0 leads term 1 and appends command 11; its [AppendEntries] for peer
    1 is slow.  It appends 22, and a second [AppendEntries] that carries both
    entries makes peer 1 hold them: peer 0 commits and applies both.  Then
    the slow request reaches peer 1 and cuts its log back to 11.  Peer 1 wins
    term 2 with the vote of peer 2, and commits and applies 33. *)
Definition divergence : list (action nat) :=
  win_0 ++ [ClientStart 0 (Some 11%nat); Tick 0 WonElection; Tick 0 Timeout; Deliver 1; Deliver 1; Tick 0 Timeout;
            ClientStart 0 (Some 22%nat); Tick 0 Timeout; Deliver 3; Deliver 3; Deliver 4; Deliver 4; Apply 0;
            Deliver 2] ++
  elect 1 ++ [Deliver 4; Deliver 5; Deliver 5; ClientStart 1 (Some 33%nat); Tick 1 WonElection; Tick 1 Timeout;
              Deliver 5; Deliver 6; Deliver 6; Deliver 6; Tick 1 Timeout; Tick 1 Timeout;
              Deliver 6; Deliver 7; Deliver 7; Deliver 7; Apply 1].

(** State machine safety fails, without crashes, lost messages or slow
    goroutines: an [AppendEntries] overtaken by a later one of the same
    leader removes entries that are already committed, because the handler
    cuts the log at [PrevLogIdx] even when nothing conflicts; two peers then
    apply different commands at index 2. *)
Theorem reordering_breaks_state_machine_safety :
  exists s rf0 rf1, reachable (cluster_system steady 3) s /\ nodes s !! 0%nat = Some rf0 /\ nodes s !! 1%nat = Some rf1 /\
    MkApplyMsg true (Some 22%nat) 2 ∈ cApplyMsg rf0 /\ MkApplyMsg true (Some 33%nat) 2 ∈ cApplyMsg rf1.
Proof.
  destruct (run_actions steady divergence (boot 3)) as [s | | ] eqn:E; [ | vm_compute in E; discriminate E..].
  exists s. do 2 eexists. split; [by eapply run_actions_reachable | ]. vm_compute in E. injection E as <-.
  split; [reflexivity | ]. split; [reflexivity | ]. split; repeat constructor.
Qed.
End schedules.
