(* ===== verification/RaftMemory.v ===== *)
(** * The memory behind the log of a Raft peer

    What [append] and reslicing do to the array of a log, what a slice of it goes
    on showing, and which functions of a peer leave the log and its memory alone. *)
From S2P Require Import Prelude Persister RaftServer RaftServerFacts RaftCluster RaftElection.

Local Open Scope Z_scope.

(** ** Arrays *)
Section arrays.
Context {Cmd : Type} `{GoRuntime Cmd}.
Implicit Types (rf : Raft Cmd) (l es : list (LogElement Cmd)) (sl : slice).

(** Element [q] of array [a] of a peer. *)
Definition cell rf (a q : nat) : option (LogElement Cmd) := arrays rf !! a ≫= (fun l => l !! q).

Lemma cell_left rf a q : (a < length (bk_left (backing rf)))%nat -> cell rf a q = bk_left (backing rf) !! a ≫= (fun l => l !! q).
Proof. intros Ha. unfold cell, arrays. by rewrite lookup_app_l. Qed.

Lemma cell_current rf q : cell rf (length (bk_left (backing rf))) q = array rf !! q.
Proof. unfold cell, arrays. by rewrite list_lookup_middle. Qed.

(** [append] leaves every element as it was, or writes one of its own behind the
    log. *)
Lemma cell_append es rf a q e :
  cell rf a q = Some e ->
  exists e', cell (append_log es rf) a q = Some e' /\
    (e' = e \/ (a = length (bk_left (backing rf)) /\ (length (log rf) <= q)%nat /\ es !! (q - length (log rf))%nat = Some e')).
Proof.
  intros He. destruct (decide (a < length (bk_left (backing rf)))%nat) as [Ha | Ha].
  { exists e. split; [ | by left]. rewrite cell_left in He by done. unfold cell, arrays, append_log. simpl.
    destruct (Nat.leb _ _); simpl; [by rewrite lookup_app_l | ]. rewrite lookup_app_l by (rewrite length_app; lia). by rewrite lookup_app_l. }
  assert (Hal : a = length (bk_left (backing rf))).
  { unfold cell in He. destruct (arrays rf !! a) as [l | ] eqn:El; [ | done]. apply lookup_lt_Some in El. unfold arrays in El.
    rewrite length_app in El. simpl in El. lia. }
  subst a. rewrite cell_current in He. unfold append_log. destruct (Nat.leb _ _) eqn:Efit.
  - apply Nat.leb_le in Efit. unfold cell, arrays. simpl. rewrite list_lookup_middle by done. unfold array in *. simpl.
    destruct (decide (q < length (log rf))%nat) as [Hq | Hq].
    { exists e. split; [ | by left]. simpl. by rewrite <- app_assoc, lookup_app_l, <- He, lookup_app_l. }
    rewrite lookup_app_r in He by lia. simpl. rewrite <- app_assoc, lookup_app_r by lia.
    destruct (decide (q - length (log rf) < length es)%nat) as [Hq' | Hq'].
    + destruct (lookup_lt_is_Some_2 es (q - length (log rf))) as [e' He']; [done | ]. exists e'. rewrite lookup_app_l by done.
      split; [done | right]. split; [done | ]. split; [lia | done].
    + exists e. split; [ | by left]. rewrite lookup_app_r, lookup_drop by lia. rewrite <- He. f_equal. lia.
  - exists e. split; [ | by left]. unfold cell, arrays. simpl. rewrite lookup_app_l by (rewrite length_app; simpl; lia).
    by rewrite list_lookup_middle.
Qed.

Lemma arrays_cut k rf : arrays (cut_log (take k (array rf)) rf) = arrays rf.
Proof.
  assert (E : array (cut_log (take k (array rf)) rf) = take k (array rf) ++ drop (length (take k (array rf))) (array rf)) by done.
  unfold arrays. rewrite E. simpl. do 2 f_equal. rewrite length_take.
  destruct (Nat.min_spec k (length (array rf))) as [[Hk ->] | [Hk ->]]; [apply take_drop | ].
  by rewrite take_ge, drop_all, app_nil_r by lia.
Qed.

(** What a slice shows. *)
Lemma read_slice_lookup rf sl k : (k < sl_len sl)%nat -> read_slice rf sl !! k = cell rf (sl_array sl) (sl_start sl + k).
Proof.
  intros Hk. unfold read_slice, cell. rewrite lookup_take_lt, lookup_drop by done. by destruct (arrays rf !! sl_array sl).
Qed.

Lemma read_slice_length rf sl : (length (read_slice rf sl) <= sl_len sl)%nat.
Proof. unfold read_slice. rewrite length_take. lia. Qed.

Lemma read_slice_log rf k : read_slice rf (slice_log rf k) = drop k (log rf).
Proof.
  unfold read_slice, slice_log, arrays, array. simpl. rewrite list_lookup_middle by done. simpl.
  destruct (decide (k <= length (log rf))%nat) as [Hk | Hk].
  - rewrite drop_app_le by done. rewrite take_app_le by (rewrite length_drop; lia). apply take_ge. rewrite length_drop. lia.
  - rewrite (drop_ge (log rf)) by lia. by replace (length (log rf) - k)%nat with 0%nat by lia.
Qed.

Lemma read_nil_slice rf : read_slice rf nil_slice = [].
Proof. done. Qed.
End arrays.

(** ** What the functions do to the log and its memory *)
Section logs.
Context {Cmd : Type} `{GoRuntime Cmd}.
Implicit Types rf : Raft Cmd.

Definition same_memory rf rf' : Prop := log rf' = log rf /\ backing rf' = backing rf.

Lemma same_memory_refl rf : same_memory rf rf.
Proof. done. Qed.

Lemma same_memory_trans rf1 rf2 rf3 : same_memory rf1 rf2 -> same_memory rf2 rf3 -> same_memory rf1 rf3.
Proof. intros [] []. split; congruence. Qed.

Lemma same_cells rf rf' a q : same_memory rf rf' -> cell rf' a q = cell rf a q.
Proof. intros [El Eb]. unfold cell, arrays, array. by rewrite El, Eb. Qed.

Lemma same_read rf rf' sl : same_memory rf rf' -> read_slice rf' sl = read_slice rf sl.
Proof. intros [El Eb]. unfold read_slice, arrays, array. by rewrite El, Eb. Qed.

(** The memory stays, and no leader appears. *)
Record log_neutral rf rf' : Prop := {
  ln_memory : same_memory rf rf';
  ln_term : currentTerm rf <= currentTerm rf';
  ln_leader : state rf' = LEADER -> state rf = LEADER /\ currentTerm rf' = currentTerm rf
}.

Lemma ln_log rf rf' : log_neutral rf rf' -> log rf' = log rf.
Proof. intros Hn. apply (ln_memory _ _ Hn). Qed.

Lemma log_neutral_of rf rf' : vote_neutral rf rf' -> same_memory rf rf' -> log_neutral rf rf'.
Proof. intros [] Hl. by split. Qed.

Lemma log_neutral_refl rf : log_neutral rf rf.
Proof. by split. Qed.

Lemma persist_memory rf : same_memory rf (persist rf).
Proof. by destruct (persist_set rf) as [ps ->]. Qed.

Lemma persist_log rf : log (persist rf) = log rf.
Proof. apply persist_memory. Qed.

Lemma persist_term rf : currentTerm (persist rf) = currentTerm rf.
Proof. by destruct (persist_set rf) as [ps ->]. Qed.

Lemma step_down_memory t rf : same_memory rf (step_down t rf).
Proof. unfold step_down. by branch. Qed.

Lemma notify_heartbeat_memory rf rf' : notify_heartbeat rf = Ok rf' -> same_memory rf rf'.
Proof. unfold notify_heartbeat. branch; intros [= <-]. done. Qed.

Lemma notify_win_memory rf rf' : notify_win rf = Ok rf' -> same_memory rf rf'.
Proof. unfold notify_win. branch; intros [= <-]. done. Qed.

Lemma ticker_log rf pc ev rf' pc' g : ticker rf pc ev = Ok (rf', pc', g) -> log_neutral rf rf'.
Proof.
  intros E. apply neutral_ticker in E as Hn. destruct Hn as [[Hn _] | (Hs & -> & _)].
  - apply log_neutral_of; [done | ]. unfold ticker, start_election in E.
    repeat (branch || case_match); simplify_eq; try done; by (eapply same_memory_trans; [ | apply persist_memory]).
  - unfold start_election. destruct (persist_set (set_numVotesReceived 1 (set_votedFor (me rf)
      (set_currentTerm (currentTerm rf + 1) rf)))) as [q ->]. split; simpl; [done | lia | congruence].
Qed.

Lemma RequestVote_log rf args reply0 rf' reply : RequestVote rf args reply0 = Ok (rf', reply) -> log_neutral rf rf'.
Proof.
  intros E. apply RequestVote_vote in E as Hn. destruct Hn as [Hn _]. apply log_neutral_of; [done | ].
  unfold RequestVote in E. branch; [by simplify_eq | ]. inv_bind. branch; inv_bind; simplify_eq; [ | apply step_down_memory].
  match goal with Hh : notify_heartbeat _ = _ |- _ => apply notify_heartbeat_memory in Hh; eapply same_memory_trans; [ | exact Hh] end.
  apply (step_down_memory (rv_Term args)).
Qed.

Lemma sendRequestVote_memory rf args reply rf' : sendRequestVote rf args true reply = Ok rf' -> same_memory rf rf'.
Proof.
  unfold sendRequestVote. intros E. simpl in E. branch; [by simplify_eq | ]. branch; [by simplify_eq | ].
  branch; [ | by simplify_eq]. branch; [ | by simplify_eq]. inv_bind.
  match goal with Hh : notify_win _ = _ |- _ => apply notify_win_memory in Hh; eapply same_memory_trans; [ | exact Hh] end.
  apply (persist_memory (set_numVotesReceived (numVotesReceived rf + 1) rf)).
Qed.

Lemma sendRequestVote_log rf args reply rf' : sendRequestVote rf args true reply = Ok rf' -> log rf' = log rf.
Proof. intros E. by apply sendRequestVote_memory in E as [E _]. Qed.

Lemma advance_commit_memory k base rf rf' : advance_commit k base rf = Ok rf' -> same_memory rf rf'.
Proof.
  induction k as [| k IH]; simpl; intros E; [by simplify_eq | ]. inv_bind.
  branch; [ | by simplify_eq]. inv_bind. branch; [by simplify_eq | auto].
Qed.

Lemma sendAppendEntries_log rf server args ok reply rf' :
  sendAppendEntries rf server args ok reply = Ok rf' -> log_neutral rf rf'.
Proof.
  intros E. apply log_neutral_of; [by eapply neutral_sendAppendEntries | ]. unfold sendAppendEntries in E. inv_bind.
  destruct (_ || _); [by simplify_eq | ].
  branch; [simplify_eq; by (eapply same_memory_trans; [ | apply persist_memory]) | ]. inv_bind.
  match goal with Hh : advance_commit _ _ _ = _ |- _ => apply advance_commit_memory in Hh; eapply same_memory_trans; [ | exact Hh] end.
  repeat branch; inv_bind; by simplify_eq.
Qed.

Lemma applyCommitted_log m rf rf' : applyCommitted rf = Ok rf' -> log_neutral rf (set_appliers m rf').
Proof.
  intros E. apply log_neutral_of; [by apply neutral_applyCommitted | ]. unfold applyCommitted in E. inv_bind. done.
Qed.

(** The leader's log gets longer by what [Start] appends. *)
Definition appended es rf rf' : Prop := same_memory (append_log es rf) rf'.

Lemma Start_log rf command rf' res :
  Start rf command = Ok (rf', res) ->
  rf' = rf \/ (state rf = LEADER /\ exists x, le_Term x = currentTerm rf /\ appended [x] rf rf' /\
    exists e, last_entry rf = Ok e /\ le_Index x = le_Index e + 1).
Proof.
  unfold Start. intros E. branch; inv_bind; [ | simplify_eq; by left]. zbool. simplify_eq. right. split; [done | ].
  eexists. split; [ | split; [apply persist_memory | eexists; split; done]]. done.
Qed.

(** [AppendEntries] keeps the log, or replaces what follows the entry it was
    told to find. *)
Definition base_entry : LogElement Cmd := MkLogElement 0 None 0.

Definition overwritten p es rf rf' : Prop := same_memory (append_log es (cut_log (take (S p) (log rf)) rf)) rf'.

Lemma overwritten_log p es rf rf' : overwritten p es rf rf' -> log rf' = take (S p) (log rf) ++ es.
Proof. by intros [E _]. Qed.

Lemma append_current_log rf args reply0 last rf' reply :
  0 <= ae_PrevLogIdx args -> append_current rf args reply0 last 0 = Ok (rf', reply) ->
  currentTerm rf' = currentTerm rf /\
  (same_memory rf rf' \/
   exists p e, ae_PrevLogIdx args = Z.of_nat p /\ log rf !! p = Some e /\ le_Term e = ae_PrevLogTerm args /\
     overwritten p (ae_Entries args) rf rf').
Proof.
  unfold append_current. intros Hprev E. branch; [simplify_eq; split; [done | by left] | ].
  assert (Hle : (0 <=? ae_PrevLogIdx args) = true) by by apply Z.leb_le.
  rewrite Hle in E. inv_bind. rewrite Z.sub_0_r in *. rename x0 into e.
  match goal with Hh : index _ _ = Ok e |- _ => apply index_Ok in Hh as [_ He] end.
  destruct (le_Term e =? ae_PrevLogTerm args) eqn:Et; zbool.
  - branch; [ | zbool; lia]. inv_bind.
    match goal with Hh : slice_to _ _ = Ok ?k |- _ => apply slice_to_Ok in Hh as [_ Hk]; set (kept := k) in * end.
    assert (Ek : kept = take (S (Z.to_nat (ae_PrevLogIdx args))) (log rf)).
    { rewrite Hk. replace (Z.to_nat (ae_PrevLogIdx args + 1)) with (S (Z.to_nat (ae_PrevLogIdx args))) by lia.
      unfold array. rewrite take_app_le; [done | ]. apply lookup_lt_Some in He. lia. }
    assert (Hr : forall r, same_memory (append_log (ae_Entries args) (cut_log kept rf)) r ->
      exists p e, ae_PrevLogIdx args = Z.of_nat p /\ log rf !! p = Some e /\ le_Term e = ae_PrevLogTerm args /\
        overwritten p (ae_Entries args) rf r).
    { intros r Hm. exists (Z.to_nat (ae_PrevLogIdx args)), e. unfold overwritten. rewrite <- Ek. by rewrite Z2Nat.id. }
    branch; inv_bind; simplify_eq; rewrite persist_term; (split; [done | right; apply Hr]).
    + by (eapply same_memory_trans; [ | apply persist_memory]).
    + by (eapply same_memory_trans; [ | apply persist_memory]).
  - inv_bind. destruct x; simplify_eq; [split; [done | by left] | ]. rewrite persist_term. split; [done | left; apply persist_memory].
Qed.

Lemma AppendEntries_log rf args reply0 rf' reply :
  log rf !! 0%nat = Some base_entry -> 0 <= ae_PrevLogIdx args ->
  AppendEntries rf args reply0 = Ok (rf', reply) ->
  same_memory rf rf' \/
  (currentTerm rf' = ae_Term args /\
   exists p e, ae_PrevLogIdx args = Z.of_nat p /\ log rf !! p = Some e /\ le_Term e = ae_PrevLogTerm args /\
     overwritten p (ae_Entries args) rf rf').
Proof.
  intros Hb Hprev E. unfold AppendEntries in E. inv_bind.
  match goal with Hh : index (log rf) 0 = Ok ?b |- _ => apply index_Ok in Hh as [_ Hh]; change (Z.to_nat 0) with 0%nat in Hh;
    assert (b = base_entry) by congruence; subst b end.
  branch; [simplify_eq; by left | ]. inv_bind. zbool.
  match goal with Hh : notify_heartbeat _ = Ok ?r |- _ => set (rf1 := r) in *; pose proof (notify_heartbeat_memory _ _ Hh) as Hm1;
    unfold notify_heartbeat in Hh; branch; [ | done]; assert (Ht1 : currentTerm rf1 = Z.max (currentTerm rf) (ae_Term args))
      by (unfold rf1; simplify_eq; apply step_down_term) end.
  apply append_current_log in E as [Et El]; [ | done].
  assert (Hm : same_memory rf rf1) by (eapply same_memory_trans; [apply step_down_memory | exact Hm1]).
  destruct El as [El | (p & e & Hp & He & Hte & Ho)]; [left; by eapply same_memory_trans | right]. split; [lia | ].
  exists p, e. destruct Hm as [El Eb]. rewrite El in He. split_and!; try done.
  unfold overwritten, append_log, cut_log, same_memory, array in *. simpl in *. by rewrite El, Eb in Ho.
Qed.
End logs.

(** ** Slices on their way *)
Section slices.
Context {Cmd : Type} `{GoRuntime Cmd}.
Implicit Types (rf : Raft Cmd) (a : AppendEntriesArgs Cmd) (sl : slice) (es : list (LogElement Cmd)).

(** Whatever the slice of a message shows by now, they are elements of the log of
    some time, each at its place in the array. *)
Record slice_ok rf a sl : Prop := {
  so_len : sl_len sl = length (ae_Entries a);
  so_start : sl_len sl = 0%nat \/ Z.of_nat (sl_start sl) = ae_PrevLogIdx a + 1;
  so_shows : forall k, (k < sl_len sl)%nat -> exists e, cell rf (sl_array sl) (sl_start sl + k) = Some e /\
    le_Index e = Z.of_nat (sl_start sl + k) /\ 1 <= le_Term e
}.

(** Its elements are where nothing is written before the log gets shorter. *)
Definition inside rf sl : Prop :=
  sl_len sl = 0%nat \/ (sl_array sl < length (bk_left (backing rf)))%nat \/
  (sl_array sl = length (bk_left (backing rf)) /\ (sl_start sl + sl_len sl <= length (log rf))%nat).

(** The length of the log a message leaves behind when it is accepted. *)
Definition reach a : nat := S (Z.to_nat (ae_PrevLogIdx a)) + length (ae_Entries a).

(** The slice still shows what it was cut for. *)
Record slice_fresh rf a sl : Prop := {
  sf_read : read_slice rf sl = ae_Entries a;
  sf_inside : inside rf sl;
  sf_reach : (reach a <= length (log rf))%nat
}.

Lemma slice_ok_same rf rf' a sl : same_memory rf rf' -> slice_ok rf a sl -> slice_ok rf' a sl.
Proof. intros Hm [Hl Hs Hc]. split; [done.. | ]. intros k Hk. rewrite (same_cells rf rf') by done. by apply Hc. Qed.

Lemma slice_fresh_same rf rf' a sl : same_memory rf rf' -> slice_fresh rf a sl -> slice_fresh rf' a sl.
Proof. intros Hm [Hr Hi Hl]. split; [by rewrite (same_read rf rf') | | ]; destruct Hm as [El Eb]; unfold inside; by rewrite ?El, ?Eb. Qed.

(** Elements numbered after the first [k]. *)
Definition numbered (k : nat) es : Prop := forall j e, es !! j = Some e -> le_Index e = Z.of_nat (k + j) /\ 1 <= le_Term e.

Lemma slice_ok_append es rf a sl : numbered (length (log rf)) es -> slice_ok rf a sl -> slice_ok (append_log es rf) a sl.
Proof.
  intros Hes [Hl Hs Hc]. split; [done.. | ]. intros k Hk. destruct (Hc k Hk) as (e & He & Hi & Ht).
  destruct (cell_append es rf _ _ _ He) as (e' & He' & [-> | (_ & Hge & Hx)]); [by exists e | ].
  exists e'. apply Hes in Hx. replace (length (log rf) + _)%nat with (sl_start sl + k)%nat in Hx by lia. done.
Qed.

Lemma slice_ok_overwritten p es rf rf' a sl :
  (S p <= length (log rf))%nat -> numbered (S p) es -> overwritten p es rf rf' -> slice_ok rf a sl -> slice_ok rf' a sl.
Proof.
  intros Hp Hes Ho Hok. eapply slice_ok_same; [exact Ho | ]. apply slice_ok_append.
  { change (log (cut_log (take (S p) (log rf)) rf)) with (take (S p) (log rf)). by rewrite length_take, Nat.min_l by lia. }
  destruct Hok as [Hl Hs Hc]. split; [done.. | ]. intros k Hk. unfold cell. replace (take (S p) (log rf)) with (take (S p) (array rf)); [rewrite arrays_cut; by apply Hc | ].
  unfold array. by rewrite take_app_le.
Qed.

Lemma inside_append es rf sl : inside rf sl -> inside (append_log es rf) sl /\ read_slice (append_log es rf) sl = read_slice rf sl.
Proof.
  intros Hi. destruct (decide (sl_len sl = 0%nat)) as [H0 | H0].
  { split; [by left | ]. unfold read_slice. by rewrite H0. }
  destruct Hi as [ | [Hi | [Ha Hi]]]; [done | | ]; unfold inside, read_slice, arrays, append_log; simpl.
  - destruct (Nat.leb _ _); simpl; (split; [right; left; rewrite ?length_app; lia | ]).
    + by rewrite !lookup_app_l.
    + rewrite !lookup_app_l by (rewrite ?length_app; lia). done.
  - destruct (Nat.leb _ _); simpl; (split; [ | rewrite Ha]).
    + right; right. split; [done | ]. rewrite length_app. lia.
    + rewrite !list_lookup_middle by done. simpl. unfold array. simpl. rewrite <- app_assoc.
      rewrite !drop_app_le by lia. by rewrite !take_app_le by (rewrite length_drop; lia).
    + right; left. rewrite length_app. simpl. lia.
    + rewrite lookup_app_l by (rewrite length_app; simpl; lia). by rewrite !list_lookup_middle.
Qed.

Lemma slice_fresh_append es rf a sl : slice_fresh rf a sl -> slice_fresh (append_log es rf) a sl.
Proof.
  intros [Hr Hi Hl]. destruct (inside_append es rf sl Hi) as [Hi' Hr']. split; [congruence | done | ].
  change (log (append_log es rf)) with (log rf ++ es). rewrite length_app. lia.
Qed.

(** What [broadcastHeartbeat] prepares. *)
Lemma heartbeat_args_slice rf i a sl :
  log_wf (log rf) -> heartbeat_args rf 0 i = Ok (Some (a, sl)) -> slice_ok rf a sl /\ slice_fresh rf a sl.
Proof.
  intros Hwf. unfold heartbeat_args. intros E. branch; [ | done]. inv_bind. branch; [done | ]. zbool.
  destruct (0 <=? x - 1) eqn:Ep; zbool; [ | lia]. inv_bind. rewrite Z.sub_0_r in *.
  match goal with Hh : index (log rf) _ = Ok _ |- _ => apply index_Ok in Hh as [_ Hh]; apply lookup_lt_Some in Hh as Hlt end.
  branch; inv_bind; simplify_eq; simpl.
  - match goal with Hh : slice_from _ _ = Ok _ |- _ => apply slice_from_Ok in Hh as [_ Hes] end.
    assert (Hle : (Z.to_nat x <= length (log rf))%nat) by lia.
    assert (Hlen : length x0 = (length (log rf) - Z.to_nat x)%nat) by (rewrite Hes; apply length_drop).
    split; split; simpl; try done.
    + right. lia.
    + intros k Hk. destruct (lookup_lt_is_Some_2 (log rf) (Z.to_nat x + k)) as [e He]; [lia | ]. exists e. rewrite cell_current. unfold array.
      rewrite lookup_app_l by lia. split; [done | ]. split; [by apply (lw_index _ Hwf) | ].
      destruct (Z.to_nat x + k)%nat as [ | q] eqn:Eq; [lia | ]. by apply (lw_term _ Hwf q).
    + rewrite read_slice_log. by rewrite Hes.
    + right; right. split; [done | ]. unfold slice_log. simpl. lia.
    + unfold reach. simpl. lia.
  - split; split; simpl; try done; [by left | lia | by left | ]. unfold reach. simpl. lia.
Qed.

(** What [sendAppendEntries] copies. *)
Lemma copy_fresh rf a sl : slice_fresh rf a sl -> copy_args rf a sl = a.
Proof. intros Hf. unfold copy_args. rewrite (sf_read _ _ _ Hf). by destruct a. Qed.

Lemma copy_length rf a sl : slice_ok rf a sl -> length (read_slice rf sl) = length (ae_Entries a).
Proof.
  intros [Hl _ Hc]. rewrite <- Hl. apply Nat.le_antisymm; [apply read_slice_length | ].
  destruct (decide (sl_len sl = 0%nat)) as [ | H0]; [lia | ]. destruct (Hc (Nat.pred (sl_len sl))) as (e & He & _); [lia | ].
  rewrite <- read_slice_lookup in He by lia. apply lookup_lt_Some in He. lia.
Qed.

Lemma copy_reach rf a sl : slice_ok rf a sl -> reach (copy_args rf a sl) = reach a.
Proof. intros Hok. unfold reach. simpl. by rewrite (copy_length rf a sl). Qed.

Lemma copy_wf rf a sl : slice_ok rf a sl -> append_wf a -> append_wf (copy_args rf a sl).
Proof.
  intros Hok [Ht Hp Hb _ _]. pose proof Hok as [Hl Hs Hc].
  assert (Hes : forall k e, read_slice rf sl !! k = Some e -> le_Index e = ae_PrevLogIdx a + 1 + Z.of_nat k /\ 1 <= le_Term e).
  { intros k e He. apply lookup_lt_Some in He as Hk. rewrite (copy_length rf a sl), <- Hl in Hk by done.
    rewrite read_slice_lookup in He by done. destruct (Hc k Hk) as (e' & He' & Hi & Hte). simplify_eq. split; [lia | done]. }
  split; simpl; try done; intros k e He; by apply Hes in He as [].
Qed.
End slices.
