(* ===== verification/RaftServerSpec.v ===== *)
(** * The contract of a single Raft peer

    The theorems about one peer: the RPC handlers on every branch, the commit
    rule, log repair between a leader and a follower, and persistence. *)
From S2P Require Import Prelude Persister RaftServer RaftServerFacts RaftCluster RaftElection RaftMemory.

Local Open Scope Z_scope.

(** ** [AppendEntries] *)

(** C8: the [AppendEntries] handler never panics and never blocks on a
    well-formed peer with room in its heartbeat channel, keeps the peer
    well-formed, and this is what it does on each branch.  A stale term changes
    nothing and is answered with the current term.  Otherwise the peer is in the
    sender's term, without a vote when that term is new to it.  A log without the
    leader's previous entry is left alone, the reply names an index to retry
    strictly below the one tried and at least 1, and nothing is persisted, a new
    term included.  A log with that entry is cut after it whatever follows and
    whether or not it conflicts, the message's entries are put behind the cut, the
    commit index follows the leader's up to the last of them, and what is
    persisted is the state the handler leaves. *)
Theorem AppendEntries_spec {Cmd} `{GoRuntime Cmd} (rf : Raft Cmd) args :
  raft_wf rf -> append_wf args -> cHeartbeat rf < chan_cap ->
  exists rf' reply, AppendEntries rf args zero_append_reply = Ok (rf', reply) /\ raft_wf rf' /\
    if ae_Term args <? currentTerm rf then
      rf' = rf /\ reply = MkAppendEntriesResults (currentTerm rf) false (len (log rf))
    else
      currentTerm rf' = ae_Term args /\ aer_Term reply = ae_Term args /\
      votedFor rf' = (if currentTerm rf <? ae_Term args then -1 else votedFor rf) /\
      state rf' = (if currentTerm rf <? ae_Term args then FOLLOWER else state rf) /\
      if log_matches (log rf) (ae_PrevLogIdx args) (ae_PrevLogTerm args) then
        aer_Success reply = true /\
        log rf' = take (S (Z.to_nat (ae_PrevLogIdx args))) (log rf) ++ ae_Entries args /\
        commitIdx rf' = (if commitIdx rf <? ae_LeaderCommit args
                         then Z.min (ae_LeaderCommit args) (ae_PrevLogIdx args + len (ae_Entries args))
                         else commitIdx rf) /\
        persister rf' = persister (persist (set_persister (persister rf) rf'))
      else
        aer_Success reply = false /\ log rf' = log rf /\ commitIdx rf' = commitIdx rf /\
        1 <= aer_NextTryIdx reply <= ae_PrevLogIdx args /\ persister rf' = persister rf.
Proof.
  intros Hwf Haw Hhb. pose proof (wf_log _ Hwf) as Hl.
  destruct (ae_Term args <? currentTerm rf) eqn:E.
  { destruct (last_entry_wf _ Hl) as (lst & Hlst & _ & Hidx).
    unfold AppendEntries. rewrite Hlst, (base_wf _ Hl). simpl. rewrite Hidx, E.
    do 2 eexists. split; [reflexivity | ]. split; [done | ]. split; [done | ]. f_equal. lia. }
  zbool. destruct (AppendEntries_current rf args zero_append_reply) as (-> & Hwf1 & Hlog1 & Hterm1 & Hcommit1 & _ & Hps);
    [done.. | ].
  destruct (met_leader_role rf args) as [Hv Hs].
  set (rf1 := met_leader rf args) in *. rewrite <- Hlog1, <- Hcommit1, <- Hps, <- Hv, <- Hs.
  destruct (log_matches (log rf1) _ _) eqn:Em.
  - destruct (append_current_match rf1 args) as (rf' & -> & Hwf' & Ht & Hl' & Hc & _ & Hv' & Hs' & Hps'); try done.
    do 2 eexists. split; [reflexivity | ]. split; [done | ]. rewrite Ht. done.
  - destruct (append_current_mismatch rf1 args) as (next & -> & Hnext & _); try done.
    do 2 eexists. split; [reflexivity | ]. done.
Qed.

(** A follower of term 1 with one entry, and the leader's next heartbeat. *)
Section witness_peer.
#[local] Instance all_registered : GoRuntime nat := {| registered := fun _ => true; newcap := fun cap _ => (2 * cap)%nat |}.

Definition example_peer : Raft nat :=
  set_log [MkLogElement 0 None 0; MkLogElement 1 (Some 7%nat) 1]
    (set_currentTerm 1 (Make 3 0 MakePersister)).

Definition example_append : AppendEntriesArgs nat :=
  MkAppendEntriesArgs 2 1 1 1 [MkLogElement 2 (Some 8%nat) 2] 1.

Lemma example_peer_wf : raft_wf example_peer.
Proof.
  split; [ | vm_compute; intuition congruence ..]. split; [done | ..].
  - intros [|[|k]] e Hk; simplify_eq/=; done.
  - intros [|k] e Hk; simplify_eq/=. lia.
Qed.

Lemma example_append_wf : append_wf example_append.
Proof.
  split; simpl; try lia.
  - intros [|k] e Hk; simplify_eq/=; done.
  - intros [|k] e Hk; simplify_eq/=; lia.
Qed.

Lemma AppendEntries_spec_witness :
  exists rf' reply, AppendEntries example_peer example_append zero_append_reply = Ok (rf', reply) /\
    raft_wf rf' /\ log rf' = log example_peer ++ ae_Entries example_append.
Proof.
  destruct (AppendEntries_spec example_peer example_append) as (rf' & reply & E & Hwf & Hspec).
  - exact example_peer_wf.
  - exact example_append_wf.
  - reflexivity.
  - exists rf', reply. split; [exact E | ]. split; [exact Hwf | ].
    change (ae_Term example_append <? currentTerm example_peer) with false in Hspec.
    change (log_matches _ _ _) with true in Hspec.
    destruct Hspec as (_ & _ & _ & _ & _ & -> & _). reflexivity.
Defined.
End witness_peer.

(** ** [RequestVote] *)

(** The candidate's log is at least as up to date as the voter's. *)
Definition up_to_date {Cmd} (l : list (LogElement Cmd)) (args : RequestVoteArgs) : Prop :=
  exists e, last l = Some e /\
    (le_Term e < rv_LastLogTerm args \/
     (rv_LastLogTerm args = le_Term e /\ le_Index e <= rv_LastLogIdx args)).

(** C9: the [RequestVote] handler never panics on a well-formed peer and keeps
    it well-formed.  It grants the vote exactly when the candidate's term is
    not behind, its log is at least as up to date, and the peer has not voted
    for another candidate in that term; a granted vote is recorded for that
    term, a refused one records none, and the log is not touched. *)
Theorem RequestVote_spec {Cmd} `{GoRuntime Cmd} (rf : Raft Cmd) args reply0 :
  raft_wf rf -> cHeartbeat rf < chan_cap ->
  exists rf' reply, RequestVote rf args reply0 = Ok (rf', reply) /\ raft_wf rf' /\
    log rf' = log rf /\ currentTerm rf' = Z.max (currentTerm rf) (rv_Term args) /\
    rvr_Term reply = Z.max (currentTerm rf) (rv_Term args) /\
    (rvr_VoteGranted reply = true <->
       currentTerm rf <= rv_Term args /\ up_to_date (log rf) args /\
       (currentTerm rf = rv_Term args -> votedFor rf = -1 \/ votedFor rf = rv_IDcand args)) /\
    (rvr_VoteGranted reply = true -> votedFor rf' = rv_IDcand args) /\
    (rvr_VoteGranted reply = false ->
       votedFor rf' = if currentTerm rf <? rv_Term args then -1 else votedFor rf).
Proof.
  intros Hwf Hhb. unfold RequestVote. destruct (rv_Term args <? currentTerm rf) eqn:E; zbool.
  { do 2 eexists. split; [reflexivity | ]. simpl.
    replace (currentTerm rf <? rv_Term args) with false by (symmetry; apply Z.ltb_ge; lia).
    split_and!; try done; lia. }
  set (rf1 := step_down (rv_Term args) rf).
  assert (Hwf1 : raft_wf rf1) by by apply step_down_wf.
  assert (Hlog1 : log rf1 = log rf) by apply step_down_log.
  assert (Hterm1 : currentTerm rf1 = rv_Term args) by (unfold rf1; rewrite step_down_term; lia).
  assert (Hvote1 : votedFor rf1 = if currentTerm rf <? rv_Term args then -1 else votedFor rf)
    by (unfold rf1, step_down; by branch).
  destruct (last_entry_wf rf1 (wf_log _ Hwf1)) as (e & -> & He & _). simpl.
  assert (Hlast : last (log rf) = Some e).
  { rewrite last_lookup, <- Hlog1, <- He. f_equal. unfold len. lia. }
  assert (Hup : up_to_date (log rf) args <->
    ((le_Term e <? rv_LastLogTerm args) || ((rv_LastLogTerm args =? le_Term e) && (le_Index e <=? rv_LastLogIdx args))) = true).
  { rewrite orb_true_iff, andb_true_iff, Z.ltb_lt, Z.eqb_eq, Z.leb_le. unfold up_to_date. rewrite Hlast. naive_solver. }
  assert (Hfree : (currentTerm rf = rv_Term args -> votedFor rf = -1 \/ votedFor rf = rv_IDcand args) <->
    ((votedFor rf1 =? -1) || (votedFor rf1 =? rv_IDcand args)) = true).
  { rewrite orb_true_iff, !Z.eqb_eq, Hvote1. branch; [split; auto; lia | ].
    split; [intros X; apply X; lia | auto]. }
  destruct ((le_Term e <? _) || _) eqn:Eu; simpl;
    [destruct ((votedFor rf1 =? -1) || _) eqn:Ef; simpl | ].
  - rewrite notify_heartbeat_Ok by by (simpl; unfold rf1; rewrite step_down_heartbeat). simpl.
    do 2 eexists. split; [reflexivity | ]. simpl.
    split_and!; try done; try lia.
    + by destruct Hwf1.
    + split; [ | done]. intros _. split; [lia | ]. split; [by apply Hup | by apply Hfree].
  - do 2 eexists. split; [reflexivity | ]. simpl. split_and!; try done; try lia.
    all: split; [done | ]; intros (_ & _ & X%Hfree); congruence.
  - do 2 eexists. split; [reflexivity | ]. simpl. split_and!; try done; try lia.
    all: split; [done | ]; intros (_ & X%Hup & _); congruence.
Qed.

Section witness_vote.
#[local] Instance all_registered' : GoRuntime nat := {| registered := fun _ => true; newcap := fun cap _ => (2 * cap)%nat |}.
Lemma RequestVote_spec_witness :
  exists rf' reply, RequestVote example_peer (MkRequestVoteArgs 2 1 1 1) (MkRequestVoteReply 0 false)
      = Ok (rf', reply) /\ rvr_VoteGranted reply = true /\ votedFor rf' = 1.
Proof.
  destruct (RequestVote_spec example_peer (MkRequestVoteArgs 2 1 1 1) (MkRequestVoteReply 0 false)
    example_peer_wf eq_refl) as (rf' & reply & E & _ & _ & _ & _ & Hg & Hv & _).
  exists rf', reply. split; [exact E | ].
  assert (Hyes : rvr_VoteGranted reply = true).
  { apply Hg. split; [vm_compute; congruence | ]. split; [ | by left].
    eexists. split; [reflexivity | ]. right. split; [reflexivity | vm_compute; congruence]. }
  split; [exact Hyes | by apply Hv].
Defined.
End witness_vote.

(** ** [sendAppendEntries] *)

(** C11: handling the answer to an [AppendEntries] never panics on a
    well-formed peer, keeps it well-formed and never touches its log.  An
    answer that failed or that is for another term or role changes nothing; an
    answer of a later term makes the peer a follower of that term; otherwise
    the indices of the answering peer are set from the request and the answer,
    the commit index never moves back, and when it moves it moves to an entry of
    the leader's own term for which, this peer counted, more than half of the
    peers have a [matchIdx] that reaches it.  That is a count of [matchIdx], not
    of logs: nothing here says the peers counted hold the entry
    ([stale_match_breaks_state_machine_safety] is a run where they do not). *)
Theorem sendAppendEntries_spec {Cmd} `{GoRuntime Cmd} (rf : Raft Cmd) server args ok reply :
  raft_wf rf -> 0 <= server < peers rf ->
  exists rf', sendAppendEntries rf server args ok reply = Ok rf' /\ raft_wf rf' /\ log rf' = log rf /\
    if answer_current rf args ok then
      if currentTerm rf <? aer_Term reply then
        state rf' = FOLLOWER /\ currentTerm rf' = aer_Term reply /\ votedFor rf' = -1 /\ commitIdx rf' = commitIdx rf
      else
        state rf' = LEADER /\ currentTerm rf' = currentTerm rf /\
        nextIdx rf' = nextIdx (note_answer rf server args reply) /\
        matchIdx rf' = matchIdx (note_answer rf server args reply) /\
        (commitIdx rf' = commitIdx rf \/
         commitIdx rf < commitIdx rf' < len (log rf) /\
         (exists e, log rf !! Z.to_nat (commitIdx rf') = Some e /\ le_Term e = currentTerm rf) /\
         peers rf < 2 * replicas rf' (commitIdx rf'))
    else rf' = rf.
Proof.
  intros Hwf Hs. destruct (answer_current rf args ok) eqn:Ec.
  2:{ unfold sendAppendEntries. rewrite (base_wf _ (wf_log _ Hwf)), bind_Ok.
      assert (negb ok || negb (currentTerm rf =? ae_Term args) || bool_decide (state rf <> LEADER) = true) as ->.
      2:{ exists rf. done. }
      unfold answer_current in Ec. destruct ok; simpl in *; [ | done]. rewrite andb_false_iff in Ec.
      destruct Ec as [-> | Ec]; [done | ]. apply bool_decide_eq_false_1 in Ec.
      rewrite bool_decide_eq_true_2 by done. apply orb_true_r. }
  pose proof Ec as Ec'. unfold answer_current in Ec'. zbool. subst ok.
  destruct (currentTerm rf <? aer_Term reply) eqn:Et; zbool.
  - unfold sendAppendEntries. rewrite (base_wf _ (wf_log _ Hwf)), bind_Ok.
    replace (currentTerm rf =? ae_Term args) with true by (symmetry; by apply Z.eqb_eq).
    rewrite bool_decide_eq_false_2 by (intros X; by apply X). simpl.
    apply Z.ltb_lt in Et. rewrite Et. apply Z.ltb_lt in Et.
    eexists. split; [reflexivity | ]. split.
    + apply wf_persist. destruct Hwf. split; simpl; try done; lia.
    + destruct (persist_set (set_state FOLLOWER (set_currentTerm (aer_Term reply) (set_votedFor (-1) rf)))) as [ps ->].
      done.
  - rewrite sendAppendEntries_current by done.
    pose proof (note_answer_wf rf server args reply Hwf) as Hwf'.
    destruct (note_answer_fields rf server args reply) as (Hlog & Hci & Hterm & Hp & Hst & _).
    set (rf1 := note_answer rf server args reply) in *. rewrite <- Hlog, <- Hci.
    destruct (advance_commit_total rf1) as (rf' & -> & [-> | (i & e & -> & Hi & He & Het & Hmaj)]); [done | | ].
    + exists rf1. split_and!; try done; [congruence | ]. by left.
    + exists (commit_to i rf1). split; [done | ]. split; [apply commit_to_wf; [ | done] | ].
      { pose proof (wf_commit _ Hwf'). lia. }
      split; [done | ]. split_and!; try done; [simpl; congruence | ]. right. simpl. rewrite Hp in Hmaj.
      split; [lia | ]. split; [ | exact Hmaj]. exists e. rewrite <- Hterm. done.
Qed.

(** ** [sendRequestVote] *)

(** C12: handling the answer to a [RequestVote] never panics on a well-formed
    peer with room in its election channel, keeps it well-formed and leaves its
    log and its commit index alone.  The peer becomes a leader exactly when it
    is a candidate of the term the request was sent in, the vote is granted in
    a term it is not behind and, with this one, its votes exceed half of the
    peers; then every [nextIdx] is one past its own last entry. *)
Theorem sendRequestVote_spec {Cmd} `{GoRuntime Cmd} (rf : Raft Cmd) args ok reply :
  raft_wf rf -> cWinElection rf < chan_cap ->
  exists rf', sendRequestVote rf args ok reply = Ok rf' /\ raft_wf rf' /\ log rf' = log rf /\
    commitIdx rf' = commitIdx rf /\ currentTerm rf <= currentTerm rf' /\
    (state rf <> LEADER ->
       (state rf' = LEADER <->
          ok = true /\ state rf = CANDIDATE /\ currentTerm rf = rv_Term args /\
          rvr_Term reply <= currentTerm rf /\ rvr_VoteGranted reply = true /\
          peers rf < 2 * (numVotesReceived rf + 1))) /\
    (state rf' = LEADER -> state rf <> LEADER ->
       nextIdx rf' = replicate (Z.to_nat (peers rf)) (len (log rf))).
Proof.
  intros Hwf Hch. unfold sendRequestVote.
  destruct ok; simpl; [ | exists rf; split_and!; try done; naive_solver].
  destruct (negb (currentTerm rf =? rv_Term args) || bool_decide (state rf <> CANDIDATE)) eqn:E1.
  { exists rf. split; [done | ]. split_and!; try done. intros Hn.
    split; [done | ]. intros (_ & Hc & Ht & _). apply orb_true_iff in E1 as [X | X]; zbool; congruence. }
  zbool. assert (Hcand : state rf = CANDIDATE) by (destruct (state rf); naive_solver).
  destruct (currentTerm rf <? rvr_Term reply) eqn:E2; zbool.
  { eexists. split; [reflexivity | ]. split.
    - destruct Hwf. split; simpl; try done; lia.
    - simpl. split_and!; try done; try lia. intros _. split; [done | lia]. }
  destruct (rvr_VoteGranted reply) eqn:E3.
  2:{ exists rf. split_and!; try done; naive_solver. }
  simpl. pose proof (wf_me _ Hwf) as Hme. rewrite Z.quot_div_nonneg by lia.
  assert (Hmaj : (peers rf / 2 <? numVotesReceived rf + 1) = true <-> peers rf < 2 * (numVotesReceived rf + 1)).
  { rewrite Z.ltb_lt. pose proof (Z.div_mod (peers rf) 2). pose proof (Z.mod_pos_bound (peers rf) 2). lia. }
  destruct (peers rf / 2 <? numVotesReceived rf + 1).
  - set (rf1 := set_numVotesReceived (numVotesReceived rf + 1) rf).
    assert (Hwf1 : raft_wf (persist rf1)) by (apply wf_persist; by destruct Hwf).
    destruct (last_entry_wf _ (wf_log _ Hwf1)) as (e & He & _ & Hidx).
    destruct (persist_set rf1) as [ps Eps]. rewrite Eps in *. rewrite He, bind_Ok, Hidx. simpl in *.
    rewrite fill_nextIdx_full by apply Hwf. rewrite bind_Ok. unfold notify_win. simpl.
    apply Z.ltb_lt in Hch. rewrite Hch. eexists. split; [reflexivity | ].
    split. { destruct Hwf. split; simpl; try done. unfold len. rewrite length_replicate. lia. }
    split_and!; try done.
    + intros _. split; [ | done]. intros _. split_and!; try done. by apply Hmaj.
    + intros _ _. simpl. f_equal. lia.
  - eexists. split; [reflexivity | ]. split; [by destruct Hwf | ]. simpl.
    split_and!; try done. intros _. split; [congruence | ].
    intros (_ & _ & _ & _ & _ & X). apply Hmaj in X. done.
Qed.

Section witness_leader.
#[local] Instance all_registered'' : GoRuntime nat := {| registered := fun _ => true; newcap := fun cap _ => (2 * cap)%nat |}.

(** Peer 0 of 3 as a candidate of term 1 with its own vote, and as the leader
    of term 1. *)
Definition example_candidate : Raft nat := set_numVotesReceived 1 (set_state CANDIDATE example_peer).
Definition example_leader : Raft nat := set_nextIdx [1; 1; 1] (set_state LEADER example_peer).

Lemma example_leader_wf : raft_wf example_leader.
Proof. destruct example_peer_wf. by split. Qed.

(** One answer of a follower that took entry 1 is a majority of 3. *)
Lemma sendAppendEntries_spec_witness :
  exists rf', sendAppendEntries example_leader 1
      (MkAppendEntriesArgs 1 0 0 0 [MkLogElement 1 (Some 7%nat) 1] 0) true (MkAppendEntriesResults 1 true 1)
    = Ok rf' /\ commitIdx rf' = 1 /\ raft_wf rf'.
Proof.
  destruct (sendAppendEntries_spec example_leader 1
      (MkAppendEntriesArgs 1 0 0 0 [MkLogElement 1 (Some 7%nat) 1] 0) true (MkAppendEntriesResults 1 true 1)
      example_leader_wf) as (rf' & E & Hwf & _); [vm_compute; intuition congruence | ].
  exists rf'. split; [exact E | ]. split; [ | exact Hwf].
  vm_compute in E. injection E as <-. reflexivity.
Defined.

Lemma sendRequestVote_spec_witness :
  exists rf', sendRequestVote example_candidate (MkRequestVoteArgs 1 0 1 1) true (MkRequestVoteReply 1 true) = Ok rf' /\
    state rf' = LEADER /\ nextIdx rf' = [2; 2; 2].
Proof.
  destruct (sendRequestVote_spec example_candidate (MkRequestVoteArgs 1 0 1 1) true (MkRequestVoteReply 1 true))
    as (rf' & E & _ & _ & _ & _ & Hw & Hn).
  - destruct example_peer_wf. by split.
  - reflexivity.
  - exists rf'. split; [exact E | ].
    assert (Hl : state rf' = LEADER).
    { apply Hw; [done | ]. split_and!; try reflexivity; vm_compute; congruence. }
    split; [exact Hl | ]. rewrite (Hn Hl) by done. reflexivity.
Defined.
End witness_leader.

(** ** Log repair *)
Section repair.
Context {Cmd : Type} `{GoRuntime Cmd}.

(** One undisturbed exchange between a leader and peer [i]: the arguments
    [broadcastHeartbeat] prepares, copied by [sendAppendEntries], handled by
    the follower, and the answer handled by the leader. *)
Definition repair_round (i : Z) (leader follower : Raft Cmd) : outcome (Raft Cmd * Raft Cmd) :=
  base ← index (log leader) 0;
  a ← heartbeat_args leader (le_Index base) i;
  match a with
  | None => Ok (leader, follower)
  | Some (arg, entries) =>
      let args := copy_args leader arg entries in
      '(follower, reply) ← AppendEntries follower args zero_append_reply;
      leader ← sendAppendEntries leader i args true reply;
      Ok (leader, follower)
  end.

Fixpoint repair_rounds (n : nat) (i : Z) (leader follower : Raft Cmd) : outcome (Raft Cmd * Raft Cmd) :=
  match n with
  | O => Ok (leader, follower)
  | S n => '(leader, follower) ← repair_round i leader follower; repair_rounds n i leader follower
  end.

(** Two logs that have the same term at an index agree up to it: the Log
    Matching property of Raft, between two given logs. *)
Definition logs_match (l k : list (LogElement Cmd)) : Prop :=
  forall j e e', l !! j = Some e -> k !! j = Some e' -> le_Term e = le_Term e' -> take (S j) l = take (S j) k.

Lemma note_answer_next (rf : Raft Cmd) server args reply :
  aer_Success reply = false -> 0 <= server < len (nextIdx rf) ->
  index (nextIdx (note_answer rf server args reply)) server = Ok (aer_NextTryIdx reply).
Proof.
  intros Hs Hr. unfold note_answer. rewrite Hs. simpl. apply index_Ok. split; [lia | ].
  apply list_lookup_insert_eq. unfold len in *. lia.
Qed.

(** A round either finishes the repair or lowers [nextIdx], keeping it at
    least 1. *)
Lemma repair_round_step i (leader follower : Raft Cmd) next :
  raft_wf leader -> raft_wf follower -> state leader = LEADER -> 1 <= currentTerm leader ->
  currentTerm follower <= currentTerm leader -> i <> me leader -> 0 <= i < peers leader ->
  cHeartbeat follower < chan_cap -> logs_match (log leader) (log follower) ->
  index (nextIdx leader) i = Ok next -> 1 <= next <= len (log leader) ->
  exists leader' follower', repair_round i leader follower = Ok (leader', follower') /\
    raft_wf leader' /\ raft_wf follower' /\ state leader' = LEADER /\ currentTerm leader' = currentTerm leader /\
    currentTerm follower' = currentTerm leader /\ me leader' = me leader /\ peers leader' = peers leader /\
    log leader' = log leader /\ cHeartbeat follower' = cHeartbeat follower + 1 /\
    (log follower' = log leader \/
     log follower' = log follower /\ exists next', index (nextIdx leader') i = Ok next' /\ 1 <= next' < next).
Proof.
  intros HwfL HwfF Hst Hpos Hle Hi Hir Hhb Hm Hn Hr. unfold repair_round.
  rewrite (base_wf _ (wf_log _ HwfL)), bind_Ok.
  destruct (heartbeat_args_spec leader i next) as (args & sl & Ea & Haw & Ht & _ & Hprev & Hpt & Hes & _); [done.. | ].
  destruct (heartbeat_args_slice leader i args sl (wf_log _ HwfL) Ea) as [_ Hfresh].
  simpl. rewrite Ea, bind_Ok, (copy_fresh _ _ _ Hfresh).
  destruct (AppendEntries_current follower args zero_append_reply)
    as (-> & Hwf1 & Hlog1 & Ht1 & _ & Hhb1 & _); [done | lia | done | ].
  assert (HL : forall reply, aer_Term reply = currentTerm leader -> exists leader',
    sendAppendEntries leader i args true reply = Ok leader' /\ raft_wf leader' /\ state leader' = LEADER /\
    currentTerm leader' = currentTerm leader /\ me leader' = me leader /\ peers leader' = peers leader /\
    log leader' = log leader /\ nextIdx leader' = nextIdx (note_answer leader i args reply)).
  { intros reply Hrt. rewrite sendAppendEntries_current; [ | done | done | | lia].
    2:{ unfold answer_current. rewrite Ht, Z.eqb_refl. by rewrite bool_decide_eq_true_2. }
    pose proof (note_answer_wf leader i args reply HwfL) as Hwf'.
    destruct (note_answer_fields leader i args reply) as (Hlog & Hci & Hterm & Hp & Hst' & Hme).
    rewrite <- Hlog, <- Hci.
    destruct (advance_commit_total (note_answer leader i args reply)) as (l' & -> & [-> | (c & e & -> & Hc & _)]); [done | | ].
    - eexists. split_and!; try done; congruence.
    - eexists. split; [reflexivity | ]. split.
      { apply commit_to_wf; [ | done]. pose proof (wf_commit _ Hwf'). lia. }
      simpl. split_and!; try done; congruence. }
  rewrite <- Hlog1. destruct (log_matches (log (met_leader follower args)) (ae_PrevLogIdx args) (ae_PrevLogTerm args)) eqn:Em.
  - destruct (append_current_match (met_leader follower args) args) as (f' & -> & Hwf' & Ht' & Hl' & _ & Hhb' & _); [done.. | ].
    rewrite bind_Ok. cbv beta iota. destruct (HL (MkAppendEntriesResults (ae_Term args) true (len (ae_Entries args) + ae_PrevLogIdx args)) Ht)
      as (l' & -> & ? & ? & ? & ? & ? & ? & _). rewrite bind_Ok.
    do 2 eexists. split; [reflexivity | ]. split_and!; try done; [congruence | congruence | ].
    left. rewrite Hl', Hlog1, Hes, Hprev. rewrite Hlog1, Hprev in Em.
    unfold log_matches in Em, Hpt. destruct (log follower !! _) as [e'|] eqn:E1; [ | done].
    destruct (log leader !! _) as [e|] eqn:E2; [ | done]. zbool.
    rewrite <- (Hm _ _ _ E2 E1) by congruence. replace (S (Z.to_nat (next - 1))) with (Z.to_nat next) by lia.
    apply take_drop.
  - destruct (append_current_mismatch (met_leader follower args) args) as (n' & -> & Hn' & _); [done.. | ].
    rewrite bind_Ok. cbv beta iota. destruct (HL (MkAppendEntriesResults (ae_Term args) false n') Ht)
      as (l' & -> & ? & ? & ? & ? & ? & ? & Hnext). rewrite bind_Ok.
    do 2 eexists. split; [reflexivity | ]. split_and!; try done; [congruence | ].
    right. split; [congruence | ]. exists n'. rewrite Hnext, note_answer_next; [ | done | ].
    + split; [done | ]. lia.
    + rewrite (wf_next_len _ HwfL). lia.
Qed.

(** C7: log repair terminates and succeeds.  A leader and a well-formed
    follower that is not ahead of it and whose log satisfies Log Matching with
    the leader's reach, by at most [nextIdx] undisturbed rounds of
    [broadcastHeartbeat] / [AppendEntries] / [sendAppendEntries], a state in
    which the follower's log is the leader's, whatever the follower's log
    held before; no round panics or blocks and the leader's log never
    changes. *)
Theorem replication_converges i (leader follower : Raft Cmd) next :
  raft_wf leader -> raft_wf follower -> state leader = LEADER -> 1 <= currentTerm leader ->
  currentTerm follower <= currentTerm leader -> i <> me leader -> 0 <= i < peers leader ->
  logs_match (log leader) (log follower) ->
  index (nextIdx leader) i = Ok next -> 1 <= next <= len (log leader) ->
  cHeartbeat follower + next <= chan_cap ->
  exists n leader' follower', (n <= Z.to_nat next)%nat /\
    repair_rounds n i leader follower = Ok (leader', follower') /\
    state leader' = LEADER /\ log leader' = log leader /\ log follower' = log leader.
Proof.
  remember (Z.to_nat next) as k eqn:Ek. revert next Ek leader follower.
  induction (lt_wf k) as [k _ IH]. intros next -> leader follower HwfL HwfF Hst Hpos Hle Hi Hir Hm Hn Hr Hhb.
  destruct (repair_round_step i leader follower next) as (l1 & f1 & E1 & Hl1 & Hf1 & Hs1 & Ht1 & Htf & Hme & Hp & Hlog & Hh & Hx);
    try done; [lia | ].
  destruct Hx as [Hdone | (Hlf & next' & Hn' & Hr')].
  - exists 1%nat, l1, f1. split; [lia | ]. simpl. rewrite E1. simpl. split_and!; try done.
  - destruct (IH (Z.to_nat next') ltac:(lia) next' eq_refl l1 f1) as (n & l2 & f2 & Hle2 & E2 & ? & Hl2 & Hf2);
      try congruence; try lia.
    { rewrite Hlog, Hlf. done. }
    { rewrite Hlog. lia. }
    exists (S n), l2, f2. split; [lia | ]. simpl. rewrite E1. simpl. rewrite E2. split_and!; congruence.
Qed.
End repair.

Section witness_repair.
#[local] Instance all_registered3 : GoRuntime nat := {| registered := fun _ => true; newcap := fun cap _ => (2 * cap)%nat |}.

(** A leader of term 3 with three entries and a follower with two other
    entries of term 1. *)
Definition repair_leader : Raft nat :=
  set_nextIdx [4; 4; 4] (set_state LEADER (set_currentTerm 3 (set_log
    [MkLogElement 0 None 0; MkLogElement 2 (Some 1%nat) 1; MkLogElement 3 (Some 2%nat) 2; MkLogElement 3 (Some 3%nat) 3]
    (Make 3 0 MakePersister)))).
Definition repair_follower : Raft nat :=
  set_currentTerm 1 (set_log
    [MkLogElement 0 None 0; MkLogElement 1 (Some 8%nat) 1; MkLogElement 1 (Some 9%nat) 2] (Make 3 1 MakePersister)).

Lemma replication_converges_witness :
  exists n leader' follower', (n <= 4)%nat /\
    repair_rounds n 1 repair_leader repair_follower = Ok (leader', follower') /\
    log follower' = log repair_leader.
Proof.
  destruct (replication_converges 1 repair_leader repair_follower 4) as (n & l & f & Hn & E & _ & _ & Hf);
    try reflexivity; try (vm_compute; intuition congruence).
  - split; [ | vm_compute; intuition congruence ..]. split; [done | ..].
    + intros [|[|[|[|k]]]] e Hk; simplify_eq/=; done.
    + intros [|[|[|k]]] e Hk; simplify_eq/=; lia.
  - split; [ | vm_compute; intuition congruence ..]. split; [done | ..].
    + intros [|[|[|k]]] e Hk; simplify_eq/=; done.
    + intros [|[|k]] e Hk; simplify_eq/=; lia.
  - intros [|[|[|j]]] e e' H1 H2; simplify_eq/=; done.
  - exists n, l, f. split; [exact Hn | ]. split; [exact E | exact Hf].
Defined.
End witness_repair.

(** ** Persistence *)


(** A vote does not survive a crash.  Peer 0 of 3 grants its vote for
    term 1 to candidate 1, crashes, is rebuilt by [Make] from its persister,
    and grants its vote for term 1 to candidate 2: [RequestVote] does not
    persist the vote it grants, and [Make] overwrites the vote it has read. *)
Theorem vote_lost_in_restart (Cmd : Type) `{GoRuntime Cmd} :
  let rf0 : Raft Cmd := Make 3 0 MakePersister in
  exists rf1 rf2,
    RequestVote rf0 (MkRequestVoteArgs 1 1 0 0) (MkRequestVoteReply 0 false)
      = Ok (rf1, MkRequestVoteReply 1 true) /\
    RequestVote (Make 3 0 (Copy (persister rf1))) (MkRequestVoteArgs 1 2 0 0) (MkRequestVoteReply 0 false)
      = Ok (rf2, MkRequestVoteReply 1 true).
Proof. do 2 eexists. split; lazy; reflexivity. Qed.
