(* ===== verification/RaftSafe.v ===== *)
(** * No critical section of a Raft cluster panics

    The bounds behind every access of [lab3/raft/raft.go] to a log or to an
    index array: well-formed peers, messages that fit the logs they were cut
    from, and leaders whose [nextIdx] stay within their logs.  The one access
    they do not cover is that of the goroutine that applies entries, and a run
    shows that it does panic. *)
From S2P Require Import Prelude Persister RaftServer RaftServerFacts RaftCluster RaftElection RaftMemory.

Local Open Scope Z_scope.

(** ** Computations that do not panic

    [safe m Q]: [m] does not panic, and what it returns satisfies [Q]; it may
    block. *)
Definition safe {A} (m : outcome A) (Q : A -> Prop) : Prop :=
  match m with Ok a => Q a | Panic => False | Block => True end.

Section safe.
Context {A B : Type}.

Lemma safe_bind (m : outcome A) (f : A -> outcome B) (Q : B -> Prop) :
  safe m (fun a => safe (f a) Q) -> safe (m ≫= f) Q.
Proof. by destruct m. Qed.

Lemma safe_mono (m : outcome A) (P Q : A -> Prop) : safe m P -> (forall a, P a -> Q a) -> safe m Q.
Proof. destruct m; simpl; auto. Qed.

Lemma safe_and (m : outcome A) (P Q : A -> Prop) : safe m P -> (forall a, m = Ok a -> Q a) -> safe m (fun a => P a /\ Q a).
Proof. destruct m; simpl; auto. Qed.

Lemma safe_index (l : list A) i (Q : A -> Prop) :
  0 <= i < len l -> (forall a, l !! Z.to_nat i = Some a -> Q a) -> safe (index l i) Q.
Proof. intros Hi HQ. destruct (index_total l i Hi) as [a E]. rewrite E. apply HQ. by apply index_Ok in E as [_ E]. Qed.
End safe.

(** ** The functions of a peer *)
Section peer.
Context {Cmd : Type} `{GoRuntime Cmd}.
Implicit Types rf : Raft Cmd.

Lemma safe_last_entry rf (Q : LogElement Cmd -> Prop) :
  raft_wf rf -> (forall e, le_Index e = len (log rf) - 1 -> Q e) -> safe (last_entry rf) Q.
Proof.
  intros Hwf HQ. destruct (last_entry_wf rf (wf_log _ Hwf)) as (e & -> & _ & He). by apply HQ.
Qed.

(** Every [nextIdx] is within the log, or one past it. *)
Definition next_bounded rf : Prop := Forall (fun m => m <= len (log rf)) (nextIdx rf).

(** A well-formed peer that, when it leads, has a term and bounded indices. *)
Record peer_ok rf : Prop := PeerOk {
  po_wf : raft_wf rf;
  po_leader : state rf = LEADER -> 1 <= currentTerm rf /\ next_bounded rf
}.

(** A step that keeps the log and the indices of a leader. *)
Lemma peer_ok_neutral rf rf' :
  peer_ok rf -> raft_wf rf' -> log_neutral rf rf' -> nextIdx rf' = nextIdx rf -> peer_ok rf'.
Proof.
  intros [Hwf Hl] Hwf' [[Hlog _] _ Hlead] Hnext. split; [done |]. intros [Hs Ht]%Hlead.
  destruct (Hl Hs) as [Hone Hb]. split; [lia |]. unfold next_bounded. by rewrite Hnext, Hlog.
Qed.

Lemma persist_next rf : nextIdx (persist rf) = nextIdx rf.
Proof. by destruct (persist_set rf) as [ps ->]. Qed.

Lemma step_down_next t rf : nextIdx (step_down t rf) = nextIdx rf.
Proof. unfold step_down. by branch. Qed.

Lemma safe_vote_args rf : raft_wf rf -> safe (vote_args rf) (fun a => rv_Term a = currentTerm rf).
Proof. intros Hwf. apply safe_bind, safe_last_entry; done. Qed.

Lemma set_vote_wf v rf : raft_wf rf -> raft_wf (set_votedFor v rf).
Proof. by intros []. Qed.

Lemma set_state_wf r rf : raft_wf rf -> raft_wf (set_state r rf).
Proof. by intros []. Qed.

Lemma safe_notify_heartbeat rf (Q : Raft Cmd -> Prop) :
  Q (set_cHeartbeat (cHeartbeat rf + 1) rf) -> safe (notify_heartbeat rf) Q.
Proof. unfold notify_heartbeat. by branch. Qed.

Lemma safe_notify_win rf (Q : Raft Cmd -> Prop) :
  Q (set_cWinElection (cWinElection rf + 1) rf) -> safe (notify_win rf) Q.
Proof. unfold notify_win. by branch. Qed.

Lemma safe_RequestVote rf args reply0 : peer_ok rf -> safe (RequestVote rf args reply0) (fun r => peer_ok r.1).
Proof.
  intros Hok. pose proof (po_wf _ Hok) as Hwf.
  assert (Hsafe : safe (RequestVote rf args reply0) (fun r => raft_wf r.1 /\ nextIdx r.1 = nextIdx rf)).
  { unfold RequestVote. branch; [done |]. pose proof (step_down_wf (rv_Term args) rf Hwf) as Hwf1.
    apply safe_bind, safe_last_entry; [done |]. intros e _. branch.
    - apply safe_bind, safe_notify_heartbeat. simpl.
      split; [by apply set_heartbeat_wf, set_vote_wf | apply step_down_next].
    - split; [done | apply step_down_next]. }
  eapply safe_mono; [eapply (safe_and _ _ (fun r => log_neutral rf r.1)); [exact Hsafe |] |].
  - intros [rf' reply] E. by eapply RequestVote_log.
  - intros [rf' reply] [[Hwf' Hn] Hl]. by eapply peer_ok_neutral.
Qed.

(** Counting a vote: the peer stays as it was, or wins and points every
    [nextIdx] one past its log. *)
Lemma safe_sendRequestVote rf args reply :
  peer_ok rf -> 1 <= rv_Term args -> safe (sendRequestVote rf args true reply) peer_ok.
Proof.
  intros Hok Ht. pose proof (po_wf _ Hok) as Hwf. pose proof (wf_me _ Hwf).
  unfold sendRequestVote. simpl. destruct (_ || _) eqn:E1; [done |]. zbool.
  assert (Hc : state rf = CANDIDATE) by (destruct (state rf); naive_solver).
  branch.
  { simpl. split; [| done]. destruct Hwf. split; simpl; try done; lia. }
  branch; [| done]. set (rf1 := set_numVotesReceived (numVotesReceived rf + 1) rf).
  assert (Hwf1 : raft_wf rf1) by by destruct Hwf.
  branch; [| simpl; split; [done |]; simpl; by rewrite Hc].
  assert (Hwf2 : raft_wf (persist rf1)) by by apply wf_persist.
  apply safe_bind, safe_last_entry; [done |]. intros lst Hlst. rewrite persist_log in Hlst.
  destruct (persist_set rf1) as [ps Eps]. rewrite Eps in *. unfold rf1 in *. simpl in *.
  rewrite fill_nextIdx_full by apply Hwf. simpl. apply safe_notify_win. split.
  - destruct Hwf. split; simpl; try done. unfold len. rewrite length_replicate. lia.
  - intros _. simpl. split; [lia |]. apply Forall_replicate. simpl. lia.
Qed.
(** [AppendEntries], and what its answer may ask the sender for. *)
Definition answer_ok (args : AppendEntriesArgs Cmd) (reply : AppendEntriesResults) : Prop :=
  ae_Term args < aer_Term reply \/ aer_Success reply = true \/ aer_NextTryIdx reply <= ae_PrevLogIdx args.

Lemma append_current_next rf args reply0 last base rf' reply :
  append_current rf args reply0 last base = Ok (rf', reply) -> nextIdx rf' = nextIdx rf.
Proof.
  unfold append_current. intros E. branch; [by simplify_eq |]. inv_bind. destruct x as [term |].
  - inv_bind. destruct x; simplify_eq; [done | apply persist_next].
  - branch; [| simplify_eq; apply persist_next]. inv_bind.
    branch; inv_bind; simplify_eq; by rewrite persist_next.
Qed.

Lemma AppendEntries_next rf args reply0 rf' reply :
  AppendEntries rf args reply0 = Ok (rf', reply) -> nextIdx rf' = nextIdx rf.
Proof.
  unfold AppendEntries. intros E. inv_bind. branch; [by simplify_eq |]. inv_bind.
  apply append_current_next in E. rewrite E. unfold notify_heartbeat in *. branch; [| done].
  simplify_eq. apply step_down_next.
Qed.

Lemma safe_AppendEntries rf args :
  raft_wf rf -> append_wf args ->
  safe (AppendEntries rf args zero_append_reply) (fun r => raft_wf r.1 /\ answer_ok args r.2).
Proof.
  intros Hwf Haw. pose proof (wf_log _ Hwf) as Hl. destruct (last_entry_wf _ Hl) as (lst & Hlst & _ & Hidx).
  destruct (decide (ae_Term args < currentTerm rf)) as [Ht | Ht].
  { unfold AppendEntries. rewrite Hlst, (base_wf _ Hl). simpl.
    apply Z.ltb_lt in Ht as Hb. rewrite Hb. simpl. split; [done | left; simpl; lia]. }
  destruct (decide (cHeartbeat rf < chan_cap)) as [Hh | Hh].
  - destruct (AppendEntries_current rf args zero_append_reply) as (-> & Hwf1 & Hlog & Ht1 & _); [done | lia | done |].
    set (rf1 := met_leader rf args) in *. rewrite <- Hlog. destruct (log_matches (log rf1) (ae_PrevLogIdx args) (ae_PrevLogTerm args)) eqn:Em.
    + destruct (append_current_match rf1 args) as (rf' & -> & Hwf' & _); try done. simpl. split; [done | by right; left].
    + destruct (append_current_mismatch rf1 args) as (next & -> & Hnext & _); try done. simpl.
      split; [done | right; right; simpl; lia].
  - unfold AppendEntries. rewrite Hlst, (base_wf _ Hl). simpl. branch; [lia |].
    unfold notify_heartbeat. rewrite step_down_heartbeat. branch; [lia | done].
Qed.

(** [sendAppendEntries]: the indices a current answer sets are within the log. *)
Lemma note_answer_bounded rf server args reply :
  append_wf args -> next_bounded rf -> (reach args <= length (log rf))%nat ->
  aer_Success reply = true \/ aer_NextTryIdx reply <= ae_PrevLogIdx args ->
  next_bounded (note_answer rf server args reply).
Proof.
  intros Haw Hb Hreach Hr. unfold next_bounded, note_answer, reach in *. pose proof (aw_prev _ Haw).
  destruct (aer_Success reply).
  - destruct (last (ae_Entries args)) as [x |] eqn:Ex; [| done]. simpl. apply Forall_insert; [done |].
    rewrite last_lookup in Ex. pose proof (lookup_lt_Some _ _ _ Ex). apply (aw_index _ Haw) in Ex. unfold len. lia.
  - destruct Hr as [? | Hr]; [done |]. simpl. apply Forall_insert; [done |]. unfold len. lia.
Qed.

Lemma safe_sendAppendEntries rf server args ok reply :
  peer_ok rf -> 0 <= server < peers rf ->
  append_wf args ->
  (answer_current rf args ok = true -> (reach args <= length (log rf))%nat /\ answer_ok args reply) ->
  safe (sendAppendEntries rf server args ok reply) peer_ok.
Proof.
  intros Hok Hs Haw Hseg. pose proof (po_wf _ Hok) as Hwf. destruct (answer_current rf args ok) eqn:Ec.
  2: { unfold sendAppendEntries. rewrite (base_wf _ (wf_log _ Hwf)). simpl.
       replace (negb ok || _ || _) with true; [done |]. symmetry. unfold answer_current in Ec.
       destruct ok; simpl in *; [| done]. destruct (currentTerm rf =? ae_Term args); simpl in *; [| done].
       by rewrite bool_decide_not, Ec. }
  destruct (Hseg eq_refl) as [Hsg Ha]. pose proof Ec as Ec'. unfold answer_current in Ec'. zbool. subst ok.
  destruct (decide (currentTerm rf < aer_Term reply)) as [Ht | Ht].
  - unfold sendAppendEntries. rewrite (base_wf _ (wf_log _ Hwf)). simpl.
    replace (currentTerm rf =? ae_Term args) with true by (symmetry; by apply Z.eqb_eq).
    rewrite bool_decide_eq_false_2 by (intros X; by apply X). simpl. apply Z.ltb_lt in Ht as Hb. rewrite Hb. simpl.
    split.
    + apply wf_persist. destruct Hwf. split; simpl; try done; lia.
    + destruct (persist_set (set_state FOLLOWER (set_currentTerm (aer_Term reply) (set_votedFor (-1) rf)))) as [ps ->]. done.
  - destruct (po_leader _ Hok) as [Hone Hb]; [done |].
    rewrite sendAppendEntries_current by (done || lia).
    pose proof (note_answer_wf rf server args reply Hwf) as Hwf'.
    destruct (note_answer_fields rf server args reply) as (Hlog & Hci & Hterm & _ & Hst & _).
    assert (Hnb : next_bounded (note_answer rf server args reply)).
    { apply note_answer_bounded; try done. destruct Ha as [Ha | Ha]; [lia | exact Ha]. }
    set (rf1 := note_answer rf server args reply) in *. rewrite <- Hlog, <- Hci.
    destruct (advance_commit_total rf1) as (rf' & -> & [-> | (i & e & -> & Hi & _)]); [done | |]; simpl.
    + split; [done |]. intros _. split; [lia | done].
    + split; [apply commit_to_wf; [| done]; pose proof (wf_commit _ Hwf'); lia |]. intros _. simpl. split; [lia | exact Hnb].
Qed.
(** What a leader prepares for another peer. *)
Definition prepared rf (i : Z) (a : AppendEntriesArgs Cmd) (sl : slice) : Prop :=
  state rf = LEADER /\ i <> me rf /\ append_wf a /\ ae_Term a = currentTerm rf /\ slice_ok rf a sl /\ slice_fresh rf a sl.

Lemma safe_heartbeat_args rf i :
  peer_ok rf -> 0 <= i < peers rf ->
  safe (heartbeat_args rf 0 i) (fun r => forall a sl, r = Some (a, sl) -> prepared rf i a sl).
Proof.
  intros Hok Hi. pose proof (po_wf _ Hok) as Hwf.
  destruct (bool_decide (state rf = LEADER) && negb (i =? me rf)) eqn:El.
  2: { unfold heartbeat_args. rewrite El. done. }
  zbool. destruct (po_leader _ Hok) as [Hone Hb]; [done |].
  destruct (index_total (nextIdx rf) i) as [next Hn]; [rewrite (wf_next_len _ Hwf); lia |].
  destruct (decide (next <= 0)) as [Hz | Hz].
  - unfold heartbeat_args. destruct (_ && _); [| done]. rewrite Hn. simpl. apply Z.leb_le in Hz. by rewrite Hz.
  - assert (Hle : next <= len (log rf)).
    { apply index_Ok in Hn as [_ Hn]. by eapply Forall_lookup_1 in Hb. }
    destruct (heartbeat_args_spec rf i next) as (a & sl & E & Haw & Ht & _); try done; [lia |].
    destruct (heartbeat_args_slice rf i a sl) as [Hs Hf]; [apply Hwf | done |]. rewrite E. by intros a' sl' [= <- <-].
Qed.

Lemma safe_broadcast_to rf m :
  peer_ok rf -> Z.of_nat m <= peers rf ->
  safe (broadcast_to m rf 0) (fun sent => Forall (fun x => 0 <= x.1 < peers rf /\ prepared rf x.1 x.2.1 x.2.2) sent).
Proof.
  intros Hok. induction m as [| m IH]; intros Hm; [constructor |]. cbn [broadcast_to].
  apply safe_bind. eapply safe_mono; [apply IH; lia |]. intros sent Hsent.
  apply safe_bind. eapply safe_mono; [apply safe_heartbeat_args; [done | lia] |]. intros [[a sl] |] Ha; simpl.
  - apply Forall_app. split; [done |]. apply Forall_singleton. simpl. split; [lia | by apply Ha].
  - by rewrite app_nil_r.
Qed.

Lemma safe_broadcastHeartbeat rf :
  peer_ok rf ->
  safe (broadcastHeartbeat rf) (fun sent => Forall (fun x => 0 <= x.1 < peers rf /\ prepared rf x.1 x.2.1 x.2.2) sent).
Proof.
  intros Hok. unfold broadcastHeartbeat. rewrite (base_wf _ (wf_log _ (po_wf _ Hok))). simpl.
  apply safe_broadcast_to; [done |]. pose proof (wf_me _ (po_wf _ Hok)). lia.
Qed.

Lemma safe_Start rf command : peer_ok rf -> safe (Start rf command) (fun r => peer_ok r.1).
Proof.
  intros Hok. pose proof (po_wf _ Hok) as Hwf. unfold Start. branch; [| done].
  destruct (po_leader _ Hok) as [Hone Hb]; [done |].
  apply safe_bind, safe_last_entry; [done |]. intros lst Hlst. simpl.
  set (x := MkLogElement (currentTerm rf) command (le_Index lst + 1)).
  assert (Hwf' : raft_wf (append_log [x] rf)).
  { apply append_raft_wf; [| done]. apply log_wf_app; [apply Hwf |]. intros k e [-> <-]%list_lookup_singleton_Some. simpl. lia. }
  split; [by apply wf_persist |]. intros _. rewrite persist_term. split; [simpl; lia |].
  unfold next_bounded. rewrite persist_next, persist_log. simpl. eapply Forall_impl; [exact Hb |].
  intros m Hm. simpl in *. rewrite len_app. unfold len at 2. simpl. lia.
Qed.

Lemma safe_ticker rf pc ev : peer_ok rf -> safe (ticker rf pc ev) (fun r => peer_ok r.1.1).
Proof.
  intros Hok. pose proof (po_wf _ Hok) as Hwf.
  assert (Hsafe : safe (ticker rf pc ev) (fun r => raft_wf r.1.1 /\ nextIdx r.1.1 = nextIdx rf)).
  { assert (Hf : forall m, raft_wf (set_state FOLLOWER (set_cHeartbeat m rf)))
      by (intros m; by apply set_state_wf, set_heartbeat_wf).
    assert (Hw : raft_wf (persist (set_state CANDIDATE rf))) by by apply wf_persist, set_state_wf.
    assert (Hp : raft_wf (persist rf)) by by apply wf_persist.
    assert (He : raft_wf (start_election rf)).
    { unfold start_election. apply wf_persist. destruct Hwf. split; simpl; try done; lia. }
    unfold ticker. destruct pc, ev; repeat (branch || case_match); simpl; try done;
      try (split; [by apply set_state_wf | done]); try (split; [by apply set_heartbeat_wf | done]);
      try (split; [done | apply persist_next]).
    all: split; [by destruct Hwf | unfold start_election; by rewrite ?persist_next]. }
  eapply safe_mono; [eapply (safe_and _ _ (fun r => log_neutral rf r.1.1)); [exact Hsafe |] |].
  - intros [[rf' pc'] g] E. by eapply ticker_log.
  - intros [[rf' pc'] g] [[Hwf' Hn] Hl]. by eapply peer_ok_neutral.
Qed.

(** Applying entries is safe while the log reaches the commit index. *)
Lemma safe_apply_from m i (l : list (LogElement Cmd)) :
  log_wf l -> 0 <= i -> i + Z.of_nat m <= len l -> safe (apply_from m i l) (fun _ => True).
Proof.
  intros Hl. revert i. induction m as [| m IH]; intros i Hi Hm; [done |]. cbn [apply_from].
  apply safe_bind, safe_index; [pose proof (log_wf_len _ Hl); lia |]. intros b Hb.
  change (Z.to_nat 0) with 0%nat in Hb. rewrite (lw_base _ Hl) in Hb. simplify_eq. simpl.
  apply safe_bind, safe_index; [lia |]. intros e _.
  apply safe_bind. eapply safe_mono; [apply IH; lia |]. done.
Qed.

Lemma applyCommitted_ok rf rf' m : peer_ok rf -> applyCommitted rf = Ok rf' -> peer_ok (set_appliers m rf').
Proof.
  intros [[] Hl] E. unfold applyCommitted in E. inv_bind. simplify_eq. split; [by split | exact Hl].
Qed.

Lemma safe_applyCommitted rf m :
  peer_ok rf -> commitIdx rf < len (log rf) -> safe (applyCommitted rf) (fun rf' => peer_ok (set_appliers m rf')).
Proof.
  intros Hok Hc. pose proof (po_wf _ Hok) as Hwf. pose proof (wf_applied _ Hwf).
  eapply safe_mono; [apply (safe_and _ (fun _ => True) (fun rf' => peer_ok (set_appliers m rf'))) |].
  - unfold applyCommitted. apply safe_bind, (safe_mono _ (fun _ => True)); [| done].
    destruct (decide (commitIdx rf <= appliedLast rf)) as [Hle | Hgt].
    + by replace (Z.to_nat (commitIdx rf - appliedLast rf)) with O by lia.
    + eapply safe_apply_from; [apply Hwf | lia | lia].
  - intros rf' E. by eapply applyCommitted_ok.
  - by intros rf' [_ Hr].
Qed.
End peer.

(** ** The cluster *)
Section cluster.
Context {Cmd : Type} `{GoRuntime Cmd} (n : nat).
Implicit Types (rf : Raft Cmd) (s : cluster Cmd) (p : packet Cmd) (V : list vote) (ns : list (Raft Cmd)).

(** A message, still a goroutine or on its way, is from a peer elected in its
    term to another one, and as long as the sender is in that term its log reaches
    as far as the message does. *)
Definition sent_fits V ns (i j : nat) (a : AppendEntriesArgs Cmd) : Prop :=
  i <> j /\ (i < n)%nat /\ (j < n)%nat /\ append_wf a /\ elected n V (ae_Term a) i /\
  exists rf, ns !! i = Some rf /\ ae_Term a <= currentTerm rf /\
    (currentTerm rf = ae_Term a -> (reach a <= length (log rf))%nat).

(** The slice a goroutine was given: elements of the sender's log of some time,
    and in the message's term still those it was given. *)
Definition slice_fits ns (i : nat) (a : AppendEntriesArgs Cmd) (sl : slice) : Prop :=
  exists rf, ns !! i = Some rf /\ slice_ok rf a sl /\ (currentTerm rf = ae_Term a -> slice_fresh rf a sl).

(** Goroutines and messages name peers that exist, requests for votes are of a
    positive term, and the rest fits the logs it comes from. *)
Definition fits V ns p : Prop :=
  match p with
  | VoteGo i t => (i < n)%nat /\ 1 <= t
  | VoteRequest i j args | VoteReply i j args _ => (i < n)%nat /\ (j < n)%nat /\ 1 <= rv_Term args
  | BroadcastGo i => (i < n)%nat
  | AppendGo i j a sl => sent_fits V ns i j a /\ slice_fits ns i a sl
  | AppendRequest i j a => sent_fits V ns i j a
  | AppendReply i j a reply => sent_fits V ns i j a /\ answer_ok a reply
  end.

Record SafeInv V s : Prop := {
  si_node : forall i rf, nodes s !! i = Some rf -> peer_ok rf;
  si_tickers : length (tickers s) = n;
  si_net : Forall (fits V (nodes s)) (net s)
}.

Lemma fits_votes V V' ns p : (forall x, x ∈ V -> x ∈ V') -> fits V ns p -> fits V' ns p.
Proof.
  intros HV. assert (Hs : forall i j a, sent_fits V ns i j a -> sent_fits V' ns i j a).
  { intros i j a (Hij & Hi & Hj & Haw & He & Hr). split_and!; try done. by eapply elected_mono. }
  destruct p; simpl; intuition.
Qed.

Lemma SafeInv_votes V V' s : (forall x, x ∈ V -> x ∈ V') -> SafeInv V s -> SafeInv V' s.
Proof. intros HV [Hn Ht Hs]. split; [done.. |]. eapply Forall_impl; [exact Hs |]. intros p. by apply fits_votes. Qed.

(** A step of peer [i]: the memory of its log stays, or the log gets longer, or
    a peer that is not the leader of its term overwrites it. *)
Definition moved V (i : nat) rf rf' : Prop :=
  currentTerm rf <= currentTerm rf' /\
  (same_memory rf rf' \/
   (exists es, numbered (length (log rf)) es /\ appended es rf rf') \/
   (~ elected n V (currentTerm rf') i /\
    exists q es, (S q <= length (log rf))%nat /\ numbered (S q) es /\ overwritten q es rf rf')).

Lemma moved_neutral V i rf rf' : log_neutral rf rf' -> moved V i rf rf'.
Proof. intros []. split; [done | by left]. Qed.

Lemma sent_fits_moved V ns i rf rf' i0 j a :
  ns !! i = Some rf -> moved V i rf rf' -> sent_fits V ns i0 j a -> sent_fits V (<[i := rf']> ns) i0 j a.
Proof.
  intros Hi [Ht Hm] (Hij & Hi0 & Hj & Haw & He & r & Hr & Hle & Hreach). split_and!; try done.
  destruct (decide (i = i0)) as [-> | Hne]; [| exists r; by rewrite list_lookup_insert_ne].
  exists rf'. rewrite list_lookup_insert_eq by (by eapply lookup_lt_Some). assert (r = rf) by congruence. subst r.
  split; [done |]. split; [lia |]. intros Heq. specialize (Hreach ltac:(lia)).
  destruct Hm as [[-> _] | [(es & _ & [-> _]) | (Hno & _)]]; [done | | by rewrite Heq in Hno].
  change (log (append_log es rf)) with (log rf ++ es). rewrite length_app. lia.
Qed.

Lemma slice_fits_moved V ns i rf rf' i0 a sl :
  ns !! i = Some rf -> moved V i rf rf' -> elected n V (ae_Term a) i0 -> (exists r, ns !! i0 = Some r /\ ae_Term a <= currentTerm r) ->
  slice_fits ns i0 a sl -> slice_fits (<[i := rf']> ns) i0 a sl.
Proof.
  intros Hi [Ht Hm] He (r' & Hr' & Hle) (r & Hr & Hok & Hfresh).
  destruct (decide (i = i0)) as [-> | Hne]; [| exists r; by rewrite list_lookup_insert_ne].
  exists rf'. rewrite list_lookup_insert_eq by (by eapply lookup_lt_Some).
  assert (r = rf) by congruence. assert (r' = rf) by congruence. subst r r'. split; [done |].
  destruct Hm as [Hm | [(es & Hes & Hm) | (Hno & q & es & Hp & Hes & Hm)]].
  - split; [by apply (slice_ok_same rf) |]. intros Heq. apply (slice_fresh_same rf); [done | apply Hfresh; lia].
  - split; [apply (slice_ok_same (append_log es rf)); [exact Hm | by apply slice_ok_append] |].
    intros Heq. apply (slice_fresh_same (append_log es rf)); [exact Hm |]. apply slice_fresh_append, Hfresh. lia.
  - split; [by apply (slice_ok_overwritten q es rf) |]. intros Heq. by rewrite Heq in Hno.
Qed.

Lemma fits_moved V ns i rf rf' p : ns !! i = Some rf -> moved V i rf rf' -> fits V ns p -> fits V (<[i := rf']> ns) p.
Proof.
  intros Hi Hm. destruct p as [| | | | i0 j a sl | i0 j a | i0 j a reply]; simpl; try done.
  - intros [Hs Hf]. split; [by eapply sent_fits_moved |]. destruct Hs as (_ & _ & _ & _ & He & r & Hr & Hle & _).
    apply (slice_fits_moved V ns i rf); [done | done | done | by exists r | done].
  - by apply (sent_fits_moved V ns i rf).
  - intros [Hs Hans]. split; [by apply (sent_fits_moved V ns i rf) | done].
Qed.

Lemma Start_moved V i rf command rf' res :
  peer_ok rf -> Start rf command = Ok (rf', res) -> moved V i rf rf'.
Proof.
  intros Hok E. apply neutral_Start in E as Hn. apply Start_log in E as [-> | (Hl & x & Ht & Hm & e & He & Hx)].
  { apply moved_neutral, log_neutral_refl. }
  split; [apply Hn | right; left]. exists [x]. split; [| done].
  destruct (last_entry_wf rf (wf_log _ (po_wf _ Hok))) as (e' & He' & _ & Hidx). rewrite He in He'. injection He' as <-.
  intros k y [-> <-]%list_lookup_singleton_Some. destruct (po_leader _ Hok Hl) as [Hone _].
  pose proof (log_wf_len _ (wf_log _ (po_wf _ Hok))). unfold len in *. lia.
Qed.

(** The peer an action is about exists. *)
Definition in_cluster (a : action Cmd) : Prop :=
  match a with Tick i _ | ClientStart i _ | Apply i | Restart i => (i < n)%nat | Deliver _ | Drop _ => True end.

(** The goroutine that applies entries goes on past the end of the log. *)
Definition apply_beyond_log (a : action Cmd) s : Prop :=
  exists i rf, a = Apply i /\ nodes s !! i = Some rf /\ len (log rf) <= commitIdx rf.

Section step.
Context (V : list vote) (e : nat -> Z) (W : nat -> list nat) (s : cluster Cmd).
Hypothesis HI : Inv n V e W s.
Hypothesis HS : SafeInv V s.

Lemma safe_node s' i (Q : Raft Cmd -> Prop) :
  nodes s' = nodes s -> (i < n)%nat ->
  (forall rf, nodes s !! i = Some rf -> peer_ok rf -> peers rf = Z.of_nat n -> Q rf) -> safe (node s' i) Q.
Proof.
  intros Es Hi HQ. unfold node. rewrite Es. apply safe_index.
  - unfold len. rewrite (inv_len _ _ _ _ _ HI). lia.
  - intros rf. rewrite Nat2Z.id. intros Hrf. apply HQ; [done | by eapply si_node |].
    by eapply no_peers, inv_node.
Qed.

(** A step of peer [i], after which packets [ps] are left, and [qs] are new. *)
Lemma keep_node i rf rf' pcs ps qs :
  nodes s !! i = Some rf -> moved V i rf rf' -> length pcs = n -> peer_ok rf' ->
  Forall (fits V (nodes s)) ps -> Forall (fits V (<[i := rf']> (nodes s))) qs ->
  SafeInv V (Cluster (<[i := rf']> (nodes s)) pcs (ps ++ qs)).
Proof.
  intros Hi Hm Hpcs Hrf Hps Hqs. split; simpl; [| done |].
  - intros j rj. destruct (decide (i = j)) as [<- | Hne].
    + rewrite list_lookup_insert_eq by (by eapply lookup_lt_Some). by intros [= <-].
    + rewrite list_lookup_insert_ne by done. by eapply si_node.
  - apply Forall_app. split; [| done]. eapply Forall_impl; [exact Hps |]. intros p. by apply (fits_moved V _ _ rf).
Qed.

Lemma keep_node' i rf rf' pcs ps :
  nodes s !! i = Some rf -> moved V i rf rf' -> length pcs = n -> peer_ok rf' ->
  Forall (fits V (nodes s)) ps -> SafeInv V (Cluster (<[i := rf']> (nodes s)) pcs ps).
Proof. intros. rewrite <- (app_nil_r ps). by apply (keep_node i rf). Qed.

Lemma keep_net ps : Forall (fits V (nodes s)) ps -> SafeInv V (set_net ps s).
Proof. intros Hps. destruct HS. by split. Qed.

Lemma numbered_entries (a : AppendEntriesArgs Cmd) (p : nat) :
  append_wf a -> ae_PrevLogIdx a = Z.of_nat p -> numbered (S p) (ae_Entries a).
Proof. intros Haw Hp k x Hx. split; [apply (aw_index _ Haw) in Hx; lia | by eapply aw_entry]. Qed.

(** A peer that accepts an [AppendEntries] is not the leader of its term: a
    peer is sent nothing by itself. *)
Lemma AppendEntries_moved i j rf a rf' reply :
  sent_fits V (nodes s) i j a -> nodes s !! j = Some rf -> peer_ok rf ->
  AppendEntries rf a zero_append_reply = Ok (rf', reply) -> raft_wf rf' -> moved V j rf rf' /\ peer_ok rf'.
Proof.
  intros (Hij & _ & _ & Haw & He & _) Hj Hok E Hwf'. pose proof (neutral_AppendEntries _ _ _ _ _ E) as Hn.
  destruct (AppendEntries_log rf a zero_append_reply rf' reply) as [El | (Ht & p & x & Hp & Hx & _ & El)];
    [apply (po_wf _ Hok) | apply (aw_prev _ Haw) | done | |].
  - assert (Hln : log_neutral rf rf') by by apply log_neutral_of. split; [by apply moved_neutral |].
    eapply peer_ok_neutral; [exact Hok | done | done | by eapply AppendEntries_next].
  - assert (Hno : ~ elected n V (currentTerm rf') j).
    { rewrite Ht. intros He'. destruct Hij. by eapply elected_unique. }
    split.
    + split; [apply Hn | right; right]. split; [done |]. exists p, (ae_Entries a). apply lookup_lt_Some in Hx.
      split; [lia |]. split; [by apply numbered_entries | done].
    + split; [done |]. intros [Hl Hc]%(vn_leader _ _ Hn). destruct Hno. rewrite Hc. by eapply leader_elected.
Qed.

Lemma delivered_fits k p : net s !! k = Some p -> fits V (nodes s) p /\ Forall (fits V (nodes s)) (delete k (net s)).
Proof.
  intros Hk. split; [eapply Forall_lookup_1; [apply (si_net _ _ HS) | exact Hk] | apply Forall_delete, (si_net _ _ HS)].
Qed.

Lemma safe_packet k p :
  net s !! k = Some p -> allowed quiet (Deliver k) s = true ->
  safe (run_packet p (set_net (delete k (net s)) s)) (SafeInv V).
Proof.
  intros Hk Ha. destruct (delivered_fits k p Hk) as (Hp & Hps). unfold allowed, quiet in Ha. rewrite Hk in Ha.
  pose proof (si_tickers _ _ HS) as Htk.
  destruct p as [i t | i j args | i j args reply | i | i j a sl | i j a | i j a reply]; simpl in Hp |- *.
  - destruct Hp as [Hi Ht]. apply safe_bind, safe_node; [done | done |]. intros rf Hrf Hok _.
    simpl in Ha. rewrite Hrf in Ha. zbool.
    apply safe_bind. eapply safe_mono; [by apply safe_vote_args, Hok |]. intros args Hargs. simpl.
    apply keep_net, Forall_app. split; [done |]. apply Forall_forall.
    intros p (j & -> & [_ Hj]%list_elem_of_filter)%list_elem_of_fmap. apply elem_of_seq in Hj.
    rewrite (inv_len _ _ _ _ _ HI) in Hj. simpl in *. lia.
  - destruct Hp as (Hi & Hj & Ht). apply safe_bind, safe_node; [done | done |]. intros rf Hrf Hok _.
    apply safe_bind. eapply safe_mono; [eapply (safe_and _ _ (fun r => log_neutral rf r.1)); [by apply safe_RequestVote |] |].
    { intros [rf' reply] E. by eapply RequestVote_log. }
    intros [rf' reply] [Hok' Hln]. simpl. eapply keep_node; try done; [by apply moved_neutral | by apply Forall_singleton].
  - destruct Hp as (Hi & Hj & Ht). apply safe_bind, safe_node; [done | done |]. intros rf Hrf Hok _.
    apply safe_bind. eapply safe_mono; [eapply (safe_and _ _ (fun rf' => moved V i rf rf')); [by apply safe_sendRequestVote |] |].
    { intros rf' E. split; [| left; by eapply sendRequestVote_memory].
      apply sendRequestVote_vote in E as [[] | (_ & _ & _ & _ & -> & _)]; done. }
    intros rf' [Hok' Hm]. simpl. by eapply keep_node'.
  - apply safe_bind, safe_node; [done | done |]. intros rf Hrf Hok Hpeers.
    apply safe_bind. eapply safe_mono; [by apply safe_broadcastHeartbeat |]. intros sent Hsent. simpl.
    apply keep_net, Forall_app. split; [done |]. apply Forall_fmap. eapply Forall_impl; [exact Hsent |].
    intros [j [a sl]] (Hj & Hl & Hme & Haw & Ht & Hsl & Hfr). simpl in *.
    rewrite (no_me _ _ _ _ _ _ _ (inv_node _ _ _ _ _ HI _ _ Hrf)) in Hme. split; [| by exists rf].
    split_and!; [lia | done | lia | done | rewrite Ht; by eapply leader_elected |]. exists rf. split; [done |]. split; [lia | intros _; exact (sf_reach _ _ _ Hfr)].
  - destruct Hp as [(Hij & Hi & Hj & Haw & He & Hr) (r & Hr' & Hok' & _)]. apply safe_bind, safe_node; [done | done |].
    intros rf Hrf Hok _. simpl. assert (r = rf) by congruence. subst r.
    apply keep_net, Forall_app. split; [done |]. apply Forall_singleton. split_and!; [done.. | by apply copy_wf | done |].
    by rewrite copy_reach.
  - pose proof Hp as (Hij & Hi & Hj & Haw & _). apply safe_bind, safe_node; [done | done |]. intros rf Hrf Hok _.
    apply safe_bind. eapply safe_mono; [eapply (safe_and _ _ (fun r => raft_wf r.1 -> moved V j rf r.1 /\ peer_ok r.1)) |].
    + by apply safe_AppendEntries; [apply (po_wf _ Hok) |].
    + intros [rf' reply] E Hwf'. by eapply AppendEntries_moved.
    + intros [rf' reply] [[Hwf' Hans] Hok']. simpl in *. destruct (Hok' Hwf') as [Hm Hok''].
      eapply keep_node; try done. apply Forall_singleton. split; [by apply (sent_fits_moved V _ j rf) | done].
  - destruct Hp as [(Hij & Hi & Hj & Haw & _ & r & Hr & _ & Hreach) Hans]. apply safe_bind, safe_node; [done | done |].
    intros rf Hrf Hok Hpeers. assert (r = rf) by congruence. subst r.
    apply safe_bind. eapply safe_mono; [apply (safe_and _ peer_ok (fun rf' => log_neutral rf rf')) |].
    + apply safe_sendAppendEntries; [done | lia | done |].
      intros Hc. unfold answer_current in Hc. zbool. split; [by apply Hreach | done].
    + intros rf' E. by eapply sendAppendEntries_log.
    + intros rf' [Hok' Hln]. simpl. eapply keep_node'; try done. by apply moved_neutral.
Qed.

(** A lost answer changes nothing. *)
Lemma safe_drop k p :
  net s !! k = Some p -> safe (drop_packet p (set_net (delete k (net s)) s)) (SafeInv V).
Proof.
  intros Hk. destruct (delivered_fits k p Hk) as (Hp & Hps). pose proof (si_tickers _ _ HS) as Htk.
  assert (Hsame : forall i rf, nodes s !! i = Some rf -> peer_ok rf ->
    SafeInv V (set_node i rf (set_net (delete k (net s)) s))).
  { intros i rf Hrf Hok. eapply keep_node'; try done. apply moved_neutral, log_neutral_refl. }
  assert (Hlost : forall i a, (i < n)%nat ->
    safe (rf ← node (set_net (delete k (net s)) s) i;
          rf ← sendAppendEntries rf a.1 a.2 false (MkAppendEntriesResults 0 false 0);
          Ok (set_node i rf (set_net (delete k (net s)) s))) (SafeInv V)).
  { intros i [j a] Hi. apply safe_bind, safe_node; [done | done |]. intros rf Hrf Hok Hpeers. apply safe_bind.
    unfold sendAppendEntries. simpl. rewrite (base_wf _ (wf_log _ (po_wf _ Hok))). simpl. by apply Hsame. }
  destruct p as [i t | i j args | i j args reply | i | i j a sl | i j a | i j a reply]; simpl in Hp |- *; try done.
  - apply safe_bind, safe_node; [done | tauto |]. intros rf Hrf Hok _. simpl. by apply Hsame.
  - apply safe_bind, safe_node; [done | tauto |]. intros rf Hrf Hok _. simpl. by apply Hsame.
  - apply (Hlost i (Z.of_nat j, a)). apply Hp.
  - apply (Hlost i (Z.of_nat j, a)). apply Hp.
Qed.

Lemma safe_tick i ev : (i < n)%nat -> safe (do_action (Tick i ev) s) (SafeInv V).
Proof.
  intros Hi. pose proof (si_tickers _ _ HS) as Htk. simpl.
  apply safe_bind, safe_node; [done | done |]. intros rf Hrf Hok _.
  apply safe_bind, safe_index; [unfold len; lia |]. intros pc _.
  apply safe_bind. eapply safe_mono; [eapply (safe_and _ _ (fun r => log_neutral rf r.1.1 /\ (r.2 = SpawnElection -> 1 <= currentTerm r.1.1))) |].
  - by apply safe_ticker.
  - intros [[rf' pc'] g] E. split; [by eapply ticker_log |]. intros Hg. simpl in *. subst g.
    pose proof (wf_current _ (po_wf _ Hok)). apply neutral_ticker in E as [[_ Hg] | (_ & -> & _)]; [done |].
    unfold start_election. rewrite persist_term. simpl. lia.
  - intros [[rf' pc'] g] [Hok' [Hln Hg]]. simpl in *.
    eapply keep_node; [done | by apply moved_neutral | simpl; by rewrite length_insert | done | apply (si_net _ _ HS) |].
    destruct g; simpl; [constructor | |]; apply Forall_singleton; simpl; auto.
Qed.

(** One action: it keeps the invariant, or it applies entries the log does not
    have. *)
Lemma step_safe a :
  in_cluster a -> allowed quiet a s = true ->
  match do_action a s with Ok s' => SafeInv V s' | Panic => apply_beyond_log a s | Block => True end.
Proof.
  intros Hin Ha. pose proof (si_tickers _ _ HS) as Htk. pose proof (si_net _ _ HS) as Hnet.
  assert (Hsafe : safe (do_action a s) (SafeInv V) -> match do_action a s with
    Ok s' => SafeInv V s' | Panic => apply_beyond_log a s | Block => True end) by by destruct (do_action a s).
  destruct a as [i ev | k | k | i command | i | i]; simpl in Hin.
  - by apply Hsafe, safe_tick.
  - apply Hsafe. simpl. destruct (net s !! k) as [p |] eqn:Hk; [by apply safe_packet | done].
  - apply Hsafe. simpl. destruct (net s !! k) as [p |] eqn:Hk; [by apply safe_drop | done].
  - apply Hsafe. simpl. apply safe_bind, safe_node; [done | done |]. intros rf Hrf Hok _.
    apply safe_bind. eapply safe_mono; [eapply (safe_and _ _ (fun r => moved V i rf r.1)); [by apply safe_Start |] |].
    + intros [rf' res] E. by eapply Start_moved.
    + intros [rf' res] [Hok' Hm]. simpl. by eapply keep_node'.
  - destruct (nodes s !! i) as [rf |] eqn:Hrf.
    2: { apply lookup_ge_None in Hrf. rewrite (inv_len _ _ _ _ _ HI) in Hrf. lia. }
    destruct (do_action (Apply i) s) as [s' | |] eqn:E; [| | done].
    + simpl in E. inv_bind. apply node_Ok in H0. destruct (appliers x) as [| m]; inv_bind. simplify_eq.
      eapply keep_node'; [done | by apply moved_neutral, applyCommitted_log | done | | done].
      eapply applyCommitted_ok; [by eapply si_node | done].
    + destruct (decide (commitIdx rf < len (log rf))) as [Hc | Hc]; [| exists i, rf; split; [done | split; [done | lia]]].
      exfalso. assert (Hs : safe (do_action (Apply i) s) (fun _ => True)); [| by rewrite E in Hs].
      simpl. apply safe_bind, safe_node; [done | done |]. intros rf0 Hrf0 Hok _.
      assert (rf0 = rf) by congruence. subst. destruct (appliers rf) as [| m]; [done |].
      apply safe_bind. eapply safe_mono; [by apply (safe_applyCommitted rf m) |]. done.
  - done.
Qed.
End step.

Lemma SafeInv_boot : (0 < n)%nat -> SafeInv [] (boot n).
Proof.
  intros Hn. split; simpl; [| by rewrite length_replicate | constructor].
  intros i rf (x & -> & Hx)%list_lookup_fmap_Some. apply lookup_seq in Hx as [-> Hlt]. unfold Make. simpl. split; [| done].
  split; simpl; try done; try lia.
  - split; [done | |].
    + by intros k e [-> <-]%list_lookup_singleton_Some.
    + by intros k e [? _]%list_lookup_singleton_Some.
  - unfold len. by rewrite length_replicate.
  - unfold len. by rewrite length_replicate.
Qed.

Lemma done_in_cluster V e W s a s' : Inv n V e W s -> do_action a s = Ok s' -> in_cluster a.
Proof.
  intros HI Hd. destruct a as [i ev | k | k | i command | i | i]; simpl in Hd |- *; try done;
    inv_bind; apply node_Ok, lookup_lt_Some in H0; by rewrite (inv_len _ _ _ _ _ HI) in H0.
Qed.

(** An action of a quiet environment keeps both invariants. *)
Lemma safe_action V e W V' s a s' :
  Inv n V e W s -> SafeInv V s -> allowed quiet a s = true -> do_action a s = Ok s' ->
  (forall x, x ∈ V -> x ∈ V') -> SafeInv V' s'.
Proof.
  intros HI HS Ha Hd HV. apply (SafeInv_votes V); [done |].
  pose proof (step_safe V e W s HI HS a (done_in_cluster _ _ _ _ _ _ HI Hd) Ha) as Hs. by rewrite Hd in Hs.
Qed.

Lemma reachable_safe s :
  (0 < n)%nat -> reachable (cluster_system quiet n) s -> exists V e W, Inv n V e W s /\ SafeInv V s.
Proof.
  intros Hn. revert s. apply (invariant_ind (cluster_system quiet n) (fun s => exists V e W, Inv n V e W s /\ SafeInv V s)).
  - intros s0 ->. exists [], (fun _ => 0), (fun _ => []). split; [apply Inv_boot | by apply SafeInv_boot].
  - intros s1 s2 (V & e & W & HI & HS) (a & Ha & Hd).
    destruct (preserved_action n _ _ _ _ _ _ HI Ha Hd) as (V' & e' & W' & HV & _ & HI').
    exists V', e', W'. split; [done | by eapply (safe_action V e W)].
Qed.
End cluster.

(** ** No panic *)

(** C14: in every execution without restarts and with prompt election
    goroutines, whatever the network does, no critical section of a peer of
    the cluster indexes a log or an index array out of its range, with one
    exception: the goroutine that applies committed entries, when the log ends
    before [commitIdx]. *)
Theorem raft_never_panics {Cmd} `{GoRuntime Cmd} (n : nat) (s : cluster Cmd) (a : action Cmd) :
  (0 < n)%nat -> reachable (cluster_system quiet n) s -> in_cluster n a -> allowed quiet a s = true ->
  do_action a s = Panic -> apply_beyond_log a s.
Proof.
  intros Hn Hs Hin Ha Hp. destruct (reachable_safe n s Hn Hs) as (V & e & W & HI & HS).
  pose proof (step_safe n V e W s HI HS a Hin Ha) as Hst. by rewrite Hp in Hst.
Qed.

Section runs.
#[local] Instance all_registered : GoRuntime nat := {| registered := fun _ => true; newcap := fun cap _ => (2 * cap)%nat |}.

(** Peer 0 leads term 1 and appends 11; its [AppendEntries] for peer 1 is slow.
    A second one carries 11 and 22, and a heartbeat tells peer 1 that both are
    committed, so peer 1 starts a goroutine to apply them.  The slow request
    arrives before the goroutine runs, and cuts the log of peer 1 back to 11. *)
Definition overtaken_apply : list (action nat) :=
  win_0 ++ [ClientStart 0 (Some 11%nat); Tick 0 WonElection; Tick 0 Timeout; Deliver 1; Deliver 1; Tick 0 Timeout;
            ClientStart 0 (Some 22%nat); Tick 0 Timeout; Deliver 3; Deliver 3; Deliver 4; Deliver 4;
            Tick 0 Timeout; Tick 0 Timeout; Deliver 4; Deliver 4; Deliver 5; Deliver 2].

Lemma raft_never_panics_witness :
  exists s, run_actions quiet overtaken_apply (boot 3) = Ok s /\ do_action (Apply 1) s = Panic /\
    apply_beyond_log (Apply 1) s.
Proof.
  destruct (run_actions quiet overtaken_apply (boot 3)) as [s | | ] eqn:E; [| vm_compute in E; discriminate E..].
  assert (Hp : do_action (Apply 1) s = Panic) by (vm_compute in E; injection E as <-; vm_compute; reflexivity).
  exists s. split; [reflexivity | split; [exact Hp |]].
  apply (raft_never_panics 3 s (Apply 1)); [lia | by eapply run_actions_reachable | simpl; lia | reflexivity | exact Hp].
Defined.

(** That exception happens.  Without crashes, lost messages or slow
    goroutines, an [AppendEntries] that arrives late makes the goroutine that
    applies the entries of a peer index its log out of range, which ends the
    process. *)
Theorem apply_panics_after_reordering :
  exists s rf, reachable (cluster_system steady 3) s /\ nodes s !! 1%nat = Some rf /\
    len (log rf) = 2 /\ appliedLast rf = 0 /\ commitIdx rf = 2 /\ do_action (Apply 1) s = Panic.
Proof.
  destruct (run_actions steady overtaken_apply (boot 3)) as [s | | ] eqn:E; [| vm_compute in E; discriminate E..].
  exists s. eexists. split; [by eapply run_actions_reachable |]. vm_compute in E. injection E as <-.
  split; [reflexivity | by vm_compute].
Qed.
End runs.
