(* ===== verification/RaftLogs.v ===== *)
(** * The logs of a Raft cluster

    Log matching: in every execution of a cluster without restarts, with prompt
    election goroutines and with copies of entries that are made before the
    sender's term changes, two entries with the same index and term are equal, and
    so is all that is before them.  The proof gives every term a ledger, the
    longest log its leader has had in it, and shows that each entry of a log is
    there because the log follows the ledger of the entry's term.  Without the last
    of the three conditions log matching fails: [RaftAliasing.v] has the run. *)
From S2P Require Import Prelude Persister RaftServer RaftServerFacts RaftCluster RaftElection RaftMemory RaftSafe.

Local Open Scope Z_scope.

(** ** What a leader sends *)
Section logs.
Context {Cmd : Type} `{GoRuntime Cmd}.
Implicit Types rf : Raft Cmd.

(** [a] carries a segment of the log [l], and what is before it. *)
Definition segment_of (l : list (LogElement Cmd)) (a : AppendEntriesArgs Cmd) : Prop :=
  exists p e, ae_PrevLogIdx a = Z.of_nat p /\ l !! p = Some e /\ le_Term e = ae_PrevLogTerm a /\
    take (S p) l ++ ae_Entries a `prefix_of` l.

Lemma segment_mono l l' a : l `prefix_of` l' -> segment_of l a -> segment_of l' a.
Proof.
  intros Hl (p & e & Hp & He & Ht & Hs). exists p, e. split; [done |]. split; [by eapply prefix_lookup_Some |].
  split; [done |]. destruct Hl as [k ->]. rewrite take_app_le by (apply lookup_lt_Some in He; lia).
  by apply prefix_app_r.
Qed.

Lemma heartbeat_args_sent rf i a sl :
  heartbeat_args rf 0 i = Ok (Some (a, sl)) ->
  state rf = LEADER /\ i <> me rf /\ ae_Term a = currentTerm rf /\ segment_of (log rf) a.
Proof.
  unfold heartbeat_args. intros E. branch; [| done]. inv_bind. branch; [done |]. zbool.
  destruct (0 <=? x - 1) eqn:Ep; zbool; [| lia]. inv_bind.
  destruct x2 as [es sl']. injection E as <- <-. split; [done |]. split; [done |]. split; [done |].
  match goal with Hh : index (log rf) _ = Ok ?e |- _ => apply index_Ok in Hh as [_ He]; rewrite Z.sub_0_r in He;
    exists (Z.to_nat (x - 1)), e end.
  split; [simpl; lia |]. split; [done |]. split; [done |].
  replace (S (Z.to_nat (x - 1))) with (Z.to_nat x) by lia. simpl.
  match goal with Hh : (if _ then _ else _) = Ok (es, _) |- _ => branch; inv_bind; simplify_eq end.
  - match goal with Hh : slice_from _ _ = Ok _ |- _ => apply slice_from_Ok in Hh as [_ ->] end.
    rewrite Z.sub_0_r, take_drop. done.
  - rewrite app_nil_r. apply prefix_take.
Qed.

Lemma broadcast_sent m rf sent :
  broadcast_to m rf 0 = Ok sent ->
  forall i a sl, (i, (a, sl)) ∈ sent -> 0 <= i /\ state rf = LEADER /\ i <> me rf /\ ae_Term a = currentTerm rf /\ segment_of (log rf) a.
Proof.
  revert sent. induction m as [| m IH]; simpl; intros sent E i a sl Ha; [simplify_eq; by apply elem_of_nil in Ha |].
  inv_bind. simplify_eq. apply elem_of_app in Ha as [Ha | Ha]; [by eapply IH |].
  destruct x0; [| by apply elem_of_nil in Ha]. apply list_elem_of_singleton in Ha. simplify_eq. split; [lia |].
  by eapply heartbeat_args_sent.
Qed.

(** ** Ledgers *)
Definition ledger : Type := Z -> list (LogElement Cmd).
Implicit Types (T : ledger) (l : list (LogElement Cmd)).

(** Every entry of [l] is where it is, with all that is before it, in the ledger
    of its term; indices are positions. *)
Record backed T l : Prop := {
  b_base : l !! 0%nat = Some base_entry;
  b_index : forall k e, l !! k = Some e -> le_Index e = Z.of_nat k;
  b_ledger : forall k e, l !! S k = Some e -> take (S (S k)) l `prefix_of` T (le_Term e)
}.

Lemma backed_prefix T l l' : backed T l' -> l `prefix_of` l' -> l <> [] -> backed T l.
Proof.
  intros [Hb Hi Hl] [k ->] Hne. assert (H0 : exists e, l !! 0%nat = Some e) by (destruct l; [done | eauto]). split.
  - destruct H0 as [e He]. rewrite lookup_app_l in Hb by (by eapply lookup_lt_Some). exact Hb.
  - intros j e He. apply Hi. rewrite lookup_app_l; [done | by eapply lookup_lt_Some].
  - intros j e He. apply lookup_lt_Some in He as Hlt. specialize (Hl j e).
    rewrite lookup_app_l, take_app_le in Hl by lia. auto.
Qed.

Lemma backed_mono T T' l : (forall t, T t `prefix_of` T' t) -> backed T l -> backed T' l.
Proof. intros HT [Hb Hi Hl]. split; [done | done |]. intros k e He. etrans; [by apply Hl | apply HT]. Qed.

Lemma backed_snoc T l e :
  backed T l -> le_Index e = len l -> l ++ [e] `prefix_of` T (le_Term e) -> backed T (l ++ [e]).
Proof.
  intros [Hb Hi Hl] He Hp. assert (Hlt := lookup_lt_Some _ _ _ Hb). split.
  - by rewrite lookup_app_l.
  - intros k e' [Hk | [Hk Hk']]%lookup_app_Some; [by apply Hi |].
    apply list_lookup_singleton_Some in Hk' as [Hk' <-]. rewrite He. unfold len. lia.
  - intros k e' [Hk | [Hk Hk']]%lookup_app_Some.
    + rewrite take_app_le by (apply lookup_lt_Some in Hk; lia). by apply Hl.
    + apply list_lookup_singleton_Some in Hk' as [Hk' <-].
      rewrite take_ge; [done |]. rewrite length_app. simpl. lia.
Qed.

(** Two backed logs with entries of one term at a position agree up to it. *)
Lemma backed_agree T l l' k e e' :
  backed T l -> backed T l' -> l !! k = Some e -> l' !! k = Some e' -> le_Term e = le_Term e' ->
  take (S k) l = take (S k) l'.
Proof.
  intros Hl Hl' He He' Ht. destruct k as [| k].
  - pose proof (b_base _ _ Hl) as E. pose proof (b_base _ _ Hl') as E'. destruct l, l'; simplify_eq/=; by rewrite !take_0.
  - pose proof (b_ledger _ _ Hl _ _ He) as [r1 E1]. pose proof (b_ledger _ _ Hl' _ _ He') as [r2 E2].
    rewrite Ht, E2 in E1. apply app_inj_1 in E1 as [E1 _]; [done |].
    apply lookup_lt_Some in He, He'. rewrite !length_take. lia.
Qed.

(** What an accepted [AppendEntries] leaves follows the sender's ledger. *)
Lemma append_follows T l t a p e :
  backed T l -> backed T (T t) -> segment_of (T t) a -> ae_PrevLogIdx a = Z.of_nat p ->
  l !! p = Some e -> le_Term e = ae_PrevLogTerm a -> backed T (take (S p) l ++ ae_Entries a).
Proof.
  intros Hl HT (p' & e' & Hp' & He' & Ht' & Hs) Hp He Ht. assert (p' = p) by lia. subst p'.
  rewrite (backed_agree T l (T t) p e e') by (done || congruence).
  eapply backed_prefix; [exact HT | exact Hs |].
  intros E%app_nil. destruct E as [E _]. apply lookup_lt_Some in He'. destruct (T t); simpl in *; [lia | done].
Qed.
End logs.

(** ** The invariant of the cluster *)
Section invariant.
Context {Cmd : Type} `{GoRuntime Cmd} (n : nat).
Implicit Types (rf : Raft Cmd) (s : cluster Cmd) (p : packet Cmd) (V : list vote) (T : ledger (Cmd := Cmd)).

(** A message in flight was sent by a peer elected in its term, to another one,
    and carries a segment of the term's ledger; so did the one a reply answers. *)
Definition sent_ok V T p : Prop :=
  match p with
  | AppendGo i j a _ | AppendRequest i j a | AppendReply i j a _ => i <> j /\ elected n V (ae_Term a) i /\ segment_of (T (ae_Term a)) a
  | _ => True
  end.

(** Ledgers are those of elected peers; while a peer stays in the term it was
    elected in, its log is the term's ledger. *)
Definition ledger_ok V T s (t : Z) : Prop :=
  backed T (T t) /\
  exists i rf, elected n V t i /\ nodes s !! i = Some rf /\ t <= currentTerm rf /\ (currentTerm rf = t -> log rf = T t).

Record LogInv V T s : Prop := {
  li_node : forall i rf, nodes s !! i = Some rf -> backed T (log rf);
  li_leader : forall i rf, nodes s !! i = Some rf -> state rf = LEADER -> T (currentTerm rf) <> [];
  li_ledger : forall t, T t <> [] -> ledger_ok V T s t;
  li_net : Forall (sent_ok V T) (net s)
}.

Definition grows T T' : Prop := forall t, T t `prefix_of` T' t.

Lemma sent_ok_mono V V' T T' p :
  (forall x, x ∈ V -> x ∈ V') -> grows T T' -> sent_ok V T p -> sent_ok V' T' p.
Proof.
  intros HV HT. destruct p; simpl; try done;
    intros (Hij & He & Hs); (split; [done |]); (split; [by eapply elected_mono | eapply segment_mono; [apply HT | done]]).
Qed.

Lemma LogInv_votes V V' T s : (forall x, x ∈ V -> x ∈ V') -> LogInv V T s -> LogInv V' T s.
Proof.
  intros HV [Hn Hl HT Hs]. split; [done | done | |].
  - intros t Ht. destruct (HT t Ht) as (Hb & i & rf & He & Hr). split; [done |].
    exists i, rf. split; [exact (elected_mono n _ _ _ _ HV He) | done].
  - eapply Forall_impl; [exact Hs |]. intros p. apply sent_ok_mono; [exact HV | by intros t].
Qed.

(** The leader of a term keeps its ledger as its log. *)
Lemma leader_ledger V e W T s i rf :
  Inv n V e W s -> LogInv V T s -> nodes s !! i = Some rf -> state rf = LEADER -> log rf = T (currentTerm rf).
Proof.
  intros HI HL Hi Hl. destruct (li_ledger _ _ _ HL (currentTerm rf)) as (_ & j & rf' & He & Hj & _ & Hlog).
  - by eapply li_leader.
  - assert (j = i) by (eapply elected_unique; [exact HI | exact He | by eapply leader_elected]). subst.
    assert (rf' = rf) by congruence. subst. by apply Hlog.
Qed.

(** A change of the messages alone. *)
Lemma LogInv_net V T s ps : LogInv V T s -> Forall (sent_ok V T) ps -> LogInv V T (set_net ps s).
Proof. intros [Hn Hl HT Hs] Hps. by split. Qed.

(** A step of peer [i] after which its log is backed: ledgers stay the peer's
    as long as it stays in their term. *)
Lemma LogInv_node V T s i rf rf' pcs ps :
  LogInv V T s -> nodes s !! i = Some rf -> backed T (log rf') -> currentTerm rf <= currentTerm rf' ->
  (state rf' = LEADER -> T (currentTerm rf') <> []) ->
  (elected n V (currentTerm rf') i -> T (currentTerm rf') <> [] -> currentTerm rf = currentTerm rf' ->
   log rf = T (currentTerm rf') -> log rf' = T (currentTerm rf')) ->
  Forall (sent_ok V T) ps -> LogInv V T (Cluster (<[i := rf']> (nodes s)) pcs ps).
Proof.
  intros [Hn Hl HT Hs] Hi Hb Hle Hlead Hkeep Hps. split; simpl; [| | | done].
  - intros j rj. destruct (decide (i = j)) as [<- | Hne].
    + rewrite list_lookup_insert_eq by (by eapply lookup_lt_Some). by intros [= <-].
    + rewrite list_lookup_insert_ne by done. apply Hn.
  - intros j rj. destruct (decide (i = j)) as [<- | Hne].
    + rewrite list_lookup_insert_eq by (by eapply lookup_lt_Some). by intros [= <-].
    + rewrite list_lookup_insert_ne by done. apply Hl.
  - intros t Ht. destruct (HT t Ht) as (Hbt & j & rj & He & Hj & Htj & Hlog). split; [done |].
    destruct (decide (i = j)) as [<- | Hne].
    + exists i, rf'. simpl. rewrite list_lookup_insert_eq by (by eapply lookup_lt_Some).
      assert (rj = rf) by congruence. subst. split; [done |]. split; [done |]. split; [lia |].
      intros <-. apply Hkeep; [done | done | lia |]. apply Hlog. lia.
    + exists j, rj. simpl. by rewrite list_lookup_insert_ne.
Qed.

(** A step that keeps the log. *)
Lemma LogInv_neutral V T s i rf rf' pcs ps :
  LogInv V T s -> nodes s !! i = Some rf -> log_neutral rf rf' -> Forall (sent_ok V T) ps ->
  LogInv V T (Cluster (<[i := rf']> (nodes s)) pcs ps).
Proof.
  intros HL Hi [[Hlog _] Hle Hlead] Hps. eapply LogInv_node; try done.
  - rewrite Hlog. by eapply li_node.
  - intros [Hl Ht]%Hlead. rewrite Ht. by eapply li_leader.
  - intros _ _ _ El. by rewrite Hlog.
Qed.

(** A ledger that gets longer. *)
Definition extend T (t : Z) l : ledger := fun t' => if decide (t' = t) then l else T t'.

Lemma extend_eq T t l : extend T t l t = l.
Proof. unfold extend. by rewrite decide_True. Qed.

Lemma extend_grows T t l : T t `prefix_of` l -> grows T (extend T t l).
Proof. intros Hp t'. unfold extend. case_decide; [by subst | done]. Qed.

(** Peer [i], elected in its term, has a longer log that becomes the ledger. *)
Lemma LogInv_extend V T s i rf rf' pcs ps :
  LogInv V T s -> nodes s !! i = Some rf -> elected n V (currentTerm rf') i -> currentTerm rf' = currentTerm rf ->
  T (currentTerm rf') `prefix_of` log rf' -> backed (extend T (currentTerm rf') (log rf')) (log rf') ->
  Forall (sent_ok V T) ps ->
  LogInv V (extend T (currentTerm rf') (log rf')) (Cluster (<[i := rf']> (nodes s)) pcs ps).
Proof.
  intros [Hn Hl HT Hs] Hi He Ht Hp Hb Hps. set (t := currentTerm rf') in *. set (T' := extend T t (log rf')) in *.
  assert (Hg : grows T T') by by apply extend_grows.
  assert (Hne : forall t', T t' <> [] -> T' t' <> []).
  { intros t' H1 H2. specialize (Hg t'). rewrite H2 in Hg. by apply prefix_nil_inv in Hg. }
  assert (Hlog : log rf' <> []). { intros E. pose proof (b_base _ _ Hb) as E'. by rewrite E in E'. }
  split; simpl.
  - intros j rj. destruct (decide (i = j)) as [<- | Hj].
    + rewrite list_lookup_insert_eq by (by eapply lookup_lt_Some). by intros [= <-].
    + rewrite list_lookup_insert_ne by done. intros Hrj. eapply backed_mono; [exact Hg | by eapply Hn].
  - intros j rj. destruct (decide (i = j)) as [<- | Hj].
    + rewrite list_lookup_insert_eq by (by eapply lookup_lt_Some). intros [= <-] _. unfold T'. by rewrite extend_eq.
    + rewrite list_lookup_insert_ne by done. intros Hrj Hlj. by eapply Hne, Hl.
  - intros t' Ht'. destruct (decide (t' = t)) as [-> | Hd].
    + split; [unfold T' at 2; by rewrite extend_eq |]. exists i, rf'. simpl.
      rewrite list_lookup_insert_eq by (by eapply lookup_lt_Some). unfold T'. by rewrite extend_eq.
    + assert (E : T' t' = T t') by (unfold T', extend; by rewrite decide_False). rewrite E in Ht'.
      destruct (HT t' Ht') as (Hbt & j & rj & Hej & Hj & Hle & Hlj). unfold ledger_ok. rewrite E.
      split; [by eapply backed_mono |]. destruct (decide (i = j)) as [<- | Hne'].
      * exists i, rf'. simpl. rewrite list_lookup_insert_eq by (by eapply lookup_lt_Some).
        assert (rj = rf) by congruence. subst. split; [done |]. split; [done |].
        split; [change (currentTerm rf') with t; by rewrite Ht |]. intros Ec. by destruct Hd.
      * exists j, rj. simpl. by rewrite list_lookup_insert_ne.
  - eapply Forall_impl; [exact Hps |]. intros p. by apply sent_ok_mono.
Qed.
(** ** The steps *)

(** A step of the cluster, between two states that satisfy the voting
    invariant. *)
Section step.
Context (V V' : list vote) (e e' : nat -> Z) (W W' : nat -> list nat) (T : ledger (Cmd := Cmd)) (s s' : cluster Cmd).
Hypothesis HI : Inv n V e W s.
Hypothesis HI' : Inv n V' e' W' s'.
Hypothesis HV : forall x, x ∈ V -> x ∈ V'.
Hypothesis HL : LogInv V T s.
Hypothesis HS : SafeInv n V s.

Lemma HL' : LogInv V' T s.
Proof. by apply (LogInv_votes V). Qed.

(** The ledgers stay, or a new leader's log becomes one, or a leader's log and
    its ledger get an entry. *)
Definition ledger_step T' : Prop :=
  T' = T \/ exists i rf rf', nodes s !! i = Some rf /\ nodes s' !! i = Some rf' /\ state rf' = LEADER /\
    currentTerm rf' = currentTerm rf /\ T' = extend T (currentTerm rf') (log rf') /\
    ((T (currentTerm rf) = [] /\ log rf' = log rf) \/
     (state rf = LEADER /\ exists x, log rf' = log rf ++ [x] /\ le_Term x = currentTerm rf)).
Definition logs_kept : Prop := exists T', grows T T' /\ ledger_step T' /\ LogInv V' T' s'.

Lemma same_ledgers : LogInv V' T s' -> logs_kept.
Proof. intros Hs. exists T. split; [by intros t | split; [by left | done]]. Qed.

Lemma net_sent : Forall (sent_ok V' T) (net s).
Proof. apply HL'. Qed.

Lemma delete_sent k : Forall (sent_ok V' T) (delete k (net s)).
Proof. apply Forall_delete, net_sent. Qed.

(** Peer [i] wins the election, or goes on as it was. *)
Lemma logs_sendRequestVote i rf rf' args reply pcs ps :
  nodes s !! i = Some rf -> sendRequestVote rf args true reply = Ok rf' -> Forall (sent_ok V' T) ps ->
  s' = Cluster (<[i := rf']> (nodes s)) pcs ps -> logs_kept.
Proof.
  intros Hi E Hps Es. pose proof (sendRequestVote_log _ _ _ _ E) as Hlog.
  apply sendRequestVote_vote in E as E'. destruct E' as [Hn | (_ & _ & _ & _ & Ht & _ & _ & _)].
  { apply same_ledgers. rewrite Es. eapply LogInv_neutral; [exact HL' | exact Hi | apply log_neutral_of; [done | by eapply sendRequestVote_memory] | done]. }
  assert (Hi' : nodes s' !! i = Some rf') by (rewrite Es; simpl; apply list_lookup_insert_eq; by eapply lookup_lt_Some).
  assert (Hkeep : (state rf' = LEADER -> T (currentTerm rf') <> []) -> logs_kept).
  { intros Hlead. apply same_ledgers. rewrite Es. eapply LogInv_node; [exact HL' | exact Hi | | lia | done | | done].
    - rewrite Hlog. by eapply li_node.
    - intros _ _ _ <-. exact Hlog. }
  destruct (decide (state rf' = LEADER)) as [Hl | Hl]; [| by apply Hkeep].
  destruct (decide (T (currentTerm rf') = [])) as [E0 | E0]; [| by apply Hkeep].
  assert (Hg : grows T (extend T (currentTerm rf') (log rf'))) by (apply extend_grows; rewrite E0; apply prefix_nil).
  exists (extend T (currentTerm rf') (log rf')). split; [exact Hg |]. split.
  { right. exists i, rf, rf'. split_and!; try done. left. by rewrite <- Ht. }
  rewrite Es. eapply LogInv_extend; [exact HL' | exact Hi | | exact Ht | rewrite E0; apply prefix_nil | | exact Hps].
  - by eapply leader_elected.
  - rewrite Hlog at 2. eapply backed_mono; [exact Hg | by eapply li_node].
Qed.

(** Peer [i] sends segments of its ledger. *)
Lemma logs_broadcast i rf sent :
  nodes s !! i = Some rf -> broadcastHeartbeat rf = Ok sent ->
  Forall (sent_ok V' T) (map (fun a => AppendGo i (Z.to_nat a.1) a.2.1 a.2.2) sent).
Proof.
  intros Hi E. unfold broadcastHeartbeat in E. inv_bind.
  pose proof (b_base _ _ (li_node _ _ _ HL _ _ Hi)) as Hb.
  match goal with Hh : index (log rf) 0 = Ok ?b |- _ => apply index_Ok in Hh as [_ Hh];
    change (Z.to_nat 0) with 0%nat in Hh; assert (b = base_entry) by congruence; subst b end. simpl in E.
  apply Forall_forall. intros p ([j [a sl]] & -> & Ha)%list_elem_of_fmap. simpl.
  destruct (broadcast_sent _ _ _ E _ _ _ Ha) as (Hj & Hl & Hme & Ht & Hs).
  rewrite (no_me _ _ _ _ _ _ _ (inv_node _ _ _ _ _ HI _ _ Hi)) in Hme.
  split; [lia |]. rewrite Ht. split; [eapply elected_mono; [exact HV | by eapply leader_elected] |].
  rewrite <- (leader_ledger V e W T s i rf) by done. exact Hs.
Qed.

(** Peer [j] is sent a segment. *)
Lemma logs_AppendEntries i j rf rf' args reply0 reply pcs ps :
  nodes s !! j = Some rf -> sent_ok V' T (AppendRequest i j args) ->
  AppendEntries rf args reply0 = Ok (rf', reply) -> Forall (sent_ok V' T) ps ->
  s' = Cluster (<[j := rf']> (nodes s)) pcs ps -> logs_kept.
Proof.
  intros Hj (Hij & He & Hs) E Hps Es. apply same_ledgers. rewrite Es.
  pose proof (li_node _ _ _ HL' _ _ Hj) as Hb. pose proof (neutral_AppendEntries _ _ _ _ _ E) as Hn.
  assert (Hprev : 0 <= ae_PrevLogIdx args) by (destruct Hs as (p & ? & -> & _); lia).
  apply AppendEntries_log in E as [El | (Ht & p & x & Hp & Hx & Hxt & El%overwritten_log)]; [| | exact (b_base _ _ Hb) | exact Hprev].
  { eapply LogInv_neutral; [exact HL' | exact Hj | by apply log_neutral_of | done]. }
  assert (Hne : T (ae_Term args) <> []) by (destruct Hs as (q & y & _ & Hy & _); intros E0; by rewrite E0 in Hy).
  eapply LogInv_node; [exact HL' | exact Hj | | apply Hn | | | exact Hps].
  - rewrite El. eapply append_follows; [exact Hb | by apply (li_ledger _ _ _ HL') | done | done | done | done].
  - by rewrite Ht.
  - rewrite Ht. intros He' _ _ _. destruct Hij. by eapply elected_unique.
Qed.

Lemma logs_packet k p :
  net s !! k = Some p -> allowed steady (Deliver k) s = true ->
  run_packet p (set_net (delete k (net s)) s) = Ok s' -> logs_kept.
Proof.
  intros Hk Ha Hr. assert (Hp : sent_ok V' T p) by (eapply Forall_lookup_1; [exact net_sent | done]).
  pose proof (delete_sent k) as Hps.
  destruct p as [i t | i j args | i j args reply | i | i j a sl | i j a | i j a reply]; simpl in Hr; inv_bind.
  - apply same_ledgers. rewrite <- Hr. apply (LogInv_net V' T s _ HL'), Forall_app. split; [done |].
    apply Forall_forall. by intros p (y & -> & _)%list_elem_of_fmap.
  - destruct x0 as [rf' reply]. injection Hr as Hr. apply node_Ok in H0; simpl in H0. apply same_ledgers. rewrite <- Hr.
    eapply (LogInv_neutral V' T s); [exact HL' | exact H0 | by eapply RequestVote_log |].
    apply Forall_app. split; [done | by repeat constructor].
  - apply node_Ok in H0; simpl in H0. by eapply logs_sendRequestVote.
  - apply node_Ok in H0; simpl in H0. apply same_ledgers. rewrite <- Hr. apply (LogInv_net V' T s _ HL'), Forall_app.
    split; [done | by eapply logs_broadcast].
  - apply node_Ok in H0; simpl in H0. apply same_ledgers. rewrite <- Hr. apply (LogInv_net V' T s _ HL'), Forall_app.
    split; [done |]. simpl in Ha. rewrite Hk, H0 in Ha. zbool.
    destruct (Forall_lookup_1 _ _ _ _ (si_net _ _ _ HS) Hk) as [_ (r & Hr' & _ & Hf)]. assert (r = x) by congruence. subst r.
    rewrite copy_fresh by by apply Hf. by apply Forall_singleton.
  - destruct x0 as [rf' reply]. injection Hr as Hr. apply node_Ok in H0; simpl in H0.
    eapply logs_AppendEntries; [exact H0 | exact Hp | done | | by rewrite <- Hr].
    apply Forall_app. split; [done | by apply Forall_singleton].
  - apply node_Ok in H0; simpl in H0. apply same_ledgers. rewrite <- Hr.
    eapply (LogInv_neutral V' T s); [exact HL' | exact H0 | by eapply sendAppendEntries_log | done].
Qed.

Lemma logs_drop k p :
  net s !! k = Some p -> drop_packet p (set_net (delete k (net s)) s) = Ok s' -> logs_kept.
Proof.
  intros Hk Hr. pose proof (delete_sent k) as Hps. apply same_ledgers.
  destruct p; simpl in Hr; inv_bind; try done; apply node_Ok in H0; simpl in H0;
    (eapply (LogInv_neutral V' T s); [exact HL' | exact H0 | | exact Hps]);
    first [apply log_neutral_refl | by eapply sendAppendEntries_log].
Qed.

(** The leader's log gets a new entry, and the ledger of its term with it. *)
Lemma logs_Start i rf rf' command res pcs :
  nodes s !! i = Some rf -> Start rf command = Ok (rf', res) ->
  s' = Cluster (<[i := rf']> (nodes s)) pcs (net s) -> logs_kept.
Proof.
  intros Hi E Es. pose proof (neutral_Start _ _ _ _ E) as Hn. unfold Start in E. branch; inv_bind.
  2: { simplify_eq. apply same_ledgers. rewrite Es.
       eapply (LogInv_neutral V' T s); [exact HL' | exact Hi | apply log_neutral_refl | apply net_sent]. }
  zbool. simplify_eq. pose proof (li_node _ _ _ HL _ _ Hi) as Hb.
  pose proof (leader_ledger _ _ _ _ _ _ _ HI HL Hi E0) as Hled.
  match goal with Hh : last_entry rf = Ok ?l |- _ => rename l into lst; unfold last_entry in Hh;
    apply index_Ok in Hh as [Hpos Hlst]; apply (b_index _ _ Hb) in Hlst end.
  set (x := MkLogElement (currentTerm rf) command (le_Index lst + 1)) in *.
  assert (Hl : log (persist (append_log [x] rf)) = log rf ++ [x]) by by rewrite persist_log.
  assert (Ht : currentTerm (persist (append_log [x] rf)) = currentTerm rf) by by rewrite persist_term.
  assert (Hp : T (currentTerm rf) `prefix_of` log rf ++ [x]) by (rewrite <- Hled; by apply prefix_app_r).
  set (rf' := persist (append_log [x] rf)) in *.
  assert (Hg : grows T (extend T (currentTerm rf') (log rf'))) by (rewrite Ht, Hl; by apply extend_grows).
  exists (extend T (currentTerm rf') (log rf')). split; [exact Hg |]. split.
  { right. exists i, rf, rf'. split_and!; try done.
    - rewrite Es. simpl. apply list_lookup_insert_eq. by eapply lookup_lt_Some.
    - unfold rf'. by destruct (persist_set (append_log [x] rf)) as [q ->].
    - right. split; [done |]. by exists x. }
  rewrite Es. eapply LogInv_extend; [exact HL' | exact Hi | | exact Ht | by rewrite Ht, Hl | | apply net_sent].
  - rewrite Ht. eapply elected_mono; [exact HV | by eapply leader_elected].
  - rewrite Hl at 2. apply backed_snoc; [by eapply backed_mono | simpl; lia |].
    simpl. rewrite Ht, extend_eq. by rewrite Hl.
Qed.

Lemma logs_action a : allowed steady a s = true -> do_action a s = Ok s' -> logs_kept.
Proof.
  intros Ha Hr. destruct a as [i ev | k | k | i command | i | i]; simpl in Hr.
  - inv_bind. destruct x1 as [[rf' pc'] g]. injection Hr as Hr. apply node_Ok in H0; simpl in H0. apply same_ledgers. rewrite <- Hr.
    eapply (LogInv_neutral V' T s); [exact HL' | exact H0 | by eapply ticker_log |].
    apply Forall_app. split; [apply net_sent |]. by destruct g; repeat constructor.
  - destruct (net s !! k) as [p |] eqn:Hk; [by eapply logs_packet | done].
  - destruct (net s !! k) as [p |] eqn:Hk; [by eapply logs_drop | done].
  - inv_bind. destruct x0 as [rf' res]. injection Hr as Hr. apply node_Ok in H0; simpl in H0.
    eapply logs_Start; [exact H0 | done | by rewrite <- Hr].
  - inv_bind. apply node_Ok in H0; simpl in H0. destruct (appliers x) as [| m]; [done |]. inv_bind. apply same_ledgers. rewrite <- Hr.
    eapply (LogInv_neutral V' T s); [exact HL' | exact H0 | by apply applyCommitted_log | apply net_sent].
  - done.
Qed.
End step.

Lemma LogInv_boot : LogInv [] (fun _ => []) (boot n).
Proof.
  assert (Hb : forall i rf, nodes (@boot Cmd _ n) !! i = Some rf -> log rf = [base_entry] /\ state rf = FOLLOWER).
  { intros i rf (x & -> & _)%list_lookup_fmap_Some. by unfold Make. }
  split; [| | done | constructor].
  - intros i rf [-> _]%Hb. split; [done | |].
    + intros k e [-> <-]%list_lookup_singleton_Some. done.
    + by intros k e [? _]%list_lookup_singleton_Some.
  - intros i rf [_ Hs]%Hb Hl. congruence.
Qed.

(** A cluster with a peer has peers. *)
Lemma reachable_size s i rf : reachable (cluster_system steady n) s -> nodes s !! i = Some rf -> (0 < n)%nat.
Proof.
  intros (V & V' & e & W & _ & HI)%steady_reachable%reachable_Inv Hi%lookup_lt_Some.
  rewrite (inv_len _ _ _ _ _ HI) in Hi. lia.
Qed.

Lemma reachable_logs s :
  (0 < n)%nat -> reachable (cluster_system steady n) s ->
  exists V e W T, Inv n V e W s /\ SafeInv n V s /\ LogInv V T s.
Proof.
  intros Hn. revert s. apply (invariant_ind (cluster_system steady n)
    (fun s => exists V e W T, Inv n V e W s /\ SafeInv n V s /\ LogInv V T s)).
  - intros s0 ->. exists [], (fun _ => 0), (fun _ => []), (fun _ => []).
    split; [apply Inv_boot | split; [by apply SafeInv_boot | apply LogInv_boot]].
  - intros s1 s2 (V & e & W & T & HI & HS & HL) (a & Ha & Hd). pose proof (steady_allowed _ _ Ha) as Hq.
    destruct (preserved_action n _ _ _ _ _ _ HI Hq Hd) as (V' & e' & W' & HV & _ & HI').
    pose proof (safe_action n V e W V' s1 a s2 HI HS Hq Hd HV) as HS'.
    destruct (logs_action V V' e e' W W' T s1 s2 HI HI' HV HL HS a Ha Hd) as (T' & _ & _ & HL').
    by exists V', e', W', T'.
Qed.
End invariant.

(** ** Log matching *)

(** C2: log matching.  In every execution without restarts, with prompt
    election goroutines, and in which each goroutine that sends entries copies
    them while its peer is in the term they were cut in, whatever the network does,
    if the logs of two peers have entries with the same index and term, then the
    logs are the same up to and including these entries. *)
Theorem log_matching {Cmd} `{GoRuntime Cmd} (n : nat) (s : cluster Cmd) (i j : nat) rfi rfj (ki kj : nat) ei ej :
  reachable (cluster_system steady n) s -> nodes s !! i = Some rfi -> nodes s !! j = Some rfj ->
  log rfi !! ki = Some ei -> log rfj !! kj = Some ej ->
  le_Index ei = le_Index ej -> le_Term ei = le_Term ej ->
  ki = kj /\ take (S ki) (log rfi) = take (S kj) (log rfj) /\ ei = ej.
Proof.
  intros Hs Hi Hj Hei Hej Hidx Hterm.
  assert (Hn : (0 < n)%nat) by by eapply reachable_size.
  destruct (reachable_logs n s Hn Hs) as (V & e & W & T & _ & _ & HL).
  pose proof (li_node _ _ _ _ HL _ _ Hi) as Hbi. pose proof (li_node _ _ _ _ HL _ _ Hj) as Hbj.
  pose proof (b_index _ _ Hbi _ _ Hei) as Eki. pose proof (b_index _ _ Hbj _ _ Hej) as Ekj.
  assert (ki = kj) by lia. subst kj. split; [done |].
  pose proof (backed_agree T _ _ _ _ _ Hbi Hbj Hei Hej Hterm) as E. split; [exact E |].
  assert (Hl : take (S ki) (log rfi) !! ki = take (S ki) (log rfj) !! ki) by by rewrite E.
  rewrite !lookup_take_lt in Hl by lia. congruence.
Qed.

(** C13: in every execution without restarts, with prompt election goroutines
    and prompt copies of entries, the leader of a term has every entry of the term
    that is in any log, and all that is before it there. *)
Theorem leader_has_its_entries {Cmd} `{GoRuntime Cmd} (n : nat) (s : cluster Cmd) (i j : nat) leader rf (k : nat) x :
  reachable (cluster_system steady n) s -> nodes s !! i = Some leader -> state leader = LEADER ->
  nodes s !! j = Some rf -> log rf !! S k = Some x -> le_Term x = currentTerm leader ->
  take (S (S k)) (log rf) `prefix_of` log leader.
Proof.
  intros Hs Hi Hl Hj Hx Ht. assert (Hn : (0 < n)%nat) by by eapply reachable_size.
  destruct (reachable_logs n s Hn Hs) as (V & e & W & T & HI & _ & HL).
  rewrite (leader_ledger n V e W T s i leader) by done. rewrite <- Ht.
  by apply (b_ledger _ _ (li_node _ _ _ _ HL _ _ Hj)).
Qed.

Section runs.
#[local] Instance all_registered : GoRuntime nat := {| registered := fun _ => true; newcap := fun cap _ => (2 * cap)%nat |}.

Definition entry (t : Z) (command : nat) (i : Z) : LogElement nat := MkLogElement t (Some command) i.

(** The run that breaks state machine safety keeps log matching: the logs agree
    up to the entry of term 1 at index 1, and differ after it. *)
Lemma log_matching_witness :
  exists s rf0 rf1, run_actions steady divergence (boot 3) = Ok s /\
    nodes s !! 0%nat = Some rf0 /\ nodes s !! 1%nat = Some rf1 /\
    log rf0 !! 1%nat = Some (entry 1 11 1) /\ log rf1 !! 1%nat = Some (entry 1 11 1) /\
    log rf0 !! 2%nat = Some (entry 1 22 2) /\ log rf1 !! 2%nat = Some (entry 2 33 2) /\
    take 2 (log rf0) = take 2 (log rf1).
Proof.
  destruct (run_actions steady divergence (boot 3)) as [s | | ] eqn:E; [ | vm_compute in E; discriminate E..].
  assert (Hr : reachable (cluster_system steady 3) s) by (by eapply run_actions_reachable).
  vm_compute in E. injection E as Es.
  assert (Hn : exists rf0 rf1, nodes s !! 0%nat = Some rf0 /\ nodes s !! 1%nat = Some rf1 /\
    log rf0 !! 1%nat = Some (entry 1 11 1) /\ log rf1 !! 1%nat = Some (entry 1 11 1) /\
    log rf0 !! 2%nat = Some (entry 1 22 2) /\ log rf1 !! 2%nat = Some (entry 2 33 2)).
  { rewrite <- Es. do 2 eexists. repeat (split; [reflexivity |]). reflexivity. }
  destruct Hn as (rf0 & rf1 & H0 & H1 & Ha & Hb & Hc & Hd). exists s, rf0, rf1.
  split; [reflexivity |]. repeat (split; [assumption |]).
  apply (log_matching 3 s 0 1 rf0 rf1 1 1 (entry 1 11 1) (entry 1 11 1)); [exact Hr | assumption.. | reflexivity | reflexivity].
Defined.

(** Peer 0 leads term 1, and peer 1 has received its first entry. *)
Definition replicated : list (action nat) :=
  win_0 ++ [ClientStart 0 (Some 7%nat); Tick 0 WonElection; Tick 0 Timeout; Deliver 1; Deliver 1; Deliver 2].

Lemma leader_has_its_entries_witness :
  exists s leader rf, run_actions steady replicated (boot 3) = Ok s /\
    nodes s !! 0%nat = Some leader /\ nodes s !! 1%nat = Some rf /\ state leader = LEADER /\
    log rf !! 1%nat = Some (entry 1 7 1) /\ take 2 (log rf) `prefix_of` log leader.
Proof.
  destruct (run_actions steady replicated (boot 3)) as [s | | ] eqn:E; [ | vm_compute in E; discriminate E..].
  assert (Hr : reachable (cluster_system steady 3) s) by (by eapply run_actions_reachable).
  vm_compute in E. injection E as Es.
  assert (Hn : exists leader rf, nodes s !! 0%nat = Some leader /\ nodes s !! 1%nat = Some rf /\
    state leader = LEADER /\ log rf !! 1%nat = Some (entry 1 7 1) /\ currentTerm leader = 1).
  { rewrite <- Es. do 2 eexists. repeat (split; [reflexivity |]). reflexivity. }
  destruct Hn as (leader & rf & H0 & H1 & Hl & Hx & Ht). exists s, leader, rf.
  split; [reflexivity |]. repeat (split; [assumption |]).
  apply (leader_has_its_entries 3 s 0 1 leader rf 0 (entry 1 7 1)); [exact Hr | assumption.. | by rewrite Ht].
Defined.
End runs.
