(* ===== verification/RaftOrder.v ===== *)
(** * Executions of a cluster that keeps [AppendEntries] in order

    What the environment has to do for Raft to keep its promise: the messages of
    a leader to a peer are sent and received in the order they were prepared in,
    and no peer is elected with a [matchIdx] of an earlier term.  Schedules that
    name packets by their kind and peers, and what goes wrong when only the
    first of the two is given. *)
From S2P Require Import Prelude Persister RaftServer RaftServerFacts RaftCluster RaftElection.

Local Open Scope Z_scope.

Section order.
Context {Cmd : Type} `{GoRuntime Cmd}.

(** ** The environment *)

(** The goroutines that are to call [AppendEntries] of [j] for [i], and the
    requests on their way. *)
Definition channel (p : packet Cmd) : option (bool * nat * nat) :=
  match p with
  | AppendGo i j _ _ => Some (false, i, j)
  | AppendRequest i j _ => Some (true, i, j)
  | _ => None
  end.

(** The action does not let such a message overtake one before it. *)
Definition in_order (a : action Cmd) (s : cluster Cmd) : bool :=
  match a with
  | Deliver k =>
      match net s !! k with
      | Some p => match channel p with
                  | Some c => forallb (fun q => negb (bool_decide (channel q = Some c))) (take k (net s))
                  | None => true
                  end
      | None => true
      end
  | _ => true
  end.

(** A peer that has just been elected has matched nothing. *)
Definition fresh_leaders (s s' : cluster Cmd) : bool :=
  forallb (fun x => bool_decide (state x.1 = LEADER) || negb (bool_decide (state x.2 = LEADER)) ||
                    forallb (Z.eqb 0) (matchIdx x.2)) (zip (nodes s) (nodes s')).

(** Messages in order; and, in a calm cluster, fresh leaders. *)
Definition ordered_in (e : env) (n : nat) : lts (cluster Cmd) :=
  Lts (fun s => s = boot n)
      (fun s s' => exists a, allowed e a s = true /\ in_order a s = true /\ do_action a s = Ok s').
Definition calm_in (e : env) (n : nat) : lts (cluster Cmd) :=
  Lts (fun s => s = boot n)
      (fun s s' => exists a, allowed e a s = true /\ in_order a s = true /\ do_action a s = Ok s' /\
                             fresh_leaders s s' = true).

(** No restarts, prompt election goroutines and prompt copies of entries as well. *)
Definition ordered_system : nat -> lts (cluster Cmd) := ordered_in steady.
Definition calm_system : nat -> lts (cluster Cmd) := calm_in steady.

(** ** Schedules by name *)
Inductive kind := KVoteGo | KVoteRequest | KVoteReply | KBroadcastGo | KAppendGo | KAppendRequest | KAppendReply.

Definition is_packet (k : kind) (i j : nat) (p : packet Cmd) : bool :=
  match k, p with
  | KVoteGo, VoteGo i' _ | KBroadcastGo, BroadcastGo i' => Nat.eqb i i'
  | KVoteRequest, VoteRequest i' j' _ | KVoteReply, VoteReply i' j' _ _
  | KAppendGo, AppendGo i' j' _ _ | KAppendRequest, AppendRequest i' j' _ | KAppendReply, AppendReply i' j' _ _ =>
      Nat.eqb i i' && Nat.eqb j j'
  | _, _ => false
  end.

(** An action, or the first packet of a kind to run or to lose. *)
Inductive order := Do (a : action Cmd) | Run (k : kind) (i j : nat) | Lose (k : kind) (i j : nat).

Definition find_packet (k : kind) (i j : nat) (s : cluster Cmd) : option nat :=
  fst <$> list_find (fun p => is_packet k i j p = true) (net s).

Definition action_of (o : order) (s : cluster Cmd) : option (action Cmd) :=
  match o with
  | Do a => Some a
  | Run k i j => Deliver <$> find_packet k i j s
  | Lose k i j => Drop <$> find_packet k i j s
  end.

(** Run a schedule in an ordered cluster, or in a calm one. *)
Fixpoint run_orders (e : env) (calm : bool) (os : list order) (s : cluster Cmd) : outcome (cluster Cmd) :=
  match os with
  | [] => Ok s
  | o :: os =>
      match action_of o s with
      | Some a =>
          if allowed e a s && in_order a s
          then s' ← do_action a s;
               if negb calm || fresh_leaders s s' then run_orders e calm os s' else Block
          else Block
      | None => Block
      end
  end.

Lemma run_orders_rtc e calm os s s' :
  run_orders e calm os s = Ok s' ->
  rtc (fun s s' => exists a, allowed e a s = true /\ in_order a s = true /\ do_action a s = Ok s' /\
         (calm = true -> fresh_leaders s s' = true)) s s'.
Proof.
  revert s. induction os as [|o os IH]; intros s E; simpl in E; [injection E as ->; apply rtc_refl | ].
  destruct (action_of o s) as [a|]; [ | done]. destruct (allowed _ _ _ && _) eqn:Ha; [ | done]. zbool.
  apply bind_inv in E as (s1 & Hs1 & E). destruct (negb calm || _) eqn:Hc; [ | done].
  apply rtc_l with s1; [ | by apply IH]. exists a. split_and!; [done.. | ]. intros ->. exact Hc.
Qed.

Lemma run_orders_ordered e n os s : run_orders e false os (boot n) = Ok s -> reachable (ordered_in e n) s.
Proof.
  intros E%run_orders_rtc. exists (boot n). split; [done | ]. eapply rtc_subrel; [ | exact E].
  intros s1 s2 (a & Ha & Ho & Hd & _). by exists a.
Qed.

Lemma run_orders_calm e n os s : run_orders e true os (boot n) = Ok s -> reachable (calm_in e n) s.
Proof.
  intros E%run_orders_rtc. exists (boot n). split; [done | ]. eapply rtc_subrel; [ | exact E].
  intros s1 s2 (a & Ha & Ho & Hd & Hf). exists a. auto.
Qed.
End order.
Arguments order : clear implicits.

(** ** State machine safety *)
Section stale_match.
#[local] Instance all_registered' : GoRuntime nat := {| registered := fun _ => true; newcap := fun cap _ => (2 * cap)%nat |}.

(** Peer [i] times out, asks for votes and gets those of [voters]. *)
Definition campaign (i : nat) (voters : list nat) : list (order nat) :=
  [Do (Tick i Timeout); Do (Tick i Timeout); Do (Tick i Timeout); Run KVoteGo i 0] ++
  concat (map (fun j => [Run KVoteRequest i j; Run KVoteReply i j]) voters).

(** Leader [i] broadcasts, and its message to [j] goes through. *)
Definition broadcast (i : nat) : list (order nat) := [Do (Tick i Timeout); Run KBroadcastGo i 0].
Definition replicate_to (i j : nat) : list (order nat) := [Run KAppendGo i j; Run KAppendRequest i j; Run KAppendReply i j].
Definition lost (i j : nat) : list (order nat) := [Run KAppendGo i j; Lose KAppendRequest i j].
Definition ignored (i : nat) (js : list nat) : list (order nat) := map (Lose KVoteRequest i) js.

(** Peer 0 of 5 leads term 1 and gets two commands to peer 1 only: its
    [matchIdx] for peer 1 is 2. *)
Definition term_1 : list (order nat) :=
  campaign 0 [1; 2]%nat ++ ignored 0 [3; 4]%nat ++
  [Do (ClientStart 0 (Some 11%nat)); Do (ClientStart 0 (Some 22%nat)); Do (Tick 0 WonElection)] ++
  broadcast 0 ++ replicate_to 0 1 ++ lost 0 2 ++ lost 0 3 ++ lost 0 4.
(** Peer 2 leads term 2 and replaces the logs of peers 0, 1 and 3 by one command. *)
Definition term_2 : list (order nat) :=
  campaign 2 [3; 4; 0; 1]%nat ++ [Do (ClientStart 2 (Some 33%nat)); Do (Tick 2 WonElection)] ++
  broadcast 2 ++ replicate_to 2 0 ++ replicate_to 2 1 ++ replicate_to 2 3 ++ lost 2 4.
(** Peer 0 leads term 3 and gets a second command to peer 3; counting the old
    [matchIdx] of peer 1, it commits and applies it. *)
Definition term_3 : list (order nat) :=
  Do (Tick 0 Timeout) :: campaign 0 [3; 4]%nat ++ ignored 0 [1; 2]%nat ++
  [Do (ClientStart 0 (Some 44%nat)); Do (Tick 0 WonElection)] ++
  broadcast 0 ++ replicate_to 0 3 ++ lost 0 1 ++ lost 0 2 ++ lost 0 4 ++ [Do (Apply 0)].
(** Peer 1 leads term 4 and commits and applies another second command. *)
Definition term_4 : list (order nat) :=
  campaign 1 [] ++ ignored 1 [0; 2; 3; 4]%nat ++ Do (Tick 1 Timeout) :: campaign 1 [2; 4]%nat ++ ignored 1 [0; 3]%nat ++
  [Do (ClientStart 1 (Some 55%nat)); Do (Tick 1 WonElection)] ++
  broadcast 1 ++ replicate_to 1 2 ++ replicate_to 1 4 ++ [Do (Tick 1 Timeout)] ++
  broadcast 1 ++ replicate_to 1 4 ++ [Do (Apply 1)].

(** State machine safety fails even when no message overtakes another, no peer
    restarts and no goroutine is slow: a leader elected again counts
    the [matchIdx] of its earlier term. *)
Theorem stale_match_breaks_state_machine_safety :
  exists s rf0 rf1, reachable (ordered_system 5) s /\ nodes s !! 0%nat = Some rf0 /\ nodes s !! 1%nat = Some rf1 /\
    MkApplyMsg true (Some 44%nat) 2 ∈ cApplyMsg rf0 /\ MkApplyMsg true (Some 55%nat) 2 ∈ cApplyMsg rf1.
Proof.
  destruct (run_orders steady false (term_1 ++ term_2 ++ term_3 ++ term_4) (boot 5)) as [s | | ] eqn:E; [ | vm_compute in E; discriminate E..].
  exists s. do 2 eexists. split; [by eapply run_orders_ordered | ]. vm_compute in E. injection E as <-.
  split; [reflexivity | ]. split; [reflexivity | ]. split; repeat constructor.
Qed.
End stale_match.
