(* ===== verification/RaftAliasing.v ===== *)
(** * Entries that change on their way

    [broadcastHeartbeat] puts a slice of the leader's log, [rf.log[nextIdx-baseIdx:]],
    into the arguments of each [AppendEntries], and the goroutine of
    [sendAppendEntries] copies its elements in a later critical section.  In
    between, an [AppendEntries] of a later term may write into the array the slice
    is in, and the message of the old term then carries entries of the new one.
    Two runs show what follows when everything else is as good as it gets: no
    restarts, prompt election goroutines, no message overtaken, fresh leaders. *)
From S2P Require Import Prelude Persister RaftServer RaftServerFacts RaftCluster RaftElection RaftOrder.

Local Open Scope Z_scope.

Section aliasing.
(** Capacities double, as those of small slices do. *)
#[local] Instance doubling : GoRuntime nat := {| registered := fun _ => true; newcap := fun cap _ => (2 * cap)%nat |}.

(** Peer 0 of 5 leads term 1.  It gets 11 to peer 1, appends 22, and prepares the
    message that is to take 22, the entry at index 2, to peer 1. *)
Definition prepared_22 : list (order nat) :=
  campaign 0 [1; 2]%nat ++ ignored 0 [3; 4]%nat ++
  [Do (ClientStart 0 (Some 11%nat)); Do (Tick 0 WonElection)] ++
  broadcast 0 ++ replicate_to 0 1 ++ lost 0 2 ++ lost 0 3 ++ lost 0 4 ++
  [Do (ClientStart 0 (Some 22%nat)); Do (Tick 0 Timeout)] ++ broadcast 0.

(** Peer 2 leads term 2, and gets 33 and 44 to peers 0 and 3: it commits and
    applies them.  Peer 0 writes them into the array its log is in. *)
Definition overwritten_22 : list (order nat) :=
  campaign 2 [3; 4]%nat ++ ignored 2 [0; 1]%nat ++
  [Do (ClientStart 2 (Some 33%nat)); Do (ClientStart 2 (Some 44%nat)); Do (Tick 2 WonElection)] ++
  broadcast 2 ++ replicate_to 2 0 ++ replicate_to 2 3 ++ lost 2 1 ++ lost 2 4 ++ [Do (Apply 2)].

(** Now peer 0 copies the entry for peer 1, which is still in term 1 and takes it. *)
Definition sent_44 : list (order nat) := [Run KAppendGo 0 1; Run KAppendRequest 0 1; Lose KAppendReply 0 1].

(** Peer 1 leads term 3: its last entry is of term 2.  It gets a third command to
    peers 3 and 4, commits it, and applies its log. *)
Definition applied_11 : list (order nat) :=
  campaign 1 [] ++ ignored 1 [0; 2; 3; 4]%nat ++ Do (Tick 1 Timeout) :: campaign 1 [3; 4]%nat ++ ignored 1 [0; 2]%nat ++
  [Do (ClientStart 1 (Some 55%nat)); Do (Tick 1 WonElection)] ++
  broadcast 1 ++ replicate_to 1 3 ++ replicate_to 1 4 ++ [Do (Tick 1 Timeout)] ++
  broadcast 1 ++ replicate_to 1 4 ++ [Do (Apply 1)].

(** Log matching fails: peers 1 and 2 have the same entry of term 2 at index 2,
    and different entries at index 1. *)
Theorem slow_copy_breaks_log_matching :
  exists s rf1 rf2, reachable (calm_in quiet 5) s /\ nodes s !! 1%nat = Some rf1 /\ nodes s !! 2%nat = Some rf2 /\
    log rf1 = [zero_element; MkLogElement 1 (Some 11%nat) 1; MkLogElement 2 (Some 44%nat) 2] /\
    log rf2 = [zero_element; MkLogElement 2 (Some 33%nat) 1; MkLogElement 2 (Some 44%nat) 2].
Proof.
  destruct (run_orders quiet true (prepared_22 ++ overwritten_22 ++ sent_44) (boot 5)) as [s | | ] eqn:E;
    [ | vm_compute in E; discriminate E..].
  exists s. do 2 eexists. split; [by eapply run_orders_calm | ]. vm_compute in E. injection E as <-.
  do 3 (split; [reflexivity | ]). reflexivity.
Qed.

(** State machine safety fails: peers 1 and 2 apply different commands at
    index 1. *)
Theorem slow_copy_breaks_state_machine_safety :
  exists s rf1 rf2, reachable (calm_in quiet 5) s /\ nodes s !! 1%nat = Some rf1 /\ nodes s !! 2%nat = Some rf2 /\
    MkApplyMsg true (Some 11%nat) 1 ∈ cApplyMsg rf1 /\ MkApplyMsg true (Some 33%nat) 1 ∈ cApplyMsg rf2.
Proof.
  destruct (run_orders quiet true (prepared_22 ++ overwritten_22 ++ sent_44 ++ applied_11) (boot 5)) as [s | | ] eqn:E;
    [ | vm_compute in E; discriminate E..].
  exists s. do 2 eexists. split; [by eapply run_orders_calm | ]. vm_compute in E. injection E as <-.
  split; [reflexivity | ]. split; [reflexivity | ]. split; repeat constructor.
Qed.
End aliasing.
