(* ===== verification/RaftAgree.v ===== *)
(** * Why committed entries stay

    The argument for leader completeness, apart from how the cluster moves: when
    the ledgers of [RaftLogs] and what each peer accepted in each term have the
    shape that elections give them, every later ledger starts with what a
    majority has accepted in an earlier one. *)
From S2P Require Import Prelude Persister RaftServer RaftServerFacts RaftCluster RaftElection RaftMemory RaftSafe RaftLogs.

Local Open Scope Z_scope.

Section agree.
Context {Cmd : Type} `{GoRuntime Cmd} (n : nat).
Implicit Types (l : list (LogElement Cmd)) (v : nat) (t u w : Z).

(** ** Up to date *)
Definition last_term l : Z := match last l with Some e => le_Term e | None => 0 end.

(** What [RequestVote] checks of a candidate's log [k] against the log [l]. *)
Definition up_to_date k l : Prop :=
  last_term l < last_term k \/ (last_term k = last_term l /\ (length l <= length k)%nat).

Lemma last_term_at l e : last l = Some e -> last_term l = le_Term e.
Proof. unfold last_term. by intros ->. Qed.

Lemma up_to_date_refl l : up_to_date l l.
Proof. by right. Qed.

Lemma prefix_shorter l1 l2 l3 : l1 `prefix_of` l3 -> l2 `prefix_of` l3 -> (length l1 <= length l2)%nat -> l1 `prefix_of` l2.
Proof.
  intros H1 H2 Hle. destruct (prefix_weak_total l1 l2 l3 H1 H2) as [ | Hp]; [done | ].
  by rewrite (prefix_length_eq _ _ Hp Hle).
Qed.

Lemma take_prefix l k k' : (k <= k')%nat -> take k l `prefix_of` take k' l.
Proof. intros Hk. apply (prefix_shorter _ _ l); [apply prefix_take | apply prefix_take | ]. rewrite !length_take. lia. Qed.

(** ** Ghost state

    [T]: the ledger of each term; [F]: the log its leader won the election with;
    [A v t]: how much of the ledger of term [t] peer [v] has accepted, its leader
    included; [voted v t]: [v] has voted in term [t]. *)
Variables (T F : ledger (Cmd := Cmd)) (A : nat -> Z -> nat) (voted : nat -> Z -> Prop).

(** The log of [v] at the end of term [b]: what it accepted last. *)
Definition stored v b l : Prop :=
  (exists u, u <= b /\ (0 < A v u)%nat /\ (forall w, u < w <= b -> A v w = 0%nat) /\ l = take (A v u) (T u)) \/
  ((forall w, w <= b -> A v w = 0%nat) /\ l = [base_entry]).

Lemma stored_unique v b l l' : stored v b l -> stored v b l' -> l = l'.
Proof.
  intros [(u & Hu & Hp & Hw & ->) | [Hw ->]] [(u' & Hu' & Hp' & Hw' & ->) | [Hw' ->]]; [ | | | done].
  - destruct (Z.lt_trichotomy u u') as [Hlt | [-> | Hlt]]; [ | done | ].
    + rewrite (Hw u') in Hp' by lia. lia.
    + rewrite (Hw' u) in Hp by lia. lia.
  - rewrite Hw' in Hp by done. lia.
  - rewrite Hw in Hp' by done. lia.
Qed.

(** Terms in which [v] accepted nothing do not matter. *)
Lemma stored_idle v b b' l : b <= b' -> (forall w, b < w <= b' -> A v w = 0%nat) -> stored v b' l <-> stored v b l.
Proof.
  intros Hb Hidle. split.
  - intros [(u & Hu & Hp & Hw & ->) | [Hw ->]]; [left; exists u | right].
    + destruct (decide (u <= b)); [ | rewrite Hidle in Hp; lia]. split_and!; [done | done | | done]. intros w Hl. apply Hw. lia.
    + split; [ | done]. intros w Hl. apply Hw. lia.
  - intros [(u & Hu & Hp & Hw & ->) | [Hw ->]]; [left; exists u | right].
    + split_and!; [lia | done | | done]. intros w Hl. destruct (decide (w <= b)); [apply Hw | apply Hidle]; lia.
    + split; [ | done]. intros w Hl. destruct (decide (w <= b)); [apply Hw | apply Hidle]; lia.
Qed.

(** The last term in which [v] accepted something. *)
Lemma last_accept v t b :
  (0 < A v t)%nat -> t <= b -> exists u, t <= u <= b /\ (0 < A v u)%nat /\ forall w, u < w <= b -> A v w = 0%nat.
Proof.
  intros Hp Htb. remember (Z.to_nat (b - t)) as d eqn:Hd. revert b Htb Hd. induction d as [ | d IH]; intros b Htb Hd.
  { exists t. split_and!; [lia | lia | done | ]. intros w Hw. lia. }
  destruct (decide (0 < A v b)%nat) as [Hb | Hb]; [exists b; split_and!; [lia | lia | done | ]; intros w Hw; lia | ].
  destruct (IH (b - 1)) as (u & Hu & Hpu & Hw); [lia | lia | ]. exists u. split_and!; [lia | lia | done | ].
  intros w Hwb. destruct (decide (w = b)) as [-> | ]; [lia | apply Hw; lia].
Qed.

(** The ledger of a term starts with an older log that was up to date for a
    majority, and goes on with entries of the term. *)
Record ledger_shape t : Prop := {
  sh_first : F t <> [];
  sh_prefix : F t `prefix_of` T t;
  sh_old : forall e, e ∈ F t -> le_Term e < t;
  sh_new : forall k e, T t !! k = Some e -> (length (F t) <= k)%nat -> le_Term e = t;
  sh_sorted : forall k k' e e', (k <= k')%nat -> T t !! k = Some e -> T t !! k' = Some e' -> le_Term e <= le_Term e';
  sh_quorum : exists Q, NoDup Q /\ (n < 2 * length Q)%nat /\
    forall v, v ∈ Q -> (v < n)%nat /\ voted v t /\ forall l, stored v (t - 1) l -> up_to_date (F t) l
}.

(** A majority has accepted the first [L] entries of the ledger of [t], the last
    of which is of that term. *)
Definition committed t (L : nat) : Prop :=
  (exists k e, L = S k /\ T t !! k = Some e /\ le_Term e = t) /\
  exists Q, NoDup Q /\ (n < 2 * length Q)%nat /\ forall q, q ∈ Q -> (q < n)%nat /\ (L <= A q t)%nat.

Record ledgers_ok : Prop := {
  lo_backed : forall t, T t <> [] -> backed T (T t);
  lo_shape : forall t, T t <> [] -> ledger_shape t;
  lo_length : forall v t, (A v t <= length (T t))%nat;
  lo_first : forall v t, (0 < A v t)%nat -> (length (F t) <= A v t)%nat
}.

Hypothesis Hok : ledgers_ok.

Lemma accepted_nonempty v t : (0 < A v t)%nat -> T t <> [].
Proof. intros Hp E. pose proof (lo_length Hok v t) as Hl. rewrite E in Hl. simpl in Hl. lia. Qed.

Lemma committed_nonempty t L : committed t L -> T t <> [].
Proof. intros [(k & e & _ & He & _) _] E. by rewrite E in He. Qed.

(** A backed log of more than the base is a prefix of its last entry's ledger. *)
Lemma last_ledger l e : backed T l -> last l = Some e -> (1 < length l)%nat -> l `prefix_of` T (le_Term e).
Proof.
  rewrite last_lookup. intros Hb He Hl. destruct (length l) as [ | [ | m]] eqn:El; [lia | lia | ]. simpl in He.
  pose proof (b_ledger _ _ Hb _ _ He) as Hp. by rewrite take_ge in Hp by lia.
Qed.

(** The entries of a ledger are of its term, or older. *)
Lemma ledger_bound t x : T t <> [] -> x ∈ T t -> le_Term x <= t.
Proof.
  intros Hne (k & Hk)%list_elem_of_lookup_1. pose proof (lo_shape Hok t Hne) as Hsh.
  destruct (decide (length (F t) <= k)%nat) as [Hle | Hlt]; [rewrite (sh_new _ Hsh k x); done || lia | ].
  destruct (sh_prefix _ Hsh) as [r Hr]. rewrite Hr, lookup_app_l in Hk by lia.
  assert (le_Term x < t) by (by eapply (sh_old _ Hsh), list_elem_of_lookup_2). lia.
Qed.

(** The first entry of a ledger is the base: terms with a ledger are positive. *)
Lemma ledger_term t : T t <> [] -> 0 < t.
Proof.
  intros Hne. pose proof (lo_shape Hok t Hne) as Hsh. apply (sh_old _ Hsh base_entry).
  pose proof (b_base _ _ (lo_backed Hok t Hne)) as Hb. destruct (sh_prefix _ Hsh) as [k Hk]. pose proof (sh_first _ Hsh) as Hf.
  rewrite Hk in Hb. destruct (F t) as [ | b f]; [done | ]. injection Hb as ->. by left.
Qed.

Lemma part_backed k t : T t <> [] -> take k (T t) <> [] -> backed T (take k (T t)).
Proof. intros Hne Hk. eapply backed_prefix; [exact (lo_backed Hok t Hne) | apply prefix_take | done]. Qed.

Lemma first_backed t : T t <> [] -> backed T (F t).
Proof.
  intros Hne. pose proof (lo_shape Hok t Hne) as Hsh.
  eapply backed_prefix; [exact (lo_backed Hok t Hne) | apply Hsh | apply Hsh].
Qed.

Lemma last_exists l : l <> [] -> exists e, last l = Some e.
Proof. intros Hl. destruct (last l) eqn:E; [eauto | by apply last_None in E]. Qed.

(** A log of a peer that has the committed entries ends in an entry that is no
    older than they are. *)
Lemma stored_last v t u L e :
  T u <> [] -> committed t L -> take L (T t) `prefix_of` take (A v u) (T u) -> last (take (A v u) (T u)) = Some e ->
  t <= le_Term e /\ (1 < length (take (A v u) (T u)))%nat.
Proof.
  intros Hu Hc Hp He. pose proof (ledger_term t (committed_nonempty _ _ Hc)) as Hpos. destruct Hc as [(k & x & -> & Hx & Ht) _].
  assert (Hx' : take (A v u) (T u) !! k = Some x).
  { eapply prefix_lookup_Some; [ | exact Hp]. rewrite lookup_take_lt by lia. done. }
  assert (Hne : take (A v u) (T u) <> []) by (intros E; by rewrite E in Hx').
  assert (Hb : backed T (take (A v u) (T u))) by (by apply part_backed).
  assert (Hk0 : k <> 0%nat).
  { intros ->. rewrite (b_base _ _ Hb) in Hx'. injection Hx' as <-. simpl in Ht. lia. }
  apply lookup_lt_Some in Hx' as Hlt. split; [ | lia]. rewrite last_lookup in He.
  apply lookup_take_Some in Hx' as [Hx' _]. apply lookup_take_Some in He as [He _].
  rewrite <- Ht. eapply (sh_sorted _ (lo_shape Hok u Hu)); [ | exact Hx' | exact He]. lia.
Qed.

(** A first ledger that ends in a term after [t] is longer than that term's. *)
Lemma first_contains t' f :
  T t' <> [] -> last (F t') = Some f -> (1 < length (F t'))%nat -> F (le_Term f) `prefix_of` F t'.
Proof.
  intros Hne Hf Hl. pose proof (lo_shape Hok t' Hne) as Hsh.
  assert (Hb : backed T (F t')) by (by apply first_backed).
  pose proof (last_ledger _ _ Hb Hf Hl) as Hp. rewrite last_lookup in Hf.
  assert (Hx : T (le_Term f) !! Nat.pred (length (F t')) = Some f) by (eapply prefix_lookup_Some; [exact Hf | exact Hp]).
  assert (Hne' : T (le_Term f) <> []) by (intros E; by rewrite E in Hx).
  pose proof (lo_shape Hok _ Hne') as Hsh'. apply (prefix_shorter _ _ (T (le_Term f))); [apply Hsh' | exact Hp | ].
  destruct (decide (length (F (le_Term f)) <= length (F t'))%nat) as [ | Hgt]; [done | exfalso].
  assert (Hin : f ∈ F (le_Term f)).
  { destruct (sh_prefix _ Hsh') as [k Hk]. rewrite Hk, lookup_app_l in Hx by lia. by eapply list_elem_of_lookup_2. }
  apply (sh_old _ Hsh') in Hin. lia.
Qed.

(** A log that is up to date for one that has the committed entries has them,
    when the ledgers of the terms in between do. *)
Lemma up_to_date_contains t L v u t' :
  committed t L -> t < t' -> T t' <> [] -> T u <> [] -> take L (T t) `prefix_of` take (A v u) (T u) ->
  up_to_date (F t') (take (A v u) (T u)) ->
  (forall w, t < w < t' -> T w <> [] -> take L (T t) `prefix_of` F w) -> take L (T t) `prefix_of` F t'.
Proof.
  intros Hc Htt' Hne Hneu Hl Hutd IH. pose proof (ledger_term t (committed_nonempty _ _ Hc)) as Hpos.
  set (l := take (A v u) (T u)) in *. pose proof (lo_shape Hok t' Hne) as Hsh.
  assert (Hlne : l <> []).
  { intros E. rewrite E in Hl. apply prefix_nil_inv in Hl. destruct Hc as [(k & x & -> & Hx & _) _]. by destruct (T t). }
  destruct (last_exists l Hlne) as [e He]. destruct (stored_last v t u L e Hneu Hc Hl He) as [Hte Hl1].
  destruct (last_exists (F t') (sh_first _ Hsh)) as [f Hf].
  assert (Hbl : backed T l) by (by apply part_backed).
  assert (Hbf : backed T (F t')) by (by apply first_backed).
  unfold up_to_date in Hutd. rewrite (last_term_at _ _ He), (last_term_at _ _ Hf) in Hutd.
  assert (Hf1 : (1 < length (F t'))%nat).
  { destruct Hutd as [Hlt | [_ Hle]]; [ | fold l in Hl1; lia]. rewrite last_lookup in Hf.
    destruct (length (F t')) as [ | [ | m]] eqn:El; simpl in Hf; [ | | lia];
      rewrite (b_base _ _ Hbf) in Hf; injection Hf as <-; simpl in Hlt; lia. }
  destruct Hutd as [Hlt | [Hlt Hle]].
  - etrans; [ | by eapply first_contains]. apply IH.
    + split; [lia | ]. apply (sh_old _ Hsh). rewrite last_lookup in Hf. by eapply list_elem_of_lookup_2.
    + intros E. pose proof (last_ledger _ _ Hbf Hf Hf1) as Hp. rewrite E in Hp. apply prefix_nil_inv in Hp. by apply (sh_first _ Hsh).
  - etrans; [exact Hl | ]. apply (prefix_shorter _ _ (T (le_Term f))); [ | by apply last_ledger | done].
    rewrite Hlt. by apply last_ledger.
Qed.

(** Leader completeness, for what a majority has accepted. *)
Lemma committed_stays t L : committed t L -> forall t', t < t' -> T t' <> [] -> take L (T t) `prefix_of` F t'.
Proof.
  intros Hc t' Htt'. remember (Z.to_nat (t' - t)) as d eqn:Hd. revert t' Htt' Hd.
  induction d as [d IH] using lt_wf_ind. intros t' Htt' Hd Hne.
  assert (IH' : forall u, t < u < t' -> T u <> [] -> take L (T t) `prefix_of` F u) by (intros u Hu; apply (IH (Z.to_nat (u - t))); lia).
  clear IH. destruct (sh_quorum _ (lo_shape Hok t' Hne)) as (Q & HQ & Hlen & Hv). pose proof Hc as [_ (Q' & HQ' & Hlen' & Hv')].
  destruct (majorities_meet n Q Q') as (v & HvQ & HvQ'); [done.. | by apply Hv | by apply Hv' | done | done | ].
  destruct (Hv v HvQ) as (_ & _ & Hutd). destruct (Hv' v HvQ') as [_ HL].
  assert (HL0 : (0 < L)%nat) by (destruct Hc as [(k & x & -> & _) _]; lia).
  destruct (last_accept v t (t' - 1)) as (u & Hu & Hpu & Hw); [lia | lia | ].
  pose proof (accepted_nonempty v u Hpu) as Hneu. apply (up_to_date_contains t L v u t'); try done.
  - destruct (decide (u = t)) as [-> | Hut]; [by apply take_prefix | ].
    etrans; [apply (IH' u); [lia | done] | ]. apply (prefix_shorter _ _ (T u)); [by apply lo_shape | apply prefix_take | ].
    rewrite length_take. pose proof (lo_length Hok v u). pose proof (lo_first Hok v u Hpu). lia.
  - apply Hutd. left. exists u. split_and!; [lia | done | | done]. intros w Hlw. apply Hw. lia.
Qed.

(** Two committed prefixes agree where both reach. *)
Lemma committed_agree t t' L L' k :
  committed t L -> committed t' L' -> (k <= L)%nat -> (k <= L')%nat -> take k (T t) = take k (T t').
Proof.
  assert (Hlt : forall t t' L L', committed t L -> committed t' L' -> (k <= L)%nat -> (k <= L')%nat -> t < t' -> take k (T t) = take k (T t')).
  { clear t t' L L'. intros t t' L L' Hc Hc' HL HL' Htt'. pose proof (committed_nonempty _ _ Hc') as Hne.
    assert (Hp : take L (T t) `prefix_of` T t') by (etrans; [by apply committed_stays | by apply lo_shape]).
    assert (Hlen : (k <= length (T t))%nat) by (destruct Hc as [(j & x & -> & Hx & _) _]; apply lookup_lt_Some in Hx; lia).
    destruct Hp as [r Hr]. rewrite Hr, take_app_le, take_take by (rewrite length_take; lia). by rewrite Nat.min_l by lia. }
  intros Hc Hc' HL HL'. destruct (Z.lt_trichotomy t t') as [ | [-> | ]]; [by eapply Hlt | done | symmetry; by eapply Hlt].
Qed.
End agree.
