(* ===== verification/RaftAgreeInv.v ===== *)
(** * The invariant of a calm cluster

    What the peers, the votes and the messages of an execution know about the
    ghost state of [RaftAgree], and the one lemma that carries it over a step of
    a single peer. *)
From Stdlib Require Import Sorting.Sorted.
From S2P Require Import Prelude Persister RaftServer RaftServerFacts RaftCluster RaftElection RaftMemory RaftSafe RaftLogs RaftAgree.

Local Open Scope Z_scope.

(** The ghost state: ledgers, the logs they started with, what was accepted, and
    the log of each candidate of a term when it started its election. *)
Record ghost (Cmd : Type) := Ghost {
  gT : ledger (Cmd := Cmd); gF : ledger (Cmd := Cmd); gA : nat -> Z -> nat; gK : Z -> nat -> list (LogElement Cmd)
}.
Arguments Ghost {Cmd}.
Arguments gT {Cmd}.
Arguments gF {Cmd}.
Arguments gA {Cmd}.
Arguments gK {Cmd}.

Section invariant.
Context {Cmd : Type} `{GoRuntime Cmd} (n : nat).
Implicit Types (rf : Raft Cmd) (s : cluster Cmd) (p : packet Cmd) (V : list vote) (g : ghost Cmd).

(** A majority has accepted [command] at index [k]. *)
Definition chosen g (k : Z) (command : option Cmd) : Prop :=
  exists t L e, committed n (gT g) (gA g) t L /\ 0 <= k /\ (Z.to_nat k < L)%nat /\
    gT g t !! Z.to_nat k = Some e /\ le_Command e = command.

(** A commit index that a message of term [u] or a peer whose last acceptance was
    in [u] may know. *)
Definition commit_known g (u c : Z) : Prop :=
  c <= 0 \/ exists t L, committed n (gT g) (gA g) t L /\ (Z.to_nat c < L)%nat /\ t <= u.

(** What was sent on the apply channel: entries 1 to [appliedLast], which the
    commit index has passed. *)
Record applied_in_order rf : Prop := {
  ao_commit : appliedLast rf <= commitIdx rf;
  ao_length : len (cApplyMsg rf) = appliedLast rf;
  ao_index : forall k m, cApplyMsg rf !! k = Some m -> CommandValid m = true /\ CommandIndex m = Z.of_nat (S k)
}.

Record node_agree g V (i : nat) rf : Prop := {
  na_stored : stored (gT g) (gA g) i (currentTerm rf) (log rf);
  na_future : forall w, currentTerm rf < w -> gA g i w = 0%nat;
  na_voted : forall c, votedFor rf = Z.of_nat c -> gT g (currentTerm rf) = [] ->
    up_to_date (gK g (currentTerm rf) c) (log rf);
  na_owner : elected n V (currentTerm rf) i -> gT g (currentTerm rf) <> [] ->
    gA g i (currentTerm rf) = length (gT g (currentTerm rf));
  na_match : state rf = LEADER -> forall j m, matchIdx rf !! j = Some m ->
    j = i \/ m <= 0 \/ (Z.to_nat m < gA g j (currentTerm rf))%nat;
  na_commit : commitIdx rf <= 0 \/
    exists u, commit_known g u (commitIdx rf) /\ (Z.to_nat (commitIdx rf) < gA g i u)%nat /\ forall w, u < w -> gA g i w = 0%nat;
  na_applied : forall m, m ∈ cApplyMsg rf -> chosen g (CommandIndex m) (am_Command m);
  na_channel : applied_in_order rf
}.

(** The election a packet belongs to. *)
Definition election p : option (nat * Z) :=
  match p with
  | VoteGo i t => Some (i, t)
  | VoteRequest i _ args | VoteReply i _ args _ => Some (i, rv_Term args)
  | _ => None
  end.

(** The candidate has the log it started with, until somebody wins. *)
Definition same_candidate g s p : Prop :=
  forall i t rf, election p = Some (i, t) -> nodes s !! i = Some rf -> currentTerm rf = t -> gT g t = [] -> log rf = gK g t i.

Definition packet_agree g p : Prop :=
  match p with
  | VoteRequest i j args =>
      gT g (rv_Term args) = [] ->
      rv_LastLogTerm args = last_term (gK g (rv_Term args) i) /\ rv_LastLogIdx args = len (gK g (rv_Term args) i) - 1
  | AppendGo i j a _ | AppendRequest i j a =>
      (length (gF g (ae_Term a)) <= reach a)%nat /\ (gA g j (ae_Term a) <= reach a)%nat /\
      commit_known g (ae_Term a) (ae_LeaderCommit a)
  | AppendReply i j a reply => aer_Success reply = true -> (reach a <= gA g j (ae_Term a))%nat
  | _ => True
  end.

(** The messages of [i] for [j]: the requests on their way, then those to be sent. *)
Definition requested (i j : nat) p : option (AppendEntriesArgs Cmd) :=
  match p with AppendRequest i' j' a => if decide (i' = i /\ j' = j) then Some a else None | _ => None end.
Definition to_send (i j : nat) p : option (AppendEntriesArgs Cmd) :=
  match p with AppendGo i' j' a _ => if decide (i' = i /\ j' = j) then Some a else None | _ => None end.
Definition sends (i j : nat) (ps : list (packet Cmd)) : list (AppendEntriesArgs Cmd) :=
  omap (requested i j) ps ++ omap (to_send i j) ps.

(** A later message of a term leaves a log that is no shorter. *)
Definition no_shorter (a b : AppendEntriesArgs Cmd) : Prop := ae_Term a = ae_Term b -> (reach a <= reach b)%nat.

Definition has_voted V (v : nat) (t : Z) : Prop := exists c, (v, t, c) ∈ V.

Record Agree g V s : Prop := {
  ag_ledgers : ledgers_ok n (gT g) (gF g) (gA g) (has_voted V);
  ag_votes : forall v t c, (v, t, c) ∈ V -> gT g t = [] ->
    forall l, stored (gT g) (gA g) v (t - 1) l -> up_to_date (gK g t c) l;
  ag_candidates : forall v t c rf, (v, t, c) ∈ V -> nodes s !! c = Some rf -> t <= currentTerm rf;
  ag_voted : forall v rf c rf', nodes s !! v = Some rf -> votedFor rf = Z.of_nat c -> nodes s !! c = Some rf' ->
    currentTerm rf <= currentTerm rf';
  ag_node : forall i rf, nodes s !! i = Some rf -> node_agree g V i rf;
  ag_same : Forall (same_candidate g s) (net s);
  ag_net : Forall (packet_agree g) (net s);
  ag_order : forall i j, StronglySorted no_shorter (sends i j (net s))
}.

(** ** What a step does to the ghost state *)

(** Only peer [i] accepts anything, and only in term [t]. *)
Record grown g g' (i : nat) (t : Z) : Prop := {
  gr_ledger : grows (gT g) (gT g');
  gr_first : forall w, gT g w <> [] -> gF g' w = gF g w;
  gr_more : forall v w, (gA g v w <= gA g' v w)%nat;
  gr_only : forall v w, v <> i \/ w <> t -> gA g' v w = gA g v w;
  gr_other : forall w, w <> t -> gT g' w = gT g w;
  gr_candidate : forall w c, c <> i \/ w <> t -> gK g' w c = gK g w c
}.

Lemma grown_refl g i t : grown g g i t.
Proof. split; try done. by intros w. Qed.

Section grown.
Context (g g' : ghost Cmd) (i : nat) (t : Z) (V : list vote) (Hg : grown g g' i t) (Hok : ledgers_ok n (gT g) (gF g) (gA g) (has_voted V)).

Lemma grown_empty w : gT g' w = [] -> gT g w = [].
Proof. intros E. pose proof (gr_ledger _ _ _ _ Hg w) as Hp. rewrite E in Hp. by apply prefix_nil_inv in Hp. Qed.

Lemma grown_take v w : take (gA g v w) (gT g' w) = take (gA g v w) (gT g w).
Proof. destruct (gr_ledger _ _ _ _ Hg w) as [k ->]. apply take_app_le, (lo_length _ _ _ _ _ Hok). Qed.

Lemma grown_stored v b l : (v <> i \/ b < t) -> stored (gT g') (gA g') v b l <-> stored (gT g) (gA g) v b l.
Proof.
  intros Hb. assert (HA : forall w, w <= b -> gA g' v w = gA g v w) by (intros w Hw; apply (gr_only _ _ _ _ Hg); lia).
  split; (intros [(u & Hu & Hp & Hw & ->) | [Hw ->]]; [left; exists u | right]).
  - rewrite HA in Hp |- * by done. rewrite grown_take. split_and!; try done. intros w Hl. rewrite <- HA by lia. by apply Hw.
  - split; [ | done]. intros w Hl. rewrite <- HA by done. by apply Hw.
  - rewrite HA by done. rewrite grown_take. split_and!; try done. intros w Hl. rewrite HA by lia. by apply Hw.
  - split; [ | done]. intros w Hl. rewrite HA by done. by apply Hw.
Qed.

Lemma grown_committed w L : committed n (gT g) (gA g) w L -> committed n (gT g') (gA g') w L.
Proof.
  intros [(k & e & -> & He & Ht) (Q & HQ & Hlen & Hq)]. split.
  - exists k, e. split; [done | ]. split; [ | done]. eapply prefix_lookup_Some; [exact He | apply Hg].
  - exists Q. split; [done | ]. split; [done | ]. intros q Hin. destruct (Hq q Hin) as [Hqn Hle]. split; [done | ].
    pose proof (gr_more _ _ _ _ Hg q w). lia.
Qed.

Lemma grown_known u c : commit_known g u c -> commit_known g' u c.
Proof. intros [Hc | (w & L & Hc & HL & Hw)]; [by left | right]. exists w, L. auto using grown_committed. Qed.

Lemma grown_chosen k c : chosen g k c -> chosen g' k c.
Proof.
  intros (w & L & e & Hc & Hk & HL & He & Hcmd). exists w, L, e. split_and!; try done; [by apply grown_committed | ].
  eapply prefix_lookup_Some; [exact He | apply Hg].
Qed.
End grown.

(** ** A step of peer [i] *)
Section move.
Context (g g' : ghost Cmd) (V V' : list vote) (e e' : nat -> Z) (W W' : nat -> list nat) (s s' : cluster Cmd).
Context (i : nat) (rf rf' : Raft Cmd) (pcs : list ticker_pc) (ps : list (packet Cmd)).
Hypothesis HI : Inv n V e W s.
Hypothesis HLe : forall t, gT g t <> [] -> exists c, elected n V t c.
Hypothesis HLn : Forall (sent_ok n V (gT g)) (net s).
Hypothesis HA : Agree g V s.
Hypothesis Es : s' = Cluster (<[i := rf']> (nodes s)) pcs ps.
Hypothesis HI' : Inv n V' e' W' s'.
Hypothesis HV : forall x, x ∈ V -> x ∈ V'.
Hypothesis Hnew : new_votes V V' s'.
Hypothesis Hi : nodes s !! i = Some rf.
Hypothesis Hterm : currentTerm rf <= currentTerm rf'.
Hypothesis Hg : grown g g' i (currentTerm rf').
Hypothesis Hok' : ledgers_ok n (gT g') (gF g') (gA g') (has_voted V').
Hypothesis Hextend : gT g' (currentTerm rf') = gT g (currentTerm rf') \/ elected n V' (currentTerm rf') i.
Hypothesis Hcand : currentTerm rf = currentTerm rf' -> gK g' (currentTerm rf') i = gK g (currentTerm rf') i.
Hypothesis Hlog : currentTerm rf = currentTerm rf' -> gT g' (currentTerm rf') = [] -> log rf' = log rf.
Hypothesis Hvoted : forall c rc, votedFor rf' = Z.of_nat c -> c <> i -> nodes s !! c = Some rc -> currentTerm rf' <= currentTerm rc.
Hypothesis Hnode : node_agree g' V' i rf'.
Hypothesis Hps : forall p, p ∈ ps ->
  (p ∈ net s /\ forall j a, (exists sl, p = AppendGo j i a sl) \/ p = AppendRequest j i a -> ae_Term a = currentTerm rf' ->
     (gA g' i (currentTerm rf') <= reach a)%nat) \/
  (packet_agree g' p /\ (same_candidate g' s' p \/ exists q, q ∈ net s /\ election p = election q)).
Hypothesis Horder : forall a b, StronglySorted no_shorter (sends a b ps).

Lemma move_lookup v r : nodes s' !! v = Some r -> v = i /\ r = rf' \/ v <> i /\ nodes s !! v = Some r.
Proof.
  rewrite Es. simpl. destruct (decide (v = i)) as [-> | Hne].
  - rewrite list_lookup_insert_eq by by eapply lookup_lt_Some. intros [= <-]. by left.
  - rewrite list_lookup_insert_ne by done. by right.
Qed.

Lemma move_candidates v t c r : (v, t, c) ∈ V -> nodes s !! c = Some r -> t <= currentTerm r.
Proof. apply (ag_candidates _ _ _ HA). Qed.

(** No vote, no request of a peer is about a term it has not reached. *)
Lemma move_candidate t c r : nodes s !! c = Some r -> t <= currentTerm r -> gK g' t c = gK g t c.
Proof.
  intros Hc Ht. destruct (decide (c = i /\ t = currentTerm rf')) as [[-> ->] | Hne].
  - assert (r = rf) by congruence. subst r. apply Hcand. lia.
  - apply (gr_candidate _ _ _ _ Hg). destruct (decide (c = i)); [right | left]; naive_solver.
Qed.

Lemma move_node v r : v <> i -> nodes s !! v = Some r -> node_agree g' V' v r.
Proof.
  intros Hv Hr. destruct (ag_node _ _ _ HA v r Hr) as [Hst Hfu Hvo Hown Hma Hco Hap Hch].
  assert (HAv : forall w, gA g' v w = gA g v w) by (intros w; apply (gr_only _ _ _ _ Hg); by left).
  pose proof (ag_ledgers _ _ _ HA) as Hok. split.
  - apply (grown_stored g g' i _ V Hg Hok); [by left | done].
  - intros w Hw. rewrite HAv. by apply Hfu.
  - intros c Hc Ht. apply (grown_empty _ _ _ _ Hg) in Ht as Ht'.
    destruct (decide (c = i /\ currentTerm r = currentTerm rf')) as [[-> E] | Hne].
    + pose proof (ag_voted _ _ _ HA v r i rf Hr Hc Hi). rewrite E in *. rewrite Hcand by lia. by apply Hvo.
    + rewrite (gr_candidate _ _ _ _ Hg); [by apply Hvo | ]. destruct (decide (c = i)); [right | left]; naive_solver.
  - intros He Hne. rewrite HAv.
    assert (E : gT g' (currentTerm r) = gT g (currentTerm r)).
    { destruct (decide (currentTerm r = currentTerm rf')) as [Er | Er]; [ | by apply (gr_other _ _ _ _ Hg)].
      rewrite Er in *. destruct Hextend as [ | He']; [done | ]. destruct Hv. by eapply elected_unique. }
    rewrite E in *. apply Hown; [ | done]. destruct (HLe _ Hne) as (c & Hc).
    replace v with c; [done | ]. eapply elected_unique; [exact HI' | by eapply elected_mono | exact He].
  - intros Hl j m Hm. destruct (Hma Hl j m Hm) as [ | [ | Hlt]]; [by left | by right; left | right; right].
    pose proof (gr_more _ _ _ _ Hg j (currentTerm r)). lia.
  - destruct Hco as [ | (u & Hk & Hu & Hw)]; [by left | right]. exists u. rewrite HAv. split_and!; [by eapply grown_known | done | ].
    intros w. rewrite HAv. apply Hw.
  - intros m Hm. eapply grown_chosen; [exact Hg | by apply Hap].
  - done.
Qed.

(** The votes of an old term, and those just cast. *)
Lemma move_votes v t c :
  (v, t, c) ∈ V' -> gT g' t = [] -> forall l, stored (gT g') (gA g') v (t - 1) l -> up_to_date (gK g' t c) l.
Proof.
  intros Hin Ht l Hl. pose proof (ag_ledgers _ _ _ HA) as Hok. destruct (Hnew _ _ _ Hin) as [Hold | (r & Hr & Hrt & Hrv)].
  - apply (grown_empty _ _ _ _ Hg) in Ht as Ht'. assert (Hvt : v <> i \/ t - 1 < currentTerm rf').
    { destruct (decide (v = i)) as [-> | ]; [right | by left].
      destruct (no_vote _ _ _ _ _ _ _ (inv_node _ _ _ _ _ HI _ _ Hi) _ _ Hold) as [? _]. lia. }
    apply (grown_stored g g' i _ V Hg Hok) in Hl; [ | done].
    assert (E : gK g' t c = gK g t c).
    { destruct (nodes s !! c) as [rc | ] eqn:Hc; [eapply move_candidate; [exact Hc | by eapply move_candidates] | ].
      apply (gr_candidate _ _ _ _ Hg). left. intros ->. by rewrite Hi in Hc. }
    rewrite E. by eapply (ag_votes _ _ _ HA).
  - assert (Hna : node_agree g' V' v r).
    { destruct (move_lookup v r Hr) as [[-> ->] | [Hne Hr']]; [exact Hnode | by apply move_node]. }
    destruct Hna as [Hst _ Hvo _ _ _ _ _]. rewrite Hrt in *.
    assert (Hzero : gA g' v t = 0%nat) by (pose proof (lo_length _ _ _ _ _ Hok' v t) as Hle; rewrite Ht in Hle; simpl in Hle; lia).
    apply (stored_idle _ _ v (t - 1) t) in Hst; [ | lia | intros w Hw; by replace w with t by lia].
    rewrite (stored_unique _ _ _ _ _ _ Hl Hst). by apply Hvo.
Qed.

Lemma move_voted v r c rc :
  nodes s' !! v = Some r -> votedFor r = Z.of_nat c -> nodes s' !! c = Some rc -> currentTerm r <= currentTerm rc.
Proof.
  intros Hr Hv Hc. destruct (move_lookup v r Hr) as [[-> ->] | [Hne Hr']], (move_lookup c rc Hc) as [[-> ->] | [Hne' Hc']].
  - lia.
  - by eapply Hvoted.
  - pose proof (ag_voted _ _ _ HA v r i rf Hr' Hv Hi). lia.
  - by eapply (ag_voted _ _ _ HA).
Qed.

Lemma move_election p c t rc : p ∈ net s -> election p = Some (c, t) -> nodes s !! c = Some rc -> t <= currentTerm rc.
Proof.
  intros Hp Hel Hc. pose proof (inv_net _ _ _ _ _ HI) as Hpk. rewrite Forall_forall in Hpk. specialize (Hpk p Hp).
  pose proof (no_elect _ _ _ _ _ _ _ (inv_node _ _ _ _ _ HI _ _ Hc)).
  destruct p; simpl in Hel, Hpk; simplify_eq; destruct_and?; lia.
Qed.

Lemma move_old_same p q : q ∈ net s -> election p = election q -> same_candidate g' s' p.
Proof.
  intros Hq Epq c t r Hel Hr Hrt Ht. rewrite Epq in Hel. pose proof (ag_same _ _ _ HA) as Hsame. rewrite Forall_forall in Hsame.
  specialize (Hsame q Hq). apply (grown_empty _ _ _ _ Hg) in Ht as Ht'.
  destruct (move_lookup c r Hr) as [[-> ->] | [Hne Hr']].
  - assert (E : currentTerm rf = currentTerm rf') by (pose proof (move_election q i t rf Hq Hel Hi); lia).
    rewrite Hlog by (done || by rewrite Hrt). subst t. rewrite Hcand by done. by eapply Hsame.
  - rewrite (gr_candidate _ _ _ _ Hg) by by left. by eapply Hsame.
Qed.

Lemma move_old_packet p :
  p ∈ net s ->
  (forall j a, (exists sl, p = AppendGo j i a sl) \/ p = AppendRequest j i a -> ae_Term a = currentTerm rf' -> (gA g' i (currentTerm rf') <= reach a)%nat) ->
  packet_agree g' p.
Proof.
  intros Hp Hreach. pose proof (ag_net _ _ _ HA) as Hnet. rewrite Forall_forall in Hnet. specialize (Hnet p Hp).
  pose proof HLn as Hsent. rewrite Forall_forall in Hsent. specialize (Hsent p Hp).
  assert (Happ : forall j a, (exists sl, p = AppendGo j i a sl) \/ p = AppendRequest j i a -> (gA g' i (ae_Term a) <= reach a)%nat).
  { intros j a Hja. destruct (decide (ae_Term a = currentTerm rf')) as [E | E]; [rewrite E; by eapply Hreach | ].
    rewrite (gr_only _ _ _ _ Hg) by by right. destruct Hja as [[sl ->] | ->]; apply Hnet. }
  assert (Hsend : forall j a, segment_of (gT g (ae_Term a)) a -> (length (gF g (ae_Term a)) <= reach a)%nat /\ (gA g j (ae_Term a) <= reach a)%nat /\
      commit_known g (ae_Term a) (ae_LeaderCommit a) -> (j = i -> (gA g' i (ae_Term a) <= reach a)%nat) ->
      (length (gF g' (ae_Term a)) <= reach a)%nat /\ (gA g' j (ae_Term a) <= reach a)%nat /\ commit_known g' (ae_Term a) (ae_LeaderCommit a)).
  { intros j a (q & x & _ & Hx & _) (H1 & H2 & H3) Hj. split_and!.
    - rewrite (gr_first _ _ _ _ Hg); [done | intros E; by rewrite E in Hx].
    - destruct (decide (j = i)) as [-> | Hne]; [by apply Hj | ]. rewrite (gr_only _ _ _ _ Hg) by by left. done.
    - by eapply grown_known. }
  destruct p as [ | c j args | | | j k a sl | j k a | c j a reply]; simpl in *; try done.
  - intros Ht. apply (grown_empty _ _ _ _ Hg) in Ht as Ht'.
    assert (E : gK g' (rv_Term args) c = gK g (rv_Term args) c).
    { destruct (nodes s !! c) as [rc | ] eqn:Hc; [eapply move_candidate; [exact Hc | by eapply move_election] | ].
      apply (gr_candidate _ _ _ _ Hg). left. intros ->. by rewrite Hi in Hc. }
    rewrite E. by apply Hnet.
  - apply Hsend; [apply Hsent | done | intros ->; eapply Happ; left; by exists sl].
  - apply Hsend; [apply Hsent | done | intros ->; eapply Happ; by right].
  - intros Hs. specialize (Hnet Hs). pose proof (gr_more _ _ _ _ Hg j (ae_Term a)). lia.
Qed.

Lemma move_agree : Agree g' V' s'.
Proof.
  assert (Hp : forall p, p ∈ ps -> packet_agree g' p /\ same_candidate g' s' p).
  { intros p Hin. destruct (Hps p Hin) as [[Hold Hr] | [Hp [Hsame | (q & Hq & E)]]].
    - split; [by apply move_old_packet | by eapply move_old_same].
    - done.
    - split; [done | by eapply move_old_same]. }
  split.
  - done.
  - intros v t c Hin Ht. by apply move_votes.
  - intros v t c r Hin Hr. destruct (Hnew _ _ _ Hin) as [Hold | (rv & Hrv & Ht & Hv)].
    + destruct (move_lookup c r Hr) as [[-> ->] | [Hne Hr']]; [ | by eapply move_candidates].
      pose proof (move_candidates _ _ _ _ Hold Hi). lia.
    + rewrite <- Ht. by eapply move_voted.
  - intros v r c rc. apply move_voted.
  - intros v r Hr. destruct (move_lookup v r Hr) as [[-> ->] | [Hne Hr']]; [exact Hnode | by apply move_node].
  - rewrite Es. apply Forall_forall. intros p Hin. rewrite <- Es. by apply Hp.
  - rewrite Es. apply Forall_forall. intros p Hin. by apply Hp.
  - by rewrite Es.
Qed.
End move.
End invariant.
