(* ===== verification/RaftCalmPeer.v ===== *)
(** * What the functions of a peer do to what the cluster agrees on

    For each function of [RaftServer] that changes a peer, its effect on the log,
    the vote, the commit index, the messages applied and, in a leader, the
    matches it counts. *)
From S2P Require Import Prelude Persister RaftServer RaftServerFacts RaftCluster RaftElection RaftMemory RaftSafe RaftLogs RaftAgree RaftAgreeInv.

Local Open Scope Z_scope.

Section peer.
Context {Cmd : Type} `{GoRuntime Cmd}.
Implicit Types rf : Raft Cmd.

(** Nothing but the term moves; a new term starts without a vote. *)
Record untouched rf rf' : Prop := {
  st_log : log rf' = log rf;
  st_commit : commitIdx rf' = commitIdx rf;
  st_applied : cApplyMsg rf' = cApplyMsg rf;
  st_last : appliedLast rf' = appliedLast rf;
  st_term : currentTerm rf <= currentTerm rf';
  st_vote : currentTerm rf' = currentTerm rf -> votedFor rf' = votedFor rf;
  st_novote : currentTerm rf < currentTerm rf' -> votedFor rf' = -1
}.

(** A leader was one before, in its term and with its matches. *)
Definition old_leader rf rf' : Prop :=
  state rf' = LEADER -> state rf = LEADER /\ currentTerm rf' = currentTerm rf /\ matchIdx rf' = matchIdx rf.

Definition still rf rf' : Prop := untouched rf rf' /\ old_leader rf rf'.

Lemma still_refl rf : still rf rf.
Proof. split; [ | done]. split; try done; lia. Qed.

Lemma still_trans rf1 rf2 rf3 : still rf1 rf2 -> still rf2 rf3 -> still rf1 rf3.
Proof.
  intros [[H1 H2 H3 H3' H4 H5 H6] H7] [[K1 K2 K3 K3' K4 K5 K6] K7].
  assert (Hvote : currentTerm rf3 = currentTerm rf1 -> votedFor rf3 = votedFor rf1).
  { intros E. rewrite K5 by lia. apply H5. lia. }
  assert (Hno : currentTerm rf1 < currentTerm rf3 -> votedFor rf3 = -1).
  { intros Hlt. destruct (decide (currentTerm rf2 < currentTerm rf3)); [auto | ]. rewrite K5 by lia. apply H6. lia. }
  split; [split; congruence || lia || done | ].
  intros Hl. destruct (K7 Hl) as (Hl2 & E1 & E2). destruct (H7 Hl2) as (Hl1 & E3 & E4). split_and!; congruence.
Qed.

Lemma still_persist rf : still rf (persist rf).
Proof. destruct (persist_set rf) as [ps ->]. split; [split; simpl; try done; lia | done]. Qed.

Lemma still_step_down t rf : still rf (step_down t rf).
Proof. unfold step_down. branch; [ | apply still_refl]. zbool. split; [split; simpl; try done; lia | done]. Qed.

Lemma still_heartbeat rf rf' : notify_heartbeat rf = Ok rf' -> still rf rf'.
Proof. unfold notify_heartbeat. branch; intros [= <-]. split; [split; simpl; try done; lia | done]. Qed.

Lemma still_follower rf : still rf (set_state FOLLOWER rf).
Proof. split; [split; simpl; try done; lia | done]. Qed.

Lemma still_candidate rf : still rf (set_state CANDIDATE rf).
Proof. split; [split; simpl; try done; lia | done]. Qed.

Lemma still_wake k rf : still rf (set_cHeartbeat k rf).
Proof. split; [split; simpl; try done; lia | done]. Qed.

(** The ticker starts an election, or changes nothing. *)
Lemma ticker_still rf pc ev rf' pc' g :
  ticker rf pc ev = Ok (rf', pc', g) ->
  (still rf rf' /\ g <> SpawnElection) \/ (state rf = CANDIDATE /\ rf' = start_election rf /\ g = SpawnElection).
Proof.
  unfold ticker. intros E. destruct pc, ev; repeat (branch || case_match); simplify_eq; auto; left; (split; [ | done]);
    try apply still_refl; try apply still_persist; try apply still_follower; try apply still_wake.
  all: try (eapply still_trans; [apply still_candidate | apply still_persist]).
  all: try (eapply still_trans; [apply still_wake | apply still_follower]).
  all: split; [split; simpl; try done; lia | done].
Qed.

Lemma start_election_fields rf (rf' := start_election rf) :
  log rf' = log rf /\ commitIdx rf' = commitIdx rf /\ cApplyMsg rf' = cApplyMsg rf /\ appliedLast rf' = appliedLast rf /\ matchIdx rf' = matchIdx rf /\
  currentTerm rf' = currentTerm rf + 1 /\ votedFor rf' = me rf /\ state rf' = state rf.
Proof.
  subst rf'. unfold start_election. destruct (persist_set (set_numVotesReceived 1 (set_votedFor (me rf)
    (set_currentTerm (currentTerm rf + 1) rf)))) as [q ->]. done.
Qed.

(** [RequestVote] grants its vote to a candidate that is up to date, or not. *)
Definition granted rf rf' args : Prop :=
  log rf' = log rf /\ commitIdx rf' = commitIdx rf /\ cApplyMsg rf' = cApplyMsg rf /\ appliedLast rf' = appliedLast rf /\ old_leader rf rf' /\
  currentTerm rf <= currentTerm rf' /\ currentTerm rf' = rv_Term args /\ votedFor rf' = rv_IDcand args /\
  exists e, last_entry rf = Ok e /\
    (le_Term e < rv_LastLogTerm args \/ (rv_LastLogTerm args = le_Term e /\ le_Index e <= rv_LastLogIdx args)).

Lemma RequestVote_still rf args reply0 rf' reply :
  RequestVote rf args reply0 = Ok (rf', reply) -> still rf rf' \/ granted rf rf' args.
Proof.
  unfold RequestVote. intros E. branch; [simplify_eq; left; apply still_refl | ]. inv_bind. rename x into e.
  assert (Hlast : last_entry rf = Ok e) by (unfold last_entry in *; by rewrite step_down_log in *).
  pose proof (still_step_down (rv_Term args) rf) as [[Hl Hc Ha Hal Ht _ _] Hold].
  branch; inv_bind; simplify_eq; [right | left; apply still_step_down].
  match goal with Hh : notify_heartbeat _ = _ |- _ => unfold notify_heartbeat in Hh end.
  branch; [ | done]. simplify_eq. split_and!; simpl; try done.
  - rewrite step_down_term. lia.
  - exists e. split; [done | ]. match goal with Hu : _ \/ _ |- _ => destruct Hu; zbool end; lia.
Qed.

(** Counting a vote wins the election, or not. *)
Lemma sendRequestVote_still rf args reply rf' :
  sendRequestVote rf args true reply = Ok rf' ->
  still rf rf' \/
  (state rf = CANDIDATE /\ state rf' = LEADER /\ log rf' = log rf /\ commitIdx rf' = commitIdx rf /\ cApplyMsg rf' = cApplyMsg rf /\
   appliedLast rf' = appliedLast rf /\ currentTerm rf' = currentTerm rf /\ votedFor rf' = votedFor rf /\ currentTerm rf = rv_Term args).
Proof.
  unfold sendRequestVote. simpl. intros E. destruct (_ || _) eqn:E1; [simplify_eq; left; apply still_refl | ]. zbool.
  branch; [simplify_eq; left; split; [split; simpl; try done; lia | done] | ].
  branch; [ | simplify_eq; left; apply still_refl].
  destruct (persist_set (set_numVotesReceived (numVotesReceived rf + 1) rf)) as [q Eq].
  branch; inv_bind; simplify_eq; [right | left; split; [split; simpl; try done; lia | done]].
  unfold notify_win in *. branch; [ | done]. simplify_eq. rewrite Eq. simpl. split_and!; try done.
  destruct (state rf); naive_solver.
Qed.

(** [AppendEntries] stores the entries, and moves the commit index within the
    log, or does neither. *)
Definition accepted rf rf' (a : AppendEntriesArgs Cmd) : Prop :=
  currentTerm rf <= currentTerm rf' /\ currentTerm rf' = ae_Term a /\
  (currentTerm rf' = currentTerm rf -> votedFor rf' = votedFor rf) /\ (currentTerm rf < currentTerm rf' -> votedFor rf' = -1) /\
  old_leader rf rf' /\ cApplyMsg rf' = cApplyMsg rf /\ appliedLast rf' = appliedLast rf /\
  log_matches (log rf) (ae_PrevLogIdx a) (ae_PrevLogTerm a) = true /\
  log rf' = take (S (Z.to_nat (ae_PrevLogIdx a))) (log rf) ++ ae_Entries a /\
  (commitIdx rf' = commitIdx rf \/
   (commitIdx rf < ae_LeaderCommit a /\ commitIdx rf' = Z.min (ae_LeaderCommit a) (ae_PrevLogIdx a + len (ae_Entries a)))).

Lemma append_current_others rf a reply0 lst base rf' reply :
  append_current rf a reply0 lst base = Ok (rf', reply) ->
  votedFor rf' = votedFor rf /\ cApplyMsg rf' = cApplyMsg rf /\ appliedLast rf' = appliedLast rf /\
  state rf' = state rf /\ matchIdx rf' = matchIdx rf.
Proof.
  assert (Hp : forall r, votedFor (persist r) = votedFor r /\ cApplyMsg (persist r) = cApplyMsg r /\ appliedLast (persist r) = appliedLast r /\
    state (persist r) = state r /\ matchIdx (persist r) = matchIdx r) by (intros r; by destruct (persist_set r) as [q ->]).
  unfold append_current. intros E. branch; [by simplify_eq | ]. inv_bind. destruct x as [term | ].
  - inv_bind. destruct x; simplify_eq; [done | apply Hp].
  - branch; [ | simplify_eq; apply Hp]. inv_bind. branch; inv_bind; simplify_eq.
    + destruct (Hp (commit_to (Z.min (ae_LeaderCommit a) (le_Index x0)) (append_log (ae_Entries a) (cut_log x rf)))) as (-> & -> & -> & -> & ->). done.
    + destruct (Hp (append_log (ae_Entries a) (cut_log x rf))) as (-> & -> & -> & -> & ->). done.
Qed.

Lemma AppendEntries_still rf a rf' reply :
  raft_wf rf -> append_wf a -> AppendEntries rf a zero_append_reply = Ok (rf', reply) ->
  (still rf rf' /\ aer_Success reply = false) \/ accepted rf rf' a.
Proof.
  intros Hwf Haw E. pose proof (wf_log _ Hwf) as Hl. destruct (last_entry_wf _ Hl) as (lst & Hlst & _ & _).
  destruct (decide (ae_Term a < currentTerm rf)) as [Ht | Ht].
  { unfold AppendEntries in E. rewrite Hlst, (base_wf _ Hl) in E. simpl in E.
    apply Z.ltb_lt in Ht as Hb. rewrite Hb in E. simplify_eq. left. split; [apply still_refl | done]. }
  destruct (decide (cHeartbeat rf < chan_cap)) as [Hh | Hh].
  2: { unfold AppendEntries in E. rewrite Hlst, (base_wf _ Hl) in E. simpl in E.
       branch; [lia | ]. unfold notify_heartbeat in E. rewrite step_down_heartbeat in E. branch; [lia | done]. }
  destruct (AppendEntries_current rf a zero_append_reply) as (E' & Hwf1 & Hlog & Ht1 & Hc1 & _); [done | lia | done | ].
  rewrite E' in E. pose proof (append_current_others _ _ _ _ _ _ _ E) as (Hv & Hm & Hla & Hst & Hma).
  assert (Hs : still rf (met_leader rf a)) by (eapply still_trans; [apply (still_step_down (ae_Term a)) | apply still_wake]).
  set (rf1 := met_leader rf a) in *. rewrite <- Hlog in E.
  destruct (log_matches (log rf1) (ae_PrevLogIdx a) (ae_PrevLogTerm a)) eqn:Em.
  - destruct (append_current_match rf1 a) as (rf2 & E2 & _ & Ht2 & Hl2 & Hc2 & _); try done. rewrite E2 in E. simplify_eq.
    destruct Hs as [[_ _ Ka Kla Kt Kv Kn] Ko]. right. split_and!; try done; try congruence.
    + rewrite Ht2, Hv. exact Kv.
    + rewrite Ht2, Hv. exact Kn.
    + unfold old_leader in *. rewrite Hst, Ht2, Hma. exact Ko.
    + rewrite Hc2, Hc1. branch; [right; lia | by left].
  - destruct (append_current_mismatch rf1 a) as (next & E2 & _); try done. rewrite E2 in E. simplify_eq. by left.
Qed.

(** [sendAppendEntries] notes an answer, and moves the commit index to what a
    majority holds, or does neither. *)
Definition noted rf rf' (server : nat) (a : AppendEntriesArgs Cmd) (reply : AppendEntriesResults) : Prop :=
  state rf = LEADER /\ currentTerm rf = ae_Term a /\
  log rf' = log rf /\ cApplyMsg rf' = cApplyMsg rf /\ appliedLast rf' = appliedLast rf /\
  currentTerm rf' = currentTerm rf /\ votedFor rf' = votedFor rf /\
  (matchIdx rf' = matchIdx rf \/
   exists e, aer_Success reply = true /\ last (ae_Entries a) = Some e /\ matchIdx rf' = <[server := le_Index e]> (matchIdx rf)) /\
  (commitIdx rf' = commitIdx rf \/
   exists e, commitIdx rf < commitIdx rf' /\ log rf !! Z.to_nat (commitIdx rf') = Some e /\ le_Term e = currentTerm rf /\
     peers rf' < 2 * replicas rf' (commitIdx rf') /\ me rf' = me rf /\ peers rf' = peers rf).

Lemma sendAppendEntries_still rf server a ok reply rf' :
  raft_wf rf -> Z.of_nat server < peers rf -> sendAppendEntries rf (Z.of_nat server) a ok reply = Ok rf' ->
  still rf rf' \/ (ok = true /\ noted rf rf' server a reply).
Proof.
  intros Hwf Hs E. destruct (answer_current rf a ok) eqn:Ec.
  2: { unfold sendAppendEntries in E. rewrite (base_wf _ (wf_log _ Hwf)) in E. simpl in E.
       replace (negb ok || _ || _) with true in E; [simplify_eq; left; apply still_refl | ]. symmetry. unfold answer_current in Ec.
       destruct ok; simpl in *; [ | done]. destruct (currentTerm rf =? ae_Term a); simpl in *; [ | done].
       by rewrite bool_decide_not, Ec. }
  pose proof Ec as Ec'. unfold answer_current in Ec'. zbool. subst ok.
  destruct (decide (currentTerm rf < aer_Term reply)) as [Ht | Ht].
  - unfold sendAppendEntries in E. rewrite (base_wf _ (wf_log _ Hwf)) in E. simpl in E.
    replace (currentTerm rf =? ae_Term a) with true in E by (symmetry; by apply Z.eqb_eq).
    rewrite bool_decide_eq_false_2 in E by (intros X; by apply X). simpl in E. apply Z.ltb_lt in Ht as Hb. rewrite Hb in E.
    simplify_eq. left. eapply still_trans; [ | apply still_persist]. split; [split; simpl; try done; lia | done].
  - right. split; [done | ]. rewrite sendAppendEntries_current in E by (done || lia).
    pose proof (note_answer_wf rf (Z.of_nat server) a reply Hwf) as Hwf'.
    destruct (note_answer_fields rf (Z.of_nat server) a reply) as (Hlog & Hci & Hterm & Hpe & Hst & Hme).
    assert (Hoth : votedFor (note_answer rf (Z.of_nat server) a reply) = votedFor rf /\
      cApplyMsg (note_answer rf (Z.of_nat server) a reply) = cApplyMsg rf /\
      appliedLast (note_answer rf (Z.of_nat server) a reply) = appliedLast rf /\
      (matchIdx (note_answer rf (Z.of_nat server) a reply) = matchIdx rf \/
       exists e, aer_Success reply = true /\ last (ae_Entries a) = Some e /\
         matchIdx (note_answer rf (Z.of_nat server) a reply) = <[server := le_Index e]> (matchIdx rf))).
    { unfold note_answer. destruct (aer_Success reply); [ | simpl; auto].
      destruct (last (ae_Entries a)) as [e | ]; [ | simpl; auto]. simpl. rewrite Nat2Z.id. eauto 9. }
    destruct Hoth as (Hvo & Hap & Hla & Hma). set (rf1 := note_answer rf (Z.of_nat server) a reply) in *.
    rewrite <- Hlog, <- Hci in E. destruct (advance_commit_total rf1) as (rf2 & E2 & Hrf2); [done | ].
    rewrite E2 in E. injection E as ->.
    destruct Hrf2 as [-> | (i & e & -> & Hi & He & Het & Hq)]; (split_and!; try done; simpl; try done).
    + by left.
    + right. exists e. rewrite Hlog in He. rewrite Hci in Hi. rewrite Hterm in Het. split_and!; try done; lia.
Qed.

(** [Start] appends to the log of a leader. *)
Lemma Start_fields rf command rf' res :
  Start rf command = Ok (rf', res) ->
  rf' = rf \/
  (state rf = LEADER /\ state rf' = LEADER /\ commitIdx rf' = commitIdx rf /\ cApplyMsg rf' = cApplyMsg rf /\
   appliedLast rf' = appliedLast rf /\ currentTerm rf' = currentTerm rf /\ votedFor rf' = votedFor rf /\ matchIdx rf' = matchIdx rf /\
   exists x, log rf' = log rf ++ [x] /\ le_Term x = currentTerm rf).
Proof.
  unfold Start. intros E. branch; inv_bind; [ | by left]. zbool. right. simplify_eq.
  destruct (persist_set (append_log [MkLogElement (currentTerm rf) command (le_Index x + 1)] rf)) as [q ->].
  split_and!; try done. eexists. done.
Qed.

(** The apply goroutine sends the entries of the log up to the commit index, in
    order. *)
Lemma apply_from_sent m i (l : list (LogElement Cmd)) ms :
  l !! 0%nat = Some base_entry -> apply_from m i l = Ok ms ->
  length ms = m /\ forall k x, ms !! k = Some x -> 0 <= i + Z.of_nat k /\ CommandValid x = true /\ CommandIndex x = i + Z.of_nat k /\
    exists e, l !! Z.to_nat (CommandIndex x) = Some e /\ am_Command x = le_Command e.
Proof.
  intros Hb. revert i ms. induction m as [ | m IH]; intros i ms E; cbn [apply_from] in E; [by simplify_eq | ].
  inv_bind. match goal with Hh : index l 0 = Ok ?b |- _ => apply index_Ok in Hh as [_ Hh]; change (Z.to_nat 0) with 0%nat in Hh;
    assert (b = base_entry) by congruence; subst b end. simpl in *. rewrite Z.sub_0_r in *.
  match goal with Hh : index l i = Ok _ |- _ => apply index_Ok in Hh as [Hi He] end.
  match goal with Hh : apply_from m _ l = Ok _ |- _ => destruct (IH _ _ Hh) as [Hlen Hall] end. split; [by f_equal | ].
  intros [ | k] x Hx; simpl in Hx.
  - injection Hx as <-. simpl. rewrite Z.add_0_r. split_and!; eauto.
  - destruct (Hall k x Hx) as (Kp & Kv & Ki & Ke). split_and!; [lia | done | lia | done].
Qed.

Lemma applied_keep rf rf' :
  applied_in_order rf -> commitIdx rf <= commitIdx rf' -> appliedLast rf' = appliedLast rf -> cApplyMsg rf' = cApplyMsg rf ->
  applied_in_order rf'.
Proof. intros [Hc Hl Hi] Hle El Ea. split; rewrite ?El, ?Ea; try done. lia. Qed.

Lemma applyCommitted_fields rf rf' :
  raft_wf rf -> applied_in_order rf -> applyCommitted rf = Ok rf' ->
  log rf' = log rf /\ commitIdx rf' = commitIdx rf /\ currentTerm rf' = currentTerm rf /\ votedFor rf' = votedFor rf /\
  state rf' = state rf /\ matchIdx rf' = matchIdx rf /\ applied_in_order rf' /\
  forall x, x ∈ cApplyMsg rf' -> x ∈ cApplyMsg rf \/
    (0 < CommandIndex x <= commitIdx rf /\ exists e, log rf !! Z.to_nat (CommandIndex x) = Some e /\ am_Command x = le_Command e).
Proof.
  intros Hwf [Hc Hl Hi] E. unfold applyCommitted in E. inv_bind. rename x into ms. simplify_eq. pose proof (wf_applied _ Hwf).
  match goal with Hh : apply_from _ _ _ = Ok _ |- _ => destruct (apply_from_sent _ _ _ _ (lw_base _ (wf_log _ Hwf)) Hh) as [Hlen Hms] end.
  split_and!; try done; simpl.
  - split; simpl; [lia | rewrite len_app; unfold len in *; lia | ]. unfold len in Hl. intros k m [Hm | [Hk Hm]]%lookup_app_Some; [by apply Hi | ].
    destruct (Hms _ _ Hm) as (_ & Hv & Hx & _). split; [done | lia].
  - intros m [Hm | Hm]%elem_of_app; [by left | right]. apply list_elem_of_lookup_1 in Hm as (k & Hk).
    apply lookup_lt_Some in Hk as Hlt. destruct (Hms _ _ Hk) as (_ & _ & Hx & He). split; [lia | done].
Qed.
End peer.
