(* ===== verification/RaftCalm.v ===== *)
(** * The steps of a calm cluster keep the agreement

    The invariant of [RaftAgreeInv] over every action of [RaftCluster] that keeps
    messages in order and elects fresh leaders. *)
From Stdlib Require Import Sorting.Sorted.
From stdpp Require Import sorting.
From S2P Require Import Prelude Persister RaftServer RaftServerFacts RaftCluster RaftElection RaftMemory RaftSafe RaftLogs RaftOrder RaftAgree RaftAgreeInv RaftCalmPeer.

Local Open Scope Z_scope.

(** ** The order of messages *)
Section sends.
Context {Cmd : Type} `{GoRuntime Cmd}.
Implicit Types (p : packet Cmd) (ps : list (packet Cmd)) (a b : AppendEntriesArgs Cmd).

Lemma omap_sublist {A B} (f : A -> option B) (l k : list A) : l `sublist_of` k -> omap f l `sublist_of` omap f k.
Proof.
  induction 1 as [ | x l k _ IH | x l k _ IH]; simpl; [done | | ]; destruct (f x); [by apply sublist_skip | done | by apply sublist_cons | done].
Qed.

Lemma sorted_sublist {A} (R : A -> A -> Prop) (l k : list A) : l `sublist_of` k -> StronglySorted R k -> StronglySorted R l.
Proof.
  induction 1 as [ | x l k Hs IH | x l k Hs IH]; intros Hk; [done | | ]; apply StronglySorted_inv in Hk as [Hk Hx]; [ | by apply IH].
  constructor; [by apply IH | ]. rewrite Forall_forall in Hx |- *. intros y Hy. apply Hx.
  eapply elem_of_submseteq; [exact Hy | by apply sublist_submseteq].
Qed.

Lemma sends_delete i j k ps : sends i j (delete k ps) `sublist_of` sends i j ps.
Proof. apply sublist_app; apply omap_sublist, sublist_delete. Qed.

(** What is not for [j] from [i]. *)
Definition no_send p : Prop := match p with AppendGo _ _ _ _ | AppendRequest _ _ _ => False | _ => True end.

Lemma no_send_none i j ps : Forall no_send ps -> omap (requested i j) ps = [] /\ omap (to_send i j) ps = [].
Proof. induction 1 as [ | p ps Hp _ [IH1 IH2]]; [done | ]. destruct p; simpl in *; try done; by rewrite IH1, IH2. Qed.

Lemma sends_quiet i j ps qs : Forall no_send qs -> sends i j (ps ++ qs) = sends i j ps.
Proof. intros Hqs. unfold sends. destruct (no_send_none i j qs Hqs) as [E1 E2]. by rewrite !omap_app, E1, E2, !app_nil_r. Qed.

Lemma sends_in i j ps a : a ∈ sends i j ps <-> AppendRequest i j a ∈ ps \/ (exists sl, AppendGo i j a sl ∈ ps).
Proof.
  unfold sends. rewrite elem_of_app, !list_elem_of_omap. split.
  - intros [(p & Hp & E) | (p & Hp & E)]; destruct p; simpl in E; try done; case_decide; simplify_eq; destruct_and?; subst; eauto.
  - intros [Hp | [sl Hp]]; [left | right]; eexists; (split; [exact Hp | ]); simpl; by rewrite decide_True.
Qed.

(** The packet at [k] is the first of its channel. *)
Definition first_send ps k p : Prop := forall q, q ∈ take k ps -> channel q <> channel p.

Lemma omap_none {A B} (f : A -> option B) (l : list A) : (forall x, x ∈ l -> f x = None) -> omap f l = [].
Proof. induction l as [ | x l IH]; intros Hl; [done | ]. simpl. rewrite (Hl x) by by left. apply IH. intros y Hy. apply Hl. by right. Qed.

Lemma sends_request ps k i j a :
  ps !! k = Some (AppendRequest i j a) -> first_send ps k (AppendRequest i j a) -> sends i j ps = a :: sends i j (delete k ps).
Proof.
  intros Hk Hf. rewrite delete_take_drop. rewrite <- (take_drop_middle _ _ _ Hk) at 1. unfold sends. rewrite !omap_app. simpl.
  rewrite decide_True by done. rewrite (omap_none (requested i j) (take k ps)); [done | ].
  intros q Hq. apply Hf in Hq. destruct q; simpl in *; try done. case_decide; [ | done]. destruct_and?. by subst.
Qed.

Lemma sends_handed ps k i j a sl x y :
  ps !! k = Some (AppendGo i j a sl) -> first_send ps k (AppendGo i j a sl) ->
  sends x y (delete k ps ++ [AppendRequest i j a]) = sends x y ps.
Proof.
  intros Hk Hf. rewrite delete_take_drop. rewrite <- (take_drop_middle _ _ _ Hk) at 3. unfold sends. rewrite !omap_app. simpl. case_decide as Hxy; [ | by rewrite !app_nil_r]. destruct Hxy as [-> ->].
  rewrite (omap_none (to_send x y) (take k ps)); [by rewrite !app_nil_r, <- !app_assoc | ].
  intros q Hq. apply Hf in Hq. destruct q; simpl in *; try done. case_decide; [ | done]. destruct_and?. by subst.
Qed.

(** Messages that reach as far as any before them. *)
Lemma sends_later i j ps qs :
  StronglySorted no_shorter (sends i j ps) -> Forall (fun q => forall a, q <> AppendRequest i j a) qs ->
  (forall a b sl, a ∈ sends i j (ps ++ qs) -> AppendGo i j b sl ∈ qs -> no_shorter a b) -> StronglySorted no_shorter (sends i j (ps ++ qs)).
Proof.
  intros Hs Hq Hab. assert (E : sends i j (ps ++ qs) = sends i j ps ++ omap (to_send i j) qs).
  { unfold sends. rewrite !omap_app, (omap_none (requested i j) qs); [by rewrite app_nil_r, app_assoc | ].
    intros q Hin. rewrite Forall_forall in Hq. specialize (Hq q Hin). destruct q; simpl; try done. case_decide; [ | done].
    destruct_and?. subst. by destruct (Hq args). }
  rewrite E in *. assert (Hab' : forall a b, a ∈ sends i j ps ++ omap (to_send i j) qs -> b ∈ omap (to_send i j) qs -> no_shorter a b).
  { intros a b Ha (p & Hp & Eb)%list_elem_of_omap. destruct p; simpl in Eb; try done. case_decide; [ | done].
    destruct_and?. simplify_eq. by eapply Hab. }
  clear Hab E. generalize dependent (omap (to_send i j) qs). intros k Hk.
  induction (sends i j ps) as [ | c l IH]; simpl in *.
  - clear Hs. induction k as [ | c k IH]; constructor; [apply IH; intros a b Ha Hb; apply Hk; by right | ].
    apply Forall_forall. intros b Hb. apply Hk; [by left | by right].
  - apply StronglySorted_inv in Hs as [Hs Hc]. constructor.
    + apply IH; [done | ]. intros a b Ha Hb. apply Hk; [by right | done].
    + apply Forall_app. split; [done | ]. apply Forall_forall. intros b Hb. apply Hk; [by left | done].
Qed.
End sends.

(** ** The parts of the invariant a step may rely on *)
Section step.
Context {Cmd : Type} `{GoRuntime Cmd} (n : nat).
Implicit Types (rf : Raft Cmd) (p : packet Cmd).
Context (V V' : list vote) (e e' : nat -> Z) (W W' : nat -> list nat) (g : ghost Cmd) (s s' : cluster Cmd) (T' : ledger (Cmd := Cmd)).
Hypothesis HI : Inv n V e W s.
Hypothesis HI' : Inv n V' e' W' s'.
Hypothesis HV : forall x, x ∈ V -> x ∈ V'.
Hypothesis Hnew : new_votes V V' s'.
Hypothesis HL : LogInv n V (gT g) s.
Hypothesis HL' : LogInv n V' T' s'.
Hypothesis Hstep : ledger_step (gT g) s s' T'.
Hypothesis HS : SafeInv n V s.
Hypothesis HS' : SafeInv n V' s'.
Hypothesis HA : Agree n g V s.

Definition calm_kept : Prop := exists g', gT g' = T' /\ Agree n g' V' s'.

Lemma wf_node i rf : nodes s !! i = Some rf -> raft_wf rf.
Proof. intros Hi. by eapply po_wf, (si_node _ _ _ HS). Qed.

Lemma ledger_elected t : gT g t <> [] -> exists c, elected n V t c.
Proof. intros Ht. destruct (li_ledger _ _ _ _ HL t Ht) as (_ & c & _ & Hc & _). eauto. Qed.

(** A peer elected in the term it moves to was elected in it before, if the term
    has a ledger, and was in it. *)
Lemma elected_before i rf t :
  nodes s !! i = Some rf -> currentTerm rf <= t -> elected n V' t i -> gT g t <> [] -> currentTerm rf = t /\ elected n V t i.
Proof.
  intros Hi Ht He Hne. destruct (ledger_elected t Hne) as (c & Hc).
  assert (c = i) by (eapply elected_unique; [exact HI' | by eapply elected_mono | exact He]). subst c. split; [ | done].
  destruct Hc as ([ | v Q] & HQ & Hlen & Hv); [simpl in Hlen; lia | ].
  pose proof (ag_candidates _ _ _ _ HA v t i rf (Hv v ltac:(by left)) Hi). lia.
Qed.

Lemma owner_kept i rf t :
  nodes s !! i = Some rf -> currentTerm rf <= t -> elected n V' t i -> gT g t <> [] -> gA g i t = length (gT g t).
Proof.
  intros Hi Ht He Hne. destruct (elected_before i rf t Hi Ht He Hne) as [<- He'].
  by apply (na_owner _ _ _ _ _ (ag_node _ _ _ _ HA i rf Hi)).
Qed.

Lemma ledgers_voters (T F : ledger (Cmd := Cmd)) A (P Q : nat -> Z -> Prop) :
  (forall v t, P v t -> Q v t) -> ledgers_ok n T F A P -> ledgers_ok n T F A Q.
Proof.
  intros HPQ [Hb Hs Hl Hf]. split; try done. intros t Ht. destruct (Hs t Ht) as [H1 H2 H3 H4 H5 (Q0 & HQ & Hlen & Hv)].
  split; try done. exists Q0. split; [done | ]. split; [done | ]. intros v Hin. destruct (Hv v Hin) as (Hn & HP & Hu). auto.
Qed.

Lemma ledgers_now : ledgers_ok n (gT g) (gF g) (gA g) (has_voted V').
Proof. apply (ledgers_voters _ _ _ (has_voted V)); [ | apply HA]. intros v t (c & Hc). exists c. auto. Qed.

(** The ledgers change only when somebody wins a term or leads and gets an
    entry. *)
Lemma ledger_same i rf rf' :
  nodes s !! i = Some rf -> nodes s' = <[i := rf']> (nodes s) ->
  (state rf' = LEADER -> currentTerm rf' = currentTerm rf -> log rf' = log rf /\ gT g (currentTerm rf) <> []) -> T' = gT g.
Proof.
  intros Hi En Hlead. destruct Hstep as [ | (j & r & r' & Hr & Hr' & Hst & Hct & _ & Hor)]; [done | ]. exfalso.
  assert (Hsame : log r' = log r /\ gT g (currentTerm r) <> []).
  { rewrite En in Hr'. destruct (decide (j = i)) as [-> | Hne].
    - rewrite list_lookup_insert_eq in Hr' by (by eapply lookup_lt_Some). simplify_eq. by apply Hlead.
    - rewrite list_lookup_insert_ne in Hr' by done. simplify_eq. split; [done | by eapply li_leader]. }
  destruct Hsame as [El Hne]. destruct Hor as [[E _] | (_ & x & Ex & _)]; [done | ].
  rewrite El in Ex. apply (f_equal length) in Ex. rewrite length_app in Ex. simpl in Ex. lia.
Qed.

(** Or the ledger of one term does. *)
Lemma ledger_other t : T' t <> gT g t -> forall w, w <> t -> T' w = gT g w.
Proof.
  intros Ht w Hw. destruct Hstep as [-> | (j & r & r' & _ & _ & _ & _ & -> & _)]; [done | ].
  unfold extend in *. destruct (decide (t = currentTerm r')) as [-> | ]; [by rewrite decide_False | done].
Qed.

(** What a peer knows is committed is in its log. *)
Lemma known_mono u c u' c' : commit_known n g u c -> u <= u' -> c' <= c -> commit_known n g u' c'.
Proof.
  intros [Hc | (w & L & Hc & HLt & Hw)] Hu Hc'; [left; lia | right]. exists w, L. split_and!; [done | lia | lia].
Qed.

Lemma last_known i rf u c :
  node_agree n g V i rf -> commit_known n g u c -> (Z.to_nat c < gA g i u)%nat -> commit_known n g (currentTerm rf) c.
Proof.
  intros Hna Hk Hu. eapply known_mono; [exact Hk | | lia]. destruct (decide (u <= currentTerm rf)) as [ | Hgt]; [done | ].
  rewrite (na_future _ _ _ _ _ Hna) in Hu by lia. lia.
Qed.

(** ** Steps that keep the ledgers and what was accepted *)

Section quiet.
Context (i : nat) (rf rf' : Raft Cmd) (K : Z -> nat -> list (LogElement Cmd)) (pcs : list ticker_pc) (ps : list (packet Cmd)).
Let g' := Ghost (gT g) (gF g) (gA g) K.
Hypothesis Hi : nodes s !! i = Some rf.
Hypothesis Es : s' = Cluster (<[i := rf']> (nodes s)) pcs ps.
Hypothesis Hlog : log rf' = log rf.
Hypothesis Ht : currentTerm rf <= currentTerm rf'.
Hypothesis HK : forall w c, c <> i \/ w <> currentTerm rf' \/ currentTerm rf = currentTerm rf' -> K w c = gK g w c.
Hypothesis Hvoted : forall c rc, votedFor rf' = Z.of_nat c -> c <> i -> nodes s !! c = Some rc -> currentTerm rf' <= currentTerm rc.
Hypothesis Hvote : forall c, votedFor rf' = Z.of_nat c -> gT g (currentTerm rf') = [] -> up_to_date (K (currentTerm rf') c) (log rf').
Hypothesis Hmatch : state rf' = LEADER -> forall j m, matchIdx rf' !! j = Some m ->
  j = i \/ m <= 0 \/ (Z.to_nat m < gA g j (currentTerm rf'))%nat.
Hypothesis Hcommit : commitIdx rf' = commitIdx rf \/
  exists u, commit_known n g u (commitIdx rf') /\ (Z.to_nat (commitIdx rf') < gA g i u)%nat /\ forall w, u < w -> gA g i w = 0%nat.
Hypothesis Happ : forall m, m ∈ cApplyMsg rf' -> m ∈ cApplyMsg rf \/ chosen n g (CommandIndex m) (am_Command m).
Hypothesis Hchan : applied_in_order rf'.
Hypothesis Hps : forall p, p ∈ ps ->
  p ∈ net s \/ (packet_agree n g' p /\ (same_candidate g' s' p \/ exists q, q ∈ net s /\ election p = election q)).
Hypothesis Hord : forall a b, StronglySorted no_shorter (sends a b ps).

Lemma quiet_agree : Agree n g' V' s'.
Proof.
  pose proof (ag_node _ _ _ _ HA i rf Hi) as Hna.
  eapply (move_agree n g g' V V' e e' W W' s s' i rf rf' pcs ps); try done.
  - apply ledger_elected.
  - apply HL.
  - split; try done; [by intros w | ]. intros w c Hwc. apply HK. tauto.
  - apply ledgers_now.
  - by left.
  - intros Et. apply HK. auto.
  - destruct Hna as [Hst Hfu _ _ _ Hco Hap _]. split; simpl; try done.
    + rewrite Hlog. apply (stored_idle _ _ i (currentTerm rf)); [done | | done]. intros w Hw. apply Hfu. lia.
    + intros w Hw. apply Hfu. lia.
    + intros He Hne. by eapply owner_kept.
    + destruct Hcommit as [-> | (u & Hu)]; [exact Hco | right]. by exists u.
    + intros m [Hm | Hm]%Happ; [by apply Hap | done].
  - intros p Hp. destruct (Hps p Hp) as [Hold | Hp']; [left | by right]. split; [done | ].
    intros j a Hja <-. pose proof (ag_net _ _ _ _ HA) as Hnet. rewrite Forall_forall in Hnet. specialize (Hnet p Hold).
    destruct Hja as [[sl ->] | ->]; apply Hnet.
Qed.

Lemma quiet_move : (state rf' = LEADER -> gT g (currentTerm rf) <> []) -> calm_kept.
Proof.
  intros Hlead. exists g'. split; [ | exact quiet_agree]. symmetry. eapply ledger_same; [exact Hi | by rewrite Es | auto].
Qed.
End quiet.

(** A new packet of no election, or of one that is on. *)
Definition sound p : Prop :=
  packet_agree n (Ghost (gT g) (gF g) (gA g) (gK g)) p /\ (election p = None \/ exists q, q ∈ net s /\ election p = election q).

(** A step that changes nothing, or the term alone. *)
Lemma still_move i rf rf' pcs ps :
  nodes s !! i = Some rf -> s' = Cluster (<[i := rf']> (nodes s)) pcs ps -> still rf rf' ->
  (forall p, p ∈ ps -> p ∈ net s \/ sound p) ->
  (forall a b, StronglySorted no_shorter (sends a b ps)) -> calm_kept.
Proof.
  intros Hi Es [[Hl Hc Ha Hla Ht Hv Hn] Hold] Hps Hord. pose proof (ag_node _ _ _ _ HA i rf Hi) as Hna.
  assert (Hcase : forall c, votedFor rf' = Z.of_nat c -> currentTerm rf' = currentTerm rf /\ votedFor rf = Z.of_nat c).
  { intros c Ec. destruct (decide (currentTerm rf' = currentTerm rf)) as [E | E]; [by rewrite <- Hv | ].
    rewrite Hn in Ec by lia. lia. }
  eapply (quiet_move i rf rf' (gK g)); try done.
  - intros c rc (E & Ec)%Hcase _ Hrc. rewrite E. by eapply (ag_voted _ _ _ _ HA).
  - intros c (E & Ec)%Hcase. rewrite E, Hl. by eapply na_voted.
  - intros (Hst & E & Em)%Hold. rewrite E, Em. by eapply na_match.
  - by left.
  - rewrite Ha. auto.
  - eapply applied_keep; [by apply (na_channel _ _ _ _ _ Hna) | lia | done | done].
  - intros p Hp. destruct (Hps p Hp) as [ | [Hpa [He | Hq]]]; [by left | | by right; split; [ | right]].
    right. split; [done | ]. left. intros c t r E. congruence.
  - intros (Hst & _ & _)%Hold. by eapply li_leader.
Qed.

(** A step of the network alone. *)
Lemma net_move i rf ps :
  nodes s !! i = Some rf -> s' = set_net ps s ->
  (forall p, p ∈ ps -> p ∈ net s \/ sound p) ->
  (forall a b, StronglySorted no_shorter (sends a b ps)) -> calm_kept.
Proof.
  intros Hi Es Hps Hord. eapply still_move; [exact Hi | | apply still_refl | exact Hps | exact Hord].
  rewrite list_insert_id by done. exact Es.
Qed.

Lemma order_quiet k qs a b : Forall no_send qs -> StronglySorted no_shorter (sends a b (delete k (net s) ++ qs)).
Proof. intros Hqs. rewrite sends_quiet by done. eapply sorted_sublist; [apply sends_delete | apply HA]. Qed.

Lemma in_delete k p : p ∈ delete k (net s) -> p ∈ net s.
Proof. intros Hp. eapply elem_of_submseteq; [exact Hp | apply sublist_submseteq, sublist_delete]. Qed.

Lemma old_or_new k qs : Forall sound qs -> forall p, p ∈ delete k (net s) ++ qs -> p ∈ net s \/ sound p.
Proof. intros Hqs p [Hp | Hp]%elem_of_app; [left; by eapply in_delete | right]. rewrite Forall_forall in Hqs. auto. Qed.

(** ** The ticker *)
Lemma calm_tick i rf pc ev rf' pc' gr pcs :
  nodes s !! i = Some rf -> ticker rf pc ev = Ok (rf', pc', gr) ->
  s' = Cluster (<[i := rf']> (nodes s)) pcs (net s ++ spawned i (currentTerm rf') gr) -> calm_kept.
Proof.
  intros Hi E Es. assert (Hord : forall a b, StronglySorted no_shorter (sends a b (net s ++ spawned i (currentTerm rf') gr))).
  { intros a b. rewrite sends_quiet; [apply HA | destruct gr; by repeat constructor]. }
  apply ticker_still in E as [[Hst Hgr] | (Hc & -> & ->)].
  - eapply still_move; [exact Hi | exact Es | exact Hst | | exact Hord].
    intros p [Hp | Hp]%elem_of_app; [by left | right]. destruct gr; simpl in Hp; [by apply elem_of_nil in Hp | done | ].
    apply list_elem_of_singleton in Hp as ->. split; [done | by left].
  - destruct (start_election_fields rf) as (Hl & Hco & Hap & Hla & Hm & Ht & Hv & Hr). set (rf' := start_election rf) in *.
    rewrite (no_me _ _ _ _ _ _ _ (inv_node _ _ _ _ _ HI i rf Hi)) in Hv.
    eapply (quiet_move i rf rf' (fun w c => if decide (c = i /\ w = currentTerm rf') then log rf else gK g w c)); try done.
    + lia.
    + intros w c Hwc. rewrite decide_False; [done | ]. intros [-> ->]. destruct Hwc as [ | [ | ]]; [done | done | lia].
    + intros c rc Hvc Hne. lia.
    + intros c Hvc _. assert (c = i) as -> by lia. rewrite decide_True by done. rewrite Hl. apply up_to_date_refl.
    + intros Hl'. rewrite Hr in Hl'. congruence.
    + by left.
    + rewrite Hap. auto.
    + eapply applied_keep; [by apply (na_channel _ _ _ _ _ (ag_node _ _ _ _ HA i rf Hi)) | lia | done | done].
    + intros p [Hp | Hp]%elem_of_app; [by left | right]. apply list_elem_of_singleton in Hp as ->. split; [done | left].
      intros c t r [= <- <-] Hr' _ _. simpl. rewrite decide_True by done.
      rewrite Es in Hr'. simpl in Hr'. rewrite list_lookup_insert_eq in Hr' by (by eapply lookup_lt_Some). by simplify_eq.
    + intros Hl'. rewrite Hr in Hl'. congruence.
Qed.

(** ** Elections *)
Lemma last_term_entry rf x : raft_wf rf -> last_entry rf = Ok x -> le_Term x = last_term (log rf) /\ le_Index x = len (log rf) - 1.
Proof.
  intros Hwf E. destruct (last_entry_wf rf (wf_log _ Hwf)) as (y & E' & Hy & Hi). assert (x = y) by congruence. subst y.
  split; [ | done]. unfold last_term. rewrite last_lookup. unfold len in Hy.
  by replace (Nat.pred (length (log rf))) with (Z.to_nat (Z.of_nat (length (log rf)) - 1)) by lia; rewrite Hy.
Qed.

(** The candidate has the log it started its election with. *)
Lemma candidate_log q i t rf :
  q ∈ net s -> election q = Some (i, t) -> nodes s !! i = Some rf -> currentTerm rf = t -> gT g t = [] -> log rf = gK g t i.
Proof. intros Hq. pose proof (ag_same _ _ _ _ HA) as Hsame. rewrite Forall_forall in Hsame. by apply Hsame. Qed.

Lemma calm_vote_go k i t rf args m :
  net s !! k = Some (VoteGo i t) -> nodes s !! i = Some rf -> currentTerm rf = t -> vote_args rf = Ok args ->
  s' = set_net (delete k (net s) ++ vote_requests m i args) s -> calm_kept.
Proof.
  intros Hk Hi Ht E Es. unfold vote_args in E. inv_bind. rename x into lst. simplify_eq.
  apply list_elem_of_lookup_2 in Hk as Hq. assert (Hwf : raft_wf rf) by (by eapply wf_node).
  match goal with Hh : last_entry rf = Ok lst |- _ => destruct (last_term_entry rf lst Hwf Hh) as [El Ex] end.
  eapply net_move; [exact Hi | exact Es | | ].
  - apply old_or_new, Forall_fmap, Forall_forall. intros j _. simpl. split.
    + intros E0. simpl. rewrite <- (candidate_log (VoteGo i (currentTerm rf)) i (currentTerm rf) rf) by done. done.
    + right. exists (VoteGo i (currentTerm rf)). done.
  - intros a b. apply order_quiet. apply Forall_fmap, Forall_forall. done.
Qed.

Lemma calm_vote_request k i j rf rf' args reply :
  net s !! k = Some (VoteRequest i j args) -> nodes s !! j = Some rf -> RequestVote rf args (MkRequestVoteReply 0 false) = Ok (rf', reply) ->
  s' = Cluster (<[j := rf']> (nodes s)) (tickers s) (delete k (net s) ++ [VoteReply i j args reply]) -> calm_kept.
Proof.
  intros Hk Hj E Es. apply list_elem_of_lookup_2 in Hk as Hq.
  assert (Hps : forall p, p ∈ delete k (net s) ++ [VoteReply i j args reply] -> p ∈ net s \/ sound p).
  { apply old_or_new, Forall_singleton. split; [done | right]. by exists (VoteRequest i j args). }
  assert (Hord : forall a b, StronglySorted no_shorter (sends a b (delete k (net s) ++ [VoteReply i j args reply])))
    by (intros a b; apply order_quiet; by repeat constructor).
  apply RequestVote_still in E as [Hst | (Hl & Hc & Ha & Hla & Hold & Ht & Et & Hv & x & Hx & Hup)].
  { by eapply still_move. }
  pose proof (inv_net _ _ _ _ _ HI) as Hpk. rewrite Forall_forall in Hpk. destruct (Hpk _ Hq) as (_ & _ & Hij & Hid & Hte).
  assert (Hwf : raft_wf rf) by (by eapply wf_node). destruct (last_term_entry rf x Hwf Hx) as [El Ex].
  eapply (quiet_move j rf rf' (gK g)); try done.
  - intros c rc Hvc _ Hrc. assert (c = i) as -> by lia.
    pose proof (no_elect _ _ _ _ _ _ _ (inv_node _ _ _ _ _ HI _ _ Hrc)). lia.
  - intros c Hvc E0. assert (c = i) as -> by lia. rewrite Et in *. rewrite Hl.
    pose proof (ag_net _ _ _ _ HA) as Hnet. rewrite Forall_forall in Hnet. destruct (Hnet _ Hq E0) as [El' Ex'].
    unfold up_to_date. rewrite <- El, <- El'. unfold len in *. lia.
  - intros (Hs & Ec & Em)%Hold. rewrite Ec, Em. by apply (na_match _ _ _ _ _ (ag_node _ _ _ _ HA j rf Hj)).
  - by left.
  - rewrite Ha. auto.
  - eapply applied_keep; [by apply (na_channel _ _ _ _ _ (ag_node _ _ _ _ HA j rf Hj)) | lia | done | done].
  - intros p Hp. destruct (Hps p Hp) as [ | [Hpa [He | Hq']]]; [by left | right.. ]; (split; [done | ]); [left; intros c t r E'; congruence | by right].
  - intros (Hs & _ & _)%Hold. by eapply li_leader.
Qed.

(** ** Ledgers that get longer *)
Lemma ledgers_grown g' i rf' (t := currentTerm rf') :
  nodes s' !! i = Some rf' -> grown g g' i t -> gT g' = T' ->
  (T' t <> [] -> ledger_shape n T' (gF g') (gA g') (has_voted V') t) ->
  (gA g' i t <= length (T' t))%nat -> ((0 < gA g' i t)%nat -> (length (gF g' t) <= gA g' i t)%nat) ->
  ledgers_ok n (gT g') (gF g') (gA g') (has_voted V').
Proof.
  intros Hi Hg ET Hsh Hlen Hfirst. pose proof ledgers_now as Hok. rewrite ET.
  assert (HAe : forall v w, v <> i \/ w <> t -> gA g' v w = gA g v w) by apply (gr_only _ _ _ _ Hg).
  assert (HTp : forall w, gT g w `prefix_of` T' w) by (rewrite <- ET; apply Hg).
  split.
  - intros w Hw. by apply (li_ledger _ _ _ _ HL').
  - intros w Hw. destruct (decide (w = t)) as [-> | Hne]; [by apply Hsh | ].
    assert (Ew : T' w = gT g w) by (rewrite <- ET; by apply (gr_other _ _ _ _ Hg)).
    rewrite Ew in Hw. destruct (lo_shape _ _ _ _ _ Hok w Hw) as [H1 H2 H3 H4 H5 (Q & HQ & Hq & Hv)].
    assert (EF : gF g' w = gF g w) by (by apply (gr_first _ _ _ _ Hg)).
    split; rewrite ?Ew, ?EF; try done. exists Q. split; [done | ]. split; [done | ]. intros v Hin.
    destruct (Hv v Hin) as (Hn & Hvo & Hu). split; [done | ]. split; [done | ]. intros l Hl. apply Hu.
    rewrite <- ET in Hl. apply (grown_stored n g g' i t V' Hg Hok) in Hl; [done | ].
    destruct (decide (v = i)) as [-> | ]; [right | by left]. destruct Hvo as (c & Hvo).
    destruct (no_vote _ _ _ _ _ _ _ (inv_node _ _ _ _ _ HI' _ _ Hi) _ _ Hvo) as [? _]. subst t. lia.
  - intros v w. destruct (decide (v = i /\ w = t)) as [[-> ->] | Hne]; [done | ].
    rewrite HAe by (destruct (decide (v = i)); [right | left]; naive_solver).
    pose proof (lo_length _ _ _ _ _ Hok v w). pose proof (prefix_length _ _ (HTp w)). lia.
  - intros v w. destruct (decide (v = i /\ w = t)) as [[-> ->] | Hne]; [done | ].
    rewrite HAe by (destruct (decide (v = i)); [right | left]; naive_solver).
    intros Hp. rewrite (gr_first _ _ _ _ Hg) by by eapply accepted_nonempty. by apply (lo_first _ _ _ _ _ Hok).
Qed.

(** The log of a new leader becomes the ledger of its term. *)
Definition crowned (i : nat) (t : Z) (l : list (LogElement Cmd)) : ghost Cmd :=
  Ghost (extend (gT g) t l) (extend (gF g) t l) (fun v w => if decide (v = i /\ w = t) then length l else gA g v w) (gK g).

Lemma crowned_grown i t l : gT g t = [] -> (forall v, gA g v t = 0%nat) -> grown g (crowned i t l) i t.
Proof.
  intros E0 HA0. split; simpl; try done.
  - apply extend_grows. rewrite E0. apply prefix_nil.
  - intros w Hw. unfold extend. rewrite decide_False; [done | congruence].
  - intros v w. case_decide as Hd; [ | done]. destruct Hd as [_ ->]. rewrite HA0. lia.
  - intros v w Hvw. rewrite decide_False; [done | ]. intros [-> ->]. naive_solver.
  - intros w Hw. unfold extend. by rewrite decide_False.
Qed.

Section crown.
Context (i : nat) (rf' : Raft Cmd).
Hypothesis HA1 : Agree n g V' s'.
Hypothesis Hi : nodes s' !! i = Some rf'.
Hypothesis Hlead : state rf' = LEADER.
Hypothesis E0 : gT g (currentTerm rf') = [].
Hypothesis ET : T' = extend (gT g) (currentTerm rf') (log rf').
Hypothesis EK : gK g (currentTerm rf') i = log rf'.
Hypothesis Hb : backed (gT g) (log rf').
Hypothesis Hwf : raft_wf rf'.
Hypothesis Hpos : 1 <= currentTerm rf'.

Lemma crown_unaccepted v : gA g v (currentTerm rf') = 0%nat.
Proof. pose proof (lo_length _ _ _ _ _ (ag_ledgers _ _ _ _ HA1) v (currentTerm rf')) as Hl. rewrite E0 in Hl. simpl in Hl. lia. Qed.

(** The terms of a log follow those of the ledgers it is made of. *)
Lemma crown_sorted k k' x x' :
  (k <= k')%nat -> log rf' !! k = Some x -> log rf' !! k' = Some x' -> le_Term x <= le_Term x'.
Proof.
  intros Hk Hx Hx'. destruct k' as [ | k'].
  { assert (k = 0%nat) as -> by lia. simplify_eq. lia. }
  pose proof (b_ledger _ _ Hb _ _ Hx') as Hp.
  assert (Hin : forall j y, (j <= S k')%nat -> log rf' !! j = Some y -> gT g (le_Term x') !! j = Some y).
  { intros j y Hj Hy. eapply prefix_lookup_Some; [ | exact Hp]. by rewrite lookup_take_lt by lia. }
  assert (Hne : gT g (le_Term x') <> []) by (intros E; specialize (Hin _ _ (le_n _) Hx'); by rewrite E in Hin).
  eapply (sh_sorted _ _ _ _ _ _ (lo_shape _ _ _ _ _ (ag_ledgers _ _ _ _ HA1) _ Hne)); [exact Hk | by apply Hin | by apply Hin].
Qed.

Lemma crown_old x : x ∈ log rf' -> le_Term x < currentTerm rf'.
Proof.
  intros (k & Hk)%list_elem_of_lookup_1. destruct k as [ | k].
  - rewrite (b_base _ _ Hb) in Hk. injection Hk as <-. simpl. lia.
  - pose proof (ag_ledgers _ _ _ _ HA1) as Hok.
    destruct (na_stored _ _ _ _ _ (ag_node _ _ _ _ HA1 _ _ Hi)) as [(u & Hu & Hp & _ & El) | [_ El]]; rewrite El in Hk; [ | done].
    assert (Hne : u <> currentTerm rf') by (intros ->; rewrite crown_unaccepted in Hp; lia).
    apply lookup_take_Some in Hk as [Hk _]. assert (le_Term x <= u); [ | lia].
    eapply (ledger_bound n _ _ _ _ Hok); [by eapply accepted_nonempty | by eapply list_elem_of_lookup_2].
Qed.

Let g' := crowned i (currentTerm rf') (log rf').

Lemma crown_grown : grown g g' i (currentTerm rf').
Proof. apply crowned_grown; [exact E0 | apply crown_unaccepted]. Qed.

Lemma crown_quorum :
  exists Q, NoDup Q /\ (n < 2 * length Q)%nat /\ forall v, v ∈ Q -> (v < n)%nat /\ has_voted V' v (currentTerm rf') /\
    forall l, stored (gT g') (gA g') v (currentTerm rf' - 1) l -> up_to_date (log rf') l.
Proof.
  destruct (leads_quorum n V' e' W' s' i (currentTerm rf') HI') as (HQ & Hlen & Hv); [by exists rf' | ].
  exists (W' i). split; [done | ]. split; [done | ]. intros v Hin. destruct (Hv v Hin) as [Hvote Hn]. split; [done | ].
  split; [by exists i | ]. intros l Hl. rewrite <- EK. eapply (ag_votes _ _ _ _ HA1); [exact Hvote | exact E0 | ].
  eapply (grown_stored n g g' i (currentTerm rf') V'); [apply crown_grown | apply HA1 | right; lia | exact Hl].
Qed.

Lemma crown_ledgers : ledgers_ok n (gT g') (gF g') (gA g') (has_voted V').
Proof.
  assert (Hne : log rf' <> []) by (intros E; pose proof (b_base _ _ Hb) as E'; by rewrite E in E').
  eapply ledgers_grown; [exact Hi | exact crown_grown | by rewrite ET | ..].
  - intros _. rewrite ET. split; simpl; rewrite ?extend_eq; try done.
    + apply crown_old.
    + intros k x Hx%lookup_lt_Some Hk. lia.
    + apply crown_sorted.
    + apply crown_quorum.
  - rewrite ET. simpl. rewrite decide_True, extend_eq by done. lia.
  - simpl. rewrite decide_True, extend_eq by done. lia.
Qed.

(** What the new leader knows is committed is in its log. *)
Lemma crown_commit u :
  commit_known n g u (commitIdx rf') -> (Z.to_nat (commitIdx rf') < gA g i u)%nat -> 0 < commitIdx rf' ->
  commit_known n g' (currentTerm rf') (commitIdx rf') /\ (Z.to_nat (commitIdx rf') < length (log rf'))%nat.
Proof.
  intros Hk Hu Hc. pose proof (ag_node _ _ _ _ HA1 _ _ Hi) as Hna. destruct Hk as [ | (w & L & Hcm & HLt & Hw)]; [lia | ].
  assert (Hut : u < currentTerm rf').
  { destruct (Z.lt_trichotomy u (currentTerm rf')) as [ | [-> | Hgt]]; [done | | ].
    - rewrite crown_unaccepted in Hu. lia.
    - rewrite (na_future _ _ _ _ _ Hna) in Hu by lia. lia. }
  apply (grown_committed n _ _ _ _ crown_grown) in Hcm. split.
  - right. exists w, L. split_and!; [done | done | lia].
  - assert (Hp : take L (gT g' w) `prefix_of` gF g' (currentTerm rf')).
    { eapply committed_stays; [exact crown_ledgers | exact Hcm | lia | ]. simpl. rewrite extend_eq.
      intros E. pose proof (b_base _ _ Hb) as E'. by rewrite E in E'. }
    simpl in Hp. rewrite extend_eq in Hp. apply prefix_length in Hp. rewrite length_take in Hp.
    destruct Hcm as [(k & x & -> & Hx & _) _]. apply lookup_lt_Some in Hx. simpl in Hx. lia.
Qed.

Lemma crown_node : (forall j m, matchIdx rf' !! j = Some m -> m = 0) -> node_agree n g' V' i rf'.
Proof.
  intros Hm. pose proof (ag_node _ _ _ _ HA1 _ _ Hi) as [Hst Hfu _ _ _ Hco Hap Hch].
  assert (Hlen : (0 < length (log rf'))%nat) by (pose proof (log_wf_len _ (wf_log _ Hwf)); unfold len in *; lia).
  assert (HAi : gA g' i (currentTerm rf') = length (log rf')) by (simpl; by rewrite decide_True).
  assert (HAo : forall w, w <> currentTerm rf' -> gA g' i w = gA g i w) by (intros w Hw; simpl; rewrite decide_False; naive_solver).
  assert (HTi : gT g' (currentTerm rf') = log rf') by (simpl; by rewrite extend_eq).
  split.
  - left. exists (currentTerm rf'). rewrite HAi, HTi. split_and!; [lia | done | intros w Hw; lia | ]. by rewrite take_ge.
  - intros w Hw. rewrite HAo by lia. by apply Hfu.
  - intros c _ E. rewrite HTi in E. rewrite E in Hlen. simpl in Hlen. lia.
  - intros _ _. by rewrite HAi, HTi.
  - intros _ j m Hj. apply Hm in Hj. right. left. lia.
  - destruct (decide (commitIdx rf' <= 0)) as [ | Hgt]; [by left | right]. destruct Hco as [ | (u & Hk & Hu & _)]; [lia | ].
    destruct (crown_commit u Hk Hu) as [Hk' Hl]; [lia | ]. exists (currentTerm rf'). rewrite HAi. split_and!; [done | done | ].
    intros w Hw. rewrite HAo by lia. by apply Hfu.
  - intros m Hin. eapply grown_chosen; [exact crown_grown | by apply Hap].
  - exact Hch.
Qed.

Lemma crown :
  Forall (sent_ok n V' (gT g)) (net s') -> (forall j m, matchIdx rf' !! j = Some m -> m = 0) -> Agree n g' V' s'.
Proof.
  intros Hsent Hm. eapply (move_agree n g g' V' V' e' e' W' W' s' s' i rf' rf' (tickers s') (net s')); try done.
  - intros w Hw. destruct (ledger_elected w Hw) as (c & Hc). exists c. by eapply elected_mono.
  - rewrite list_insert_id by done. by destruct s'.
  - by left.
  - apply crown_grown.
  - apply crown_ledgers.
  - right. by eapply leader_elected.
  - intros c rc Hc _ Hrc. by eapply (ag_voted _ _ _ _ HA1).
  - by apply crown_node.
  - intros p Hp. left. split; [done | ]. intros j a Hja Ht. exfalso. rewrite Forall_forall in Hsent. specialize (Hsent p Hp).
    assert (Hseg : segment_of (gT g (ae_Term a)) a) by (destruct Hja as [[sl ->] | ->]; apply Hsent).
    destruct Hseg as (q & x & _ & Hx & _). by rewrite Ht, E0 in Hx.
  - apply (ag_order _ _ _ _ HA1).
Qed.
End crown.

Lemma order_delete k a b : StronglySorted no_shorter (sends a b (delete k (net s))).
Proof. eapply sorted_sublist; [apply sends_delete | apply HA]. Qed.

Lemma fresh_matches i rf rf' :
  fresh_leaders s s' = true -> nodes s !! i = Some rf -> nodes s' !! i = Some rf' -> state rf <> LEADER -> state rf' = LEADER ->
  forall j m, matchIdx rf' !! j = Some m -> m = 0.
Proof.
  intros Hf Hi Hi' Hs Hs' j m Hm. unfold fresh_leaders in Hf. rewrite forallb_forall in Hf.
  assert (Hin : (rf, rf') ∈ zip (nodes s) (nodes s')).
  { apply (list_elem_of_lookup_2 _ i). apply lookup_zip_with_Some. by exists rf, rf'. }
  apply list_elem_of_In in Hin. specialize (Hf _ Hin). simpl in Hf.
  rewrite (bool_decide_eq_false_2 _ Hs), (bool_decide_eq_true_2 _ Hs') in Hf. simpl in Hf. rewrite forallb_forall in Hf.
  symmetry. apply Z.eqb_eq, Hf, list_elem_of_In. by eapply list_elem_of_lookup_2.
Qed.

Lemma ghost_eta : Ghost (gT g) (gF g) (gA g) (gK g) = g.
Proof. by destruct g. Qed.

(** The ledger of a term without one becomes the log of the leader it gets. *)
Lemma ledger_won i rf' :
  nodes s' !! i = Some rf' -> state rf' = LEADER -> gT g (currentTerm rf') = [] -> T' = extend (gT g) (currentTerm rf') (log rf').
Proof.
  intros Hi Hl E0. pose proof (li_leader _ _ _ _ HL' i rf' Hi Hl) as Hne.
  destruct Hstep as [E | (j & r & r' & Hr & Hr' & Hst & Hct & E & Hor)]; [rewrite E in Hne; congruence | ].
  assert (Ht : currentTerm r' = currentTerm rf').
  { rewrite E in Hne. unfold extend in Hne. case_decide; [done | congruence]. }
  assert (j = i) as ->.
  { eapply elected_unique; [exact HI' | eapply (leader_elected n V' e' W' s' j r'); eassumption | ].
    rewrite Ht. by eapply leader_elected. }
  assert (r' = rf') as -> by congruence. exact E.
Qed.

Lemma calm_vote_reply k i j rf rf' args reply :
  net s !! k = Some (VoteReply i j args reply) -> nodes s !! i = Some rf -> sendRequestVote rf args true reply = Ok rf' ->
  fresh_leaders s s' = true -> s' = Cluster (<[i := rf']> (nodes s)) (tickers s) (delete k (net s)) -> calm_kept.
Proof.
  intros Hk Hi E Hf Es. apply list_elem_of_lookup_2 in Hk as Hq.
  apply sendRequestVote_still in E as [Hst | (Hc & Hl & Hlog & Hco & Hap & Hla & Ht & Hv & Hrt)].
  { eapply still_move; [exact Hi | exact Es | exact Hst | | intros a b; apply order_delete]. intros p Hp. left. by eapply in_delete. }
  assert (Hi' : nodes s' !! i = Some rf') by (rewrite Es; simpl; apply list_lookup_insert_eq; by eapply lookup_lt_Some).
  assert (Hm : forall j m, matchIdx rf' !! j = Some m -> m = 0) by (eapply fresh_matches; try done; congruence).
  assert (HA1 : Agree n (Ghost (gT g) (gF g) (gA g) (gK g)) V' s').
  { eapply (quiet_agree i rf rf' (gK g)); try done.
    - lia.
    - intros c rc Hvc _ Hrc. rewrite Ht. rewrite Hv in Hvc. by eapply (ag_voted _ _ _ _ HA).
    - intros c Hvc. rewrite Ht, Hlog. rewrite Hv in Hvc. by apply (na_voted _ _ _ _ _ (ag_node _ _ _ _ HA i rf Hi)).
    - intros _ x m Hx. apply Hm in Hx. lia.
    - by left.
    - rewrite Hap. auto.
    - eapply applied_keep; [by apply (na_channel _ _ _ _ _ (ag_node _ _ _ _ HA i rf Hi)) | lia | done | done].
    - intros p Hp. left. by eapply in_delete.
    - intros a b. apply order_delete. }
  destruct (decide (gT g (currentTerm rf') = [])) as [E0 | E0].
  2: { exists (Ghost (gT g) (gF g) (gA g) (gK g)). split; [ | done]. symmetry.
       eapply ledger_same; [exact Hi | by rewrite Es | ]. intros _ _. split; [done | congruence]. }
  rewrite ghost_eta in HA1. pose proof (ledger_won i rf' Hi' Hl E0) as ET.
  exists (crowned i (currentTerm rf') (log rf')). split; [by rewrite ET | ].
  destruct (si_node _ _ _ HS' _ _ Hi') as [Hwf' Hpos]. apply crown; try done.
  - rewrite Hlog, Ht. symmetry. by eapply candidate_log; [exact Hq | simpl; by rewrite Hrt | | | rewrite <- Ht].
  - rewrite Hlog. by eapply (li_node _ _ _ _ HL).
  - by apply Hpos.
  - rewrite Es. simpl. apply Forall_delete. eapply Forall_impl; [apply HL | ]. intros p. apply sent_ok_mono; [done | by intros w].
Qed.

(** ** Messages of a leader *)

(** What a peer knows is committed, it knows of its term. *)
Lemma node_known i rf : nodes s !! i = Some rf -> commit_known n g (currentTerm rf) (commitIdx rf).
Proof.
  intros Hi. pose proof (ag_node _ _ _ _ HA i rf Hi) as Hna.
  destruct (na_commit _ _ _ _ _ Hna) as [ | (u & Hk & Hu & _)]; [by left | by eapply last_known].
Qed.

Lemma broadcast_reach rf m sent :
  peer_ok rf -> Z.of_nat m <= peers rf -> broadcast_to m rf 0 = Ok sent ->
  forall j a sl, (j, (a, sl)) ∈ sent -> ae_Term a = currentTerm rf /\ reach a = length (log rf) /\ ae_LeaderCommit a = commitIdx rf.
Proof.
  intros Hok. revert sent. induction m as [ | m IH]; simpl; intros sent Hm E j a sl Ha; [simplify_eq; by apply elem_of_nil in Ha | ].
  inv_bind. simplify_eq. apply elem_of_app in Ha as [Ha | Ha]; [eapply IH; [lia | done | exact Ha] | ].
  destruct x0 as [b | ]; [ | by apply elem_of_nil in Ha]. apply list_elem_of_singleton in Ha. simplify_eq.
  match goal with Hh : heartbeat_args _ _ _ = _ |- _ => rename Hh into Eh end. pose proof (po_wf _ Hok) as Hwf.
  destruct (heartbeat_args_sent _ _ _ _ Eh) as (Hl & Hme & _). destruct (po_leader _ Hok Hl) as [Hone Hb].
  destruct (index_total (nextIdx rf) (Z.of_nat m)) as [next Hn]; [rewrite (wf_next_len _ Hwf); lia | ].
  assert (Hlt : next <= len (log rf)) by (apply index_Ok in Hn as [_ Hn]; by eapply Forall_lookup_1 in Hb).
  destruct (decide (next <= 0)) as [Hz | Hz].
  { unfold heartbeat_args in Eh. destruct (_ && _); [ | done]. rewrite Hn in Eh. simpl in Eh. apply Z.leb_le in Hz. by rewrite Hz in Eh. }
  destruct (heartbeat_args_spec rf (Z.of_nat m) next) as (c & sl' & Ec & _ & Ht & _ & Hp & _ & He & Hc); try done; [lia | ].
  rewrite Ec in Eh. simplify_eq. split; [done | ]. split; [ | done]. unfold reach. rewrite Hp, He, length_drop. unfold len in *. lia.
Qed.

(** A message leaves a log that is no longer than the ledger of its term. *)
Lemma segment_reach (l : list (LogElement Cmd)) a : segment_of l a -> (reach a <= length l)%nat.
Proof.
  intros (p & z & Hp & Hz & _ & Hpre). apply prefix_length in Hpre. rewrite length_app, length_take in Hpre.
  apply lookup_lt_Some in Hz. unfold reach. rewrite Hp. lia.
Qed.

Lemma sent_segment i j a :
  AppendRequest i j a ∈ net s \/ (exists sl, AppendGo i j a sl ∈ net s) ->
  i <> j /\ elected n V (ae_Term a) i /\ segment_of (gT g (ae_Term a)) a.
Proof. pose proof (li_net _ _ _ _ HL) as Hnet. rewrite Forall_forall in Hnet. intros [Ha | [sl Ha]]; exact (Hnet _ Ha). Qed.

Lemma send_reach k qs i j a :
  a ∈ sends i j (delete k (net s) ++ qs) ->
  (reach a <= length (gT g (ae_Term a)))%nat \/ AppendRequest i j a ∈ qs \/ (exists sl, AppendGo i j a sl ∈ qs).
Proof.
  assert (Hold : AppendRequest i j a ∈ net s \/ (exists sl, AppendGo i j a sl ∈ net s) -> (reach a <= length (gT g (ae_Term a)))%nat)
    by (intros Hin; by apply segment_reach, (sent_segment i j)).
  rewrite sends_in, elem_of_app. intros [[Ha%in_delete | Ha] | [sl [Ha%in_delete | Ha]%elem_of_app]]; eauto.
Qed.

Lemma calm_broadcast k i rf sent :
  net s !! k = Some (BroadcastGo i) -> nodes s !! i = Some rf -> broadcastHeartbeat rf = Ok sent ->
  s' = set_net (delete k (net s) ++ map (fun a => AppendGo i (Z.to_nat a.1) a.2.1 a.2.2) sent) s -> calm_kept.
Proof.
  intros Hk Hi E Es. pose proof (si_node _ _ _ HS _ _ Hi) as Hok. pose proof (po_wf _ Hok) as Hwf.
  unfold broadcastHeartbeat in E. rewrite (base_wf _ (wf_log _ Hwf)) in E. simpl in E.
  pose proof (wf_me _ Hwf) as Hme.
  assert (Hr : forall j a sl, (j, (a, sl)) ∈ sent -> ae_Term a = currentTerm rf /\ reach a = length (log rf) /\ ae_LeaderCommit a = commitIdx rf)
    by (eapply broadcast_reach; [done | | exact E]; lia).
  assert (Hled : forall j a sl, (j, (a, sl)) ∈ sent -> log rf = gT g (currentTerm rf)).
  { intros j a sl Ha. destruct (broadcast_sent _ _ _ E _ _ _ Ha) as (_ & Hl & _). exact (leader_ledger n V e W (gT g) s i rf HI HL Hi Hl). }
  eapply net_move; [exact Hi | exact Es | | ].
  - apply old_or_new, Forall_fmap, Forall_forall. intros [j [a sl]] Ha. simpl. destruct (Hr _ _ _ Ha) as (Ht & Hre & Hc).
    split; [ | by left]. simpl. rewrite Ht, Hre, Hc, (Hled _ _ _ Ha). pose proof (ag_ledgers _ _ _ _ HA) as Hok'. split_and!.
    + apply prefix_length, (lo_shape _ _ _ _ _ Hok'). rewrite <- (Hled _ _ _ Ha).
      pose proof (log_wf_len _ (wf_log _ Hwf)). intros E0. rewrite E0 in *. unfold len in *. simpl in *. lia.
    + apply (lo_length _ _ _ _ _ Hok').
    + exact (node_known i rf Hi).
  - intros x y. apply sends_later; [apply order_delete | apply Forall_fmap, Forall_forall; done | ].
    intros a b sl Ha Hb Hab. apply list_elem_of_fmap in Hb as ([j [c sl']] & Eb & Hc). simpl in Eb. simplify_eq.
    destruct (Hr _ _ _ Hc) as (Ht & Hre & _). rewrite Hre, (Hled _ _ _ Hc).
    destruct (send_reach k _ i (Z.to_nat j) a Ha) as [Hle | [Hin | [sl Hin]]].
    + rewrite <- Ht, <- Hab. exact Hle.
    + by apply list_elem_of_fmap in Hin as ([j' [d sl]] & Ed & _).
    + apply list_elem_of_fmap in Hin as ([j' [d sl2]] & Ed & Hd). simpl in Ed. simplify_eq. apply Hr in Hd as (_ & -> & _).
      by rewrite (Hled _ _ _ Hc).
Qed.

(** The goroutine of a message hands it to the network. *)
Lemma calm_append_go k i j a sl rf :
  net s !! k = Some (AppendGo i j a sl) -> nodes s !! i = Some rf -> first_send (net s) k (AppendGo i j a sl) ->
  s' = set_net (delete k (net s) ++ [AppendRequest i j a]) s -> calm_kept.
Proof.
  intros Hk Hi Hf Es. apply list_elem_of_lookup_2 in Hk as Hq.
  pose proof (ag_net _ _ _ _ HA) as Hnet. rewrite Forall_forall in Hnet. specialize (Hnet _ Hq).
  eapply net_move; [exact Hi | exact Es | | ].
  - apply old_or_new, Forall_singleton. split; [exact Hnet | by left].
  - intros x y. rewrite (sends_handed _ k i j a sl) by done. apply HA.
Qed.

(** ** A peer stores what it is sent *)
Definition stored_more (j : nat) (a : AppendEntriesArgs Cmd) : ghost Cmd :=
  Ghost (gT g) (gF g) (fun v w => if decide (v = j /\ w = ae_Term a) then reach a else gA g v w) (gK g).

Section accept.
Context (k i j : nat) (a : AppendEntriesArgs Cmd) (rf rf' : Raft Cmd) (reply : AppendEntriesResults).
Hypothesis Hk : net s !! k = Some (AppendRequest i j a).
Hypothesis Hf : first_send (net s) k (AppendRequest i j a).
Hypothesis Hj : nodes s !! j = Some rf.
Hypothesis Es : s' = Cluster (<[j := rf']> (nodes s)) (tickers s) (delete k (net s) ++ [AppendReply i j a reply]).
Hypothesis Hacc : accepted rf rf' a.

Let g' := stored_more j a.

Lemma accept_net : AppendRequest i j a ∈ net s.
Proof. by eapply list_elem_of_lookup_2. Qed.

Lemma accept_sent : i <> j /\ elected n V (ae_Term a) i /\ segment_of (gT g (ae_Term a)) a.
Proof. apply sent_segment. left. apply accept_net. Qed.

Lemma accept_agree :
  (length (gF g (ae_Term a)) <= reach a)%nat /\ (gA g j (ae_Term a) <= reach a)%nat /\ commit_known n g (ae_Term a) (ae_LeaderCommit a).
Proof. pose proof (ag_net _ _ _ _ HA) as Hnet. rewrite Forall_forall in Hnet. exact (Hnet _ accept_net). Qed.

Lemma accept_ledger : gT g (ae_Term a) <> [].
Proof. destruct accept_sent as (_ & _ & q & x & _ & Hx & _). intros E. by rewrite E in Hx. Qed.

Lemma accept_follower : state rf' <> LEADER /\ ~ elected n V' (ae_Term a) j.
Proof.
  destruct accept_sent as (Hij & He & _).
  assert (Hno : ~ elected n V' (ae_Term a) j).
  { intros He'. destruct Hij. eapply elected_unique; [exact HI' | by eapply elected_mono | exact He']. }
  split; [ | done]. intros Hl. apply Hno. destruct Hacc as (_ & <- & _).
  eapply leader_elected; [exact HI' | | exact Hl]. rewrite Es. simpl. apply list_lookup_insert_eq. by eapply lookup_lt_Some.
Qed.

Lemma accept_log : log rf' = take (reach a) (gT g (ae_Term a)).
Proof.
  destruct Hacc as (_ & _ & _ & _ & _ & _ & _ & Hm & Hl & _). destruct accept_sent as (_ & _ & p & x & Hp & Hx & Hxt & Hpre).
  unfold log_matches in Hm. rewrite Hp in Hm, Hl. rewrite Nat2Z.id in Hm, Hl. destruct (log rf !! p) as [y | ] eqn:Hy; [ | done].
  zbool. assert (E : take (S p) (log rf) = take (S p) (gT g (ae_Term a))).
  { eapply (backed_agree (gT g)); [by eapply (li_node _ _ _ _ HL) | apply (li_ledger _ _ _ _ HL), accept_ledger | exact Hy | exact Hx | congruence]. }
  rewrite Hl, E. unfold reach. rewrite Hp, Nat2Z.id. destruct Hpre as [r Hr]. rewrite Hr at 2.
  rewrite take_app_le, (take_ge (take _ _ ++ _)); [done | | ]; rewrite length_app, length_take; apply lookup_lt_Some in Hx; lia.
Qed.

Lemma accept_grown : grown g g' j (ae_Term a).
Proof.
  split; simpl; try done; [by intros w | | ].
  - intros v w. case_decide as Hd; [ | done]. destruct Hd as [-> ->]. apply accept_agree.
  - intros v w Hvw. rewrite decide_False; [done | ]. naive_solver.
Qed.

Lemma accept_ledgers : ledgers_ok n (gT g') (gF g') (gA g') (has_voted V').
Proof.
  pose proof Hacc as (_ & Ht & _). assert (ET : T' = gT g).
  { eapply ledger_same; [exact Hj | by rewrite Es | ]. intros Hl. by destruct accept_follower. }
  assert (Hj' : nodes s' !! j = Some rf') by (rewrite Es; simpl; apply list_lookup_insert_eq; by eapply lookup_lt_Some).
  destruct accept_agree as (HF & _ & _).
  eapply (ledgers_grown g' j rf'); [exact Hj' | rewrite Ht; exact accept_grown | by rewrite ET | rewrite ?Ht, ?ET; simpl.. ].
  - intros Hne. pose proof ledgers_now as Hok. destruct (lo_shape _ _ _ _ _ Hok _ Hne) as [H1 H2 H3 H4 H5 (Q & HQ & Hq & Hv)].
    split; try done. exists Q. split; [done | ]. split; [done | ]. intros v Hin. destruct (Hv v Hin) as (Hn & Hvo & Hu).
    split; [done | ]. split; [done | ]. intros l Hl. apply Hu.
    apply (grown_stored n g g' j (ae_Term a) V' accept_grown Hok) in Hl; [done | right; lia].
  - rewrite decide_True by done. by apply segment_reach, accept_sent.
  - rewrite decide_True by done. done.
Qed.

(** What the peer knew to be committed is within what it stores. *)
Lemma accept_kept :
  0 < commitIdx rf -> commit_known n g (ae_Term a) (commitIdx rf) /\ (Z.to_nat (commitIdx rf) < reach a)%nat.
Proof.
  intros Hpos. pose proof (ag_node _ _ _ _ HA _ _ Hj) as Hna. pose proof Hacc as (Htm & Ht & _).
  destruct accept_agree as (HF & HAj & _). destruct (na_commit _ _ _ _ _ Hna) as [ | (u & Hu & Hlt & _)]; [lia | ].
  assert (Hut : u <= ae_Term a).
  { destruct (decide (u <= currentTerm rf)); [lia | ]. rewrite (na_future _ _ _ _ _ Hna) in Hlt by lia. lia. }
  split; [eapply known_mono; [exact Hu | done | lia] | ].
  destruct (decide (u = ae_Term a)) as [-> | Hne]; [lia | ].
  destruct Hu as [ | (w & L & Hcm & HLt & Hw)]; [lia | ].
  assert (Hp : take L (gT g w) `prefix_of` gF g (ae_Term a)) by (eapply committed_stays; [apply HA | exact Hcm | lia | apply accept_ledger]).
  apply prefix_length in Hp. rewrite length_take in Hp. destruct Hcm as [(q & x & -> & Hx & _) _]. apply lookup_lt_Some in Hx. lia.
Qed.

Lemma accept_len : ae_PrevLogIdx a + len (ae_Entries a) = Z.of_nat (reach a) - 1.
Proof. destruct accept_sent as (_ & _ & p & x & Hp & _). unfold reach, len. lia. Qed.

(** So the commit index does not go back, and stays within what was stored. *)
Lemma accept_grows : commitIdx rf <= commitIdx rf'.
Proof.
  pose proof Hacc as (_ & _ & _ & _ & _ & _ & _ & _ & _ & Hc). pose proof accept_len. pose proof accept_kept as Hkept.
  assert (1 <= reach a)%nat by (unfold reach; lia). destruct (decide (0 < commitIdx rf)) as [Hpos | Hpos]; [destruct (Hkept Hpos) | ]; lia.
Qed.

Lemma accept_commit :
  commitIdx rf' <= 0 \/ (commit_known n g' (ae_Term a) (commitIdx rf') /\ (Z.to_nat (commitIdx rf') < reach a)%nat).
Proof.
  destruct (decide (commitIdx rf' <= 0)) as [ | Hpos]; [by left | right]. pose proof accept_len. destruct accept_agree as (_ & _ & Hkn).
  pose proof Hacc as (_ & _ & _ & _ & _ & _ & _ & _ & _ & Hc). destruct Hc as [Ec | [_ Ec]].
  - rewrite Ec in *. destruct accept_kept as [Hkp Hl]; [lia | ]. split; [ | done]. by eapply (grown_known n _ _ _ _ accept_grown).
  - split; [eapply (grown_known n _ _ _ _ accept_grown), known_mono; [exact Hkn | lia | lia] | lia].
Qed.

Lemma accept_node : node_agree n g' V' j rf'.
Proof.
  pose proof (ag_node _ _ _ _ HA _ _ Hj) as Hna. pose proof Hacc as (Htm & Ht & _ & _ & _ & Ha & Hla & _).
  assert (HAj : gA g' j (ae_Term a) = reach a) by (simpl; by rewrite decide_True).
  assert (HAo : forall w, ae_Term a < w -> gA g' j w = 0%nat).
  { intros w Hw. simpl. rewrite decide_False by lia. apply (na_future _ _ _ _ _ Hna). lia. }
  split; rewrite ?Ht.
  - left. exists (ae_Term a). rewrite HAj. split_and!; [done | unfold reach; lia | intros w Hw; lia | apply accept_log].
  - exact HAo.
  - intros c _ E. by destruct accept_ledger.
  - intros He. by destruct accept_follower.
  - intros Hl. by destruct accept_follower.
  - destruct accept_commit as [ | [Hkn Hlt]]; [by left | right]. exists (ae_Term a). by rewrite HAj.
  - intros m Hm. rewrite Ha in Hm. eapply grown_chosen; [exact accept_grown | by apply (na_applied _ _ _ _ _ Hna)].
  - eapply applied_keep; [by apply (na_channel _ _ _ _ _ Hna) | apply accept_grows | done | done].
Qed.

Lemma accept_move : calm_kept.
Proof.
  pose proof Hacc as (Htm & Ht & Hv & Hnv & _). destruct accept_sent as (Hij & He & _).
  exists g'. split; [symmetry; eapply ledger_same; [exact Hj | by rewrite Es | intros Hl; by destruct accept_follower] | ].
  eapply (move_agree n g g' V V' e e' W W' s s' j rf rf'); try done.
  - apply ledger_elected.
  - apply HL.
  - rewrite Ht. apply accept_grown.
  - apply accept_ledgers.
  - by left.
  - intros _ E. rewrite Ht in E. by destruct accept_ledger.
  - intros c rc Hc _ Hrc. destruct (decide (currentTerm rf' = currentTerm rf)) as [E | E].
    + rewrite Hv in Hc by done. rewrite E. by eapply (ag_voted _ _ _ _ HA).
    + rewrite Hnv in Hc by lia. lia.
  - apply accept_node.
  - rewrite Ht. intros p [Hp | Hp]%elem_of_app.
    + left. split; [by eapply in_delete | ]. intros x b Hb Hbt. simpl. rewrite decide_True by done.
      assert (Hin : AppendRequest x j b ∈ net s \/ (exists sl, AppendGo x j b sl ∈ net s))
        by (apply in_delete in Hp; destruct Hb as [[sl ->] | ->]; eauto).
      destruct (sent_segment x j b Hin) as (_ & He' & _). rewrite Hbt in He'.
      assert (x = i) as -> by (by eapply (elected_unique n V e W s)).
      pose proof (ag_order _ _ _ _ HA i j) as Hs. rewrite (sends_request _ _ _ _ _ Hk Hf) in Hs.
      apply StronglySorted_inv in Hs as [_ Hs]. rewrite Forall_forall in Hs. apply Hs; [ | by rewrite Hbt].
      apply sends_in. destruct Hb as [[sl ->] | ->]; eauto.
    + right. apply list_elem_of_singleton in Hp as ->. split; [ | left; intros c t r; done].
      intros _. simpl. by rewrite decide_True.
  - intros x y. apply order_quiet. by repeat constructor.
Qed.
End accept.

Lemma calm_append_request k i j a rf rf' reply :
  net s !! k = Some (AppendRequest i j a) -> first_send (net s) k (AppendRequest i j a) -> nodes s !! j = Some rf ->
  AppendEntries rf a zero_append_reply = Ok (rf', reply) ->
  s' = Cluster (<[j := rf']> (nodes s)) (tickers s) (delete k (net s) ++ [AppendReply i j a reply]) -> calm_kept.
Proof.
  intros Hk Hf Hj E Es. destruct (delivered_fits n V s HS k _ Hk) as ((_ & _ & _ & Haw & _) & _).
  apply AppendEntries_still in E as [[Hst Hno] | Hacc]; [ | by eapply accept_move | by eapply wf_node | done].
  eapply still_move; [exact Hj | exact Es | exact Hst | | ].
  - apply old_or_new, Forall_singleton. split; [simpl; congruence | by left].
  - intros x y. apply order_quiet. by repeat constructor.
Qed.

(** ** Answers *)

(** The peers that a leader counts for an entry have accepted it. *)
Lemma replicas_accepted rf' i x :
  me rf' = Z.of_nat i -> peers rf' = Z.of_nat n -> 0 < x -> (Z.to_nat x < gA g i (currentTerm rf'))%nat ->
  (forall j m, matchIdx rf' !! j = Some m -> j = i \/ m <= 0 \/ (Z.to_nat m < gA g j (currentTerm rf'))%nat) ->
  peers rf' < 2 * replicas rf' x ->
  exists Q, NoDup Q /\ (n < 2 * length Q)%nat /\
    forall q, q ∈ Q -> (q < n)%nat /\ (S (Z.to_nat x) <= gA g q (currentTerm rf'))%nat.
Proof.
  intros Hme Hpe Hx Hi Hm Hr. unfold replicas, len in Hr. rewrite Hpe, Nat2Z.id in Hr.
  exists (filter (fun j => holds_entry rf' x j = true) (seq 0 n)). split; [apply NoDup_filter, NoDup_seq | ]. split; [lia | ].
  intros q [Hq Hin]%list_elem_of_filter. apply elem_of_seq in Hin. split; [lia | ]. unfold holds_entry in Hq. zbool.
  destruct Hq as [Hq | Hq]; zbool; [assert (q = i) as -> by lia; lia | ].
  destruct (matchIdx rf' !! q) as [m | ] eqn:Em; [ | done]. zbool.
  destruct (Hm q m Em) as [-> | [ | Hlt]]; [lia | lia | lia].
Qed.

Lemma calm_append_reply k i j a rf rf' reply :
  net s !! k = Some (AppendReply i j a reply) -> nodes s !! i = Some rf ->
  sendAppendEntries rf (Z.of_nat j) a true reply = Ok rf' ->
  s' = Cluster (<[i := rf']> (nodes s)) (tickers s) (delete k (net s)) -> calm_kept.
Proof.
  intros Hk Hi E Es. apply list_elem_of_lookup_2 in Hk as Hq. destruct (delivered_fits n V s HS k _ Hk) as (((_ & _ & Hjn & Haw & _) & _) & _).
  pose proof (inv_node _ _ _ _ _ HI _ _ Hi) as Hno. pose proof (ag_node _ _ _ _ HA _ _ Hi) as Hna.
  apply sendAppendEntries_still in E as [Hst | (_ & Hl & Ht & Hlog & Ha & Hla & Ht' & Hv & Hm & Hc)].
  { eapply still_move; [exact Hi | exact Es | exact Hst | | intros x y; apply order_delete]. intros p Hp. left. by eapply in_delete. }
  2: { by eapply wf_node. }
  2: { rewrite (no_peers _ _ _ _ _ _ _ Hno). lia. }
  assert (Hled : log rf = gT g (currentTerm rf)) by exact (leader_ledger n V e W (gT g) s i rf HI HL Hi Hl).
  assert (Hne : gT g (currentTerm rf) <> []) by exact (li_leader _ _ _ _ HL i rf Hi Hl).
  assert (Hown : gA g i (currentTerm rf) = length (log rf)).
  { rewrite Hled. apply (na_owner _ _ _ _ _ Hna); [exact (leader_elected n V e W s i rf HI Hi Hl) | exact Hne]. }
  assert (Hmatch : forall x m, matchIdx rf' !! x = Some m -> x = i \/ m <= 0 \/ (Z.to_nat m < gA g x (currentTerm rf'))%nat).
  { rewrite Ht'. destruct Hm as [-> | (z & Hs & Hz & ->)]; [by apply (na_match _ _ _ _ _ Hna) | ]. intros x m Hx.
    destruct (decide (x = j)) as [-> | Hne']; [ | rewrite list_lookup_insert_ne in Hx by done; by apply (na_match _ _ _ _ _ Hna)].
    right. right. apply list_lookup_insert_Some in Hx as [(_ & <- & _) | [? _]]; [ | done].
    pose proof (ag_net _ _ _ _ HA) as Hnet. rewrite Forall_forall in Hnet. specialize (Hnet _ Hq Hs).
    rewrite last_lookup in Hz. apply lookup_lt_Some in Hz as Hlt. rewrite (aw_index _ Haw _ _ Hz). pose proof (aw_prev _ Haw).
    rewrite Ht. unfold reach in Hnet. lia. }
  eapply (quiet_move i rf rf' (gK g)); try done.
  - lia.
  - intros c rc Hvc _ Hrc. rewrite Ht'. rewrite Hv in Hvc. by eapply (ag_voted _ _ _ _ HA).
  - intros c _ E0. congruence.
  - destruct Hc as [ | (z & Hlt & Hz & Hzt & Hr & Hme & Hpe)]; [by left | right]. exists (currentTerm rf).
    assert (Hpos : 0 <= commitIdx rf) by (apply wf_commit; by eapply wf_node). apply lookup_lt_Some in Hz as Hzl.
    split_and!; [ | rewrite Hown; lia | apply (na_future _ _ _ _ _ Hna)].
    right. exists (currentTerm rf), (S (Z.to_nat (commitIdx rf'))). split; [ | lia]. split.
    + exists (Z.to_nat (commitIdx rf')), z. by rewrite <- Hled.
    + rewrite <- Ht'. eapply (replicas_accepted rf' i); [ | | lia | rewrite Ht', Hown; lia | exact Hmatch | exact Hr].
      * rewrite Hme. by apply (no_me _ _ _ _ _ _ _ Hno).
      * rewrite Hpe. by apply (no_peers _ _ _ _ _ _ _ Hno).
  - rewrite Ha. auto.
  - eapply applied_keep; [by apply (na_channel _ _ _ _ _ Hna) | | done | done]. destruct Hc as [-> | (z & Hlt & _)]; lia.
  - intros p Hp. left. by eapply in_delete.
  - intros x y. apply order_delete.
Qed.

(** A lost message changes nothing at its sender. *)
Lemma calm_drop k p :
  net s !! k = Some p -> drop_packet p (set_net (delete k (net s)) s) = Ok s' -> calm_kept.
Proof.
  intros Hk Hd. assert (Hlost : forall i rf, nodes s !! i = Some rf -> s' = Cluster (<[i := rf]> (nodes s)) (tickers s) (delete k (net s)) -> calm_kept).
  { intros i rf Hi Es. eapply still_move; [exact Hi | exact Es | apply still_refl | | intros x y; apply order_delete].
    intros q Hq. left. by eapply in_delete. }
  assert (Happ : forall rf server a, nodes s !! owner p = Some rf ->
    sendAppendEntries rf server a false (MkAppendEntriesResults 0 false 0) = Ok rf).
  { intros rf server a Hi. unfold sendAppendEntries. rewrite (base_wf _ (wf_log _ (wf_node _ _ Hi))). done. }
  destruct p; simpl in Hd, Happ; inv_bind; try done; simplify_eq; apply node_Ok in H0; simpl in H0;
    rewrite ?Happ in * by done; simplify_eq; by eapply Hlost.
Qed.

(** ** The service *)
Lemma calm_apply i rf rf' m :
  nodes s !! i = Some rf -> applyCommitted rf = Ok rf' -> s' = Cluster (<[i := set_appliers m rf']> (nodes s)) (tickers s) (net s) -> calm_kept.
Proof.
  intros Hi E Es. pose proof (ag_node _ _ _ _ HA _ _ Hi) as Hna.
  destruct (applyCommitted_fields rf rf' (wf_node _ _ Hi) (na_channel _ _ _ _ _ Hna) E) as (Hl & Hc & Ht & Hv & Hst & Hm & Hch & Hap).
  eapply (quiet_move i rf (set_appliers m rf') (gK g)); try done; simpl; rewrite ?Ht, ?Hv, ?Hst, ?Hm; try done.
  - intros c rc Hvc _ Hrc. by eapply (ag_voted _ _ _ _ HA).
  - rewrite Hl. by apply (na_voted _ _ _ _ _ Hna).
  - by apply (na_match _ _ _ _ _ Hna).
  - by left.
  - intros x [Hx | (Hx & y & Hy & Hcmd)]%Hap; [by left | right].
    destruct (na_commit _ _ _ _ _ Hna) as [ | (u & Hk & Hu & Hw)]; [lia | ]. destruct Hk as [ | (w & L & Hcm & HLt & Hwu)]; [lia | ].
    assert (Hst' : log rf = take (gA g i u) (gT g u)).
    { assert (Hut : u <= currentTerm rf) by (destruct (decide (u <= currentTerm rf)); [done | rewrite (na_future _ _ _ _ _ Hna) in Hu; lia]).
      eapply stored_unique; [apply (na_stored _ _ _ _ _ Hna) | left; exists u]. split_and!; [done | lia | | done]. intros z Hz. apply Hw. lia. }
    assert (Hp : take L (gT g w) `prefix_of` gT g u).
    { pose proof (ag_ledgers _ _ _ _ HA) as Hok. destruct (decide (w = u)) as [-> | Hne]; [apply prefix_take | ].
      assert (Hun : gT g u <> []) by (eapply (accepted_nonempty n _ _ _ _ Hok i); lia).
      etrans; [apply (committed_stays n _ _ _ _ Hok w L Hcm u); [lia | exact Hun] | by apply (lo_shape _ _ _ _ _ Hok)]. }
    exists w, L, y. rewrite Hcmd. split_and!; [done | lia | lia | | done].
    rewrite Hst' in Hy. apply lookup_take_Some in Hy as [Hy _]. destruct Hp as [r Hr]. rewrite Hr in Hy.
    destruct Hcm as [(q & z & -> & Hz & _) _]. apply lookup_lt_Some in Hz.
    rewrite lookup_app_l, lookup_take_lt in Hy by (rewrite ?length_take; lia). exact Hy.
  - by destruct Hch.
  - auto.
  - apply HA.
  - intros Hl'. by eapply (li_leader _ _ _ _ HL).
Qed.

(** A leader gets an entry. *)
Section start.
Context (i : nat) (rf rf' : Raft Cmd) (x : LogElement Cmd).
Let t := currentTerm rf.
Hypothesis Hi : nodes s !! i = Some rf.
Hypothesis Es : s' = Cluster (<[i := rf']> (nodes s)) (tickers s) (net s).
Hypothesis Hl : state rf = LEADER.
Hypothesis Hl' : state rf' = LEADER.
Hypothesis Hc : commitIdx rf' = commitIdx rf.
Hypothesis Ha : cApplyMsg rf' = cApplyMsg rf.
Hypothesis Hla : appliedLast rf' = appliedLast rf.
Hypothesis Ht : currentTerm rf' = t.
Hypothesis Hv : votedFor rf' = votedFor rf.
Hypothesis Hm : matchIdx rf' = matchIdx rf.
Hypothesis Hlog : log rf' = log rf ++ [x].
Hypothesis Hxt : le_Term x = t.

Let g' := Ghost T' (gF g) (fun v w => if decide (v = i /\ w = t) then length (log rf') else gA g v w) (gK g).

Lemma start_node : nodes s' !! i = Some rf'.
Proof. rewrite Es. simpl. apply list_lookup_insert_eq. by eapply lookup_lt_Some. Qed.

Lemma start_ledgers : log rf = gT g t /\ T' t = gT g t ++ [x] /\ (forall w, w <> t -> T' w = gT g w) /\ gT g t <> [].
Proof.
  assert (E : log rf = gT g t) by exact (leader_ledger n V e W (gT g) s i rf HI HL Hi Hl).
  assert (E' : log rf' = T' t) by (rewrite <- Ht; exact (leader_ledger n V' e' W' T' s' i rf' HI' HL' start_node Hl')).
  split; [done | ]. split; [congruence | ]. split; [ | exact (li_leader _ _ _ _ HL i rf Hi Hl)].
  apply ledger_other. rewrite <- E', Hlog, E. intros Heq. apply (f_equal length) in Heq. rewrite length_app in Heq. simpl in Heq. lia.
Qed.

Lemma start_own : gA g i t = length (gT g t).
Proof.
  apply (na_owner _ _ _ _ _ (ag_node _ _ _ _ HA _ _ Hi)); [exact (leader_elected n V e W s i rf HI Hi Hl) | apply start_ledgers].
Qed.

Lemma start_length : length (log rf') = S (length (gT g t)).
Proof. destruct start_ledgers as (E & _). rewrite Hlog, E, length_app. simpl. lia. Qed.

Lemma start_grown : grown g g' i t.
Proof.
  destruct start_ledgers as (E & ET & Eo & _). split; simpl; try done.
  - intros w. simpl. destruct (decide (w = t)) as [-> | Hne]; [rewrite ET; by apply prefix_app_r | by rewrite Eo].
  - intros v w. case_decide as Hd; [ | done]. destruct Hd as [-> ->]. rewrite start_length, start_own. lia.
  - intros v w Hvw. rewrite decide_False; [done | ]. naive_solver.
Qed.

Lemma start_shape : ledger_shape n T' (gF g') (gA g') (has_voted V') t.
Proof.
  destruct start_ledgers as (E & ET & _ & Hne). pose proof ledgers_now as Hok.
  destruct (lo_shape _ _ _ _ _ Hok _ Hne) as [H1 H2 H3 H4 H5 (Q & HQ & Hq & Hv')].
  assert (Hle : forall k y, gT g t !! k = Some y -> le_Term y <= t)
    by (intros k y Hy; eapply (ledger_bound n _ _ _ _ Hok); [done | by eapply list_elem_of_lookup_2]).
  split; simpl; rewrite ?ET; try done.
  - by apply prefix_app_r.
  - intros k y [Hy | [_ Hy]]%lookup_app_Some Hk; [by eapply H4 | ]. apply list_lookup_singleton_Some in Hy as [_ <-]. done.
  - intros k k' y y' Hk [Hy | [Hk1 Hy]]%lookup_app_Some [Hy' | [Hk2 Hy']]%lookup_app_Some.
    + by eapply H5.
    + apply list_lookup_singleton_Some in Hy' as [_ <-]. rewrite Hxt. by eapply Hle.
    + apply lookup_lt_Some in Hy'. lia.
    + apply list_lookup_singleton_Some in Hy as [_ <-], Hy' as [_ <-]. done.
  - exists Q. split; [done | ]. split; [done | ]. intros v Hin. destruct (Hv' v Hin) as (Hn & Hvo & Hu).
    split; [done | ]. split; [done | ]. intros l Hst. apply Hu.
    apply (grown_stored n g g' i t V' start_grown Hok) in Hst; [done | right; lia].
Qed.

Lemma start_move : calm_kept.
Proof.
  destruct start_ledgers as (E & ET & Eo & Hne). pose proof (ag_node _ _ _ _ HA _ _ Hi) as Hna. pose proof ledgers_now as Hok.
  assert (HAi : gA g' i t = length (log rf')) by (simpl; by rewrite decide_True).
  assert (HAo : forall w, w <> t -> gA g' i w = gA g i w) by (intros w Hw; simpl; rewrite decide_False; naive_solver).
  assert (HTt : gT g' t = log rf') by (simpl; by rewrite ET, Hlog, E).
  assert (HTne : gT g' t <> []) by (rewrite HTt, Hlog; by destruct (log rf)).
  exists g'. split; [done | ]. eapply (move_agree n g g' V V' e e' W W' s s' i rf rf'); try done; rewrite ?Ht; try done.
  - apply ledger_elected.
  - apply HL.
  - apply start_grown.
  - eapply (ledgers_grown g' i rf'); [exact start_node | rewrite Ht; exact start_grown | done | rewrite ?Ht.. ].
    + intros _. apply start_shape.
    + rewrite HAi, <- HTt. done.
    + rewrite HAi, start_length. intros _. simpl. pose proof (lo_shape _ _ _ _ _ Hok _ Hne) as Hsh.
      pose proof (prefix_length _ _ (sh_prefix _ _ _ _ _ _ Hsh)). lia.
  - right. rewrite <- Ht. by eapply leader_elected; [exact HI' | apply start_node | ].
  - intros c rc Hvc _ Hrc. rewrite Hv in Hvc. by eapply (ag_voted _ _ _ _ HA).
  - split; rewrite ?Ht.
    + left. exists t. rewrite HAi, HTt, take_ge by done. split_and!; [done | rewrite start_length; lia | intros w Hw; lia | done].
    + intros w Hw. rewrite HAo by lia. by apply (na_future _ _ _ _ _ Hna).
    + intros c _ E0. by destruct HTne.
    + intros _ _. by rewrite HAi, HTt.
    + intros _ j m Hj. rewrite Hm in Hj. destruct (na_match _ _ _ _ _ Hna Hl j m Hj) as [ | [ | Hlt]]; [by left | by right; left | right; right].
      pose proof (gr_more _ _ _ _ start_grown j t). fold t in Hlt. lia.
    + rewrite Hc. destruct (na_commit _ _ _ _ _ Hna) as [ | (u & Hk & Hu & Hw)]; [by left | right].
      exists u. pose proof (gr_more _ _ _ _ start_grown i u). split_and!; [by eapply grown_known; [exact start_grown | ] | lia | ].
      intros w Hlt. rewrite HAo; [by apply Hw | ]. intros ->. specialize (Hw t Hlt). rewrite start_own in Hw. destruct (gT g t); done.
    + intros m Hin. rewrite Ha in Hin. eapply grown_chosen; [exact start_grown | by apply (na_applied _ _ _ _ _ Hna)].
    + eapply applied_keep; [by apply (na_channel _ _ _ _ _ Hna) | lia | done | done].
  - intros p Hp. left. split; [done | ]. intros j a Hja Hat. exfalso.
    assert (Hs : AppendRequest j i a ∈ net s \/ (exists sl, AppendGo j i a sl ∈ net s)) by (destruct Hja as [[sl ->] | ->]; eauto).
    destruct (sent_segment j i a Hs) as (Hji & He & _). destruct Hji. rewrite Hat in He.
    eapply (elected_unique n V e W s); [done | exact He | exact (leader_elected n V e W s i rf HI Hi Hl)].
  - apply HA.
Qed.
End start.

Lemma calm_start i rf rf' command res :
  nodes s !! i = Some rf -> Start rf command = Ok (rf', res) ->
  s' = Cluster (<[i := rf']> (nodes s)) (tickers s) (net s) -> calm_kept.
Proof.
  intros Hi E Es. apply Start_fields in E as [-> | (Hl & Hl' & Hc & Ha & Hla & Ht & Hv & Hm & x & Hlog & Hx)]; [ | by eapply start_move].
  eapply still_move; [exact Hi | exact Es | apply still_refl | by left | apply HA].
Qed.

(** ** Every action *)
Lemma order_first k p c :
  net s !! k = Some p -> channel p = Some c -> in_order (Deliver k) s = true -> first_send (net s) k p.
Proof.
  intros Hk Hc Ho q Hq Eq. simpl in Ho. rewrite Hk, Hc, forallb_forall in Ho. apply list_elem_of_In in Hq.
  specialize (Ho q Hq). rewrite bool_decide_eq_true_2 in Ho by congruence. done.
Qed.

Lemma calm_packet k p :
  net s !! k = Some p -> allowed steady (Deliver k) s = true -> in_order (Deliver k) s = true -> fresh_leaders s s' = true ->
  run_packet p (set_net (delete k (net s)) s) = Ok s' -> calm_kept.
Proof.
  intros Hk Hal Ho Hf Hr.
  destruct p as [i t | i j args | i j args reply | i | i j a sl | i j a | i j a reply]; simpl in Hr; inv_bind;
    try (apply node_Ok in H0; simpl in H0); symmetry in Hr.
  - simpl in Hal. rewrite Hk, H0 in Hal. zbool. by eapply calm_vote_go.
  - destruct x0 as [rf' reply]. simplify_eq. by eapply calm_vote_request.
  - simplify_eq. by eapply calm_vote_reply.
  - by eapply calm_broadcast.
  - simpl in Hal. rewrite Hk, H0 in Hal. zbool.
    destruct (proj1 (delivered_fits n V s HS k _ Hk)) as [_ (r & Hr' & _ & Hfr)]. assert (r = x) by congruence. subst r.
    rewrite copy_fresh in Hr by by apply Hfr. simplify_eq. eapply calm_append_go; [exact Hk | exact H0 | by eapply order_first | done].
  - destruct x0 as [rf' reply]. simplify_eq. eapply calm_append_request; [exact Hk | by eapply order_first | exact H0 | done | done].
  - simplify_eq. by eapply calm_append_reply.
Qed.

Lemma calm_action a :
  allowed steady a s = true -> in_order a s = true -> fresh_leaders s s' = true -> do_action a s = Ok s' -> calm_kept.
Proof.
  intros Hal Ho Hf Hr. destruct a as [i ev | k | k | i command | i | i]; cbn [do_action] in Hr.
  - inv_bind. destruct x1 as [[rf' pc'] gr]. simplify_eq. apply node_Ok in H0. by eapply calm_tick.
  - destruct (net s !! k) as [p | ] eqn:Hk; [by eapply calm_packet | done].
  - destruct (net s !! k) as [p | ] eqn:Hk; [by eapply calm_drop | done].
  - inv_bind. destruct x0 as [rf' res]. simplify_eq. apply node_Ok in H0. by eapply calm_start.
  - inv_bind. apply node_Ok in H0. destruct (appliers x) as [ | m]; inv_bind. simplify_eq. by eapply calm_apply.
  - done.
Qed.
End step.

(** ** Executions *)
Section executions.
Context {Cmd : Type} `{GoRuntime Cmd} (n : nat).

Definition no_ghost : ghost Cmd := Ghost (fun _ => []) (fun _ => []) (fun _ _ => 0%nat) (fun _ _ => []).

Lemma Agree_boot : Agree n no_ghost [] (@boot Cmd _ n).
Proof.
  assert (Hb : forall i rf, nodes (@boot Cmd _ n) !! i = Some rf ->
    log rf = [base_entry] /\ state rf = FOLLOWER /\ votedFor rf = -1 /\ commitIdx rf = 0 /\
    cApplyMsg rf = [] /\ appliedLast rf = 0).
  { intros i rf (x & -> & _)%list_lookup_fmap_Some. by unfold Make. }
  split; simpl; try done; try by constructor.
  - intros v t c Hin. by apply elem_of_nil in Hin.
  - intros v t c rf Hin. by apply elem_of_nil in Hin.
  - intros v rf c rf' Hv Hvc. apply Hb in Hv as (_ & _ & E & _). lia.
  - intros i rf Hi. destruct (Hb i rf Hi) as (El & Es & Ev & Ec & Ea & Eal). split; simpl; try done.
    + right. by rewrite El.
    + intros c Hc. lia.
    + congruence.
    + left. lia.
    + intros m Hm. rewrite Ea in Hm. by apply elem_of_nil in Hm.
    + split; rewrite ?Ea, ?Eal; [lia | done | done].
Qed.

(** What holds in every state of a calm cluster. *)
Lemma reachable_calm s :
  (0 < n)%nat -> reachable (calm_system n) s ->
  exists V e W g, Inv n V e W s /\ LogInv n V (gT g) s /\ SafeInv n V s /\ Agree n g V s.
Proof.
  intros Hn. revert s. apply (invariant_ind (calm_system n)
    (fun s => exists V e W g, Inv n V e W s /\ LogInv n V (gT g) s /\ SafeInv n V s /\ Agree n g V s)).
  - intros s0 ->. exists [], (fun _ => 0), (fun _ => []), no_ghost.
    split; [apply Inv_boot | split; [apply LogInv_boot | split; [by apply SafeInv_boot | apply Agree_boot]]].
  - intros s s' (V & e & W & g & HI & HL & HS & HA) (a & Ha & Ho & Hd & Hf).
    pose proof (steady_allowed _ _ Ha) as Hq.
    destruct (preserved_action n _ _ _ _ _ _ HI Hq Hd) as (V' & e' & W' & HV & Hnew & HI').
    destruct (logs_action n V V' e e' W W' (gT g) s s' HI HI' HV HL HS a Ha Hd) as (T' & _ & Hst & HL').
    pose proof (safe_action n V e W V' s a s' HI HS Hq Hd HV) as HS'.
    destruct (calm_action n V V' e e' W W' g s s' T' HI HI' HV Hnew HL HL' Hst HS HS' HA a Ha Ho Hf Hd) as (g' & <- & HA').
    by exists V', e', W', g'.
Qed.
End executions.
