(* ===== verification/RaftAgreement.v ===== *)
(** * What a calm cluster agrees on

    State machine safety, leader completeness and the absence of panics, in
    clusters that keep [AppendEntries] in order and elect fresh leaders. *)
From S2P Require Import Prelude Persister RaftServer RaftServerFacts RaftCluster RaftElection RaftMemory RaftSafe RaftLogs RaftOrder RaftAgree RaftAgreeInv RaftCalmPeer RaftCalm.

Local Open Scope Z_scope.

Section agreement.
Context {Cmd : Type} `{GoRuntime Cmd} (n : nat).
Implicit Types (rf : Raft Cmd) (s : cluster Cmd).

(** Calm clusters have steady environments, and as many peers as they start with. *)
Lemma calm_steady s : reachable (calm_system n) s -> reachable (cluster_system steady n) s.
Proof.
  intros (s0 & Hs0 & Hr). exists s0. split; [exact Hs0 | ]. eapply rtc_subrel; [ | exact Hr].
  intros s1 s2 (a & Ha & _ & Hd & _). by exists a.
Qed.

Lemma calm_quiet s : reachable (calm_system n) s -> reachable (cluster_system quiet n) s.
Proof.
  intros Hs. by apply steady_reachable, calm_steady.
Qed.

Lemma calm_size s i rf : reachable (calm_system n) s -> nodes s !! i = Some rf -> (0 < n)%nat.
Proof.
  intros (V & V' & e & W & _ & HI)%calm_quiet%reachable_Inv Hi. apply lookup_lt_Some in Hi.
  rewrite (inv_len _ _ _ _ _ HI) in Hi. lia.
Qed.

(** What a peer knows is committed is the start of a ledger of its time. *)
Lemma commit_ledger g V s i rf :
  Agree n g V s -> nodes s !! i = Some rf -> 0 < commitIdx rf ->
  exists w L, committed n (gT g) (gA g) w L /\ (Z.to_nat (commitIdx rf) < L)%nat /\ w <= currentTerm rf /\
    take (S (Z.to_nat (commitIdx rf))) (log rf) = take (S (Z.to_nat (commitIdx rf))) (gT g w) /\
    (Z.to_nat (commitIdx rf) < length (log rf))%nat.
Proof.
  intros HA Hi Hpos. pose proof (ag_node _ _ _ _ HA _ _ Hi) as Hna. pose proof (ag_ledgers _ _ _ _ HA) as Hok.
  destruct (na_commit _ _ _ _ _ Hna) as [ | (u & Hk & Hu & Hw)]; [lia | ]. destruct Hk as [ | (w & L & Hcm & HLt & Hwu)]; [lia | ].
  assert (Hut : u <= currentTerm rf).
  { destruct (decide (u <= currentTerm rf)); [done | ]. rewrite (na_future _ _ _ _ _ Hna) in Hu by lia. lia. }
  assert (El : log rf = take (gA g i u) (gT g u)).
  { eapply stored_unique; [apply (na_stored _ _ _ _ _ Hna) | left; exists u]. split_and!; [done | lia | | done]. intros z Hz. apply Hw. lia. }
  assert (Hp : take L (gT g w) `prefix_of` gT g u).
  { destruct (decide (w = u)) as [-> | Hne]; [apply prefix_take | ].
    assert (Hun : gT g u <> []) by (apply (accepted_nonempty n _ _ _ _ Hok i); lia).
    etrans; [apply (committed_stays n _ _ _ _ Hok w L Hcm u); [lia | exact Hun] | by apply (lo_shape _ _ _ _ _ Hok)]. }
  assert (HL : (L <= length (gT g w))%nat) by (destruct Hcm as [(q & z & -> & Hz & _) _]; apply lookup_lt_Some in Hz; lia).
  exists w, L. split_and!; [done | done | lia | | ].
  - rewrite El, take_take, Nat.min_l by lia. destruct Hp as [r Hr]. rewrite Hr at 1.
    rewrite take_app_le by (rewrite length_take; lia). by rewrite take_take, Nat.min_l by lia.
  - rewrite El, length_take. pose proof (lo_length _ _ _ _ _ Hok i u). lia.
Qed.

(** Two messages applied at an index carry one command. *)
Lemma chosen_unique g V s k c c' : Agree n g V s -> chosen n g k c -> chosen n g k c' -> c = c'.
Proof.
  intros HA (t & L & x & Hc & _ & HL & Hx & <-) (t' & L' & x' & Hc' & _ & HL' & Hx' & <-).
  assert (E : take (S (Z.to_nat k)) (gT g t) = take (S (Z.to_nat k)) (gT g t'))
    by (eapply committed_agree; [apply HA | exact Hc | exact Hc' | lia | lia]).
  assert (Hl : take (S (Z.to_nat k)) (gT g t) !! Z.to_nat k = take (S (Z.to_nat k)) (gT g t') !! Z.to_nat k) by by rewrite E.
  rewrite !lookup_take_lt in Hl by lia. congruence.
Qed.

(** The shorter of two applied sequences is the start of the longer. *)
Lemma applied_prefix g V s i j rfi rfj :
  Agree n g V s -> nodes s !! i = Some rfi -> nodes s !! j = Some rfj -> (length (cApplyMsg rfi) <= length (cApplyMsg rfj))%nat ->
  cApplyMsg rfi `prefix_of` cApplyMsg rfj.
Proof.
  intros HA Hi Hj Hle. destruct (ag_node _ _ _ _ HA _ _ Hi) as [_ _ _ _ _ _ Hai [_ _ Hoi]].
  destruct (ag_node _ _ _ _ HA _ _ Hj) as [_ _ _ _ _ _ Haj [_ _ Hoj]].
  assert (E : cApplyMsg rfi = take (length (cApplyMsg rfi)) (cApplyMsg rfj)); [ | rewrite E; apply prefix_take].
  apply list_eq. intros k. destruct (decide (k < length (cApplyMsg rfi))%nat) as [Hk | Hk].
  2: { rewrite !lookup_ge_None_2; [done | rewrite length_take; lia | lia]. }
  rewrite lookup_take_lt by done. destruct (lookup_lt_is_Some_2 _ _ Hk) as [x Hx].
  destruct (lookup_lt_is_Some_2 (cApplyMsg rfj) k) as [y Hy]; [lia | ]. rewrite Hx, Hy. f_equal.
  destruct (Hoi _ _ Hx) as [Hvx Hix], (Hoj _ _ Hy) as [Hvy Hiy].
  apply list_elem_of_lookup_2 in Hx, Hy. apply Hai in Hx. apply Haj in Hy. rewrite Hix in Hx. rewrite Hiy in Hy.
  pose proof (chosen_unique _ _ _ _ _ _ HA Hx Hy). destruct x, y; simpl in *; congruence.
Qed.
End agreement.

(** ** State machine safety *)

(** C3: state machine safety.  In every execution without restarts, with prompt
    election goroutines, in which each goroutine that sends entries copies them in
    the term they were cut in, with the [AppendEntries] of a leader to a peer sent and
    received in the order they were prepared in, and in which every newly elected
    peer has an empty [matchIdx], whatever else the network loses, delays or
    reorders: of the sequences of messages that two peers have sent on their
    apply channels, one is a prefix of the other. *)
Theorem state_machine_safety {Cmd} `{GoRuntime Cmd} (n : nat) (s : cluster Cmd) (i j : nat) rfi rfj :
  reachable (calm_system n) s -> nodes s !! i = Some rfi -> nodes s !! j = Some rfj ->
  cApplyMsg rfi `prefix_of` cApplyMsg rfj \/ cApplyMsg rfj `prefix_of` cApplyMsg rfi.
Proof.
  intros Hs Hi Hj. destruct (reachable_calm n s) as (V & e & W & g & _ & _ & _ & HA); [by eapply calm_size | done | ].
  destruct (decide (length (cApplyMsg rfi) <= length (cApplyMsg rfj))%nat); [left | right]; eapply applied_prefix; done || lia.
Qed.

(** C4: leader completeness.  In a calm cluster (the executions of state machine
    safety), what a peer knows to be committed
    is in the log of every leader of its term or a later one. *)
Theorem leader_completeness {Cmd} `{GoRuntime Cmd} (n : nat) (s : cluster Cmd) (i j : nat) rf leader :
  reachable (calm_system n) s -> nodes s !! i = Some rf -> nodes s !! j = Some leader ->
  state leader = LEADER -> currentTerm rf <= currentTerm leader ->
  take (S (Z.to_nat (commitIdx rf))) (log rf) `prefix_of` log leader /\ commitIdx rf < len (log rf).
Proof.
  intros Hs Hi Hj Hl Ht. destruct (reachable_calm n s) as (V & e & W & g & HI & HL & HS & HA); [by eapply calm_size | done | ].
  rewrite (leader_ledger n V e W (gT g) s j leader) by done.
  assert (Hne : gT g (currentTerm leader) <> []) by (by eapply li_leader).
  pose proof (log_wf_len _ (wf_log _ (po_wf _ (si_node _ _ _ HS _ _ Hi)))) as Hlen.
  destruct (decide (0 < commitIdx rf)) as [Hpos | Hpos].
  - destruct (commit_ledger n g V s i rf HA Hi Hpos) as (w & L & Hcm & HLt & Hw & E & Hlt). split; [ | unfold len; lia]. rewrite E.
    destruct (decide (w = currentTerm leader)) as [-> | Hne']; [apply prefix_take | ]. pose proof (ag_ledgers _ _ _ _ HA) as Hok.
    etrans; [apply (take_prefix _ _ L); lia | ].
    etrans; [apply (committed_stays n _ _ _ _ Hok w L Hcm (currentTerm leader)); [lia | done] | by apply (lo_shape _ _ _ _ _ Hok)].
  - split; [ | lia]. replace (Z.to_nat (commitIdx rf)) with 0%nat by lia.
    pose proof (b_base _ _ (li_node _ _ _ _ HL _ _ Hi)) as Hb.
    pose proof (b_base _ _ (proj1 (li_ledger _ _ _ _ HL _ Hne))) as Hb'.
    destruct (log rf), (gT g (currentTerm leader)); simplify_eq/=. rewrite take_0. by apply prefix_cons, prefix_nil.
Qed.

(** C15: in a calm cluster (the executions of state machine safety) no critical section of a peer panics: the goroutine that
    applies entries finds every entry up to [commitIdx] in the log. *)
Theorem calm_never_panics {Cmd} `{GoRuntime Cmd} (n : nat) (s : cluster Cmd) (a : action Cmd) :
  (0 < n)%nat -> reachable (calm_system n) s -> in_cluster n a -> allowed quiet a s = true -> do_action a s <> Panic.
Proof.
  intros Hn Hs Hin Ha Hp. destruct (reachable_calm n s Hn Hs) as (V & e & W & g & HI & HL & HS & HA).
  pose proof (step_safe n V e W s HI HS a Hin Ha) as Hst. rewrite Hp in Hst. destruct Hst as (i & rf & _ & Hi & Hle).
  pose proof (log_wf_len _ (wf_log _ (po_wf _ (si_node _ _ _ HS _ _ Hi)))) as Hlen.
  destruct (commit_ledger n g V s i rf HA Hi) as (w & L & _ & _ & _ & _ & Hlt); [lia | unfold len in *; lia].
Qed.

(** ** A run *)
Section runs.
#[local] Instance all_registered'' : GoRuntime nat := {| registered := fun _ => true; newcap := fun cap _ => (2 * cap)%nat |}.

(** Peer 0 of 3 leads term 1 and commits two commands with peer 1, which hears of
    the first commit only. *)
Definition calm_run : list (order nat) :=
  campaign 0 [1; 2]%nat ++
  [Do (ClientStart 0 (Some 7%nat)); Do (Tick 0 WonElection)] ++ broadcast 0 ++ replicate_to 0 1 ++ lost 0 2 ++
  [Do (ClientStart 0 (Some 8%nat)); Do (Tick 0 Timeout)] ++ broadcast 0 ++ replicate_to 0 1 ++ lost 0 2.
(** Both apply what they know; then peer 1 leads term 2. *)
Definition applied_run : list (order nat) := calm_run ++ [Do (Apply 0); Do (Apply 0); Do (Apply 1)] ++ campaign 1 [2]%nat.

Lemma state_machine_safety_witness :
  exists s rf0 rf1, run_orders steady true applied_run (boot 3) = Ok s /\ nodes s !! 0%nat = Some rf0 /\ nodes s !! 1%nat = Some rf1 /\
    cApplyMsg rf0 = [MkApplyMsg true (Some 7%nat) 1; MkApplyMsg true (Some 8%nat) 2] /\
    cApplyMsg rf1 = [MkApplyMsg true (Some 7%nat) 1] /\
    (cApplyMsg rf0 `prefix_of` cApplyMsg rf1 \/ cApplyMsg rf1 `prefix_of` cApplyMsg rf0).
Proof.
  destruct (run_orders steady true applied_run (boot 3)) as [s | | ] eqn:E; [ | vm_compute in E; discriminate E..].
  assert (Hr : reachable (calm_system 3) s) by (by eapply run_orders_calm).
  assert (Hn : exists rf0 rf1, nodes s !! 0%nat = Some rf0 /\ nodes s !! 1%nat = Some rf1 /\
    cApplyMsg rf0 = [MkApplyMsg true (Some 7%nat) 1; MkApplyMsg true (Some 8%nat) 2] /\ cApplyMsg rf1 = [MkApplyMsg true (Some 7%nat) 1]).
  { vm_compute in E. injection E as <-. do 2 eexists. repeat (split; [reflexivity | ]). reflexivity. }
  destruct Hn as (rf0 & rf1 & H0 & H1 & Ha & Hb). exists s, rf0, rf1. repeat (split; [assumption || reflexivity | ]).
  apply (state_machine_safety 3 s 0 1 rf0 rf1); assumption.
Defined.

Lemma leader_completeness_witness :
  exists s rf leader, run_orders steady true applied_run (boot 3) = Ok s /\ nodes s !! 0%nat = Some rf /\ nodes s !! 1%nat = Some leader /\
    commitIdx rf = 2 /\ currentTerm rf = 1 /\ state leader = LEADER /\ currentTerm leader = 2 /\
    take 3 (log rf) `prefix_of` log leader.
Proof.
  destruct (run_orders steady true applied_run (boot 3)) as [s | | ] eqn:E; [ | vm_compute in E; discriminate E..].
  assert (Hr : reachable (calm_system 3) s) by (by eapply run_orders_calm).
  assert (Hn : exists rf leader, nodes s !! 0%nat = Some rf /\ nodes s !! 1%nat = Some leader /\
    commitIdx rf = 2 /\ currentTerm rf = 1 /\ state leader = LEADER /\ currentTerm leader = 2).
  { vm_compute in E. injection E as <-. do 2 eexists. repeat (split; [reflexivity | ]). reflexivity. }
  destruct Hn as (rf & leader & H0 & H1 & Hc & Ht & Hl & Ht'). exists s, rf, leader.
  repeat (split; [assumption || reflexivity | ]). replace 3%nat with (S (Z.to_nat (commitIdx rf))) by (rewrite Hc; reflexivity).
  apply (leader_completeness 3 s 0 1 rf leader); [exact Hr | assumption.. | rewrite Ht, Ht'; lia].
Defined.

Lemma calm_never_panics_witness :
  exists s, run_orders steady true calm_run (boot 3) = Ok s /\ (exists s', do_action (Apply 1) s = Ok s') /\ do_action (Apply 1) s <> Panic.
Proof.
  destruct (run_orders steady true calm_run (boot 3)) as [s | | ] eqn:E; [ | vm_compute in E; discriminate E..].
  exists s. split; [reflexivity | ]. split; [vm_compute in E; injection E as <-; vm_compute; eexists; reflexivity | ].
  apply (calm_never_panics 3 s (Apply 1)); [lia | by eapply run_orders_calm | simpl; lia | reflexivity].
Defined.
End runs.
