(* ===== verification/RaftLive.v ===== *)
(** * Elections succeed when the network lets them

    From every reachable state of a cluster without restarts, of two peers or
    more, whose notification channels have room, some schedule elects a leader of
    a term no peer is beyond. *)
From S2P Require Import Prelude Persister RaftServer RaftServerFacts RaftCluster RaftElection RaftMemory RaftSafe RaftLogs RaftAgree RaftCalm.

Local Open Scope Z_scope.

(** ** The functions of a peer *)
Section peer.
Context {Cmd : Type} `{GoRuntime Cmd}.
Implicit Types rf : Raft Cmd.

(** No function but the ticker's receives from [cWinElection], and none kills the
    peer. *)
Definition kept rf rf' : Prop := dead rf' = dead rf /\ cWinElection rf <= cWinElection rf'.

Lemma kept_refl rf : kept rf rf.
Proof. done. Qed.

Lemma kept_trans rf1 rf2 rf3 : kept rf1 rf2 -> kept rf2 rf3 -> kept rf1 rf3.
Proof. unfold kept. intros [] []. split; [congruence | lia]. Qed.

Lemma kept_persist rf : kept rf (persist rf).
Proof. destruct (persist_set rf) as [q ->]. by split. Qed.

Lemma kept_step_down t rf : kept rf (step_down t rf).
Proof. unfold step_down. branch; by split. Qed.

Lemma kept_heartbeat rf rf' : notify_heartbeat rf = Ok rf' -> kept rf rf'.
Proof. unfold notify_heartbeat. branch; intros [= <-]. by split. Qed.

Lemma kept_win rf rf' : notify_win rf = Ok rf' -> kept rf rf'.
Proof. unfold notify_win. branch; intros [= <-]. split; simpl; [done | lia]. Qed.

Lemma kept_RequestVote rf args r0 rf' reply : RequestVote rf args r0 = Ok (rf', reply) -> kept rf rf'.
Proof.
  unfold RequestVote. intros E. branch; [simplify_eq; apply kept_refl | ]. inv_bind. branch; inv_bind; simplify_eq; [ | apply kept_step_down].
  eapply kept_trans; [apply (kept_step_down (rv_Term args)) | ]. by match goal with Hh : notify_heartbeat _ = _ |- _ => apply kept_heartbeat in Hh end.
Qed.

Lemma kept_sendRequestVote rf args ok reply rf' : sendRequestVote rf args ok reply = Ok rf' -> kept rf rf'.
Proof.
  unfold sendRequestVote. intros E. repeat (branch; [by simplify_eq | ]).
  branch; [ | by simplify_eq]. branch; [ | by simplify_eq]. inv_bind. apply kept_win in E.
  eapply kept_trans; [ | exact E]. exact (kept_persist (set_numVotesReceived (numVotesReceived rf + 1) rf)).
Qed.

Lemma kept_append_current rf a r0 lst base rf' reply : append_current rf a r0 lst base = Ok (rf', reply) -> kept rf rf'.
Proof.
  unfold append_current. intros E. branch; [simplify_eq; apply kept_refl | ]. inv_bind. destruct x as [term | ].
  - inv_bind. destruct x; simplify_eq; [apply kept_refl | apply kept_persist].
  - branch; [ | simplify_eq; apply kept_persist]. inv_bind. branch; inv_bind; simplify_eq.
    + exact (kept_persist (commit_to (Z.min (ae_LeaderCommit a) (le_Index x0)) (append_log (ae_Entries a) (cut_log x rf)))).
    + exact (kept_persist (append_log (ae_Entries a) (cut_log x rf))).
Qed.

Lemma kept_AppendEntries rf a r0 rf' reply : AppendEntries rf a r0 = Ok (rf', reply) -> kept rf rf'.
Proof.
  unfold AppendEntries. intros E. inv_bind. branch; [simplify_eq; apply kept_refl | ]. inv_bind. apply kept_append_current in E.
  eapply kept_trans; [apply (kept_step_down (ae_Term a)) | ]. eapply kept_trans; [by eapply kept_heartbeat | exact E].
Qed.

Lemma kept_advance_commit k base rf rf' : advance_commit k base rf = Ok rf' -> kept rf rf'.
Proof.
  induction k as [ | k IH]; simpl; intros E; [simplify_eq; apply kept_refl | ]. inv_bind. branch; [ | simplify_eq; apply kept_refl]. inv_bind.
  branch; [simplify_eq; by split | auto].
Qed.

Lemma kept_sendAppendEntries rf server a ok reply rf' : sendAppendEntries rf server a ok reply = Ok rf' -> kept rf rf'.
Proof.
  unfold sendAppendEntries. intros E. inv_bind. branch; [simplify_eq; apply kept_refl | ].
  branch; [simplify_eq; exact (kept_persist (set_state FOLLOWER (set_currentTerm (aer_Term reply) (set_votedFor (-1) rf)))) | ]. inv_bind.
  apply kept_advance_commit in E. eapply kept_trans; [ | exact E]. repeat branch; inv_bind; simplify_eq; by split.
Qed.

Lemma kept_Start rf command rf' res : Start rf command = Ok (rf', res) -> kept rf rf'.
Proof.
  unfold Start. intros E. branch; inv_bind; simplify_eq; [ | apply kept_refl].
  exact (kept_persist (append_log [MkLogElement (currentTerm rf) command (le_Index x + 1)] rf)).
Qed.

Lemma kept_applyCommitted m rf rf' : applyCommitted rf = Ok rf' -> kept rf (set_appliers m rf').
Proof. unfold applyCommitted. intros E. inv_bind. simplify_eq. by split. Qed.

(** A peer that lives, with a counter of its channel that makes sense. *)
Definition sane rf : Prop := dead rf = 0 /\ 0 <= cWinElection rf.

Lemma kept_sane rf rf' : kept rf rf' -> sane rf -> sane rf'.
Proof. unfold kept, sane. lia. Qed.

Lemma ticker_alive rf pc ev rf' pc' gr :
  ticker rf pc ev = Ok (rf', pc', gr) -> sane rf -> pc <> TickExit -> sane rf' /\ pc' <> TickExit.
Proof.
  assert (Hp : forall r, sane r -> sane (persist r)) by (intros r; apply kept_sane, kept_persist).
  unfold ticker, killed, start_election. intros E [Hd Hw] Hpc.
  destruct pc, ev; repeat (branch || case_match); simplify_eq; zbool; try lia; (split; [ | done]); try apply Hp; split; simpl; done || lia.
Qed.
End peer.

Section cluster.
Context {Cmd : Type} `{GoRuntime Cmd} (n : nat).
Implicit Types (rf : Raft Cmd) (s : cluster Cmd).

(** Every peer lives, and so does its ticker. *)
Definition alive s : Prop := Forall sane (nodes s) /\ Forall (fun pc => pc <> TickExit) (tickers s).

Lemma alive_node s i rf rf' ps : alive s -> nodes s !! i = Some rf -> kept rf rf' -> alive (Cluster (<[i := rf']> (nodes s)) (tickers s) ps).
Proof. intros [Hn Hp] Hi Hk. split; [ | done]. apply Forall_insert; [done | ]. eapply kept_sane; [exact Hk | ]. by eapply Forall_lookup_1 in Hn. Qed.

Lemma alive_action s a s' : allowed quiet a s = true -> do_action a s = Ok s' -> alive s -> alive s'.
Proof.
  intros Ha E Hal. pose proof Hal as [Hn Hp].
  destruct a as [i ev | k | k | i command | i | i]; cbn [do_action] in E; [ | | | | | done].
  - inv_bind. destruct x1 as [[rf' pc'] gr]. simplify_eq. apply node_Ok in H0. apply index_Ok in H1 as [_ H1].
    destruct (ticker_alive _ _ _ _ _ _ H2) as [Hd Hpc]; [by eapply (Forall_lookup_1 _ _ _ _ Hn) | by eapply (Forall_lookup_1 _ _ _ _ Hp) | ].
    split; by apply Forall_insert.
  - destruct (net s !! k) as [p | ]; [ | done]. destruct p; simpl in E; inv_bind; try done;
      try (apply node_Ok in H0; simpl in H0); try (destruct x0 as [rf' reply']); simplify_eq; try done; (eapply (alive_node s); [done | exact H0 | ]).
    + by eapply kept_RequestVote.
    + by eapply kept_sendRequestVote.
    + by eapply kept_AppendEntries.
    + by eapply kept_sendAppendEntries.
  - destruct (net s !! k) as [p | ]; [ | done]. destruct p; simpl in E; inv_bind; try done; apply node_Ok in H0; simpl in H0; simplify_eq;
      (eapply (alive_node s); [done | exact H0 | ]); first [apply kept_refl | by eapply kept_sendAppendEntries].
  - inv_bind. destruct x0 as [rf' res]. simplify_eq. apply node_Ok in H0. eapply (alive_node s); [done | exact H0 | by eapply kept_Start].
  - inv_bind. apply node_Ok in H0. destruct (appliers x) as [ | m]; inv_bind. simplify_eq.
    eapply (alive_node s); [done | exact H0 | by apply kept_applyCommitted].
Qed.

Lemma reachable_alive s : reachable (cluster_system quiet n) s -> alive s.
Proof.
  revert s. apply (invariant_ind (cluster_system quiet n) alive).
  - intros s0 ->. split.
    + apply Forall_forall. intros rf (i & -> & _)%list_elem_of_fmap. by unfold Make.
    + apply Forall_replicate. done.
  - intros s s' Hal (a & Ha & Hd). by eapply alive_action.
Qed.

(** What is known of a reachable state. *)
Record live s : Prop := {
  lv_reach : reachable (cluster_system quiet n) s;
  lv_wf : forall i rf, nodes s !! i = Some rf -> raft_wf rf /\ me rf = Z.of_nat i /\ peers rf = Z.of_nat n /\ sane rf;
  lv_nodes : length (nodes s) = n;
  lv_tickers : length (tickers s) = n;
  lv_alive : Forall (fun pc => pc <> TickExit) (tickers s)
}.

Lemma reachable_live s : (0 < n)%nat -> reachable (cluster_system quiet n) s -> live s.
Proof.
  intros Hn Hs. destruct (reachable_safe n s Hn Hs) as (V & e & W & HI & HS). destruct (reachable_alive s Hs) as [Hd Hp].
  split; [done | | apply (inv_len _ _ _ _ _ HI) | apply HS | done].
  intros i rf Hi. destruct (inv_node _ _ _ _ _ HI i rf Hi). split_and!; try done; [by eapply po_wf, si_node | ].
  by eapply Forall_lookup_1 in Hd.
Qed.
End cluster.

(** ** Campaigns *)
Section campaign.
Context {Cmd : Type} `{GoRuntime Cmd} (n : nat).
Implicit Types (rf : Raft Cmd) (s : cluster Cmd).

(** Schedules in which copies are prompt as well. *)
Definition runs : cluster Cmd -> cluster Cmd -> Prop := rtc (lts_step (cluster_system steady n)).

Lemma run_action a s s' : allowed steady a s = true -> do_action a s = Ok s' -> runs s s'.
Proof. intros Ha Hd. apply rtc_once. by exists a. Qed.

Lemma runs_live s s' : (0 < n)%nat -> live n s -> runs s s' -> live n s'.
Proof.
  intros Hn Hl Hr. apply reachable_live; [done | ]. destruct (lv_reach _ _ Hl) as (s0 & H0 & Hs).
  exists s0. split; [done | ]. etrans; [exact Hs | by apply steady_quiet].
Qed.

Lemma node_Some s i rf : nodes s !! i = Some rf -> node s i = Ok rf.
Proof. intros Hi. apply index_Ok. rewrite Nat2Z.id. split; [lia | done]. Qed.

(** The cluster with peer [i] and its ticker as given. *)
Definition at_peer (i : nat) rf (pc : ticker_pc) (ns : list (Raft Cmd)) (ts : list ticker_pc) (ps : list (packet Cmd)) : cluster Cmd :=
  Cluster (<[i := rf]> ns) (<[i := pc]> ts) ps.

Lemma at_peer_self s i rf pc : nodes s !! i = Some rf -> tickers s !! i = Some pc -> s = at_peer i rf pc (nodes s) (tickers s) (net s).
Proof. intros Hn Ht. unfold at_peer. rewrite !list_insert_id by done. by destruct s. Qed.

(** What a campaign does not touch. *)
Record same_peer rf rf' : Prop := SamePeer {
  sp_log : log rf' = log rf;
  sp_win : cWinElection rf' = cWinElection rf;
  sp_heartbeat : cHeartbeat rf' = cHeartbeat rf;
  sp_dead : dead rf' = dead rf;
  sp_commit : commitIdx rf' = commitIdx rf;
  sp_last : appliedLast rf' = appliedLast rf
}.

Lemma same_peer_trans rf1 rf2 rf3 : same_peer rf1 rf2 -> same_peer rf2 rf3 -> same_peer rf1 rf3.
Proof. intros [] []. split; congruence. Qed.

Lemma same_persist rf : same_peer rf (persist rf) /\ state (persist rf) = state rf /\ currentTerm (persist rf) = currentTerm rf.
Proof. destruct (persist_set rf) as [q ->]. done. Qed.

Definition campaigning rf rf' : Prop :=
  same_peer rf rf' /\ state rf' = CANDIDATE /\ currentTerm rf < currentTerm rf' /\ numVotesReceived rf' = 1.

Lemma campaigning_after rf rf1 rf' :
  same_peer rf rf1 -> currentTerm rf1 = currentTerm rf -> campaigning rf1 rf' -> campaigning rf rf'.
Proof. intros Hs Ht (Hs' & ? & ? & ?). split_and!; [by eapply same_peer_trans | done | lia | done]. Qed.

Section ticks.
Context (i : nat) (ns : list (Raft Cmd)) (ts : list ticker_pc).
Hypothesis Hns : (i < length ns)%nat.
Hypothesis Hts : (i < length ts)%nat.

Lemma tick_run rf pc ev rf' pc' gr ps :
  ticker rf pc ev = Ok (rf', pc', gr) ->
  runs (at_peer i rf pc ns ts ps) (at_peer i rf' pc' ns ts (ps ++ spawned i (currentTerm rf') gr)).
Proof.
  intros E. apply (run_action (Tick i ev)); [done | ]. simpl.
  replace (node (at_peer i rf pc ns ts ps) i) with (Ok rf).
  2: { symmetry. apply index_Ok. rewrite Nat2Z.id. split; [lia | ]. by apply list_lookup_insert_eq. }
  replace (index (<[i:=pc]> ts) (Z.of_nat i)) with (Ok pc).
  2: { symmetry. apply index_Ok. rewrite Nat2Z.id. split; [lia | ]. by apply list_lookup_insert_eq. }
  rewrite !bind_Ok, E, bind_Ok. unfold at_peer, send, set_ticker, set_node, set_net. simpl. by rewrite !list_insert_insert_eq.
Qed.

Lemma election_tick rf ps :
  state rf = CANDIDATE -> dead rf = 0 ->
  exists rf', campaigning rf rf' /\ currentTerm rf' = currentTerm rf + 1 /\
    runs (at_peer i rf TickTop ns ts ps) (at_peer i rf' TickCandidate ns ts (ps ++ [VoteGo i (currentTerm rf')])).
Proof.
  intros Hs Hd. exists (start_election rf). unfold start_election.
  destruct (persist_set (set_numVotesReceived 1 (set_votedFor (me rf) (set_currentTerm (currentTerm rf + 1) rf)))) as [q Eq].
  split; [ | split].
  - rewrite Eq. split_and!; try done. simpl. lia.
  - by rewrite Eq.
  - eapply (tick_run rf TickTop Timeout _ TickCandidate SpawnElection). unfold ticker, killed, start_election. by rewrite Hd, Hs.
Qed.

Lemma campaign_follower rf ps :
  dead rf = 0 -> exists rf', campaigning rf rf' /\ currentTerm rf' = currentTerm rf + 1 /\
    runs (at_peer i rf TickFollower ns ts ps) (at_peer i rf' TickCandidate ns ts (ps ++ [VoteGo i (currentTerm rf')])).
Proof.
  intros Hd. set (rf1 := persist (set_state CANDIDATE rf)).
  assert (Hr : runs (at_peer i rf TickFollower ns ts ps) (at_peer i rf1 TickTop ns ts ps)).
  { rewrite <- (app_nil_r ps) at 2. by apply (tick_run rf TickFollower Timeout rf1 TickTop SpawnNothing). }
  assert (Hf : same_peer rf rf1 /\ state rf1 = CANDIDATE /\ currentTerm rf1 = currentTerm rf).
  { unfold rf1. destruct (persist_set (set_state CANDIDATE rf)) as [q ->]. done. }
  destruct Hf as (Hsp & Hs & Ht). destruct (election_tick rf1 ps) as (rf' & Hc & Ht' & Hr'); [done | by rewrite (sp_dead _ _ Hsp) | ].
  exists rf'. split; [by eapply campaigning_after | ]. split; [lia | by etrans].
Qed.

Lemma campaign_top rf ps :
  state rf <> LEADER -> dead rf = 0 -> exists rf', campaigning rf rf' /\ currentTerm rf' = currentTerm rf + 1 /\
    runs (at_peer i rf TickTop ns ts ps) (at_peer i rf' TickCandidate ns ts (ps ++ [VoteGo i (currentTerm rf')])).
Proof.
  intros Hl Hd. destruct (state rf) eqn:Es; [ | by apply election_tick | done].
  destruct (campaign_follower rf ps Hd) as (rf' & Hc & Ht & Hr). exists rf'. split; [done | ]. split; [done | ].
  etrans; [ | exact Hr]. rewrite <- (app_nil_r ps) at 2.
  apply (tick_run rf TickTop Timeout rf TickFollower SpawnNothing). unfold ticker, killed. by rewrite Hd, Es.
Qed.

(** A live peer that does not lead can start an election, wherever its ticker
    is. *)
Lemma campaign_once rf pc ps :
  state rf <> LEADER -> dead rf = 0 -> pc <> TickExit -> exists rf', campaigning rf rf' /\ currentTerm rf' = currentTerm rf + 1 /\
    runs (at_peer i rf pc ns ts ps) (at_peer i rf' TickCandidate ns ts (ps ++ [VoteGo i (currentTerm rf')])).
Proof.
  intros Hl Hd Hpc. destruct pc; [by apply campaign_top | by apply campaign_follower | | | done].
  - destruct (campaign_top (set_state FOLLOWER rf) ps) as (rf' & Hc & Ht & Hr); [done | done | ]. exists rf'. split; [by apply (campaigning_after rf (set_state FOLLOWER rf)) | ].
    split; [done | ]. etrans; [ | exact Hr]. rewrite <- (app_nil_r ps) at 2.
    by apply (tick_run rf TickCandidate Timeout _ TickTop SpawnNothing).
  - destruct (same_persist rf) as (Hsp & Hs & Ht).
    destruct (campaign_top (persist rf) ps) as (rf' & Hc & Ht' & Hr'); [congruence | by rewrite (sp_dead _ _ Hsp) | ].
    exists rf'. split; [by eapply campaigning_after | ]. split; [lia | ]. etrans; [ | exact Hr']. rewrite <- (app_nil_r ps) at 2.
    by apply (tick_run rf TickLeader Timeout _ TickTop SpawnNothing).
Qed.

(** And again, until its term is as high as it takes. *)
Lemma campaign_beyond rf pc ps m :
  state rf <> LEADER -> dead rf = 0 -> pc <> TickExit -> exists rf' qs, campaigning rf rf' /\ m < currentTerm rf' /\
    runs (at_peer i rf pc ns ts ps) (at_peer i rf' TickCandidate ns ts (ps ++ qs ++ [VoteGo i (currentTerm rf')])).
Proof.
  remember (Z.to_nat (m - currentTerm rf)) as d eqn:Hdm. revert rf pc ps Hdm.
  induction d as [ | d IH]; intros rf pc ps Hdm Hl Hd Hpc;
    destruct (campaign_once rf pc ps Hl Hd Hpc) as (rf1 & Hc1 & Ht1 & Hr1).
  - exists rf1, []. split; [done | ]. split; [lia | done].
  - pose proof Hc1 as (Hsp & Hs & Ht & _).
    destruct (IH rf1 TickCandidate (ps ++ [VoteGo i (currentTerm rf1)])) as (rf2 & qs & (Hsp' & Ks & Kt & Kn) & Hm & Hr2);
      [lia | congruence | by rewrite (sp_dead _ _ Hsp) | done | ].
    exists rf2, (VoteGo i (currentTerm rf1) :: qs). split; [split_and!; [by eapply same_peer_trans | done | lia | done] | ]. split; [done | ].
    etrans; [exact Hr1 | ]. rewrite <- app_assoc in Hr2. exact Hr2.
Qed.
End ticks.

(** ** Votes *)

(** A peer of an earlier term, with room for a heartbeat and a log no fresher than
    the candidate's, grants its vote. *)
Definition would_vote (args : RequestVoteArgs) rf : Prop :=
  currentTerm rf < rv_Term args /\ cHeartbeat rf < chan_cap /\
  exists x, last_entry rf = Ok x /\
    (le_Term x < rv_LastLogTerm args \/ (rv_LastLogTerm args = le_Term x /\ le_Index x <= rv_LastLogIdx args)).

Lemma RequestVote_grants rf args r0 :
  would_vote args rf ->
  exists rf', RequestVote rf args r0 = Ok (rf', MkRequestVoteReply (rv_Term args) true) /\ currentTerm rf' = rv_Term args /\ state rf' = FOLLOWER.
Proof.
  intros (Ht & Hh & x & Hx & Hup). unfold RequestVote.
  replace (rv_Term args <? currentTerm rf) with false by (symmetry; apply Z.ltb_ge; lia).
  unfold last_entry in *. rewrite step_down_log, Hx, bind_Ok. unfold step_down.
  replace (currentTerm rf <? rv_Term args) with true by (symmetry; by apply Z.ltb_lt). simpl.
  replace (_ || _) with true.
  2: { symmetry. apply orb_true_iff. destruct Hup as [ | [-> Hle]]; [left; by apply Z.ltb_lt | right].
       by rewrite Z.eqb_refl, (proj2 (Z.leb_le _ _) Hle). }
  rewrite andb_true_l, notify_heartbeat_Ok by done. simpl. by eexists.
Qed.

(** A leader of an earlier term steps down, whether it grants its vote or not. *)
Lemma RequestVote_deposes rf args r0 :
  raft_wf rf -> currentTerm rf < rv_Term args -> cHeartbeat rf < chan_cap ->
  exists rf' reply, RequestVote rf args r0 = Ok (rf', reply) /\ state rf' = FOLLOWER /\ log rf' = log rf /\
    cWinElection rf' = cWinElection rf /\ commitIdx rf' = commitIdx rf /\ appliedLast rf' = appliedLast rf.
Proof.
  intros Hwf Ht Hh. destruct (last_entry_wf rf (wf_log _ Hwf)) as (x & Hx & _). unfold RequestVote.
  replace (rv_Term args <? currentTerm rf) with false by (symmetry; apply Z.ltb_ge; lia).
  unfold last_entry in *. rewrite step_down_log, Hx, bind_Ok. unfold step_down.
  replace (currentTerm rf <? rv_Term args) with true by (symmetry; by apply Z.ltb_lt). simpl.
  branch; [rewrite notify_heartbeat_Ok by done; simpl | ]; do 2 eexists; split_and!; done.
Qed.

(** A peer as it won an election with the log, the commit index and the entries
    applied of [rf0]. *)
Record elected_as rf0 rf : Prop := {
  ea_state : state rf = LEADER;
  ea_log : log rf = log rf0;
  ea_commit : commitIdx rf = commitIdx rf0;
  ea_last : appliedLast rf = appliedLast rf0;
  ea_next : nextIdx rf = replicate n (len (log rf0));
  ea_win : 0 < cWinElection rf
}.

(** Counting a granted vote: the candidate wins or goes on counting. *)
Lemma sendRequestVote_counts rf args :
  raft_wf rf -> peers rf = Z.of_nat n -> state rf = CANDIDATE -> currentTerm rf = rv_Term args -> 0 <= cWinElection rf < chan_cap ->
  exists rf', sendRequestVote rf args true (MkRequestVoteReply (rv_Term args) true) = Ok rf' /\ currentTerm rf' = currentTerm rf /\
    (elected_as rf rf' \/
     (state rf' = CANDIDATE /\ same_peer rf rf' /\ numVotesReceived rf' = numVotesReceived rf + 1 /\ 2 * numVotesReceived rf' <= Z.of_nat n)).
Proof.
  intros Hwf Hp Hs Ht Hw. unfold sendRequestVote. simpl. rewrite Ht, Z.eqb_refl, Hs. simpl.
  rewrite Z.ltb_irrefl. branch.
  - set (rf1 := set_numVotesReceived (numVotesReceived rf + 1) rf).
    assert (Hwf1 : raft_wf (persist rf1)) by (apply wf_persist; by destruct Hwf).
    destruct (last_entry_wf _ (wf_log _ Hwf1)) as (x & -> & _ & Hx). rewrite bind_Ok.
    destruct (persist_set rf1) as [q Eq]. rewrite Eq in *. unfold rf1 in *. simpl in *.
    rewrite fill_nextIdx_full by apply Hwf. rewrite bind_Ok. unfold notify_win. simpl.
    replace (cWinElection rf <? chan_cap) with true by (symmetry; apply Z.ltb_lt; lia).
    eexists. split; [done | ]. split; [done | left]. split; simpl; try done; [ | lia]. rewrite Hp, Nat2Z.id, Hx. f_equal. lia.
  - eexists. split; [done | ]. split; [done | right]. simpl. split_and!; try done.
    match goal with Hq : _ <= Z.quot _ _ |- _ => rewrite Z.quot_div_nonneg in Hq by lia; pose proof (Z.mul_div_le (peers rf) 2); lia end.
Qed.

(** ** Polls *)
Section poll.
Context (i : nat) (rf0 : Raft Cmd) (args : RequestVoteArgs).
Hypothesis Hn : (0 < n)%nat.

(** The candidate counts on the votes of [js], whose requests are on their way;
    the others follow it. *)
Record polling (js : list nat) s : Prop := {
  pl_live : live n s;
  pl_ticker : tickers s !! i = Some TickCandidate;
  pl_candidate : exists rf, nodes s !! i = Some rf /\ currentTerm rf = rv_Term args /\
    (elected_as rf0 rf \/ (state rf = CANDIDATE /\ same_peer rf0 rf /\ cWinElection rf < chan_cap /\
       numVotesReceived rf + len js = Z.of_nat n /\ 2 * numVotesReceived rf <= Z.of_nat n));
  pl_once : NoDup js;
  pl_voters : forall j, j ∈ js -> j <> i /\ VoteRequest i j args ∈ net s /\ exists rf, nodes s !! j = Some rf /\ would_vote args rf;
  pl_followers : forall j rf, j <> i -> j ∉ js -> nodes s !! j = Some rf -> state rf = FOLLOWER /\ currentTerm rf = rv_Term args
}.

Lemma elem_of_delete_other {A} (l : list A) k x y : l !! k = Some y -> x <> y -> x ∈ l -> x ∈ delete k l.
Proof.
  intros Hk Hxy Hx. rewrite <- (take_drop_middle _ _ _ Hk) in Hx. rewrite delete_take_drop.
  rewrite elem_of_app, elem_of_cons in *. tauto.
Qed.

Lemma delivered_last s p ps : net s = ps ++ [p] -> net s !! length ps = Some p /\ delete (length ps) (net s) = ps.
Proof. intros ->. split; [by rewrite lookup_app_r, Nat.sub_diag | ]. by rewrite delete_middle, app_nil_r. Qed.

(** The request of [j] and its answer are delivered. *)
Lemma poll_one j js s : polling (j :: js) s -> exists s', runs s s' /\ polling js s'.
Proof.
  intros [Hl Htk (rf & Hi & Ht & Hst) [Hnin Hnd]%NoDup_cons Hv Hf].
  destruct (Hv j) as (Hji & Hreq & rj & Hj & Hw); [by left | ]. apply list_elem_of_lookup_1 in Hreq as (k & Hk).
  destruct (RequestVote_grants rj args (MkRequestVoteReply 0 false) Hw) as (rj' & Er & Htj & Hsj).
  set (s1 := Cluster (<[j := rj']> (nodes s)) (tickers s) (delete k (net s) ++ [VoteReply i j args (MkRequestVoteReply (rv_Term args) true)])).
  assert (H1 : runs s s1).
  { apply (run_action (Deliver k)); unfold allowed, do_action; rewrite Hk; [done | ]. unfold run_packet.
    erewrite node_Some by exact Hj. rewrite bind_Ok, Er. done. }
  assert (Hi1 : nodes s1 !! i = Some rf) by (simpl; by rewrite list_lookup_insert_ne).
  destruct (delivered_last s1 _ _ eq_refl) as [Hlast Hdel].
  assert (Hc : exists rf', sendRequestVote rf args true (MkRequestVoteReply (rv_Term args) true) = Ok rf' /\ currentTerm rf' = rv_Term args /\
    (elected_as rf0 rf' \/ (state rf' = CANDIDATE /\ same_peer rf0 rf' /\ cWinElection rf' < chan_cap /\
       numVotesReceived rf' + len js = Z.of_nat n /\ 2 * numVotesReceived rf' <= Z.of_nat n))).
  { destruct (lv_wf _ _ Hl i rf Hi) as (Hwf & _ & Hp & _ & Hcw0). destruct Hst as [Hld | (Hcd & Hsp & Hcw & Hnum & Hlt)].
    - exists rf. split; [ | auto]. unfold sendRequestVote. simpl.
      by rewrite (ea_state _ _ Hld), (bool_decide_eq_true_2 (LEADER <> CANDIDATE) ltac:(done)), orb_true_r.
    - destruct (sendRequestVote_counts rf args Hwf Hp Hcd Ht ltac:(lia)) as (rf' & E & Et & Hor). exists rf'. split; [done | ].
      split; [congruence | ]. destruct Hsp as [E1 E2 E3 E4 E5 E6]. destruct Hor as [[] | (Hs' & [] & Hn' & Hle)]; [left; split; congruence | right].
      split; [done | ]. split; [split; congruence | ]. unfold len in *. simpl in Hnum. split_and!; lia. }
  destruct Hc as (rf' & Es & Et & Hor).
  set (s2 := Cluster (<[i := rf']> (nodes s1)) (tickers s1) (delete k (net s))).
  assert (H2 : runs s1 s2).
  { apply (run_action (Deliver (length (delete k (net s))))); unfold allowed, do_action; rewrite Hlast; [done | ]. unfold run_packet.
    erewrite node_Some by exact Hi1. rewrite bind_Ok, Es, bind_Ok, Hdel. done. }
  assert (Hr : runs s s2) by (by etrans). exists s2. split; [done | ]. split.
  - by eapply runs_live.
  - exact Htk.
  - exists rf'. split; [ | done]. simpl. apply list_lookup_insert_eq. eapply lookup_lt_Some. exact Hi1.
  - done.
  - intros q Hq. destruct (Hv q) as (Hqi & Hqr & rq & Hrq & Hwq); [by right | ]. assert (q <> j) by (by intros ->).
    split; [done | ]. split; [eapply elem_of_delete_other; [exact Hk | congruence | exact Hqr] | ].
    exists rq. split; [ | done]. simpl. by rewrite !list_lookup_insert_ne.
  - intros q rq Hqi Hqjs. simpl. rewrite list_lookup_insert_ne by done. intros [(_ & <- & _) | [Hqj Hq]]%list_lookup_insert_Some; [done | ].
    apply (Hf q rq); [done | | done]. by intros [-> | ?]%elem_of_cons.
Qed.

(** Once all have answered, the candidate leads and the others follow. *)
Definition took_over s : Prop :=
  live n s /\ tickers s !! i = Some TickCandidate /\
  (exists rf, nodes s !! i = Some rf /\ currentTerm rf = rv_Term args /\ elected_as rf0 rf) /\
  forall j rf, j <> i -> nodes s !! j = Some rf -> state rf = FOLLOWER /\ currentTerm rf = rv_Term args.

Lemma poll_all js s : polling js s -> exists s', runs s s' /\ took_over s'.
Proof.
  revert s. induction js as [ | j js IH]; intros s Hp.
  - destruct Hp as [Hl Htk (rf & Hi & Ht & Hst) _ _ Hf]. exists s. split; [apply rtc_refl | ]. split_and!; [done | done | | ].
    + exists rf. destruct Hst as [ | (_ & _ & _ & Hnum & Hle)]; [done | ]. unfold len in Hnum. simpl in Hnum. lia.
    + intros j rj Hj. apply Hf; [done | apply not_elem_of_nil].
  - destruct (poll_one j js s Hp) as (s1 & H1 & Hp1). destruct (IH s1 Hp1) as (s2 & H2 & Hs2). exists s2. split; [by etrans | done].
Qed.
End poll.

(** ** Elections *)
(** The other peers. *)
Definition others (i : nat) : list nat := filter (fun j => j <> i) (seq 0 n).

Lemma filter_out (l : list nat) x : NoDup l -> x ∈ l -> S (length (filter (fun j => j <> x) l)) = length l.
Proof.
  induction 1 as [ | y l Hy Hl IH]; intros Hx; [by apply elem_of_nil in Hx | ]. rewrite filter_cons. case_decide as Hd.
  - apply elem_of_cons in Hx as [-> | Hx]; [done | ]. simpl. f_equal. by apply IH.
  - assert (y = x) as -> by (destruct (decide (y = x)); [done | by destruct Hd]). simpl. f_equal.
    clear IH Hl Hd Hx. induction l as [ | z l IH]; [done | ]. apply not_elem_of_cons in Hy as [Hz Hy].
    rewrite filter_cons, decide_True by done. simpl. f_equal. by apply IH.
Qed.

Lemma others_length i : (i < n)%nat -> 1 + len (others i) = Z.of_nat n.
Proof.
  intros Hi. unfold others, len. pose proof (filter_out (seq 0 n) i (NoDup_seq _ _) ltac:(apply elem_of_seq; lia)) as E.
  rewrite length_seq in E. lia.
Qed.

(** A peer that does not lead asks everyone for votes in a term beyond [m]. *)
Lemma ask s i rf m :
  live n s -> nodes s !! i = Some rf -> state rf <> LEADER ->
  exists s' rf' args, runs s s' /\ nodes s' = <[i := rf']> (nodes s) /\ tickers s' !! i = Some TickCandidate /\ campaigning rf rf' /\ m < currentTerm rf' /\
    rv_Term args = currentTerm rf' /\ rv_LastLogTerm args = last_term (log rf) /\ rv_LastLogIdx args = len (log rf) - 1 /\
    forall j, j ∈ others i -> VoteRequest i j args ∈ net s'.
Proof.
  intros Hl Hi Hs. destruct (lv_wf _ _ Hl i rf Hi) as (Hwf & _ & _ & Hd & _). apply lookup_lt_Some in Hi as Hin.
  destruct (lookup_lt_is_Some_2 (tickers s) i) as [pc Hpc]; [rewrite (lv_tickers _ _ Hl), <- (lv_nodes _ _ Hl); done | ].
  assert (Hex : pc <> TickExit) by (by eapply (Forall_lookup_1 _ _ _ _ (lv_alive _ _ Hl))).
  apply lookup_lt_Some in Hpc as Hpcl.
  destruct (campaign_beyond i (nodes s) (tickers s) Hin Hpcl rf pc (net s) m Hs Hd Hex) as (rf' & qs & Hc & Hm & Hr).
  rewrite <- (at_peer_self s i rf pc Hi Hpc) in Hr. set (s1 := at_peer i rf' TickCandidate (nodes s) (tickers s) _) in Hr.
  assert (Hi1 : nodes s1 !! i = Some rf') by (simpl; by apply list_lookup_insert_eq).
  assert (Hl1 : live n s1) by (eapply runs_live; [rewrite <- (lv_nodes _ _ Hl); lia | exact Hl | exact Hr]).
  destruct (lv_wf _ _ Hl1 i rf' Hi1) as (Hwf1 & _). destruct (last_entry_wf rf' (wf_log _ Hwf1)) as (x & Hx & _).
  destruct (last_term_entry rf' x Hwf1 Hx) as [Et Ei]. rewrite (sp_log _ _ (proj1 Hc)) in Et, Ei.
  set (args := MkRequestVoteArgs (currentTerm rf') (me rf') (le_Index x) (le_Term x)).
  assert (En : net s1 = (net s ++ qs) ++ [VoteGo i (currentTerm rf')]) by (simpl; by rewrite app_assoc).
  destruct (delivered_last s1 _ _ En) as [Hlast Hdel].
  exists (set_net ((net s ++ qs) ++ vote_requests (length (nodes s1)) i args) s1), rf', args. split_and!; try done.
  - etrans; [exact Hr | ]. apply (run_action (Deliver (length (net s ++ qs)))); unfold allowed, do_action; rewrite Hlast.
    + rewrite Hi1. by rewrite Z.eqb_refl.
    + unfold run_packet. erewrite node_Some by exact Hi1. rewrite bind_Ok. unfold vote_args. rewrite Hx, !bind_Ok, Hdel. done.
  - simpl. by apply list_lookup_insert_eq.
  - intros j Hj. apply elem_of_app. right. apply list_elem_of_fmap. exists j. split; [done | ].
    unfold others in Hj. by rewrite (lv_nodes _ _ Hl1).
Qed.

(** A candidate whose log is up to date for everyone wins. *)
Lemma win s i rf :
  (2 <= n)%nat -> live n s -> nodes s !! i = Some rf -> state rf <> LEADER -> cWinElection rf < chan_cap ->
  (forall j rj, j <> i -> nodes s !! j = Some rj -> cHeartbeat rj < chan_cap /\ up_to_date (log rf) (log rj)) ->
  exists s' rf0 args, runs s s' /\ same_peer rf rf0 /\ took_over i rf0 args s' /\
    forall j rj, nodes s !! j = Some rj -> currentTerm rj < rv_Term args.
Proof.
  intros Hn Hl Hi Hs Hw Hoth. assert (Hin : (i < n)%nat) by (rewrite <- (lv_nodes _ _ Hl); by eapply lookup_lt_Some).
  assert (Hm : exists m, forall j rj, nodes s !! j = Some rj -> currentTerm rj <= m).
  { generalize (nodes s). intros l. induction l as [ | r l [m IH]]; [exists 0; done | ]. exists (Z.max (currentTerm r) m).
    intros [ | j] rj Hj; simpl in Hj; [injection Hj as <-; lia | apply IH in Hj; lia]. }
  destruct Hm as (m & Hm). destruct (ask s i rf m Hl Hi Hs) as (s1 & rf' & args & Hr & En & Htk & Hc & Hmt & Ht & Hlt & Hli & Hreq).
  destruct Hc as (Hsp & Es & _ & Enum). pose proof (sp_win _ _ Hsp).
  assert (Hp : polling i rf' args (others i) s1).
  { split.
    - eapply runs_live; [lia | exact Hl | exact Hr].
    - done.
    - exists rf'. split; [rewrite En; apply list_lookup_insert_eq; by rewrite (lv_nodes _ _ Hl) | ]. split; [done | right].
      pose proof (others_length i Hin). split_and!; try done; lia.
    - apply NoDup_filter, NoDup_seq.
    - intros j Hj. split; [by apply list_elem_of_filter in Hj as [? _] | ]. split; [by apply Hreq | ].
      apply list_elem_of_filter in Hj as [Hji Hj]. apply elem_of_seq in Hj.
      destruct (lookup_lt_is_Some_2 (nodes s) j) as [rj Hrj]; [rewrite (lv_nodes _ _ Hl); lia | ].
      exists rj. split; [rewrite En; by rewrite list_lookup_insert_ne | ]. destruct (Hoth j rj Hji Hrj) as [Hh Hup].
      destruct (lv_wf _ _ Hl j rj Hrj) as (Hwf & _). destruct (last_entry_wf rj (wf_log _ Hwf)) as (x & Hx & _).
      destruct (last_term_entry rj x Hwf Hx) as [Etx Eix]. apply Hm in Hrj. split; [lia | ]. split; [done | ]. exists x. split; [done | ].
      unfold up_to_date in Hup. rewrite Hlt, Hli, Etx, Eix. unfold len. lia.
    - intros j rj Hji Hno Hj. destruct Hno. apply list_elem_of_filter. split; [done | ]. apply elem_of_seq.
      rewrite En in Hj. apply lookup_lt_Some in Hj. rewrite length_insert, (lv_nodes _ _ Hl) in Hj. lia. }
  destruct (poll_all i rf' args ltac:(lia) _ _ Hp) as (s' & Hr' & Hto). exists s', rf', args. split_and!; [by etrans | done | done | ].
  intros j rj Hj. apply Hm in Hj. lia.
Qed.

(** Some peer has a log that is up to date for every other. *)
Lemma freshest (l : list (Raft Cmd)) : l <> [] -> exists i rf, l !! i = Some rf /\ forall j rj, l !! j = Some rj -> up_to_date (log rf) (log rj).
Proof.
  induction l as [ | r l IH]; intros Hne; [done | ]. destruct (decide (l = [])) as [-> | Hl].
  { exists 0%nat, r. split; [done | ]. intros [ | j] rj Hj; simpl in Hj; [injection Hj as <-; apply up_to_date_refl | done]. }
  destruct (IH Hl) as (i & rf & Hi & Hall).
  assert (Htot : up_to_date (log rf) (log r) \/ up_to_date (log r) (log rf)) by (unfold up_to_date; lia).
  destruct Htot as [Hup | Hup].
  - exists (S i), rf. split; [done | ]. intros [ | j] rj Hj; simpl in Hj; [by injection Hj as <- | by eapply Hall].
  - exists 0%nat, r. split; [done | ]. intros [ | j] rj Hj; simpl in Hj; [injection Hj as <-; apply up_to_date_refl | ].
    apply Hall in Hj. unfold up_to_date in *. lia.
Qed.

(** Some peer is in the latest term. *)
Lemma latest (l : list (Raft Cmd)) : l <> [] -> exists j rj, l !! j = Some rj /\ forall k rk, l !! k = Some rk -> currentTerm rk <= currentTerm rj.
Proof.
  induction l as [ | r l IH]; intros Hne; [done | ]. destruct (decide (l = [])) as [-> | Hl].
  { exists 0%nat, r. split; [done | ]. intros [ | k] rk Hk; simpl in Hk; [by injection Hk as <- | done]. }
  destruct (IH Hl) as (j & rj & Hj & Hall). destruct (decide (currentTerm r <= currentTerm rj)) as [Hle | Hgt].
  - exists (S j), rj. split; [done | ]. intros [ | k] rk Hk; simpl in Hk; [by injection Hk as <- | by eapply Hall].
  - exists 0%nat, r. split; [done | ]. intros [ | k] rk Hk; simpl in Hk; [by injection Hk as <- | ]. apply Hall in Hk. lia.
Qed.

(** The notification channels have room for one more message each. *)
Definition has_room s : Prop := forall i rf, nodes s !! i = Some rf -> cHeartbeat rf < chan_cap /\ cWinElection rf < chan_cap.

(** A leader steps down when another peer asks for its vote. *)
Lemma depose s i j rf rj :
  live n s -> i <> j -> nodes s !! i = Some rf -> nodes s !! j = Some rj -> state rj <> LEADER -> cHeartbeat rf < chan_cap ->
  exists s' rf' rj', runs s s' /\ nodes s' = <[i := rf']> (<[j := rj']> (nodes s)) /\
    state rf' = FOLLOWER /\ log rf' = log rf /\ cWinElection rf' = cWinElection rf /\ commitIdx rf' = commitIdx rf /\
    appliedLast rf' = appliedLast rf /\ currentTerm rf <= currentTerm rf' /\
    log rj' = log rj /\ cHeartbeat rj' = cHeartbeat rj /\ currentTerm rj <= currentTerm rj'.
Proof.
  intros Hl Hij Hi Hj Hs Hh.
  destruct (ask s j rj (currentTerm rf) Hl Hj Hs) as (s1 & rj' & args & Hr & En & _ & Hc & Hm & Hta & _ & _ & Hreq).
  destruct Hc as (Hsp & _ & Htj & _). destruct (lv_wf _ _ Hl i rf Hi) as (Hwf & _).
  assert (Hin : i ∈ others j).
  { apply list_elem_of_filter. split; [done | ]. apply elem_of_seq. apply lookup_lt_Some in Hi. rewrite (lv_nodes _ _ Hl) in Hi. lia. }
  apply Hreq, list_elem_of_lookup_1 in Hin as (k & Hk).
  destruct (RequestVote_deposes rf args (MkRequestVoteReply 0 false) Hwf) as (rf' & reply & E & Hst & Hlog & Hcw & Hco & Hla); [lia | done | ].
  pose proof (vn_term _ _ (proj1 (RequestVote_vote _ _ _ _ _ E))) as Htf.
  exists (Cluster (<[i := rf']> (nodes s1)) (tickers s1) (delete k (net s1) ++ [VoteReply j i args reply])), rf', rj'.
  split_and!; try done; [ | | apply Hsp | apply Hsp | lia].
  - etrans; [exact Hr | ]. apply (run_action (Deliver k)); unfold allowed, do_action; rewrite Hk; [done | ]. unfold run_packet.
    erewrite node_Some by (simpl; rewrite En, list_lookup_insert_ne by done; exact Hi). by rewrite bind_Ok, E.
  - simpl. by rewrite En.
Qed.

(** In the latest term some peer does not lead: the leader of a term has the vote
    of another peer, which is in that term and not its leader. *)
Lemma latest_follower s :
  (2 <= n)%nat -> live n s ->
  exists k rk, nodes s !! k = Some rk /\ state rk <> LEADER /\ forall j rj, nodes s !! j = Some rj -> currentTerm rj <= currentTerm rk.
Proof.
  intros Hn Hl. assert (Hne : nodes s <> []) by (intros E; pose proof (lv_nodes _ _ Hl) as El; rewrite E in El; simpl in El; lia).
  destruct (latest _ Hne) as (j & rj & Hj & Hlast). destruct (decide (state rj = LEADER)) as [Hlj | ]; [ | by exists j, rj].
  destruct (reachable_Inv n s (lv_reach _ _ Hl)) as (V0 & V & e & W & _ & HI).
  destruct (leads_quorum n V e W s j (currentTerm rj) HI) as (Hnd & Hq & Hv); [by exists rj | ].
  assert (Hex : exists v, v ∈ W j /\ v <> j).
  { destruct (W j) as [ | a [ | b w]]; simpl in Hq; [lia | lia | ]. destruct (decide (a = j)) as [-> | ]; [exists b | exists a; split; [by left | done]].
    split; [by right; left | ]. intros ->. apply NoDup_cons in Hnd as [Hnd _]. apply Hnd. by left. }
  destruct Hex as (v & Hin & Hvj). destruct (Hv v Hin) as [Hvote Hvn].
  destruct (lookup_lt_is_Some_2 (nodes s) v) as [rv Hrv]; [by rewrite (lv_nodes _ _ Hl) | ].
  destruct (no_vote _ _ _ _ _ _ _ (inv_node _ _ _ _ _ HI v rv Hrv) _ _ Hvote) as [Hle _].
  pose proof (Hlast v rv Hrv). exists v, rv. split; [done | ]. split; [ | intros k rk Hk; apply Hlast in Hk; lia].
  intros Hlv. destruct Hvj. eapply (elected_unique n V e W s (currentTerm rj)); [done | | by eapply leader_elected].
  replace (currentTerm rj) with (currentTerm rv) by lia. by eapply leader_elected.
Qed.

(** A new leader takes over. *)
Lemma election_wins s :
  (2 <= n)%nat -> live n s -> has_room s ->
  exists s' i rf rf0 args, runs s s' /\ nodes s !! i = Some rf /\
    log rf0 = log rf /\ commitIdx rf0 = commitIdx rf /\ appliedLast rf0 = appliedLast rf /\
    took_over i rf0 args s' /\ forall j rj, nodes s !! j = Some rj -> currentTerm rj < rv_Term args.
Proof.
  intros Hn Hl Hroom. assert (Hne : nodes s <> []) by (intros E; pose proof (lv_nodes _ _ Hl) as El; rewrite E in El; simpl in El; lia).
  destruct (freshest _ Hne) as (i & rf & Hi & Hfresh). destruct (Hroom i rf Hi) as [Hhi Hwi].
  destruct (decide (state rf = LEADER)) as [Hli | Hli].
  2: { destruct (win s i rf) as (s' & rf0 & args & Hr & [] & Hto & Hlt); try done;
         [intros k rk _ Hk; split; [by apply (Hroom k rk) | by eapply Hfresh] | by exists s', i, rf, rf0, args]. }
  destruct (latest_follower s Hn Hl) as (j & rj & Hj & Hlj & _). assert (Hij : i <> j) by (intros ->; congruence).
  destruct (depose s i j rf rj) as (s1 & rf' & rj' & Hr & En & Hst & Hlog & Hcw & Hco & Hla & Htf & Hlogj & Hhj & Htj); try done.
  destruct (win s1 i rf') as (s' & rf0 & args & Hr' & [] & Hto & Hlt); try done.
  - eapply runs_live; [lia | exact Hl | exact Hr].
  - rewrite En. apply list_lookup_insert_eq. rewrite length_insert. by eapply lookup_lt_Some.
  - congruence.
  - lia.
  - intros k rk Hki. rewrite En, list_lookup_insert_ne by done. rewrite Hlog.
    intros [(_ & <- & _) | [_ Hk]]%list_lookup_insert_Some.
    + rewrite Hhj, Hlogj. split; [by apply (Hroom j rj) | by eapply Hfresh].
    + split; [by apply (Hroom k rk) | by eapply Hfresh].
  - exists s', i, rf, rf0, args. split; [by etrans | ]. do 4 (split; [congruence | ]). split; [done | ].
    intros k rk Hk. destruct (decide (k = i)) as [-> | Hki].
    { assert (rk = rf) as -> by congruence. specialize (Hlt i rf'). rewrite En, list_lookup_insert_eq in Hlt by (rewrite length_insert; by eapply lookup_lt_Some).
      specialize (Hlt eq_refl). lia. }
    destruct (decide (k = j)) as [-> | Hkj].
    { assert (rk = rj) as -> by congruence. specialize (Hlt j rj').
      rewrite En, list_lookup_insert_ne, list_lookup_insert_eq in Hlt by (done || by eapply lookup_lt_Some). specialize (Hlt eq_refl). lia. }
    apply (Hlt k). by rewrite En, !list_lookup_insert_ne.
Qed.
End campaign.

(** C6: elections succeed when the network lets them.  From every state that a
    cluster of two peers or more reaches without restarts and with prompt election
    goroutines, whatever was lost or reordered on the way, and whose notification
    channels have room for a message, some schedule of timeouts and deliveries
    gives the cluster a leader of a new term, that every other peer follows. *)
Theorem election_succeeds {Cmd} `{GoRuntime Cmd} (n : nat) (s : cluster Cmd) :
  (2 <= n)%nat -> reachable (cluster_system quiet n) s -> has_room s ->
  exists s' i t, rtc (lts_step (cluster_system quiet n)) s s' /\ leads s' i t /\
    (forall j rf, nodes s !! j = Some rf -> currentTerm rf < t) /\
    (forall j rf, j <> i -> nodes s' !! j = Some rf -> state rf = FOLLOWER /\ currentTerm rf = t).
Proof.
  intros Hn Hs Hroom. destruct (election_wins n s Hn) as (s' & i & rf & rf0 & args & Hr & _ & _ & _ & _ & Hto & Hlt);
    [apply reachable_live; [lia | done] | done | ].
  destruct Hto as (_ & _ & (rf' & Hi & Ht & He) & Hf). exists s', i, (rv_Term args). split; [by apply steady_quiet | ]. split; [ | done].
  exists rf'. split; [done | ]. split; [apply He | done].
Qed.

(** ** A single server *)
Section single.
Context {Cmd : Type} `{GoRuntime Cmd}.

Definition leaderless (s : cluster Cmd) : Prop := Forall (fun rf => state rf <> LEADER) (nodes s).

Lemma leaderless_node (s : cluster Cmd) i rf rf' pcs ps :
  leaderless s -> nodes s !! i = Some rf -> (state rf' = LEADER -> state rf = LEADER) -> leaderless (Cluster (<[i := rf']> (nodes s)) pcs ps).
Proof. intros Hs Hi Hl. apply Forall_insert; [done | ]. intros Hl'. eapply Forall_lookup_1 in Hs; [ | exact Hi]. auto. Qed.

Lemma leaderless_neutral (s : cluster Cmd) i rf rf' pcs ps :
  leaderless s -> nodes s !! i = Some rf -> vote_neutral rf rf' -> leaderless (Cluster (<[i := rf']> (nodes s)) pcs ps).
Proof. intros Hs Hi Hn. eapply leaderless_node; [done | done | ]. by intros [Hl _]%(vn_leader _ _ Hn). Qed.

Lemma leaderless_action V e W (s : cluster Cmd) a s' :
  Inv 1 V e W s -> allowed quiet a s = true -> do_action a s = Ok s' -> leaderless s -> leaderless s'.
Proof.
  intros HI Ha E Hs.
  assert (Hreply : forall i j args reply, VoteReply i j args reply ∉ net s).
  { intros i j args reply Hp. pose proof (inv_net _ _ _ _ _ HI) as Hnet. rewrite Forall_forall in Hnet.
    destruct (Hnet _ Hp) as (? & ? & ? & _). lia. }
  destruct a as [i ev | k | k | i command | i | i]; cbn [do_action] in E; [ | | | | | done].
  - inv_bind. destruct x1 as [[rf' pc'] gr]. simplify_eq. apply node_Ok in H0.
    eapply leaderless_node; [done | exact H0 | ]. apply neutral_ticker in H2 as [[Hn _] | (Hc & -> & _)].
    + by intros [Hl _]%(vn_leader _ _ Hn).
    + unfold start_election. destruct (persist_set (set_numVotesReceived 1 (set_votedFor (me x) (set_currentTerm (currentTerm x + 1) x)))) as [q ->].
      done.
  - destruct (net s !! k) as [p | ] eqn:Hk; [ | done]. apply list_elem_of_lookup_2 in Hk.
    destruct p; simpl in E; inv_bind; try (by destruct (Hreply _ _ _ _ Hk)); try (destruct x0 as [rf' r']); simplify_eq; try done;
      apply node_Ok in H0; (eapply leaderless_neutral; [done | exact H0 | ]).
    + by eapply RequestVote_vote.
    + by eapply neutral_AppendEntries.
    + by eapply neutral_sendAppendEntries.
  - destruct (net s !! k) as [p | ]; [ | done].
    destruct p; simpl in E; inv_bind; try done; simplify_eq; apply node_Ok in H0; (eapply leaderless_neutral; [done | exact H0 | ]);
      first [apply neutral_refl | by eapply neutral_sendAppendEntries].
  - inv_bind. destruct x0 as [rf' res]. simplify_eq. apply node_Ok in H0.
    eapply leaderless_neutral; [done | exact H0 | by eapply neutral_Start].
  - inv_bind. apply node_Ok in H0. destruct (appliers x) as [ | m]; inv_bind. simplify_eq.
    eapply leaderless_neutral; [done | exact H0 | by apply neutral_applyCommitted].
Qed.

Lemma reachable_leaderless (s : cluster Cmd) : reachable (cluster_system quiet 1) s -> (exists V e W, Inv 1 V e W s) /\ leaderless s.
Proof.
  revert s. apply (invariant_ind (cluster_system quiet 1) (fun s => (exists V e W, Inv 1 V e W s) /\ leaderless s)).
  - intros s0 Hs0. simpl in Hs0. subst s0. split; [exists [], (fun _ => 0), (fun _ => []); apply Inv_boot | ].
    apply Forall_forall. intros rf (j & -> & _)%list_elem_of_fmap. by unfold Make.
  - intros s1 s2 ((V & e & W & HI) & Hs) (a & Ha & Hd). split; [ | by eapply leaderless_action].
    destruct (preserved_action 1 _ _ _ _ _ _ HI Ha Hd) as (V' & e' & W' & _ & _ & HI'). by exists V', e', W'.
Qed.

(** A cluster of one server never elects a leader: votes are counted when replies
    arrive, and nobody replies. *)
Theorem single_server_never_leads (s : cluster Cmd) i t : reachable (cluster_system quiet 1) s -> ~ leads s i t.
Proof.
  intros Hs (rf & Hi & Hl & _). destruct (reachable_leaderless s Hs) as [_ Hall].
  by eapply Forall_lookup_1 in Hall; [ | exact Hi].
Qed.
End single.

(** ** A run *)
Section runs.
#[local] Instance all_registered3 : GoRuntime nat := {| registered := fun _ => true; newcap := fun cap _ => (2 * cap)%nat |}.

(** Peers 0 and 1 of 3 time out together and split the votes: both are candidates
    of term 1, and nobody leads. *)
Definition split_vote : list (action nat) := elect 0 ++ elect 1 ++ [Deliver 0; Deliver 0; Deliver 0].

Lemma election_succeeds_witness :
  exists s, run_actions quiet split_vote (boot 3) = Ok s /\ (forall i t, ~ leads s i t) /\
    exists s' i t, rtc (lts_step (cluster_system quiet 3)) s s' /\ leads s' i t /\
      (forall j rf, nodes s !! j = Some rf -> currentTerm rf < t) /\
      (forall j rf, j <> i -> nodes s' !! j = Some rf -> state rf = FOLLOWER /\ currentTerm rf = t).
Proof.
  destruct (run_actions quiet split_vote (boot 3)) as [s | | ] eqn:E; [ | vm_compute in E; discriminate E..].
  exists s. split; [reflexivity | ]. assert (Hr : reachable (cluster_system quiet 3) s) by (by eapply run_actions_reachable).
  assert (Hs : map state (nodes s) = [CANDIDATE; CANDIDATE; FOLLOWER] /\ map cHeartbeat (nodes s) = [0; 0; 0] /\ map cWinElection (nodes s) = [0; 0; 0])
    by (vm_compute in E; injection E as <-; repeat split; reflexivity).
  destruct Hs as (Hst & Hh & Hw). split.
  - intros i t (rf & Hi & Hl & _). assert (Hx : map state (nodes s) !! i = Some LEADER) by (rewrite list_lookup_fmap, Hi; simpl; by rewrite Hl).
    rewrite Hst in Hx. destruct i as [ | [ | [ | i]]]; discriminate Hx.
  - apply (election_succeeds 3 s); [lia | exact Hr | ]. intros i rf Hi.
    assert (Hx : map cHeartbeat (nodes s) !! i = Some (cHeartbeat rf)) by (by rewrite list_lookup_fmap, Hi).
    assert (Hy : map cWinElection (nodes s) !! i = Some (cWinElection rf)) by (by rewrite list_lookup_fmap, Hi).
    rewrite Hh in Hx. rewrite Hw in Hy. destruct i as [ | [ | [ | i]]]; [ | | | discriminate Hx];
      injection Hx as <-; injection Hy as <-; split; reflexivity.
Defined.
End runs.
