(* ===== verification/RaftProgress.v ===== *)
(** * A command goes through when the network lets it

    From every state that a calm cluster of two peers or more reaches, and whose
    notification channels have room, some schedule elects a leader, hands it a
    command, replicates it to every peer, and has the leader commit and apply it. *)
From S2P Require Import Prelude Persister RaftServer RaftServerFacts RaftServerSpec RaftCluster RaftElection RaftMemory RaftSafe RaftLogs RaftOrder RaftAgree RaftAgreeInv RaftCalmPeer RaftCalm RaftAgreement RaftLive.

Local Open Scope Z_scope.

(** ** The functions of a peer *)
Section peer.
Context {Cmd : Type} `{GoRuntime Cmd}.
Implicit Types rf : Raft Cmd.

Lemma index_last {A} (l : list A) x : last l = Some x -> index l (len l - 1) = Ok x.
Proof.
  intros Hl. rewrite last_lookup in Hl. apply lookup_lt_Some in Hl as Hlt. apply index_Ok.
  split; [unfold len; lia | ]. rewrite <- Hl. f_equal. unfold len. lia.
Qed.

(** A majority of copies of the last entry commits it. *)
Lemma advance_commit_last rf e :
  raft_wf rf -> commitIdx rf < len (log rf) - 1 -> last (log rf) = Some e -> le_Term e = currentTerm rf ->
  peers rf < 2 * replicas rf (len (log rf) - 1) ->
  advance_commit (Z.to_nat (len (log rf) - 1 - commitIdx rf)) 0 rf = Ok (commit_to (len (log rf) - 1) rf).
Proof.
  intros Hwf Hc He Ht Hm. destruct (Z.to_nat _) as [ | k] eqn:Ek; [lia | ]. cbn [advance_commit].
  replace (commitIdx rf + Z.of_nat (S k)) with (len (log rf) - 1) by lia.
  rewrite Z.sub_0_r, (index_last _ _ He), bind_Ok, Ht, Z.eqb_refl, count_matching_replicas, bind_Ok by done.
  replace (Z.quot (peers rf) 2 <? _) with true; [done | ]. symmetry. apply Z.ltb_lt.
  pose proof (wf_me _ Hwf). rewrite Z.quot_div_nonneg by lia. pose proof (Z.mul_div_le (peers rf) 2). lia.
Qed.

(** When every other peer has confirmed an entry, all hold it. *)
Lemma replicas_all rf k :
  (forall j, (j < Z.to_nat (peers rf))%nat -> Z.of_nat j <> me rf -> matchIdx rf !! j = Some k) -> replicas rf k = Z.of_nat (Z.to_nat (peers rf)).
Proof.
  intros Hall. unfold replicas, len. f_equal. rewrite <- (length_seq (Z.to_nat (peers rf)) 0) at 2. f_equal.
  assert (Hf : Forall (fun j => holds_entry rf k j = true) (seq 0 (Z.to_nat (peers rf)))).
  { apply Forall_forall. intros j Hj%elem_of_seq. unfold holds_entry. destruct (Z.of_nat j =? me rf) eqn:E; [done | ]. zbool.
    rewrite Hall by (done || lia). apply Z.leb_refl. }
  revert Hf. generalize (seq 0 (Z.to_nat (peers rf))). induction 1 as [ | j l Hj Hl IH]; [done | ].
  rewrite filter_cons, decide_True by done. by f_equal.
Qed.

(** What a leader sends with its messages to the others. *)
Lemma broadcast_to_total rf k :
  raft_wf rf -> state rf = LEADER -> 1 <= currentTerm rf -> Forall (fun m => 1 <= m <= len (log rf)) (nextIdx rf) ->
  (k <= Z.to_nat (peers rf))%nat ->
  exists sent, broadcast_to k rf 0 = Ok sent /\
    forall j a, (j < k)%nat -> heartbeat_args rf 0 (Z.of_nat j) = Ok (Some a) -> (Z.of_nat j, a) ∈ sent.
Proof.
  intros Hwf Hs Ht Hb. induction k as [ | k IH]; intros Hk; [exists []; split; [done | lia] | ].
  destruct IH as (sent & E & Hin); [lia | ]. simpl. rewrite E, bind_Ok.
  assert (Hargs : exists a, heartbeat_args rf 0 (Z.of_nat k) = Ok a).
  { destruct (decide (Z.of_nat k = me rf)) as [Em | Em].
    { exists None. unfold heartbeat_args. by rewrite Em, Z.eqb_refl, andb_false_r. }
    pose proof (wf_next_len _ Hwf). destruct (index_total (nextIdx rf) (Z.of_nat k)) as [m Hm]; [lia | ].
    destruct (heartbeat_args_spec rf (Z.of_nat k) m) as (a & sl & Ea & _); try done; [ | by exists (Some (a, sl))].
    apply index_Ok in Hm as [_ Hm]. exact (Forall_lookup_1 _ _ _ _ Hb Hm). }
  destruct Hargs as [a Ea]. rewrite Ea, bind_Ok. eexists. split; [done | ]. intros j b Hj Hjb. apply elem_of_app.
  destruct (decide (j = k)) as [-> | ]; [right; rewrite Hjb in Ea; simplify_eq; apply list_elem_of_singleton; done | left; apply Hin; [lia | done]].
Qed.

(** An exchange between a leader and a follower of its term that lacks an entry:
    either the logs are then the same, or the follower asks for earlier entries. *)
Lemma round_outcome i (leader follower : Raft Cmd) next :
  raft_wf leader -> raft_wf follower -> state leader = LEADER -> 1 <= currentTerm leader ->
  currentTerm follower = currentTerm leader -> i <> me leader -> 0 <= i < peers leader ->
  cHeartbeat follower < chan_cap -> logs_match (log leader) (log follower) ->
  index (nextIdx leader) i = Ok next -> 1 <= next < len (log leader) ->
  exists args sl follower' reply, heartbeat_args leader 0 i = Ok (Some (args, sl)) /\
    AppendEntries follower args zero_append_reply = Ok (follower', reply) /\
    answer_current leader args true = true /\ aer_Term reply = currentTerm leader /\
    state follower' = state follower /\ currentTerm follower' = currentTerm leader /\
    ((aer_Success reply = true /\ log follower' = log leader /\ last (ae_Entries args) = last (log leader)) \/
     (aer_Success reply = false /\ log follower' = log follower /\ 1 <= aer_NextTryIdx reply < next)).
Proof.
  intros HwfL HwfF Hst Hpos Ht Hi Hir Hhb Hm Hn Hr.
  destruct (heartbeat_args_spec leader i next) as (args & sl & Ea & Haw & Hta & _ & Hprev & Hpt & Hes & _); [done.. | lia | ].
  destruct (AppendEntries_current follower args zero_append_reply) as (EA & Hwf1 & Hlog1 & Ht1 & _ & Hhb1 & _); [done | lia | done | ].
  assert (Hs1 : state (met_leader follower args) = state follower).
  { unfold met_leader, step_down. replace (currentTerm follower <? ae_Term args) with false; [done | ]. symmetry. apply Z.ltb_ge. lia. }
  exists args, sl. rewrite EA. rewrite <- Hlog1.
  assert (Hc : answer_current leader args true = true) by (unfold answer_current; by rewrite Hta, Z.eqb_refl, bool_decide_eq_true_2).
  destruct (log_matches (log (met_leader follower args)) (ae_PrevLogIdx args) (ae_PrevLogTerm args)) eqn:Em.
  - destruct (append_current_match (met_leader follower args) args) as (f' & E & Hwf' & Ht' & Hl' & _); [done.. | ].
    destruct (append_current_others _ _ _ _ _ _ _ E) as (_ & _ & _ & Hs' & _). exists f'. eexists. split_and!; [done | exact E | done | done | congruence | congruence | ].
    left. split; [done | ]. split.
    + rewrite Hl', Hlog1, Hes, Hprev. rewrite Hlog1, Hprev in Em.
      unfold log_matches in Em, Hpt. destruct (log follower !! _) as [e'|] eqn:E1; [ | done].
      destruct (log leader !! _) as [e|] eqn:E2; [ | done]. zbool.
      rewrite <- (Hm _ _ _ E2 E1) by congruence. replace (S (Z.to_nat (next - 1))) with (Z.to_nat next) by lia.
      apply take_drop.
    + rewrite Hes, !last_lookup, lookup_drop, length_drop. f_equal. unfold len in Hr. lia.
  - destruct (append_current_mismatch (met_leader follower args) args) as (n' & E & Hn' & _); [done.. | ].
    exists (met_leader follower args). eexists. split_and!; [done | exact E | done | done | done | congruence | ]. right. split; [done | ]. simpl. split; [congruence | lia].
Qed.
End peer.

(** ** A leader that replicates its log *)
Section leader.
Context {Cmd : Type} `{GoRuntime Cmd} (n i : nat) (t : Z) (l : list (LogElement Cmd)) (x : LogElement Cmd).
Hypothesis Hlast : last l = Some x.
Hypothesis Hterm : le_Term x = t.
Implicit Types rf : Raft Cmd.

(** Peer [i] leads term [t] with the log [l], whose last entry it has not applied,
    and which the peers of [todo] have not confirmed. *)
Record replicating (todo : list nat) rf : Prop := {
  rp_state : state rf = LEADER;
  rp_term : currentTerm rf = t;
  rp_log : log rf = l;
  rp_bound : Forall (fun m => 1 <= m <= len l) (nextIdx rf);
  rp_next : forall j m, j ∈ todo -> nextIdx rf !! j = Some m -> m < len l;
  rp_match : forall j, (j < n)%nat -> j <> i -> j ∉ todo -> matchIdx rf !! j = Some (len l - 1);
  rp_applied : appliedLast rf < len l - 1;
  rp_commit : commitIdx rf < len l - 1 \/ (commitIdx rf = len l - 1 /\ (0 < appliers rf)%nat)
}.

Definition in_place rf : Prop := raft_wf rf /\ me rf = Z.of_nat i /\ peers rf = Z.of_nat n.

Lemma replicating_persist todo rf : replicating todo rf -> replicating todo (persist rf) /\ commitIdx (persist rf) = commitIdx rf.
Proof. intros []. destruct (persist_set rf) as [q ->]. split; [by split | done]. Qed.

(** Once all have confirmed, the leader commits. *)
Lemma replicating_advance todo rf rf' :
  in_place rf -> replicating todo rf -> advance_commit (Z.to_nat (len (log rf) - 1 - commitIdx rf)) 0 rf = Ok rf' ->
  replicating todo rf' /\ (todo = [] -> commitIdx rf' = len l - 1).
Proof.
  intros (Hwf & Hme & Hp) [Hs Ht Hl Hb Hn Hm Ha Hc] E. split.
  - destruct (advance_commit_total rf Hwf) as (rf2 & E' & Hor). rewrite E in E'. simplify_eq.
    destruct Hor as [-> | (c & e & -> & Hlt & _)]; [by split | ]. rewrite Hl in *. split; simpl; try done.
    destruct (decide (c = len l - 1)) as [-> | ]; [right; split; [done | lia] | left; lia].
  - intros ->. destruct Hc as [Hlt | [Hc _]].
    + pose proof (advance_commit_last rf x Hwf) as E2. rewrite Hl in E2, E. rewrite E2 in E; [by simplify_eq | done | done | congruence | ].
      rewrite replicas_all; [rewrite Hp; pose proof (wf_me _ Hwf); lia | ]. intros j Hj Hne. apply Hm; [lia | lia | apply not_elem_of_nil].
    + rewrite Hl, Hc, Z.sub_diag in E. simpl in E. by simplify_eq.
Qed.

(** A peer that took the entries has confirmed the log. *)
Lemma replicating_noted j todo rf a reply :
  (j < n)%nat -> j ∉ todo -> in_place rf -> replicating (j :: todo) rf -> aer_Success reply = true -> last (ae_Entries a) = Some x ->
  replicating todo (note_answer rf (Z.of_nat j) a reply) /\ in_place (note_answer rf (Z.of_nat j) a reply).
Proof.
  intros Hj Hnin (Hwf & Hme & Hp) [Hs Ht Hl Hb Hn Hm Ha Hc] Hok Hla. split; [ | ].
  - assert (Hx : le_Index x = len l - 1).
    { rewrite last_lookup in Hlast. rewrite <- Hl in Hlast. apply lookup_lt_Some in Hlast as Hlt.
      rewrite (lw_index _ (wf_log _ Hwf) _ _ Hlast). rewrite <- Hl. unfold len. lia. }
    pose proof (wf_match_len _ Hwf). pose proof (wf_next_len _ Hwf).
    assert (Hll : 1 <= len l) by (rewrite <- Hl; by eapply log_wf_len, Hwf).
    unfold note_answer. rewrite Hok, Hla, Hx, Nat2Z.id. split; simpl; try done.
    + apply Forall_insert; [done | lia].
    + intros q m Hq Hqm. rewrite list_lookup_insert_ne in Hqm by (intros ->; done). apply (Hn q m); [by right | done].
    + intros q Hqn Hqi Hqt. destruct (decide (q = j)) as [-> | Hqj]; [apply list_lookup_insert_eq; unfold len in *; lia | ].
      rewrite list_lookup_insert_ne by done. apply Hm; [done | done | ]. by intros [-> | ?]%elem_of_cons.
  - destruct (note_answer_fields rf (Z.of_nat j) a reply) as (_ & _ & _ & Ep & _ & Em).
    split; [by apply note_answer_wf | ]. split; congruence.
Qed.

(** A peer that lacks an entry asks for earlier ones. *)
Lemma replicating_refused j todo rf a reply :
  in_place rf -> replicating (j :: todo) rf -> aer_Success reply = false -> 1 <= aer_NextTryIdx reply < len l ->
  replicating (j :: todo) (note_answer rf (Z.of_nat j) a reply) /\ in_place (note_answer rf (Z.of_nat j) a reply).
Proof.
  intros (Hwf & Hme & Hp) [Hs Ht Hl Hb Hn Hm Ha Hc] Hno Hr. split.
  - unfold note_answer. rewrite Hno, Nat2Z.id. split; simpl; try done.
    + apply Forall_insert; [done | lia].
    + intros q m Hq [(<- & <- & _) | [Hqj Hqm]]%list_lookup_insert_Some; [lia | ]. by apply (Hn q m).
  - destruct (note_answer_fields rf (Z.of_nat j) a reply) as (_ & _ & _ & Ep & _ & Em).
    split; [by apply note_answer_wf | ]. split; congruence.
Qed.
End leader.

(** ** Schedules *)
Section schedules.
Context {Cmd : Type} `{GoRuntime Cmd} (n : nat).
Implicit Types (rf : Raft Cmd) (s : cluster Cmd).

Abbreviation runs := (runs n).

Lemma deliver s k p s' :
  net s !! k = Some p -> (forall i t, p <> VoteGo i t) ->
  (forall i j a sl, p = AppendGo i j a sl -> exists rf, nodes s !! i = Some rf /\ currentTerm rf = ae_Term a) -> run_packet p (set_net (delete k (net s)) s) = Ok s' -> runs s s'.
Proof.
  intros Hk Hp Hgo E. apply (run_action n (Deliver k)); unfold allowed, do_action; rewrite Hk; [ | done].
  destruct p as [i t | | | | i j a sl | | ]; try done; [by destruct (Hp i t) | ].
  destruct (Hgo i j a sl eq_refl) as (rf & -> & Ht). by apply Z.eqb_eq.
Qed.

Lemma tick_runs s i rf pc ev rf' pc' gr :
  nodes s !! i = Some rf -> tickers s !! i = Some pc -> ticker rf pc ev = Ok (rf', pc', gr) ->
  runs s (Cluster (<[i := rf']> (nodes s)) (<[i := pc']> (tickers s)) (net s ++ spawned i (currentTerm rf') gr)).
Proof.
  intros Hi Hpc E. rewrite (at_peer_self s i rf pc Hi Hpc) at 1.
  apply (tick_run n i (nodes s) (tickers s)) with (ev := ev); [by eapply lookup_lt_Some | by eapply lookup_lt_Some | done].
Qed.

Lemma runs_steady s s' : reachable (cluster_system steady n) s -> runs s s' -> reachable (cluster_system steady n) s'.
Proof. intros (s0 & H0 & Hs) Hr. exists s0. split; [done | ]. by etrans. Qed.

(** *** Making room for messages *)

(** [j] has received from [cHeartbeat], and nothing else has changed that an
    exchange with it depends on. *)
Record drained (j : nat) rf rf' s s' : Prop := {
  dr_log : log rf' = log rf;
  dr_state : state rf' = state rf;
  dr_term : currentTerm rf' = currentTerm rf;
  dr_nodes : nodes s' = <[j := rf']> (nodes s);
  dr_tickers : forall k, k <> j -> tickers s' !! k = tickers s !! k
}.

Lemma drain_one s j rf :
  live n s -> nodes s !! j = Some rf -> state rf = FOLLOWER -> 0 < cHeartbeat rf ->
  exists s' rf', runs s s' /\ drained j rf rf' s s' /\ cHeartbeat rf' = cHeartbeat rf - 1.
Proof.
  intros Hl Hj Hs Hh. destruct (lv_wf _ _ Hl j rf Hj) as (_ & _ & _ & Hd & _). apply Z.ltb_lt in Hh as Hb.
  destruct (lookup_lt_is_Some_2 (tickers s) j) as [pc Hpc]; [rewrite (lv_tickers _ _ Hl), <- (lv_nodes _ _ Hl); by eapply lookup_lt_Some | ].
  assert (Hex : pc <> TickExit) by (by eapply (Forall_lookup_1 _ _ _ _ (lv_alive _ _ Hl))).
  assert (Hf : forall s1 r1, nodes s1 !! j = Some r1 -> tickers s1 !! j = Some TickFollower -> 0 < cHeartbeat r1 ->
    exists s', runs s1 s' /\ drained j r1 (set_cHeartbeat (cHeartbeat r1 - 1) r1) s1 s').
  { intros s1 r1 H1 Hp1 Hh1. eexists. split; [apply (tick_runs s1 j r1 TickFollower Heartbeat (set_cHeartbeat (cHeartbeat r1 - 1) r1) TickTop SpawnNothing); [done | done | ] | ].
    - simpl. by rewrite (proj2 (Z.ltb_lt _ _) Hh1).
    - split; try done. intros k Hk. simpl. by rewrite list_lookup_insert_ne. }
  assert (Ht : forall s1 r1, nodes s1 !! j = Some r1 -> tickers s1 !! j = Some TickTop -> state r1 = FOLLOWER -> dead r1 = 0 -> 0 < cHeartbeat r1 ->
    exists s', runs s1 s' /\ drained j r1 (set_cHeartbeat (cHeartbeat r1 - 1) r1) s1 s').
  { intros s1 r1 H1 Hp1 Hs1 Hd1 Hh1. pose proof (tick_runs s1 j r1 TickTop Timeout r1 TickFollower SpawnNothing H1 Hp1) as Hr.
    simpl in Hr. unfold killed in Hr. rewrite Hd1, Hs1 in Hr. specialize (Hr eq_refl). rewrite (list_insert_id _ _ _ H1) in Hr.
    destruct (Hf (Cluster (nodes s1) (<[j := TickFollower]> (tickers s1)) (net s1 ++ [])) r1) as (s' & Hr' & [D1 D2 D3 D4 D5]);
      [done | simpl; apply list_lookup_insert_eq; by eapply lookup_lt_Some | done | ].
    exists s'. split; [by etrans | ]. split; try done. intros k Hk. rewrite D5 by done. simpl. by rewrite list_lookup_insert_ne. }
  destruct pc; [ | | | | done].
  - destruct (Ht s rf) as (s' & Hr & Hdr); try done. by exists s', (set_cHeartbeat (cHeartbeat rf - 1) rf).
  - destruct (Hf s rf) as (s' & Hr & Hdr); try done. by exists s', (set_cHeartbeat (cHeartbeat rf - 1) rf).
  - eexists _, (set_state FOLLOWER (set_cHeartbeat (cHeartbeat rf - 1) rf)).
    split; [apply (tick_runs s j rf TickCandidate Heartbeat (set_state FOLLOWER (set_cHeartbeat (cHeartbeat rf - 1) rf)) TickTop SpawnNothing); [done | done | simpl; by rewrite Hb] | ].
    split; [ | done]. split; try done. intros k Hk. simpl. by rewrite list_lookup_insert_ne.
  - pose proof (tick_runs s j rf TickLeader Timeout (persist rf) TickTop SpawnNothing Hj Hpc eq_refl) as Hr.
    destruct (persist_set rf) as [q Eq]. rewrite Eq in Hr.
    destruct (Ht (Cluster (<[j := set_persister q rf]> (nodes s)) (<[j := TickTop]> (tickers s)) (net s ++ [])) (set_persister q rf)) as (s' & Hr' & [D1 D2 D3 D4 D5]);
      [simpl; apply list_lookup_insert_eq; by eapply lookup_lt_Some | simpl; apply list_lookup_insert_eq; by eapply lookup_lt_Some | done.. | ].
    exists s', (set_cHeartbeat (cHeartbeat rf - 1) (set_persister q rf)). split; [by etrans | ]. split; [ | done]. split; try done.
    + rewrite D4. simpl. by rewrite list_insert_insert_eq.
    + intros k Hk. rewrite D5 by done. simpl. by rewrite list_lookup_insert_ne.
Qed.

Lemma make_room s j rf :
  (0 < n)%nat -> live n s -> nodes s !! j = Some rf -> state rf = FOLLOWER ->
  exists s' rf', runs s s' /\ drained j rf rf' s s' /\ cHeartbeat rf' < chan_cap.
Proof.
  intros Hn. remember (Z.to_nat (cHeartbeat rf)) as d eqn:Hd. revert s rf Hd. induction d as [ | d IH]; intros s rf Hd Hl Hj Hs.
  all: destruct (decide (cHeartbeat rf < chan_cap)) as [Hh | Hh]; [exists s, rf; split; [apply rtc_refl | split; [ | done]; split; try done; by rewrite list_insert_id] | ].
  all: unfold chan_cap in Hh.
  { lia. }
  destruct (drain_one s j rf Hl Hj Hs) as (s1 & rf1 & Hr & [D1 D2 D3 D4 D5] & Hc); [lia | ].
  assert (Hj1 : nodes s1 !! j = Some rf1) by (rewrite D4; apply list_lookup_insert_eq; by eapply lookup_lt_Some).
  destruct (IH s1 rf1) as (s2 & rf2 & Hr2 & [E1 E2 E3 E4 E5] & Hc2); [lia | by eapply runs_live | done | congruence | ].
  exists s2, rf2. split; [by etrans | ]. split; [ | done]. split; try congruence.
  - rewrite E4, D4. by rewrite list_insert_insert_eq.
  - intros k Hk. by rewrite E5, D5.
Qed.

(** *** One exchange *)

(** Leader [i] wakes up, broadcasts, and hears back from [j]; its other messages
    stay in the network. *)
Lemma exchange_runs s i j rf rj a sl sent rj' reply rf' :
  nodes s !! i = Some rf -> nodes s !! j = Some rj -> i <> j -> tickers s !! i = Some TickTop -> dead rf = 0 -> state rf = LEADER ->
  broadcastHeartbeat rf = Ok sent -> (Z.of_nat j, (a, sl)) ∈ sent -> currentTerm rf = ae_Term a -> copy_args rf a sl = a ->
  AppendEntries rj a zero_append_reply = Ok (rj', reply) -> sendAppendEntries rf (Z.of_nat j) a true reply = Ok rf' ->
  exists ps, runs s (Cluster (<[i := persist rf']> (<[j := rj']> (nodes s))) (tickers s) ps).
Proof.
  intros Hi Hj Hij Hpc Hd Hs Eb Hin Hterm Hcopy Ea Es. set (ts := <[i := TickLeader]> (tickers s)).
  set (gos := map (fun a => AppendGo i (Z.to_nat a.1) a.2.1 a.2.2) sent).
  assert (H1 : runs s (Cluster (nodes s) ts (net s ++ [BroadcastGo i]))).
  { pose proof (tick_runs s i rf TickTop Timeout rf TickLeader SpawnBroadcast Hi Hpc) as Hr. simpl in Hr. unfold killed in Hr.
    rewrite Hd, Hs in Hr. specialize (Hr eq_refl). by rewrite (list_insert_id _ _ _ Hi) in Hr. }
  assert (H2 : runs (Cluster (nodes s) ts (net s ++ [BroadcastGo i])) (Cluster (nodes s) ts (net s ++ gos))).
  { destruct (delivered_last (Cluster (nodes s) ts (net s ++ [BroadcastGo i])) _ _ eq_refl) as [Hk Hdel].
    eapply deliver; [exact Hk | done | done | ]. rewrite Hdel. simpl. erewrite node_Some by exact Hi. by rewrite bind_Ok, Eb. }
  assert (Hgo : AppendGo i j a sl ∈ net s ++ gos).
  { apply elem_of_app. right. apply list_elem_of_fmap. exists (Z.of_nat j, (a, sl)). split; [simpl; by rewrite Nat2Z.id | done]. }
  apply list_elem_of_lookup_1 in Hgo as (k & Hk). set (rest := delete k (net s ++ gos)).
  assert (H3 : runs (Cluster (nodes s) ts (net s ++ gos)) (Cluster (nodes s) ts (rest ++ [AppendRequest i j a]))).
  { eapply deliver; [exact Hk | done | intros ? ? ? ? [= <- <- <- <-]; by exists rf | ].
    simpl. erewrite node_Some by exact Hi. by rewrite bind_Ok, Hcopy. }
  assert (H4 : runs (Cluster (nodes s) ts (rest ++ [AppendRequest i j a])) (Cluster (<[j := rj']> (nodes s)) ts (rest ++ [AppendReply i j a reply]))).
  { destruct (delivered_last (Cluster (nodes s) ts (rest ++ [AppendRequest i j a])) _ _ eq_refl) as [Hq Hdel].
    eapply deliver; [exact Hq | done | done | ]. rewrite Hdel. simpl. erewrite node_Some by exact Hj. rewrite bind_Ok.
    unfold zero_append_reply in Ea. by rewrite Ea. }
  assert (Hi' : <[j := rj']> (nodes s) !! i = Some rf) by by rewrite list_lookup_insert_ne.
  assert (H5 : runs (Cluster (<[j := rj']> (nodes s)) ts (rest ++ [AppendReply i j a reply])) (Cluster (<[i := rf']> (<[j := rj']> (nodes s))) ts rest)).
  { destruct (delivered_last (Cluster (<[j := rj']> (nodes s)) ts (rest ++ [AppendReply i j a reply])) _ _ eq_refl) as [Hq Hdel].
    eapply deliver; [exact Hq | done | done | ]. rewrite Hdel. simpl. erewrite node_Some by exact Hi'. by rewrite bind_Ok, Es. }
  exists (rest ++ []).
  pose proof (tick_runs (Cluster (<[i := rf']> (<[j := rj']> (nodes s))) ts rest) i rf' TickLeader Timeout (persist rf') TickTop SpawnNothing) as H6. simpl in H6.
  replace (<[i := TickTop]> ts) with (tickers s) in H6 by (unfold ts; by rewrite list_insert_insert_eq, list_insert_id).
  rewrite list_insert_insert_eq in H6.
  etrans; [exact H1 | etrans; [exact H2 | etrans; [exact H3 | etrans; [exact H4 | etrans; [exact H5 | apply H6; [ | | done]]]]]].
  - apply list_lookup_insert_eq. by eapply lookup_lt_Some.
  - apply list_lookup_insert_eq. by eapply lookup_lt_Some.
Qed.
End schedules.

(** ** Rounds *)
Section rounds.
Context {Cmd : Type} `{GoRuntime Cmd} (n i : nat) (t : Z) (l : list (LogElement Cmd)) (x : LogElement Cmd).
Hypothesis Hn : (0 < n)%nat.
Hypothesis Hlast : last l = Some x.
Hypothesis Hterm : le_Term x = t.
Implicit Types (rf : Raft Cmd) (s : cluster Cmd) (todo : list nat).

(** [i] is about to send its log to the peers of [todo]; the others have it, and
    everybody follows. *)
Record leading todo s rf : Prop := {
  ld_live : live n s;
  ld_steady : reachable (cluster_system steady n) s;
  ld_ticker : tickers s !! i = Some TickTop;
  ld_node : nodes s !! i = Some rf;
  ld_leader : replicating n i t l todo rf;
  ld_done : todo = [] -> commitIdx rf = len l - 1;
  ld_others : forall j rj, j <> i -> nodes s !! j = Some rj -> state rj = FOLLOWER /\ currentTerm rj = t /\ (j ∉ todo -> log rj = l)
}.

Lemma leading_place todo s rf : leading todo s rf -> in_place n i rf /\ dead rf = 0 /\ 1 <= currentTerm rf.
Proof.
  intros Hl. destruct (lv_wf _ _ (ld_live _ _ _ Hl) i rf (ld_node _ _ _ Hl)) as (Hwf & Hme & Hp & Hd & _).
  destruct (reachable_safe n s Hn (lv_reach _ _ (ld_live _ _ _ Hl))) as (V & e & W & _ & HS).
  split; [done | ]. split; [done | ]. apply (si_node _ _ _ HS i rf (ld_node _ _ _ Hl)). apply (ld_leader _ _ _ Hl).
Qed.

Lemma leading_room todo s rf j :
  leading todo s rf -> j <> i -> (j < n)%nat ->
  exists s' rj, runs n s s' /\ leading todo s' rf /\ nodes s' !! j = Some rj /\ cHeartbeat rj < chan_cap.
Proof.
  intros [Hl Hst Ht Hi Hr Hd Ho] Hji Hj. destruct (lookup_lt_is_Some_2 (nodes s) j) as [rj Hrj]; [by rewrite (lv_nodes _ _ Hl) | ].
  destruct (Ho j rj Hji Hrj) as (Hs & Htj & Hlj).
  destruct (make_room n s j rj Hn Hl Hrj Hs) as (s' & rj' & Hrun & [D1 D2 D3 D4 D5] & Hc). apply lookup_lt_Some in Hrj as Hlt.
  exists s', rj'. split; [done | ]. split; [ | split; [rewrite D4; by apply list_lookup_insert_eq | done]].
  split; try done; [by eapply runs_live | by eapply runs_steady | rewrite D5; done | rewrite D4; by rewrite list_lookup_insert_ne | ].
  intros q rq Hqi. rewrite D4. intros [(<- & <- & _) | [Hqj Hq]]%list_lookup_insert_Some; [ | by apply Ho].
  split_and!; [congruence | congruence | ]. intros Hnin. rewrite D1. by apply Hlj.
Qed.

(** The logs of two peers satisfy Log Matching. *)
Lemma steady_logs_match s j k rj rk : reachable (cluster_system steady n) s -> nodes s !! j = Some rj -> nodes s !! k = Some rk -> logs_match (log rj) (log rk).
Proof.
  intros Hl Hj Hk. destruct (reachable_logs n s Hn Hl) as (V & e & W & T & _ & _ & HL).
  intros q a b Ha Hb Hab. eapply backed_agree; [by eapply li_node | by eapply li_node | done..].
Qed.

Lemma leading_broadcast todo s rf :
  leading todo s rf -> exists sent, broadcastHeartbeat rf = Ok sent /\
    forall j a, (j < n)%nat -> heartbeat_args rf 0 (Z.of_nat j) = Ok (Some a) -> (Z.of_nat j, a) ∈ sent.
Proof.
  intros Hl. destruct (leading_place _ _ _ Hl) as ((Hwf & _ & Hp) & _ & Hpos). pose proof (ld_leader _ _ _ Hl) as [Hs _ Hlog Hb _ _ _ _].
  unfold broadcastHeartbeat. rewrite (base_wf _ (wf_log _ Hwf)), bind_Ok.
  destruct (broadcast_to_total rf (Z.to_nat (peers rf)) Hwf) as (sent & E & Hin); [done | done | by rewrite Hlog | done | ].
  exists sent. split; [done | ]. intros j a Hj. apply Hin. lia.
Qed.

(** The leader after it has processed an answer of [j]. *)
Lemma leading_next todo todo' s s' rf rf1 rf2 j rj rj' :
  leading todo s rf -> j <> i -> nodes s !! j = Some rj -> runs n s s' ->
  nodes s' = <[i := persist rf2]> (<[j := rj']> (nodes s)) -> tickers s' = tickers s ->
  state rj' = FOLLOWER -> currentTerm rj' = t -> (j ∉ todo' -> log rj' = l) -> (forall q, q ∉ todo' -> q ∈ todo -> q = j) ->
  in_place n i rf1 -> replicating n i t l todo' rf1 -> advance_commit (Z.to_nat (len (log rf1) - 1 - commitIdx rf1)) 0 rf1 = Ok rf2 ->
  leading todo' s' (persist rf2).
Proof.
  intros [Hl Hst Ht Hi Hr Hd Ho] Hji Hj Hrun En Et Hsj Htj Hlj Htodo Hin Hrep E.
  destruct (replicating_advance n i t l x Hlast Hterm todo' rf1 rf2 Hin Hrep E) as [Hrep' Hdone].
  destruct (replicating_persist n i t l todo' rf2 Hrep') as [Hrep'' Hc]. apply lookup_lt_Some in Hi as Hlt.
  split; [by eapply runs_live | by eapply runs_steady | congruence | | done | rewrite Hc; done | ].
  - rewrite En. apply list_lookup_insert_eq. by rewrite length_insert.
  - intros q rq Hqi. rewrite En, list_lookup_insert_ne by done.
    intros [(<- & <- & _) | [Hqj Hq]]%list_lookup_insert_Some; [done | ]. destruct (Ho q rq Hqi Hq) as (Hsq & Htq & Hlq).
    split_and!; try done. intros Hnin. apply Hlq. intros Hin'. by destruct Hqj; rewrite (Htodo q).
Qed.

(** An exchange with [j]: it has the log, or the leader goes further back. *)
Lemma exchange j todo s rf next :
  leading (j :: todo) s rf -> j <> i -> (j < n)%nat -> j ∉ todo -> nextIdx rf !! j = Some next ->
  exists s' rf', runs n s s' /\
    (leading todo s' rf' \/ (leading (j :: todo) s' rf' /\ exists next', nextIdx rf' !! j = Some next' /\ 0 <= next' < next)).
Proof.
  intros Hl0 Hji Hj Hnin Hnext. destruct (leading_room _ _ _ j Hl0 Hji Hj) as (s1 & rj & Hr1 & Hl & Hrj & Hh).
  destruct (leading_place _ _ _ Hl) as (Hpl & Hdd & Hpos). pose proof Hpl as (Hwf & Hme & Hp). pose proof (ld_node _ _ _ Hl) as Hi.
  destruct (lv_wf _ _ (ld_live _ _ _ Hl) j rj Hrj) as (Hwfj & _). destruct (ld_others _ _ _ Hl j rj Hji Hrj) as (Hsj & Htj & _).
  pose proof (ld_leader _ _ _ Hl) as Hrep. pose proof Hrep as [Hs Ht Hlog Hb Hnx _ _ _].
  assert (Hlt : 1 <= next < len (log rf)).
  { rewrite Hlog. split; [by apply (Forall_lookup_1 _ _ _ _ Hb Hnext) | apply (Hnx j); [by left | done]]. }
  destruct (round_outcome (Z.of_nat j) rf rj next) as (a & sl & rj' & reply & Ea & EA & Hcur & Hrt & Hsj' & Htj' & Hor); try done;
    [congruence | lia | lia | by eapply steady_logs_match, Hrj; [apply Hl | ] | by apply index_Ok; rewrite Nat2Z.id; split; [lia | ] | ].
  destruct (leading_broadcast _ _ _ Hl) as (sent & Eb & Hsent). apply Hsent in Ea as Hina; [ | done].
  destruct (heartbeat_args_sent _ _ _ _ Ea) as (_ & _ & Hta & _). destruct (heartbeat_args_slice _ _ _ _ (wf_log _ Hwf) Ea) as [_ Hfr].
  assert (Hnote : in_place n i (note_answer rf (Z.of_nat j) a reply) /\ exists todo', (todo' = todo \/ todo' = j :: todo) /\
    replicating n i t l todo' (note_answer rf (Z.of_nat j) a reply) /\ (j ∉ todo' -> log rj' = l) /\
    (todo' = j :: todo -> exists next', nextIdx (note_answer rf (Z.of_nat j) a reply) !! j = Some next' /\ 0 <= next' < next)).
  { destruct Hor as [(Hok & Elog & Elast) | (Hno & Elog & Htry)].
    - destruct (replicating_noted n i t l x Hlast j todo rf a reply) as [Hrep' Hpl']; try done; [congruence | ].
      split; [done | ]. exists todo. split; [by left | ]. split; [done | ]. split; [congruence | ]. intros E. apply (f_equal length) in E. simpl in E. lia.
    - rewrite Hlog in Hlt. destruct (replicating_refused n i t l j todo rf a reply) as [Hrep' Hpl']; try done; [lia | ].
      split; [done | ]. exists (j :: todo). split; [by right | ]. split; [done | ]. split; [intros Hnj; destruct Hnj; by left | ].
      intros _. exists (aer_NextTryIdx reply). split; [ | lia]. unfold note_answer. rewrite Hno, Nat2Z.id. simpl.
      apply list_lookup_insert_eq. by eapply lookup_lt_Some. }
  destruct Hnote as (Hpl1 & todo' & Htodo & Hrep1 & Hlj & Hback). set (rf1 := note_answer rf (Z.of_nat j) a reply) in *.
  destruct (advance_commit_total rf1) as (rf2 & E2 & Hrf2); [apply Hpl1 | ].
  assert (Es : sendAppendEntries rf (Z.of_nat j) a true reply = Ok rf2).
  { rewrite sendAppendEntries_current by (done || lia). destruct (note_answer_fields rf (Z.of_nat j) a reply) as (El & Ec & _).
    fold rf1 in El, Ec |- *. by rewrite <- El, <- Ec. }
  destruct (exchange_runs n s1 i j rf rj a sl sent rj' reply rf2) as (ps & Hr2); try done; [apply Hl | by apply copy_fresh | ].
  assert (Hl' : leading todo' (Cluster (<[i:=persist rf2]> (<[j:=rj']> (nodes s1))) (tickers s1) ps) (persist rf2)).
  { eapply (leading_next (j :: todo) todo' s1 _ rf rf1 rf2 j rj rj'); try done; [congruence | congruence | ].
    intros q Hq [-> | Hq']%elem_of_cons; [done | ]. destruct Htodo as [-> | ->]; [done | by destruct Hq; right]. }
  eexists _, _. split; [by etrans | ]. destruct Htodo as [-> | ->]; [by left | right]. split; [exact Hl' | ].
  destruct (Hback eq_refl) as (next' & Hn' & Hr'). exists next'. split; [ | done]. rewrite persist_next.
  by destruct Hrf2 as [-> | (c & e & -> & _)].
Qed.

(** Exchanges until [j] has the log; then the same with the others. *)
Lemma exchanges j todo s rf next :
  leading (j :: todo) s rf -> j <> i -> (j < n)%nat -> j ∉ todo -> nextIdx rf !! j = Some next ->
  exists s' rf', runs n s s' /\ leading todo s' rf'.
Proof.
  intros Hl Hji Hj Hnin. revert s rf Hl. destruct (decide (next < 0)) as [Hneg | Hpos].
  { intros s rf Hl Hnext. pose proof (Forall_lookup_1 _ _ _ _ (rp_bound _ _ _ _ _ _ (ld_leader _ _ _ Hl)) Hnext). simpl in *. lia. }
  apply Z.nlt_ge in Hpos. revert Hpos. induction next as [next IH] using (well_founded_induction (Z.lt_wf 0)). intros Hpos s rf Hl Hnext.
  destruct (exchange j todo s rf next) as (s1 & rf1 & Hr & [Hl1 | (Hl1 & next' & Hn1 & Hlt)]); try done; [by exists s1, rf1 | ].
  destruct (IH next') with (s := s1) (rf := rf1) as (s2 & rf2 & Hr2 & Hl2); try done; [lia | ]. exists s2, rf2. split; [by etrans | done].
Qed.

Lemma replicate_everywhere todo s rf :
  leading todo s rf -> NoDup todo -> (forall j, j ∈ todo -> j <> i /\ (j < n)%nat) -> exists s' rf', runs n s s' /\ leading [] s' rf'.
Proof.
  revert s rf. induction todo as [ | j todo IH]; intros s rf Hl Hnd Hin; [by exists s, rf; split; [apply rtc_refl | ] | ].
  apply NoDup_cons in Hnd as [Hnin Hnd]. destruct (Hin j) as [Hji Hj]; [by left | ].
  destruct (leading_place _ _ _ Hl) as ((Hwf & _ & Hp) & _). pose proof (wf_next_len _ Hwf).
  destruct (lookup_lt_is_Some_2 (nextIdx rf) j) as [next Hnext]; [unfold len in *; lia | ].
  destruct (exchanges j todo s rf next) as (s1 & rf1 & Hr1 & Hl1); try done.
  destruct (IH s1 rf1) as (s2 & rf2 & Hr2 & Hl2); [done | done | intros q Hq; apply Hin; by right | ]. exists s2, rf2. split; [by etrans | done].
Qed.
End rounds.

(** ** The last step *)
Section apply.
Context {Cmd : Type} `{GoRuntime Cmd}.
Implicit Types rf : Raft Cmd.

Lemma apply_from_total m k (l : list (LogElement Cmd)) :
  log_wf l -> 0 <= k -> k + Z.of_nat m <= len l -> exists ms, apply_from m k l = Ok ms.
Proof.
  intros Hl. revert k. induction m as [ | m IH]; intros k Hk Hm; [by exists [] | ]. cbn [apply_from].
  replace (index l 0) with (Ok (MkLogElement (Cmd := Cmd) 0 None 0)) by (symmetry; apply index_Ok; split; [lia | apply Hl]).
  destruct (index_total l k) as [e He]; [lia | ]. destruct (IH (k + 1)) as [ms Ems]; [lia | lia | ].
  rewrite bind_Ok. simpl. rewrite Z.sub_0_r, He, bind_Ok, Ems. by eexists.
Qed.

(** The goroutine that applies entries ends with the last one committed. *)
Lemma applyCommitted_last rf x :
  raft_wf rf -> last (log rf) = Some x -> commitIdx rf = len (log rf) - 1 -> appliedLast rf < commitIdx rf ->
  exists rf', applyCommitted rf = Ok rf' /\ log rf' = log rf /\ state rf' = state rf /\ commitIdx rf' = commitIdx rf /\
    last (cApplyMsg rf') = Some (MkApplyMsg true (le_Command x) (commitIdx rf)).
Proof.
  intros Hwf Hx Hc Ha. pose proof (wf_applied _ Hwf). unfold applyCommitted.
  destruct (apply_from_total (Z.to_nat (commitIdx rf - appliedLast rf)) (appliedLast rf + 1) (log rf) (wf_log _ Hwf)) as [ms Ems]; [lia | lia | ].
  destruct (apply_from_sent _ _ _ _ (lw_base _ (wf_log _ Hwf)) Ems) as [Hlen Hms]. rewrite Ems, bind_Ok. eexists. split; [done | ].
  split_and!; try done. simpl. destruct (last ms) as [m | ] eqn:Em; [ | apply last_None in Em; rewrite Em in Hlen; simpl in Hlen; lia].
  rewrite last_app, Em. f_equal. rewrite last_lookup in Em. destruct (Hms _ _ Em) as (_ & Hv & Hi & e & He & Hcmd).
  assert (Hci : CommandIndex m = commitIdx rf) by lia. rewrite Hci, Hc in He. rewrite last_lookup in Hx.
  replace (Z.to_nat (len (log rf) - 1)) with (Nat.pred (length (log rf))) in He by (unfold len; lia).
  destruct m. simpl in *. congruence.
Qed.
End apply.

Section commands.
Context {Cmd : Type} `{GoRuntime Cmd} (n : nat).
Implicit Types (rf : Raft Cmd) (s : cluster Cmd).

(** In a calm cluster what is committed is in the log, and what is applied is
    committed. *)
Lemma calm_indices s i rf :
  (0 < n)%nat -> reachable (calm_system n) s -> nodes s !! i = Some rf -> commitIdx rf < len (log rf) /\ appliedLast rf <= commitIdx rf.
Proof.
  intros Hn Hs Hi. destruct (reachable_calm n s Hn Hs) as (V & e & W & g & HI & HL & HS & HA).
  pose proof (ag_node _ _ _ _ HA _ _ Hi) as Hna. split; [ | apply (na_channel _ _ _ _ _ Hna)].
  pose proof (log_wf_len _ (wf_log _ (po_wf _ (si_node _ _ _ HS _ _ Hi)))).
  destruct (decide (0 < commitIdx rf)) as [Hpos | ]; [ | lia].
  destruct (commit_ledger n g V s i rf HA Hi Hpos) as (w & L & _ & _ & _ & _ & Hlt). unfold len. lia.
Qed.

(** A new leader takes a command. *)
Lemma take_command s i rf0 args command :
  (2 <= n)%nat -> reachable (cluster_system steady n) s -> took_over n i rf0 args s -> commitIdx rf0 < len (log rf0) -> appliedLast rf0 <= commitIdx rf0 ->
  exists s' rf x, runs n s s' /\ le_Command x = command /\ le_Term x = rv_Term args /\
    leading n i (rv_Term args) (log rf0 ++ [x]) (others n i) s' rf.
Proof.
  intros Hn Hst (Hl & Htk & (rf & Hi & Ht & [Es El Ec Ea En Ew]) & Ho) Hci Hai.
  destruct (lv_wf _ _ Hl i rf Hi) as (Hwf & _ & _ & Hdd & _). apply lookup_lt_Some in Hi as Hlt. rewrite (lv_nodes _ _ Hl) in Hlt.
  set (rf1 := set_cWinElection (cWinElection rf - 1) rf).
  pose proof (tick_runs n s i rf TickCandidate WonElection rf1 TickTop SpawnNothing Hi Htk) as Hr1.
  simpl in Hr1. rewrite (proj2 (Z.ltb_lt _ _) Ew) in Hr1. specialize (Hr1 eq_refl).
  set (s1 := Cluster _ _ _) in Hr1. assert (Hi1 : nodes s1 !! i = Some rf1) by (simpl; apply list_lookup_insert_eq; by eapply lookup_lt_Some).
  destruct (last_entry_wf rf1) as (e & He & _ & Hidx); [apply Hwf | ].
  set (x := MkLogElement (currentTerm rf) command (le_Index e + 1)).
  set (rf2 := persist (append_log [x] rf1)).
  set (s2 := set_node i rf2 s1).
  assert (Hr2 : runs n s1 s2).
  { apply (run_action n (ClientStart i command)); [done | ]. unfold do_action. erewrite node_Some by exact Hi1. rewrite bind_Ok. unfold Start.
    simpl. rewrite Es. simpl. by rewrite He. }
  assert (Hlt1 : (i < length (nodes s1))%nat) by (by eapply lookup_lt_Some).
  assert (Hr : runs n s s2) by by etrans. exists s2, rf2, x. split; [done | ]. split; [done | ]. split; [done | ].
  assert (Hp : exists q, rf2 = set_persister q (append_log [x] rf1)) by apply persist_set. destruct Hp as [q Eq]. clearbody rf2. subst rf2.
  pose proof (log_wf_len _ (wf_log _ Hwf)) as Hll. rewrite El in Hll. split.
  - eapply runs_live; [lia | exact Hl | exact Hr].
  - by eapply runs_steady.
  - simpl. apply list_lookup_insert_eq. by eapply lookup_lt_Some.
  - simpl. apply list_lookup_insert_eq. by eapply lookup_lt_Some.
  - split; simpl; try done; rewrite ?En, ?Ec, ?Ea, ?len_app; change (len [x]) with 1; [congruence | | | | lia | lia].
    + apply Forall_replicate. lia.
    + intros j m _ [-> _]%lookup_replicate. lia.
    + intros j Hj Hji Hnin. destruct Hnin. apply list_elem_of_filter. split; [done | ]. apply elem_of_seq. lia.
  - intros E. pose proof (others_length n i Hlt) as Hlen. rewrite E in Hlen. unfold len in Hlen. simpl in Hlen. lia.
  - intros j rj Hji Hj. simpl in Hj. rewrite !list_lookup_insert_ne in Hj by done.
    destruct (Ho j rj Hji Hj) as [Hsj Htj]. split_and!; [done | done | ]. intros Hnin. destruct Hnin. apply list_elem_of_filter. split; [done | ].
    apply elem_of_seq. apply lookup_lt_Some in Hj. rewrite (lv_nodes _ _ Hl) in Hj. lia.
Qed.
End commands.

(** C5: a command goes through when the network lets it.  From every state that a
    calm cluster (the executions of state machine safety: no restarts, prompt
    goroutines and copies, messages in order, fresh leaders) of two peers or more
    reaches, whatever was lost on the way, and
    whose notification channels have room for a message, some schedule of timeouts
    and deliveries elects a leader that takes the command, replicates it until all
    logs are the same, commits it and sends it on its apply channel. *)
Theorem commands_succeed {Cmd} `{GoRuntime Cmd} (n : nat) (s : cluster Cmd) (command : option Cmd) :
  (2 <= n)%nat -> reachable (calm_system n) s -> has_room s ->
  exists s' i rf k, rtc (lts_step (cluster_system steady n)) s s' /\ nodes s' !! i = Some rf /\ state rf = LEADER /\
    (forall j rj, nodes s !! j = Some rj -> currentTerm rj < currentTerm rf) /\
    log rf !! k = Some (MkLogElement (currentTerm rf) command (Z.of_nat k)) /\
    commitIdx rf = Z.of_nat k /\ last (cApplyMsg rf) = Some (MkApplyMsg true command (Z.of_nat k)) /\
    forall j rj, nodes s' !! j = Some rj -> log rj = log rf.
Proof.
  intros Hn Hs Hroom. assert (Hl : live n s) by (apply reachable_live; [lia | by apply calm_quiet]).
  destruct (election_wins n s Hn Hl Hroom) as (s1 & i & rf & rf0 & args & Hr1 & Hi & El & Ec & Ea & Hto & Hlt).
  destruct (calm_indices n s i rf) as [Hci Hai]; [lia | done | done | ].
  destruct (take_command n s1 i rf0 args command Hn (runs_steady n s s1 (calm_steady n s Hs) Hr1) Hto) as (s2 & rf2 & x & Hr2 & Hcmd & Hterm & Hl2); [congruence | congruence | ].
  set (l := log rf0 ++ [x]) in *. assert (Hlast : last l = Some x) by apply last_snoc.
  destruct (replicate_everywhere n i (rv_Term args) l x) with (todo := others n i) (s := s2) (rf := rf2) as (s3 & rf3 & Hr3 & Hl3); try done; [lia | | | ].
  { apply NoDup_filter, NoDup_seq. }
  { intros j [Hji Hj%elem_of_seq]%list_elem_of_filter. split; [done | lia]. }
  pose proof (leading_place n i (rv_Term args) l ltac:(lia) _ _ _ Hl3) as ((Hwf & _) & _). destruct Hl3 as [Hl3 _ Htk Hi3 Hrep Hdone Ho].
  specialize (Hdone eq_refl). destruct Hrep as [Rs Rt Rl _ _ _ Ra Rc].
  destruct (applyCommitted_last rf3 x Hwf) as (rf4 & E4 & L4 & S4 & C4 & A4); [congruence | congruence | lia | ].
  destruct (appliers rf3) as [ | m] eqn:Em; [lia | ].
  set (rf5 := set_appliers m rf4). exists (set_node i rf5 s3), i, rf5, (length (log rf0)).
  assert (T4 : currentTerm rf4 = currentTerm rf3) by (unfold applyCommitted in E4; inv_bind; by simplify_eq).
  assert (Hk : commitIdx rf3 = Z.of_nat (length (log rf0))) by (rewrite Hdone; unfold l, len; rewrite length_app; simpl; lia).
  assert (Hx : x = MkLogElement (rv_Term args) command (Z.of_nat (length (log rf0)))).
  { assert (Hlx : log rf3 !! length (log rf0) = Some x) by (rewrite Rl; by apply list_lookup_middle).
    pose proof (lw_index _ (wf_log _ Hwf) _ _ Hlx). destruct x. simpl in *. congruence. }
  split_and!; try done.
  - etrans; [exact Hr1 | etrans; [exact Hr2 | etrans; [exact Hr3 | ]]]. apply (run_action n (Apply i)); [done | ].
    unfold do_action. erewrite node_Some by exact Hi3. rewrite bind_Ok, Em, E4. done.
  - simpl. apply list_lookup_insert_eq. by eapply lookup_lt_Some.
  - simpl. congruence.
  - intros j rj Hj. simpl. rewrite T4, Rt. by apply (Hlt j).
  - simpl. rewrite L4, Rl, T4, Rt, <- Hx. by apply list_lookup_middle.
  - simpl. congruence.
  - simpl. rewrite A4, Hk. by rewrite Hcmd.
  - intros j rj [(<- & <- & _) | [Hji Hj]]%list_lookup_insert_Some; [done | ]. simpl. rewrite L4, Rl. apply (Ho j rj); [done | done | apply not_elem_of_nil].
Qed.

(** ** A run *)
Section runs.
#[local] Instance all_registered4 : GoRuntime nat := {| registered := fun _ => true; newcap := fun cap _ => (2 * cap)%nat |}.

(** Peer 0 of 3 leads term 1 and has a command that nobody hears of; then peer 1
    times out, asks for votes, and its messages are lost. *)
Definition stuck_run : list (order nat) :=
  campaign 0 [1; 2]%nat ++ [Do (ClientStart 0 (Some 7%nat)); Do (Tick 0 WonElection)] ++ broadcast 0 ++ lost 0 1 ++ lost 0 2 ++
  [Do (Tick 1 Timeout); Do (Tick 1 Timeout); Do (Tick 1 Timeout); Run KVoteGo 1 1; Lose KVoteRequest 1 0; Lose KVoteRequest 1 2].

Lemma commands_succeed_witness :
  exists s, run_orders steady true stuck_run (boot 3) = Ok s /\ map currentTerm (nodes s) = [1; 2; 1] /\ map commitIdx (nodes s) = [0; 0; 0] /\
   exists s' i rf k, rtc (lts_step (cluster_system steady 3)) s s' /\ nodes s' !! i = Some rf /\ state rf = LEADER /\
     (forall j rj, nodes s !! j = Some rj -> currentTerm rj < currentTerm rf) /\
     log rf !! k = Some (MkLogElement (currentTerm rf) (Some 8%nat) (Z.of_nat k)) /\
     commitIdx rf = Z.of_nat k /\ last (cApplyMsg rf) = Some (MkApplyMsg true (Some 8%nat) (Z.of_nat k)) /\
     forall j rj, nodes s' !! j = Some rj -> log rj = log rf.
Proof.
  destruct (run_orders steady true stuck_run (boot 3)) as [s | | ] eqn:E; [ | vm_compute in E; discriminate E..].
  exists s. split; [reflexivity | ]. assert (Hr : reachable (calm_system 3) s) by (by eapply run_orders_calm).
  assert (Hs : map currentTerm (nodes s) = [1; 2; 1] /\ map commitIdx (nodes s) = [0; 0; 0] /\
   forallb (fun rf => (cHeartbeat rf <? chan_cap) && (cWinElection rf <? chan_cap)) (nodes s) = true)
    by (vm_compute in E; injection E as <-; repeat split; reflexivity).
  destruct Hs as (Ht & Hc & Hroom). split; [exact Ht | ]. split; [exact Hc | ].
  apply (commands_succeed 3 s (Some 8%nat)); [lia | exact Hr | ]. intros i rf Hi.
  assert (Hb : (cHeartbeat rf <? chan_cap) && (cWinElection rf <? chan_cap) = true).
  { rewrite forallb_forall in Hroom. apply Hroom. apply list_elem_of_In. by eapply list_elem_of_lookup_2. }
  zbool. done.
Defined.
End runs.
