(* ===== verification/Strconv.v ===== *)
(** * Byte strings and decimal numbers

    Go strings are byte sequences: here lists of bytes as integers.  The part
    of [strconv] and [fmt] the program uses: printing a number in decimal with
    or without zero padding ([%d], [%02d], [%020d], [strconv.FormatUint]),
    [strconv.Atoi], and [fmt.Sscanf] with a literal followed by [%d]. *)
From Stdlib Require Import String Ascii.
From S2P Require Import Prelude.

Local Open Scope Z_scope.

Definition bytes : Type := list Z.

(** The bytes of a string literal. *)
Fixpoint lit (s : string) : bytes :=
  match s with
  | EmptyString => []
  | String c s => Z.of_N (N_of_ascii c) :: lit s
  end.

(** The decimal digits of [0 <= z < 10 ^ fuel], most significant first, at
    least one. *)
Fixpoint digits (fuel : nat) (z : Z) : bytes :=
  match fuel with
  | O => []
  | S fuel => if z <? 10 then [z + 48] else digits fuel (z / 10) ++ [z mod 10 + 48]
  end.

(** 20 digits are enough for every 64-bit number. *)
Definition max_digits : nat := 20.

Definition FormatUint (z : Z) : bytes := digits max_digits z.

(** [%d] of a signed integer. *)
Definition fmt_d (z : Z) : bytes := if z <? 0 then 45 :: FormatUint (- z) else FormatUint z.

(** [%0<w>d] of a non-negative integer. *)
Definition fmt_0d (w : nat) (z : Z) : bytes :=
  let ds := FormatUint z in replicate (w - length ds) 48 ++ ds.

Definition is_digit (c : Z) : bool := (48 <=? c) && (c <=? 57).

Fixpoint digits_value (acc : Z) (ds : bytes) : Z :=
  match ds with [] => acc | c :: ds => digits_value (acc * 10 + (c - 48)) ds end.

Fixpoint span_digits (s : bytes) : bytes * bytes :=
  match s with
  | c :: s' => if is_digit c then let r := span_digits s' in (c :: r.1, r.2) else ([], s)
  | [] => ([], [])
  end.

Definition in_int (z : Z) : bool := (- 2 ^ 63 <=? z) && (z <? 2 ^ 63).

Definition sign_split (s : bytes) : Z * bytes :=
  match s with
  | c :: s' => if c =? 45 then (-1, s') else if c =? 43 then (1, s') else (1, s)
  | [] => (1, [])
  end.

(** [strconv.Atoi]: an optional sign and at least one digit, nothing else. *)
Definition Atoi (s : bytes) : option Z :=
  let '(sg, s) := sign_split s in
  let '(ds, rest) := span_digits s in
  let v := sg * digits_value 0 ds in
  match ds, rest with
  | _ :: _, [] => if in_int v then Some v else None
  | _, _ => None
  end.

Fixpoint strip_prefix (p s : bytes) : option bytes :=
  match p, s with
  | [], _ => Some s
  | c :: p, d :: s => if c =? d then strip_prefix p s else None
  | _, [] => None
  end.

Fixpoint skip_spaces (s : bytes) : bytes :=
  match s with c :: s' => if c =? 32 then skip_spaces s' else s | [] => [] end.

(** [fmt.Sscanf(s, prefix + "%d", &v)]: the value scanned, or an error. *)
Definition Sscanf_d (prefix s : bytes) : option Z :=
  match strip_prefix prefix s with
  | None => None
  | Some s =>
      let '(sg, s) := sign_split (skip_spaces s) in
      let '(ds, _) := span_digits s in
      let v := sg * digits_value 0 ds in
      match ds with _ :: _ => if in_int v then Some v else None | [] => None end
  end.

(** ** Printing and reading back *)
Section decimal.
Lemma digits_value_app acc ds es : digits_value acc (ds ++ es) = digits_value (digits_value acc ds) es.
Proof. revert acc. induction ds as [|c ds IH]; intros acc; simpl; auto. Qed.

Lemma digits_digits fuel z : 0 <= z -> Forall (fun c => is_digit c = true) (digits fuel z).
Proof.
  revert z. induction fuel as [|fuel IH]; intros z Hz; simpl; [constructor | ].
  assert (Hd : forall d, 0 <= d < 10 -> is_digit (d + 48) = true).
  { intros d Hd. unfold is_digit. apply andb_true_iff. rewrite !Z.leb_le. lia. }
  branch.
  - repeat constructor. apply Hd. lia.
  - apply Forall_app. split; [apply IH, Z.div_pos; lia | ]. repeat constructor.
    apply Hd, Z.mod_pos_bound. lia.
Qed.

Lemma digits_value_digits fuel z : 0 <= z < 10 ^ Z.of_nat fuel -> digits_value 0 (digits fuel z) = z.
Proof.
  revert z. induction fuel as [|fuel IH]; intros z Hz; simpl; [simpl in Hz; lia | ].
  branch; [simpl; lia | ]. rewrite digits_value_app. simpl.
  rewrite IH; [pose proof (Z.div_mod z 10); lia | ].
  split; [apply Z.div_pos; lia | ]. apply Z.div_lt_upper_bound; [lia | ].
  rewrite Nat2Z.inj_succ, Z.pow_succ_r in Hz by lia. lia.
Qed.

Lemma digits_nonempty fuel z : exists c ds, digits (S fuel) z = c :: ds.
Proof. simpl. branch; [eauto | ]. destruct (digits fuel (z / 10)); simpl; eauto. Qed.

Lemma span_digits_app ds s :
  Forall (fun c => is_digit c = true) ds ->
  match s with c :: _ => is_digit c = false | [] => True end ->
  span_digits (ds ++ s) = (ds, s).
Proof.
  intros Hds Hs. induction Hds as [|c ds Hc Hds IH]; simpl.
  - destruct s as [|c s]; simpl; [done | ]. by rewrite Hs.
  - by rewrite Hc, IH.
Qed.

Lemma sign_split_digit c s : is_digit c = true -> sign_split (c :: s) = (1, c :: s).
Proof.
  unfold is_digit. intros Hc. zbool. simpl. rewrite (proj2 (Z.eqb_neq c 45)), (proj2 (Z.eqb_neq c 43)) by lia. done.
Qed.

Lemma FormatUint_digits z : 0 <= z -> Forall (fun c => is_digit c = true) (FormatUint z).
Proof. apply digits_digits. Qed.

Lemma FormatUint_cons z : exists c ds, FormatUint z = c :: ds.
Proof. apply digits_nonempty. Qed.

Lemma FormatUint_value z : 0 <= z < 2 ^ 64 -> digits_value 0 (FormatUint z) = z.
Proof. intros Hz. apply digits_value_digits. change (10 ^ Z.of_nat max_digits) with 100000000000000000000. lia. Qed.

Lemma FormatUint_length_2 z : 0 <= z < 100 -> (length (FormatUint z) <= 2)%nat.
Proof.
  intros Hz. unfold FormatUint, max_digits. cbn [digits]. destruct (z <? 10) eqn:E; [simpl; lia | ].
  zbool. rewrite length_app. cbn [digits]. replace (z / 10 <? 10) with true; [simpl; lia | ].
  symmetry. apply Z.ltb_lt, Z.div_lt_upper_bound; lia.
Qed.

Lemma digits_value_zeros k ds : digits_value 0 (replicate k 48 ++ ds) = digits_value 0 ds.
Proof. induction k as [|k IH]; simpl; auto. Qed.

Lemma fmt_0d_digits w z : 0 <= z -> Forall (fun c => is_digit c = true) (fmt_0d w z).
Proof.
  intros Hz. unfold fmt_0d. apply Forall_app. split; [by apply Forall_replicate | by apply FormatUint_digits].
Qed.

Lemma fmt_0d_length w z : (length (FormatUint z) <= w)%nat -> length (fmt_0d w z) = w.
Proof. intros Hl. unfold fmt_0d. rewrite length_app, length_replicate. lia. Qed.

Lemma Atoi_digits ds :
  Forall (fun c => is_digit c = true) ds -> ds <> [] -> digits_value 0 ds < 2 ^ 63 -> 0 <= digits_value 0 ds ->
  Atoi ds = Some (digits_value 0 ds).
Proof.
  intros Hds Hne Hlt Hge. destruct ds as [|c ds]; [done | ]. unfold Atoi.
  rewrite sign_split_digit by by inversion Hds.
  rewrite <- (app_nil_r (c :: ds)) at 1. rewrite span_digits_app by done.
  rewrite Z.mul_1_l. unfold in_int.
  rewrite (proj2 (Z.leb_le _ _)), (proj2 (Z.ltb_lt _ _)) by lia. done.
Qed.

(** [Atoi] reads back what [%02d] prints. *)
Lemma Atoi_fmt_02d z : 0 <= z < 100 -> Atoi (fmt_0d 2 z) = Some z.
Proof.
  intros Hz. assert (Hv : digits_value 0 (fmt_0d 2 z) = z).
  { unfold fmt_0d. rewrite digits_value_zeros. apply FormatUint_value. lia. }
  rewrite <- Hv at 2. apply Atoi_digits; rewrite ?Hv; try lia; [apply fmt_0d_digits; lia | ].
  pose proof (fmt_0d_length 2 z (FormatUint_length_2 z Hz)). by destruct (fmt_0d 2 z).
Qed.

Lemma strip_prefix_app p s : strip_prefix p (p ++ s) = Some s.
Proof. induction p as [|c p IH]; simpl; [done | ]. by rewrite Z.eqb_refl. Qed.

(** [Sscanf] reads back what [Sprintf] printed. *)
Lemma Sscanf_Sprintf prefix z : 0 <= z < 2 ^ 63 -> Sscanf_d prefix (prefix ++ fmt_d z) = Some z.
Proof.
  intros Hz. unfold Sscanf_d. rewrite strip_prefix_app. unfold fmt_d.
  rewrite (proj2 (Z.ltb_ge z 0)) by lia.
  destruct (FormatUint_cons z) as (c & ds & E).
  assert (Hc : is_digit c = true).
  { pose proof (FormatUint_digits z ltac:(lia)) as Hd. rewrite E in Hd. by inversion Hd. }
  assert (Hs : skip_spaces (FormatUint z) = FormatUint z).
  { rewrite E. simpl. unfold is_digit in Hc. zbool. by rewrite (proj2 (Z.eqb_neq c 32)) by lia. }
  rewrite Hs, E, sign_split_digit by done. rewrite <- E.
  rewrite <- (app_nil_r (FormatUint z)). rewrite span_digits_app by (done || apply FormatUint_digits; lia).
  rewrite E at 1. rewrite Z.mul_1_l, FormatUint_value by lia. unfold in_int.
  rewrite (proj2 (Z.leb_le _ _)), (proj2 (Z.ltb_lt _ _)) by lia. done.
Qed.
End decimal.
