(* ===== verification/Effects.v ===== *)
(** * Effects of the services

    The state monad in which the service code of [lab1] and [lab2] is
    written down, gRPC statuses, and the random source of [math/rand]. *)
From S2P Require Import Prelude Strconv.

Local Open Scope Z_scope.

(** ** A state monad over [outcome]: a computation that reads and writes a state
    [S], and may panic or block. *)
Definition st (S A : Type) : Type := S -> outcome (A * S).

Definition ret {S A} (a : A) : st S A := fun s => Ok (a, s).
Definition bind {S A B} (m : st S A) (f : A -> st S B) : st S B := fun s =>
  match m s with Ok (a, s') => f a s' | Panic => Panic | Block => Block end.

Declare Scope st_scope.
Delimit Scope st_scope with st.
Notation "x <- m ;; k" := (bind m (fun x => k))
  (at level 100, m at next level, right associativity) : st_scope.
Notation "'let*' pat := m 'in' k" := (bind m (fun x => match x with pat => k end))
  (at level 10, pat pattern, m at level 99, k at level 200) : st_scope.
Notation "m ;;; k" := (bind m (fun _ => k)) (at level 100, right associativity) : st_scope.

Definition gets {S A} (f : S -> A) : st S A := fun s => Ok (f s, s).
Definition modify {S} (f : S -> S) : st S unit := fun s => Ok (tt, f s).
Definition lift {S A} (m : outcome A) : st S A := fun s =>
  match m with Ok a => Ok (a, s) | Panic => Panic | Block => Block end.

(** Run a computation on a component of the state. *)
Definition zoom {S T A} (get : S -> T) (set : T -> S -> S) (m : st T A) : st S A := fun s =>
  match m (get s) with Ok (a, t) => Ok (a, set t s) | Panic => Panic | Block => Block end.

Section st_lemmas.
Context {S A B : Type}.
Implicit Types (m : st S A) (f : A -> st S B).

Lemma st_bind_inv m f s r :
  bind m f s = Ok r <-> exists a s', m s = Ok (a, s') /\ f a s' = Ok r.
Proof. unfold bind. destruct (m s) as [[a s']| | ]; split; try naive_solver. Qed.

Lemma st_bind_Ok m f s a s' : m s = Ok (a, s') -> bind m f s = f a s'.
Proof. unfold bind. by intros ->. Qed.
End st_lemmas.

(** ** gRPC statuses *)
Inductive code :=
  | InvalidArgument | NotFound | Unavailable | Internal | DeadlineExceeded | FailedPrecondition.

#[export] Instance code_eq_dec : EqDecision code.
Proof. solve_decision. Defined.

(** The errors the code sees: those built by [status.Error], and all others. *)
Inductive error := Status (c : code) (message : bytes) | Other (message : bytes).

(** [status.FromError]. *)
Definition FromError (e : error) : option (code * bytes) :=
  match e with Status c m => Some (c, m) | Other _ => None end.

(** A reply, or an error. *)
Definition result (A : Type) : Type := A + error.

(** ** [math/rand]

    The source is the sequence of numbers it will draw; a draw in [0, n)
    consumes one of them. [rand.Intn] and its variants panic on [n <= 0]. *)
Record rng := Rng { draws : N -> Z; used : N }.
Definition first_draw (r : rng) : Z := draws r (used r).
Definition rest (r : rng) : rng := Rng (draws r) (N.succ (used r)).

Definition Intn (n : Z) : st rng Z := fun r =>
  if n <=? 0 then Panic else Ok (first_draw r mod n, rest r).

Lemma Intn_inv n r v r' : Intn n r = Ok (v, r') -> 0 < n /\ 0 <= v < n.
Proof.
  unfold Intn. intros E. branch; [done | ]. injection E as <- <-. split; [lia | ]. apply Z.mod_pos_bound. lia.
Qed.

Lemma Intn_total n r : 0 < n -> exists v r', Intn n r = Ok (v, r') /\ 0 <= v < n.
Proof.
  intros Hn. unfold Intn. rewrite (proj2 (Z.leb_gt n 0)) by lia. do 2 eexists. split; [done | ].
  apply Z.mod_pos_bound. lia.
Qed.

(** ** Invariants of effectful code

    [keeps I m Q]: run from a state that satisfies [I], [m] can only end in one
    that does, with a result that satisfies [Q]. *)
Definition keeps {S A} (I : S -> Prop) (m : st S A) (Q : A -> Prop) : Prop :=
  forall s a s', I s -> m s = Ok (a, s') -> I s' /\ Q a.

Definition anything {A} (a : A) : Prop := True.

Section keeps.
Context {S : Type} (I : S -> Prop).

Lemma keeps_ret {A} (a : A) (Q : A -> Prop) : Q a -> keeps I (ret a) Q.
Proof. intros Ha s b s' Hs [=<- <-]. done. Qed.

Lemma keeps_bind {A B} (R : A -> Prop) (m : st S A) (k : A -> st S B) (Q : B -> Prop) :
  keeps I m R -> (forall a, R a -> keeps I (k a) Q) -> keeps I (bind m k) Q.
Proof. intros Hm Hk s b s' Hs (a & s1 & E1 & E2)%st_bind_inv. destruct (Hm _ _ _ Hs E1). by eapply Hk. Qed.

Lemma keeps_bind_any {A B} (m : st S A) (k : A -> st S B) (Q : B -> Prop) :
  keeps I m anything -> (forall a, keeps I (k a) Q) -> keeps I (bind m k) Q.
Proof. intros Hm Hk. eapply keeps_bind; [exact Hm | intros a _; apply Hk]. Qed.

Lemma keeps_weaken {A} (R Q : A -> Prop) (m : st S A) : keeps I m R -> (forall a, R a -> Q a) -> keeps I m Q.
Proof. intros Hm HQ s a s' Hs E. destruct (Hm _ _ _ Hs E). auto. Qed.

Lemma keeps_any {A} (Q : A -> Prop) (m : st S A) : keeps I m Q -> keeps I m anything.
Proof. intros Hm. by eapply keeps_weaken. Qed.

Lemma keeps_gets {A} (f : S -> A) (Q : A -> Prop) : (forall s, I s -> Q (f s)) -> keeps I (gets f) Q.
Proof. intros HQ s a s' Hs [=<- <-]. auto. Qed.

Lemma keeps_gets_any {A} (f : S -> A) : keeps I (gets f) anything.
Proof. by apply keeps_gets. Qed.

Lemma keeps_modify (f : S -> S) (Q : unit -> Prop) : (forall s, I s -> I (f s)) -> Q tt -> keeps I (modify f) Q.
Proof. intros Hf HQ s a s' Hs [=<- <-]. auto. Qed.

Lemma keeps_lift {A} (m : outcome A) (Q : A -> Prop) : (forall a, m = Ok a -> Q a) -> keeps I (lift m) Q.
Proof. intros HQ s a s' Hs E. unfold lift in E. destruct m; [ | done..]. injection E as <- <-. auto. Qed.

Lemma keeps_lift_any {A} (m : outcome A) : keeps I (lift m) anything.
Proof. by apply keeps_lift. Qed.

Lemma keeps_if {A} (b : bool) (m1 m2 : st S A) (Q : A -> Prop) :
  (b = true -> keeps I m1 Q) -> (b = false -> keeps I m2 Q) -> keeps I (if b then m1 else m2) Q.
Proof. destruct b; auto. Qed.
End keeps.

Create HintDb keeps.
#[export] Hint Resolve keeps_gets_any keeps_lift_any : keeps.

(** Walk through a computation with an invariant, leaving its returns and the
    computations the hints do not know. *)
Ltac keeps_step :=
  match goal with
  | |- keeps _ (ret _) _ => apply keeps_ret
  | |- keeps _ (bind _ _) _ => apply keeps_bind_any; [ | intros ?]
  | |- keeps _ (if _ then _ else _) _ => apply keeps_if; intros ?
  | |- keeps _ (match ?x with _ => _ end) _ => destruct x eqn:?
  | |- keeps _ _ anything => solve [eauto with keeps]
  end.
Ltac keeps_walk := repeat (keeps_step || exact I).
