(* ===== verification/FailureInjection.v ===== *)
(** * Failure injection: [lab1/failure_injection/failure_injection.go]

    The injector of a backend service: what its configuration makes a request
    handler do before it looks at the request. *)
From S2P Require Import Prelude Strconv Effects.

Local Open Scope Z_scope.
Local Open Scope st_scope.

Record InjectionConfig := MkInjectionConfig { SleepNs : Z; FailureRate : Z; ResponseOmissionRate : Z }.

(** An [atomic.Value]: [None] before the first store; the stored pointer may be
    nil. *)
Record FailureInjector := MkFailureInjector { Config : option (option InjectionConfig) }.

Definition SetInjectionConfigPb (config : option InjectionConfig) (fi : FailureInjector) : FailureInjector :=
  MkFailureInjector (Some config).

Definition SetInjectionConfig (sleepNs failureRate responseOmissionRate : Z) (fi : FailureInjector) : FailureInjector :=
  MkFailureInjector (Some (Some (MkInjectionConfig sleepNs failureRate responseOmissionRate))).

Definition ClearInjectionConfig (fi : FailureInjector) : FailureInjector := SetInjectionConfig 0 0 0 fi.

Definition MakeFailureInjector : FailureInjector :=
  MkFailureInjector (Some (Some (MkInjectionConfig 0 0 0))).

(** The type assertion on an empty [atomic.Value] panics. *)
Definition GetInjectionConfig (fi : FailureInjector) : outcome (option InjectionConfig) :=
  match Config fi with Some c => Ok c | None => Panic end.

(** The world a request handler runs in: the random source and the clock, in
    nanoseconds. *)
Record world := World { w_rand : rng; w_now : Z }.

Definition draw {A} (m : st rng A) : st world A := zoom w_rand (fun r w => World r (w_now w)) m.
Definition sleep (ns : Z) : st world unit := modify (fun w => World (w_rand w) (w_now w + Z.max 0 ns)).

Definition oneIn (n : Z) : st world bool :=
  if n =? 0 then ret false else v <- draw (Intn n) ;; ret (v =? 0).

Definition block_forever {A} : st world A := fun _ => Block.

Definition MaybeInject (fi : FailureInjector) : st world bool :=
  c <- lift (GetInjectionConfig fi) ;;
  match c with
  | None => lift Panic   (* a nil *pb.InjectionConfig *)
  | Some config =>
      sleep (SleepNs config) ;;;
      shouldError <- oneIn (FailureRate config) ;;
      shouldOmitResponse <- oneIn (ResponseOmissionRate config) ;;
      if shouldOmitResponse then block_forever else ret shouldError
  end.

(** ** What an injector does *)
Section lemmas.
Lemma oneIn_total n w :
  0 <= n -> exists b w', oneIn n w = Ok (b, w') /\ w_now w' = w_now w /\
    (n = 0 -> b = false /\ w' = w) /\ (n = 1 -> b = true).
Proof.
  intros Hn. unfold oneIn. destruct (n =? 0) eqn:E; zbool.
  - subst. do 2 eexists. split; [done | ]. split; [done | ]. split; [done | lia].
  - unfold draw, zoom, bind. destruct (Intn_total n (w_rand w)) as (v & r' & -> & Hv); [lia | ].
    simpl. do 2 eexists. split; [done | ]. split; [done | ]. split; [lia | ].
    intros ->. apply Z.eqb_eq. lia.
Qed.

Lemma oneIn_negative n w : n < 0 -> oneIn n w = Panic.
Proof.
  intros Hn. unfold oneIn. rewrite (proj2 (Z.eqb_neq n 0)) by lia.
  unfold bind, draw, zoom, Intn. by rewrite (proj2 (Z.leb_le n 0)) by lia.
Qed.
End lemmas.

(** A service whose injector is configured with non-negative rates never
    panics in [MaybeInject]: it waits for the configured time and then either
    hangs, which it never does with an omission rate of 0 and always does with
    1, or says whether to fail the request, which it never does with a failure
    rate of 0 and always does with 1.  A negative rate makes every request
    panic. *)
Theorem MaybeInject_spec sleepNs failureRate omissionRate fi w :
  let m := MaybeInject (SetInjectionConfig sleepNs failureRate omissionRate fi) w in
  if (failureRate <? 0) || (omissionRate <? 0) then m = Panic
  else
    (m = Block /\ omissionRate <> 0) \/
    (omissionRate <> 1 /\ exists b w', m = Ok (b, w') /\ w_now w' = w_now w + Z.max 0 sleepNs /\
       (failureRate = 0 -> b = false) /\ (failureRate = 1 -> b = true)).
Proof.
  cbn zeta. unfold MaybeInject, SetInjectionConfig, GetInjectionConfig. cbn [Config lift].
  rewrite (st_bind_Ok _ _ w (Some (MkInjectionConfig sleepNs failureRate omissionRate)) w) by done. cbn beta iota.
  rewrite (st_bind_Ok _ _ w tt (World (w_rand w) (w_now w + Z.max 0 sleepNs))) by done. simpl FailureRate. simpl ResponseOmissionRate.
  set (w1 := World _ _).
  destruct (failureRate <? 0) eqn:E1; zbool; simpl.
  { unfold bind. by rewrite oneIn_negative. }
  destruct (oneIn_total failureRate w1 E1) as (b & w2 & Eb & Hn & H0 & H1).
  rewrite (st_bind_Ok _ _ _ _ _ Eb).
  destruct (omissionRate <? 0) eqn:E2; zbool.
  { unfold bind. by rewrite oneIn_negative. }
  destruct (oneIn_total omissionRate w2 E2) as (b' & w3 & Eb' & Hn' & H0' & H1').
  rewrite (st_bind_Ok _ _ _ _ _ Eb'). destruct b'.
  - left. split; [done | ]. intros ->. by destruct H0'.
  - right. split; [intros ->; by specialize (H1' eq_refl) | ]. exists b, w3. split; [done | ].
    split; [rewrite Hn', Hn; done | ]. split; [ | done]. intros H0f. by destruct (H0 H0f).
Qed.
