(* ===== verification/Services.v ===== *)
(** * The backend services: [lab1/user_service] and [lab1/video_service]

    Both services answer from a database made up at start, after failure
    injection.  The names and texts come from [gofakeit], a parameter. *)
From Stdlib Require Import String.
From S2P Require Import Prelude Strconv Effects FailureInjection.

Local Open Scope Z_scope.
Local Open Scope st_scope.

(** ** Data of the [proto] packages *)

(** [map<int32, uint64> coeffs]; a nil message reads as the empty map. *)
Definition Coefficients : Type := gmap Z Z.

Record UserInfo := MkUserInfo {
  UserId : Z; Username : bytes; Email : bytes; ProfileUrl : bytes;
  SubscribedTo : list Z; UserCoefficients : Coefficients; LikedVideos : list Z
}.

Record VideoInfo := MkVideoInfo {
  VideoId : Z; Title : bytes; Author : bytes; Url : bytes; VideoCoefficients : Coefficients
}.

Record UserServiceOptions := MkUserServiceOptions {
  us_Seed : Z; us_SleepNs : Z; us_FailureRate : Z; us_ResponseOmissionRate : Z; us_MaxBatchSize : Z
}.

Record VideoServiceOptions := MkVideoServiceOptions {
  vs_Seed : Z; vs_TtlSeconds : Z; vs_SleepNs : Z; vs_FailureRate : Z; vs_ResponseOmissionRate : Z; vs_MaxBatchSize : Z
}.

Definition DefaultUserServiceOptions : UserServiceOptions := MkUserServiceOptions 42 0 0 0 50.
Definition DefaultVideoServiceOptions : VideoServiceOptions := MkVideoServiceOptions 42 60 0 0 0 50.

Definition USER_ID_OFFSET : Z := 200000.
Definition VIDEO_ID_OFFSET : Z := 1000.

(** ** Random data *)

(** The [gofakeit] package: a generator with a state of its own. *)
Class GoFakeIt := {
  fake : Type;
  fake_Seed : Z -> fake;
  fake_Email : fake -> bytes * fake;
  fake_Username : fake -> bytes * fake;
  fake_Name : fake -> bytes * fake;
  fake_AdjectiveDescriptive : fake -> bytes * fake;
  fake_Vegetable : fake -> bytes * fake;
  fake_Animal : fake -> bytes * fake;
  fake_NounUncountable : fake -> bytes * fake;
  fake_AppName : fake -> bytes * fake;
  fake_HackerVerb : fake -> bytes * fake;
  fake_AdverbPlace : fake -> bytes * fake
}.

Section database.
Context `{GoFakeIt}.

(** What [rand.Seed] makes of a seed. *)
Variable source : Z -> rng.

(** The state of the two generators. *)
Definition gen : Type := rng * fake.

Definition rand_Intn (n : Z) : st gen Z := zoom fst (fun r g => (r, g.2)) (Intn n).
Definition faked (f : fake -> bytes * fake) : st gen bytes := fun g => let r := f g.2 in Ok (r.1, (g.1, r.2)).

(** [for i := 0; i < n; i++ { body }] over an accumulator. *)
Fixpoint repeat_st {A} (n : nat) (body : A -> st gen A) (a : A) : st gen A :=
  match n with O => ret a | S n => a <- body a ;; repeat_st n body a end.

Definition random_coeff (coeffs : Coefficients) : st gen Coefficients :=
  feature <- rand_Intn 20 ;; coeff <- rand_Intn 500 ;; ret (<[i32 feature := u64 coeff]> coeffs).

Definition makeRandomUser (userId maxUsers maxVideos : Z) : st gen UserInfo :=
  email <- faked fake_Email ;;
  username <- faked fake_Username ;;
  coeffCount <- rand_Intn 10 ;;
  coeffs <- repeat_st (Z.to_nat (coeffCount + 10)) random_coeff ∅ ;;
  subscribeCount <- rand_Intn 50 ;;
  subscribedTo <- repeat_st (Z.to_nat (subscribeCount + 10)) (fun ids =>
      u <- rand_Intn maxUsers ;;
      let subscribed := u64 (u + USER_ID_OFFSET) in
      ret (if negb (subscribed =? userId) then ids ++ [subscribed] else ids)) [] ;;
  likeCount <- rand_Intn 20 ;;
  liked <- repeat_st (Z.to_nat (likeCount + 5)) (fun ids =>
      v <- rand_Intn maxVideos ;; ret (ids ++ [u64 (v + VIDEO_ID_OFFSET)])) [] ;;
  ret (MkUserInfo userId username email (lit "https://user-service.localhost/profile/" ++ fmt_d userId)
         subscribedTo coeffs liked).

(** [for userId := from; userId < from + n; userId++] *)
Fixpoint add_users (n : nat) (from userCount videoCount : Z) (users : gmap Z UserInfo) : st gen (gmap Z UserInfo) :=
  match n with
  | O => ret users
  | S n =>
      user <- makeRandomUser (u64 from) userCount videoCount ;;
      add_users n (from + 1) userCount videoCount (<[u64 from := user]> users)
  end.

Definition makeRandomUsers : st gen (gmap Z UserInfo) :=
  v <- rand_Intn 500 ;;
  u <- rand_Intn 5000 ;;
  let videoCount := v + 100 in
  let userCount := u + 5000 in
  add_users (Z.to_nat userCount) USER_ID_OFFSET userCount videoCount ∅.

Definition makeRandomVideo (videoId maxVideos : Z) : st gen VideoInfo :=
  titleCase <- rand_Intn 4 ;;
  title <- (if titleCase =? 0 then
              a <- faked fake_AdjectiveDescriptive ;; v <- faked fake_Vegetable ;; ret (a ++ lit " " ++ v)
            else if titleCase =? 1 then
              a <- faked fake_AdjectiveDescriptive ;; b <- faked fake_Animal ;; n <- faked fake_NounUncountable ;;
              ret (lit "The " ++ a ++ lit " " ++ b ++ lit "'s " ++ n)
            else if titleCase =? 2 then
              a <- faked fake_AppName ;; v <- faked fake_HackerVerb ;; ret (a ++ lit ": " ++ v)
            else
              a <- faked fake_AdjectiveDescriptive ;; v <- faked fake_AdverbPlace ;; ret (a ++ lit " " ++ v)) ;;
  author <- faked fake_Name ;;
  coeffCount <- rand_Intn 10 ;;
  coeffs <- repeat_st (Z.to_nat (coeffCount + 10)) random_coeff ∅ ;;
  ret (MkVideoInfo videoId title author (lit "https://video-data.localhost/blob/" ++ fmt_d videoId) coeffs).

(** The loop of [deduplicateIds]: [set] is the map of the ids seen. *)
Fixpoint dedup_loop (ids : list Z) (set : gset Z) (deduped : list Z) : list Z :=
  match ids with
  | [] => deduped
  | id :: ids =>
      if bool_decide (id ∈ set) then dedup_loop ids set deduped
      else dedup_loop ids ({[ id ]} ∪ set) (deduped ++ [id])
  end.
Definition deduplicateIds (ids : list Z) : list Z := dedup_loop ids ∅ [].

Fixpoint add_videos (n : nat) (from videoCount : Z) (videos : gmap Z VideoInfo) : st gen (gmap Z VideoInfo) :=
  match n with
  | O => ret videos
  | S n =>
      video <- makeRandomVideo (u64 from) videoCount ;;
      add_videos n (from + 1) videoCount (<[u64 from := video]> videos)
  end.

Definition makeRandomVideos : st gen (gmap Z VideoInfo * list Z) :=
  v <- rand_Intn 500 ;;
  let videoCount := v + 100 in
  videos <- add_videos (Z.to_nat videoCount) VIDEO_ID_OFFSET videoCount ∅ ;;
  t <- rand_Intn 10 ;;
  topVideos <- repeat_st (Z.to_nat (t + 10)) (fun ids =>
      id <- rand_Intn videoCount ;; ret (ids ++ [u64 (id + VIDEO_ID_OFFSET)])) [] ;;
  ret (videos, deduplicateIds topVideos).

(** ** The servers *)
Record UserServiceServer := MkUserServer {
  us_options : UserServiceOptions; us_fi : FailureInjector; users : gmap Z UserInfo
}.
Record VideoServiceServer := MkVideoServer {
  vs_options : VideoServiceOptions; vs_fi : FailureInjector; videos : gmap Z VideoInfo; topVideos : list Z
}.

(** [rand.Seed] and [gofakeit.Seed], then the database. *)
Definition MakeUserServiceServer (options : UserServiceOptions) : outcome UserServiceServer :=
  let fi := SetInjectionConfig (us_SleepNs options) (us_FailureRate options) (us_ResponseOmissionRate options)
              MakeFailureInjector in
  match makeRandomUsers (source (us_Seed options), fake_Seed (us_Seed options)) with
  | Ok (us, _) => Ok (MkUserServer options fi us)
  | Panic => Panic
  | Block => Block
  end.

Definition MakeVideoServiceServer (options : VideoServiceOptions) : outcome VideoServiceServer :=
  let fi := SetInjectionConfig (vs_SleepNs options) (vs_FailureRate options) (vs_ResponseOmissionRate options)
              MakeFailureInjector in
  match makeRandomVideos (source (vs_Seed options), fake_Seed (vs_Seed options)) with
  | Ok ((vs, top), _) => Ok (MkVideoServer options fi vs top)
  | Panic => Panic
  | Block => Block
  end.
End database.

(** ** The handlers *)
Section handlers.
Implicit Types (us : UserServiceServer) (vs : VideoServiceServer).

Definition error_of {A} (c : code) (m : bytes) : result A := inr (Status c m).

(** [for _, userId := range ids]: the users found, or the first that is not. *)
Fixpoint lookup_users (db : gmap Z UserInfo) (ids : list Z) (found : list UserInfo) : result (list UserInfo) :=
  match ids with
  | [] => inl found
  | id :: ids =>
      match db !! id with
      | Some info => lookup_users db ids (found ++ [info])
      | None => error_of NotFound (lit "UserService: user " ++ fmt_d id ++
          lit " cannot be found, it may have been deleted or never existed in the first place.")
      end
  end.

Definition user_batch_error : bytes := lit "UserService: user_ids exceeded the max batch size ".

Definition GetUser us (userIds : list Z) : st world (result (list UserInfo)) :=
  shouldError <- MaybeInject (us_fi us) ;;
  ret (if shouldError then error_of Internal (lit "UserService: (injected) internal error!")
       else if len userIds =? 0 then
         error_of InvalidArgument (lit "UserService: user_ids in GetUserRequest should not be empty")
       else if us_MaxBatchSize (us_options us) <? len userIds then
         error_of InvalidArgument (user_batch_error ++ fmt_d (us_MaxBatchSize (us_options us)))
       else lookup_users (users us) userIds []).

Definition SetUserInjectionConfig us (config : option InjectionConfig) : outcome UserServiceServer :=
  match config with   (* the log line reads the fields *)
  | Some _ => Ok (MkUserServer (us_options us) (SetInjectionConfigPb config (us_fi us)) (users us))
  | None => Panic
  end.

Fixpoint lookup_videos (db : gmap Z VideoInfo) (ids : list Z) (found : list VideoInfo) : result (list VideoInfo) :=
  match ids with
  | [] => inl found
  | id :: ids =>
      match db !! id with
      | Some info => lookup_videos db ids (found ++ [info])
      | None => error_of NotFound (lit "VideoService: video " ++ fmt_d id ++
          lit " cannot be found, it may have been deleted or never existed in the first place.")
      end
  end.

Definition video_batch_error : bytes := lit "VideoService: video_ids exceeded the max batch size ".

Definition GetVideo vs (videoIds : list Z) : st world (result (list VideoInfo)) :=
  shouldError <- MaybeInject (vs_fi vs) ;;
  ret (if shouldError then error_of Internal (lit "VideoService: (injected) internal error!")
       else if len videoIds =? 0 then
         error_of InvalidArgument (lit "VideoService: video_ids in GetVideoRequest should not be empty")
       else if vs_MaxBatchSize (vs_options vs) <? len videoIds then
         error_of InvalidArgument (video_batch_error ++ fmt_d (vs_MaxBatchSize (vs_options vs)))
       else if negb (len (deduplicateIds videoIds) =? len videoIds) then
         error_of InvalidArgument (lit "VideoService: duplicate IDs found in video_ids")
       else lookup_videos (videos vs) videoIds []).

(** [time.Now().Unix()] of a clock in nanoseconds. *)
Definition Unix (now : Z) : Z := now / 10 ^ 9.

(** The trending ids and when they expire. *)
Definition GetTrendingVideos vs : st world (result (list Z * Z)) :=
  shouldError <- MaybeInject (vs_fi vs) ;;
  now <- gets w_now ;;
  ret (if shouldError then error_of Internal (lit "VideoService: (injected) internal error!")
       else inl (topVideos vs, u64 (Unix now + vs_TtlSeconds (vs_options vs)))).

Definition SetVideoInjectionConfig vs (config : option InjectionConfig) : outcome VideoServiceServer :=
  match config with
  | Some _ => Ok (MkVideoServer (vs_options vs) (SetInjectionConfigPb config (vs_fi vs)) (videos vs) (topVideos vs))
  | None => Panic
  end.
End handlers.

(** ** The mock clients: [user_service/mock_client], [video_service/mock_client]

    They hold a server and call it directly. *)
Section mocks.
Context `{GoFakeIt} (source : Z -> rng).

Record MockUserServiceClient := MkMockUser { u_inMemServer : UserServiceServer }.
Record MockVideoServiceClient := MkMockVideo { v_inMemServer : VideoServiceServer }.

Definition MakeMockUserServiceClient (options : UserServiceOptions) : outcome MockUserServiceClient :=
  MkMockUser <$> MakeUserServiceServer source options.
Definition MakeMockVideoServiceClient (options : VideoServiceOptions) : outcome MockVideoServiceClient :=
  MkMockVideo <$> MakeVideoServiceServer source options.

Definition mock_GetUser (c : MockUserServiceClient) := GetUser (u_inMemServer c).
Definition mock_GetVideo (c : MockVideoServiceClient) := GetVideo (v_inMemServer c).
Definition mock_GetTrendingVideos (c : MockVideoServiceClient) := GetTrendingVideos (v_inMemServer c).
Definition mock_SetUserInjectionConfig (c : MockUserServiceClient) (config : option InjectionConfig) :=
  MkMockUser <$> SetUserInjectionConfig (u_inMemServer c) config.
Definition mock_SetVideoInjectionConfig (c : MockVideoServiceClient) (config : option InjectionConfig) :=
  MkMockVideo <$> SetVideoInjectionConfig (v_inMemServer c) config.
End mocks.
