(* ===== verification/ServicesSpec.v ===== *)
(** * What the backend services answer

    The databases are well-formed and agree with each other; the handlers
    answer every request as documented; ids are deduplicated in order. *)
From Stdlib Require Import String.
From S2P Require Import Prelude Strconv Effects FailureInjection Services.

Local Open Scope Z_scope.
Local Open Scope st_scope.

(** ** Deduplication *)
Section dedup.
Implicit Types ids acc : list Z.

Lemma dedup_loop_spec ids (set : gset Z) acc :
  NoDup acc -> (forall x, x ∈ set <-> x ∈ acc) ->
  NoDup (dedup_loop ids set acc) /\ (forall x, x ∈ dedup_loop ids set acc <-> x ∈ acc \/ x ∈ ids) /\
  exists new, dedup_loop ids set acc = acc ++ new /\ new `sublist_of` ids.
Proof.
  revert set acc. induction ids as [|id ids IH]; intros set acc Hacc Hset; simpl.
  { split; [done | ]. split; [set_solver | ]. exists []. by rewrite app_nil_r. }
  case_bool_decide as Hin.
  - destruct (IH set acc) as (H1 & H2 & new & H3 & H4); [done.. | ]. split; [done | ].
    split; [intros x; rewrite H2, elem_of_cons; set_solver | ]. exists new. split; [done | by constructor].
  - destruct (IH ({[id]} ∪ set) (acc ++ [id])) as (H1 & H2 & new & H3 & H4).
    + apply NoDup_app. split; [done | ]. split; [set_solver | apply NoDup_singleton].
    + intros x. set_solver.
    + split; [done | ]. split; [intros x; rewrite H2; set_solver | ].
      exists (id :: new). rewrite H3, <- app_assoc. split; [done | by constructor].
Qed.

Lemma deduplicateIds_NoDup ids : NoDup (deduplicateIds ids).
Proof. apply (dedup_loop_spec ids ∅ []); [constructor | set_solver]. Qed.

Lemma deduplicateIds_elem ids x : x ∈ deduplicateIds ids <-> x ∈ ids.
Proof.
  destruct (dedup_loop_spec ids ∅ []) as (_ & Hx & _); [constructor | set_solver | ].
  unfold deduplicateIds. rewrite Hx. set_solver.
Qed.

Lemma deduplicateIds_sublist ids : deduplicateIds ids `sublist_of` ids.
Proof.
  destruct (dedup_loop_spec ids ∅ []) as (_ & _ & new & Hn & Hs); [constructor | set_solver | ].
  unfold deduplicateIds. by rewrite Hn.
Qed.

(** The service's test for duplicates is exact. *)
Lemma deduplicateIds_len ids : len (deduplicateIds ids) = len ids <-> NoDup ids.
Proof.
  unfold len. split.
  - intros Hl. assert (Hp : deduplicateIds ids ≡ₚ ids).
    { apply submseteq_length_Permutation; [apply sublist_submseteq, deduplicateIds_sublist | lia]. }
    rewrite <- Hp. apply deduplicateIds_NoDup.
  - intros Hnd. f_equal. apply Permutation_length, NoDup_Permutation; [apply deduplicateIds_NoDup | done | ].
    apply deduplicateIds_elem.
Qed.
End dedup.

(** [deduplicateIds] keeps exactly the distinct ids, in the order of their
    first occurrence, so the length test of [GetVideo] rejects exactly the
    requests that repeat an id. *)
Theorem deduplicateIds_spec (ids : list Z) :
  NoDup (deduplicateIds ids) /\ (forall x, x ∈ deduplicateIds ids <-> x ∈ ids) /\
  deduplicateIds ids `sublist_of` ids /\ (len (deduplicateIds ids) = len ids <-> NoDup ids).
Proof.
  split_and!; [apply deduplicateIds_NoDup | apply deduplicateIds_elem | apply deduplicateIds_sublist | apply deduplicateIds_len].
Qed.

(** ** The databases *)
Section databases.
Context `{GoFakeIt} (source : Z -> rng).

Lemma rand_Intn_total n (g : gen) : 0 < n -> exists v g', rand_Intn n g = Ok (v, g') /\ 0 <= v < n.
Proof.
  intros Hn. unfold rand_Intn, zoom. destruct (Intn_total n g.1 Hn) as (v & r & -> & Hv). eauto.
Qed.

Lemma faked_total f (g : gen) : exists b g', faked f g = Ok (b, g').
Proof. unfold faked. eauto. Qed.

(** A loop whose body is total and keeps an invariant. *)
Lemma repeat_st_total {A} (P : A -> Prop) (body : A -> st gen A) :
  (forall a g, P a -> exists a' g', body a g = Ok (a', g') /\ P a') ->
  forall n a g, P a -> exists a' g', repeat_st n body a g = Ok (a', g') /\ P a'.
Proof.
  intros Hb. induction n as [|n IH]; intros a g Ha; simpl; [by exists a, g | ].
  destruct (Hb a g Ha) as (a' & g' & E & Ha'). rewrite (st_bind_Ok _ _ _ _ _ E). by apply IH.
Qed.

Lemma random_coeffs_total n (g : gen) : exists c g', repeat_st n random_coeff ∅ g = Ok (c, g').
Proof.
  destruct (repeat_st_total (fun _ => True) random_coeff) with (n := n) (a := ∅ : Coefficients) (g := g)
    as (c & g' & E & _); [ | done | by eauto].
  intros a g0 _. unfold random_coeff. destruct (rand_Intn_total 20 g0) as (f & g1 & E1 & _); [lia | ].
  rewrite (st_bind_Ok _ _ _ _ _ E1). destruct (rand_Intn_total 500 g1) as (v & g2 & E2 & _); [lia | ].
  rewrite (st_bind_Ok _ _ _ _ _ E2). by do 2 eexists.
Qed.

(** Run the total computation at the head of the goal. *)
Ltac step_with L := let v := fresh "v" in let g := fresh "g" in let E := fresh "E" in let Hv := fresh "Hv" in
  edestruct L as (v & g & E & Hv); [ .. | rewrite (st_bind_Ok _ _ _ _ _ E); clear E].

Definition id_in (offset n id : Z) : Prop := offset <= id < offset + n.

(** What a user record promises, with [nu] users and [nv] videos. *)
Record user_ok (nu nv id : Z) (u : UserInfo) : Prop := {
  uo_id : UserId u = id;
  uo_subscribed : Forall (fun s => id_in USER_ID_OFFSET nu s /\ s <> id) (SubscribedTo u);
  uo_liked : Forall (id_in VIDEO_ID_OFFSET nv) (LikedVideos u);
  uo_likes : LikedVideos u <> []
}.

Lemma random_ids_total offset n k (keep : Z -> bool) (g : gen) :
  0 < n -> 0 <= offset -> offset + n < 2 ^ 64 ->
  exists ids g', repeat_st k (fun ids => v <- rand_Intn n ;;
      ret (if keep (u64 (v + offset)) then ids ++ [u64 (v + offset)] else ids)) [] g = Ok (ids, g') /\
    Forall (fun id => id_in offset n id /\ keep id = true) ids /\
    ((forall z, keep z = true) -> (0 < k)%nat -> ids <> []).
Proof.
  intros Hn Ho Hb. set (body := (fun ids => v <- rand_Intn n ;;
      ret (if keep (u64 (v + offset)) then ids ++ [u64 (v + offset)] else ids)) : list Z -> st gen (list Z)).
  set (ok := Forall (fun id => id_in offset n id /\ keep id = true)).
  assert (Hbody : forall ids g0, ok ids -> exists ids' g', body ids g0 = Ok (ids', g') /\
    (ok ids' /\ ((forall z, keep z = true) -> ids' <> []))).
  { intros ids g0 Hids. unfold body. step_with rand_Intn_total; [exact Hn | ].
    rewrite u64_small by lia. do 2 eexists. split; [reflexivity | ].
    destruct (keep (v + offset)) eqn:E; [ | split; [done | intros Hk; congruence]].
    split; [ | intros _ Hnil; by apply app_nil in Hnil as [_ ?]].
    apply Forall_app. split; [done | ]. repeat constructor; [unfold id_in; lia.. | done]. }
  destruct k as [|k]; simpl; [do 2 eexists; split; [reflexivity | split; [constructor | lia]] | ].
  destruct (Hbody [] g) as (ids & g1 & E & Hids); [constructor | ]. rewrite (st_bind_Ok _ _ _ _ _ E).
  destruct (repeat_st_total (fun ids => ok ids /\ ((forall z, keep z = true) -> ids <> [])) body) with (n := k) (a := ids) (g := g1)
    as (ids' & g2 & E2 & Hok & Hne); [ | done | ].
  - intros l g0 [Hl _]. by apply Hbody.
  - exists ids', g2. split; [exact E2 | ]. split; [exact Hok | auto].
Qed.

Lemma makeRandomUser_total userId nu nv (g : gen) :
  0 < nu < 2 ^ 32 -> 0 < nv < 2 ^ 32 ->
  exists u g', makeRandomUser userId nu nv g = Ok (u, g') /\ user_ok nu nv userId u.
Proof.
  intros Hu Hv. unfold makeRandomUser.
  destruct (faked_total fake_Email g) as (email & g1 & E). rewrite (st_bind_Ok _ _ _ _ _ E). clear E.
  destruct (faked_total fake_Username g1) as (name & g2 & E). rewrite (st_bind_Ok _ _ _ _ _ E). clear E.
  step_with rand_Intn_total; [lia | ].
  edestruct random_coeffs_total as (cs & g3 & E). rewrite (st_bind_Ok _ _ _ _ _ E). clear E.
  step_with rand_Intn_total; [lia | ].
  destruct (random_ids_total USER_ID_OFFSET nu (Z.to_nat (v0 + 10)) (fun s => negb (s =? userId)) g4)
    as (subs & g5 & E & Hsubs & _); [unfold USER_ID_OFFSET; lia.. | ].
  rewrite (st_bind_Ok _ _ _ _ _ E). clear E.
  step_with rand_Intn_total; [lia | ].
  destruct (random_ids_total VIDEO_ID_OFFSET nv (Z.to_nat (v1 + 5)) (fun _ => true) g6)
    as (liked & g7 & E & Hliked & Hlikes); [unfold VIDEO_ID_OFFSET; lia.. | ].
  rewrite (st_bind_Ok _ _ _ _ _ E). clear E. do 2 eexists. split; [reflexivity | ].
  split; simpl; [done | | | apply Hlikes; [done | lia]].
  - eapply Forall_impl; [exact Hsubs | ]. intros x [? Hx]. split; [done | ]. zbool. done.
  - eapply Forall_impl; [exact Hliked | ]. by intros x [? _].
Qed.

(** Every record of a table satisfies its invariant, and its keys are an
    interval of ids. *)
Definition table_ok {A} (ok : Z -> A -> Prop) (offset n : Z) (t : gmap Z A) : Prop :=
  (forall id, is_Some (t !! id) <-> id_in offset n id) /\ (forall id a, t !! id = Some a -> ok id a).

Lemma table_insert {A} (ok : Z -> A -> Prop) offset k (t : gmap Z A) a :
  0 <= k -> table_ok ok offset k t -> ok (offset + k) a -> table_ok ok offset (k + 1) (<[offset + k := a]> t).
Proof.
  intros Hk [Hdom Hok] Ha. split.
  - intros id. rewrite lookup_insert_is_Some', Hdom. unfold id_in. lia.
  - intros id b [[<- <-] | [_ Hb]]%lookup_insert_Some; [done | by apply Hok].
Qed.

Lemma add_users_total n k nu nv t (g : gen) :
  0 <= k -> k + Z.of_nat n < 2 ^ 32 -> 0 < nu < 2 ^ 32 -> 0 < nv < 2 ^ 32 ->
  table_ok (user_ok nu nv) USER_ID_OFFSET k t ->
  exists t' g', add_users n (USER_ID_OFFSET + k) nu nv t g = Ok (t', g') /\
    table_ok (user_ok nu nv) USER_ID_OFFSET (k + Z.of_nat n) t'.
Proof.
  revert k t g. induction n as [|n IH]; intros k t g Hk Hb Hu Hv Ht; cbn [add_users].
  { do 2 eexists. split; [reflexivity | ]. by rewrite Z.add_0_r. }
  rewrite u64_small by (unfold USER_ID_OFFSET; lia).
  destruct (makeRandomUser_total (USER_ID_OFFSET + k) nu nv g) as (u & g1 & E & Hok); [done.. | ].
  rewrite (st_bind_Ok _ _ _ _ _ E), <- Z.add_assoc.
  destruct (IH (k + 1) (<[USER_ID_OFFSET + k := u]> t) g1) as (t' & g' & E' & Ht'); [lia | lia | done | done | | ].
  - by apply table_insert.
  - exists t', g'. split; [exact E' | ]. replace (k + Z.of_nat (S n)) with (k + 1 + Z.of_nat n) by lia. done.
Qed.

Lemma makeRandomVideo_total videoId nv (g : gen) :
  exists v g', makeRandomVideo videoId nv g = Ok (v, g') /\ VideoId v = videoId.
Proof.
  unfold makeRandomVideo. step_with rand_Intn_total; [lia | ].
  assert (Ht : exists title g1, (if v =? 0 then
      a <- faked fake_AdjectiveDescriptive ;; x <- faked fake_Vegetable ;; ret (a ++ lit " " ++ x)
    else if v =? 1 then
      a <- faked fake_AdjectiveDescriptive ;; b <- faked fake_Animal ;; n <- faked fake_NounUncountable ;;
      ret (lit "The " ++ a ++ lit " " ++ b ++ lit "'s " ++ n)
    else if v =? 2 then
      a <- faked fake_AppName ;; x <- faked fake_HackerVerb ;; ret (a ++ lit ": " ++ x)
    else a <- faked fake_AdjectiveDescriptive ;; x <- faked fake_AdverbPlace ;; ret (a ++ lit " " ++ x)) g0
      = Ok (title, g1)) by (repeat branch; by do 2 eexists).
  destruct Ht as (title & g1 & E). rewrite (st_bind_Ok _ _ _ _ _ E). clear E.
  destruct (faked_total fake_Name g1) as (author & g2 & E). rewrite (st_bind_Ok _ _ _ _ _ E). clear E.
  step_with rand_Intn_total; [lia | ].
  edestruct random_coeffs_total as (cs & g4 & E). rewrite (st_bind_Ok _ _ _ _ _ E). by do 2 eexists.
Qed.

Lemma add_videos_total n k nv t (g : gen) :
  0 <= k -> k + Z.of_nat n < 2 ^ 32 ->
  table_ok (fun id v => VideoId v = id) VIDEO_ID_OFFSET k t ->
  exists t' g', add_videos n (VIDEO_ID_OFFSET + k) nv t g = Ok (t', g') /\
    table_ok (fun id v => VideoId v = id) VIDEO_ID_OFFSET (k + Z.of_nat n) t'.
Proof.
  revert k t g. induction n as [|n IH]; intros k t g Hk Hb Ht; cbn [add_videos].
  { do 2 eexists. split; [reflexivity | ]. by rewrite Z.add_0_r. }
  rewrite u64_small by (unfold VIDEO_ID_OFFSET; lia).
  destruct (makeRandomVideo_total (VIDEO_ID_OFFSET + k) nv g) as (v & g1 & E & Hok).
  rewrite (st_bind_Ok _ _ _ _ _ E), <- Z.add_assoc.
  destruct (IH (k + 1) (<[VIDEO_ID_OFFSET + k := v]> t) g1) as (t' & g' & E' & Ht'); [lia | lia | | ].
  - by apply table_insert.
  - exists t', g'. split; [exact E' | ]. replace (k + Z.of_nat (S n)) with (k + 1 + Z.of_nat n) by lia. done.
Qed.

(** The number of videos a seed gives both services: their first draw. *)
Definition video_count (seed : Z) : Z := first_draw (source seed) mod 500 + 100.

Lemma table_empty {A} (ok : Z -> A -> Prop) offset : table_ok ok offset 0 ∅.
Proof.
  split; [ | by intros id a; rewrite lookup_empty].
  intros id. rewrite lookup_empty. unfold id_in. split; [by intros [? ?] | lia].
Qed.

Lemma MakeUserServiceServer_total options :
  exists db nu, MakeUserServiceServer source options = Ok db /\ us_options db = options /\ 5000 <= nu < 10000 /\
    table_ok (user_ok nu (video_count (us_Seed options))) USER_ID_OFFSET nu (users db).
Proof.
  unfold MakeUserServiceServer, makeRandomUsers.
  set (g := (source (us_Seed options), fake_Seed (us_Seed options))).
  assert (E : rand_Intn 500 g = Ok (first_draw (source (us_Seed options)) mod 500,
    (rest (source (us_Seed options)), fake_Seed (us_Seed options)))) by done.
  rewrite (st_bind_Ok _ _ _ _ _ E). clear E. pose proof (Z.mod_pos_bound (first_draw (source (us_Seed options))) 500).
  step_with rand_Intn_total; [lia | ]. cbn zeta.
  destruct (add_users_total (Z.to_nat (v + 5000)) 0 (v + 5000) (video_count (us_Seed options)) ∅ g0)
    as (t & g' & E & Ht); [lia | lia | lia | unfold video_count; lia | apply table_empty | ].
  rewrite Z.add_0_r in E. unfold video_count in E. rewrite E. do 2 eexists. split; [reflexivity | ].
  split; [done | ]. split; [ | simpl; rewrite Z.add_0_l, Z2Nat.id in Ht by lia; exact Ht]. lia.
Qed.

Lemma MakeVideoServiceServer_total options :
  exists db, MakeVideoServiceServer source options = Ok db /\ vs_options db = options /\
    table_ok (fun id v => VideoId v = id) VIDEO_ID_OFFSET (video_count (vs_Seed options)) (videos db) /\
    NoDup (topVideos db) /\ Forall (id_in VIDEO_ID_OFFSET (video_count (vs_Seed options))) (topVideos db).
Proof.
  unfold MakeVideoServiceServer, makeRandomVideos.
  set (g := (source (vs_Seed options), fake_Seed (vs_Seed options))).
  assert (E : rand_Intn 500 g = Ok (first_draw (source (vs_Seed options)) mod 500,
    (rest (source (vs_Seed options)), fake_Seed (vs_Seed options)))) by done.
  rewrite (st_bind_Ok _ _ _ _ _ E). clear E. pose proof (Z.mod_pos_bound (first_draw (source (vs_Seed options))) 500).
  cbn zeta. fold (video_count (vs_Seed options)). set (n := video_count (vs_Seed options)) in *.
  assert (Hn : 100 <= n < 600) by (unfold n, video_count; lia).
  destruct (add_videos_total (Z.to_nat n) 0 n ∅ (rest (source (vs_Seed options)), fake_Seed (vs_Seed options)))
    as (t & g' & E & Ht); [lia | lia | apply table_empty | ].
  rewrite Z.add_0_r in E. rewrite (st_bind_Ok _ _ _ _ _ E). clear E.
  step_with rand_Intn_total; [lia | ].
  destruct (random_ids_total VIDEO_ID_OFFSET n (Z.to_nat (v + 10)) (fun _ => true) g0)
    as (top & g1 & E & Htop & _); [unfold VIDEO_ID_OFFSET; lia.. | ].
  rewrite (st_bind_Ok _ _ _ _ _ E). clear E. eexists. split; [reflexivity | ]. split; [done | ]. simpl.
  rewrite Z.add_0_l, Z2Nat.id in Ht by lia. split; [done | ]. split; [apply deduplicateIds_NoDup | ].
  apply Forall_forall. intros x Hx. rewrite deduplicateIds_elem in Hx. rewrite Forall_forall in Htop. by destruct (Htop x Hx).
Qed.
End databases.

(** Both services start up for every seed, and their databases are
    consistent: each user is stored under its id and subscribes only to other
    existing users, each video is stored under its id, the trending list has no
    duplicates and names existing videos, and when the two services are started
    with the same seed every video a user likes exists in the video service. *)
Theorem databases_agree `{GoFakeIt} (source : Z -> rng) uopts vopts :
  exists udb vdb, MakeUserServiceServer source uopts = Ok udb /\ MakeVideoServiceServer source vopts = Ok vdb /\
    (forall id u, users udb !! id = Some u ->
       UserId u = id /\ id <> 0 /\
       (forall s, s ∈ SubscribedTo u -> s <> id /\ is_Some (users udb !! s)) /\
       (us_Seed uopts = vs_Seed vopts -> forall v, v ∈ LikedVideos u -> is_Some (videos vdb !! v))) /\
    (forall id v, videos vdb !! id = Some v -> VideoId v = id) /\
    NoDup (topVideos vdb) /\ (forall v, v ∈ topVideos vdb -> is_Some (videos vdb !! v)).
Proof.
  destruct (MakeUserServiceServer_total source uopts) as (udb & nu & Eu & _ & Hnu & Hdu & Hok).
  destruct (MakeVideoServiceServer_total source vopts) as (vdb & Ev & _ & [Hdv Hvid] & Hnd & Htop).
  exists udb, vdb. split; [done | ]. split; [done | ]. split; [ | split; [done | split; [done | ]]].
  - intros id u Hu. destruct (Hok _ _ Hu) as [Hid Hsub Hlik _]. rewrite Forall_forall in Hsub, Hlik.
    split; [done | ]. split.
    { assert (Hid' : is_Some (users udb !! id)) by by exists u. apply Hdu in Hid'. unfold id_in, USER_ID_OFFSET in Hid'. lia. }
    split; [ | intros Hseed v Hv; apply Hdv; rewrite <- Hseed; auto].
    intros s Hs. apply Hsub in Hs as [Hin Hne]. split; [done | by apply Hdu].
  - intros v Hv. apply Hdv. rewrite Forall_forall in Htop. auto.
Qed.

(** ** The handlers *)
Section answers.
(** The records of a list of ids, if the table has all of them. *)
Definition known {A} (db : gmap Z A) (ids : list Z) : option (list A) := mapM (fun id => db !! id) ids.

Lemma lookup_users_spec db ids found :
  match known db ids with
  | Some us => lookup_users db ids found = inl (found ++ us)
  | None => exists id, id ∈ ids /\ db !! id = None /\ lookup_users db ids found =
      error_of NotFound (lit "UserService: user " ++ fmt_d id ++
        lit " cannot be found, it may have been deleted or never existed in the first place.")
  end.
Proof.
  revert found. unfold known. induction ids as [|id ids IH]; intros found; simpl; [by rewrite app_nil_r | ].
  destruct (db !! id) as [u|] eqn:E; simpl; [ | exists id; by split_and!; [left | | ]].
  specialize (IH (found ++ [u])). destruct (mapM _ ids) as [us|]; simpl.
  - by rewrite IH, <- app_assoc.
  - destruct IH as (x & Hx & Hn & ->). exists x. split_and!; [by right | done | done].
Qed.

Lemma lookup_videos_spec db ids found :
  match known db ids with
  | Some vs => lookup_videos db ids found = inl (found ++ vs)
  | None => exists id, id ∈ ids /\ db !! id = None /\ lookup_videos db ids found =
      error_of NotFound (lit "VideoService: video " ++ fmt_d id ++
        lit " cannot be found, it may have been deleted or never existed in the first place.")
  end.
Proof.
  revert found. unfold known. induction ids as [|id ids IH]; intros found; simpl; [by rewrite app_nil_r | ].
  destruct (db !! id) as [u|] eqn:E; simpl; [ | exists id; by split_and!; [left | | ]].
  specialize (IH (found ++ [u])). destruct (mapM _ ids) as [us|]; simpl.
  - by rewrite IH, <- app_assoc.
  - destruct IH as (x & Hx & Hn & ->). exists x. split_and!; [by right | done | done].
Qed.

Lemma len_0_nil {A} (l : list A) : (len l =? 0) = bool_decide (l = []).
Proof. by destruct l. Qed.

(** The requests a service accepts, in terms of its batch limit. *)
Definition acceptable (max : Z) (ids : list Z) : Prop := ids <> [] /\ len ids <= max.
End answers.

(** [GetUser], past failure injection: it succeeds exactly when the request
    is not empty, is within the batch limit and names known users only, and
    then answers the records of those users in the order of the request; an
    oversized request is refused with a message from which the limit can be
    scanned back; an injected failure is an [Internal] error whatever the
    request. *)
Theorem GetUser_spec us ids w injected w' :
  MaybeInject (us_fi us) w = Ok (injected, w') -> 0 <= us_MaxBatchSize (us_options us) < 2 ^ 63 ->
  exists r, GetUser us ids w = Ok (r, w') /\
    (injected = true -> exists m, r = inr (Status Internal m)) /\
    (injected = false ->
       (forall infos, r = inl infos <->
          acceptable (us_MaxBatchSize (us_options us)) ids /\ known (users us) ids = Some infos) /\
       (us_MaxBatchSize (us_options us) < len ids -> exists m, r = inr (Status InvalidArgument m) /\
          Sscanf_d user_batch_error m = Some (us_MaxBatchSize (us_options us))) /\
       (acceptable (us_MaxBatchSize (us_options us)) ids -> known (users us) ids = None ->
          exists m, r = inr (Status NotFound m))).
Proof.
  intros Hi Hmax. unfold GetUser, acceptable. rewrite (st_bind_Ok _ _ _ _ _ Hi). eexists. split; [reflexivity | ].
  pose proof (lookup_users_spec (users us) ids []) as Hl.
  split; intros ->; [by eexists | ]. rewrite len_0_nil. case_bool_decide as He.
  { subst. split_and!; [ | intros Hlt; exfalso; change (len (@nil Z)) with 0 in Hlt; lia | naive_solver].
    intros infos. split; [done | ]. by intros [[? _] _]. }
  branch.
  - split_and!; [ | | intros; exfalso; lia].
    + intros infos. split; [done | ]. intros [[_ ?] _]. lia.
    + intros _. eexists. split; [reflexivity | ]. by apply Sscanf_Sprintf.
  - destruct (known (users us) ids) as [us'|].
    + rewrite Hl. split_and!; [ | intros; exfalso; lia | naive_solver]. intros infos. split; [intros [=]; naive_solver | naive_solver].
    + destruct Hl as (id & _ & _ & ->). split_and!; [ | intros; exfalso; lia | intros _ _; by eexists]. intros infos. naive_solver.
Qed.

(** [GetVideo], past failure injection: as [GetUser], and a request that
    repeats an id is refused as well. *)
Theorem GetVideo_spec vs ids w injected w' :
  MaybeInject (vs_fi vs) w = Ok (injected, w') -> 0 <= vs_MaxBatchSize (vs_options vs) < 2 ^ 63 ->
  exists r, GetVideo vs ids w = Ok (r, w') /\
    (injected = true -> exists m, r = inr (Status Internal m)) /\
    (injected = false ->
       (forall infos, r = inl infos <->
          acceptable (vs_MaxBatchSize (vs_options vs)) ids /\ NoDup ids /\ known (videos vs) ids = Some infos) /\
       (vs_MaxBatchSize (vs_options vs) < len ids -> exists m, r = inr (Status InvalidArgument m) /\
          Sscanf_d video_batch_error m = Some (vs_MaxBatchSize (vs_options vs)))).
Proof.
  intros Hi Hmax. unfold GetVideo, acceptable. rewrite (st_bind_Ok _ _ _ _ _ Hi). eexists. split; [reflexivity | ].
  pose proof (lookup_videos_spec (videos vs) ids []) as Hl.
  split; intros ->; [by eexists | ]. rewrite len_0_nil. case_bool_decide as He.
  { subst. split; [ | intros Hlt; exfalso; change (len (@nil Z)) with 0 in Hlt; lia]. intros infos. split; [done | ]. by intros [[? _] _]. }
  branch.
  - split.
    + intros infos. split; [done | ]. intros [[_ ?] _]. lia.
    + intros _. eexists. split; [reflexivity | ]. by apply Sscanf_Sprintf.
  - split; [ | intros; exfalso; lia]. pose proof (deduplicateIds_len ids) as Hd.
    destruct (len (deduplicateIds ids) =? len ids) eqn:Ed; zbool; simpl.
    + destruct (known (videos vs) ids) as [us'|].
      * rewrite Hl. intros infos. split; [intros [=]; naive_solver | naive_solver].
      * destruct Hl as (id & _ & _ & ->). naive_solver.
    + intros infos. split; [done | ]. intros (_ & Hnd & _). by apply Hd in Hnd.
Qed.

Section witness.
Definition example_user : UserInfo := MkUserInfo 7 [] [] [] [8] ∅ [1000].
Definition example_user_server : UserServiceServer :=
  MkUserServer DefaultUserServiceOptions MakeFailureInjector {[ 7 := example_user ]}.
Definition example_video : VideoInfo := MkVideoInfo 1000 [] [] [] ∅.
Definition example_video_server : VideoServiceServer :=
  MkVideoServer DefaultVideoServiceOptions MakeFailureInjector {[ 1000 := example_video ]} [1000].
Definition example_world : world := World (Rng (fun _ => 0) 0) 0.

Lemma GetUser_spec_witness :
  exists r, GetUser example_user_server [7; 7] example_world = Ok (r, example_world) /\
    r = inl [example_user; example_user].
Proof.
  destruct (GetUser_spec example_user_server [7; 7] example_world false example_world) as (r & E & _ & Hr);
    [reflexivity | vm_compute; intuition congruence | ].
  exists r. split; [exact E | ]. apply Hr; [reflexivity | ]. split; [ | reflexivity].
  split; [done | vm_compute; congruence].
Defined.

Lemma GetVideo_spec_witness :
  exists r, GetVideo example_video_server [1000] example_world = Ok (r, example_world) /\ r = inl [example_video].
Proof.
  destruct (GetVideo_spec example_video_server [1000] example_world false example_world) as (r & E & _ & Hr);
    [reflexivity | vm_compute; intuition congruence | ].
  exists r. split; [exact E | ]. apply Hr; [reflexivity | ]. split; [ | split; [apply NoDup_singleton | reflexivity]].
  split; [done | vm_compute; congruence].
Defined.
End witness.
