(* ===== verification/VideoRec.v ===== *)
(** * The recommendation service of lab 1:
      [lab1/video_rec_service/server_lib/server_lib.go]

    [GetTopVideos] asks the user service for a user and the users it subscribes
    to, in batches run by one goroutine each, collects the videos they like,
    asks the video service for them, again in batches, and ranks them.  Errors
    are retried once, and may be answered from a cache of trending videos that
    a background goroutine refreshes.

    The services behind the two clients, the clock and the network are a
    [Backend].  The goroutines of a group of batches run in an order a
    [schedule] picks, each to its end: they share only atomic counters, a slice
    under a mutex and buffered channels with room for one message each. *)
From Stdlib Require Import String.
From S2P Require Import Prelude Strconv Effects Services.

Local Open Scope Z_scope.
Local Open Scope st_scope.

(** ** What the service calls *)

(** [ranker.Ranker]. *)
Class Ranker := Rank : Coefficients -> Coefficients -> Z.

(** A client is the mock or a connection. *)
Inductive client {conn : Type} := MockClient | ConnClient (c : conn).
Arguments client : clear implicits.

(** The [grpc] package, the services reached through it, and the clock in
    nanoseconds; a call is given the deadline of its context. *)
Class Backend (S : Type) := {
  conn : Type;
  NewClient : bytes -> st S (result conn);
  call_GetUser : client conn -> Z -> list Z -> st S (result (list UserInfo));
  call_GetVideo : client conn -> Z -> list Z -> st S (result (list VideoInfo));
  call_GetTrendingVideos : client conn -> Z -> st S (result (list Z * Z));
  clock : S -> Z;
  time_Sleep : Z -> st S unit;
  error_string : error -> bytes   (* %v *)
}.

(** The [tdigest] package, and floating-point conversions. *)
Class TDigest := {
  tdigest : Type;
  float : Type;
  td_New : Z -> tdigest;
  td_Add : Z -> tdigest -> tdigest;
  td_Quantile99 : tdigest -> float;
  float32_of : Z -> float
}.

(** ** State *)
Record VideoRecServiceOptions := MkOptions {
  UserServiceAddr : bytes; VideoServiceAddr : bytes; MaxBatchSize : Z; DisableFallback : bool; DisableRetry : bool
}.

(** The [*uint64] fields of the server. *)
Inductive counter :=
  | UserServiceMaxBatchSize | VideoServiceMaxBatchSize
  | TotalRequests | TotalErrors | ActiveRequests | UserServiceErrors | VideoServiceErrors
  | TotalSumLatencyMs | StaleResponses.

#[export] Instance counter_eq_dec : EqDecision counter.
Proof. solve_decision. Defined.

(** A slice of videos is built by [append] from nil, so it is nil exactly when
    it is empty. *)
Record VideoRecServiceServer `{TDigest} := MkServer {
  options : VideoRecServiceOptions;
  counters : counter -> Z;
  isMock : bool;
  td : tdigest;
  TrendingCache : list VideoInfo;
  cacheExpirationTime : Z
}.

Record GetTopVideosResponse := MkResponse { Videos : list VideoInfo; StaleResponse : bool }.

(** What a batch goroutine leaves behind: what it appended, the cached videos
    it sent, and what it sent on the error channel ([Some None] is nil). *)
Record batch_out (A : Type) := BatchOut {
  appended : list A; cache_msg : option (list VideoInfo); err_msg : option (option error)
}.
Arguments BatchOut {A}.
Arguments appended {A}.
Arguments cache_msg {A}.
Arguments err_msg {A}.

(** The order in which the goroutines of a group run, and whether a [select]
    that finds both a cached answer and the end of the group takes the former. *)
Record schedule := MkSchedule { run_order : nat -> list nat; take_cached : bool }.

Definition seconds : Z := 10 ^ 9.
Definition milliseconds : Z := 10 ^ 6.

Section server.
Context {S : Type} `{Backend S} `{TDigest} `{Ranker}.

Record env := Env { srv : VideoRecServiceServer; outer : S }.

Definition set_srv (s : VideoRecServiceServer) (e : env) : env := Env s (outer e).
Definition call {A} (m : st S A) : st env A := zoom outer (fun o e => Env (srv e) o) m.
Definition now : st env Z := gets (fun e => clock (outer e)).
Definition option_is (f : VideoRecServiceOptions -> bool) : st env bool := gets (fun e => f (options (srv e))).

(** [atomic.AddUint64], [atomic.LoadUint64]. *)
Definition AddUint64 (c : counter) (d : Z) : st env unit := modify (fun e =>
  let s := srv e in
  set_srv (MkServer _ (options s) (fun k => if decide (k = c) then u64 (counters s k + d) else counters s k)
             (isMock s) (td s) (TrendingCache s) (cacheExpirationTime s)) e).
Definition LoadUint64 (c : counter) : st env Z := gets (fun e => counters (srv e) c).

Definition set_td (t : tdigest) : st env unit := modify (fun e =>
  let s := srv e in
  set_srv (MkServer _ (options s) (counters s) (isMock s) t (TrendingCache s) (cacheExpirationTime s)) e).
Definition set_cache (vs : list VideoInfo) : st env unit := modify (fun e =>
  let s := srv e in
  set_srv (MkServer _ (options s) (counters s) (isMock s) (td s) vs (cacheExpirationTime s)) e).
Definition set_expiration (t : Z) : st env unit := modify (fun e =>
  let s := srv e in
  set_srv (MkServer _ (options s) (counters s) (isMock s) (td s) (TrendingCache s) t) e).

(** [context.WithTimeout(context.Background(), d)], as the deadline it sets,
    and [ctx.Err() == context.DeadlineExceeded]. *)
Definition WithTimeout (d : Z) : st env Z := t <- now ;; ret (t + d).
Definition expired (deadline : Z) : st env bool := t <- now ;; ret (deadline <=? t).

(** ** Construction *)
Definition initial_counters (c : counter) : Z :=
  match c with UserServiceMaxBatchSize | VideoServiceMaxBatchSize => 1 | _ => 0 end.

(** The two probing goroutines it starts are [UpdateUserServiceMaxBatchSize]
    and [UpdateVideoServiceMaxBatchSize] below. *)
Definition MakeVideoRecServiceServer (opts : VideoRecServiceOptions) : VideoRecServiceServer :=
  MkServer _ opts initial_counters false (td_New 10000) [] 0.
Definition MakeVideoRecServiceServerWithMocks (opts : VideoRecServiceOptions) : VideoRecServiceServer :=
  MkServer _ opts initial_counters true (td_New 10000) [] 0.

(** The log lines for the two kinds of errors aside, errors are returned as
    they are. *)
Definition ConnectClient (target : Z) : st env (result conn) :=
  opts <- gets (fun e => options (srv e)) ;;
  if target =? 0 then call (NewClient (UserServiceAddr opts))
  else if target =? 1 then call (NewClient (VideoServiceAddr opts))
  else ret (inr (Status InvalidArgument (lit "Invalid target argument"))).

(** ** The cache *)
Definition GetCachedVideos (requestLimit : Z) : st env (list VideoInfo) :=
  vids <- gets (fun e => TrendingCache (srv e)) ;;
  if (0 <? requestLimit) && (requestLimit <=? i32 (len vids)) then lift (slice_to vids requestLimit) else ret vids.

(** The batch of ids goroutine [i] of [n + 1] asks for, none when the last one
    would be empty. *)
Definition batch_ids (ids : list Z) (max n i : Z) : st env (option (list Z)) :=
  if i =? n then
    r <- lift (go_rem (len ids) max) ;;
    if negb (r =? 0) then b <- lift (slice_from ids (i * max)) ;; ret (Some b) else ret None
  else b <- lift (slice ids (i * max) ((i + 1) * max)) ;; ret (Some b).

Definition get_video_failed (e : error) : error :=
  Status Unavailable (lit "GetTopVideos: GetVideo failed: " ++ error_string e).

(** A goroutine of [UpdateCache]. *)
Definition cache_batch (c : client conn) (ctx : Z) (ids : list Z) (max n : Z) (i : nat) : st env (batch_out VideoInfo) :=
  b <- batch_ids ids max n (Z.of_nat i) ;;
  match b with
  | None => ret (BatchOut [] None (Some None))
  | Some b =>
      r <- call (call_GetVideo c ctx b) ;;
      match r with
      | inl vs => ret (BatchOut vs None (Some None))
      | inr err =>
          AddUint64 VideoServiceErrors 1 ;;;
          no_retry <- option_is DisableRetry ;;
          if negb no_retry then
            r <- call (call_GetVideo c ctx b) ;;
            match r with
            | inl vs => ret (BatchOut vs None (Some None))
            | inr err =>
                AddUint64 TotalErrors 1 ;;; AddUint64 VideoServiceErrors 1 ;;;
                ret (BatchOut [] None (Some (Some (get_video_failed err))))
            end
          else
            AddUint64 TotalErrors 1 ;;; ret (BatchOut [] None (Some (Some (get_video_failed err))))
      end
  end.

(** Run the goroutines of a group one after the other. *)
Fixpoint run_batches {A} (order : list nat) (body : nat -> st env (batch_out A)) : st env (list (batch_out A)) :=
  match order with
  | [] => ret []
  | i :: order => o <- body i ;; os <- run_batches order body ;; ret (o :: os)
  end.

Definition all_appended {A} (os : list (batch_out A)) : list A := concat (map appended os).

(** The first error sent, in the order of the sends. *)
Fixpoint first_error {A} (os : list (batch_out A)) : option error :=
  match os with
  | [] => None
  | o :: os => match err_msg o with Some (Some e) => Some e | _ => first_error os end
  end.

Definition no_trending_ids : error := Status Unavailable (lit "fail to fetch video ids for trending videos").

(** The trending ids, with the context the later calls use. *)
Definition fetch_trending (c : client conn) : st env ((Z * list Z * Z) + error) :=
  ctx <- WithTimeout (10 * seconds) ;;
  r <- call (call_GetTrendingVideos c ctx) ;;
  match r with
  | inl (ids, exp) => ret (inl (ctx, ids, exp))
  | inr _ =>
      AddUint64 VideoServiceErrors 1 ;;;
      no_retry <- option_is DisableRetry ;;
      if negb no_retry then
        ctx <- WithTimeout (10 * seconds) ;;
        r <- call (call_GetTrendingVideos c ctx) ;;
        match r with
        | inl (ids, exp) => ret (inl (ctx, ids, exp))
        | inr _ => AddUint64 TotalErrors 1 ;;; AddUint64 VideoServiceErrors 1 ;;; ret (inr no_trending_ids)
        end
      else AddUint64 TotalErrors 1 ;;; ret (inr no_trending_ids)
  end.

Definition UpdateCache (sched : schedule) (c : client conn) (maxBatchSize : Z) : st env (option error) :=
  t <- fetch_trending c ;;
  match t with
  | inr e => ret (Some e)
  | inl (ctx, videoIds, exp) =>
      let expirationTime := i64 exp in
      batchLoopVideo <- lift (go_quot (len videoIds) maxBatchSize) ;;
      os <- run_batches (run_order sched (Z.to_nat (batchLoopVideo + 1)))
              (cache_batch c ctx videoIds maxBatchSize batchLoopVideo) ;;
      let videosInfo := all_appended os in
      cached <- gets (fun e => TrendingCache (srv e)) ;;
      old <- gets (fun e => cacheExpirationTime (srv e)) ;;
      match first_error os with
      | Some e =>
          (if (len cached =? 0) && negb (len videosInfo =? 0) then set_cache videosInfo else ret tt) ;;;
          ret (Some e)
      | None =>
          (if old <? expirationTime then set_cache videosInfo ;;; set_expiration expirationTime else ret tt) ;;;
          ret None
      end
  end.

(** [time.Duration(cacheExpirationTime - UnixNano/1e9) * time.Millisecond]: it
    counts a millisecond for each second left. *)
Definition time_until_expiration : st env Z :=
  exp <- gets (fun e => cacheExpirationTime (srv e)) ;;
  t <- now ;;
  ret (i64 (i64 (exp - Z.quot t (1000 * milliseconds)) * milliseconds)).

(** The client of the refreshing goroutine. *)
Definition refresh_client : st env (option (client conn) * option error) :=
  mock <- gets (fun e => isMock (srv e)) ;;
  if mock : bool then ret (Some MockClient, None)
  else
    r <- ConnectClient 1 ;;
    match r with
    | inl c => ret (Some (ConnClient c), None)
    | inr err =>
        AddUint64 VideoServiceErrors 1 ;;;
        no_retry <- option_is DisableRetry ;;
        if negb no_retry then
          r <- ConnectClient 1 ;;
          match r with
          | inl c => ret (Some (ConnClient c), None)
          | inr err => AddUint64 TotalErrors 1 ;;; AddUint64 VideoServiceErrors 1 ;;; ret (None, Some err)
          end
        else AddUint64 TotalErrors 1 ;;; ret (None, Some err)
    end.

(** One turn of the loop of [ContinuallyRefreshCache]: from the client so far
    to the client for the next turn. *)
Definition refresh_turn (sched : schedule) (videoClient : option (client conn)) : st env (option (client conn)) :=
  maxBatchSize <- LoadUint64 VideoServiceMaxBatchSize ;;
  let* (videoClient, err) :=
    match videoClient with Some c => ret (Some c, None) | None => refresh_client end in
  err <- match videoClient with
         | None => ret err
         | Some c =>
             left <- time_until_expiration ;;
             if left <? 30 * milliseconds then
               err <- UpdateCache sched c (i64 maxBatchSize) ;;
               match err with
               | None =>
                   next <- time_until_expiration ;;
                   let sleepDuration := i64 (i64 (next - 100) * 10) in
                   (if 0 <? sleepDuration then call (time_Sleep sleepDuration)
                    else call (time_Sleep (i64 (- sleepDuration)))) ;;;
                   ret None
               | Some e => ret (Some e)
               end
             else
               let sleepDuration := i64 (i64 (left - 100) * 10) in
               (if 0 <? sleepDuration then call (time_Sleep sleepDuration) else ret tt) ;;;
               ret err
         end ;;
  match err with Some _ => call (time_Sleep (10 * seconds)) | None => ret tt end ;;;
  ret videoClient.

Fixpoint refresh_loop (sched : schedule) (turns : nat) (videoClient : option (client conn)) : st env unit :=
  match turns with
  | O => ret tt
  | Datatypes.S turns => c <- refresh_turn sched videoClient ;; refresh_loop sched turns c
  end.

(** [ContinuallyRefreshCache], for a number of turns. *)
Definition ContinuallyRefreshCache (sched : schedule) (turns : nat) : st env unit :=
  disabled <- option_is DisableFallback ;;
  if disabled : bool then ret tt else refresh_loop sched turns None.
End server.
Arguments env : clear implicits.
Arguments env S {_}.
