(* ===== verification/VideoRecTop.v ===== *)
(** * Requests of the recommendation service of lab 1

    The probes of the services' batch limits, the ranking of videos,
    [GetTopVideos] stage by stage, and [GetStats], of
    [lab1/video_rec_service/server_lib/server_lib.go]. *)
From Stdlib Require Import String.
From S2P Require Import Prelude Strconv Effects Services VideoRec.

Local Open Scope Z_scope.
Local Open Scope st_scope.

Section requests.
Context {S : Type} `{Backend S} `{TDigest} `{Ranker}.
Abbreviation env := (env S).

(** ** The probes of the batch limits *)

(** [for { conn, err = ConnectClient(target); if err == nil break; sleep }] *)
Fixpoint connect_loop (fuel : nat) (target pause : Z) : st env (option conn) :=
  match fuel with
  | O => ret None
  | Datatypes.S fuel =>
      r <- ConnectClient target ;;
      match r with
      | inl c => ret (Some c)
      | inr _ => call (time_Sleep pause) ;;; connect_loop fuel target pause
      end
  end.

Definition probe_client (fuel : nat) (target pause : Z) : st env (option (client conn)) :=
  mock <- gets (fun e => isMock (srv e)) ;;
  if mock : bool then ret (Some MockClient)
  else c <- connect_loop fuel target pause ;; ret (ConnClient <$> c).

(** What one answer to a probe of size [highest] says: [None] to try again,
    [Some None] to leave the limit, [Some (Some n)] to add [n] to it. *)
Definition probe_answer {A} (prefix : bytes) (highest : Z) (r : result A) : option (option Z) :=
  match r with
  | inl _ => Some (Some (Z.max 0 (highest - 1)))
  | inr e =>
      match FromError e with
      | Some (InvalidArgument, message) =>
          Some (match Sscanf_d prefix message with Some lowest => Some (Z.max 0 (lowest - 1)) | None => None end)
      | Some (NotFound, _) => Some (Some (Z.max 0 (highest - 1)))
      | _ => None
      end
  end.

(** The probing loop; false when the fuel ran out. *)
Fixpoint probe_loop {A} (fuel : nat) (limit : counter) (prefix : bytes) (highest : Z) (ask : st env (result A))
    : st env bool :=
  match fuel with
  | O => ret false
  | Datatypes.S fuel =>
      r <- ask ;;
      match probe_answer prefix highest r with
      | Some (Some n) => AddUint64 limit n ;;; ret true
      | Some None => ret true
      | None => call (time_Sleep (100 * milliseconds)) ;;; probe_loop fuel limit prefix highest ask
      end
  end.

Definition UpdateUserServiceMaxBatchSize (fuel : nat) : st env bool :=
  c <- probe_client fuel 0 (100 * milliseconds) ;;
  match c with
  | None => ret false
  | Some c =>
      highest <- gets (fun e => MaxBatchSize (options (srv e))) ;;
      if highest <? 1 then ret true
      else
        let temp := replicate (Z.to_nat highest) 204054 in
        ctx <- WithTimeout (10 * seconds) ;;
        probe_loop fuel UserServiceMaxBatchSize (lit "UserService: user_ids exceeded the max batch size ") highest
          (call (call_GetUser c ctx temp))
  end.

Definition UpdateVideoServiceMaxBatchSize (fuel : nat) : st env bool :=
  c <- probe_client fuel 1 (10 * milliseconds) ;;
  match c with
  | None => ret false
  | Some c =>
      highest <- gets (fun e => MaxBatchSize (options (srv e))) ;;
      if highest <? 1 then ret true
      else
        let temp := map (fun i => 1300 + Z.of_nat i) (seq 0 (Z.to_nat highest)) in
        ctx <- WithTimeout (10 * seconds) ;;
        probe_loop fuel VideoServiceMaxBatchSize (lit "VideoService: video_ids exceeded the max batch size ") highest
          (call (call_GetVideo c ctx temp))
  end.

(** ** Ranking *)

(** Insert a video that comes before those of [l] in the input: before the
    first one that is not ranked strictly higher. *)
Fixpoint insert_ranked (rank : VideoInfo -> Z) (v : VideoInfo) (l : list VideoInfo) : list VideoInfo :=
  match l with
  | [] => [v]
  | w :: l' => if rank v <? rank w then w :: insert_ranked rank v l' else v :: l
  end.

(** [sort.SliceStable] by decreasing rank. *)
Definition sort_ranked (rank : VideoInfo -> Z) (l : list VideoInfo) : list VideoInfo :=
  foldr (insert_ranked rank) [] l.

Definition rankVideos (userCoeff : Coefficients) (videos : list VideoInfo) (limit : Z) : st env (list VideoInfo) :=
  let ranked := sort_ranked (fun v => Rank userCoeff (VideoCoefficients v)) videos in
  if (0 <? limit) && (limit <=? i32 (len ranked)) then lift (slice_to ranked limit) else ret ranked.

(** ** Answers from the cache *)
Definition reply : Type := result GetTopVideosResponse.
Definition stale (vs : list VideoInfo) : reply := inl (MkResponse vs true).

(** The cached videos, when fallback is enabled and there are some. *)
Definition fallback (limit : Z) : st env (option (list VideoInfo)) :=
  disabled <- option_is DisableFallback ;;
  if negb disabled then
    cached <- GetCachedVideos limit ;;
    ret (match cached with [] => None | _ => Some cached end)
  else ret None.

(** The fragment with which failures before the user is known end. *)
Definition serve_cached (limit : Z) (otherwise : reply) : st env reply :=
  cached <- fallback limit ;;
  match cached with
  | Some vs => AddUint64 StaleResponses 1 ;;; ret (stale vs)
  | None => ret otherwise
  end.

(** And after it is known: the cached videos are ranked for the user. *)
Definition serve_ranked_cached (uc : Coefficients) (limit : Z) (otherwise : reply) : st env reply :=
  cached <- fallback limit ;;
  match cached with
  | Some vs => AddUint64 StaleResponses 1 ;;; ranked <- rankVideos uc vs limit ;; ret (stale ranked)
  | None => ret otherwise
  end.

Definition deadlineExc (limit : Z) : st env reply :=
  serve_cached limit (inr (Status DeadlineExceeded (lit "GetTopVideos: deadline exceeded"))).

(** ** [GetTopVideos]

    A stage either goes on with a value or ends the request with a reply. *)
Definition stage (A : Type) : Type := st env (A + reply).
Definition proceed {A} (a : A) : stage A := ret (inl a).
Definition finish {A} (r : reply) : stage A := ret (inr r).
Definition finish_with {A} (m : st env reply) : stage A := r <- m ;; finish r.
Definition then_ {A B} (m : stage A) (k : A -> stage B) : stage B :=
  r <- m ;; match r with inl a => k a | inr r => finish r end.

Definition both_errors (service : counter) : st env unit := AddUint64 TotalErrors 1 ;;; AddUint64 service 1.

(** The client of the user service. *)
Definition user_client (limit : Z) : stage (client conn) :=
  mock <- gets (fun e => isMock (srv e)) ;;
  if mock : bool then proceed MockClient
  else
    r <- ConnectClient 0 ;;
    match r with
    | inl c => proceed (ConnClient c)
    | inr err =>
        AddUint64 UserServiceErrors 1 ;;;
        no_retry <- option_is DisableRetry ;;
        if negb no_retry then
          r <- ConnectClient 0 ;;
          match r with
          | inl c => proceed (ConnClient c)
          | inr err => both_errors UserServiceErrors ;;; finish_with (serve_cached limit (inr err))
          end
        else
          cached <- fallback limit ;;
          match cached with
          | Some vs => AddUint64 StaleResponses 1 ;;; finish (stale vs)
          | None => AddUint64 TotalErrors 1 ;;; finish (inr err)
          end
    end.

Definition invalid_user_id : reply := inr (Status InvalidArgument (lit "GetTopVideos: invalid user ID")).

Definition get_user_error (err : error) : reply :=
  match FromError err with
  | Some _ => inr err
  | None => inr (Status Internal (lit "GetTopVideos: GetUser failed"))
  end.

(** The record of the user the request names. *)
Definition fetch_subscriber (c : client conn) (ctx userId limit : Z) : stage (list UserInfo) :=
  if userId =? 0 then AddUint64 TotalErrors 1 ;;; finish_with (serve_cached limit invalid_user_id)
  else
    r <- call (call_GetUser c ctx [userId]) ;;
    match r with
    | inl us => proceed us
    | inr err =>
        AddUint64 UserServiceErrors 1 ;;;
        late <- expired ctx ;;
        if late : bool then both_errors UserServiceErrors ;;; finish_with (deadlineExc limit)
        else
          no_retry <- option_is DisableRetry ;;
          if negb no_retry then
            r <- call (call_GetUser c ctx [userId]) ;;
            match r with
            | inl us => proceed us
            | inr err =>
                both_errors UserServiceErrors ;;;
                late <- expired ctx ;;
                if late : bool then both_errors UserServiceErrors ;;; finish_with (deadlineExc limit)
                else finish_with (serve_cached limit (get_user_error err))
            end
          else AddUint64 TotalErrors 1 ;;; finish_with (serve_cached limit (get_user_error err))
    end.

Definition empty_reply : reply := inl (MkResponse [] false).

(** How a goroutine whose calls failed ends: with cached videos if it may and
    can, silently if it may but cannot, with the error if it may not. *)
Definition batch_failed {A} (limit : Z) (err : error) : st env (batch_out A) :=
  disabled <- option_is DisableFallback ;;
  if negb disabled then
    cached <- GetCachedVideos limit ;;
    ret (BatchOut [] (match cached with [] => None | _ => Some cached end) None)
  else ret (BatchOut [] None (Some (Some err))).

Definition get_users_failed (e : error) : error :=
  Status Unavailable (lit "GetTopVideos: GetUser call failed: " ++ error_string e).

(** A goroutine that fetches subscribed-to users. *)
Definition user_batch (c : client conn) (ctx limit : Z) (ids : list Z) (max n : Z) (i : nat) : st env (batch_out UserInfo) :=
  b <- batch_ids ids max n (Z.of_nat i) ;;
  match b with
  | None => ret (BatchOut [] None (Some None))
  | Some b =>
      r <- call (call_GetUser c ctx b) ;;
      match r with
      | inl us => ret (BatchOut us None (Some None))
      | inr err =>
          AddUint64 UserServiceErrors 1 ;;;
          no_retry <- option_is DisableRetry ;;
          if negb no_retry then
            r <- call (call_GetUser c ctx b) ;;
            match r with
            | inl us => ret (BatchOut us None (Some None))
            | inr err => AddUint64 UserServiceErrors 1 ;;; batch_failed limit (get_users_failed err)
            end
          else batch_failed limit (get_users_failed err)
      end
  end.

(** The first cached videos sent, and the first message of the error channel. *)
Fixpoint first_cached {A} (os : list (batch_out A)) : option (list VideoInfo) :=
  match os with [] => None | o :: os => match cache_msg o with Some vs => Some vs | None => first_cached os end end.
Fixpoint first_message {A} (os : list (batch_out A)) : option (option error) :=
  match os with [] => None | o :: os => match err_msg o with Some m => Some m | None => first_message os end end.

(** The two [select]s after a group of goroutines. *)
Definition wait_batches {A} (sched : schedule) (uc : Coefficients) (limit : Z) (os : list (batch_out A)) : stage (list A) :=
  match first_cached os with
  | Some cached =>
      if take_cached sched : bool then
        AddUint64 StaleResponses 1 ;;; AddUint64 TotalErrors 1 ;;;
        ranked <- rankVideos uc cached limit ;; finish (stale ranked)
      else
        match first_message os with
        | Some (Some err) => AddUint64 TotalErrors 1 ;;; finish (inr err)
        | _ => proceed (all_appended os)
        end
  | None =>
      match first_message os with
      | Some (Some err) => AddUint64 TotalErrors 1 ;;; finish (inr err)
      | _ => proceed (all_appended os)
      end
  end.

Definition fetch_users (sched : schedule) (c : client conn) (ctx limit : Z) (user : UserInfo) : stage (list UserInfo) :=
  let subscribedTo := SubscribedTo user in
  let uc := UserCoefficients user in
  if len subscribedTo =? 0 then
    AddUint64 TotalErrors 1 ;;; finish_with (serve_ranked_cached uc limit empty_reply)
  else
    max <- LoadUint64 UserServiceMaxBatchSize ;;
    let maxUserBatchSize := i64 max in
    batchLoopUser <- lift (go_quot (len subscribedTo) maxUserBatchSize) ;;
    os <- run_batches (run_order sched (Z.to_nat (batchLoopUser + 1)))
            (user_batch c ctx limit subscribedTo maxUserBatchSize batchLoopUser) ;;
    wait_batches sched uc limit os.

(** The loop over liked videos; [seen] is [LikedVideosMap]. *)
Fixpoint liked_loop (vids : list Z) (acc : gset Z * list Z) : gset Z * list Z :=
  match vids with
  | [] => acc
  | v :: vids =>
      liked_loop vids (if bool_decide (v ∈ acc.1) then acc else ({[ v ]} ∪ acc.1, acc.2 ++ [v]))
  end.
Definition collect_liked (users : list UserInfo) : list Z :=
  (foldl (fun acc u => liked_loop (LikedVideos u) acc) (∅, []) users).2.

(** The client of the video service. *)
Definition video_client (uc : Coefficients) (limit : Z) : stage (client conn) :=
  mock <- gets (fun e => isMock (srv e)) ;;
  if mock : bool then proceed MockClient
  else
    r <- ConnectClient 1 ;;
    match r with
    | inl c => proceed (ConnClient c)
    | inr err =>
        AddUint64 VideoServiceErrors 1 ;;;
        no_retry <- option_is DisableRetry ;;
        if negb no_retry then
          r <- ConnectClient 1 ;;
          match r with
          | inl c => proceed (ConnClient c)
          | inr err => both_errors VideoServiceErrors ;;; finish_with (serve_ranked_cached uc limit (inr err))
          end
        else AddUint64 TotalErrors 1 ;;; finish_with (serve_ranked_cached uc limit (inr err))
    end.

(** A goroutine past the deadline of its call: it sends the videos of
    [deadlineExc]'s response, which are none when that is an error. *)
Definition video_late {A} (limit : Z) : st env (batch_out A) :=
  both_errors VideoServiceErrors ;;;
  r <- deadlineExc limit ;;
  ret (BatchOut [] (Some (match r with inl resp => Videos resp | inr _ => [] end)) None).

(** A goroutine that fetches liked videos.  The last one checks its deadline
    after the retry too; the others do not. *)
Definition video_batch (c : client conn) (limit : Z) (ids : list Z) (max n : Z) (i : nat) : st env (batch_out VideoInfo) :=
  b <- batch_ids ids max n (Z.of_nat i) ;;
  match b with
  | None => ret (BatchOut [] None (Some None))
  | Some b =>
      ctx <- WithTimeout (2 * seconds) ;;
      r <- call (call_GetVideo c ctx b) ;;
      late <- expired ctx ;;
      if late : bool then video_late limit
      else
        match r with
        | inl vs => ret (BatchOut vs None (Some None))
        | inr err =>
            AddUint64 VideoServiceErrors 1 ;;;
            no_retry <- option_is DisableRetry ;;
            if negb no_retry then
              ctx <- WithTimeout (2 * seconds) ;;
              r <- call (call_GetVideo c ctx b) ;;
              late <- expired ctx ;;
              if (Z.of_nat i =? n) && late then video_late limit
              else
                match r with
                | inl vs => ret (BatchOut vs None (Some None))
                | inr err => AddUint64 VideoServiceErrors 1 ;;; batch_failed limit (get_video_failed err)
                end
            else batch_failed limit (get_video_failed err)
        end
  end.

Definition fetch_videos (sched : schedule) (c : client conn) (uc : Coefficients) (limit : Z) (likedVideos : list Z)
    : stage (list VideoInfo) :=
  max <- LoadUint64 VideoServiceMaxBatchSize ;;
  let maxVideoBatchSize := i64 max in
  batchLoopVideo <- lift (go_quot (len likedVideos) maxVideoBatchSize) ;;
  os <- run_batches (run_order sched (Z.to_nat (batchLoopVideo + 1)))
          (video_batch c limit likedVideos maxVideoBatchSize batchLoopVideo) ;;
  wait_batches sched uc limit os.

(** The deadline of the request: the caller's, or 3 seconds from now. *)
Definition request_deadline (deadline : option Z) : st env Z :=
  match deadline with Some d => ret d | None => WithTimeout (3 * seconds) end.

(** The request up to its reply; [deadline] is that of the caller's context. *)
Definition top_videos (usched vsched : schedule) (deadline : option Z) (userId limit : Z) : stage unit :=
  ctx <- request_deadline deadline ;;
  if limit <? 0 then finish (inr (Status InvalidArgument (lit "GetTopVideos: invalid limit")))
  else
    late <- expired ctx ;;
    if late : bool then both_errors UserServiceErrors ;;; finish_with (deadlineExc limit)
    else
      then_ (user_client limit) (fun userClient =>
      then_ (fetch_subscriber userClient ctx userId limit) (fun found =>
      subscriber <- lift (index found 0) ;;
      let uc := UserCoefficients subscriber in
      then_ (fetch_users usched userClient ctx limit subscriber) (fun users =>
      let likedVideos := collect_liked users in
      if len likedVideos =? 0 then
        AddUint64 TotalErrors 1 ;;; finish_with (serve_ranked_cached uc limit empty_reply)
      else
        then_ (video_client uc limit) (fun videoClient =>
        then_ (fetch_videos vsched videoClient uc limit likedVideos) (fun videosInfo =>
        ranked <- rankVideos uc videosInfo limit ;;
        finish (inl (MkResponse ranked false))))))).

(** The counters of the request, and the deferred function. *)
Definition GetTopVideos (usched vsched : schedule) (deadline : option Z) (userId limit : Z) : st env reply :=
  AddUint64 TotalRequests 1 ;;;
  AddUint64 ActiveRequests 1 ;;;
  startTime <- now ;;
  r <- top_videos usched vsched deadline userId limit ;;
  AddUint64 ActiveRequests (2 ^ 64 - 1) ;;;
  endTime <- now ;;
  let latency := Z.quot (endTime - startTime) milliseconds in
  AddUint64 TotalSumLatencyMs (u64 latency) ;;;
  t <- gets (fun e => td (srv e)) ;;
  set_td (td_Add latency t) ;;;
  ret (match r with inl _ => empty_reply | inr r => r end).

(** ** [GetStats] *)
Record GetStatsResponse := MkStats {
  st_TotalRequests : Z; st_TotalErrors : Z; st_ActiveRequests : Z; st_UserServiceErrors : Z;
  st_VideoServiceErrors : Z; st_AverageLatencyMs : float; st_P99LatencyMs : float; st_StaleResponses : Z
}.

Definition GetStats : st env GetStatsResponse :=
  total <- LoadUint64 TotalRequests ;;
  errors <- LoadUint64 TotalErrors ;;
  active <- LoadUint64 ActiveRequests ;;
  user_errors <- LoadUint64 UserServiceErrors ;;
  video_errors <- LoadUint64 VideoServiceErrors ;;
  sum <- LoadUint64 TotalSumLatencyMs ;;
  average <- lift (go_quot sum (Z.max 1 total)) ;;
  t <- gets (fun e => td (srv e)) ;;
  stales <- LoadUint64 StaleResponses ;;
  ret (MkStats total errors active user_errors video_errors (float32_of average) (td_Quantile99 t) stales).
End requests.
