(* ===== verification/VideoRecSpec.v ===== *)
(** * What the recommendation service of lab 1 guarantees *)
From Stdlib Require Import String.
From S2P Require Import Prelude Strconv Effects FailureInjection Services ServicesSpec VideoRec VideoRecTop.

Local Open Scope Z_scope.
Local Open Scope st_scope.

(** ** Batches *)
Section batches.
Context {S : Type} `{Backend S} `{TDigest}.

(** The [i]th batch of at most [max] ids. *)
Definition batch_of (ids : list Z) (max : Z) (i : nat) : list Z :=
  take (Z.to_nat max) (drop (i * Z.to_nat max) ids).

Lemma batch_ids_spec (ids : list Z) max i (e : env S) :
  1 <= max -> Z.of_nat i <= Z.quot (len ids) max ->
  batch_ids ids max (Z.quot (len ids) max) (Z.of_nat i) e =
    Ok (match batch_of ids max i with [] => None | b => Some b end, e).
Proof.
  intros Hmax Hi. pose proof (len_nonneg ids) as Hlen. rewrite Z.quot_div_nonneg in * by lia.
  pose proof (Z.div_mod (len ids) max ltac:(lia)) as Hdm. pose proof (Z.mod_pos_bound (len ids) max ltac:(lia)) as Hmod.
  unfold batch_ids, batch_of. assert (Hoff : (i * Z.to_nat max)%nat = Z.to_nat (Z.of_nat i * max)) by nia.
  rewrite Hoff. destruct (Z.of_nat i =? len ids / max) eqn:E; zbool.
  - unfold go_rem. rewrite (proj2 (Z.eqb_neq max 0)), Z.rem_mod_nonneg by lia. unfold bind at 1, lift at 1.
    destruct (negb (len ids mod max =? 0)) eqn:Er.
    + apply negb_true_iff in Er. zbool.
      rewrite (proj2 (slice_from_Ok ids (Z.of_nat i * max) _)) by (split; [nia | done]).
      unfold bind, lift, ret. rewrite take_ge; [ | rewrite length_drop; unfold len in *; nia].
      destruct (drop _ ids) eqn:Ed; [ | done]. apply (f_equal length) in Ed. rewrite length_drop in Ed. unfold len in *.
      simpl in Ed. nia.
    + apply negb_false_iff in Er. zbool. rewrite drop_ge by (unfold len in *; nia). by rewrite take_nil.
  - rewrite (proj2 (slice_Ok ids (Z.of_nat i * max) ((Z.of_nat i + 1) * max) _)) by (split; [nia | done]).
    unfold bind, lift, ret. replace ((Z.of_nat i + 1) * max - Z.of_nat i * max) with max by lia.
    destruct (take _ _) eqn:Et; [ | done]. apply (f_equal length) in Et.
    rewrite length_take, length_drop in Et. unfold len in *. simpl in Et. nia.
Qed.

Lemma concat_batches (ids : list Z) (k n : nat) :
  concat (map (fun i => take k (drop (i * k) ids)) (seq 0 n)) = take (n * k) ids.
Proof.
  induction n as [|n IH]; [done | ]. rewrite seq_S, map_app, concat_app, IH. simpl. rewrite app_nil_r.
  replace (k + n * k)%nat with (n * k + k)%nat by lia. by rewrite take_take_drop.
Qed.

Lemma batches_cover (ids : list Z) max :
  1 <= max -> concat (map (batch_of ids max) (seq 0 (Z.to_nat (Z.quot (len ids) max + 1)))) = ids.
Proof.
  intros Hmax. pose proof (len_nonneg ids). rewrite Z.quot_div_nonneg by lia.
  unfold batch_of. rewrite concat_batches. apply take_ge.
  pose proof (Z.div_mod (len ids) max ltac:(lia)). pose proof (Z.mod_pos_bound (len ids) max ltac:(lia)).
  unfold len in *. nia.
Qed.
End batches.

(** With a positive batch limit the goroutines of a group ask, between
    them, for every id exactly once and in order: none of the slice expressions
    that pick a batch panics, no batch is longer than the limit, no empty batch
    is sent, and the batches concatenate to the list of ids. *)
Theorem batches_partition {S} `{Backend S} `{TDigest} (ids : list Z) (max : Z) (e : env S) :
  1 <= max ->
  let n := Z.quot (len ids) max in
  concat (map (batch_of ids max) (seq 0 (Z.to_nat (n + 1)))) = ids /\
  forall i, (i < Z.to_nat (n + 1))%nat ->
    len (batch_of ids max i) <= max /\
    batch_ids ids max n (Z.of_nat i) e = Ok (match batch_of ids max i with [] => None | b => Some b end, e).
Proof.
  intros Hmax n. split; [by apply batches_cover | ]. intros i Hi. split.
  - unfold batch_of, len. rewrite length_take. lia.
  - apply batch_ids_spec; [done | ]. fold n. lia.
Qed.

(** ** What a request preserves *)

(** An invariant that the calls of a request and its error counters respect. *)
Record request_invariant {S} `{Backend S} `{TDigest} (I : env S -> Prop) : Prop := {
  ri_outer : forall e o, I e -> I (Env (srv e) o);
  ri_count : forall e c d e', c <> ActiveRequests -> c <> TotalRequests -> I e -> AddUint64 c d e = Ok (tt, e') -> I e'
}.

Section request.
Context {S : Type} `{Backend S} `{TDigest} `{Ranker}.
Variable I : env S -> Prop.
Hypothesis HI : request_invariant I.
(** The replies that may be given; [Err] says that errors are among them. *)
Variable Q : reply -> Prop.
Let Err : Prop := forall err, Q (inr err).
Hypothesis HQ : forall resp, Q (inl resp).
Variable limit : Z.
Hypothesis Hlimit : limit < 0 -> Err.
Hypothesis Hfallback : keeps I (fallback limit) (fun c => c = None -> Err).
Hypothesis Hcached : keeps I (disabled <- option_is DisableFallback ;; ret disabled) (fun b => b = true -> Err).

Lemma keeps_call {A} (m : st S A) : keeps I (call m) anything.
Proof.
  intros e a e' He E. unfold call, zoom in E. destruct (m (outer e)) as [[b o]| | ]; [ | done..].
  injection E as <- <-. split; [by apply (ri_outer _ HI) | done].
Qed.

Lemma keeps_count c d : c <> ActiveRequests -> c <> TotalRequests -> keeps I (AddUint64 c d) anything.
Proof. intros H1' H2' e [] e' He E. split; [by eapply (ri_count _ HI) | done]. Qed.

Lemma keeps_disabled : keeps I (option_is DisableFallback) (fun b => b = true -> Err).
Proof. intros e b e' He E. apply (Hcached e b e' He). unfold bind. by rewrite E. Qed.

Hint Resolve keeps_call : keeps.
Hint Extern 1 (keeps I (AddUint64 _ _) anything) => apply keeps_count; discriminate : keeps.
Hint Extern 1 (keeps I (option_is _) anything) => apply keeps_gets_any : keeps.
Hint Extern 1 (keeps I now anything) => apply keeps_gets_any : keeps.
Hint Extern 1 (keeps I (LoadUint64 _) anything) => apply keeps_gets_any : keeps.

Lemma keeps_ConnectClient target : keeps I (ConnectClient target) anything.
Proof. unfold ConnectClient. keeps_walk. Qed.
Lemma keeps_WithTimeout d : keeps I (WithTimeout d) anything.
Proof. unfold WithTimeout. keeps_walk. Qed.
Lemma keeps_expired d : keeps I (expired d) anything.
Proof. unfold expired. keeps_walk. Qed.
Lemma keeps_both c : c <> ActiveRequests -> c <> TotalRequests -> keeps I (both_errors c) anything.
Proof. intros H1' H2'. unfold both_errors. keeps_walk. by apply keeps_count. Qed.
Lemma keeps_rankVideos uc vs l : keeps I (rankVideos uc vs l) anything.
Proof. unfold rankVideos. keeps_walk. Qed.
Lemma keeps_GetCachedVideos l : keeps I (GetCachedVideos l) anything.
Proof. unfold GetCachedVideos. keeps_walk. Qed.
Lemma keeps_batch_ids ids max n i : keeps I (batch_ids ids max n i) anything.
Proof. unfold batch_ids. keeps_walk. Qed.
Hint Resolve keeps_ConnectClient keeps_WithTimeout keeps_expired keeps_rankVideos keeps_GetCachedVideos
  keeps_batch_ids : keeps.
Hint Extern 1 (keeps I (both_errors _) anything) => apply keeps_both; discriminate : keeps.

(** Answers from the cache. *)
Lemma keeps_serve_cached otherwise :
  (forall err, otherwise = inr err -> Err -> Q otherwise) -> keeps I (serve_cached limit otherwise) Q.
Proof.
  intros Ho. unfold serve_cached. eapply keeps_bind; [exact Hfallback | ]. intros [vs|] Hc.
  - keeps_walk. apply HQ.
  - apply keeps_ret. destruct otherwise as [resp|err]; [apply HQ | by apply (Ho err), Hc].
Qed.

Lemma keeps_serve_ranked uc otherwise :
  (forall err, otherwise = inr err -> Err -> Q otherwise) -> keeps I (serve_ranked_cached uc limit otherwise) Q.
Proof.
  intros Ho. unfold serve_ranked_cached. eapply keeps_bind; [exact Hfallback | ]. intros [vs|] Hc.
  - keeps_walk. apply HQ.
  - apply keeps_ret. destruct otherwise as [resp|err]; [apply HQ | by apply (Ho err), Hc].
Qed.

Definition stage_ok {A} (r : A + reply) : Prop := match r with inl _ => True | inr r => Q r end.

Lemma keeps_finish_with {A} (m : st (env S) reply) : keeps I m Q -> keeps I (finish_with (A := A) m) stage_ok.
Proof. intros Hm. unfold finish_with. eapply keeps_bind; [exact Hm | ]. intros r Hr. by apply keeps_ret. Qed.

Lemma keeps_proceed {A} (a : A) : keeps I (proceed a) stage_ok.
Proof. by apply keeps_ret. Qed.

Lemma keeps_finish {A} r : Q r -> keeps I (finish (A := A) r) stage_ok.
Proof. intros Hr. by apply keeps_ret. Qed.

Lemma keeps_then {A B} (m : stage A) (k : A -> stage B) :
  keeps I m stage_ok -> (forall a, keeps I (k a) stage_ok) -> keeps I (then_ m k) stage_ok.
Proof.
  intros Hm Hk. unfold then_. eapply keeps_bind; [exact Hm | ]. intros [a|r] Hr; [apply Hk | by apply keeps_ret].
Qed.

Ltac answer :=
  first [ apply keeps_proceed
        | apply keeps_finish_with; first [apply keeps_serve_cached | apply keeps_serve_ranked]; intros ? _ Herr; apply Herr ].

Lemma keeps_deadline {A} : keeps I (finish_with (A := A) (deadlineExc limit)) stage_ok.
Proof. unfold deadlineExc. answer. Qed.

Lemma keeps_user_client : keeps I (user_client limit) stage_ok.
Proof.
  unfold user_client. repeat first [eapply keeps_bind; [exact Hfallback | intros [vs|] Hc] | answer | keeps_step];
    apply keeps_finish; [apply HQ | by apply Hc].
Qed.

Lemma get_user_error_ok err : forall e', get_user_error err = inr e' -> Err -> Q (get_user_error err).
Proof. intros e' E He. rewrite E. apply He. Qed.

Lemma keeps_fetch_subscriber c ctx userId : keeps I (fetch_subscriber c ctx userId limit) stage_ok.
Proof.
  unfold fetch_subscriber.
  repeat first [apply keeps_deadline | apply keeps_finish_with, keeps_serve_cached, get_user_error_ok | answer | keeps_step].
Qed.

(** A goroutine sends an error only when errors may be given. *)
Definition out_ok {A} (o : batch_out A) : Prop := match err_msg o with Some (Some _) => Err | _ => True end.

Lemma keeps_batch_failed {A} err : keeps I (batch_failed (A := A) limit err) out_ok.
Proof.
  unfold batch_failed. eapply keeps_bind; [exact keeps_disabled | ]. intros [] Hd; simpl; keeps_walk. by apply Hd.
Qed.

Lemma keeps_user_batch c ctx ids max n i : keeps I (user_batch c ctx limit ids max n i) out_ok.
Proof. unfold user_batch. repeat (keeps_step || apply keeps_batch_failed || exact Logic.I). Qed.

Lemma keeps_serve_any otherwise : keeps I (serve_cached limit otherwise) anything.
Proof.
  unfold serve_cached. eapply keeps_bind; [exact Hfallback | ]. intros [vs|] _; keeps_walk.
Qed.

Lemma keeps_video_late {A} : keeps I (video_late (A := A) limit) out_ok.
Proof.
  unfold video_late, deadlineExc. keeps_step; [solve [eauto with keeps] | ].
  apply keeps_bind_any; [apply keeps_serve_any | ]. intros r. by apply keeps_ret.
Qed.

Lemma keeps_video_batch c ids max n i : keeps I (video_batch c limit ids max n i) out_ok.
Proof.
  unfold video_batch. repeat (keeps_step || apply keeps_batch_failed || apply keeps_video_late || exact Logic.I).
Qed.

Lemma keeps_run_batches {A} order (body : nat -> st (env S) (batch_out A)) :
  (forall i, keeps I (body i) out_ok) -> keeps I (run_batches order body) (Forall out_ok).
Proof.
  intros Hb. induction order as [|i order IH]; simpl; [by apply keeps_ret | ].
  eapply keeps_bind; [apply Hb | ]. intros o Ho. eapply keeps_bind; [exact IH | ].
  intros os Hos. apply keeps_ret. by constructor.
Qed.

Lemma first_message_ok {A} (os : list (batch_out A)) err :
  Forall out_ok os -> first_message os = Some (Some err) -> Err.
Proof.
  induction 1 as [|o os Ho Hos IH]; simpl; [done | ]. unfold out_ok in Ho.
  destruct (err_msg o) as [[e|]|]; [by intros _ | done | exact IH].
Qed.

Lemma keeps_wait_batches {A} sched uc (os : list (batch_out A)) :
  Forall out_ok os -> keeps I (wait_batches sched uc limit os) stage_ok.
Proof.
  intros Hos. pose proof (first_message_ok os) as Hm. unfold wait_batches.
  repeat (keeps_step || apply keeps_proceed || (apply keeps_finish; first [apply HQ | by eapply Hm])).
Qed.

Lemma keeps_fetch_users sched c ctx user : keeps I (fetch_users sched c ctx limit user) stage_ok.
Proof.
  unfold fetch_users. apply keeps_if; intros _.
  - keeps_step; [solve [eauto with keeps] | ]. apply keeps_finish_with, keeps_serve_ranked. by intros ? [=].
  - do 2 (keeps_step; [solve [eauto with keeps] | ]).
    eapply keeps_bind; [apply keeps_run_batches; intros i; apply keeps_user_batch | ]. intros os Hos.
    by apply keeps_wait_batches.
Qed.

Lemma keeps_video_client uc : keeps I (video_client uc limit) stage_ok.
Proof. unfold video_client. repeat (answer || keeps_step). Qed.

Lemma keeps_fetch_videos sched c uc ids : keeps I (fetch_videos sched c uc limit ids) stage_ok.
Proof.
  unfold fetch_videos. do 2 (keeps_step; [solve [eauto with keeps] | ]).
  eapply keeps_bind; [apply keeps_run_batches; intros i; apply keeps_video_batch | ]. intros os Hos.
  by apply keeps_wait_batches.
Qed.

Lemma keeps_request_deadline d : keeps I (request_deadline d) anything.
Proof. unfold request_deadline. keeps_walk. Qed.

Lemma keeps_top_videos us vs d userId : keeps I (top_videos us vs d userId limit) stage_ok.
Proof.
  unfold top_videos. apply keeps_bind_any; [apply keeps_request_deadline | ]. intros ctx.
  apply keeps_if; intros Hl. { apply keeps_finish. zbool. by apply Hlimit. }
  keeps_step; [solve [eauto with keeps] | ]. keeps_step.
  { keeps_step; [solve [eauto with keeps] | ]. apply keeps_deadline. }
  apply keeps_then; [apply keeps_user_client | ]. intros uclient.
  apply keeps_then; [apply keeps_fetch_subscriber | ]. intros found.
  keeps_step; [solve [eauto with keeps] | ].
  apply keeps_then; [apply keeps_fetch_users | ]. intros users. keeps_step.
  { keeps_step; [solve [eauto with keeps] | ]. apply keeps_finish_with, keeps_serve_ranked. by intros ? [=]. }
  apply keeps_then; [apply keeps_video_client | ]. intros vclient.
  apply keeps_then; [apply keeps_fetch_videos | ]. intros videos.
  keeps_step; [solve [eauto with keeps] | ]. apply keeps_finish, HQ.
Qed.
End request.

Section guarantees.
Context {S : Type} `{Backend S} `{TDigest} `{Ranker}.
Implicit Types (e : env S).

(** Cut a list to a positive limit. *)
Definition cut {A} (limit : Z) (l : list A) : list A := if 0 <? limit then take (Z.to_nat limit) l else l.

Lemma cut_eq {A} limit (l : list A) :
  len l < 2 ^ 31 ->
  (if (0 <? limit) && (limit <=? i32 (len l)) then slice_to l limit else Ok l) = Ok (cut limit l).
Proof.
  intros Hl. rewrite i32_small by (pose proof (len_nonneg l); lia). unfold cut.
  destruct (0 <? limit) eqn:E; [ | done]. zbool. simpl. branch.
  - apply slice_to_Ok. split; [lia | done].
  - rewrite take_ge; [done | ]. unfold len in *. lia.
Qed.

Lemma GetCachedVideos_eq limit e :
  len (TrendingCache (srv e)) < 2 ^ 31 -> GetCachedVideos limit e = Ok (cut limit (TrendingCache (srv e)), e).
Proof.
  intros Hl. pose proof (cut_eq limit _ Hl) as Hc. unfold GetCachedVideos.
  rewrite (st_bind_Ok _ _ _ _ _ eq_refl). branch; [ | unfold ret; congruence]. unfold lift. by rewrite Hc.
Qed.

Lemma cut_nil {A} limit (l : list A) : cut limit l = [] -> l = [].
Proof. unfold cut. branch; [ | done]. destruct l; [done | ]. destruct (Z.to_nat limit) eqn:En; [lia | done]. Qed.

Lemma fallback_eq limit e :
  DisableFallback (options (srv e)) = false -> len (TrendingCache (srv e)) < 2 ^ 31 ->
  fallback limit e = Ok (match cut limit (TrendingCache (srv e)) with [] => None | vs => Some vs end, e).
Proof.
  intros Hf Hl. unfold fallback. rewrite (st_bind_Ok _ _ _ _ _ eq_refl), Hf. cbn [negb].
  rewrite (st_bind_Ok _ _ _ _ _ (GetCachedVideos_eq limit e Hl)). unfold ret. by destruct (cut _ _).
Qed.

(** What no request touches before its deferred function: the two request
    counters, the options, and the cache. *)
Definition untouched e0 e : Prop :=
  counters (srv e) ActiveRequests = counters (srv e0) ActiveRequests /\
  counters (srv e) TotalRequests = counters (srv e0) TotalRequests /\
  options (srv e) = options (srv e0) /\ TrendingCache (srv e) = TrendingCache (srv e0).

Lemma untouched_invariant e0 : request_invariant (untouched e0).
Proof.
  split; [done | ]. intros e c d e' Ha Ht (H1' & H2' & H3' & H4') [=<-]. unfold untouched. simpl.
  rewrite !decide_False by congruence. done.
Qed.

Lemma top_videos_untouched us vs d userId limit e r e' :
  top_videos us vs d userId limit e = Ok (r, e') -> untouched e e'.
Proof.
  intros E. eapply (keeps_top_videos (untouched e) (untouched_invariant e) (fun _ => True)); try done.
  - eapply (keeps_weaken _ anything); [ | intros; exact Logic.I]. unfold fallback, GetCachedVideos, option_is. keeps_walk.
  - eapply (keeps_weaken _ anything); [ | intros; exact Logic.I]. unfold option_is. keeps_walk.
Qed.

(** The state in which the deferred function is registered. *)
Definition entered e : env S :=
  match (AddUint64 TotalRequests 1 ;;; AddUint64 ActiveRequests 1) e with Ok (_, e') => e' | _ => e end.

Lemma GetTopVideos_inv us vs d userId limit e r e' :
  GetTopVideos us vs d userId limit e = Ok (r, e') ->
  exists r1 e3, top_videos us vs d userId limit (entered e) = Ok (r1, e3) /\
    r = (match r1 with inl _ => empty_reply | inr r => r end) /\
    (forall c, c <> TotalSumLatencyMs -> counters (srv e') c =
       if decide (c = ActiveRequests) then u64 (counters (srv e3) c + (2 ^ 64 - 1)) else counters (srv e3) c) /\
    options (srv e') = options (srv e3) /\ TrendingCache (srv e') = TrendingCache (srv e3).
Proof.
  unfold GetTopVideos. intros E.
  rewrite (st_bind_Ok _ _ _ _ _ eq_refl), (st_bind_Ok _ _ _ _ _ eq_refl), (st_bind_Ok _ _ _ _ _ eq_refl) in E.
  apply st_bind_inv in E as (r1 & e3 & E3 & E). exists r1, e3. split; [exact E3 | ].
  cbn -[u64] in E. injection E as <- <-. split; [done | ]. split; [ | done].
  intros c Hc. cbn -[u64]. by rewrite (decide_False (P := c = TotalSumLatencyMs)) by done.
Qed.
End guarantees.

(** Counting in and out again. *)
Lemma u64_undo a : 0 <= a < 2 ^ 64 -> u64 (u64 (a + 1) + (2 ^ 64 - 1)) = a.
Proof.
  intros Ha. rewrite u64_add_l. replace (a + 1 + (2 ^ 64 - 1)) with (a + 1 * 2 ^ 64) by lia.
  unfold u64. rewrite Z_mod_plus_full. apply Z.mod_small. lia.
Qed.

(** C36: request accounting.  Every [GetTopVideos] that returns, with whatever
    reply, over whatever backend and schedule, has added one to
    [TotalRequests], has left [ActiveRequests] as it found it (also when it
    wrapped around), and has changed neither the options nor the cache. *)
Theorem GetTopVideos_accounts {S} `{Backend S} `{TDigest} `{Ranker} us vs d userId limit (e : env S) r e' :
  GetTopVideos us vs d userId limit e = Ok (r, e') ->
  0 <= counters (srv e) ActiveRequests < 2 ^ 64 ->
  counters (srv e') ActiveRequests = counters (srv e) ActiveRequests /\
  counters (srv e') TotalRequests = u64 (counters (srv e) TotalRequests + 1) /\
  options (srv e') = options (srv e) /\ TrendingCache (srv e') = TrendingCache (srv e).
Proof.
  intros E Hr. apply GetTopVideos_inv in E as (r1 & e3 & E & -> & Hc & Ho & Ht).
  apply top_videos_untouched in E as (Ha & Htot & Hopt & Hcache).
  rewrite !Hc, Ho, Ht, Ha, Htot, Hopt, Hcache by discriminate. cbn -[u64 decide].
  repeat first [rewrite decide_True by done | rewrite decide_False by done]. split_and!; try done.
  by apply u64_undo.
Qed.

(** C26: availability.  With fallback enabled and a cache that has been filled
    once, no request with a non-negative limit is ever answered with an error,
    whatever the services, the network and the clock do and in whatever order
    the goroutines run. *)
Theorem fallback_never_fails {S} `{Backend S} `{TDigest} `{Ranker} us vs d userId limit (e : env S) r e' :
  GetTopVideos us vs d userId limit e = Ok (r, e') ->
  DisableFallback (options (srv e)) = false -> TrendingCache (srv e) <> [] ->
  len (TrendingCache (srv e)) < 2 ^ 31 -> 0 <= limit ->
  exists resp, r = inl resp.
Proof.
  intros E Hf Hc Hlen Hl. apply GetTopVideos_inv in E as (r1 & e3 & E & -> & _). set (is_ok := fun r : reply => exists resp, r = inl resp).
  set (I := fun e' : env S => DisableFallback (options (srv e')) = false /\ TrendingCache (srv e') <> [] /\
    len (TrendingCache (srv e')) < 2 ^ 31).
  assert (HI : request_invariant I).
  { split; [done | ]. by intros e4 c v e5 _ _ He [=<-]. }
  assert (Hok : I e3 /\ stage_ok is_ok r1).
  { eapply (keeps_top_videos I HI is_ok) with (limit := limit) (us := us) (vs := vs) (d := d) (userId := userId) (s := entered e).
    - intros resp. by exists resp.
    - lia.
    - intros e4 c e5 He E4. pose proof He as (Hf4 & Hc4 & Hl4).
      rewrite fallback_eq in E4 by done. injection E4 as <- <-. split; [done | ].
      pose proof (cut_nil limit (TrendingCache (srv e4))) as Hn.
      destruct (cut limit (TrendingCache (srv e4))); [by specialize (Hn eq_refl) | done].
    - intros e4 b e5 He E4. unfold bind, option_is, gets, ret in E4. simplify_eq. split; [done | ].
      intros Hb. destruct He as [He _]. congruence.
    - done.
    - exact E. }
  destruct Hok as [_ Hok]. destruct r1 as [[]|r1]; [by eexists | exact Hok].
Qed.
