(* ===== verification/VideoRecFresh.v ===== *)
(** * Fresh answers of the recommendation service

    What [rankVideos] computes; and what [GetTopVideos] answers when the
    services behind it answer: all the videos liked by the users the subscriber
    follows, ranked, none missing and none twice. *)
From Stdlib Require Import String Sorting.Sorted.
From S2P Require Import Prelude Strconv Effects FailureInjection Services ServicesSpec VideoRec VideoRecTop.
From S2P Require Import VideoRecSpec.

Local Open Scope Z_scope.
Local Open Scope st_scope.

(** ** Ranking *)
Section ranking.
Variable rank : VideoInfo -> Z.

Lemma insert_ranked_perm v l : insert_ranked rank v l ≡ₚ v :: l.
Proof.
  induction l as [|w l IH]; simpl; [done | ]. branch; [ | done]. rewrite IH. apply Permutation_swap.
Qed.

Lemma sort_ranked_perm l : sort_ranked rank l ≡ₚ l.
Proof. induction l as [|v l IH]; simpl; [done | ]. by rewrite insert_ranked_perm, IH. Qed.

(** Decreasing ranks. *)
Definition higher (v w : VideoInfo) : Prop := rank w <= rank v.

Lemma insert_ranked_sorted v l : StronglySorted higher l -> StronglySorted higher (insert_ranked rank v l).
Proof.
  induction 1 as [|w l Hl IH Hw]; simpl; [repeat constructor | ]. branch.
  - constructor; [done | ]. apply Forall_forall. intros x. rewrite insert_ranked_perm, elem_of_cons.
    intros [-> | Hx]; [unfold higher; lia | ]. rewrite Forall_forall in Hw. auto.
  - constructor; [by constructor | ]. constructor; [unfold higher; lia | ].
    eapply Forall_impl; [exact Hw | ]. unfold higher. intros x Hx. lia.
Qed.

Lemma sort_ranked_sorted l : StronglySorted higher (sort_ranked rank l).
Proof. induction l as [|v l IH]; simpl; [constructor | ]. by apply insert_ranked_sorted. Qed.

(** Videos of the same rank keep their order. *)
Lemma insert_ranked_stable r v l :
  StronglySorted higher l ->
  filter (fun w => rank w = r) (insert_ranked rank v l) = filter (fun w => rank w = r) (v :: l).
Proof.
  induction 1 as [|w l Hl IH Hw]; simpl; [done | ]. branch; [ | done]. rewrite filter_cons.
  rewrite IH. rewrite !filter_cons. repeat case_decide; try done. lia.
Qed.

Lemma sort_ranked_stable r l :
  filter (fun w => rank w = r) (sort_ranked rank l) = filter (fun w => rank w = r) l.
Proof.
  induction l as [|v l IH]; simpl; [done | ]. rewrite insert_ranked_stable by apply sort_ranked_sorted.
  rewrite !filter_cons. case_decide; by rewrite IH.
Qed.
End ranking.

(** Ranking sorts and cuts. *)
Definition ranked_for `{Ranker} (uc : Coefficients) (vs : list VideoInfo) : list VideoInfo :=
  sort_ranked (fun v => Rank uc (VideoCoefficients v)) vs.

Lemma rankVideos_eq {S} `{Backend S} `{TDigest} `{Ranker} uc vs limit (e : env S) :
  len vs < 2 ^ 31 -> rankVideos uc vs limit e = Ok (cut limit (ranked_for uc vs), e).
Proof.
  intros Hl. unfold rankVideos. fold (ranked_for uc vs). assert (Hl' : len (ranked_for uc vs) < 2 ^ 31).
  { unfold len, ranked_for. by rewrite (Permutation_length (sort_ranked_perm _ vs)). }
  pose proof (cut_eq limit _ Hl') as Hc. cbn zeta. branch; unfold lift, ret; [by rewrite Hc | congruence].
Qed.

(** [rankVideos] answers the videos in decreasing order of rank, the input
    order deciding between equal ranks, cut to the limit when it is positive;
    every video of the input occurs in the uncut list as often as it was
    given. *)
Theorem rankVideos_spec {S} `{Backend S} `{TDigest} `{Ranker} uc vs limit (e : env S) :
  len vs < 2 ^ 31 ->
  exists ranked, rankVideos uc vs limit e = Ok (cut limit ranked, e) /\ ranked ≡ₚ vs /\
    StronglySorted (fun v w => Rank uc (VideoCoefficients w) <= Rank uc (VideoCoefficients v)) ranked /\
    forall r, filter (fun v => Rank uc (VideoCoefficients v) = r) ranked =
              filter (fun v => Rank uc (VideoCoefficients v) = r) vs.
Proof.
  intros Hl. exists (ranked_for uc vs). split; [by apply rankVideos_eq | ].
  split; [apply sort_ranked_perm | ]. split; [apply sort_ranked_sorted | ].
  intros r. apply (sort_ranked_stable (fun v => Rank uc (VideoCoefficients v))).
Qed.

(** ** Known records and batches *)
Section known.
Context {A : Type}.
Implicit Types (db : gmap Z A) (ids : list Z).

Lemma known_batch db ids us k m :
  known db ids = Some us -> known db (take k (drop m ids)) = Some (take k (drop m us)).
Proof. unfold known. rewrite !mapM_Some. intros Hf. by apply Forall2_take, Forall2_drop. Qed.

Lemma known_length db ids us : known db ids = Some us -> length us = length ids.
Proof. intros Hk. symmetry. by eapply Forall2_length, mapM_Some. Qed.

Lemma known_total db ids : (forall x, x ∈ ids -> is_Some (db !! x)) -> exists us, known db ids = Some us.
Proof.
  intros Hx. unfold known. apply mapM_is_Some_2, Forall_forall. exact Hx.
Qed.

Lemma known_elem db ids us u : known db ids = Some us -> u ∈ us <-> exists x, x ∈ ids /\ db !! x = Some u.
Proof.
  unfold known. rewrite mapM_Some. induction 1 as [|x v ids us Hx Hf IH]; [set_solver | ].
  rewrite elem_of_cons, IH. set_solver.
Qed.
End known.

Lemma concat_map_perm {A B} (f : A -> list B) (l k : list A) : l ≡ₚ k -> concat (map f l) ≡ₚ concat (map f k).
Proof. induction 1; simpl; [done | by f_equiv | | by etrans]. rewrite !app_assoc. by rewrite (Permutation_app_comm (f y)). Qed.

(** ** Liked videos *)
Section liked.
Lemma liked_loop_spec vids acc :
  NoDup acc.2 -> (forall x, x ∈ acc.1 <-> x ∈ acc.2) ->
  let acc' := liked_loop vids acc in
  NoDup acc'.2 /\ (forall x, x ∈ acc'.1 <-> x ∈ acc'.2) /\ (forall x, x ∈ acc'.2 <-> x ∈ acc.2 \/ x ∈ vids).
Proof.
  revert acc. induction vids as [|v vids IH]; intros acc Hnd Hset; simpl; [set_solver | ].
  case_bool_decide as Hin.
  - destruct (IH acc) as (H1 & H2 & H3); [done.. | ]. split_and!; [done | done | ]. intros x. rewrite H3. set_solver.
  - destruct (IH ({[v]} ∪ acc.1, acc.2 ++ [v])) as (H1 & H2 & H3).
    + simpl. apply NoDup_app. split; [done | ]. split; [set_solver | apply NoDup_singleton].
    + intros x. simpl. set_solver.
    + split_and!; [done | done | ]. intros x. rewrite H3. simpl. set_solver.
Qed.

Lemma collect_liked_spec users :
  NoDup (collect_liked users) /\
  forall x, x ∈ collect_liked users <-> exists u, u ∈ users /\ x ∈ LikedVideos u.
Proof.
  unfold collect_liked. assert (Hg : forall acc, NoDup acc.2 -> (forall x, x ∈ acc.1 <-> x ∈ acc.2) ->
    let acc' := foldl (fun acc u => liked_loop (LikedVideos u) acc) acc users in
    NoDup acc'.2 /\ forall x, x ∈ acc'.2 <-> x ∈ acc.2 \/ exists u, u ∈ users /\ x ∈ LikedVideos u).
  { induction users as [|u users IH]; intros acc Hnd Hset; simpl; [set_solver | ].
    destruct (liked_loop_spec (LikedVideos u) acc Hnd Hset) as (H1 & H2 & H3).
    destruct (IH (liked_loop (LikedVideos u) acc) H1 H2) as [H4 H5]. split; [done | ].
    intros x. rewrite H5, H3. set_solver. }
  destruct (Hg (∅, [])) as [H1 H2]; [constructor | set_solver | ]. split; [done | ]. intros x. rewrite H2. set_solver.
Qed.
End liked.

(** ** Services that answer *)

(** A call through the mock, or over a connection of the kind [P]. *)
Definition over {conn} (P : conn -> Prop) (c : client conn) : Prop :=
  match c with MockClient => True | ConnClient c => P c end.

(** The services answer at once every acceptable request for records they have:
    what [GetUser_spec] and [GetVideo_spec] promise without failure
    injection.  The user service answers over the connections [uconn] and the
    video service over the connections [vconn]; nothing is said of a call over
    a connection to the other service.  Whatever else the client keeps in [S]
    stays as the client needs it, [frame]. *)
Class Answering (S : Type) `{Backend S} (udb : gmap Z UserInfo) (vdb : gmap Z VideoInfo) (umax vmax : Z)
    (uconn vconn : conn -> Prop) (frame : S -> Prop) : Prop := {
  answers_user : forall c d ids us o, over uconn c -> acceptable umax ids -> known udb ids = Some us ->
    exists o', call_GetUser c d ids o = Ok (inl us, o') /\ clock o' = clock o /\ (frame o -> frame o');
  answers_video : forall c d ids vs o, over vconn c -> acceptable vmax ids -> NoDup ids -> known vdb ids = Some vs ->
    exists o', call_GetVideo c d ids o = Ok (inl vs, o') /\ clock o' = clock o /\ (frame o -> frame o')
}.

Section fresh.
Context {S : Type} `{Backend S} `{TDigest} `{Ranker}.
Context (udb : gmap Z UserInfo) (vdb : gmap Z VideoInfo) (umax vmax : Z) (uconn vconn : conn -> Prop) (frame : S -> Prop)
  `{!Answering S udb vdb umax vmax uconn vconn frame}.
Implicit Types (e : env S).

(** Only the outside world moved, and no time passed. *)
Definition same e e' : Prop :=
  srv e' = srv e /\ clock (outer e') = clock (outer e) /\ (frame (outer e) -> frame (outer e')).

Lemma same_refl e : same e e.
Proof. done. Qed.
Lemma same_trans e1 e2 e3 : same e1 e2 -> same e2 e3 -> same e1 e3.
Proof. intros (? & ? & ?) (? & ? & ?). split_and!; [congruence | congruence | auto]. Qed.

Lemma call_user c d ids us e :
  over uconn c -> acceptable umax ids -> known udb ids = Some us ->
  exists e', call (call_GetUser c d ids) e = Ok (inl us, e') /\ same e e'.
Proof.
  intros Hov Ha Hk. destruct (answers_user c d ids us (outer e) Hov Ha Hk) as (o' & Eo & Hc).
  exists (Env (srv e) o'). split; [ | done]. unfold call, zoom. by rewrite Eo.
Qed.

Lemma call_video c d ids vs e :
  over vconn c -> acceptable vmax ids -> NoDup ids -> known vdb ids = Some vs ->
  exists e', call (call_GetVideo c d ids) e = Ok (inl vs, e') /\ same e e'.
Proof.
  intros Hov Ha Hnd Hk. destruct (answers_video c d ids vs (outer e) Hov Ha Hnd Hk) as (o' & Eo & Hc).
  exists (Env (srv e) o'). split; [ | done]. unfold call, zoom. by rewrite Eo.
Qed.

(** The output of a goroutine that got the records [us]. *)
Definition got {A} (us : list A) : batch_out A := BatchOut us None (Some None).
Definition records_of {A} (us : list A) (max : Z) (i : nat) : list A :=
  take (Z.to_nat max) (drop (i * Z.to_nat max) us).

Lemma user_batch_got c ctx limit ids us max i e :
  over uconn c -> 1 <= max <= umax -> known udb ids = Some us -> (i < Z.to_nat (Z.quot (len ids) max + 1))%nat ->
  exists e', user_batch c ctx limit ids max (Z.quot (len ids) max) i e = Ok (got (records_of us max i), e') /\ same e e'.
Proof.
  intros Hov Hmax Hk Hi. unfold user_batch.
  rewrite (st_bind_Ok _ _ _ _ _ (batch_ids_spec ids max i e ltac:(lia) ltac:(lia))).
  pose proof (known_batch udb ids us (Z.to_nat max) (i * Z.to_nat max) Hk) as Hkb.
  fold (batch_of ids max i) (records_of us max i) in Hkb. pose proof (known_length _ _ _ Hkb) as Hlen.
  assert (Hb : len (batch_of ids max i) <= umax) by (unfold batch_of, len; rewrite length_take; lia).
  destruct (batch_of ids max i) as [|x b] eqn:Eb.
  - exists e. split; [ | apply same_refl]. unfold ret, got. by destruct (records_of us max i).
  - destruct (call_user c ctx (x :: b) (records_of us max i) e) as (e' & E & Hs); [done | done | exact Hkb | ].
    exists e'. split; [ | done]. by rewrite (st_bind_Ok _ _ _ _ _ E).
Qed.

Lemma video_batch_got c limit ids vs max i e :
  over vconn c -> 1 <= max <= vmax -> NoDup ids -> known vdb ids = Some vs -> (i < Z.to_nat (Z.quot (len ids) max + 1))%nat ->
  exists e', video_batch c limit ids max (Z.quot (len ids) max) i e = Ok (got (records_of vs max i), e') /\ same e e'.
Proof.
  intros Hov Hmax Hnd Hk Hi. unfold video_batch.
  rewrite (st_bind_Ok _ _ _ _ _ (batch_ids_spec ids max i e ltac:(lia) ltac:(lia))).
  pose proof (known_batch vdb ids vs (Z.to_nat max) (i * Z.to_nat max) Hk) as Hkb.
  fold (batch_of ids max i) (records_of vs max i) in Hkb. pose proof (known_length _ _ _ Hkb) as Hlen.
  assert (Hb : len (batch_of ids max i) <= vmax) by (unfold batch_of, len; rewrite length_take; lia).
  assert (Hndb : NoDup (batch_of ids max i)).
  { eapply sublist_NoDup; [exact Hnd | ]. unfold batch_of. etrans; [apply sublist_take | apply sublist_drop]. }
  destruct (batch_of ids max i) as [|x b] eqn:Eb.
  - exists e. split; [ | apply same_refl]. unfold ret, got. by destruct (records_of vs max i).
  - rewrite (st_bind_Ok _ _ e (clock (outer e) + 2 * seconds) e) by done.
    destruct (call_video c (clock (outer e) + 2 * seconds) (x :: b) (records_of vs max i) e) as (e' & E & Hs);
      [done | done | done | exact Hkb | ].
    rewrite (st_bind_Ok _ _ _ _ _ E). exists e'. split; [ | done].
    rewrite (st_bind_Ok _ _ e' false e'); [done | ]. unfold expired, now, bind, gets, ret.
    destruct Hs as (_ & -> & _). rewrite (proj2 (Z.leb_gt _ _)) by (unfold seconds; lia). done.
Qed.

(** A group of goroutines that all succeed. *)
Lemma run_batches_got {A} (body : nat -> st (env S) (batch_out A)) us max n e0 order e :
  same e0 e ->
  (forall i e, (i < n)%nat -> same e0 e -> exists e', body i e = Ok (got (records_of us max i), e') /\ same e e') ->
  (forall i, i ∈ order -> (i < n)%nat) ->
  exists e', run_batches order body e = Ok (map (fun i => got (records_of us max i)) order, e') /\ same e0 e'.
Proof.
  revert e. induction order as [|i order IH]; intros e He Hb Ho; simpl; [by exists e | ].
  destruct (Hb i e) as (e1 & E1 & Hs1); [apply Ho; by left | done | ]. rewrite (st_bind_Ok _ _ _ _ _ E1).
  destruct (IH e1) as (e2 & E2 & Hs2); [by eapply same_trans | done | by intros j Hj; apply Ho; right | ].
  rewrite (st_bind_Ok _ _ _ _ _ E2). by exists e2.
Qed.

Lemma got_appended {A} (us : list A) max (order : list nat) :
  all_appended (map (fun i => got (records_of us max i)) order) = concat (map (records_of us max) order).
Proof. unfold all_appended. by rewrite map_map. Qed.

Lemma got_wait {A} sched uc limit (us : list A) max (order : list nat) e :
  wait_batches sched uc limit (map (fun i => got (records_of us max i)) order) e =
    Ok (inl (concat (map (records_of us max) order)), e).
Proof.
  unfold wait_batches. replace (first_cached _) with (@None (list VideoInfo)) by (by induction order).
  rewrite got_appended. destruct order as [|i order]; done.
Qed.

Lemma records_cover {A} (us : list A) (m : Z) max order :
  1 <= max -> len us = m -> order ≡ₚ seq 0 (Z.to_nat (Z.quot m max + 1)) ->
  concat (map (records_of us max) order) ≡ₚ us.
Proof.
  intros Hmax Hm Ho. rewrite (concat_map_perm _ _ _ Ho). unfold records_of.
  assert (Hc : forall k, concat (map (fun i => take (Z.to_nat max) (drop (i * Z.to_nat max) us)) (seq 0 k))
    = take (k * Z.to_nat max) us).
  { induction k as [|k IHk]; [done | ]. rewrite seq_S, map_app, concat_app, IHk. simpl. rewrite app_nil_r.
    replace (Z.to_nat max + k * Z.to_nat max)%nat with (k * Z.to_nat max + Z.to_nat max)%nat by lia.
    by rewrite take_take_drop. }
  rewrite Hc. rewrite take_ge; [done | ]. pose proof (len_nonneg us). rewrite Z.quot_div_nonneg by lia.
  pose proof (Z.div_mod m max ltac:(lia)). pose proof (Z.mod_pos_bound m max ltac:(lia)). unfold len in *. nia.
Qed.

(** The schedules run every goroutine once. *)
Definition fair (sched : schedule) : Prop := forall n, run_order sched n ≡ₚ seq 0 n.

Lemma fetch_users_got sched c ctx limit u users e :
  over uconn c -> fair sched -> SubscribedTo u <> [] -> known udb (SubscribedTo u) = Some users ->
  1 <= counters (srv e) UserServiceMaxBatchSize <= umax -> umax < 2 ^ 63 ->
  exists us e', fetch_users sched c ctx limit u e = Ok (inl us, e') /\ us ≡ₚ users /\ same e e'.
Proof.
  intros Hov Hfair Hne Hk Hmax Hu. unfold fetch_users. rewrite (len_0_nil (SubscribedTo u)).
  rewrite bool_decide_eq_false_2 by done. rewrite (st_bind_Ok _ _ _ _ _ eq_refl).
  set (max := counters (srv e) UserServiceMaxBatchSize) in *. rewrite i64_small by lia. cbn zeta.
  unfold go_quot. rewrite (proj2 (Z.eqb_neq max 0)) by lia. rewrite (st_bind_Ok _ _ _ _ _ eq_refl).
  set (n := Z.to_nat (Z.quot (len (SubscribedTo u)) max + 1)).
  destruct (run_batches_got (user_batch c ctx limit (SubscribedTo u) max (Z.quot (len (SubscribedTo u)) max))
    users max n e (run_order sched n) e) as (e' & E & Hs); [apply same_refl | | | ].
  - intros i e1 Hi _. by apply user_batch_got.
  - intros i. rewrite (Hfair n), elem_of_seq. lia.
  - rewrite (st_bind_Ok _ _ _ _ _ E), got_wait. do 2 eexists. split; [reflexivity | ]. split; [ | done].
    eapply records_cover; [lia | | apply Hfair]. unfold len. by rewrite (known_length _ _ _ Hk).
Qed.

Lemma fetch_videos_got sched c uc limit ids vs e :
  over vconn c -> fair sched -> NoDup ids -> known vdb ids = Some vs ->
  1 <= counters (srv e) VideoServiceMaxBatchSize <= vmax -> vmax < 2 ^ 63 ->
  exists vs' e', fetch_videos sched c uc limit ids e = Ok (inl vs', e') /\ vs' ≡ₚ vs /\ same e e'.
Proof.
  intros Hov Hfair Hnd Hk Hmax Hu. unfold fetch_videos. rewrite (st_bind_Ok _ _ _ _ _ eq_refl).
  set (max := counters (srv e) VideoServiceMaxBatchSize) in *. rewrite i64_small by lia. cbn zeta.
  unfold go_quot. rewrite (proj2 (Z.eqb_neq max 0)) by lia. rewrite (st_bind_Ok _ _ _ _ _ eq_refl).
  set (n := Z.to_nat (Z.quot (len ids) max + 1)).
  destruct (run_batches_got (video_batch c limit ids max (Z.quot (len ids) max)) vs max n e (run_order sched n) e)
    as (e' & E & Hs); [apply same_refl | | | ].
  - intros i e1 Hi _. by apply video_batch_got.
  - intros i. rewrite (Hfair n), elem_of_seq. lia.
  - rewrite (st_bind_Ok _ _ _ _ _ E), got_wait. do 2 eexists. split; [reflexivity | ]. split; [ | done].
    eapply records_cover; [lia | | apply Hfair]. unfold len. by rewrite (known_length _ _ _ Hk).
Qed.

Lemma known_bound {A} (db : gmap Z A) ids rs : NoDup ids -> known db ids = Some rs -> len rs <= Z.of_nat (size db).
Proof.
  intros Hnd Hk. unfold len. rewrite (known_length _ _ _ Hk), <- size_dom.
  rewrite <- (size_list_to_set (C := gset Z) ids Hnd). apply Nat2Z.inj_le, subseteq_size.
  intros x Hx%elem_of_list_to_set. apply elem_of_dom. unfold known in Hk. apply mapM_Some in Hk.
  apply list_elem_of_lookup in Hx as (i & Hi). destruct (Forall2_lookup_l _ _ _ _ _ Hk Hi) as (r & _ & Hr). by eexists.
Qed.

(** What the subscriber should see: the distinct videos liked by the users it
    follows. *)
Definition liked_by (u : UserInfo) (x : Z) : Prop :=
  exists s f, s ∈ SubscribedTo u /\ udb !! s = Some f /\ x ∈ LikedVideos f.

(** A user whose request the databases can answer in full. *)
Record servable (u : UserInfo) : Prop := {
  sv_subscribed : SubscribedTo u <> [];
  sv_users : forall s, s ∈ SubscribedTo u -> is_Some (udb !! s);
  sv_videos : forall x, liked_by u x -> is_Some (vdb !! x);
  sv_some : exists x, liked_by u x
}.

Lemma top_videos_fresh usched vsched d userId limit u e :
  fair usched -> fair vsched -> isMock (srv e) = true -> umax < 2 ^ 63 -> vmax < 2 ^ 63 ->
  1 <= counters (srv e) UserServiceMaxBatchSize <= umax -> 1 <= counters (srv e) VideoServiceMaxBatchSize <= vmax ->
  Z.of_nat (size vdb) < 2 ^ 31 -> 0 <= limit -> (forall t, d = Some t -> clock (outer e) < t) ->
  userId <> 0 -> udb !! userId = Some u -> servable u ->
  exists ids vs ranked e', top_videos usched vsched d userId limit e = Ok (inr (inl (MkResponse (cut limit ranked) false)), e') /\
    NoDup ids /\ (forall x, x ∈ ids <-> liked_by u x) /\ known vdb ids = Some vs /\ ranked ≡ₚ vs /\
    StronglySorted (fun v w => Rank (UserCoefficients u) (VideoCoefficients w) <= Rank (UserCoefficients u) (VideoCoefficients v)) ranked /\
    same e e'.
Proof.
  intros Hfu Hfv Hmock Hu Hv Hub Hvb Hsize Hlim Hd Hid Hdb [Hsub Husers Hvideos [x0 Hx0]]. unfold top_videos.
  assert (Hctx : exists ctx, request_deadline d e = Ok (ctx, e) /\ clock (outer e) < ctx).
  { destruct d as [t|]; [exists t; split; [done | by apply Hd] | ]. eexists. split; [reflexivity | ].
    unfold seconds. lia. }
  destruct Hctx as (ctx & Ectx & Hlt). rewrite (st_bind_Ok _ _ _ _ _ Ectx).
  rewrite (proj2 (Z.ltb_ge limit 0)) by lia.
  rewrite (st_bind_Ok _ _ e false e) by (unfold expired, now, bind, gets, ret; by rewrite (proj2 (Z.leb_gt _ _))).
  unfold then_ at 1. rewrite (st_bind_Ok _ _ e (inl MockClient) e)
    by (unfold user_client, bind, gets; by rewrite Hmock).
  unfold then_ at 1. unfold fetch_subscriber. rewrite (proj2 (Z.eqb_neq userId 0)) by done.
  destruct (call_user MockClient ctx [userId] [u] e) as (e1 & E1 & Hs1).
  { done. }
  { split; [done | ]. unfold len. simpl. lia. }
  { unfold known. simpl. by rewrite Hdb. }
  rewrite (st_bind_Ok _ _ e (inl [u]) e1) by by rewrite (st_bind_Ok _ _ _ _ _ E1).
  rewrite (st_bind_Ok _ _ e1 u e1) by done. cbn zeta.
  destruct (known_total udb (SubscribedTo u) Husers) as (users & Hk). pose proof Hs1 as (Hsrv1 & Hcl1 & _).
  destruct (fetch_users_got usched MockClient ctx limit u users e1) as (us & e2 & E2 & Hperm & Hs2);
    [done | done | done | done | by rewrite Hsrv1 | done | ].
  unfold then_ at 1. rewrite (st_bind_Ok _ _ _ _ _ E2).
  destruct (collect_liked_spec us) as [Hnd Hids].
  assert (Hiff : forall x, x ∈ collect_liked us <-> liked_by u x).
  { intros x. rewrite Hids. unfold liked_by. setoid_rewrite Hperm. setoid_rewrite (known_elem _ _ _ _ Hk). naive_solver. }
  set (ids := collect_liked us) in *.
  destruct (known_total vdb ids) as (vs & Hkv); [intros x Hx; by apply Hvideos, Hiff | ].
  rewrite (len_0_nil ids), bool_decide_eq_false_2 by (intros Hnil; apply Hiff in Hx0; rewrite Hnil in Hx0; by inversion Hx0).
  pose proof (same_trans _ _ _ Hs1 Hs2) as Hs. pose proof Hs as (Hsrv2 & Hcl2 & _).
  unfold then_ at 1. rewrite (st_bind_Ok _ _ e2 (inl MockClient) e2)
    by (unfold video_client, bind, gets; by rewrite Hsrv2, Hmock).
  destruct (fetch_videos_got vsched MockClient (UserCoefficients u) limit ids vs e2) as (vs' & e3 & E3 & Hperm' & Hs3);
    [done | done | done | done | by rewrite Hsrv2 | done | ].
  unfold then_. rewrite (st_bind_Ok _ _ _ _ _ E3).
  assert (Hlen : len vs' < 2 ^ 31).
  { pose proof (known_bound vdb ids vs Hnd Hkv) as Hb. unfold len in *. rewrite (Permutation_length Hperm'). lia. }
  rewrite (st_bind_Ok _ _ _ _ _ (rankVideos_eq (UserCoefficients u) vs' limit e3 Hlen)).
  exists ids, vs, (ranked_for (UserCoefficients u) vs'), e3. split; [done | ].
  do 3 (split; [done | ]). split; [unfold ranked_for; by rewrite sort_ranked_perm | ].
  split; [apply sort_ranked_sorted | by eapply same_trans].
Qed.
End fresh.

(** The request as a whole: counting in and out do not disturb it. *)
Lemma GetTopVideos_top {S} `{Backend S} `{TDigest} `{Ranker} usched vsched d userId limit (e e1 : env S) r :
  top_videos usched vsched d userId limit (entered e) = Ok (inr r, e1) ->
  exists e', GetTopVideos usched vsched d userId limit e = Ok (r, e') /\ outer e' = outer e1 /\
    isMock (srv e') = isMock (srv e1) /\
    (forall k, k <> ActiveRequests -> k <> TotalSumLatencyMs -> counters (srv e') k = counters (srv e1) k).
Proof.
  intros E. unfold GetTopVideos.
  rewrite (st_bind_Ok _ _ _ _ _ eq_refl), (st_bind_Ok _ _ _ _ _ eq_refl), (st_bind_Ok _ _ _ _ _ eq_refl).
  rewrite (st_bind_Ok _ _ _ _ _ E). eexists. split; [reflexivity | ]. split; [done | ]. split; [done | ].
  intros k Ha Hs. cbn -[u64]. by rewrite !decide_False.
Qed.
