(* ===== verification/VideoRecMock.v ===== *)
(** * The recommendation service over the mock clients

    The mock clients of lab 1 as a backend, what the batch-limit probes learn
    from the services, and the whole system end to end: two services made from
    the same seed, the probes, and a request. *)
From Stdlib Require Import String Sorting.Sorted.
From S2P Require Import Prelude Strconv Effects FailureInjection Services ServicesSpec VideoRec VideoRecTop.
From S2P Require Import VideoRecSpec VideoRecFresh.

Local Open Scope Z_scope.
Local Open Scope st_scope.

(** ** The backend *)

(** A mock server dials nobody: its clients hold the servers. *)
#[export] Instance MockBackend (uc : MockUserServiceClient) (vc : MockVideoServiceClient) : Backend world := {
  conn := Empty_set;
  NewClient := fun _ => ret (inr (Other []));
  call_GetUser := fun _ _ ids => mock_GetUser uc ids;
  call_GetVideo := fun _ _ ids => mock_GetVideo vc ids;
  call_GetTrendingVideos := fun _ _ => mock_GetTrendingVideos vc;
  clock := w_now;
  time_Sleep := sleep;
  error_string := fun e => match e with Status _ m | Other m => m end
}.

Section mock.
Context (us : UserServiceServer) (vs : VideoServiceServer).

(** No failure injection. *)
Definition quiet (fi : FailureInjector) : Prop := Config fi = Some (Some (MkInjectionConfig 0 0 0)).

Context (Hqu : quiet (us_fi us)) (Hqv : quiet (vs_fi vs)).
Context (Hu : 0 <= us_MaxBatchSize (us_options us) < 2 ^ 63) (Hv : 0 <= vs_MaxBatchSize (vs_options vs) < 2 ^ 63).

Lemma MaybeInject_quiet fi w :
  quiet fi -> exists w', MaybeInject fi w = Ok (false, w') /\ w_now w' = w_now w.
Proof.
  intros Hq. unfold MaybeInject, GetInjectionConfig. rewrite Hq. cbn. eexists. split; [reflexivity | ]. simpl. lia.
Qed.

(** The answers of the services to a request of a given size. *)
Lemma GetUser_quiet ids w :
  exists r w', GetUser us ids w = Ok (r, w') /\ w_now w' = w_now w /\
    (us_MaxBatchSize (us_options us) < len ids ->
       ids <> [] -> r = inr (Status InvalidArgument (user_batch_error ++ fmt_d (us_MaxBatchSize (us_options us))))) /\
    (acceptable (us_MaxBatchSize (us_options us)) ids ->
       match known (users us) ids with Some infos => r = inl infos | None => exists m, r = inr (Status NotFound m) end).
Proof.
  destruct (MaybeInject_quiet _ w Hqu) as (w' & E & Hw). unfold GetUser. rewrite (st_bind_Ok _ _ _ _ _ E).
  do 2 eexists. split; [reflexivity | ]. split; [done | ]. rewrite len_0_nil. split.
  - intros Hlt Hne. rewrite bool_decide_eq_false_2 by done. rewrite (proj2 (Z.ltb_lt _ _)) by done. done.
  - intros [Hne Hle]. rewrite bool_decide_eq_false_2 by done. rewrite (proj2 (Z.ltb_ge _ _)) by done.
    pose proof (lookup_users_spec (users us) ids []) as Hl. destruct (known (users us) ids); [done | ].
    destruct Hl as (id & _ & _ & ->). by eexists.
Qed.

Lemma GetVideo_quiet ids w :
  NoDup ids ->
  exists r w', GetVideo vs ids w = Ok (r, w') /\ w_now w' = w_now w /\
    (vs_MaxBatchSize (vs_options vs) < len ids ->
       ids <> [] -> r = inr (Status InvalidArgument (video_batch_error ++ fmt_d (vs_MaxBatchSize (vs_options vs))))) /\
    (acceptable (vs_MaxBatchSize (vs_options vs)) ids ->
       match known (videos vs) ids with Some infos => r = inl infos | None => exists m, r = inr (Status NotFound m) end).
Proof.
  intros Hnd. destruct (MaybeInject_quiet _ w Hqv) as (w' & E & Hw). unfold GetVideo. rewrite (st_bind_Ok _ _ _ _ _ E).
  do 2 eexists. split; [reflexivity | ]. split; [done | ]. rewrite len_0_nil. split.
  - intros Hlt Hne. rewrite bool_decide_eq_false_2 by done. rewrite (proj2 (Z.ltb_lt _ _)) by done. done.
  - intros [Hne Hle]. rewrite bool_decide_eq_false_2 by done. rewrite (proj2 (Z.ltb_ge _ _)) by done.
    rewrite (proj2 (Z.eqb_eq _ _)) by by apply deduplicateIds_len. cbn [negb].
    pose proof (lookup_videos_spec (videos vs) ids []) as Hl. destruct (known (videos vs) ids); [done | ].
    destruct Hl as (id & _ & _ & ->). by eexists.
Qed.

#[local] Instance backend : Backend world := MockBackend (MkMockUser us) (MkMockVideo vs).

(** The quiet services keep the promise of [Answering]. *)
Lemma mock_answering :
  Answering world (users us) (videos vs) (us_MaxBatchSize (us_options us)) (vs_MaxBatchSize (vs_options vs)) (fun _ => True) (fun _ => True) (fun _ => True).
Proof.
  split.
  - intros c d ids infos w _ Ha Hk. destruct (GetUser_quiet ids w) as (r & w' & E & Hw & _ & Hr).
    exists w'. split; [ | done]. simpl. unfold mock_GetUser. simpl. rewrite E. specialize (Hr Ha). rewrite Hk in Hr. by rewrite Hr.
  - intros c d ids infos w _ Ha Hnd Hk. destruct (GetVideo_quiet ids w Hnd) as (r & w' & E & Hw & _ & Hr).
    exists w'. split; [ | done]. simpl. unfold mock_GetVideo. simpl. rewrite E. specialize (Hr Ha). rewrite Hk in Hr. by rewrite Hr.
Qed.

(** ** The probes *)
Context `{TDigest} `{Ranker}.

(** A probe changes one counter, and no time passes when it is answered at
    once. *)
Definition learned (c : counter) (n : Z) (e e' : env world) : Prop :=
  counters (srv e') c = n /\ (forall k, k <> c -> counters (srv e') k = counters (srv e) k) /\
  options (srv e') = options (srv e) /\ isMock (srv e') = isMock (srv e) /\
  TrendingCache (srv e') = TrendingCache (srv e) /\ w_now (outer e') = w_now (outer e).

(** Any answer a quiet service gives to a probe of size [highest] teaches the
    smaller of the probe's size and the service's limit, and at least 1. *)
Lemma probe_answer_limit {A} prefix highest max (r : result A) :
  1 <= highest -> 0 <= max < 2 ^ 63 ->
  (max < highest -> r = inr (Status InvalidArgument (prefix ++ fmt_d max))) ->
  (highest <= max -> (exists a, r = inl a) \/ exists m, r = inr (Status NotFound m)) ->
  probe_answer prefix highest r = Some (Some (Z.max 0 (Z.min highest max - 1))).
Proof.
  intros H1 Hmax Hbig Hsmall. destruct (decide (max < highest)) as [Hlt | Hge].
  - rewrite (Hbig Hlt). simpl. rewrite Sscanf_Sprintf by done. do 3 f_equal. lia.
  - replace (Z.min highest max) with highest by lia.
    destruct Hsmall as [[a ->] | [m ->]]; [lia | done | done].
Qed.

Lemma probe_loop_learned {A} fuel limit prefix highest n (ask : st (env world) (result A)) e r e1 :
  ask e = Ok (r, e1) -> srv e1 = srv e -> w_now (outer e1) = w_now (outer e) ->
  counters (srv e) limit = 1 -> 1 <= n < 2 ^ 63 ->
  probe_answer prefix highest r = Some (Some (Z.max 0 (n - 1))) ->
  exists e', probe_loop (Datatypes.S fuel) limit prefix highest ask e = Ok (true, e') /\ learned limit n e e'.
Proof.
  intros E Hs Hw Hc Hn Hp. simpl. rewrite (st_bind_Ok _ _ _ _ _ E), Hp.
  rewrite (st_bind_Ok _ _ _ _ _ eq_refl). eexists. split; [reflexivity | ]. unfold learned. cbn -[u64]. rewrite Hs, Hw.
  split; [ | split; [intros k Hk; by rewrite decide_False | done]].
  rewrite decide_True, Hc by done. rewrite u64_small; lia.
Qed.

Lemma UpdateUser_learned fuel e :
  isMock (srv e) = true -> counters (srv e) UserServiceMaxBatchSize = 1 -> 1 <= MaxBatchSize (options (srv e)) < 2 ^ 63 ->
  1 <= us_MaxBatchSize (us_options us) ->
  exists e', UpdateUserServiceMaxBatchSize (Datatypes.S fuel) e = Ok (true, e') /\
    learned UserServiceMaxBatchSize (Z.min (MaxBatchSize (options (srv e))) (us_MaxBatchSize (us_options us))) e e'.
Proof.
  intros Hm Hc Hopt Hmax. unfold UpdateUserServiceMaxBatchSize. set (highest := MaxBatchSize (options (srv e))) in *.
  rewrite (st_bind_Ok _ _ e (Some MockClient) e) by (unfold probe_client, bind, gets; by rewrite Hm).
  rewrite (st_bind_Ok _ _ _ _ _ eq_refl). fold highest. rewrite (proj2 (Z.ltb_ge highest 1)) by lia. cbn zeta.
  rewrite (st_bind_Ok _ _ e (w_now (outer e) + 10 * seconds) e) by done.
  set (ids := replicate (Z.to_nat highest) 204054).
  assert (Hlen : len ids = highest) by (unfold len, ids; rewrite length_replicate; lia).
  assert (Hne : ids <> []) by (intros Hnil; rewrite Hnil in Hlen; unfold len in Hlen; simpl in Hlen; lia).
  destruct (GetUser_quiet ids (outer e)) as (r & w' & E & Hw & Hbig & Hsmall). rewrite Hlen in Hbig.
  eapply (probe_loop_learned _ _ _ highest _ _ _ r (Env (srv e) w')); try done; [ | lia | ].
  - unfold call, zoom. simpl. unfold mock_GetUser. simpl. by rewrite E.
  - apply probe_answer_limit; [lia | lia | by intros Hlt; apply Hbig | ].
    intros Hle. assert (Ha : acceptable (us_MaxBatchSize (us_options us)) ids) by (split; [done | lia]).
    specialize (Hsmall Ha). destruct (known (users us) ids); [left; by eexists | by right].
Qed.

Lemma UpdateVideo_learned fuel e :
  isMock (srv e) = true -> counters (srv e) VideoServiceMaxBatchSize = 1 -> 1 <= MaxBatchSize (options (srv e)) < 2 ^ 63 ->
  1 <= vs_MaxBatchSize (vs_options vs) ->
  exists e', UpdateVideoServiceMaxBatchSize (Datatypes.S fuel) e = Ok (true, e') /\
    learned VideoServiceMaxBatchSize (Z.min (MaxBatchSize (options (srv e))) (vs_MaxBatchSize (vs_options vs))) e e'.
Proof.
  intros Hm Hc Hopt Hmax. unfold UpdateVideoServiceMaxBatchSize. set (highest := MaxBatchSize (options (srv e))) in *.
  rewrite (st_bind_Ok _ _ e (Some MockClient) e) by (unfold probe_client, bind, gets; by rewrite Hm).
  rewrite (st_bind_Ok _ _ _ _ _ eq_refl). fold highest. rewrite (proj2 (Z.ltb_ge highest 1)) by lia. cbn zeta.
  rewrite (st_bind_Ok _ _ e (w_now (outer e) + 10 * seconds) e) by done.
  set (ids := map (fun i => 1300 + Z.of_nat i) (seq 0 (Z.to_nat highest))).
  assert (Hlen : len ids = highest) by (unfold len, ids; rewrite length_map, length_seq; lia).
  assert (Hne : ids <> []) by (intros Hnil; rewrite Hnil in Hlen; unfold len in Hlen; simpl in Hlen; lia).
  assert (Hnd : NoDup ids) .
  { assert (Inj (=) (=) (fun i => 1300 + Z.of_nat i)) by (intros x y; lia).
    unfold ids. apply NoDup_fmap_2; [done | apply NoDup_seq]. }
  destruct (GetVideo_quiet ids (outer e) Hnd) as (r & w' & E & Hw & Hbig & Hsmall). rewrite Hlen in Hbig.
  eapply (probe_loop_learned _ _ _ highest _ _ _ r (Env (srv e) w')); try done; [ | lia | ].
  - unfold call, zoom. simpl. unfold mock_GetVideo. simpl. by rewrite E.
  - apply probe_answer_limit; [lia | lia | by intros Hlt; apply Hbig | ].
    intros Hle. assert (Ha : acceptable (vs_MaxBatchSize (vs_options vs)) ids) by (split; [done | lia]).
    specialize (Hsmall Ha). destruct (known (videos vs) ids); [left; by eexists | by right].
Qed.
End mock.

(** The probes.  Against quiet services, each probe ends after one call and
    leaves in its counter the smaller of the configured batch size and the
    service's own limit, which it has scanned out of the error message when the
    service refused the probe; no other counter changes. *)
Theorem probes_learn_limits (us : UserServiceServer) (vs : VideoServiceServer) `{TDigest} `{Ranker} fuel (e : env world) :
  quiet (us_fi us) -> quiet (vs_fi vs) ->
  1 <= us_MaxBatchSize (us_options us) < 2 ^ 63 -> 1 <= vs_MaxBatchSize (vs_options vs) < 2 ^ 63 ->
  1 <= MaxBatchSize (options (srv e)) < 2 ^ 63 -> isMock (srv e) = true ->
  counters (srv e) UserServiceMaxBatchSize = 1 -> counters (srv e) VideoServiceMaxBatchSize = 1 ->
  let b := MockBackend (MkMockUser us) (MkMockVideo vs) in
  exists e1 e2, UpdateUserServiceMaxBatchSize (Datatypes.S fuel) e = Ok (true, e1) /\
    UpdateVideoServiceMaxBatchSize (Datatypes.S fuel) e1 = Ok (true, e2) /\
    counters (srv e2) UserServiceMaxBatchSize = Z.min (MaxBatchSize (options (srv e))) (us_MaxBatchSize (us_options us)) /\
    counters (srv e2) VideoServiceMaxBatchSize = Z.min (MaxBatchSize (options (srv e))) (vs_MaxBatchSize (vs_options vs)) /\
    forall k, k <> UserServiceMaxBatchSize -> k <> VideoServiceMaxBatchSize -> counters (srv e2) k = counters (srv e) k.
Proof.
  intros Hqu Hqv Hu Hv Hopt Hm Hcu Hcv b.
  destruct (UpdateUser_learned us vs Hqu ltac:(lia) fuel e) as (e1 & E1 & Hn1 & Hk1 & Ho1 & Hm1 & _); [done | done | lia | lia | ].
  destruct (UpdateVideo_learned us vs Hqv ltac:(lia) fuel e1) as (e2 & E2 & Hn2 & Hk2 & _);
    [congruence | by rewrite Hk1 | rewrite Ho1; lia | lia | ].
  exists e1, e2. split; [exact E1 | ]. split; [exact E2 | ]. rewrite Ho1 in Hn2.
  split; [by rewrite Hk2 | ]. split; [done | ]. intros k H1' H2'. by rewrite Hk2, Hk1.
Qed.

Lemma MakeUserServiceServer_quiet `{GoFakeIt} source opts us :
  MakeUserServiceServer source opts = Ok us ->
  us_SleepNs opts = 0 -> us_FailureRate opts = 0 -> us_ResponseOmissionRate opts = 0 -> quiet (us_fi us).
Proof.
  unfold MakeUserServiceServer, quiet. intros E E1 E2 E3. rewrite E1, E2, E3 in E.
  destruct (makeRandomUsers _) as [[db g]| | ]; [ | done..].
  injection E as <-. done.
Qed.

Lemma MakeVideoServiceServer_quiet `{GoFakeIt} source opts vs :
  MakeVideoServiceServer source opts = Ok vs ->
  vs_SleepNs opts = 0 -> vs_FailureRate opts = 0 -> vs_ResponseOmissionRate opts = 0 -> quiet (vs_fi vs).
Proof.
  unfold MakeVideoServiceServer, quiet. intros E E1 E2 E3. rewrite E1, E2, E3 in E.
  destruct (makeRandomVideos _) as [[[db top] g]| | ]; [ | done..].
  injection E as <-. done.
Qed.

(** ** Requests to a server that has probed quiet services *)
Section served.
Context `{TDigest} `{Ranker}.

(** The videos of the distinct ids the followed users like, by rank. *)
Definition recommended (udb : gmap Z UserInfo) (vdb : gmap Z VideoInfo) (u : UserInfo) (ranked : list VideoInfo) : Prop :=
  exists ids vs, NoDup ids /\ (forall x, x ∈ ids <-> liked_by udb u x) /\ known vdb ids = Some vs /\ ranked ≡ₚ vs /\
    StronglySorted (fun v w => Rank (UserCoefficients u) (VideoCoefficients w)
                               <= Rank (UserCoefficients u) (VideoCoefficients v)) ranked.

(** The batch limits are within those of the services. *)
Definition ready (umax vmax : Z) (e : env world) : Prop :=
  isMock (srv e) = true /\ 1 <= counters (srv e) UserServiceMaxBatchSize <= umax /\
  1 <= counters (srv e) VideoServiceMaxBatchSize <= vmax.

(** The databases of two services made from one seed. *)
Record twin_databases (nu nv : Z) (udb : gmap Z UserInfo) (vdb : gmap Z VideoInfo) : Prop := {
  td_users : table_ok (user_ok nu nv) USER_ID_OFFSET nu udb;
  td_videos : table_ok (fun id v => VideoId v = id) VIDEO_ID_OFFSET nv vdb;
  td_range : nv < 2 ^ 31
}.

Lemma twin_size nu nv udb vdb : 0 <= nv -> twin_databases nu nv udb vdb -> Z.of_nat (size vdb) < 2 ^ 31.
Proof.
  intros Hnv [_ [Hdv _] Hr]. rewrite <- size_dom. set (all := (fun k => VIDEO_ID_OFFSET + Z.of_nat k) <$> seq 0 (Z.to_nat nv)).
  assert (Hsub : dom vdb ⊆ list_to_set (C := gset Z) all).
  { intros v Hv. apply elem_of_dom, Hdv in Hv. unfold id_in in Hv.
    apply elem_of_list_to_set, list_elem_of_fmap. exists (Z.to_nat (v - VIDEO_ID_OFFSET)). rewrite elem_of_seq. lia. }
  apply subseteq_size in Hsub. rewrite size_list_to_set in Hsub.
  - unfold all in Hsub. rewrite length_fmap, length_seq in Hsub. lia.
  - assert (Inj (=) (=) (fun k => VIDEO_ID_OFFSET + Z.of_nat k)) by (intros a c; lia).
    apply NoDup_fmap_2; [done | apply NoDup_seq].
Qed.

(** A user that follows someone can be served. *)
Lemma twin_servable nu nv udb vdb id u :
  twin_databases nu nv udb vdb -> udb !! id = Some u -> SubscribedTo u <> [] -> servable udb vdb u.
Proof.
  intros [[Hdu Hok] [Hdv _] _] Hu Hne. destruct (Hok id u Hu) as [_ Hsubs _ _]. rewrite Forall_forall in Hsubs.
  split.
  - done.
  - intros s Hs. apply Hdu. by apply Hsubs.
  - intros y (s & f & Hs & Hf & Hy). apply Hdv. destruct (Hok s f Hf) as [_ _ Hl _]. rewrite Forall_forall in Hl. auto.
  - destruct (SubscribedTo u) as [|s l] eqn:Es; [done | ].
    destruct (Hsubs s) as [Hin _]; [by left | ]. apply Hdu in Hin as [f Hf].
    pose proof (uo_likes _ _ _ _ (Hok s f Hf)) as Hlk. destruct (LikedVideos f) as [|x xs] eqn:Ex; [done | ].
    exists x, s, f. rewrite Es, Ex. split_and!; [by left | done | by left].
Qed.

(** Such a server serves every such user, and is ready for the next. *)
Lemma request_served us vs nu nv usched vsched d userId limit u e :
  let b := MockBackend (MkMockUser us) (MkMockVideo vs) in
  quiet (us_fi us) -> quiet (vs_fi vs) -> us_MaxBatchSize (us_options us) < 2 ^ 63 -> vs_MaxBatchSize (vs_options vs) < 2 ^ 63 ->
  0 <= nv -> twin_databases nu nv (users us) (videos vs) ->
  ready (us_MaxBatchSize (us_options us)) (vs_MaxBatchSize (vs_options vs)) e ->
  fair usched -> fair vsched -> (forall t, d = Some t -> w_now (outer e) < t) -> 0 <= limit ->
  users us !! userId = Some u -> SubscribedTo u <> [] ->
  exists e' ranked, GetTopVideos usched vsched d userId limit e = Ok (inl (MkResponse (cut limit ranked) false), e') /\
    recommended (users us) (videos vs) u ranked /\
    ready (us_MaxBatchSize (us_options us)) (vs_MaxBatchSize (vs_options vs)) e' /\ w_now (outer e') = w_now (outer e).
Proof.
  intros b Hqu Hqv Hu Hv Hnv Ht (Hm & Hcu & Hcv) Hfu Hfv Hd Hlim Hdb Hne.
  assert (Hans : Answering world (users us) (videos vs) (us_MaxBatchSize (us_options us)) (vs_MaxBatchSize (vs_options vs)) (fun _ => True) (fun _ => True) (fun _ => True))
    by (apply (mock_answering us vs Hqu Hqv)).
  assert (Hid : id_in USER_ID_OFFSET nu userId) by by apply Ht; exists u.
  destruct (top_videos_fresh (users us) (videos vs) _ _ _ _ _ usched vsched d userId limit u (entered e))
    as (ids & vds & ranked & e3 & E & Hnd & Hids & Hk & Hperm & Hsort & Hs & Hw & _); try done.
  - by apply (twin_size nu nv (users us)).
  - unfold id_in, USER_ID_OFFSET in Hid. lia.
  - by eapply twin_servable.
  - destruct (GetTopVideos_top _ _ _ _ _ _ _ _ E) as (e4 & E4 & Ho & Hm4 & Hc4). exists e4, ranked.
    split; [exact E4 | ]. split; [by exists ids, vds | ]. split; [ | rewrite Ho; exact Hw].
    unfold ready. rewrite Hm4, !Hc4, Hs by done. split; [exact Hm | split; [exact Hcu | exact Hcv]].
Qed.
End served.

(** The probes make a fresh server ready. *)
Lemma probes_ready (us : UserServiceServer) (vs : VideoServiceServer) `{TDigest} `{Ranker} opts w :
  quiet (us_fi us) -> quiet (vs_fi vs) ->
  1 <= us_MaxBatchSize (us_options us) < 2 ^ 63 -> 1 <= vs_MaxBatchSize (vs_options vs) < 2 ^ 63 ->
  1 <= MaxBatchSize opts < 2 ^ 63 ->
  let b := MockBackend (MkMockUser us) (MkMockVideo vs) in
  exists e1 e2, UpdateUserServiceMaxBatchSize 1 (Env (MakeVideoRecServiceServerWithMocks opts) w) = Ok (true, e1) /\
    UpdateVideoServiceMaxBatchSize 1 e1 = Ok (true, e2) /\
    ready (us_MaxBatchSize (us_options us)) (vs_MaxBatchSize (vs_options vs)) e2 /\ w_now (outer e2) = w_now w.
Proof.
  intros Hqu Hqv Hu Hv Hopt b. set (e := Env (MakeVideoRecServiceServerWithMocks opts) w).
  destruct (UpdateUser_learned us vs Hqu ltac:(lia) 0 e) as (e1 & E1 & Hn1 & Hk1 & Ho1 & Hm1 & _ & Hw1); [done | done | done | lia | ].
  destruct (UpdateVideo_learned us vs Hqv ltac:(lia) 0 e1) as (e2 & E2 & Hn2 & Hk2 & _ & Hm2 & _ & Hw2);
    [by rewrite Hm1 | by rewrite Hk1 | by rewrite Ho1 | lia | ].
  exists e1, e2. split; [exact E1 | ]. split; [exact E2 | ]. split; [ | by rewrite Hw2, Hw1].
  unfold ready. rewrite Hm2, Hm1, Hk2, Hn1, Hn2, Ho1 by done. simpl. split_and!; [done | lia..].
Qed.

(** Two services from one seed, without failure injection. *)
Lemma services_start `{GoFakeIt} source uopts vopts :
  us_Seed uopts = vs_Seed vopts ->
  us_SleepNs uopts = 0 -> us_FailureRate uopts = 0 -> us_ResponseOmissionRate uopts = 0 ->
  vs_SleepNs vopts = 0 -> vs_FailureRate vopts = 0 -> vs_ResponseOmissionRate vopts = 0 ->
  exists us vs nu nv, MakeUserServiceServer source uopts = Ok us /\ MakeVideoServiceServer source vopts = Ok vs /\
    us_options us = uopts /\ vs_options vs = vopts /\ quiet (us_fi us) /\ quiet (vs_fi vs) /\ 0 <= nv /\
    twin_databases nu nv (users us) (videos vs) /\ 5000 <= nu.
Proof.
  intros Hseed Hu1 Hu2 Hu3 Hv1 Hv2 Hv3.
  destruct (MakeUserServiceServer_total source uopts) as (us & nu & Eu & Huo & Hnu & Hdu).
  destruct (MakeVideoServiceServer_total source vopts) as (vs & Ev & Hvo & Hdv & _).
  pose proof (Z.mod_pos_bound (first_draw (source (vs_Seed vopts))) 500).
  exists us, vs, nu, (video_count source (us_Seed uopts)). split; [done | ]. split; [done | ]. split; [done | ]. split; [done | ].
  split; [by eapply MakeUserServiceServer_quiet | ]. split; [by eapply MakeVideoServiceServer_quiet | ].
  split; [unfold video_count; rewrite Hseed; lia | ]. split; [ | lia].
  split; [done | by rewrite Hseed | unfold video_count; rewrite Hseed; lia].
Qed.

(** C10: end to end.  Start the two services from the same seed without failure
    injection, a recommendation server with mock clients over them, and let it
    probe them.  Then, under every schedule of its goroutines, a request in
    time for any user that follows someone is answered, not stale,
    with the distinct videos liked by the users it follows: all of
    them, each once, in decreasing order of rank, cut to the limit. *)
Theorem recommendation_end_to_end `{GoFakeIt} (source : Z -> rng) (uopts : UserServiceOptions) (vopts : VideoServiceOptions)
    `{TDigest} `{Ranker} (opts : VideoRecServiceOptions) :
  us_Seed uopts = vs_Seed vopts ->
  us_SleepNs uopts = 0 -> us_FailureRate uopts = 0 -> us_ResponseOmissionRate uopts = 0 ->
  vs_SleepNs vopts = 0 -> vs_FailureRate vopts = 0 -> vs_ResponseOmissionRate vopts = 0 ->
  1 <= us_MaxBatchSize uopts < 2 ^ 63 -> 1 <= vs_MaxBatchSize vopts < 2 ^ 63 -> 1 <= MaxBatchSize opts < 2 ^ 63 ->
  exists uc vc, MakeMockUserServiceClient source uopts = Ok uc /\ MakeMockVideoServiceClient source vopts = Ok vc /\
    let b := MockBackend uc vc in
    let udb := users (u_inMemServer uc) in
    let vdb := videos (v_inMemServer vc) in
    forall w, exists e1 e2,
      UpdateUserServiceMaxBatchSize 1 (Env (MakeVideoRecServiceServerWithMocks opts) w) = Ok (true, e1) /\
      UpdateVideoServiceMaxBatchSize 1 e1 = Ok (true, e2) /\
      forall usched vsched d userId limit u,
        fair usched -> fair vsched -> (forall t, d = Some t -> w_now w < t) -> 0 <= limit ->
        udb !! userId = Some u -> SubscribedTo u <> [] ->
        exists e3 ids vs ranked,
          GetTopVideos usched vsched d userId limit e2 = Ok (inl (MkResponse (cut limit ranked) false), e3) /\
          NoDup ids /\ (forall x, x ∈ ids <-> liked_by udb u x) /\ known vdb ids = Some vs /\ ranked ≡ₚ vs /\
          StronglySorted (fun v w => Rank (UserCoefficients u) (VideoCoefficients w)
                                     <= Rank (UserCoefficients u) (VideoCoefficients v)) ranked.
Proof.
  intros Hseed Hu1 Hu2 Hu3 Hv1 Hv2 Hv3 Hub Hvb Hopt.
  destruct (services_start source uopts vopts Hseed) as (us & vs & nu & nv & Eu & Ev & Huo & Hvo & Hqu & Hqv & Hnv & Ht & _); [done.. | ].
  exists (MkMockUser us), (MkMockVideo vs). unfold MakeMockUserServiceClient, MakeMockVideoServiceClient. rewrite Eu, Ev.
  split; [done | ]. split; [done | ]. cbn zeta. intros w.
  destruct (probes_ready us vs opts w) as (e1 & e2 & E1 & E2 & Hr & Hw); [done | done | by rewrite ?Huo, ?Hvo.. | ].
  exists e1, e2. split; [exact E1 | ]. split; [exact E2 | ].
  intros usched vsched d userId limit u Hfu Hfv Hd Hlim Hu Hne.
  destruct (request_served us vs nu nv usched vsched d userId limit u e2)
    as (e3 & ranked & E & (ids & vds & Hrec) & _); try done; [rewrite Huo; lia | rewrite Hvo; lia | by rewrite Hw | ].
  by exists e3, ids, vds, ranked.
Qed.
