(* ===== verification/VideoRecExamples.v ===== *)
(** * Runs of the recommendation service

    Concrete servers for the theorems of the other files, and the runs that
    show where [GetTopVideos] does less than it should. *)
From Stdlib Require Import String.
From S2P Require Import Prelude Strconv Effects FailureInjection Services ServicesSpec VideoRec VideoRecTop.
From S2P Require Import VideoRecSpec VideoRecFresh VideoRecMock.

Local Open Scope Z_scope.
Local Open Scope st_scope.

(** ** Instances of the parameters *)
#[local] Instance blank_fake : GoFakeIt := {
  fake := unit; fake_Seed := fun _ => tt;
  fake_Email := fun _ => ([], tt); fake_Username := fun _ => ([], tt); fake_Name := fun _ => ([], tt);
  fake_AdjectiveDescriptive := fun _ => ([], tt); fake_Vegetable := fun _ => ([], tt); fake_Animal := fun _ => ([], tt);
  fake_NounUncountable := fun _ => ([], tt); fake_AppName := fun _ => ([], tt); fake_HackerVerb := fun _ => ([], tt);
  fake_AdverbPlace := fun _ => ([], tt)
}.

(** A digest that keeps every value, and a ranker that compares feature 0. *)
#[local] Instance list_digest : TDigest := {
  tdigest := list Z; float := Z; td_New := fun _ => []; td_Add := cons;
  td_Quantile99 := fun l => foldr Z.max 0 l; float32_of := fun z => z
}.
#[local] Instance feature_ranker : Ranker := fun u v => default 0 (u !! 0) * default 0 (v !! 0).

(** The goroutines of a group run in order. *)
Definition in_order : schedule := MkSchedule (fun n => seq 0 n) true.

Lemma in_order_fair : fair in_order.
Proof. by intros n. Qed.

(** ** Two small services *)
Definition user (id : Z) (subs liked : list Z) : UserInfo := MkUserInfo id [] [] [] subs {[ 0 := 1 ]} liked.
Definition video (id rank : Z) : VideoInfo := MkVideoInfo id [] [] [] {[ 0 := rank ]}.

Definition small_users (max : Z) (fi : FailureInjector) : UserServiceServer :=
  MkUserServer (MkUserServiceOptions 42 0 0 0 max) fi
    {[ 1 := user 1 [2; 3] [10]; 2 := user 2 [1] [11; 12]; 3 := user 3 [1] [12; 13] ]}.
Definition small_videos (max : Z) (fi : FailureInjector) : VideoServiceServer :=
  MkVideoServer (MkVideoServiceOptions 42 60 0 0 0 max) fi
    {[ 10 := video 10 4; 11 := video 11 1; 12 := video 12 3; 13 := video 13 2 ]} [10; 13].

Definition small_backend (max : Z) : Backend world :=
  MockBackend (MkMockUser (small_users max MakeFailureInjector)) (MkMockVideo (small_videos max MakeFailureInjector)).

Definition zero_world : world := World (Rng (fun _ => 0) 0) 0.
Definition start (opts : VideoRecServiceOptions) : env world := Env (MakeVideoRecServiceServerWithMocks opts) zero_world.
Definition plain : VideoRecServiceOptions := MkOptions [] [] 50 false false.

(** ** Witnesses *)
Lemma batches_partition_witness :
  let b := small_backend 50 in
  concat (map (batch_of [7; 8; 9] 2) (seq 0 2)) = [7; 8; 9] /\
  batch_ids [7; 8; 9] 2 1 (Z.of_nat 1) (start plain) = Ok (Some [9], start plain).
Proof.
  intros b. destruct (batches_partition [7; 8; 9] 2 (start plain)) as [Hc Hb]; [lia | ]. split; [exact Hc | ].
  apply (Hb 1%nat). vm_compute. constructor.
Defined.

Lemma rankVideos_spec_witness :
  let b := small_backend 50 in
  exists ranked, rankVideos {[ 0 := 1 ]} [video 11 1; video 12 3; video 13 2] 2 (start plain) = Ok (cut 2 ranked, start plain) /\
    ranked ≡ₚ [video 11 1; video 12 3; video 13 2].
Proof.
  intros b. destruct (rankVideos_spec {[ 0 := 1 ]} [video 11 1; video 12 3; video 13 2] 2 (start plain))
    as (ranked & E & Hp & _); [reflexivity | ]. exists ranked. split; [exact E | exact Hp].
Defined.

(** A run that ends, without its final state. *)
Definition ends {A} (m : outcome A) : bool := match m with Ok _ => true | _ => false end.

Lemma ends_Ok {A B} (m : outcome (A * B)) : ends m = true -> exists a b, m = Ok (a, b).
Proof. destruct m as [[a b]| | ]; [by eauto | done..]. Qed.

Lemma GetTopVideos_accounts_witness :
  let b := small_backend 1 in
  exists r e', GetTopVideos in_order in_order None 1 2 (start plain) = Ok (r, e') /\
    counters (srv e') ActiveRequests = 0 /\ counters (srv e') TotalRequests = 1.
Proof.
  intros b. destruct (ends_Ok (GetTopVideos in_order in_order None 1 2 (start plain))) as (r & e' & E); [vm_compute; reflexivity | ].
  exists r, e'. split; [exact E | ].
  destruct (GetTopVideos_accounts in_order in_order None 1 2 (start plain) r e' E) as (Ha & Ht & _).
  - vm_compute. split; [intros Hc; discriminate Hc | reflexivity].
  - split; [exact Ha | exact Ht].
Defined.

(** A server with a cache, whose user service always fails. *)
Definition failing_backend : Backend world :=
  MockBackend (MkMockUser (small_users 50 (SetInjectionConfig 0 1 0 MakeFailureInjector)))
    (MkMockVideo (small_videos 50 MakeFailureInjector)).
Definition cached_start (vs : list VideoInfo) : env world :=
  Env (MkServer _ plain initial_counters true [] vs 0) zero_world.

Lemma fallback_never_fails_witness :
  let b := failing_backend in
  exists r e' resp, GetTopVideos in_order in_order None 1 1 (cached_start [video 10 4]) = Ok (r, e') /\ r = inl resp.
Proof.
  intros b. destruct (ends_Ok (GetTopVideos in_order in_order None 1 1 (cached_start [video 10 4]))) as (r & e' & E);
    [vm_compute; reflexivity | ].
  destruct (fallback_never_fails in_order in_order None 1 1 (cached_start [video 10 4]) r e' E) as (resp & Hr);
    [reflexivity | discriminate | reflexivity | discriminate | ].
  exists r, e', resp. split; [exact E | exact Hr].
Defined.

Lemma probes_learn_limits_witness :
  let b := small_backend 3 in
  exists e1 e2, UpdateUserServiceMaxBatchSize 1 (start plain) = Ok (true, e1) /\
    UpdateVideoServiceMaxBatchSize 1 e1 = Ok (true, e2) /\
    counters (srv e2) UserServiceMaxBatchSize = 3 /\ counters (srv e2) VideoServiceMaxBatchSize = 3.
Proof.
  intros b. destruct (probes_learn_limits (small_users 3 MakeFailureInjector) (small_videos 3 MakeFailureInjector) 0 (start plain))
    as (e1 & e2 & E1 & E2 & Hu & Hv & _); [reflexivity | reflexivity | cbn; lia | cbn; lia | cbn; lia | reflexivity.. | ].
  exists e1, e2. split; [exact E1 | ]. split; [exact E2 | ]. split; [exact Hu | exact Hv].
Defined.

(** *** The whole system, from seeds whose draws are all 0 *)
Definition zeros (seed : Z) : rng := Rng (fun _ => 0) 0.

(** The generator stays at 0. *)
Definition at_zero (g : gen) : Prop := forall n, draws g.1 n = 0.

Lemma at_zero_Intn n : keeps at_zero (rand_Intn n) (fun v => v = 0).
Proof.
  intros g v g' Hg E. unfold rand_Intn, zoom, Intn, first_draw in E. rewrite Hg in E. repeat branch; [done | ].
  injection E as <- <-. split; [exact Hg | done].
Qed.

Lemma at_zero_faked f : keeps at_zero (faked f) anything.
Proof. by intros g v g' Hg [= <- <-]. Qed.

Lemma at_zero_repeat {A} n (body : A -> st gen A) (P : A -> Prop) a :
  P a -> (forall a, P a -> keeps at_zero (body a) P) -> keeps at_zero (repeat_st n body a) P.
Proof.
  intros Ha Hb. revert a Ha. induction n as [|n IH]; intros a Ha; [by apply keeps_ret | ]. eapply keeps_bind; eauto.
Qed.

Lemma repeat_st_S {A} n (body : A -> st gen A) a : repeat_st (S n) body a = bind (body a) (repeat_st n body).
Proof. done. Qed.

Lemma at_zero_user id nu nv :
  keeps at_zero (makeRandomUser id nu nv) (fun u => id <> 200000 -> SubscribedTo u <> []).
Proof.
  unfold makeRandomUser. apply keeps_bind_any; [apply at_zero_faked | intros email].
  apply keeps_bind_any; [apply at_zero_faked | intros name].
  eapply keeps_bind; [apply at_zero_Intn | intros c _].
  apply keeps_bind_any.
  { apply (at_zero_repeat _ _ anything); [done | intros cs _]. eapply keeps_bind; [apply at_zero_Intn | intros f _].
    eapply keeps_bind; [apply at_zero_Intn | intros z _]. by apply keeps_ret. }
  intros cs. eapply keeps_bind; [apply at_zero_Intn | intros k ->]. change (Z.to_nat (0 + 10)) with (S 9). rewrite repeat_st_S.
  set (follows := fun subs : list Z => id <> 200000 -> subs <> []).
  apply (keeps_bind _ follows).
  { apply (keeps_bind _ follows).
    - eapply keeps_bind; [apply at_zero_Intn | intros v ->]. apply keeps_ret. change (u64 (0 + USER_ID_OFFSET)) with 200000.
      intros Hid. by rewrite (proj2 (Z.eqb_neq _ _)) by done.
    - intros subs Hs. apply (at_zero_repeat 9 _ follows); [done | intros l Hl].
      eapply keeps_bind; [apply at_zero_Intn | intros v _]. apply keeps_ret. branch; [by intros ? [_ ?]%app_nil | exact Hl]. }
  intros subs Hs. eapply keeps_bind; [apply at_zero_Intn | intros l _]. apply keeps_bind_any; [ | intros liked; by apply keeps_ret].
  apply (at_zero_repeat _ _ anything); [done | intros ids _]. eapply keeps_bind; [apply at_zero_Intn | intros v _]. by apply keeps_ret.
Qed.

(** All users but the first follow somebody. *)
Definition all_follow (t : gmap Z UserInfo) : Prop := forall id u, t !! id = Some u -> id <> 200000 -> SubscribedTo u <> [].

Lemma zeros_users n from nu nv t : all_follow t -> keeps at_zero (add_users n from nu nv t) all_follow.
Proof.
  revert from t. induction n as [|n IH]; intros from t Ht; cbn [add_users]; [by apply keeps_ret | ].
  eapply keeps_bind; [apply at_zero_user | intros u Hu]. apply IH.
  intros id v [[<- <-] | [_ Hv]]%lookup_insert_Some; [done | by apply Ht].
Qed.

Lemma zeros_table : keeps at_zero makeRandomUsers all_follow.
Proof.
  unfold makeRandomUsers. eapply keeps_bind; [apply at_zero_Intn | intros v _].
  eapply keeps_bind; [apply at_zero_Intn | intros n _]. apply zeros_users. intros id u He. by rewrite lookup_empty in He.
Qed.

Lemma zeros_user us id :
  MakeUserServiceServer zeros DefaultUserServiceOptions = Ok us -> 200000 < id < 205000 ->
  exists u, users us !! id = Some u /\ SubscribedTo u <> [].
Proof.
  intros E Hid. destruct (MakeUserServiceServer_total zeros DefaultUserServiceOptions) as (us' & nu & E' & _ & Hnu & Hdom & _).
  rewrite E in E'. injection E' as <-. destruct (proj2 (Hdom id)) as [u Hu]; [unfold id_in, USER_ID_OFFSET; lia | ].
  exists u. split; [exact Hu | ]. revert E. unfold MakeUserServiceServer. destruct (makeRandomUsers _) as [[t g]| | ] eqn:E; [ | done..].
  intros [= <-]. apply zeros_table in E as [_ Hall]; [ | intros k; reflexivity].
  apply (Hall id); [exact Hu | lia].
Qed.

Lemma zeros_client uc id :
  MakeMockUserServiceClient zeros DefaultUserServiceOptions = Ok uc -> 200000 < id < 205000 ->
  exists u, users (u_inMemServer uc) !! id = Some u /\ SubscribedTo u <> [].
Proof.
  unfold MakeMockUserServiceClient. destruct (MakeUserServiceServer zeros _) as [us| | ] eqn:E; [ | done..].
  intros [= <-]. by apply zeros_user.
Qed.

Lemma recommendation_end_to_end_witness :
  exists uc vc, MakeMockUserServiceClient zeros DefaultUserServiceOptions = Ok uc /\
    MakeMockVideoServiceClient zeros DefaultVideoServiceOptions = Ok vc /\
    let b := MockBackend uc vc in
    exists u e1 e2 e3 resp, users (u_inMemServer uc) !! 200001 = Some u /\ SubscribedTo u <> [] /\
      UpdateUserServiceMaxBatchSize 1 (Env (MakeVideoRecServiceServerWithMocks plain) zero_world) = Ok (true, e1) /\
      UpdateVideoServiceMaxBatchSize 1 e1 = Ok (true, e2) /\
      GetTopVideos in_order in_order None 200001 5 e2 = Ok (inl resp, e3) /\ StaleResponse resp = false.
Proof.
  destruct (recommendation_end_to_end zeros DefaultUserServiceOptions DefaultVideoServiceOptions plain)
    as (uc & vc & Eu & Ev & H); [reflexivity.. | cbn; lia | cbn; lia | cbn; lia | ].
  exists uc, vc. split; [exact Eu | ]. split; [exact Ev | ]. intros b.
  destruct (zeros_client uc 200001 Eu ltac:(lia)) as (u & Hu & Hs). destruct (H zero_world) as (e1 & e2 & E1 & E2 & Hr).
  destruct (Hr in_order in_order None 200001 5 u) as (e3 & ids & vs & ranked & E3 & _);
    [apply in_order_fair | apply in_order_fair | discriminate | lia | exact Hu | exact Hs | ].
  exists u, e1, e2, e3, (MkResponse (cut 5 ranked) false). split; [exact Hu | ]. split; [exact Hs | ].
  split; [exact E1 | ]. split; [exact E2 | ]. split; [exact E3 | reflexivity].
Defined.

(** ** Runs that do less than they should *)

(** What a client sees of a run, and the counters given. *)
Definition seen (m : outcome (result GetTopVideosResponse * env world)) (cs : list counter)
    : option ((list Z * bool + error) * list Z) :=
  match m with
  | Ok (r, e) => Some (match r with inl r => inl (VideoId <$> Videos r, StaleResponse r) | inr err => inr err end,
                       counters (srv e) <$> cs)
  | _ => None
  end.

(** Neither fallback nor retries. *)
Definition strict : VideoRecServiceOptions := MkOptions [] [] 50 true true.

(** The user service fails every request that draws an even number. *)
Definition flaky_backend : Backend world :=
  MockBackend (MkMockUser (small_users 50 (SetInjectionConfig 0 2 0 MakeFailureInjector)))
    (MkMockVideo (small_videos 50 MakeFailureInjector)).
(** And only the third request draws one. *)
Definition third_fails (opts : VideoRecServiceOptions) : env world :=
  Env (MakeVideoRecServiceServerWithMocks opts) (World (Rng (fun n => if (n =? 2)%N then 0 else 1) 0) 0).

(** A failed batch can vanish.  User 1 follows users 2 and 3, and the batch
    with user 3 fails for good, without fallback and without retries.  The
    request is answered all the same, as complete and not stale, without video
    13, which user 3 likes, and [TotalErrors] stays 0: only the first message on
    the error channel is read, and the first batch sent nil. *)
Theorem failed_batch_vanishes :
  let b := flaky_backend in
  seen (GetTopVideos in_order in_order None 1 0 (third_fails strict)) [UserServiceErrors; TotalErrors]
    = Some (inl ([12; 11], false), [1; 0]) /\
  (LikedVideos <$> users (small_users 50 MakeFailureInjector) !! 3) = Some [12; 13].
Proof. split; vm_compute; reflexivity. Qed.

(** The video service takes three seconds. *)
Definition slow_backend : Backend world :=
  MockBackend (MkMockUser (small_users 50 MakeFailureInjector))
    (MkMockVideo (small_videos 50 (SetInjectionConfig (3 * 10 ^ 9) 0 0 MakeFailureInjector))).
Definition with_cache (opts : VideoRecServiceOptions) : env world :=
  Env (MkServer _ opts (fun c => match c with UserServiceMaxBatchSize | VideoServiceMaxBatchSize => 50 | _ => 0 end)
         true [] [video 10 4] 0) zero_world.

(** Late answers of the video service.  Without fallback, a request whose
    video call took longer than its two seconds is answered with no videos, as a
    success marked stale, because the error of [deadlineExc] is dropped and its
    nil response is read.  With fallback it gets the cached videos, and the one
    stale response is counted twice. *)
Theorem late_videos_are_stale :
  let b := slow_backend in
  seen (GetTopVideos in_order in_order None 1 0 (with_cache strict)) [StaleResponses] = Some (inl ([], true), [1]) /\
  seen (GetTopVideos in_order in_order None 1 0 (with_cache plain)) [StaleResponses] = Some (inl ([10], true), [2]).
Proof. split; vm_compute; reflexivity. Qed.
