(* ===== verification/VideoRecPool.v ===== *)
(** * The recommendation service of lab 2:
      [lab2/video_rec_service/server_lib/server_lib.go]

    Lab 2 keeps a pool of connections to each service, made when the server is
    made, and takes the next one for every use.  Its requests have no deadline
    of their own, give the video calls ten seconds, refuse users who follow
    nobody, and wait for all video goroutines before looking at their messages.
    The text it shares with lab 1 is used from there, over a state in which the
    pool stands beside the outside world. *)
From Stdlib Require Import String.
From S2P Require Import Prelude Strconv Effects Services VideoRec VideoRecTop.

Local Open Scope Z_scope.
Local Open Scope st_scope.

(** The fields lab 2 adds to the server and its options, and what they stand
    beside. *)
Record pooled {conn S : Type} := Pooled {
  ClientPoolSize : Z;
  UserClientConn : list conn; VideoClientConn : list conn;
  UserConnIndex : Z; VideoConnIndex : Z;
  net : S
}.
Arguments pooled : clear implicits.

Section pool.
Context {S : Type} {B : Backend S} `{TDigest} `{Ranker}.
Abbreviation pooled := (pooled (@conn S B) S).

Definition set_net (o : S) (p : pooled) : pooled :=
  Pooled _ _ (ClientPoolSize p) (UserClientConn p) (VideoClientConn p) (UserConnIndex p) (VideoConnIndex p) o.
Definition on_net {A} (m : st S A) : st pooled A := zoom net set_net m.

(** The calls do not touch the pool. *)
#[export] Instance pooled_backend : Backend pooled := {
  conn := @conn S B;
  NewClient := fun a => on_net (NewClient a);
  call_GetUser := fun c d ids => on_net (call_GetUser c d ids);
  call_GetVideo := fun c d ids => on_net (call_GetVideo c d ids);
  call_GetTrendingVideos := fun c d => on_net (call_GetTrendingVideos c d);
  clock := fun p => clock (net p);
  time_Sleep := fun d => on_net (time_Sleep d);
  error_string := error_string
}.
Abbreviation env := (env pooled).
Abbreviation conn := (@conn pooled pooled_backend).

(** ** What lab 2 shares with lab 1 *)
Definition ConnectClient (target : Z) : st env (result conn) := VideoRec.ConnectClient target.
Definition UpdateCache (sched : schedule) (c : client conn) (maxBatchSize : Z) : st env (option error) :=
  VideoRec.UpdateCache sched c maxBatchSize.
Definition GetCachedVideos (requestLimit : Z) : st env (list VideoInfo) := VideoRec.GetCachedVideos requestLimit.
Definition rankVideos (uc : Coefficients) (vs : list VideoInfo) (limit : Z) : st env (list VideoInfo) :=
  VideoRecTop.rankVideos uc vs limit.
Definition GetStats : st env GetStatsResponse := VideoRecTop.GetStats.

(** ** The pool *)

(** [idx := atomic.AddUint64(index, 1) % uint64(ClientPoolSize)] and the
    connection there. *)
Definition next_user_conn : st pooled conn :=
  modify (fun p => Pooled _ _ (ClientPoolSize p) (UserClientConn p) (VideoClientConn p)
                     (u64 (UserConnIndex p + 1)) (VideoConnIndex p) (net p)) ;;;
  p <- gets (fun p => p) ;;
  idx <- lift (go_rem (UserConnIndex p) (u64 (ClientPoolSize p))) ;;
  lift (index (UserClientConn p) idx).

Definition next_video_conn : st pooled conn :=
  modify (fun p => Pooled _ _ (ClientPoolSize p) (UserClientConn p) (VideoClientConn p)
                     (UserConnIndex p) (u64 (VideoConnIndex p + 1)) (net p)) ;;;
  p <- gets (fun p => p) ;;
  idx <- lift (go_rem (VideoConnIndex p) (u64 (ClientPoolSize p))) ;;
  lift (index (VideoClientConn p) idx).

Definition pool_user_client : st env (client conn) :=
  mock <- gets (fun e => isMock (srv e)) ;;
  if mock : bool then ret MockClient else c <- call next_user_conn ;; ret (ConnClient c).

Definition pool_video_client : st env (client conn) :=
  mock <- gets (fun e => isMock (srv e)) ;;
  if mock : bool then ret MockClient else c <- call next_video_conn ;; ret (ConnClient c).

(** ** Construction *)

(** [n] calls of [ConnectClient], up to the first that fails. *)
Fixpoint dial (n : nat) (target : Z) (conns : list conn) : st env (result (list conn)) :=
  match n with
  | O => ret (inl conns)
  | Datatypes.S n =>
      r <- ConnectClient target ;;
      match r with inl c => dial n target (conns ++ [c]) | inr err => ret (inr err) end
  end.

Definition set_conns (us vs : list conn) : st env unit := modify (fun e =>
  let p := outer e in
  Env (srv e) (Pooled _ _ (ClientPoolSize p) us vs (UserConnIndex p) (VideoConnIndex p) (net p))).

Definition pool_start (isMock : bool) (opts : VideoRecServiceOptions) (size : Z) (o : S) : env :=
  Env (MkServer _ opts initial_counters isMock (td_New 10000) [] 0) (Pooled _ _ size [] [] 0 0 o).

(** The server made, in the state the dialling leaves; nil with an error. *)
Definition MakeVideoRecServiceServer (opts : VideoRecServiceOptions) (clientPoolSize : Z) (o : S)
    : outcome (result unit * env) :=
  let size := Z.max 1 clientPoolSize in
  (us <- dial (Z.to_nat size) 0 [] ;;
   match us with
   | inr err => ret (inr err)
   | inl us =>
       vs <- dial (Z.to_nat size) 1 [] ;;
       match vs with
       | inr err => ret (inr err)
       | inl vs => set_conns us vs ;;; ret (inl tt)
       end
   end) (pool_start false opts size o).

Definition MakeVideoRecServiceServerWithMocks (opts : VideoRecServiceOptions) (clientPoolSize : Z) (o : S) : env :=
  pool_start true opts clientPoolSize o.

(** ** Background work *)

(** One turn of the loop, the client found. *)
Definition refresh_turn (sched : schedule) (videoClient : option (client conn))
    : st env (option (client conn)) :=
  maxBatchSize <- LoadUint64 VideoServiceMaxBatchSize ;;
  c <- match videoClient with Some c => ret c | None => pool_video_client end ;;
  left <- time_until_expiration ;;
  err <- (if left <? 30 * milliseconds then
            err <- UpdateCache sched c (i64 maxBatchSize) ;;
            match err with
            | None =>
                next <- time_until_expiration ;;
                let sleepDuration := i64 (i64 (next - 100) * 10) in
                (if 0 <? sleepDuration then call (time_Sleep sleepDuration)
                 else call (time_Sleep (i64 (- sleepDuration)))) ;;;
                ret None
            | Some e => ret (Some e)
            end
          else
            let sleepDuration := i64 (i64 (left - 100) * 10) in
            (if 0 <? sleepDuration then call (time_Sleep sleepDuration) else ret tt) ;;;
            ret None) ;;
  match err with Some _ => call (time_Sleep (10 * seconds)) | None => ret tt end ;;;
  ret (Some c).

Fixpoint refresh_loop (sched : schedule) (turns : nat) (videoClient : option (client conn)) : st env unit :=
  match turns with
  | O => ret tt
  | Datatypes.S turns => c <- refresh_turn sched videoClient ;; refresh_loop sched turns c
  end.

Definition ContinuallyRefreshCache (sched : schedule) (turns : nat) : st env unit :=
  disabled <- option_is DisableFallback ;;
  if disabled : bool then ret tt else refresh_loop sched turns None.

Definition UpdateUserServiceMaxBatchSize (fuel : nat) : st env bool :=
  c <- pool_user_client ;;
  highest <- gets (fun e => MaxBatchSize (options (srv e))) ;;
  if highest <? 1 then ret true
  else
    let temp := replicate (Z.to_nat highest) 204054 in
    ctx <- WithTimeout (10 * seconds) ;;
    probe_loop fuel UserServiceMaxBatchSize (lit "UserService: user_ids exceeded the max batch size ") highest
      (call (call_GetUser c ctx temp)).

Definition UpdateVideoServiceMaxBatchSize (fuel : nat) : st env bool :=
  c <- pool_video_client ;;
  highest <- gets (fun e => MaxBatchSize (options (srv e))) ;;
  if highest <? 1 then ret true
  else
    let temp := map (fun i => 1300 + Z.of_nat i) (seq 0 (Z.to_nat highest)) in
    ctx <- WithTimeout (10 * seconds) ;;
    probe_loop fuel VideoServiceMaxBatchSize (lit "VideoService: video_ids exceeded the max batch size ") highest
      (call (call_GetVideo c ctx temp)).

(** ** [GetTopVideos] *)

(** The record of the user the request names; [ctx] is the deadline of the
    caller's context. *)
Definition pool_subscriber (c : client conn) (ctx userId limit : Z) : stage (list UserInfo) :=
  if userId =? 0 then AddUint64 TotalErrors 1 ;;; finish_with (serve_cached limit invalid_user_id)
  else
    r <- call (call_GetUser c ctx [userId]) ;;
    match r with
    | inl us => proceed us
    | inr err =>
        AddUint64 UserServiceErrors 1 ;;;
        no_retry <- option_is DisableRetry ;;
        if negb no_retry then
          r <- call (call_GetUser c ctx [userId]) ;;
          match r with
          | inl us => proceed us
          | inr err => both_errors UserServiceErrors ;;; finish_with (serve_cached limit (get_user_error err))
          end
        else AddUint64 TotalErrors 1 ;;; finish_with (serve_cached limit (get_user_error err))
    end.

Definition not_subscribed : reply :=
  inr (Status FailedPrecondition (lit "GetTopVideos: user is not subscribed to anyone")).

Definition pool_users (sched : schedule) (c : client conn) (ctx limit : Z) (user : UserInfo) : stage (list UserInfo) :=
  let subscribedTo := SubscribedTo user in
  let uc := UserCoefficients user in
  if len subscribedTo =? 0 then
    AddUint64 TotalErrors 1 ;;; finish_with (serve_ranked_cached uc limit not_subscribed)
  else
    max <- LoadUint64 UserServiceMaxBatchSize ;;
    let maxUserBatchSize := i64 max in
    batchLoopUser <- lift (go_quot (len subscribedTo) maxUserBatchSize) ;;
    os <- run_batches (run_order sched (Z.to_nat (batchLoopUser + 1)))
            (user_batch c ctx limit subscribedTo maxUserBatchSize batchLoopUser) ;;
    wait_batches sched uc limit os.

(** A goroutine that fetches liked videos. *)
Definition pool_video_batch (c : client conn) (limit : Z) (ids : list Z) (max n : Z) (i : nat) : st env (batch_out VideoInfo) :=
  b <- batch_ids ids max n (Z.of_nat i) ;;
  match b with
  | None => ret (BatchOut [] None (Some None))
  | Some b =>
      ctx <- WithTimeout (10 * seconds) ;;
      r <- call (call_GetVideo c ctx b) ;;
      match r with
      | inl vs => ret (BatchOut vs None (Some None))
      | inr err =>
          AddUint64 VideoServiceErrors 1 ;;;
          no_retry <- option_is DisableRetry ;;
          if negb no_retry then
            ctx <- WithTimeout (10 * seconds) ;;
            r <- call (call_GetVideo c ctx b) ;;
            match r with
            | inl vs => ret (BatchOut vs None (Some None))
            | inr err => AddUint64 VideoServiceErrors 1 ;;; batch_failed limit (get_video_failed err)
            end
          else batch_failed limit (get_video_failed err)
      end
  end.

(** After [wg.Wait()] a cached answer that was sent is taken. *)
Definition pool_videos (sched : schedule) (c : client conn) (uc : Coefficients) (limit : Z) (likedVideos : list Z)
    : stage (list VideoInfo) :=
  max <- LoadUint64 VideoServiceMaxBatchSize ;;
  let maxVideoBatchSize := i64 max in
  batchLoopVideo <- lift (go_quot (len likedVideos) maxVideoBatchSize) ;;
  os <- run_batches (run_order sched (Z.to_nat (batchLoopVideo + 1)))
          (pool_video_batch c limit likedVideos maxVideoBatchSize batchLoopVideo) ;;
  wait_batches (MkSchedule (run_order sched) true) uc limit os.

Definition pool_top_videos (usched vsched : schedule) (ctx userId limit : Z) : stage unit :=
  if limit <? 0 then finish (inr (Status InvalidArgument (lit "GetTopVideos: invalid limit")))
  else
    userClient <- pool_user_client ;;
    then_ (pool_subscriber userClient ctx userId limit) (fun found =>
    subscriber <- lift (index found 0) ;;
    let uc := UserCoefficients subscriber in
    then_ (pool_users usched userClient ctx limit subscriber) (fun users =>
    let likedVideos := collect_liked users in
    videoClient <- pool_video_client ;;
    then_ (pool_videos vsched videoClient uc limit likedVideos) (fun videosInfo =>
    ranked <- rankVideos uc videosInfo limit ;;
    finish (inl (MkResponse ranked false))))).

Definition GetTopVideos (usched vsched : schedule) (ctx userId limit : Z) : st env reply :=
  AddUint64 TotalRequests 1 ;;;
  AddUint64 ActiveRequests 1 ;;;
  startTime <- now ;;
  r <- pool_top_videos usched vsched ctx userId limit ;;
  AddUint64 ActiveRequests (2 ^ 64 - 1) ;;;
  endTime <- now ;;
  let latency := Z.quot (endTime - startTime) milliseconds in
  AddUint64 TotalSumLatencyMs (u64 latency) ;;;
  t <- gets (fun e => td (srv e)) ;;
  set_td (td_Add latency t) ;;;
  ret (match r with inl _ => empty_reply | inr r => r end).
End pool.
