(* ===== verification/VideoRecPoolSpec.v ===== *)
(** * What the recommendation service of lab 2 guarantees

    The connection pools, the accounting and availability of requests, and
    their answers when the services answer. *)
From Stdlib Require Import String Sorting.Sorted.
From S2P Require Import Prelude Strconv Effects Services ServicesSpec VideoRec VideoRecTop VideoRecSpec VideoRecFresh.
From S2P Require Import VideoRecPool.

Local Open Scope Z_scope.
Local Open Scope st_scope.

(** ** The pools *)
Section pools.
Context {S : Type} {B : Backend S} `{TDigest} `{Ranker}.
Abbreviation pooled := (pooled (@conn S B) S).
Implicit Types p : pooled.

(** Full pools, and indices of the width of the code's. *)
Record pool_ok p : Prop := {
  po_size : 1 <= ClientPoolSize p < 2 ^ 63;
  po_users : len (UserClientConn p) = ClientPoolSize p;
  po_videos : len (VideoClientConn p) = ClientPoolSize p;
  po_user_index : 0 <= UserConnIndex p < 2 ^ 64;
  po_video_index : 0 <= VideoConnIndex p < 2 ^ 64
}.

Lemma next_user_conn_ok p :
  pool_ok p -> exists c p', next_user_conn p = Ok (c, p') /\ pool_ok p' /\ net p' = net p /\
    UserConnIndex p' = u64 (UserConnIndex p + 1) /\ UserClientConn p' = UserClientConn p /\ ClientPoolSize p' = ClientPoolSize p /\
    VideoClientConn p' = VideoClientConn p /\
    UserClientConn p !! Z.to_nat (UserConnIndex p' mod ClientPoolSize p) = Some c.
Proof.
  intros Hp. destruct Hp as [Hs Hu Hv Hi Hj]. unfold next_user_conn.
  rewrite (st_bind_Ok _ _ _ _ _ eq_refl), (st_bind_Ok _ _ _ _ _ eq_refl). cbn -[u64]. rewrite (u64_small (ClientPoolSize p)) by lia.
  unfold go_rem. rewrite (proj2 (Z.eqb_neq _ _)) by lia. set (i := u64 (UserConnIndex p + 1)).
  pose proof (u64_range (UserConnIndex p + 1)) as Hr. fold i in Hr. rewrite Z.rem_mod_nonneg by lia.
  pose proof (Z.mod_pos_bound i (ClientPoolSize p) ltac:(lia)) as Hm.
  destruct (index_total (UserClientConn p) (i mod ClientPoolSize p)) as [c Hc]; [lia | ].
  unfold bind, lift. rewrite Hc. do 2 eexists. split; [reflexivity | ]. apply index_Ok in Hc as [_ Hc].
  split; [by split | ]. done.
Qed.

Lemma next_video_conn_ok p :
  pool_ok p -> exists c p', next_video_conn p = Ok (c, p') /\ pool_ok p' /\ net p' = net p /\
    UserClientConn p' = UserClientConn p /\ VideoClientConn p' = VideoClientConn p /\ c ∈ VideoClientConn p.
Proof.
  intros Hp. destruct Hp as [Hs Hu Hv Hi Hj]. unfold next_video_conn.
  rewrite (st_bind_Ok _ _ _ _ _ eq_refl), (st_bind_Ok _ _ _ _ _ eq_refl). cbn -[u64]. rewrite (u64_small (ClientPoolSize p)) by lia.
  unfold go_rem. rewrite (proj2 (Z.eqb_neq _ _)) by lia. set (i := u64 (VideoConnIndex p + 1)).
  pose proof (u64_range (VideoConnIndex p + 1)) as Hr. fold i in Hr. rewrite Z.rem_mod_nonneg by lia.
  pose proof (Z.mod_pos_bound i (ClientPoolSize p) ltac:(lia)) as Hm.
  destruct (index_total (VideoClientConn p) (i mod ClientPoolSize p)) as [c Hc]; [lia | ].
  unfold bind, lift. rewrite Hc. do 2 eexists. split; [reflexivity | ]. apply index_Ok in Hc as [_ Hc].
  split; [by split | ]. do 3 (split; [done | ]). by eapply list_elem_of_lookup_2.
Qed.

(** The connections [n] uses in a row get. *)
Fixpoint user_conns (n : nat) : st pooled (list (@conn S B)) :=
  match n with
  | O => ret []
  | Datatypes.S n => c <- next_user_conn ;; cs <- user_conns n ;; ret (c :: cs)
  end.

Lemma user_conns_ok n p :
  pool_ok p -> UserConnIndex p + Z.of_nat n < 2 ^ 64 ->
  exists cs p', user_conns n p = Ok (cs, p') /\ pool_ok p' /\ length cs = n /\
    UserConnIndex p' = UserConnIndex p + Z.of_nat n /\ UserClientConn p' = UserClientConn p /\
    forall j, (j < n)%nat ->
      cs !! j = UserClientConn p !! Z.to_nat ((UserConnIndex p + 1 + Z.of_nat j) mod ClientPoolSize p).
Proof.
  revert p. induction n as [|n IH]; intros p Hp Hb; cbn [user_conns].
  { exists [], p. split_and!; [done | done | done | lia | done | lia]. }
  destruct (next_user_conn_ok p Hp) as (c & p1 & E1 & Hp1 & _ & Hi & Hc & Hs & _ & Hl). rewrite (st_bind_Ok _ _ _ _ _ E1).
  pose proof (po_user_index p Hp) as Hr. rewrite u64_small in Hi by lia.
  destruct (IH p1 Hp1) as (cs & p2 & E2 & Hp2 & Hlen & Hi2 & Hc2 & Hj); [lia | ]. rewrite (st_bind_Ok _ _ _ _ _ E2).
  exists (c :: cs), p2. split_and!; [done | done | simpl; congruence | lia | congruence | ].
  intros [|j] Hlt.
  - change (Some c = UserClientConn p !! Z.to_nat ((UserConnIndex p + 1 + 0) mod ClientPoolSize p)). by rewrite Z.add_0_r, <- Hi.
  - change (cs !! j = UserClientConn p !! Z.to_nat ((UserConnIndex p + 1 + Z.of_nat (Datatypes.S j)) mod ClientPoolSize p)).
    rewrite Hj by lia. rewrite Hc, Hs, Hi. do 3 f_equal. lia.
Qed.

Lemma user_conns_rotate p :
  pool_ok p -> UserConnIndex p + ClientPoolSize p < 2 ^ 64 ->
  exists p', user_conns (length (UserClientConn p)) p
      = Ok (rotate (Z.to_nat (UserConnIndex p + 1)) (UserClientConn p), p') /\ pool_ok p'.
Proof.
  intros Hp Hb. pose proof (po_users p Hp) as Hl. pose proof (po_size p Hp) as Hs. unfold len in Hl.
  destruct (user_conns_ok (length (UserClientConn p)) p Hp) as (cs & p' & E & Hp' & Hlen & _ & _ & Hj); [lia | ].
  exists p'. split; [ | done]. rewrite E. do 2 f_equal. pose proof (po_user_index p Hp) as Hi.
  apply (list_eq_same_length _ _ (length (UserClientConn p))); [by rewrite length_rotate | done | ].
  intros j x y Hlt Hx Hy. rewrite Hj in Hx by done. rewrite lookup_rotate_r in Hy by done. unfold rotate_nat_add in Hy.
  rewrite Z2Nat.id, Hl in Hy by lia. congruence.
Qed.

(** A connection that [NewClient] returns for the address has the property. *)
Definition listens (address : bytes) (P : @conn S B -> Prop) : Prop :=
  forall o c o', NewClient address o = Ok (inl c, o') -> P c.

Definition address (opts : VideoRecServiceOptions) (target : Z) : bytes :=
  if target =? 0 then UserServiceAddr opts else VideoServiceAddr opts.

(** A server that could dial has full pools, of connections to the address of
    their service. *)
Lemma ConnectClient_ok target (e : env pooled) r e' :
  ConnectClient target e = Ok (r, e') ->
  srv e' = srv e /\ (exists o, outer e' = set_net o (outer e)) /\
  forall P c, listens (address (options (srv e)) target) P -> r = inl c -> P c.
Proof.
  unfold ConnectClient, VideoRec.ConnectClient, address. intros E. rewrite (st_bind_Ok _ _ _ _ _ eq_refl) in E.
  assert (Hcall : forall a, call (NewClient a) e = Ok (r, e') -> srv e' = srv e /\ (exists o, outer e' = set_net o (outer e)) /\
    forall P c, listens a P -> r = inl c -> P c).
  { intros a Ec. unfold call, zoom in Ec. cbn [NewClient pooled_backend] in Ec. unfold on_net, zoom in Ec.
    destruct (NewClient a (net (outer e))) as [[r' o]| | ] eqn:En; [ | done..]. injection Ec as <- <-.
    split; [done | ]. split; [by exists o | ]. intros P c HP ->. by eapply HP. }
  destruct (target =? 0); [by apply Hcall | ]. destruct (target =? 1); [by apply Hcall | ].
  injection E as <- <-. split; [done | ]. split; [ | done]. exists (net (outer e)). by destruct (outer e).
Qed.

Lemma dial_ok n target conns (e : env pooled) conns' e' :
  dial n target conns e = Ok (inl conns', e') ->
  length conns' = (length conns + n)%nat /\ srv e' = srv e /\ (exists o, outer e' = set_net o (outer e)) /\
  forall P, listens (address (options (srv e)) target) P -> Forall P conns -> Forall P conns'.
Proof.
  revert conns e. induction n as [|n IH]; intros conns e E; cbn [dial] in E.
  { injection E as <- <-. split; [lia | ]. split; [done | ]. split; [ | done]. exists (net (outer e)). by destruct (outer e). }
  apply st_bind_inv in E as (r & e1 & E1 & E). apply ConnectClient_ok in E1 as (Hs1 & [o1 Ho1] & Hc).
  destruct r as [c|err]; [ | discriminate E].
  apply IH in E as (Hl & Hs & [o Ho] & HP). rewrite length_app, <- Nat.add_assoc in Hl.
  split; [exact Hl | ]. split; [congruence | ]. split; [exists o; by rewrite Ho, Ho1 | ].
  intros P Hli Hall. apply HP; [by rewrite Hs1 | ]. apply Forall_app. split; [done | ].
  apply Forall_singleton. by eapply Hc.
Qed.

Lemma MakeVideoRecServiceServer_ok opts k o (e : env pooled) :
  VideoRecPool.MakeVideoRecServiceServer opts k o = Ok (inl tt, e) -> k < 2 ^ 63 ->
  pool_ok (outer e) /\ ClientPoolSize (outer e) = Z.max 1 k /\ UserConnIndex (outer e) = 0 /\
  (forall P, listens (UserServiceAddr opts) P -> Forall P (UserClientConn (outer e))) /\
  (forall P, listens (VideoServiceAddr opts) P -> Forall P (VideoClientConn (outer e))).
Proof.
  intros E Hk. unfold VideoRecPool.MakeVideoRecServiceServer in E. cbn zeta in E.
  apply st_bind_inv in E as ([us|err] & e1 & E1 & E); [ | discriminate E].
  apply st_bind_inv in E as ([vs|err] & e2 & E2 & E); [ | discriminate E].
  apply dial_ok in E1 as (Hl1 & Hs1 & [o1 Ho1] & HP1). apply dial_ok in E2 as (Hl2 & Hs2 & [o2 Ho2] & HP2).
  rewrite (st_bind_Ok _ _ _ _ _ eq_refl) in E. injection E as <-. simpl in Hl1, Hl2. unfold set_conns. cbn [outer srv].
  rewrite Ho2, Ho1. split; [split; cbn; unfold len; lia | ]. split; [done | ]. split; [done | ].
  split; intros P HP; [by apply HP1 | ]. apply HP2; [by rewrite Hs1 | done].
Qed.

Lemma user_conns_total n p : pool_ok p -> exists cs p', user_conns n p = Ok (cs, p').
Proof.
  revert p. induction n as [|n IH]; intros p Hp; cbn [user_conns]; [by do 2 eexists | ].
  destruct (next_user_conn_ok p Hp) as (c & p1 & E1 & Hp1 & _). rewrite (st_bind_Ok _ _ _ _ _ E1).
  destruct (IH p1 Hp1) as (cs & p2 & E2). rewrite (st_bind_Ok _ _ _ _ _ E2). by do 2 eexists.
Qed.
End pools.

(** The pool of lab 2.  [MakeVideoRecServiceServer] that succeeds has dialled
    [max(1, ClientPoolSize)] connections to each service.  From any state of the
    pool, as many uses in a row as there are connections get each of them exactly
    once, in the order of the slice from the one after the last used (as long as
    the 64-bit index does not wrap around); no use ever panics. *)
Theorem pool_round_robin {S} {B : Backend S} `{TDigest} `{Ranker} opts k o (e : env (pooled (@conn S B) S)) :
  VideoRecPool.MakeVideoRecServiceServer opts k o = Ok (inl tt, e) -> k < 2 ^ 63 ->
  let size := length (UserClientConn (outer e)) in
  Z.of_nat size = Z.max 1 k /\ length (VideoClientConn (outer e)) = size /\
  forall n, exists cs p, user_conns n (outer e) = Ok (cs, p) /\
    (Z.of_nat n + Z.of_nat size < 2 ^ 64 ->
     exists p', user_conns size p = Ok (rotate (n + 1) (UserClientConn (outer e)), p')).
Proof.
  intros E Hk size. destruct (MakeVideoRecServiceServer_ok opts k o e E Hk) as (Hp & Hs & Hi & _).
  pose proof (po_users _ Hp) as Hu. pose proof (po_videos _ Hp) as Hv. unfold len in Hu, Hv. rewrite Hs in Hu, Hv.
  split; [exact Hu | ]. split; [unfold size; lia | ]. intros n.
  destruct (user_conns_total n (outer e) Hp) as (cs & p & En). exists cs, p. split; [exact En | ]. intros Hb.
  destruct (user_conns_ok n (outer e) Hp) as (cs' & p1 & E1 & Hp1 & _ & Hi1 & Hc1 & _); [unfold size in Hb; lia | ].
  rewrite En in E1. injection E1 as <- <-.
  assert (Hs1 : ClientPoolSize p = Z.max 1 k) by (pose proof (po_users _ Hp1) as Hu1; unfold len in Hu1; rewrite Hc1 in Hu1; lia).
  destruct (user_conns_rotate p Hp1) as (p' & E' & _); [unfold size in Hb; lia | ]. rewrite Hc1 in E'. exists p'.
  unfold size. rewrite E'. do 3 f_equal. lia.
Qed.

(** ** What a request preserves *)
Section request.
Context {S : Type} {B : Backend S} `{TDigest} `{Ranker}.
Abbreviation pooled := (pooled (@conn S B) S).
Variable I : env pooled -> Prop.
Hypothesis HI : request_invariant I.
Variable Q : reply -> Prop.
Let Err : Prop := forall err, Q (inr err).
Hypothesis HQ : forall resp, Q (inl resp).
Variable limit : Z.
Hypothesis Hlimit : limit < 0 -> Err.
Hypothesis Hfallback : keeps I (fallback limit) (fun c => c = None -> Err).
Hypothesis Hcached : keeps I (disabled <- option_is DisableFallback ;; ret disabled) (fun b => b = true -> Err).

Hint Extern 1 (keeps I (call _) anything) => apply (keeps_call I HI) : keeps.
Hint Extern 1 (keeps I (AddUint64 _ _) anything) => apply (keeps_count I HI); discriminate : keeps.
Hint Extern 1 (keeps I (option_is _) anything) => apply keeps_gets_any : keeps.
Hint Extern 1 (keeps I (LoadUint64 _) anything) => apply keeps_gets_any : keeps.
Hint Extern 1 (keeps I (WithTimeout _) anything) => apply (keeps_WithTimeout I) : keeps.
Hint Extern 1 (keeps I (batch_ids _ _ _ _) anything) => apply (keeps_batch_ids I) : keeps.
Hint Extern 1 (keeps I (both_errors _) anything) => apply (keeps_both I HI); discriminate : keeps.

Lemma keeps_pool_user_client : keeps I pool_user_client anything.
Proof. unfold pool_user_client. keeps_walk. Qed.
Lemma keeps_pool_video_client : keeps I pool_video_client anything.
Proof. unfold pool_video_client. keeps_walk. Qed.

Ltac from_cache :=
  apply keeps_finish_with; first [apply (keeps_serve_cached I HI Q HQ) | apply (keeps_serve_ranked I HI Q HQ)];
  [exact Hfallback | intros ? Heq Herr; first [apply Herr | rewrite Heq; apply Herr]].

Lemma keeps_pool_subscriber c ctx userId : keeps I (pool_subscriber c ctx userId limit) (stage_ok Q).
Proof. unfold pool_subscriber. repeat first [apply keeps_proceed | from_cache | keeps_step]. Qed.

Lemma keeps_pool_users sched c ctx user : keeps I (pool_users sched c ctx limit user) (stage_ok Q).
Proof.
  unfold pool_users. apply keeps_if; intros _.
  - keeps_step; [solve [eauto with keeps] | ]. from_cache.
  - do 2 (keeps_step; [solve [eauto with keeps] | ]).
    eapply keeps_bind; [apply keeps_run_batches; intros i; by apply keeps_user_batch | ]. intros os Hos.
    by apply keeps_wait_batches.
Qed.

Lemma keeps_pool_video_batch c ids max n i : keeps I (pool_video_batch c limit ids max n i) (out_ok Q).
Proof. unfold pool_video_batch. repeat (keeps_step || (by apply keeps_batch_failed) || exact Logic.I). Qed.

Lemma keeps_pool_videos sched c uc ids : keeps I (pool_videos sched c uc limit ids) (stage_ok Q).
Proof.
  unfold pool_videos. do 2 (keeps_step; [solve [eauto with keeps] | ]).
  eapply keeps_bind; [apply keeps_run_batches; intros i; by apply keeps_pool_video_batch | ]. intros os Hos.
  by apply keeps_wait_batches.
Qed.

Lemma keeps_pool_top_videos us vs ctx userId : keeps I (pool_top_videos us vs ctx userId limit) (stage_ok Q).
Proof.
  unfold pool_top_videos. apply keeps_if; intros Hl. { apply keeps_finish. zbool. by apply Hlimit. }
  apply keeps_bind_any; [apply keeps_pool_user_client | intros uclient].
  apply keeps_then; [apply keeps_pool_subscriber | intros found].
  keeps_step; [solve [eauto with keeps] | ].
  apply keeps_then; [apply keeps_pool_users | intros users].
  apply keeps_bind_any; [apply keeps_pool_video_client | intros vclient].
  apply keeps_then; [apply keeps_pool_videos | intros videos].
  apply keeps_bind_any; [apply keeps_rankVideos | intros ranked]. apply keeps_finish, HQ.
Qed.
End request.

Section guarantees.
Context {S : Type} {B : Backend S} `{TDigest} `{Ranker}.
Abbreviation pooled := (pooled (@conn S B) S).
Implicit Types e : env pooled.

Lemma pool_GetTopVideos_inv us vs ctx userId limit e r e' :
  VideoRecPool.GetTopVideos us vs ctx userId limit e = Ok (r, e') ->
  exists r1 e3, pool_top_videos us vs ctx userId limit (entered e) = Ok (r1, e3) /\
    r = (match r1 with inl _ => empty_reply | inr r => r end) /\
    (forall c, c <> TotalSumLatencyMs -> counters (srv e') c =
       if decide (c = ActiveRequests) then u64 (counters (srv e3) c + (2 ^ 64 - 1)) else counters (srv e3) c) /\
    options (srv e') = options (srv e3) /\ TrendingCache (srv e') = TrendingCache (srv e3).
Proof.
  unfold VideoRecPool.GetTopVideos. intros E.
  rewrite (st_bind_Ok _ _ _ _ _ eq_refl), (st_bind_Ok _ _ _ _ _ eq_refl), (st_bind_Ok _ _ _ _ _ eq_refl) in E.
  apply st_bind_inv in E as (r1 & e3 & E3 & E). exists r1, e3. split; [exact E3 | ].
  cbn -[u64] in E. injection E as <- <-. split; [done | ]. split; [ | done].
  intros c Hc. cbn -[u64]. by rewrite (decide_False (P := c = TotalSumLatencyMs)) by done.
Qed.

Lemma pool_top_videos_untouched us vs ctx userId limit e r e' :
  pool_top_videos us vs ctx userId limit e = Ok (r, e') -> untouched e e'.
Proof.
  intros E. eapply (keeps_pool_top_videos (untouched e) (untouched_invariant e) (fun _ => True)); try done.
  - eapply (keeps_weaken _ anything); [ | intros; exact Logic.I]. unfold fallback, VideoRec.GetCachedVideos, option_is. keeps_walk.
  - eapply (keeps_weaken _ anything); [ | intros; exact Logic.I]. unfold option_is. keeps_walk.
Qed.

(** A request that may fall back on a filled cache. *)
Definition has_fallback e : Prop :=
  DisableFallback (options (srv e)) = false /\ TrendingCache (srv e) <> [] /\ len (TrendingCache (srv e)) < 2 ^ 31.

Lemma has_fallback_invariant : request_invariant has_fallback.
Proof. split; [done | ]. by intros e c d e' _ _ He [=<-]. Qed.

Lemma pool_top_videos_answers us vs ctx userId limit e r e' :
  pool_top_videos us vs ctx userId limit e = Ok (r, e') -> has_fallback e -> 0 <= limit ->
  match r with inr (inr _) => False | _ => True end.
Proof.
  intros E He Hl. set (is_ok := fun r : reply => exists resp, r = inl resp).
  assert (Hok : has_fallback e' /\ stage_ok is_ok r).
  { eapply (keeps_pool_top_videos has_fallback has_fallback_invariant is_ok) with (limit := limit); [ | | | | exact He | exact E].
    - intros resp. by exists resp.
    - lia.
    - intros e4 c e5 He4 E4. pose proof He4 as (Hf4 & Hc4 & Hl4).
      rewrite fallback_eq in E4 by done. injection E4 as <- <-. split; [done | ].
      pose proof (cut_nil limit (TrendingCache (srv e4))) as Hn.
      destruct (cut limit (TrendingCache (srv e4))); [by specialize (Hn eq_refl) | done].
    - intros e4 b e5 He4 E4. unfold bind, option_is, gets, ret in E4. simplify_eq. split; [done | ].
      intros Hb. destruct He4 as [Hf _]. congruence. }
  destruct Hok as [_ Hok]. destruct r as [[]|[resp|err]]; [done | done | ]. destruct Hok as [resp Hr]. discriminate Hr.
Qed.
End guarantees.

(** Requests of lab 2.  Over whatever services, network, clock, schedule and
    state of the pool, a [GetTopVideos] that returns has added one to
    [TotalRequests], left [ActiveRequests] as it was, and changed neither the
    options nor the cache; and when fallback is enabled and the cache has been
    filled, its reply to a non-negative limit is not an error. *)
Theorem pooled_requests {S} {B : Backend S} `{TDigest} `{Ranker} us vs ctx userId limit
    (e : env (pooled (@conn S B) S)) r e' :
  VideoRecPool.GetTopVideos us vs ctx userId limit e = Ok (r, e') ->
  0 <= counters (srv e) ActiveRequests < 2 ^ 64 ->
  counters (srv e') ActiveRequests = counters (srv e) ActiveRequests /\
  counters (srv e') TotalRequests = u64 (counters (srv e) TotalRequests + 1) /\
  options (srv e') = options (srv e) /\ TrendingCache (srv e') = TrendingCache (srv e) /\
  (has_fallback e -> 0 <= limit -> exists resp, r = inl resp).
Proof.
  intros E Hr. apply pool_GetTopVideos_inv in E as (r1 & e3 & E & -> & Hc & Ho & Ht).
  pose proof (pool_top_videos_untouched _ _ _ _ _ _ _ _ E) as (Ha & Htot & Hopt & Hcache).
  rewrite !Hc, Ho, Ht, Ha, Htot, Hopt, Hcache by discriminate. cbn -[u64 decide].
  repeat first [rewrite decide_True by done | rewrite decide_False by done]. split_and!; [ | done | done | done | ].
  - by apply u64_undo.
  - intros Hf Hl. pose proof (pool_top_videos_answers _ _ _ _ _ _ _ _ E Hf Hl) as Hok.
    destruct r1 as [[]|[resp|err]]; [by eexists | by eexists | done].
Qed.

(** ** Requests that the services answer *)
Section fresh.
Context {S : Type} {B : Backend S} `{TDigest} `{Ranker}.
Abbreviation pooled := (pooled (@conn S B) S).
Context (udb : gmap Z UserInfo) (vdb : gmap Z VideoInfo) (umax vmax : Z) (uconn vconn : @conn S B -> Prop) (frame : S -> Prop)
  (Hans : Answering S udb vdb umax vmax uconn vconn frame).
Implicit Types e : env pooled.

(** Full pools of connections to the right service. *)
Record pool_good (p : pooled) : Prop := {
  pg_ok : pool_ok p;
  pg_users : Forall uconn (UserClientConn p);
  pg_videos : Forall vconn (VideoClientConn p)
}.

Lemma pool_good_net o p : pool_good p -> pool_good (set_net o p).
Proof. by intros [[] ? ?]. Qed.

(** The services answer over the connections of the pool, and leave it. *)
#[local] Instance pooled_answering : Answering pooled udb vdb umax vmax uconn vconn pool_good.
Proof.
  split.
  - intros c d ids us p Hov Ha Hk.
    destruct (@answers_user S B udb vdb umax vmax _ _ _ Hans c d ids us (net p) Hov Ha Hk) as (o & E & Hc & _).
    exists (set_net o p). split; [ | split; [exact Hc | apply pool_good_net]].
    cbn [call_GetUser pooled_backend]. unfold on_net, zoom. by rewrite E.
  - intros c d ids vs p Hov Ha Hnd Hk.
    destruct (@answers_video S B udb vdb umax vmax _ _ _ Hans c d ids vs (net p) Hov Ha Hnd Hk) as (o & E & Hc & _).
    exists (set_net o p). split; [ | split; [exact Hc | apply pool_good_net]].
    cbn [call_GetVideo pooled_backend]. unfold on_net, zoom. by rewrite E.
Qed.

Abbreviation same := (same pool_good).

Lemma pool_video_batch_got c limit ids vs max i e :
  over vconn c -> 1 <= max <= vmax -> NoDup ids -> known vdb ids = Some vs -> (i < Z.to_nat (Z.quot (len ids) max + 1))%nat ->
  exists e', pool_video_batch c limit ids max (Z.quot (len ids) max) i e = Ok (got (records_of vs max i), e') /\ same e e'.
Proof.
  intros Hov Hmax Hnd Hk Hi. unfold pool_video_batch.
  rewrite (st_bind_Ok _ _ _ _ _ (batch_ids_spec ids max i e ltac:(lia) ltac:(lia))).
  pose proof (known_batch vdb ids vs (Z.to_nat max) (i * Z.to_nat max) Hk) as Hkb.
  fold (batch_of ids max i) (records_of vs max i) in Hkb. pose proof (known_length _ _ _ Hkb) as Hlen.
  assert (Hb : len (batch_of ids max i) <= vmax) by (unfold batch_of, len; rewrite length_take; lia).
  assert (Hndb : NoDup (batch_of ids max i)).
  { eapply sublist_NoDup; [exact Hnd | ]. unfold batch_of. etrans; [apply sublist_take | apply sublist_drop]. }
  destruct (batch_of ids max i) as [|x b] eqn:Eb.
  - exists e. split; [ | apply same_refl]. unfold ret, got. by destruct (records_of vs max i).
  - rewrite (st_bind_Ok _ _ e (clock (outer e) + 10 * seconds) e) by done.
    destruct (call_video (S := pooled) (H := pooled_backend) udb vdb umax vmax uconn vconn pool_good c (clock (outer e) + 10 * seconds) (x :: b) (records_of vs max i) e)
      as (e' & E & Hs); [done | done | done | exact Hkb | ].
    rewrite (st_bind_Ok _ _ _ _ _ E). by exists e'.
Qed.

Lemma pool_users_got sched c ctx limit u users e :
  over uconn c -> fair sched -> SubscribedTo u <> [] -> known udb (SubscribedTo u) = Some users ->
  1 <= counters (srv e) UserServiceMaxBatchSize <= umax -> umax < 2 ^ 63 ->
  exists us e', pool_users sched c ctx limit u e = Ok (inl us, e') /\ us ≡ₚ users /\ same e e'.
Proof.
  intros Hov Hf Hne Hk Hc Hu.
  destruct (fetch_users_got (S := pooled) (H := pooled_backend) udb vdb umax vmax uconn vconn pool_good sched c ctx limit u users e) as (us & e' & E & Hr); [done.. | ].
  exists us, e'. split; [ | exact Hr]. rewrite <- E. unfold fetch_users, pool_users. rewrite (len_0_nil (SubscribedTo u)).
  by rewrite !bool_decide_eq_false_2 by done.
Qed.

Lemma pool_videos_got sched c uc limit ids vs e :
  over vconn c -> fair sched -> NoDup ids -> known vdb ids = Some vs ->
  1 <= counters (srv e) VideoServiceMaxBatchSize <= vmax -> vmax < 2 ^ 63 ->
  exists vs' e', pool_videos sched c uc limit ids e = Ok (inl vs', e') /\ vs' ≡ₚ vs /\ same e e'.
Proof.
  intros Hov Hfair Hnd Hk Hmax Hu. unfold pool_videos. rewrite (st_bind_Ok _ _ _ _ _ eq_refl).
  set (max := counters (srv e) VideoServiceMaxBatchSize) in *. rewrite i64_small by lia. cbn zeta.
  unfold go_quot. rewrite (proj2 (Z.eqb_neq max 0)) by lia. rewrite (st_bind_Ok _ _ _ _ _ eq_refl).
  set (n := Z.to_nat (Z.quot (len ids) max + 1)).
  destruct (run_batches_got pool_good (pool_video_batch c limit ids max (Z.quot (len ids) max)) vs max n e (run_order sched n) e)
    as (e' & E & Hs); [apply same_refl | | | ].
  - intros i e1 Hi _. by apply pool_video_batch_got.
  - intros i. rewrite (Hfair n), elem_of_seq. lia.
  - rewrite (st_bind_Ok _ _ _ _ _ E), got_wait. do 2 eexists. split; [reflexivity | ]. split; [ | done].
    eapply records_cover; [lia | | apply Hfair]. unfold len. by rewrite (known_length _ _ _ Hk).
Qed.

(** A server with mock clients, or with good pools. *)
Definition connected e : Prop := isMock (srv e) = true \/ pool_good (outer e).

Lemma same_connected e e' : same e e' -> connected e -> connected e'.
Proof. intros (Hs & _ & Hf) [Hm | Hp]; [left; by rewrite Hs | right; auto]. Qed.

Lemma pool_user_client_ok e :
  connected e -> exists c e', pool_user_client e = Ok (c, e') /\ over uconn c /\ same e e'.
Proof.
  intros He. unfold pool_user_client, bind, gets. destruct (isMock (srv e)) eqn:Em.
  - exists MockClient, e. split; [done | ]. split; [done | apply same_refl].
  - destruct He as [He | He]; [congruence | ]. destruct He as [He Hus Hvs].
    destruct (next_user_conn_ok (outer e) He) as (c & p & E & Hp & Hn & _ & Hu & _ & Hv & Hc).
    unfold call, zoom. rewrite E. do 2 eexists. split; [reflexivity | ].
    split; [by eapply (Forall_lookup_1 _ _ _ _ Hus) | ]. split; [done | ]. split.
    + change (clock (net p) = clock (net (outer e))). by rewrite Hn.
    + intros _. split; cbn [outer]; by rewrite ?Hu, ?Hv.
Qed.

Lemma pool_video_client_ok e :
  connected e -> exists c e', pool_video_client e = Ok (c, e') /\ over vconn c /\ same e e'.
Proof.
  intros He. unfold pool_video_client, bind, gets. destruct (isMock (srv e)) eqn:Em.
  - exists MockClient, e. split; [done | ]. split; [done | apply same_refl].
  - destruct He as [He | He]; [congruence | ]. destruct He as [He Hus Hvs].
    destruct (next_video_conn_ok (outer e) He) as (c & p & E & Hp & Hn & Hu & Hv & Hc).
    unfold call, zoom. rewrite E. do 2 eexists. split; [reflexivity | ].
    split; [by apply (proj1 (Forall_forall _ _) Hvs) | ]. split; [done | ]. split.
    + change (clock (net p) = clock (net (outer e))). by rewrite Hn.
    + intros _. split; cbn [outer]; by rewrite ?Hu, ?Hv.
Qed.

(** A user whose request the databases can answer; who likes nothing is
    answered with nothing. *)
Record pool_servable (u : UserInfo) : Prop := {
  ps_subscribed : SubscribedTo u <> [];
  ps_users : forall s, s ∈ SubscribedTo u -> is_Some (udb !! s);
  ps_videos : forall x, liked_by udb u x -> is_Some (vdb !! x)
}.

Lemma pool_top_videos_fresh usched vsched ctx userId limit u e :
  fair usched -> fair vsched -> connected e -> umax < 2 ^ 63 -> vmax < 2 ^ 63 ->
  1 <= counters (srv e) UserServiceMaxBatchSize <= umax -> 1 <= counters (srv e) VideoServiceMaxBatchSize <= vmax ->
  Z.of_nat (size vdb) < 2 ^ 31 -> 0 <= limit -> userId <> 0 -> udb !! userId = Some u -> pool_servable u ->
  exists ids vs vs' e', pool_top_videos usched vsched ctx userId limit e =
      Ok (inr (inl (MkResponse (cut limit (ranked_for (UserCoefficients u) vs')) false)), e') /\
    NoDup ids /\ (forall x, x ∈ ids <-> liked_by udb u x) /\ known vdb ids = Some vs /\ vs' ≡ₚ vs /\
    same e e'.
Proof.
  intros Hfu Hfv Hcon Hu Hv Hub Hvb Hsize Hlim Hid Hdb [Hsub Husers Hvideos]. unfold pool_top_videos.
  rewrite (proj2 (Z.ltb_ge limit 0)) by lia.
  destruct (pool_user_client_ok e Hcon) as (uc & e0 & E0 & Huc & Hs0). rewrite (st_bind_Ok _ _ _ _ _ E0).
  unfold then_ at 1. unfold pool_subscriber. rewrite (proj2 (Z.eqb_neq userId 0)) by done.
  destruct (call_user (S := pooled) (H := pooled_backend) udb vdb umax vmax uconn vconn pool_good uc ctx [userId] [u] e0) as (e1 & E1 & Hs1).
  { done. }
  { split; [done | ]. unfold len. simpl. lia. }
  { unfold known. simpl. by rewrite Hdb. }
  rewrite (st_bind_Ok _ _ e0 (inl [u]) e1) by by rewrite (st_bind_Ok _ _ _ _ _ E1).
  rewrite (st_bind_Ok _ _ e1 u e1) by done. cbn zeta. pose proof (same_trans _ _ _ _ Hs0 Hs1) as Hs01. clear Hs0 Hs1.
  destruct (known_total udb (SubscribedTo u) Husers) as (users & Hk). pose proof Hs01 as (Hsrv1 & _ & _).
  destruct (pool_users_got usched uc ctx limit u users e1) as (us & e2 & E2 & Hperm & Hs2);
    [done | done | done | done | by rewrite Hsrv1 | done | ].
  unfold then_ at 1. rewrite (st_bind_Ok _ _ _ _ _ E2).
  destruct (collect_liked_spec us) as [Hnd Hids].
  assert (Hiff : forall x, x ∈ collect_liked us <-> liked_by udb u x).
  { intros x. rewrite Hids. unfold liked_by. setoid_rewrite Hperm. setoid_rewrite (known_elem _ _ _ _ Hk). naive_solver. }
  set (ids := collect_liked us) in *.
  destruct (known_total vdb ids) as (vs & Hkv); [intros x Hx; by apply Hvideos, Hiff | ].
  pose proof (same_trans _ _ _ _ Hs01 Hs2) as Hs.
  destruct (pool_video_client_ok e2 (same_connected _ _ Hs Hcon)) as (vc & e3 & E3 & Hvc & Hs3). rewrite (st_bind_Ok _ _ _ _ _ E3).
  pose proof (same_trans _ _ _ _ Hs Hs3) as Hs'. pose proof Hs' as (Hsrv3 & _ & _).
  destruct (pool_videos_got vsched vc (UserCoefficients u) limit ids vs e3) as (vs' & e4 & E4 & Hperm' & Hs4);
    [done | done | done | done | by rewrite Hsrv3 | done | ].
  unfold then_, VideoRecPool.rankVideos. rewrite (st_bind_Ok _ _ _ _ _ E4).
  assert (Hlen : len vs' < 2 ^ 31).
  { pose proof (known_bound vdb ids vs Hnd Hkv) as Hb. unfold len in *. rewrite (Permutation_length Hperm'). lia. }
  rewrite (st_bind_Ok _ _ _ _ _ (rankVideos_eq (UserCoefficients u) vs' limit e4 Hlen)).
  exists ids, vs, vs', e4. split; [done | ]. split_and!; [done | done | done | done | by eapply same_trans].
Qed.
End fresh.

(** The pools of a server that [MakeVideoRecServiceServer] made and that has
    answered any number of requests since: only the indices have moved. *)
Definition made_pool {S} {B : Backend S} `{TDigest} (opts : VideoRecServiceOptions) (p : pooled (@conn S B) S) : Prop :=
  exists k o (e0 : env (pooled (@conn S B) S)), k < 2 ^ 63 /\
    VideoRecPool.MakeVideoRecServiceServer opts k o = Ok (inl tt, e0) /\
    ClientPoolSize p = ClientPoolSize (outer e0) /\
    UserClientConn p = UserClientConn (outer e0) /\ VideoClientConn p = VideoClientConn (outer e0) /\
    0 <= UserConnIndex p < 2 ^ 64 /\ 0 <= VideoConnIndex p < 2 ^ 64.

Lemma made_pool_good {S} {B : Backend S} `{TDigest} opts (uconn vconn : @conn S B -> Prop) (p : pooled (@conn S B) S) :
  listens (UserServiceAddr opts) uconn -> listens (VideoServiceAddr opts) vconn -> made_pool opts p -> pool_good uconn vconn p.
Proof.
  intros Hu Hv (k & o & e0 & Hk & E & Hs & Hus & Hvs & Hi & Hj).
  destruct (MakeVideoRecServiceServer_ok opts k o e0 E Hk) as (Hp & _ & _ & HU & HV). destruct Hp as [H1 H2 H3 _ _].
  split; [split; congruence | rewrite Hus; by apply HU | rewrite Hvs; by apply HV].
Qed.

(** C25: answers of lab 2.  Suppose a connection to the address of the user
    service answers its calls, and one to the address of the video service
    answers that one's; nothing is supposed of a call sent over a connection to
    the other service.  Then a server with mock clients, or one whose pools
    [MakeVideoRecServiceServer] dialled, answers a request for a known user who
    follows somebody, under every schedule of its goroutines and wherever its
    pools stand, with the distinct videos its followed users like, all of them
    and each once, in decreasing order of rank, cut to the limit, and not
    stale. *)
Theorem pooled_request_fresh {S} {B : Backend S} `{TDigest} `{Ranker} (udb : gmap Z UserInfo) (vdb : gmap Z VideoInfo)
    (umax vmax : Z) opts (uconn vconn : @conn S B -> Prop) (frame : S -> Prop) (usched vsched : schedule)
    (ctx userId limit : Z) u (e : env (pooled (@conn S B) S)) :
  Answering S udb vdb umax vmax uconn vconn frame ->
  listens (UserServiceAddr opts) uconn -> listens (VideoServiceAddr opts) vconn ->
  isMock (srv e) = true \/ made_pool opts (outer e) ->
  fair usched -> fair vsched -> umax < 2 ^ 63 -> vmax < 2 ^ 63 ->
  1 <= counters (srv e) UserServiceMaxBatchSize <= umax -> 1 <= counters (srv e) VideoServiceMaxBatchSize <= vmax ->
  Z.of_nat (size vdb) < 2 ^ 31 -> 0 <= limit -> userId <> 0 -> udb !! userId = Some u -> pool_servable udb vdb u ->
  exists ids vs ranked e',
    VideoRecPool.GetTopVideos usched vsched ctx userId limit e = Ok (inl (MkResponse (cut limit ranked) false), e') /\
    NoDup ids /\ (forall x, x ∈ ids <-> liked_by udb u x) /\ known vdb ids = Some vs /\ ranked ≡ₚ vs /\
    StronglySorted (fun v w => Rank (UserCoefficients u) (VideoCoefficients w)
                               <= Rank (UserCoefficients u) (VideoCoefficients v)) ranked.
Proof.
  intros Hans Hlu Hlv Hmade Hfu Hfv Hu Hv Hub Hvb Hsize Hlim Hid Hdb Hsv.
  assert (Hcon : connected uconn vconn e) by (destruct Hmade; [by left | right; by apply (made_pool_good opts)]).
  destruct (pool_top_videos_fresh udb vdb umax vmax uconn vconn frame Hans usched vsched ctx userId limit u (entered e))
    as (ids & vs & vs' & e' & E & Hnd & Hids & Hk & Hperm & _); [done.. | ].
  unfold VideoRecPool.GetTopVideos.
  rewrite (st_bind_Ok _ _ _ _ _ eq_refl), (st_bind_Ok _ _ _ _ _ eq_refl), (st_bind_Ok _ _ _ _ _ eq_refl).
  rewrite (st_bind_Ok _ _ _ _ _ E). exists ids, vs, (ranked_for (UserCoefficients u) vs'). eexists.
  split; [reflexivity | ]. split_and!; [done | done | done | by unfold ranked_for; rewrite sort_ranked_perm | apply sort_ranked_sorted].
Qed.
