(* ===== verification/VideoRecPoolExamples.v ===== *)
(** * Runs of the recommendation service of lab 2

    A network with two services that answer from the small databases, each over
    the connections dialled to its own address, for the theorems about the
    pools. *)
From Stdlib Require Import String.
From S2P Require Import Prelude Strconv Effects FailureInjection Services ServicesSpec VideoRec VideoRecTop.
From S2P Require Import VideoRecSpec VideoRecFresh VideoRecExamples VideoRecPool VideoRecPoolSpec.

Local Open Scope Z_scope.
Local Open Scope st_scope.

#[local] Existing Instance list_digest.
#[local] Existing Instance feature_ranker.

Section dialled.
Definition small_udb : gmap Z UserInfo := users (small_users 50 MakeFailureInjector).
Definition small_vdb : gmap Z VideoInfo := videos (small_videos 50 MakeFailureInjector).

(** Lab 2's default addresses. *)
Definition two_services : VideoRecServiceOptions := MkOptions (lit "[::1]:8081") (lit "[::1]:8082") 50 false false.

(** The state counts the connections dialled; a connection names the address it
    was dialled for, where one of the two services listens, and a call of the
    other service over it is an error. *)
Definition wrong_service {A} : result A := inr (Status Unavailable (lit "unknown service")).
Definition reaches (a : bytes) (c : client (bytes * Z)) : bool :=
  match c with MockClient => true | ConnClient c => bool_decide (c.1 = a) end.

#[local] Instance dial_backend : Backend Z := {
  conn := bytes * Z;
  NewClient := fun a n => Ok (inl (a, n), n + 1);
  call_GetUser := fun c _ ids => ret
    (if reaches (lit "[::1]:8081") c then match known small_udb ids with Some us => inl us | None => inr (Status NotFound []) end
     else wrong_service);
  call_GetVideo := fun c _ ids => ret
    (if reaches (lit "[::1]:8082") c then match known small_vdb ids with Some vs => inl vs | None => inr (Status NotFound []) end
     else wrong_service);
  call_GetTrendingVideos := fun _ _ => ret (inl ([10; 13], 60));
  clock := fun _ => 0;
  time_Sleep := fun _ => ret tt;
  error_string := fun _ => []
}.

Definition dialled (a : bytes) (c : @conn Z dial_backend) : Prop := c.1 = a.

Lemma dialled_listens a : listens a (dialled a).
Proof. by intros n c n' [= <- _]. Qed.

(** Two connections to each service. *)
Definition two_pools : env (pooled (@conn Z dial_backend) Z) :=
  let u := lit "[::1]:8081" in let v := lit "[::1]:8082" in
  Env (VideoRec.MakeVideoRecServiceServer two_services) (Pooled _ _ 2 [(u, 0); (u, 1)] [(v, 2); (v, 3)] 0 0 4).

Lemma pool_round_robin_witness :
  VideoRecPool.MakeVideoRecServiceServer two_services 2 0 = Ok (inl tt, two_pools) /\
  exists cs p p', user_conns 3 (outer two_pools) = Ok (cs, p) /\ user_conns 2 p = Ok (UserClientConn (outer two_pools), p').
Proof.
  split; [reflexivity | ].
  destruct (pool_round_robin two_services 2 0 two_pools) as (_ & _ & H); [reflexivity | lia | ].
  destruct (H 3%nat) as (cs & p & E & Hp). destruct Hp as (p' & E'); [simpl; lia | ].
  exists cs, p, p'. split; [exact E | exact E'].
Defined.

Lemma pooled_requests_witness :
  exists r e', VideoRecPool.GetTopVideos in_order in_order 1 1 2 two_pools = Ok (r, e') /\
    counters (srv e') ActiveRequests = 0 /\ counters (srv e') TotalRequests = 1.
Proof.
  destruct (ends_Ok (VideoRecPool.GetTopVideos in_order in_order 1 1 2 two_pools)) as (r & e' & E); [vm_compute; reflexivity | ].
  exists r, e'. split; [exact E | ].
  destruct (pooled_requests in_order in_order 1 1 2 two_pools r e' E) as (Ha & Ht & _).
  - vm_compute. split; [intros Hc; discriminate Hc | reflexivity].
  - split; [exact Ha | exact Ht].
Defined.

Lemma user1_servable : pool_servable small_udb small_vdb (user 1 [2; 3] [10]).
Proof.
  split; [done | | ].
  - intros s Hs. repeat (apply elem_of_cons in Hs as [-> | Hs]); [by eexists.. | by apply not_elem_of_nil in Hs].
  - intros x (s & f & Hs & Hf & Hx). cbn [SubscribedTo user] in Hs.
    repeat (apply elem_of_cons in Hs as [-> | Hs]); [ | | by apply not_elem_of_nil in Hs];
      vm_compute in Hf; injection Hf as <-; cbn [LikedVideos] in Hx;
      repeat (apply elem_of_cons in Hx as [-> | Hx]); try (by eexists); by apply not_elem_of_nil in Hx.
Qed.

Lemma dial_answering :
  Answering Z small_udb small_vdb 50 50 (dialled (lit "[::1]:8081")) (dialled (lit "[::1]:8082")) (fun _ => True).
Proof.
  assert (Hr : forall a c, over (dialled a) c -> reaches a c = true) by (intros a [|c] Hc; [done | by apply bool_decide_eq_true]).
  split; intros c d ids rs o Hc; intros; eexists; (split; [ | split; [reflexivity | done]]);
    apply Hr in Hc; cbn [call_GetUser call_GetVideo dial_backend]; rewrite Hc; unfold ret.
  - match goal with H : known _ _ = _ |- _ => rewrite H end. reflexivity.
  - match goal with H : known _ _ = _ |- _ => rewrite H end. reflexivity.
Qed.

Lemma two_pools_made : made_pool two_services (outer two_pools).
Proof. exists 2, 0, two_pools. split_and!; try done; cbn; lia. Qed.

Lemma pooled_request_fresh_witness :
  exists resp e', VideoRecPool.GetTopVideos in_order in_order 1 1 2 two_pools = Ok (inl resp, e') /\ StaleResponse resp = false.
Proof.
  destruct (pooled_request_fresh small_udb small_vdb 50 50 two_services (dialled (lit "[::1]:8081")) (dialled (lit "[::1]:8082"))
      (fun _ => True) in_order in_order 1 1 2 (user 1 [2; 3] [10]) two_pools)
    as (ids & vs & ranked & e' & E & _).
  - exact dial_answering.
  - apply dialled_listens.
  - apply dialled_listens.
  - right. exact two_pools_made.
  - apply in_order_fair.
  - apply in_order_fair.
  - lia.
  - lia.
  - cbn. lia.
  - cbn. lia.
  - vm_compute. reflexivity.
  - lia.
  - lia.
  - reflexivity.
  - exact user1_servable.
  - exists (MkResponse (cut 2 ranked) false), e'. split; [exact E | reflexivity].
Defined.
End dialled.
