(* ===== verification/Base64.v ===== *)
(** * Base64 with the alphabet of bcrypt: [lab1/det_bcrypt/det_bcrypt.go]

    The part of [encoding/base64] the package uses (padded encoding with its own
    alphabet, decoding that ignores line breaks), and the two functions that
    drop and restore the padding. *)
From Stdlib Require Import String.
From S2P Require Import Prelude Strconv.

Local Open Scope Z_scope.

Definition alphabet : bytes := lit "./ABCDEFGHIJKLMNOPQRSTUVWXYZabcdefghijklmnopqrstuvwxyz0123456789".

Definition pad : Z := 61.   (* '=' *)
Definition is_byte (b : Z) : bool := (0 <=? b) && (b <? 256).
Definition is_newline (c : Z) : bool := (c =? 10) || (c =? 13).

(** ** [encoding/base64] *)

(** The character of a sextet, and the sextet of a character. *)
Definition char_of (v : Z) : Z := default pad (alphabet !! Z.to_nat v).
Definition sextet (c : Z) : option Z := (fun p => Z.of_nat p.1) <$> list_find (fun d => c = d) alphabet.

Definition bits (v shift width : Z) : Z := Z.land (Z.shiftr v shift) (Z.ones width).

(** [Encode]: three bytes at a time, the last group padded. *)
Fixpoint Encode (src : bytes) : bytes :=
  match src with
  | [] => []
  | [a] =>
      let v := Z.shiftl a 16 in [char_of (bits v 18 6); char_of (bits v 12 6); pad; pad]
  | [a; b] =>
      let v := Z.lor (Z.shiftl a 16) (Z.shiftl b 8) in
      [char_of (bits v 18 6); char_of (bits v 12 6); char_of (bits v 6 6); pad]
  | a :: b :: c :: src =>
      let v := Z.lor (Z.lor (Z.shiftl a 16) (Z.shiftl b 8)) c in
      char_of (bits v 18 6) :: char_of (bits v 12 6) :: char_of (bits v 6 6) :: char_of (bits v 0 6) :: Encode src
  end.

Definition join (a b c d : Z) : Z :=
  Z.lor (Z.lor (Z.lor (Z.shiftl a 18) (Z.shiftl b 12)) (Z.shiftl c 6)) d.

Fixpoint skip_newlines (s : bytes) : bytes :=
  match s with c :: s' => if is_newline c then skip_newlines s' else s | [] => [] end.

(** What may follow the padding: only line breaks. *)
Definition at_end (s : bytes) : bool := match skip_newlines s with [] => true | _ => false end.

(** [Decode]: [q] holds the sextets of the group begun; [None] is a
    [CorruptInputError]. *)
Fixpoint decode_from (q : list Z) (s : bytes) : option bytes :=
  match s with
  | [] => match q with [] => Some [] | _ => None end
  | ch :: s =>
      match sextet ch with
      | Some v =>
          match q with
          | [a; b; c] =>
              let w := join a b c v in
              (fun rest => bits w 16 8 :: bits w 8 8 :: bits w 0 8 :: rest) <$> decode_from [] s
          | _ => decode_from (q ++ [v]) s
          end
      | None =>
          if is_newline ch then decode_from q s
          else if ch =? pad then
            match q with
            | [a; b] =>
                match skip_newlines s with
                | c :: s => if (c =? pad) && at_end s then Some [bits (join a b 0 0) 16 8] else None
                | [] => None
                end
            | [a; b; c] =>
                let w := join a b c 0 in
                if at_end s then Some [bits w 16 8; bits w 8 8] else None
            | _ => None
            end
          else None
      end
  end.
Definition Decode (s : bytes) : option bytes := decode_from [] s.

(** ** The functions of the package *)

(** [for dst[n-1] == '=' { n-- }], on the reversed slice; the index is out of
    range when nothing is left. *)
Fixpoint drop_padding (rev_dst : bytes) : outcome bytes :=
  match rev_dst with
  | [] => Panic
  | c :: rest => if c =? pad then drop_padding rest else Ok (reverse rev_dst)
  end.

Definition base64Encode (src : bytes) : outcome bytes := drop_padding (reverse (Encode src)).

(** It appends between one and four equals signs. *)
Definition base64Decode (src : bytes) : option bytes :=
  let numOfEquals := 4 - len src mod 4 in
  Decode (src ++ replicate (Z.to_nat numOfEquals) pad).

(** ** Round trip *)
Section roundtrip.
Definition sextets : list Z := (fun n => Z.of_nat n) <$> seq 0 64.

Lemma sextet_range v : 0 <= v < 64 -> v ∈ sextets.
Proof. intros Hv. apply list_elem_of_fmap. exists (Z.to_nat v). rewrite elem_of_seq. lia. Qed.

(** The alphabet has 64 different characters, none of them padding. *)
Lemma sextet_char v : 0 <= v < 64 -> sextet (char_of v) = Some v /\ char_of v <> pad.
Proof.
  intros Hv. assert (H : Forall (fun v => sextet (char_of v) = Some v /\ char_of v <> pad) sextets)
    by (apply (bool_decide_unpack _); vm_compute; exact I).
  rewrite Forall_forall in H. apply H, sextet_range, Hv.
Qed.

Lemma pad_not_sextet : sextet pad = None.
Proof. reflexivity. Qed.

Lemma bits_range v s w : 0 <= w -> 0 <= bits v s w < 2 ^ w.
Proof. intros Hw. unfold bits. rewrite Z.land_ones by done. apply Z.mod_pos_bound. lia. Qed.

Lemma sextet_bits v s : sextet (char_of (bits v s 6)) = Some (bits v s 6).
Proof. apply sextet_char. apply (bits_range v s 6). done. Qed.

(** ** A group as a number *)
Lemma lor_add x y n : 0 <= n -> 0 <= y < 2 ^ n -> Z.lor (x * 2 ^ n) y = x * 2 ^ n + y.
Proof.
  intros Hn Hy. assert (Hl : Z.land (x * 2 ^ n) y = 0); [ | pose proof (Z.add_lor_land (x * 2 ^ n) y); lia].
  rewrite <- Z.shiftl_mul_pow2 by done. apply Z.bits_inj'. intros i Hi. rewrite Z.land_spec, Z.bits_0, Z.shiftl_spec by done.
  destruct (decide (i < n)) as [Hin | Hin]; [by rewrite Z.testbit_neg_r by lia | ].
  destruct (decide (y = 0)) as [-> | Hy0]; [by rewrite Z.testbit_0_l, andb_false_r | ].
  rewrite (Z.bits_above_log2 y i), andb_false_r; [done | lia | ]. apply Z.log2_lt_pow2; [lia | ].
  assert (2 ^ n <= 2 ^ i) by (apply Z.pow_le_mono_r; lia). lia.
Qed.

Lemma bits_arith v s w : 0 <= s -> 0 <= w -> bits v s w = v / 2 ^ s mod 2 ^ w.
Proof. intros Hs Hw. unfold bits. by rewrite Z.land_ones, Z.shiftr_div_pow2. Qed.

Definition six (v : Z) : Prop := 0 <= v < 64.

Lemma join_add a b c d :
  six a -> six b -> six c -> six d -> join a b c d = a * 2 ^ 18 + b * 2 ^ 12 + c * 2 ^ 6 + d.
Proof.
  unfold six, join. intros Ha Hb Hc Hd. rewrite !Z.shiftl_mul_pow2 by done.
  rewrite lor_add by lia. replace (a * 2 ^ 18 + b * 2 ^ 12) with ((a * 2 ^ 6 + b) * 2 ^ 12) by lia.
  rewrite lor_add by lia.
  replace ((a * 2 ^ 6 + b) * 2 ^ 12 + c * 2 ^ 6) with ((a * 2 ^ 12 + b * 2 ^ 6 + c) * 2 ^ 6) by lia.
  rewrite lor_add by lia. lia.
Qed.

Lemma group_add a b c :
  0 <= b < 256 -> 0 <= c < 256 -> Z.lor (Z.lor (Z.shiftl a 16) (Z.shiftl b 8)) c = a * 2 ^ 16 + b * 2 ^ 8 + c.
Proof.
  intros Hb Hc. rewrite !Z.shiftl_mul_pow2 by done. rewrite lor_add by lia.
  replace (a * 2 ^ 16 + b * 2 ^ 8) with ((a * 2 ^ 8 + b) * 2 ^ 8) by lia. rewrite lor_add; lia.
Qed.

Lemma bits_six v s : six (bits v s 6).
Proof. apply (bits_range v s 6). done. Qed.

(** The sextets of 24 bits, joined, and their bytes. *)
Lemma join_bits v : 0 <= v < 2 ^ 24 -> join (bits v 18 6) (bits v 12 6) (bits v 6 6) (bits v 0 6) = v.
Proof.
  intros Hv. rewrite join_add by apply bits_six. rewrite !bits_arith by done.
  change (2 ^ 18) with 262144. change (2 ^ 12) with 4096. change (2 ^ 6) with 64. change (2 ^ 0) with 1.
  change (2 ^ 24) with 16777216 in Hv. Z.to_euclidean_division_equations. lia.
Qed.

Lemma bytes_of_group a b c :
  0 <= a < 256 -> 0 <= b < 256 -> 0 <= c < 256 ->
  let v := a * 2 ^ 16 + b * 2 ^ 8 + c in [bits v 16 8; bits v 8 8; bits v 0 8] = [a; b; c].
Proof.
  intros Ha Hb Hc v. unfold v. rewrite !bits_arith by done.
  change (2 ^ 16) with 65536. change (2 ^ 8) with 256. change (2 ^ 0) with 1.
  repeat f_equal; Z.to_euclidean_division_equations; lia.
Qed.

(** Decoding four characters. *)
Lemma decode_four v s :
  decode_from [] (char_of (bits v 18 6) :: char_of (bits v 12 6) :: char_of (bits v 6 6) :: char_of (bits v 0 6) :: s) =
  (let w := join (bits v 18 6) (bits v 12 6) (bits v 6 6) (bits v 0 6) in
   fun rest => bits w 16 8 :: bits w 8 8 :: bits w 0 8 :: rest) <$> decode_from [] s.
Proof. cbn [decode_from]. by rewrite !sextet_bits. Qed.

(** What [base64Encode] returns: the encoding without its padding. *)
Fixpoint encode_raw (src : bytes) : bytes :=
  match src with
  | [] => []
  | [a] => let v := a * 2 ^ 16 in [char_of (bits v 18 6); char_of (bits v 12 6)]
  | [a; b] =>
      let v := a * 2 ^ 16 + b * 2 ^ 8 in [char_of (bits v 18 6); char_of (bits v 12 6); char_of (bits v 6 6)]
  | a :: b :: c :: src =>
      let v := a * 2 ^ 16 + b * 2 ^ 8 + c in
      char_of (bits v 18 6) :: char_of (bits v 12 6) :: char_of (bits v 6 6) :: char_of (bits v 0 6) :: encode_raw src
  end.

(** Induction three bytes at a time. *)
Lemma bytes_ind3 (P : bytes -> Prop) :
  P [] -> (forall a, P [a]) -> (forall a b, P [a; b]) ->
  (forall a b c src, P src -> P (a :: b :: c :: src)) -> forall src, P src.
Proof.
  intros H0 H1 H2 H3. fix IH 1. intros [|a [|b [|c src]]]; [done | apply H1 | apply H2 | apply H3, IH].
Qed.

Definition byte_list (src : bytes) : Prop := Forall (fun b => 0 <= b < 256) src.

Lemma Encode_raw src : byte_list src -> exists k, Encode src = encode_raw src ++ replicate k pad.
Proof.
  induction src as [ | a | a b | a b c src IH] using bytes_ind3; intros Hs.
  - by exists 0%nat.
  - exists 2%nat. cbn [Encode encode_raw]. by rewrite Z.shiftl_mul_pow2.
  - exists 1%nat. inversion Hs as [|? ? Ha Hb']; subst. inversion Hb' as [|? ? Hb _]; subst. cbn [Encode encode_raw].
    pose proof (group_add a b 0 Hb ltac:(lia)) as E. rewrite Z.lor_0_r, Z.add_0_r in E. by rewrite E.
  - unfold byte_list in Hs. rewrite !Forall_cons in Hs. destruct Hs as (Ha & Hb & Hc & Hs). destruct (IH Hs) as [k E]. exists k.
    cbn [Encode encode_raw]. by rewrite group_add, E.
Qed.

Lemma drop_padding_pads l k :
  drop_padding (reverse (l ++ replicate k pad)) = drop_padding (reverse l).
Proof.
  revert l. induction k as [|k IH]; intros l; [by rewrite app_nil_r | ].
  change (replicate (S k) pad) with ([pad] ++ replicate k pad). rewrite app_assoc, IH.
  by rewrite reverse_snoc.
Qed.

Lemma encode_raw_last src : src <> [] -> exists l v, encode_raw src = l ++ [char_of v] /\ six v.
Proof.
  revert src. refine (bytes_ind3 _ _ _ _ _); [done | intros a _ | intros a b _ | intros a b c src IH _].
  - exists [char_of (bits (a * 2 ^ 16) 18 6)]. eexists. split; [reflexivity | apply bits_six].
  - exists [char_of (bits (a * 2 ^ 16 + b * 2 ^ 8) 18 6); char_of (bits (a * 2 ^ 16 + b * 2 ^ 8) 12 6)]. eexists.
    split; [reflexivity | apply bits_six].
  - cbn [encode_raw]. set (v := _ + c). destruct src as [|d src].
    + exists [char_of (bits v 18 6); char_of (bits v 12 6); char_of (bits v 6 6)]. eexists. split; [reflexivity | apply bits_six].
    + destruct IH as (l & x & -> & Hx); [done | ].
      exists (char_of (bits v 18 6) :: char_of (bits v 12 6) :: char_of (bits v 6 6) :: char_of (bits v 0 6) :: l), x.
      done.
Qed.

Lemma base64Encode_raw src : byte_list src -> src <> [] -> base64Encode src = Ok (encode_raw src).
Proof.
  intros Hs Hne. unfold base64Encode. destruct (Encode_raw src Hs) as [k ->]. rewrite drop_padding_pads.
  destruct (encode_raw_last src Hne) as (l & v & -> & Hv). rewrite reverse_snoc. simpl.
  destruct (sextet_char v Hv) as [_ Hp]. rewrite (proj2 (Z.eqb_neq _ _)) by done. by rewrite reverse_cons, reverse_involutive.
Qed.

Lemma encode_raw_length src :
  length (encode_raw src) =
    (4 * (length src `div` 3) + match length src `mod` 3 with O => 0 | S n => S (S n) end)%nat.
Proof.
  revert src. refine (bytes_ind3 _ _ _ _ _); [done.. | ]. intros a b c src IH. cbn [encode_raw length]. rewrite IH.
  replace (S (S (S (length src)))) with (1 * 3 + length src)%nat by lia.
  rewrite Nat.div_add_l by lia. rewrite (Nat.add_comm (1 * 3)), Nat.Div0.mod_add. lia.
Qed.

(** The padding [base64Decode] adds depends on the last group only. *)
Definition padding (s : bytes) : nat := Z.to_nat (4 - len s mod 4).

Lemma padding_group x y z w s : padding (x :: y :: z :: w :: s) = padding s.
Proof.
  unfold padding, len. cbn [length]. replace (Z.of_nat (S (S (S (S (length s)))))) with (Z.of_nat (length s) + 1 * 4) by lia.
  by rewrite Z_mod_plus_full.
Qed.

Lemma decode_raw src :
  byte_list src ->
  decode_from [] (encode_raw src ++ replicate (padding (encode_raw src)) pad) =
    if len src mod 3 =? 0 then None else Some src.
Proof.
  induction src as [ | a | a b | a b c src IH] using bytes_ind3; intros Hs; unfold byte_list in Hs.
  - reflexivity.
  - rewrite Forall_singleton in Hs. cbn [encode_raw]. set (v := a * 2 ^ 16).
    change (padding _) with 2%nat. cbn [replicate app decode_from]. rewrite !sextet_bits. simpl (sextet pad).
    pose proof (join_bits v ltac:(lia)) as E. pose proof (bytes_of_group a 0 0 Hs ltac:(lia) ltac:(lia)) as Hb.
    assert (bits v 6 6 = 0) as E1 by (unfold v; rewrite bits_arith by done; change (2 ^ 16) with 65536; change (2 ^ 6) with 64; Z.to_euclidean_division_equations; lia).
    assert (bits v 0 6 = 0) as E2 by (unfold v; rewrite bits_arith by done; change (2 ^ 16) with 65536; change (2 ^ 0) with 1; change (2 ^ 6) with 64; Z.to_euclidean_division_equations; lia).
    rewrite E1, E2 in E. cbn. rewrite E. cbn zeta in Hb. injection Hb as Hb _ _.
    replace (a * 2 ^ 16 + 0 * 2 ^ 8 + 0) with v in Hb by (unfold v; lia). by rewrite Hb.
  - rewrite !Forall_cons in Hs. destruct Hs as (Ha & Hb & _). cbn [encode_raw]. set (v := _ + _).
    change (padding _) with 1%nat. cbn [replicate app decode_from]. rewrite !sextet_bits.
    pose proof (join_bits v ltac:(lia)) as E. pose proof (bytes_of_group a b 0 Ha Hb ltac:(lia)) as Hg.
    assert (bits v 0 6 = 0) as E2 by (unfold v; rewrite bits_arith by done; change (2 ^ 16) with 65536; change (2 ^ 8) with 256; change (2 ^ 0) with 1; change (2 ^ 6) with 64; Z.to_euclidean_division_equations; lia).
    rewrite E2 in E. cbn. rewrite E. cbn zeta in Hg. rewrite Z.add_0_r in Hg. fold v in Hg. injection Hg as -> -> _. done.
  - rewrite !Forall_cons in Hs. destruct Hs as (Ha & Hb & Hc & Hs). cbn [encode_raw]. set (v := _ + c).
    rewrite padding_group. cbn [app]. rewrite decode_four, IH by done. rewrite join_bits by lia.
    pose proof (bytes_of_group a b c Ha Hb Hc) as Hg. cbn zeta in Hg. fold v in Hg.
    replace (len (a :: b :: c :: src)) with (len src + 1 * 3) by (unfold len; simpl; lia). rewrite Z_mod_plus_full.
    branch; [done | ]. simpl. by injection Hg as -> -> ->.
Qed.
End roundtrip.

(** The two functions are inverse to each other on every non-empty byte
    string whose length is no multiple of three; if it is one, [base64Decode]
    appends four equals signs to the encoding and fails. *)
Theorem base64_roundtrip (src : bytes) :
  byte_list src -> src <> [] ->
  exists e, base64Encode src = Ok e /\ base64Decode e = if len src mod 3 =? 0 then None else Some src.
Proof.
  intros Hs Hne. exists (encode_raw src). split; [by apply base64Encode_raw | ]. by apply decode_raw.
Qed.

Lemma base64_roundtrip_witness :
  exists e, base64Encode (lit "salted hash") = Ok e /\ base64Decode e = Some (lit "salted hash").
Proof.
  destruct (base64_roundtrip (lit "salted hash")) as (e & E1 & E2).
  - apply (bool_decide_unpack _). vm_compute. exact I.
  - discriminate.
  - exists e. split; [exact E1 | exact E2].
Defined.
