(* ===== verification/Bcrypt.v ===== *)
(** * Deterministic bcrypt: [lab1/det_bcrypt/det_bcrypt.go]

    The package of [golang.org/x/crypto/bcrypt] with a constant salt.  The
    blowfish cipher is not part of the repository: it is the class [Blowfish],
    and what the proofs use of it is [BlowfishLaws]. *)
From Stdlib Require Import String.
From S2P Require Import Prelude Strconv Base64.

Local Open Scope Z_scope.

(** ** [golang.org/x/crypto/blowfish] *)
Class Blowfish := {
  cipher : Type;
  NewSaltedCipher : bytes -> bytes -> option cipher;   (* None: a KeySizeError *)
  ExpandKey : bytes -> cipher -> cipher;
  Encrypt : cipher -> bytes -> bytes                   (* one block of 8 bytes *)
}.

(** A salted cipher takes every key that is not empty; a block of bytes is
    encrypted to a block of bytes. *)
Class BlowfishLaws `{Blowfish} := {
  salted_ok : forall key salt, key <> [] -> salt <> [] -> is_Some (NewSaltedCipher key salt);
  encrypt_block : forall c b, length b = 8%nat -> byte_list b -> length (Encrypt c b) = 8%nat /\ byte_list (Encrypt c b)
}.

(** ** Constants and data *)
Definition MinCost : Z := 1.
Definition MaxCost : Z := 31.
Definition DefaultCost : Z := 10.

Inductive bcrypt_error :=
  | ErrMismatchedHashAndPassword
  | ErrHashTooShort
  | HashVersionTooNewError (version : Z)
  | InvalidHashPrefixError (prefix : Z)
  | InvalidCostError (cost : Z)
  | CorruptInputError
  | KeySizeError
  | NumError.

Definition majorVersion : Z := 50.   (* '2' *)
Definition minorVersion : Z := 97.   (* 'a' *)
Definition dollar : Z := 36.
Definition maxSaltSize : nat := 16.
Definition maxCryptedHashSize : Z := 23.
Definition encodedSaltSize : Z := 22.
Definition encodedHashSize : Z := 31.
Definition minHashSize : Z := 59.

Definition magicCipherData : bytes := lit "OrpheanBeholderScryDoubt".

Record hashed := MkHashed { hash : bytes; salt : bytes; cost : Z; major : Z; minor : Z }.

(** ** Errors *)
Abbreviation fallible A := (outcome (A + bcrypt_error)).
Definition fine {A} (a : A) : fallible A := Ok (inl a).
Definition fails {A} (e : bcrypt_error) : fallible A := Ok (inr e).

(** [x, err := m; if err != nil { return err }] *)
Definition check {A B} (m : fallible A) (k : A -> fallible B) : fallible B :=
  match m with Ok (inl a) => k a | Ok (inr e) => fails e | Panic => Panic | Block => Block end.
Notation "'let?' x := m 'in' k" := (check m (fun x => k))
  (at level 10, x name, m at level 99, k at level 200) : go_scope.
Local Open Scope go_scope.

Definition checkCost (cost : Z) : option bcrypt_error :=
  if (cost <? MinCost) || (MaxCost <? cost) then Some (InvalidCostError cost) else None.

(** ** The hash of a password *)
Section bcrypt.
Context `{Blowfish}.

Definition expensiveBlowfishSetup (key : bytes) (cost : Z) (salt : bytes) : fallible cipher :=
  match base64Decode salt with
  | None => fails CorruptInputError
  | Some csalt =>
      let ckey := key ++ [0] in
      match NewSaltedCipher ckey csalt with
      | None => fails KeySizeError
      | Some c =>
          let rounds := u64 (Z.shiftl 1 cost) in
          fine (Z.iter rounds (fun c => ExpandKey csalt (ExpandKey ckey c)) c)
      end
  end.

(** [c.Encrypt(cipherData[i:i+8], cipherData[i:i+8])], [n] times. *)
Fixpoint encrypt_at (n : nat) (c : cipher) (i : Z) (data : bytes) : outcome bytes :=
  match n with
  | O => Ok data
  | S n =>
      block ← slice data i (i + 8);
      encrypt_at n c i (take (Z.to_nat i) data ++ Encrypt c block ++ drop (Z.to_nat (i + 8)) data)
  end.

Definition bcrypt (password : bytes) (cost : Z) (salt : bytes) : fallible bytes :=
  let? c := expensiveBlowfishSetup password (u32 cost) salt in
  data ← encrypt_at 64 c 0 magicCipherData;
  data ← encrypt_at 64 c 8 data;
  data ← encrypt_at 64 c 16 data;
  data ← slice_to data maxCryptedHashSize;
  hsh ← base64Encode data;
  fine hsh.

Definition newFromPassword (password : bytes) (cost : Z) : fallible hashed :=
  let cost := if cost <? MinCost then DefaultCost else cost in
  match checkCost cost with
  | Some e => fails e
  | None =>
      let unencodedSalt := replicate maxSaltSize 97 in   (* 'a' *)
      salt ← base64Encode unencodedSalt;
      let? hash := bcrypt password cost salt in
      fine (MkHashed hash salt cost majorVersion minorVersion)
  end.

(** ** The text of a hash *)

(** [copy(arr[n:], src)]. *)
Definition copy_at (arr : bytes) (n : Z) (src : bytes) : outcome bytes :=
  tail ← slice_from arr n;
  let k := Nat.min (length tail) (length src) in
  Ok (take (Z.to_nat n) arr ++ take k src ++ drop k tail).

Definition Hash (p : hashed) : outcome bytes :=
  let arr := replicate 60 0 in
  arr ← set_index arr 0 dollar;
  arr ← set_index arr 1 (major p);
  arr_n ← (if negb (minor p =? 0) then (fun arr => (arr, 3)) <$> set_index arr 2 (minor p) else Ok (arr, 2));
  let '(arr, n) := arr_n in
  arr ← set_index arr n dollar;
  let n := n + 1 in
  arr ← copy_at arr n (fmt_0d 2 (cost p));
  let n := n + 2 in
  arr ← set_index arr n dollar;
  let n := n + 1 in
  arr ← copy_at arr n (salt p);
  let n := n + encodedSaltSize in
  arr ← copy_at arr n (hash p);
  slice_to arr (n + encodedHashSize).

(** Each decoder fills fields of the [hashed] and says how far it read. *)
Definition decodeVersion (p : hashed) (sbytes : bytes) : fallible (hashed * Z) :=
  c0 ← index sbytes 0;
  if negb (c0 =? dollar) then fails (InvalidHashPrefixError c0)
  else
    c1 ← index sbytes 1;
    if majorVersion <? c1 then fails (HashVersionTooNewError c1)
    else
      c2 ← index sbytes 2;
      if negb (c2 =? dollar) then fine (MkHashed (hash p) (salt p) (cost p) c1 c2, 4)
      else fine (MkHashed (hash p) (salt p) (cost p) c1 (minor p), 3).

Definition decodeCost (p : hashed) (sbytes : bytes) : fallible (hashed * Z) :=
  s ← slice sbytes 0 2;
  match Atoi s with
  | None => fails NumError
  | Some cost =>
      match checkCost cost with
      | Some e => fails e
      | None => fine (MkHashed (hash p) (salt p) cost (major p) (minor p), 3)
      end
  end.

Definition newFromHash (hashedSecret : bytes) : fallible hashed :=
  if len hashedSecret <? minHashSize then fails ErrHashTooShort
  else
    let p := MkHashed [] [] 0 0 0 in
    let? pn := decodeVersion p hashedSecret in
    hashedSecret ← slice_from hashedSecret pn.2;
    let? pn := decodeCost pn.1 hashedSecret in
    hashedSecret ← slice_from hashedSecret pn.2;
    salt ← slice_to hashedSecret encodedSaltSize;
    hash ← slice_from hashedSecret encodedSaltSize;
    let p := pn.1 in
    fine (MkHashed hash salt (cost p) (major p) (minor p)).

(** ** The interface *)
Definition GenerateFromPassword (password : bytes) (cost : Z) : fallible bytes :=
  let? p := newFromPassword password cost in
  h ← Hash p;
  fine h.

(** [subtle.ConstantTimeCompare] is equality. *)
Definition CompareHashAndPassword (hashedPassword password : bytes) : fallible unit :=
  let? p := newFromHash hashedPassword in
  let? otherHash := bcrypt password (cost p) (salt p) in
  let otherP := MkHashed otherHash (salt p) (cost p) (major p) (minor p) in
  h ← Hash p;
  h' ← Hash otherP;
  if bool_decide (h = h') then fine tt else fails ErrMismatchedHashAndPassword.

Definition Cost (hashedPassword : bytes) : fallible Z :=
  let? p := newFromHash hashedPassword in
  fine (cost p).
End bcrypt.
