(* ===== verification/BcryptSpec.v ===== *)
(** * Theorems about deterministic bcrypt *)
From Stdlib Require Import String.
From S2P Require Import Prelude Strconv Base64 Bcrypt.

Local Open Scope Z_scope.
Local Open Scope go_scope.

(** A hash as [newFromPassword] and [newFromHash] make them. *)
Record well_formed (p : hashed) : Prop := {
  wf_hash : length (hash p) = 31%nat;
  wf_salt : length (salt p) = 22%nat;
  wf_cost : MinCost <= cost p <= MaxCost;
  wf_major : major p <= majorVersion;
  wf_minor : minor p <> dollar
}.

Section text.
Lemma fmt_cost c : MinCost <= c <= MaxCost -> exists d e, fmt_0d 2 c = [d; e] /\ Atoi [d; e] = Some c.
Proof.
  intros Hc. unfold MinCost, MaxCost in Hc.
  pose proof (fmt_0d_length 2 c (FormatUint_length_2 c ltac:(lia))) as Hl. pose proof (Atoi_fmt_02d c ltac:(lia)) as Ha.
  destruct (fmt_0d 2 c) as [|d [|e [|]]]; [done.. | by exists d, e | done].
Qed.

(** A list of known length, element by element. *)
Ltac explode l :=
  repeat match goal with
  | H : length l = S _ |- _ => let x := fresh "x" in destruct l as [|x l]; [discriminate H | injection H as H]
  | H : length l = O |- _ => apply nil_length_inv in H; subst l
  end.

Lemma Hash_text p :
  well_formed p ->
  Hash p = Ok (dollar :: major p :: (if minor p =? 0 then [] else [minor p]) ++
               dollar :: fmt_0d 2 (cost p) ++ dollar :: salt p ++ hash p).
Proof.
  destruct p as [h s c mj mn]. intros [Hh Hs Hc _ _]. simpl in *.
  destruct (fmt_cost c Hc) as (d & e & E & _). unfold Hash. simpl. rewrite E. explode s. explode h.
  destruct (mn =? 0); reflexivity.
Qed.

Lemma newFromHash_text p :
  well_formed p -> exists h, Hash p = Ok h /\ newFromHash h = fine p.
Proof.
  intros Hp. rewrite Hash_text by done. eexists. split; [reflexivity | ].
  destruct p as [h s c mj mn]. destruct Hp as [Hh Hs Hc Hmj Hmn]. simpl in *.
  destruct (fmt_cost c Hc) as (d & e & -> & Ea). explode s. explode h.
  assert (Hck : checkCost c = None).
  { unfold checkCost. rewrite (proj2 (Z.ltb_ge _ _)), (proj2 (Z.ltb_ge _ _)) by lia. done. }
  unfold newFromHash.
  destruct (mn =? 0) eqn:E; zbool; [subst mn | ]; simpl; unfold decodeVersion; simpl;
    rewrite (proj2 (Z.ltb_ge _ _)) by done; simpl.
  - unfold decodeCost. simpl. rewrite Ea, Hck. done.
  - rewrite (proj2 (Z.eqb_neq mn dollar)) by done. simpl. unfold decodeCost. simpl. rewrite Ea, Hck. done.
Qed.
End text.

Section bcrypt.
Context `{BlowfishLaws}.

Definition block_data (data : bytes) : Prop := length data = 24%nat /\ byte_list data.

Lemma encrypt_at_Ok n c i data :
  0 <= i -> i + 8 <= 24 -> block_data data -> exists data', encrypt_at n c i data = Ok data' /\ block_data data'.
Proof.
  intros Hi Hi8. revert data. induction n as [|n IH]; intros data [Hl Hb]; [by exists data | ]. cbn [encrypt_at].
  assert (E : slice data i (i + 8) = Ok (take 8 (drop (Z.to_nat i) data))).
  { apply slice_Ok. split; [unfold len; lia | ]. by replace (i + 8 - i) with 8 by lia. }
  rewrite E, bind_Ok. set (b := take 8 _) in *.
  assert (Hbl : length b = 8%nat) by (unfold b; rewrite length_take, length_drop; lia).
  destruct (encrypt_block c b Hbl) as [Hel Heb]; [by apply Forall_take, Forall_drop | ]. apply IH. split.
  - rewrite !length_app, length_take, length_drop, Hel. lia.
  - apply Forall_app. split; [by apply Forall_take | ]. apply Forall_app. split; [done | by apply Forall_drop].
Qed.

Lemma magic_data : block_data magicCipherData.
Proof. split; [done | ]. apply (bool_decide_unpack _). vm_compute. exact I. Qed.

(** [bcrypt] fails on a salt that is not base64, and otherwise returns 31
    characters. *)
Lemma bcrypt_total password cost salt :
  base64Decode salt <> Some [] ->
  match base64Decode salt with
  | None => bcrypt password cost salt = fails CorruptInputError
  | Some _ => exists hsh, bcrypt password cost salt = fine hsh /\ length hsh = 31%nat
  end.
Proof.
  intros Hne. unfold bcrypt, expensiveBlowfishSetup. destruct (base64Decode salt) as [csalt|]; [ | done].
  destruct (salted_ok (password ++ [0]) csalt) as [c ->]; [by destruct password | by intros -> | ]. cbn [check fine].
  set (c' := Z.iter _ _ _). change (inl c') with (@inl _ bcrypt_error c').
  destruct (encrypt_at_Ok 64 c' 0 magicCipherData) as (d1 & -> & H1); [done | done | apply magic_data | ]. rewrite bind_Ok.
  destruct (encrypt_at_Ok 64 c' 8 d1) as (d2 & -> & H2); [done.. | ]. rewrite bind_Ok.
  destruct (encrypt_at_Ok 64 c' 16 d2) as (d3 & -> & [Hl Hb]); [done.. | ]. rewrite bind_Ok.
  assert (E : slice_to d3 maxCryptedHashSize = Ok (take 23 d3)).
  { apply slice_to_Ok. split; [ | done]. unfold len, maxCryptedHashSize. lia. }
  assert (Hlen : length (take 23 d3) = 23%nat) by (rewrite length_take; lia).
  rewrite E, bind_Ok, base64Encode_raw; [ | by apply Forall_take | by intros Hn; rewrite Hn in Hlen].
  rewrite bind_Ok. eexists. split; [reflexivity | ]. by rewrite encode_raw_length, Hlen.
Qed.

Definition det_salt : bytes := encode_raw (replicate maxSaltSize 97).

(** The cost a password is hashed with. *)
Definition effective_cost (cost : Z) : Z := if cost <? MinCost then DefaultCost else cost.

Lemma bcrypt_det_salt password cost : exists hsh, bcrypt password cost det_salt = fine hsh /\ length hsh = 31%nat.
Proof.
  assert (E : base64Decode det_salt = Some (replicate maxSaltSize 97)) by (vm_compute; reflexivity).
  pose proof (bcrypt_total password cost det_salt) as Hb. rewrite E in Hb. by apply Hb.
Qed.

Lemma newFromPassword_spec password cost :
  newFromPassword password cost =
    if MaxCost <? cost then fails (InvalidCostError cost)
    else let? hsh := bcrypt password (effective_cost cost) det_salt in
         fine (MkHashed hsh det_salt (effective_cost cost) majorVersion minorVersion).
Proof.
  unfold newFromPassword. fold (effective_cost cost). unfold checkCost, effective_cost, MinCost, MaxCost, DefaultCost.
  destruct (cost <? 1) eqn:E; zbool.
  - rewrite (proj2 (Z.ltb_ge 31 cost)) by lia. done.
  - rewrite (proj2 (Z.ltb_ge cost 1)) by lia. cbn [orb]. destruct (31 <? cost); done.
Qed.

Lemma newFromPassword_wf password cost :
  cost <= MaxCost ->
  exists p, newFromPassword password cost = fine p /\ well_formed p /\
    salt p = det_salt /\ minor p = minorVersion /\ Bcrypt.cost p = effective_cost cost /\
    bcrypt password (effective_cost cost) det_salt = fine (hash p).
Proof.
  intros Hc. rewrite newFromPassword_spec. rewrite (proj2 (Z.ltb_ge _ _)) by done.
  destruct (bcrypt_det_salt password (effective_cost cost)) as (hsh & E & Hl). rewrite E. cbn [check fine].
  eexists. split; [reflexivity | ]. split; [ | split_and!; reflexivity].
  split; simpl; [exact Hl | vm_compute; reflexivity | | done | done].
  unfold effective_cost, MinCost, MaxCost, DefaultCost in *. branch; lia.
Qed.

Lemma Hash_injective p q h :
  well_formed p -> well_formed q -> Hash p = Ok h -> Hash q = Ok h -> p = q.
Proof.
  intros Hp Hq Ep Eq. destruct (newFromHash_text p Hp) as (h1 & E1 & N1). destruct (newFromHash_text q Hq) as (h2 & E2 & N2).
  rewrite Ep in E1. rewrite Eq in E2. injection E1 as <-. injection E2 as <-. rewrite N1 in N2. by injection N2.
Qed.

(** A hash compared with another password. *)
Lemma Compare_spec p password' :
  well_formed p -> salt p = det_salt ->
  exists h other, Hash p = Ok h /\ bcrypt password' (cost p) det_salt = fine other /\
    CompareHashAndPassword h password' =
      if bool_decide (other = hash p) then fine tt else fails ErrMismatchedHashAndPassword.
Proof.
  intros Hp Hs. destruct (newFromHash_text p Hp) as (h & E & N). destruct (bcrypt_det_salt password' (cost p)) as (other & Eo & Hl).
  exists h, other. split; [done | ]. split; [done | ]. unfold CompareHashAndPassword. rewrite N. cbn [check fine].
  rewrite Hs, Eo. cbn [check fine]. rewrite E, bind_Ok. set (q := MkHashed other _ _ _ _).
  assert (Hq : well_formed q) by (destruct Hp; split; simpl; auto; by rewrite <- Hs).
  destruct (newFromHash_text q Hq) as (h' & E' & _). rewrite E', bind_Ok.
  rewrite (bool_decide_ext (h = h') (other = hash p)); [done | ]. split.
  - intros <-. pose proof (Hash_injective q p h Hq Hp E' E) as Hqp. by rewrite <- Hqp.
  - intros Ho. assert (q = p) as -> by (unfold q; rewrite Ho, <- Hs; by destruct p). congruence.
Qed.
End bcrypt.

(** C29: hashing and checking passwords.  Over a cipher that accepts non-empty
    keys, [GenerateFromPassword] fails exactly for a cost above 31; otherwise it
    returns 60 characters from which [Cost] reads the cost back (10 for costs
    below 1), and [CompareHashAndPassword] accepts against them exactly the
    passwords with the same bcrypt digest, in particular the password itself;
    and it is deterministic, being a function. *)
Theorem password_roundtrip `{BlowfishLaws} (password : bytes) (cost : Z) :
  if MaxCost <? cost then GenerateFromPassword password cost = fails (InvalidCostError cost)
  else exists h, GenerateFromPassword password cost = fine h /\ length h = 60%nat /\
    Cost h = fine (if cost <? MinCost then DefaultCost else cost) /\
    CompareHashAndPassword h password = fine tt /\
    forall password', exists d d',
      let cost := if cost <? MinCost then DefaultCost else cost in
      bcrypt password cost det_salt = fine d /\ bcrypt password' cost det_salt = fine d' /\
      CompareHashAndPassword h password' =
        if bool_decide (d' = d) then fine tt else fails ErrMismatchedHashAndPassword.
Proof.
  destruct (MaxCost <? cost) eqn:Ec.
  { unfold GenerateFromPassword. by rewrite newFromPassword_spec, Ec. }
  zbool. destruct (newFromPassword_wf password cost Ec) as (p & E & Hp & Hs & Hm & Hc & Hb).
  unfold GenerateFromPassword. rewrite E. cbn [check fine]. fold (effective_cost cost). rewrite <- Hc.
  rewrite <- Hc in Hb. destruct (newFromHash_text p Hp) as (h & Eh & N). exists h. rewrite Eh. split; [done | ].
  assert (Hcmp : forall password', exists d d', bcrypt password (Bcrypt.cost p) det_salt = fine d /\
    bcrypt password' (Bcrypt.cost p) det_salt = fine d' /\
    CompareHashAndPassword h password' = if bool_decide (d' = d) then fine tt else fails ErrMismatchedHashAndPassword).
  { intros password'. destruct (Compare_spec p password' Hp Hs) as (h1 & d' & Eh1 & Ed & Ecmp).
    rewrite Eh in Eh1. injection Eh1 as <-. exists (hash p), d'. split; [exact Hb | split; [exact Ed | exact Ecmp]]. }
  split; [ | split; [unfold Cost; by rewrite N | split; [ | exact Hcmp]]].
  - rewrite Hash_text in Eh by done. injection Eh as <-. destruct (fmt_cost _ (wf_cost p Hp)) as (c & e & Ef & _).
    rewrite Ef, Hm. simpl. rewrite length_app. by rewrite (wf_hash p Hp), (wf_salt p Hp).
  - destruct (Hcmp password) as (d & d' & Ed & Ed' & ->). rewrite Ed in Ed'. injection Ed' as ->.
    by rewrite bool_decide_eq_true_2.
Qed.

(** A cipher that adds a byte made from the keys. *)
#[local] Instance toy_blowfish : Blowfish := {
  cipher := Z;
  NewSaltedCipher := fun key salt => match key with [] => None | _ => Some (foldr Z.add 0 (key ++ salt)) end;
  ExpandKey := fun key c => foldr Z.add (c * 31) key mod 256;
  Encrypt := fun c b => (fun x => (x + c) mod 256) <$> b
}.
#[local] Instance toy_laws : BlowfishLaws.
Proof.
  split.
  - intros key salt Hk _. destruct key as [|k key]; [done | ]. simpl. by eexists.
  - intros c b Hl Hb. cbn [Encrypt toy_blowfish]. split; [by rewrite length_fmap | ]. apply Forall_fmap, Forall_true. intros x. simpl.
    apply Z.mod_pos_bound. lia.
Qed.

Lemma password_roundtrip_witness :
  exists h, GenerateFromPassword (lit "secret") 0 = fine h /\ Cost h = fine 10 /\
    CompareHashAndPassword h (lit "secret") = fine tt.
Proof.
  destruct (password_roundtrip (lit "secret") 0) as (h & E & _ & Ec & Ep & _).
  exists h. split; [exact E | split; [exact Ec | exact Ep]].
Defined.
