(* ===== verification/Ranker.v ===== *)
(** * Ranking: [lab1/ranker/ranker.go]

    A video's rank for a user hashes the dot product of their coefficients with
    deterministic bcrypt.  The dot product runs over a Go map, whose order is
    unspecified: the definitions take that order as an argument. *)
From Stdlib Require Import String.
From S2P Require Import Prelude Strconv Base64 Bcrypt BcryptSpec Services VideoRec.

Local Open Scope Z_scope.
Local Open Scope go_scope.

(** ** [hash/fnv] *)
Definition fnv32_step (h b : Z) : Z := Z.lxor (u32 (h * 16777619)) b.
Definition New32 (data : bytes) : Z := foldl fnv32_step 2166136261 data.
Definition fnv64_step (h b : Z) : Z := Z.lxor (u64 (h * 1099511628211)) b.
Definition New64 (data : bytes) : Z := foldl fnv64_step 14695981039346656037 data.

Section ranker.
Context `{Blowfish}.

(** The remainder of the hash by [4 - min]. *)
Definition costHash (id : Z) : outcome Z :=
  r ← go_rem (i64 (New32 (FormatUint id))) (4 - MinCost);
  Ok (r + MinCost).

(** One turn of the loop over the user's coefficients. *)
Definition dot_step (video : Coefficients) (dotProduct : Z) (entry : Z * Z) : Z :=
  match video !! entry.1 with
  | Some videoCoeff => u64 (dotProduct + u64 (entry.2 * videoCoeff))
  | None => dotProduct
  end.
Definition dotProduct (user : list (Z * Z)) (video : Coefficients) : Z := foldl (dot_step video) 0 user.

(** [Rank] with the entries of the user's map in the order they come; the
    error of [GenerateFromPassword] is dropped with a nil slice. *)
Definition BcryptRank (user : list (Z * Z)) (video : Coefficients) : outcome Z :=
  let dot := dotProduct user video in
  let pw := fmt_0d 20 dot in
  cost ← costHash dot;
  r ← GenerateFromPassword pw cost;
  Ok (New64 (match r with inl b => b | inr _ => [] end)).
End ranker.

Section facts.
Lemma lxor_range n a b : 0 <= n -> 0 <= a < 2 ^ n -> 0 <= b < 2 ^ n -> 0 <= Z.lxor a b < 2 ^ n.
Proof.
  intros Hn Ha Hb. assert (Hx : 0 <= Z.lxor a b) by (apply Z.lxor_nonneg; lia). split; [done | ].
  destruct (decide (Z.lxor a b = 0)) as [-> | Hne]; [lia | ]. apply Z.log2_lt_pow2; [lia | ].
  assert (Hlog : forall c, 0 <= c < 2 ^ n -> c = 0 \/ Z.log2 c < n).
  { intros c Hc. destruct (decide (c = 0)); [by left | ]. right. apply Z.log2_lt_pow2; lia. }
  pose proof (Z.log2_lxor a b ltac:(lia) ltac:(lia)).
  destruct (Hlog a Ha) as [-> | ?]; destruct (Hlog b Hb) as [-> | ?]; rewrite ?Z.lxor_0_l, ?Z.lxor_0_r in *; lia.
Qed.

Lemma New32_range data : byte_list data -> 0 <= New32 data < 2 ^ 32.
Proof.
  unfold New32. intros Hd. assert (H0 : 0 <= 2166136261 < 2 ^ 32) by lia. revert H0. generalize 2166136261 as h.
  induction Hd as [|b data Hb Hd IH]; intros h Hh; [done | ]. simpl. apply IH. apply lxor_range; [done | apply u32_range | lia].
Qed.

Lemma digits_bytes s : Forall (fun c => is_digit c = true) s -> byte_list s.
Proof. intros Hs. eapply Forall_impl; [exact Hs | ]. unfold is_digit. intros c Hc. zbool. lia. Qed.

(** The cost is always 1, 2 or 3. *)
Lemma costHash_range id : 0 <= id -> exists c, costHash id = Ok c /\ 1 <= c <= 3.
Proof.
  intros Hid. unfold costHash. pose proof (New32_range (FormatUint id) (digits_bytes _ (FormatUint_digits id Hid))) as Hr.
  rewrite i64_small by lia. unfold go_rem, MinCost. change (4 - 1 =? 0) with false. cbn [mbind outcome_bind]. eexists. split; [reflexivity | ].
  pose proof (Z.rem_bound_pos (New32 (FormatUint id)) 3 ltac:(lia) ltac:(lia)). change (4 - 1) with 3. lia.
Qed.

Lemma dot_step_comm video a x y : dot_step video (dot_step video a x) y = dot_step video (dot_step video a y) x.
Proof.
  unfold dot_step. destruct (video !! x.1), (video !! y.1); [ | done..].
  rewrite !u64_add_l. f_equal. lia.
Qed.

(** The order of the map does not matter. *)
Lemma dotProduct_perm user user' video : user ≡ₚ user' -> dotProduct user video = dotProduct user' video.
Proof.
  intros Hp. unfold dotProduct. generalize 0. induction Hp as [ | x l l' Hp IH | x y l | l1 l2 l3 Hp1 IH1 Hp2 IH2]; intros a; simpl.
  - done.
  - apply IH.
  - by rewrite dot_step_comm.
  - by rewrite IH1.
Qed.

Lemma dotProduct_range user video : 0 <= dotProduct user video < 2 ^ 64.
Proof.
  unfold dotProduct. cut (forall a, 0 <= a < 2 ^ 64 -> 0 <= foldl (dot_step video) a user < 2 ^ 64); [intros Hc; apply Hc; lia | ].
  induction user as [|x user IH]; intros a Ha; cbn [foldl]; [done | ]. apply IH. unfold dot_step.
  destruct (video !! x.1); [apply u64_range | done].
Qed.
(** The exact sum. *)
Definition product (video : Coefficients) (feature c acc : Z) : Z :=
  match video !! feature with Some d => acc + c * d | None => acc end.

Lemma dotProduct_sum user video : dotProduct user video = u64 (foldr (fun x => product video x.1 x.2) 0 user).
Proof.
  unfold dotProduct. set (sum := foldr _ 0 user).
  assert (H : forall a, foldl (dot_step video) (u64 a) user = u64 (a + sum)).
  { subst sum. induction user as [|x user IH]; intros a; cbn [foldl foldr]; [by rewrite Z.add_0_r | ].
    unfold dot_step at 2, product at 1. destruct (video !! x.1) as [d|]; [ | apply IH].
    rewrite u64_add_l, u64_add_r, IH. f_equal. lia. }
  apply (H 0).
Qed.

Lemma product_fold user video :
  map_fold (product video) 0 user = foldr (fun x => product video x.1 x.2) 0 (map_to_list user).
Proof. rewrite map_fold_foldr. apply foldr_ext; [by intros [? ?] ? | done..]. Qed.
End facts.

(** The ranker of the recommendation service. *)
#[export] Instance BcryptRanker `{Blowfish} : Ranker := fun user video =>
  match BcryptRank (map_to_list user) video with Ok r => r | _ => 0 end.

(** C35: a rank is a function of the two maps.  Whatever order the runtime
    iterates the user's coefficients in, [Rank] ends without panic or error and
    with the same value: the hash of the bcrypt hash, at a cost between 1 and 3,
    of the sum modulo 2^64 of the products of the shared features. *)
Theorem Rank_deterministic `{BlowfishLaws} (user video : Coefficients) :
  exists r, (forall order, order ≡ₚ map_to_list user -> BcryptRank order video = Ok r) /\
    exists cost h, 1 <= cost <= 3 /\ r = New64 h /\
      GenerateFromPassword (fmt_0d 20
        (u64 (map_fold (product video) 0 user))) cost
        = fine h.
Proof.
  set (dot := dotProduct (map_to_list user) video).
  pose proof (dotProduct_range (map_to_list user) video) as Hdot. fold dot in Hdot.
  destruct (costHash_range dot) as (c & Ec & Hc); [lia | ].
  pose proof (password_roundtrip (fmt_0d 20 dot) c) as Hg. rewrite (proj2 (Z.ltb_ge _ _)) in Hg by (unfold MaxCost; lia).
  destruct Hg as (h & Eg & _). exists (New64 h). split.
  - intros order Hp. unfold BcryptRank. rewrite (dotProduct_perm _ _ video Hp). fold dot. by rewrite Ec, bind_Ok, Eg.
  - exists c, h. split; [done | ]. split; [done | ]. rewrite <- Eg. unfold dot. by rewrite dotProduct_sum, product_fold.
Qed.

#[local] Existing Instance toy_blowfish.
#[local] Existing Instance toy_laws.

Lemma Rank_deterministic_witness :
  exists r, BcryptRank [(1, 5); (2, 3)] {[ 1 := 4; 3 := 9 ]} = Ok r /\ BcryptRank [(2, 3); (1, 5)] {[ 1 := 4; 3 := 9 ]} = Ok r.
Proof.
  destruct (Rank_deterministic {[ 1 := 5; 2 := 3 ]} {[ 1 := 4; 3 := 9 ]}) as (r & Hr & _). exists r.
  assert (Hp : [(1, 5); (2, 3)] ≡ₚ map_to_list ({[ 1 := 5; 2 := 3 ]} : Coefficients)) by (apply (bool_decide_unpack _); vm_compute; exact I).
  split; [apply Hr; exact Hp | apply Hr]. etransitivity; [ | exact Hp]. apply perm_swap.
Defined.
