(* ===== verification/Labgob.v ===== *)
(** * Checked gob encoding: [lab3/labgob/labgob.go]

    The wrapper around Go's [encoding/gob] that complains about struct fields
    gob would skip and about decoding into variables that are not zero.  A
    [reflect.Type] is an identifier; the declared types of the program are a
    finite table [types], so that recursive types are cycles of it.  What the
    wrapper checks is modelled in full; the encoding itself is the class [Gob]. *)
From S2P Require Import Prelude Strconv Effects.

Local Open Scope Z_scope.

(** ** Types *)
Definition rtype : Type := positive.

Inductive basic := BBool | BInt | BUint | BFloat (width : Z) | BString.

(** [reflect.Kind] with the parts of a type that can be asked for; a struct
    field is a name and a type. *)
Inductive kind :=
  | KStruct (fields : list (bytes * rtype))
  | KSlice (elem : rtype)
  | KArray (n : nat) (elem : rtype)
  | KPtr (elem : rtype)
  | KMap (key elem : rtype)
  | KBasic (b : basic)
  | KInterface
  | KOther.   (* channels, functions, complex numbers *)

(** ** Values, with their dynamic types *)
#[warnings="-register-all"]
Inductive value :=
  | VBool (t : rtype) (b : bool)
  | VNum (t : rtype) (z : Z)
  | VFloat (t : rtype) (width bits : Z)
  | VString (t : rtype) (s : bytes)
  | VStruct (t : rtype) (fields : list value)
  | VSeq (t : rtype) (elems : list value)   (* slices and arrays *)
  | VMap (t : rtype) (entries : list (value * value))
  | VPtr (t : rtype) (p : option value)
  | VInterface (t : rtype) (v : option value)
  | VOther (t : rtype).

Definition TypeOf (v : value) : rtype :=
  match v with
  | VBool t _ | VNum t _ | VFloat t _ _ | VString t _ | VStruct t _ | VSeq t _ | VMap t _
  | VPtr t _ | VInterface t _ | VOther t => t
  end.

(** ** UTF-8: [utf8.DecodeRuneInString] and [unicode.IsUpper] *)
Definition RuneError : Z := 65533.

Definition in_range (lo hi c : Z) : bool := (lo <=? c) && (c <=? hi).
Definition continuation : Z -> bool := in_range 128 191.

Definition DecodeRune (s : bytes) : Z :=
  match s with
  | [] => RuneError
  | b0 :: s =>
      if b0 <? 128 then b0 else
      match s with
      | b1 :: s =>
          if in_range 194 223 b0 && continuation b1 then (b0 - 192) * 64 + (b1 - 128) else
          match s with
          | b2 :: s =>
              let ok1 := if b0 =? 224 then in_range 160 191 b1
                         else if b0 =? 237 then in_range 128 159 b1 else continuation b1 in
              if in_range 224 239 b0 && ok1 && continuation b2
              then (b0 - 224) * 4096 + (b1 - 128) * 64 + (b2 - 128) else
              match s with
              | b3 :: _ =>
                  let ok1 := if b0 =? 240 then in_range 144 191 b1
                             else if b0 =? 244 then in_range 128 143 b1 else continuation b1 in
                  if in_range 240 244 b0 && ok1 && continuation b2 && continuation b3
                  then (b0 - 240) * 262144 + (b1 - 128) * 4096 + (b2 - 128) * 64 + (b3 - 128)
                  else RuneError
              | [] => RuneError
              end
          | [] => RuneError
          end
      | [] => RuneError
      end
  end.

(** The upper-case letters above Latin-1 are in a table of the [unicode]
    package. *)
Class UnicodeTable := upper_beyond_latin1 : Z -> bool.

Definition IsUpper `{UnicodeTable} (r : Z) : bool :=
  if r <=? 255 then in_range 65 90 r || (in_range 192 222 r && negb (r =? 215))
  else upper_beyond_latin1 r.

(** ** The package's variables *)
Inductive message :=
  | LowerCaseField (field type_name : bytes)
  | NonDefault (what : bytes).

Record labgob := MkLabgob {
  errorCount : Z;
  checked : gset rtype;
  printed : list message   (* standard output *)
}.

Definition initial_labgob : labgob := MkLabgob 0 ∅ [].

Definition mark (t : rtype) (s : labgob) : labgob :=
  MkLabgob (errorCount s) ({[ t ]} ∪ checked s) (printed s).

(** The encoding itself: [gobEncode v] is what is written to the buffer, and
    whether the error is nil; [gobDecode b old] is what a variable that held
    [old] holds once [b] has been decoded into it, and whether the error is
    nil. *)
Class Gob := { gobEncode : value -> bytes * bool; gobDecode : bytes -> value -> value * bool }.

Section labgob.
Context `{UnicodeTable}.
Variable types : gmap rtype (bytes * kind).

Definition Name (t : rtype) : bytes := match types !! t with Some d => d.1 | None => [] end.
Definition Kind (t : rtype) : kind := match types !! t with Some d => d.2 | None => KOther end.

(** ** Capitalisation *)
Definition lower_field (f : bytes * rtype) : bool := negb (IsUpper (DecodeRune f.1)).

Definition complain_field (t : rtype) (f : bytes * rtype) (s : labgob) : labgob :=
  if lower_field f
  then MkLabgob (i64 (errorCount s + 1)) (checked s) (printed s ++ [LowerCaseField f.1 (Name t)])
  else s.

(** The loop over the fields of struct type [t]; [check] is the recursive call. *)
Fixpoint checkFields (check : rtype -> labgob -> option labgob) (t : rtype)
    (fs : list (bytes * rtype)) (s : labgob) : option labgob :=
  match fs with
  | [] => Some s
  | f :: fs => check f.2 (complain_field t f s) ≫= checkFields check t fs
  end.

(** [None] when the fuel runs out. *)
Fixpoint checkType (fuel : nat) (t : rtype) (s : labgob) : option labgob :=
  match fuel with
  | O => None
  | S fuel =>
      if decide (t ∈ checked s) then Some s else
      let s := mark t s in
      match Kind t with
      | KStruct fs => checkFields (checkType fuel) t fs s
      | KSlice e | KArray _ e | KPtr e => checkType fuel e s
      | KMap k e => checkType fuel e s ≫= checkType fuel k
      | _ => Some s
      end
  end.

(** Every call but the last marks a declared type. *)
Definition type_fuel : nat := S (size types).

(** [checkValue(value)], given [reflect.TypeOf(value)]; the type of a nil
    interface is nil, whose [Kind] panics. *)
Definition checkValue (t : option rtype) (s : labgob) : outcome labgob :=
  match t with
  | None => Panic
  | Some t => match checkType type_fuel t s with Some s => Ok s | None => Block end
  end.

(** ** Default values *)

(** Whether [reflect.DeepEqual(reflect.Zero(t), value)] for a scalar; [None] on
    a value that is not one.  Zero and minus zero are equal. *)
Definition scalar_is_zero (v : value) : option bool :=
  match v with
  | VBool _ b => Some (negb b)
  | VNum _ z => Some (z =? 0)
  | VFloat _ w bits => Some (bits mod 2 ^ (w - 1) =? 0)
  | VString _ s => Some (len s =? 0)
  | _ => None
  end.

Definition complain_default (name : bytes) (t : rtype) (s : labgob) : labgob :=
  let what := if len name =? 0 then Name t else name in
  MkLabgob (i64 (errorCount s + 1)) (checked s)
    (if errorCount s <? 1 then printed s ++ [NonDefault what] else printed s).

Definition join (name name1 : bytes) : bytes :=
  if len name =? 0 then name1 else name ++ [46] ++ name1.

Definition field_names (t : rtype) : list bytes :=
  match Kind t with KStruct fs => fs.*1 | _ => [] end.

Fixpoint checkDefault1 (v : value) (depth : Z) (name : bytes) (s : labgob) {struct v} : labgob :=
  if 3 <? depth then s else
  match v with
  | VStruct t vs =>
      (fix loop (names : list bytes) (vs : list value) (s : labgob) {struct vs} : labgob :=
         match vs, names with
         | vv :: vs, name1 :: names => loop names vs (checkDefault1 vv (depth + 1) (join name name1) s)
         | _, _ => s
         end) (field_names t) vs s
  | VPtr _ None => s
  | VPtr _ (Some v) => checkDefault1 v (depth + 1) name s
  | VBool _ _ | VNum _ _ | VFloat _ _ _ | VString _ _ =>
      if scalar_is_zero v is Some false then complain_default name (TypeOf v) s else s
  | _ => s
  end.

Definition checkDefault (v : option value) (s : labgob) : labgob :=
  match v with None => s | Some v => checkDefault1 v 1 [] s end.

(** ** Zero values: [reflect.Zero].  A type nested in itself is behind a
    pointer, a slice or a map, so the declared types bound the nesting. *)
Fixpoint zero_value (fuel : nat) (t : rtype) : value :=
  match Kind t with
  | KStruct fs =>
      VStruct t (match fuel with O => [] | S fuel => zero_value fuel <$> fs.*2 end)
  | KArray n e =>
      VSeq t (match fuel with O => [] | S fuel => replicate n (zero_value fuel e) end)
  | KSlice _ => VSeq t []
  | KPtr _ => VPtr t None
  | KMap _ _ => VMap t []
  | KBasic BBool => VBool t false
  | KBasic BInt | KBasic BUint => VNum t 0
  | KBasic (BFloat w) => VFloat t w 0
  | KBasic BString => VString t []
  | KInterface => VInterface t None
  | KOther => VOther t
  end.

Definition Zero (t : rtype) : value := zero_value (size types) t.

(** ** The encoder and the decoder over a buffer *)
Context `{Gob}.

(** [Encode] and [EncodeValue] on a new buffer: the bytes written, and whether
    there was no error. *)
Definition Encode (v : value) : st labgob (bytes * bool) := fun s =>
  match checkValue (Some (TypeOf v)) s with
  | Ok s => Ok (gobEncode v, s)
  | Panic => Panic
  | Block => Block
  end.

(** [Decode] of a buffer through a pointer of type [pt] to a variable that
    holds [old]: its new content, and whether there was no error. *)
Definition Decode (b : bytes) (pt : rtype) (old : value) : st labgob (value * bool) := fun s =>
  match checkValue (Some pt) s with
  | Ok s => Ok (gobDecode b old, checkDefault (Some (VPtr pt (Some old))) s)
  | Panic => Panic
  | Block => Block
  end.
End labgob.
