(* ===== verification/LabgobSpec.v ===== *)
(** * What the checks of [labgob] report

    Checking a type marks exactly the types reachable from it, terminates on
    recursive types, and counts each lower-case field of a newly reached type
    once.  Decoding into a variable that holds only zero values is silent. *)
From Stdlib Require Import String.
From S2P Require Import Prelude Strconv Effects Labgob.

Local Open Scope Z_scope.

Section spec.
Context `{UnicodeTable}.
Variable types : gmap rtype (bytes * kind).

(** ** The graph of types *)
Definition children (t : rtype) : list rtype :=
  match Kind types t with
  | KStruct fs => fs.*2
  | KSlice e | KArray _ e | KPtr e => [e]
  | KMap k e => [e; k]
  | _ => []
  end.

Definition child (t u : rtype) : Prop := u ∈ children t.

(** The number of lower-case fields of a type, and of the types of a set. *)
Definition lower_count (fs : list (bytes * rtype)) : Z := len (filter (fun f => lower_field f = true) fs).

Definition lower_fields (t : rtype) : Z :=
  match Kind types t with KStruct fs => lower_count fs | _ => 0 end.

Definition sum_Z (l : list Z) : Z := foldr Z.add 0 l.

Definition lower_in (X : gset rtype) : Z := sum_Z (lower_fields <$> elements X).

Lemma sum_Z_Permutation l k : l ≡ₚ k -> sum_Z l = sum_Z k.
Proof. induction 1; simpl; lia. Qed.

Lemma sum_Z_app l k : sum_Z (l ++ k) = sum_Z l + sum_Z k.
Proof. induction l; simpl; lia. Qed.

Lemma lower_in_union X Y : X ## Y -> lower_in (X ∪ Y) = lower_in X + lower_in Y.
Proof.
  intros HXY. unfold lower_in.
  rewrite <- sum_Z_app, <- fmap_app. apply sum_Z_Permutation. by rewrite elements_disj_union.
Qed.

Lemma lower_in_singleton t : lower_in {[ t ]} = lower_fields t.
Proof. unfold lower_in. rewrite elements_singleton. simpl. lia. Qed.

Lemma lower_in_empty : lower_in ∅ = 0.
Proof. unfold lower_in. by rewrite elements_empty. Qed.

(** The types marked between two states. *)
Definition fresh (s s' : labgob) : gset rtype := checked s' ∖ checked s.

(** What checking the types [ts] does between [s] and [s'], besides the [k]
    complaints of the caller: it marks them, and types reachable from them whose
    children end up marked too, and complains about the fields of these. *)
Record covers (ts : list rtype) (k : Z) (s s' : labgob) : Prop := Covers {
  covers_grows : checked s ⊆ checked s';
  covers_roots : forall t, t ∈ ts -> t ∈ checked s';
  covers_reached : forall u, u ∈ fresh s s' -> exists t, t ∈ ts /\ rtc child t u;
  covers_closed : forall u c, u ∈ fresh s s' -> child u c -> c ∈ checked s';
  covers_count : i64 (errorCount s') = i64 (errorCount s + k + lower_in (fresh s s'));
  covers_range : i64 (errorCount s) = errorCount s -> i64 (errorCount s') = errorCount s';
  covers_printed : len (printed s') = len (printed s) + k + lower_in (fresh s s')
}.

Lemma covers_refl s : covers [] 0 s s.
Proof.
  split; unfold fresh; try set_solver; rewrite difference_diag_L, lower_in_empty.
  - f_equal. lia.
  - lia.
Qed.

Lemma i64_add_l a b : i64 (i64 a + b) = i64 (a + b).
Proof.
  unfold i64. replace ((a + 2 ^ 63) mod 2 ^ 64 - 2 ^ 63 + b + 2 ^ 63) with ((a + 2 ^ 63) mod 2 ^ 64 + b) by lia.
  rewrite Zplus_mod_idemp_l. do 2 f_equal. lia.
Qed.

Lemma i64_idemp a : i64 (i64 a) = i64 a.
Proof. apply i64_small. pose proof (i64_range a). lia. Qed.

Lemma covers_trans ts us k j s s1 s2 :
  covers ts k s s1 -> covers us j s1 s2 -> covers (ts ++ us) (k + j) s s2.
Proof.
  intros [G1 R1 T1 C1 N1 W1 P1] [G2 R2 T2 C2 N2 W2 P2].
  assert (Hf : fresh s s2 = fresh s s1 ∪ fresh s1 s2).
  { unfold fresh. apply set_eq. intros x. destruct (decide (x ∈ checked s1)); set_solver. }
  split.
  - set_solver.
  - set_solver.
  - intros u. rewrite Hf. intros [Hu | Hu]%elem_of_union; set_solver.
  - intros u c. rewrite Hf. intros [Hu | Hu]%elem_of_union; set_solver.
  - rewrite Hf, lower_in_union by (unfold fresh; set_solver). rewrite N2.
    replace (errorCount s1 + j + lower_in (fresh s1 s2)) with (errorCount s1 + (j + lower_in (fresh s1 s2))) by lia.
    rewrite <- i64_add_l, N1, i64_add_l. f_equal. lia.
  - auto.
  - rewrite Hf, lower_in_union by (unfold fresh; set_solver). lia.
Qed.

(** Marking a type and checking its children checks the type. *)
Lemma covers_node t s s' :
  t ∉ checked s -> covers (children t) (lower_fields t) (mark t s) s' -> covers [t] 0 s s'.
Proof.
  intros Ht [G R T C N W P].
  assert (Hf : fresh s s' = {[ t ]} ∪ fresh (mark t s) s').
  { unfold fresh, mark. simpl. apply set_eq. intros x. destruct (decide (x = t)); set_solver. }
  assert (Hd : {[ t ]} ## fresh (mark t s) s') by (unfold fresh, mark; simpl; set_solver).
  split.
  - set_solver.
  - set_solver.
  - intros u. rewrite Hf. intros [->%elem_of_singleton | Hu]%elem_of_union.
    + exists t. split; [set_solver | apply rtc_refl].
    + destruct (T u Hu) as (c & Hc & Hr). exists t. split; [set_solver | by eapply rtc_l].
  - intros u c. rewrite Hf. intros [->%elem_of_singleton | Hu]%elem_of_union Hc; [by apply R | by eapply C].
  - rewrite Hf, lower_in_union, lower_in_singleton by done. rewrite N. simpl. f_equal. lia.
  - exact W.
  - rewrite Hf, lower_in_union, lower_in_singleton by done. rewrite P. simpl. lia.
Qed.

Lemma covers_complain t f s :
  covers [] (if lower_field f then 1 else 0) s (complain_field types t f s).
Proof.
  unfold complain_field. destruct (lower_field f); [| apply covers_refl].
  split; unfold fresh; simpl; try set_solver; rewrite ?difference_diag_L, ?lower_in_empty.
  - by rewrite i64_idemp, Z.add_0_r.
  - intros _. apply i64_idemp.
  - rewrite len_app. unfold len. simpl. lia.
Qed.

Lemma lower_count_cons f fs : lower_count (f :: fs) = (if lower_field f then 1 else 0) + lower_count fs.
Proof.
  unfold lower_count, len. rewrite filter_cons. destruct (lower_field f) eqn:E; case_decide; try congruence; simpl; lia.
Qed.

(** ** The recursion *)
Section recursion.
Variable check : rtype -> labgob -> option labgob.

(** The recursive calls are right from every state that has marked [X]. *)
Variable X : gset rtype.
Hypothesis check_covers : forall t s, X ⊆ checked s -> exists s', check t s = Some s' /\ covers [t] 0 s s'.

Lemma checkFields_covers t fs s :
  X ⊆ checked s ->
  exists s', checkFields types check t fs s = Some s' /\ covers fs.*2 (lower_count fs) s s'.
Proof.
  revert s. induction fs as [| f fs IH]; intros s Hs; simpl.
  - exists s. split; [done | apply covers_refl].
  - pose proof (covers_complain t f s) as H0.
    destruct (check_covers f.2 (complain_field types t f s)) as (s1 & E1 & H1).
    { etrans; [exact Hs | apply H0]. }
    destruct (IH s1) as (s2 & E2 & H2).
    { etrans; [exact Hs | ]. etrans; [apply H0 | apply H1]. }
    exists s2. rewrite E1. split; [done | ].
    rewrite lower_count_cons. pose proof (covers_trans _ _ _ _ _ _ _ H0 (covers_trans _ _ _ _ _ _ _ H1 H2)) as Hc.
    by rewrite Z.add_0_l in Hc.
Qed.

Lemma check_pair_covers e k s :
  X ⊆ checked s ->
  exists s', check e s ≫= check k = Some s' /\ covers [e; k] 0 s s'.
Proof.
  intros Hs. destruct (check_covers e s Hs) as (s1 & E1 & H1).
  destruct (check_covers k s1) as (s2 & E2 & H2); [etrans; [exact Hs | apply H1] | ].
  exists s2. rewrite E1. split; [done | exact (covers_trans _ _ _ _ _ _ _ H1 H2)].
Qed.
End recursion.

(** Declared types not marked yet. *)
Definition unmarked (X : gset rtype) : nat := size (dom types ∖ X).

Lemma unmarked_mark t X Y :
  is_Some (types !! t) -> t ∉ X -> {[ t ]} ∪ X ⊆ Y -> (unmarked Y < unmarked X)%nat.
Proof.
  intros Ht HX HY. unfold unmarked. apply subset_size. apply elem_of_dom in Ht. set_solver.
Qed.

(** With as much fuel as there are unmarked types, a check goes through. *)
Lemma checkType_covers fuel t s :
  (unmarked (checked s) < fuel)%nat ->
  exists s', checkType types fuel t s = Some s' /\ covers [t] 0 s s'.
Proof.
  revert t s. induction fuel as [| fuel IH]; intros t s Hfuel; [lia | ]. simpl.
  destruct (decide (t ∈ checked s)) as [Ht | Ht].
  { exists s. split; [done | ]. pose proof (covers_refl s) as []. split; try done; set_solver. }
  assert (Hnode : forall s', covers (children t) (lower_fields t) (mark t s) s' -> covers [t] 0 s s').
  { intros s'. by apply covers_node. }
  revert Hnode. unfold children, lower_fields. destruct (types !! t) as [d | ] eqn:Ed.
  2: { unfold Kind. rewrite Ed. intros Hnode. exists (mark t s). split; [done | ]. apply Hnode, covers_refl. }
  assert (Hrec : forall u s1, {[ t ]} ∪ checked s ⊆ checked s1 ->
                   exists s2, checkType types fuel u s1 = Some s2 /\ covers [u] 0 s1 s2).
  { intros u s1 Hs1. apply IH. pose proof (unmarked_mark t _ _ (mk_is_Some _ _ Ed) Ht Hs1). lia. }
  assert (H0 : {[ t ]} ∪ checked s ⊆ checked (mark t s)) by done.
  destruct (Kind types t) as [fs | e | n e | e | k e | b | | ] eqn:Ek; intros Hnode.
  - destruct (checkFields_covers _ _ Hrec t fs _ H0) as (s' & E & Hc). eauto.
  - destruct (Hrec e _ H0) as (s' & E & Hc). eauto.
  - destruct (Hrec e _ H0) as (s' & E & Hc). eauto.
  - destruct (Hrec e _ H0) as (s' & E & Hc). eauto.
  - destruct (check_pair_covers _ _ Hrec e k _ H0) as (s' & E & Hc). eauto.
  - eexists. split; [done | apply Hnode, covers_refl].
  - eexists. split; [done | apply Hnode, covers_refl].
  - eexists. split; [done | apply Hnode, covers_refl].
Qed.

Lemma checkValue_covers t s :
  exists s', checkValue types (Some t) s = Ok s' /\ covers [t] 0 s s'.
Proof.
  destruct (checkType_covers (type_fuel types) t s) as (s' & E & Hc).
  { unfold type_fuel, unmarked. rewrite <- size_dom. apply le_n_S, subseteq_size. set_solver. }
  exists s'. unfold checkValue. by rewrite E.
Qed.

(** ** The invariant of the package's variables *)
Record labgob_wf (s : labgob) : Prop := {
  wf_closed : forall t u, t ∈ checked s -> child t u -> u ∈ checked s;
  wf_count : i64 (errorCount s) = errorCount s
}.

Lemma initial_wf : labgob_wf initial_labgob.
Proof. split; [set_solver | done]. Qed.

Lemma covers_wf ts k s s' : labgob_wf s -> covers ts k s s' -> labgob_wf s'.
Proof.
  intros [Hc Hn] [G R T C N W P]. split; [| auto].
  intros t u Ht Hu. destruct (decide (t ∈ checked s)); [set_solver |].
  apply (C t u); [unfold fresh; set_solver | done].
Qed.

Lemma closed_rtc (X : gset rtype) t u :
  (forall t u, t ∈ X -> child t u -> u ∈ X) -> t ∈ X -> rtc child t u -> u ∈ X.
Proof. intros HX Ht Hr. induction Hr; eauto. Qed.

Lemma covers_checked t s s' u :
  labgob_wf s -> covers [t] 0 s s' -> u ∈ checked s' <-> u ∈ checked s \/ rtc child t u.
Proof.
  intros Hwf Hc. pose proof (wf_closed _ (covers_wf _ _ _ _ Hwf Hc)) as Hcl. destruct Hc as [G R T C N W P].
  split.
  - intros Hu. destruct (decide (u ∈ checked s)) as [Hs | Hs]; [by left | right].
    destruct (T u) as (t' & ->%list_elem_of_singleton & Hr); [unfold fresh; set_solver | done].
  - intros [Hu | Hr]; [set_solver |]. apply (closed_rtc _ t); [done | apply R; set_solver | done].
Qed.

(** C32: a check of a type, recursive or not, returns.  It marks exactly the
    types reachable from it, counts one error for each lower-case field of each
    type marked for the first time, prints one line for each, keeps the
    invariant, and a second check changes nothing. *)
Theorem checkValue_exact t s :
  labgob_wf s ->
  exists s', checkValue types (Some t) s = Ok s' /\ labgob_wf s' /\
    (forall u, u ∈ checked s' <-> u ∈ checked s \/ rtc child t u) /\
    errorCount s' = i64 (errorCount s + lower_in (checked s' ∖ checked s)) /\
    len (printed s') = len (printed s) + lower_in (checked s' ∖ checked s) /\
    checkValue types (Some t) s' = Ok s'.
Proof.
  intros Hwf. destruct (checkValue_covers t s) as (s' & E & Hc).
  exists s'. split; [done |]. pose proof (covers_wf _ _ _ _ Hwf Hc) as Hwf'. split; [done |].
  split; [intros u; by apply covers_checked |].
  destruct Hc as [G R T C N W P]. unfold fresh in *. split; [| split; [lia |]].
  - rewrite <- (wf_count _ Hwf'), N. f_equal. lia.
  - unfold checkValue, type_fuel. simpl. rewrite decide_True by (apply R; set_solver). done.
Qed.

(** ** Zero values decode silently *)
Definition silent (v : value) : Prop := forall depth name s, checkDefault1 types v depth name s = s.

Lemma silent_struct t vs : Forall silent vs -> silent (VStruct t vs).
Proof.
  intros Hvs depth name s. simpl. destruct (3 <? depth); [done |].
  generalize (field_names types t) as names. revert s. induction Hvs as [| v vs Hv _ IH]; intros s [| n names]; try done.
  by rewrite Hv.
Qed.

Lemma silent_zero_value fuel t : silent (zero_value types fuel t).
Proof.
  revert t. induction fuel as [| fuel IH]; intros t; simpl;
    destruct (Kind types t) as [fs | e | n e | e | k e | [] | | ];
    try (intros depth name s; simpl; by destruct (3 <? depth)).
  apply silent_struct, Forall_fmap, Forall_true. exact IH.
Qed.

Lemma Zero_silent t : silent (Zero types t).
Proof. apply silent_zero_value. Qed.

(** ** Programs whose messages are well formed *)

(** No declared type has a lower-case field. *)
Definition all_capitalised : Prop := forall t, lower_fields t = 0.

Lemma all_capitalised_lower_in X : all_capitalised -> lower_in X = 0.
Proof.
  intros Hc. unfold lower_in. induction (elements X) as [| t ts IH]; [done |].
  simpl. rewrite Hc. exact IH.
Qed.

Lemma checkValue_quiet t s :
  all_capitalised -> labgob_wf s ->
  exists s', checkValue types (Some t) s = Ok s' /\ labgob_wf s' /\
    errorCount s' = errorCount s /\ len (printed s') = len (printed s).
Proof.
  intros Hall Hwf. destruct (checkValue_covers t s) as (s' & E & Hc). exists s'.
  pose proof (covers_wf _ _ _ _ Hwf Hc) as Hwf'. destruct Hc as [G R T C N W P].
  rewrite (all_capitalised_lower_in _ Hall) in N, P. repeat split; try done; try apply Hwf'.
  - rewrite <- (wf_count _ Hwf'), N, <- (wf_count _ Hwf). f_equal. rewrite (wf_count _ Hwf). lia.
  - lia.
Qed.

Context `{Gob}.

(** A use of the package: an encoding, or a decoding into a new variable. *)
Inductive gob_use := GEncode (v : value) | GDecode (b : bytes) (pointer elem : rtype).

Definition use (u : gob_use) (s : labgob) : outcome labgob :=
  match u with
  | GEncode v => snd <$> Encode types v s
  | GDecode b pointer elem => snd <$> Decode types b pointer (Zero types elem) s
  end.

Definition use_all (us : list gob_use) (s : labgob) : outcome labgob :=
  foldl (fun m u => m ≫= use u) (Ok s) us.

Lemma use_quiet u s :
  all_capitalised -> labgob_wf s ->
  exists s', use u s = Ok s' /\ labgob_wf s' /\
    errorCount s' = errorCount s /\ len (printed s') = len (printed s).
Proof.
  intros Hall Hwf. destruct u as [v | b pointer elem]; simpl; unfold Encode, Decode.
  - destruct (checkValue_quiet (TypeOf v) s Hall Hwf) as (s' & -> & Hs'). by exists s'.
  - destruct (checkValue_quiet pointer s Hall Hwf) as (s' & -> & Hs'). exists s'. split; [| done].
    simpl. f_equal. apply Zero_silent.
Qed.

Lemma use_all_quiet us s :
  all_capitalised -> labgob_wf s ->
  exists s', use_all us s = Ok s' /\ labgob_wf s' /\
    errorCount s' = errorCount s /\ len (printed s') = len (printed s).
Proof.
  intros Hall. unfold use_all. revert s. induction us as [| u us IH]; intros s Hwf; simpl; [by exists s |].
  destruct (use_quiet u s Hall Hwf) as (s1 & -> & Hwf1 & H1 & H2).
  destruct (IH s1 Hwf1) as (s2 & E & Hwf2 & H3 & H4). exists s2.
  split; [done | split; [done | split; congruence]].
Qed.
End spec.

(** ** Raft's messages *)

(** The types [lab3/raft/raft.go] hands to the package: integers, the log, the
    arguments and replies of the two calls, and pointers to them. *)
Module RaftTypes.
Definition tint : rtype := 1%positive.
Definition tbool : rtype := 2%positive.
Definition tinterface : rtype := 3%positive.
Definition LogElement : rtype := 4%positive.
Definition Log : rtype := 5%positive.
Definition RequestVoteArgs : rtype := 6%positive.
Definition RequestVoteReply : rtype := 7%positive.
Definition AppendEntriesArgs : rtype := 8%positive.
Definition AppendEntriesResults : rtype := 9%positive.
Definition ptr (t : rtype) : rtype := (20 + t)%positive.

Definition declared : list (rtype * (bytes * kind)) := [
  (tint, (lit "int"%string, KBasic BInt));
  (tbool, (lit "bool"%string, KBasic BBool));
  (tinterface, (lit ""%string, KInterface));
  (LogElement, (lit "LogElement"%string,
     KStruct [(lit "Term"%string, tint); (lit "Command"%string, tinterface); (lit "Index"%string, tint)]));
  (Log, (lit ""%string, KSlice LogElement));
  (RequestVoteArgs, (lit "RequestVoteArgs"%string,
     KStruct [(lit "Term"%string, tint); (lit "IDcand"%string, tint); (lit "LastLogIdx"%string, tint); (lit "LastLogTerm"%string, tint)]));
  (RequestVoteReply, (lit "RequestVoteReply"%string, KStruct [(lit "Term"%string, tint); (lit "VoteGranted"%string, tbool)]));
  (AppendEntriesArgs, (lit "AppendEntriesArgs"%string,
     KStruct [(lit "Term"%string, tint); (lit "LeaderId"%string, tint); (lit "PrevLogIdx"%string, tint); (lit "PrevLogTerm"%string, tint);
              (lit "Entries"%string, Log); (lit "LeaderCommit"%string, tint)]));
  (AppendEntriesResults, (lit "AppendEntriesResults"%string,
     KStruct [(lit "Term"%string, tint); (lit "Success"%string, tbool); (lit "NextTryIdx"%string, tint)]))].

Definition pointers : list (rtype * (bytes * kind)) :=
  (fun d => (ptr d.1, (lit ""%string, KPtr d.1))) <$> declared.

Definition types : gmap rtype (bytes * kind) := list_to_map (declared ++ pointers).
End RaftTypes.

(** A check of the table. *)
Definition capitalised_kind `{UnicodeTable} (k : kind) : bool :=
  match k with KStruct fs => lower_count fs =? 0 | _ => true end.

Lemma table_capitalised `{UnicodeTable} (types : gmap rtype (bytes * kind)) :
  forallb (fun d => capitalised_kind d.2.2) (map_to_list types) = true -> all_capitalised types.
Proof.
  intros Hall t. unfold lower_fields, Kind. destruct (types !! t) as [d |] eqn:E; [| done].
  rewrite forallb_forall in Hall. specialize (Hall (t, d)). simpl in Hall.
  destruct d as [n [fs | | | | | | |]]; try done. simpl in *.
  apply Z.eqb_eq, Hall, list_elem_of_In, elem_of_map_to_list, E.
Qed.

(** C38: whatever Raft encodes and decodes into new variables, in any order and
    number, the package reports nothing. *)
Theorem raft_messages_quiet `{UnicodeTable} `{Gob} us :
  exists s, use_all RaftTypes.types us initial_labgob = Ok s /\ errorCount s = 0 /\ printed s = [].
Proof.
  destruct (use_all_quiet RaftTypes.types us initial_labgob) as (s & E & _ & H1 & H2).
  - apply table_capitalised. vm_compute. reflexivity.
  - apply initial_wf.
  - exists s. split; [done | split; [done |]]. apply length_zero_iff_nil. unfold len in H2. simpl in H2. lia.
Qed.

(** ** Concrete checks *)
Module LabgobExamples.
#[local] Instance no_letters : UnicodeTable := fun _ => false.

Definition tint : rtype := 1%positive.
Definition T4 : rtype := 2%positive.
Definition pT4 : rtype := 3%positive.
Definition m1 : rtype := 4%positive.
Definition s1 : rtype := 5%positive.
Definition m2 : rtype := 6%positive.
Definition s2 : rtype := 7%positive.
Definition ps2 : rtype := 8%positive.
Definition DD : rtype := 9%positive.
Definition outer : rtype := 10%positive.
Definition pouter : rtype := 11%positive.
Definition node : rtype := 12%positive.
Definition pnode : rtype := 13%positive.

(** The types of [lab3/labgob/test_test.go]; a struct with [DD] as a field; and
    a recursive type with a lower-case field. *)
Definition types : gmap rtype (bytes * kind) := list_to_map [
  (tint, (lit "int"%string, KBasic BInt));
  (T4, (lit "T4"%string, KStruct [(lit "Yes"%string, tint); (lit "no"%string, tint)]));
  (pT4, ([], KPtr T4));
  (m1, ([], KMap pT4 tint)); (s1, ([], KSlice m1));   (* []map[*T4]int *)
  (m2, ([], KMap T4 tint)); (s2, ([], KSlice m2)); (ps2, ([], KPtr s2));   (* *[]map[T4]int *)
  (DD, (lit "DD"%string, KStruct [(lit "X"%string, tint)]));
  (outer, (lit "Outer"%string, KStruct [(lit "In"%string, DD)]));
  (pouter, ([], KPtr outer));
  (node, (lit "Node"%string, KStruct [(lit "Val"%string, tint); (lit "next"%string, pnode)]));
  (pnode, ([], KPtr node))].

(** [TestCapital]: two types that share [T4] give one error. *)
Example TestCapital :
  (checkValue types (Some s1) initial_labgob ≫= checkValue types (Some ps2)) =
  Ok (MkLabgob 1 {[s1; m1; tint; pT4; T4; ps2; s2; m2]} [LowerCaseField (lit "no"%string) (lit "T4"%string)]).
Proof. vm_compute. reflexivity. Qed.

(** [TestDefault]: decoding into [DD{99}]. *)
Example TestDefault :
  checkDefault types (Some (VPtr 1%positive (Some (VStruct DD [VNum tint 99])))) initial_labgob =
  MkLabgob 1 ∅ [NonDefault (lit "X"%string)].
Proof. vm_compute. reflexivity. Qed.

(** A field of a struct inside the struct a pointer leads to is at depth four,
    which is not looked at. *)
Example nested_default_unnoticed :
  checkDefault types (Some (VPtr pouter (Some (VStruct outer [VStruct DD [VNum tint 99]])))) initial_labgob =
  initial_labgob.
Proof. vm_compute. reflexivity. Qed.

Lemma checkValue_exact_witness :
  labgob_wf types initial_labgob /\
  (exists s', checkValue types (Some node) initial_labgob = Ok s' /\ labgob_wf types s' /\
    (forall u, u ∈ checked s' <-> u ∈ checked initial_labgob \/ rtc (child types) node u) /\
    errorCount s' = i64 (errorCount initial_labgob + lower_in types (checked s' ∖ checked initial_labgob)) /\
    len (printed s') = len (printed initial_labgob) + lower_in types (checked s' ∖ checked initial_labgob) /\
    checkValue types (Some node) s' = Ok s') /\
  checkValue types (Some node) initial_labgob =
    Ok (MkLabgob 1 {[node; tint; pnode]} [LowerCaseField (lit "next"%string) (lit "Node"%string)]).
Proof.
  split; [apply initial_wf |]. split; [apply checkValue_exact, initial_wf |].
  vm_compute. reflexivity.
Defined.
End LabgobExamples.
