(* ===== verification/Labrpc.v ===== *)
(** * The simulated network: [lab3/labrpc/labrpc.go]

    Calls, the network's goroutines and the goroutines that run handlers, as a
    transition system: a step is what a goroutine does between two operations
    on a channel, a lock or a timer.  The numbers [rand] draws are part of a
    step's label.  A server is a pointer into [heap], compared as such.  The
    objects whose methods are called share a state [World], and a method body is
    one step, as it is for a method that holds a mutex throughout.
    [log.Fatalf] and a panic of a goroutine end the process. *)
From S2P Require Import Prelude Strconv Effects Labgob.

Local Open Scope Z_scope.

(** ** Names: an [interface{}] used as a map key *)
Inductive iface := IString (s : bytes) | IInt (z : Z).

#[export] Instance iface_eq_dec : EqDecision iface.
Proof. solve_decision. Defined.

#[export] Instance iface_countable : Countable iface.
Proof.
  refine (inj_countable' (fun i => match i with IString s => inl s | IInt z => inr z end)
            (fun x => match x with inl s => IString s | inr z => IInt z end) _).
  by intros [].
Defined.

(** [reflect.PointerTo]. *)
Class PointerTypes := PointerTo : rtype -> rtype.

(** ** Messages *)
Record reqMsg := MkReq { endname : iface; svcMeth : bytes; argsType : rtype; args : bytes }.

Record replyMsg := MkReply { rep_ok : bool; rep_reply : bytes }.

Definition no_reply : replyMsg := MkReply false [].

Section labrpc.
Context `{UnicodeTable} `{Gob} `{PointerTypes}.
Variable types : gmap rtype (bytes * kind).
Context {World : Type}.

(** ** Services *)

(** A [reflect.Method]: the types of its parameters, the receiver's first, the
    number of results, and the method itself, which reads its argument and
    updates what its reply argument points to. *)
Record rmethod := MkMethod {
  PkgPath : bytes;
  In : list rtype;
  NumOut : Z;
  Func : value -> value -> st World value
}.

Record Service := MkServiceRecord { svc_name : bytes; methods : gmap bytes rmethod }.

Definition is_ptr (t : rtype) : bool := match Kind types t with KPtr _ => true | _ => false end.

(** The method does not look like a handler. *)
Definition unsuitable (m : rmethod) : bool :=
  negb (len (PkgPath m) =? 0) || negb (len (In m) =? 3) ||
  negb (match In m !! 2%nat with Some t => is_ptr t | None => false end) || negb (NumOut m =? 0).

(** [MakeService], given the name of the receiver's type and its methods. *)
Definition MakeService (name : bytes) (ms : list (bytes * rmethod)) : Service :=
  MkServiceRecord name
    (foldl (fun acc nm => if unsuitable nm.2 then acc else <[nm.1 := nm.2]> acc) ∅ ms).

Definition elem_type (t : rtype) : rtype := match Kind types t with KPtr e => e | _ => t end.

(** What a dispatching goroutine reads and writes: the receivers, and the
    variables of [labgob]. *)
Definition on_gob {A} (m : st labgob A) : st (World * labgob) A := zoom snd (fun g s => (s.1, g)) m.
Definition on_world {A} (m : st World A) : st (World * labgob) A := zoom fst (fun w s => (w, s.2)) m.

Local Open Scope st_scope.

(** [function.Call] panics on arguments of the wrong number or type. *)
Definition call_types_ok (m : rmethod) (t : rtype) : bool :=
  match In m with [_; t1; _] => bool_decide (t1 = t) | _ => false end.

(** The argument and the reply the method was run with are returned beside the
    message, for the theorems. *)
Definition Service_dispatch (svc : Service) (methname : bytes) (req : reqMsg) :
    st (World * labgob) (replyMsg * (value * value)) :=
  match methods svc !! methname with
  | Some method =>
      let* (a, _) := on_gob (Decode types (args req) (PointerTo (argsType req)) (Zero types (argsType req))) in
      let replyType := match In method !! 2%nat with Some t => t | None => 1%positive end in
      lift (check_index (call_types_ok method (argsType req))) ;;;
      v <- on_world (Func method a (Zero types (elem_type replyType))) ;;
      let* (rb, _) := on_gob (Encode types (VPtr replyType (Some v))) in
      ret (MkReply true rb, (a, v))
  | None => lift Panic
  end.

(** ** Servers *)
Record Server := MkServerRecord { services : gmap bytes Service; sv_count : Z }.

Definition MakeServer : Server := MkServerRecord ∅ 0.

Definition AddService (rs : Server) (svc : Service) : Server :=
  MkServerRecord (<[svc_name svc := svc]> (services rs)) (sv_count rs).

Definition Server_GetCount (rs : Server) : Z := sv_count rs.

(** [strings.LastIndex] of a one-byte string. *)
Fixpoint LastIndex (s : bytes) (c : Z) : Z :=
  match s with
  | [] => -1
  | x :: s =>
      let r := LastIndex s c in
      if r =? -1 then (if x =? c then 0 else -1) else r + 1
  end.

Definition split_method (sm : bytes) : outcome (bytes * bytes) :=
  let dot := LastIndex sm 46 in
  serviceName ← slice_to sm dot;
  methodName ← slice_from sm (dot + 1);
  mret (serviceName, methodName).

(** [Server.dispatch] up to the unlock: the server afterwards, and the service
    and method to call; an unknown service is fatal. *)
Definition Server_dispatch (rs : Server) (req : reqMsg) : outcome (Server * (Service * bytes)) :=
  let rs := MkServerRecord (services rs) (i64 (sv_count rs + 1)) in
  sm ← split_method (svcMeth req);
  match services rs !! sm.1 with
  | Some service => mret (rs, (service, sm.2))
  | None => Panic
  end.
End labrpc.
Arguments rmethod : clear implicits.
Arguments Service : clear implicits.
Arguments Server : clear implicits.

(** ** The network's variables *)
Definition pointer : Type := positive.

Record Network := MkNetworkRecord {
  reliable : bool;
  longDelays : bool;
  longReordering : bool;
  ends : gset iface;   (* the names of the client ends *)
  enabled : gmap iface bool;
  servers : gmap iface (option pointer);   (* [None]: nil *)
  connections : gmap iface (option iface);
  running : bool;   (* the goroutine that handles all calls *)
  closed : bool;   (* [done] is closed *)
  count : Z;
  bytes_sent : Z
}.

Definition MakeNetwork : Network := MkNetworkRecord true false false ∅ ∅ ∅ ∅ true false 0 0.

(** Closing a closed channel panics. *)
Definition Cleanup (rn : Network) : outcome Network :=
  if closed rn then Panic
  else Ok (MkNetworkRecord (reliable rn) (longDelays rn) (longReordering rn) (ends rn) (enabled rn)
             (servers rn) (connections rn) (running rn) true (count rn) (bytes_sent rn)).

Definition Reliable (rn : Network) (yes : bool) : Network :=
  MkNetworkRecord yes (longDelays rn) (longReordering rn) (ends rn) (enabled rn)
    (servers rn) (connections rn) (running rn) (closed rn) (count rn) (bytes_sent rn).

Definition LongReordering (rn : Network) (yes : bool) : Network :=
  MkNetworkRecord (reliable rn) (longDelays rn) yes (ends rn) (enabled rn)
    (servers rn) (connections rn) (running rn) (closed rn) (count rn) (bytes_sent rn).

Definition LongDelays (rn : Network) (yes : bool) : Network :=
  MkNetworkRecord (reliable rn) yes (longReordering rn) (ends rn) (enabled rn)
    (servers rn) (connections rn) (running rn) (closed rn) (count rn) (bytes_sent rn).

(** A name already in use is fatal. *)
Definition MakeEnd (rn : Network) (name : iface) : outcome Network :=
  if decide (name ∈ ends rn) then Panic
  else Ok (MkNetworkRecord (reliable rn) (longDelays rn) (longReordering rn) ({[ name ]} ∪ ends rn)
             (<[name := false]> (enabled rn)) (servers rn) (<[name := None]> (connections rn))
             (running rn) (closed rn) (count rn) (bytes_sent rn)).

Definition set_server (rn : Network) (servername : iface) (rs : option pointer) : Network :=
  MkNetworkRecord (reliable rn) (longDelays rn) (longReordering rn) (ends rn) (enabled rn)
    (<[servername := rs]> (servers rn)) (connections rn) (running rn) (closed rn) (count rn) (bytes_sent rn).

Definition AddServer (rn : Network) (servername : iface) (rs : pointer) : Network :=
  set_server rn servername (Some rs).

Definition DeleteServer (rn : Network) (servername : iface) : Network := set_server rn servername None.

Definition Connect (rn : Network) (name : iface) (servername : option iface) : Network :=
  MkNetworkRecord (reliable rn) (longDelays rn) (longReordering rn) (ends rn) (enabled rn)
    (servers rn) (<[name := servername]> (connections rn)) (running rn) (closed rn) (count rn) (bytes_sent rn).

Definition Enable (rn : Network) (name : iface) (yes : bool) : Network :=
  MkNetworkRecord (reliable rn) (longDelays rn) (longReordering rn) (ends rn) (<[name := yes]> (enabled rn))
    (servers rn) (connections rn) (running rn) (closed rn) (count rn) (bytes_sent rn).

Definition stop_running (rn : Network) : Network :=
  MkNetworkRecord (reliable rn) (longDelays rn) (longReordering rn) (ends rn) (enabled rn)
    (servers rn) (connections rn) false (closed rn) (count rn) (bytes_sent rn).

Definition add_traffic (rn : Network) (requests nbytes : Z) : Network :=
  MkNetworkRecord (reliable rn) (longDelays rn) (longReordering rn) (ends rn) (enabled rn)
    (servers rn) (connections rn) (running rn) (closed rn) (i32 (count rn + requests))
    (i64 (bytes_sent rn + nbytes)).

Definition GetTotalCount (rn : Network) : Z := count rn.
Definition GetTotalBytes (rn : Network) : Z := bytes_sent rn.

(** A map lookup gives the zero value of an absent key. *)
Definition is_enabled (rn : Network) (name : iface) : bool := default false (enabled rn !! name).
Definition connection (rn : Network) (name : iface) : option iface := default None (connections rn !! name).
Definition server_at (rn : Network) (servername : iface) : option pointer :=
  default None (servers rn !! servername).

Definition GetCount {World} (rn : Network) (heap : gmap pointer (Server World)) (servername : iface) : outcome Z :=
  match server_at rn servername ≫= (heap !!.) with
  | Some svr => Ok (Server_GetCount svr)
  | None => Panic
  end.

(** What a request sees of the network when it is processed. *)
Record route := MkRoute {
  servername : iface; server : pointer; was_reliable : bool; longreordering : bool
}.

(** [readEndnameInfo], and the test that the request can be delivered. *)
Definition readEndnameInfo (rn : Network) (name : iface) :
    bool * option iface * option pointer * bool * bool :=
  let servername := connection rn name in
  (is_enabled rn name, servername, servername ≫= server_at rn, reliable rn, longReordering rn).

Definition find_route (rn : Network) (name : iface) : option route :=
  match readEndnameInfo rn name with
  | (true, Some sn, Some sv, rel, long) => Some (MkRoute sn sv rel long)
  | _ => None
  end.

Definition isServerDead (rn : Network) (name : iface) (r : route) : bool :=
  negb (is_enabled rn name) || negb (bool_decide (server_at rn (servername r) = Some (server r))).
