(* ===== verification/LabrpcSystem.v ===== *)
(** * The goroutines of the simulated network

    [ClientEnd.Call], the goroutine that takes requests, [processReq] with its
    timers, and the goroutine that runs [Server.dispatch], of
    [lab3/labrpc/labrpc.go].  Every call has one of each of the last three.
    [executed] records, for the theorems, which handlers ran for which call. *)
From S2P Require Import Prelude Strconv Effects Labgob Labrpc.

Local Open Scope Z_scope.

(** ** Program counters *)

(** [Call]. *)
Inductive caller_pc := CSend | CWait | CDone (ok : bool).

(** [processReq].  [PTimer] has armed [time.AfterFunc]; [counted] says that its
    function adds to the traffic. *)
Inductive proc_pc :=
  | PIdle
  | PStart
  | PDelay (r : route)
  | PWait (r : route)
  | PCheck (r : route) (reply : option replyMsg)
  | PTimer (counted : bool) (rep : replyMsg)
  | PSend (rep : replyMsg)
  | PExit.

(** A drawn number is below its threshold: a tenth of the requests and of the
    replies are dropped, two thirds of the replies delayed. *)
Definition unlucky (n : Z) : bool := n mod 1000 <? 100.
Definition reordered (n : Z) : bool := n mod 900 <? 600.

Section system.
Context `{UnicodeTable} `{Gob} `{PointerTypes}.
Variable types : gmap rtype (bytes * kind).
Context {World : Type}.

(** The goroutine that calls [server.dispatch(req)] and sends on [ech]. *)
Inductive dispatch_pc :=
  | DIdle
  | DStart (sv : pointer)
  | DCall (svc : Service World) (methodName : bytes)
  | DSend (rep : replyMsg)
  | DDone.

Record call := MkCall {
  req : reqMsg;
  reply_ptr : rtype;   (* the type of the reply argument, a pointer *)
  reply : value;   (* what it points to *)
  caller : caller_pc;
  proc : proc_pc;
  disp : dispatch_pc;
  drain : bool;   (* a goroutine that receives from [ech] and forgets *)
  given_args : value;   (* what [Call] was given, for the theorems *)
  given_reply : value
}.

Record system := MkSystem {
  net : Network;
  heap : gmap pointer (Server World);
  world : World;
  gob : labgob;
  calls : list call;
  executed : list (nat * (value * value));
  crashed : bool
}.

Definition initial_system (w : World) : system :=
  MkSystem MakeNetwork ∅ w initial_labgob [] [] false.

(** ** Updates *)
Definition set_net (n : Network) (s : system) : system :=
  MkSystem n (heap s) (world s) (gob s) (calls s) (executed s) (crashed s).
Definition set_heap (h : gmap pointer (Server World)) (s : system) : system :=
  MkSystem (net s) h (world s) (gob s) (calls s) (executed s) (crashed s).
Definition set_gob (g : labgob) (s : system) : system :=
  MkSystem (net s) (heap s) (world s) g (calls s) (executed s) (crashed s).
Definition set_call (i : nat) (c : call) (s : system) : system :=
  MkSystem (net s) (heap s) (world s) (gob s) (<[i := c]> (calls s)) (executed s) (crashed s).
Definition crash (s : system) : system :=
  MkSystem (net s) (heap s) (world s) (gob s) (calls s) (executed s) true.

Definition set_caller (p : caller_pc) (c : call) : call :=
  MkCall (req c) (reply_ptr c) (reply c) p (proc c) (disp c) (drain c) (given_args c) (given_reply c).
Definition set_proc (p : proc_pc) (c : call) : call :=
  MkCall (req c) (reply_ptr c) (reply c) (caller c) p (disp c) (drain c) (given_args c) (given_reply c).
Definition set_disp (d : dispatch_pc) (c : call) : call :=
  MkCall (req c) (reply_ptr c) (reply c) (caller c) (proc c) d (drain c) (given_args c) (given_reply c).
Definition set_drain (c : call) : call :=
  MkCall (req c) (reply_ptr c) (reply c) (caller c) (proc c) (disp c) true (given_args c) (given_reply c).
Definition set_reply (v : value) (c : call) : call :=
  MkCall (req c) (reply_ptr c) v (caller c) (proc c) (disp c) (drain c) (given_args c) (given_reply c).

(** A computation that may panic, which ends the process. *)
Definition or_crash {A} (m : outcome A) (k : A -> system) (s : system) : option system :=
  match m with Ok a => Some (k a) | Panic => Some (crash s) | Block => None end.

(** ** [ClientEnd.Call] *)

(** Up to the send: encode the arguments. *)
Definition Call_start (e : iface) (sm : bytes) (a : value) (rt : rtype) (r : value) (s : system) : option system :=
  or_crash (Encode types a (gob s))
    (fun '((b, ok), g) =>
       if ok : bool
       then MkSystem (net s) (heap s) (world s) g
              (calls s ++ [MkCall (MkReq e sm (TypeOf a) b) rt r CSend PIdle DIdle false a r])
              (executed s) (crashed s)
       else crash s) s.

(** The send on [e.ch], received by the network's goroutine, which counts the
    request and starts [processReq]. *)
Definition take_request (i : nat) (c : call) (s : system) : system :=
  set_net (add_traffic (net s) 1 (len (args (req c))))
    (set_call i (set_proc PStart (set_caller CWait c)) s).

(** The reply is received: decode it. *)
Definition Call_finish (i : nat) (c : call) (rep : replyMsg) (s : system) : option system :=
  if rep_ok rep
  then or_crash (Decode types (rep_reply rep) (reply_ptr c) (reply c) (gob s))
         (fun '((v, ok), g) =>
            if ok : bool
            then set_gob g (set_call i (set_reply v (set_caller (CDone true) (set_proc PExit c))) s)
            else crash s) s
  else Some (set_call i (set_caller (CDone false) (set_proc PExit c)) s).

(** ** [processReq], from each point where it can be interrupted *)
Definition processReq (n m : Z) (i : nat) (c : call) (s : system) : option system :=
  match proc c with
  | PStart =>
      Some (set_call i (set_proc (match find_route (net s) (endname (req c)) with
                                  | Some r => PDelay r
                                  | None => PTimer false no_reply
                                  end) c) s)
  | PDelay r =>
      Some (set_call i
              (if negb (was_reliable r) && unlucky n then set_proc (PSend no_reply) c
               else set_proc (PWait r) (set_disp (DStart (server r)) c)) s)
  | PCheck r reply =>
      let serverDead := isServerDead (net s) (endname (req c)) r in
      match reply with
      | None => Some (set_call i (set_proc (PSend no_reply) c) s)
      | Some rep =>
          if serverDead then Some (set_call i (set_proc (PSend no_reply) c) s)
          else if negb (was_reliable r) && unlucky n
          then Some (set_call i (set_proc (PSend no_reply) c) s)
          else if longreordering r && reordered m
          then Some (set_call i (set_proc (PTimer true rep) c) s)
          else Some (set_net (add_traffic (net s) 0 (len (rep_reply rep)))
                       (set_call i (set_proc (PSend rep) c) s))
      end
  | PTimer counted rep =>
      let s' := set_call i (set_proc (PSend rep) c) s in
      Some (if counted then set_net (add_traffic (net s) 0 (len (rep_reply rep))) s' else s')
  | PSend rep => match caller c with CWait => Call_finish i c rep s | _ => None end
  | PIdle | PWait _ | PExit => None
  end.

(** The reply arrives on [ech]. *)
Definition receive_reply (i : nat) (c : call) (s : system) : option system :=
  match proc c, disp c with
  | PWait r, DSend rep => Some (set_call i (set_proc (PCheck r (Some rep)) (set_disp DDone c)) s)
  | _, DSend rep => if drain c then Some (set_call i (set_disp DDone c) s) else None
  | _, _ => None
  end.

(** 100 milliseconds pass in the wait. *)
Definition tick (i : nat) (c : call) (s : system) : option system :=
  match proc c with
  | PWait r =>
      Some (if isServerDead (net s) (endname (req c)) r
            then set_call i (set_proc (PCheck r None) (set_drain c)) s
            else s)
  | _ => None
  end.

(** ** [Server.dispatch], in its goroutine *)
Definition dispatch (i : nat) (c : call) (s : system) : option system :=
  match disp c with
  | DStart sv =>
      match heap s !! sv with
      | Some rs =>
          or_crash (Server_dispatch rs (req c))
            (fun '(rs, (service, methodName)) =>
               set_heap (<[sv := rs]> (heap s)) (set_call i (set_disp (DCall service methodName) c) s)) s
      | None => None
      end
  | DCall service methodName =>
      or_crash (Service_dispatch types service methodName (req c) (world s, gob s))
        (fun '((rep, run), (w, g)) =>
           MkSystem (net s) (heap s) w g (<[i := set_disp (DSend rep) c]> (calls s))
             (executed s ++ [(i, run)]) (crashed s)) s
  | _ => None
  end.

(** ** What the user of the package does *)
Inductive admin :=
  | ACleanup
  | AReliable (yes : bool)
  | ALongReordering (yes : bool)
  | ALongDelays (yes : bool)
  | AMakeEnd (name : iface)
  | AMakeServer (sv : pointer)
  | AAddService (sv : pointer) (svc : Service World)
  | AAddServer (sn : iface) (sv : pointer)
  | ADeleteServer (sn : iface)
  | AConnect (name : iface) (sn : option iface)
  | AEnable (name : iface) (yes : bool).

Definition administer (a : admin) (s : system) : option system :=
  match a with
  | ACleanup => or_crash (Cleanup (net s)) (fun n => set_net n s) s
  | AReliable yes => Some (set_net (Reliable (net s) yes) s)
  | ALongReordering yes => Some (set_net (LongReordering (net s) yes) s)
  | ALongDelays yes => Some (set_net (LongDelays (net s) yes) s)
  | AMakeEnd name => or_crash (MakeEnd (net s) name) (fun n => set_net n s) s
  | AMakeServer sv =>
      match heap s !! sv with None => Some (set_heap (<[sv := MakeServer]> (heap s)) s) | Some _ => None end
  | AAddService sv svc =>
      match heap s !! sv with
      | Some rs => Some (set_heap (<[sv := AddService rs svc]> (heap s)) s)
      | None => None
      end
  | AAddServer sn sv =>
      match heap s !! sv with Some _ => Some (set_net (AddServer (net s) sn sv) s) | None => None end
  | ADeleteServer sn => Some (set_net (DeleteServer (net s) sn) s)
  | AConnect name sn => Some (set_net (Connect (net s) name sn) s)
  | AEnable name yes => Some (set_net (Enable (net s) name yes) s)
  end.

(** ** Steps *)
Inductive label :=
  | LAdmin (a : admin)
  | LCall (e : iface) (sm : bytes) (a : value) (rt : rtype) (r : value)
  | LTake (i : nat)
  | LAbort (i : nat)   (* [Call] finds the network destroyed *)
  | LStop   (* the network's goroutine does *)
  | LProcess (i : nat) (n m : Z)
  | LReceive (i : nat)
  | LTick (i : nat)
  | LDispatch (i : nat).

Definition on_call (i : nat) (f : call -> option system) (s : system) : option system :=
  match calls s !! i with Some c => f c | None => None end.

Definition exec (l : label) (s : system) : option system :=
  if crashed s then None else
  match l with
  | LAdmin a => administer a s
  | LCall e sm a rt r => if decide (e ∈ ends (net s)) then Call_start e sm a rt r s else None
  | LTake i =>
      on_call i (fun c => match caller c with
                          | CSend => if running (net s) then Some (take_request i c s) else None
                          | _ => None
                          end) s
  | LAbort i =>
      on_call i (fun c => match caller c with
                          | CSend => if closed (net s) then Some (set_call i (set_caller (CDone false) c) s) else None
                          | _ => None
                          end) s
  | LStop => if closed (net s) then Some (set_net (stop_running (net s)) s) else None
  | LProcess i n m => on_call i (fun c => processReq n m i c s) s
  | LReceive i => on_call i (fun c => receive_reply i c s) s
  | LTick i => on_call i (fun c => tick i c s) s
  | LDispatch i => on_call i (fun c => dispatch i c s) s
  end.

Fixpoint run (ls : list label) (s : system) : option system :=
  match ls with [] => Some s | l :: ls => exec l s ≫= run ls end.

Definition labrpc (w : World) : lts system :=
  Lts (fun s => s = initial_system w) (fun s s' => exists l, exec l s = Some s').

Lemma run_reachable w ls s : run ls (initial_system w) = Some s -> reachable (labrpc w) s.
Proof.
  intros E. cut (forall s0, reachable (labrpc w) s0 -> run ls s0 = Some s -> reachable (labrpc w) s).
  { intros Hr. apply (Hr (initial_system w)); [by apply reachable_init | exact E]. }
  clear E. induction ls as [| l ls IH]; intros s0 Hr E; simpl in E; [congruence |].
  apply bind_Some in E as (s1 & E1 & E). apply (IH s1); [| exact E].
  eapply reachable_step; [exact Hr | by exists l].
Qed.
End system.
Arguments call : clear implicits.
Arguments system : clear implicits.
Arguments admin : clear implicits.
Arguments label : clear implicits.
Arguments dispatch_pc : clear implicits.
