(* ===== verification/LabrpcSpec.v ===== *)
(** * What a call through the simulated network means

    The promise [labrpc] makes to Raft, for every execution: a call runs the
    handler at most once; it returns true only if the handler ran, with the
    arguments sent, and the reply is the handler's; every call returns if its
    handler does; and a server that has been deleted answers no call. *)
From S2P Require Import Prelude Strconv Effects Labgob LabgobSpec Labrpc LabrpcSystem.

Local Open Scope Z_scope.

Section spec.
Context `{UnicodeTable} `{Gob} `{PointerTypes}.
Variable types : gmap rtype (bytes * kind).
Context {World : Type}.
Implicit Types (s : system World) (c : call World).

(** The handlers run for call [i]: their arguments, and what they left in the
    reply. *)
Definition runs (i : nat) s : list (value * value) := (filter (fun r => r.1 = i) (executed s)).*2.

Definition sent_argument c : value := (gobDecode (args (req c)) (Zero types (argsType (req c)))).1.

(** The handler ran once, with the argument sent, and [rep] holds its reply. *)
Definition answered (ex : list (value * value)) c (rep : replyMsg) : Prop :=
  exists v rt, ex = [(sent_argument c, v)] /\ rep = MkReply true (gobEncode (VPtr rt (Some v))).1.

(** What has happened to a call, by where its goroutines are. *)
Definition disp_ok (ex : list (value * value)) c : Prop :=
  match disp c with
  | DIdle | DStart _ | DCall _ _ => ex = []
  | DSend rep => answered ex c rep
  | DDone => exists rep, answered ex c rep
  end.

Definition dispatching c : Prop :=
  match disp c with DStart _ | DCall _ _ | DSend _ => True | DIdle | DDone => False end.

Definition proc_ok (ex : list (value * value)) c : Prop :=
  match proc c with
  | PIdle => disp c = DIdle /\ (caller c = CSend \/ caller c = CDone false)
  | PStart | PDelay _ => disp c = DIdle /\ caller c = CWait
  | PWait _ => dispatching c /\ caller c = CWait
  | PCheck _ None => caller c = CWait
  | PCheck _ (Some rep) => answered ex c rep /\ caller c = CWait
  | PTimer _ rep | PSend rep => (rep_ok rep = true -> answered ex c rep) /\ caller c = CWait
  | PExit => exists ok, caller c = CDone ok
  end.

Definition reply_ok (ex : list (value * value)) c : Prop :=
  match caller c with
  | CDone true => exists rep, answered ex c rep /\ reply c = (gobDecode (rep_reply rep) (given_reply c)).1
  | _ => reply c = given_reply c
  end.

Record call_ok (ex : list (value * value)) c : Prop := CallOk {
  ok_disp : disp_ok ex c;
  ok_proc : proc_ok ex c;
  ok_reply : reply_ok ex c;
  ok_args : args (req c) = (gobEncode (given_args c)).1 /\ argsType (req c) = TypeOf (given_args c)
}.

Record system_ok s : Prop := SystemOk {
  ok_calls : forall i c, calls s !! i = Some c -> call_ok (runs i s) c;
  ok_fresh : forall i, (length (calls s) <= i)%nat -> runs i s = []
}.

(** A step that only replaces call [i]. *)
Lemma set_call_ok s s' i c c' :
  system_ok s -> calls s !! i = Some c -> calls s' = <[i := c']> (calls s) -> executed s' = executed s ->
  call_ok (runs i s) c' -> system_ok s'.
Proof.
  intros [Hc Hf] Hi Ec Ee Hok. assert (Hr : forall j, runs j s' = runs j s) by (intros j; unfold runs; by rewrite Ee).
  split; intros j; rewrite Hr, Ec.
  - intros c1. destruct (decide (i = j)) as [<- | Hj].
    + rewrite list_lookup_insert_eq by (by eapply lookup_lt_Some). by intros [= <-].
    + rewrite list_lookup_insert_ne by done. apply Hc.
  - rewrite length_insert. apply Hf.
Qed.

(** A step that leaves the calls alone. *)
Lemma same_calls_ok s s' : system_ok s -> calls s' = calls s -> executed s' = executed s -> system_ok s'.
Proof.
  intros [Hc Hf] Ec Ee. assert (Hr : forall j, runs j s' = runs j s) by (intros j; unfold runs; by rewrite Ee).
  split; intros j; rewrite Hr, Ec; [apply Hc | apply Hf].
Qed.

Lemma or_crash_inv {A} (m : outcome A) k s s' :
  or_crash m k s = Some s' -> (exists a, m = Ok a /\ s' = k a) \/ (m = Panic /\ s' = crash s).
Proof. unfold or_crash. destruct m as [a | |]; intros [=]; subst; eauto. Qed.

Lemma crash_ok s : system_ok s -> system_ok (crash s).
Proof. intros Hs. by apply (same_calls_ok s). Qed.

(** The value decoded does not depend on the checks of [labgob]. *)
Lemma Decode_inv b pt old g v ok g' : Decode types b pt old g = Ok ((v, ok), g') -> gobDecode b old = (v, ok).
Proof. unfold Decode. destruct (checkValue _ _ _); intros [=]; congruence. Qed.

Lemma Encode_inv a g b ok g' : Encode types a g = Ok ((b, ok), g') -> gobEncode a = (b, ok).
Proof. unfold Encode. destruct (checkValue _ _ _); intros [=]; congruence. Qed.

(** ** The steps *)
Lemma Call_start_ok e sm a rt r s s' : system_ok s -> Call_start types e sm a rt r s = Some s' -> system_ok s'.
Proof.
  intros Hs [([[b ok] g] & E & ->) | (_ & ->)]%or_crash_inv; [| by apply crash_ok].
  destruct ok; [| by apply crash_ok]. apply Encode_inv in E. destruct Hs as [Hc Hf]. split; intros i; unfold runs; simpl.
  - intros c [Hi | [Hl Hi]]%lookup_app_Some; [by apply Hc |].
    apply list_lookup_singleton_Some in Hi as [Hi <-].
    assert (Er : runs i s = []) by (apply Hf; lia). unfold runs in Er. rewrite Er.
    split; [done | by split; [| left] | done |]. simpl. by rewrite E.
  - rewrite length_app. intros Hi. apply Hf. lia.
Qed.

Lemma take_request_ok i c s : system_ok s -> calls s !! i = Some c -> caller c = CSend -> system_ok (take_request i c s).
Proof.
  intros Hs Hi Hc. eapply set_call_ok; [exact Hs | exact Hi | reflexivity | done |].
  destruct (ok_calls _ Hs _ _ Hi) as [D P R A]. unfold proc_ok, reply_ok in *. rewrite Hc in *.
  destruct (proc c) as [| | r | r | r [rep |] | counted rep | rep |] eqn:Ep; try naive_solver.
  split; [exact D | | exact R | exact A]. unfold proc_ok. simpl. naive_solver.
Qed.

Lemma Call_finish_ok i c rep s s' :
  system_ok s -> calls s !! i = Some c -> caller c = CWait -> proc c = PSend rep ->
  Call_finish types i c rep s = Some s' -> system_ok s'.
Proof.
  intros Hs Hi Hc Hp. destruct (ok_calls _ Hs _ _ Hi) as [D P R A]. unfold proc_ok, reply_ok in P, R.
  rewrite Hp in P. rewrite Hc in R. unfold Call_finish. destruct (rep_ok rep) eqn:Er.
  - intros [([[v ok] g] & E & ->) | (_ & ->)]%or_crash_inv; [| by apply crash_ok].
    destruct ok; [| by apply crash_ok]. apply Decode_inv in E.
    eapply set_call_ok; [exact Hs | exact Hi | reflexivity | done |].
    split; [exact D | by exists true | | exact A]. unfold reply_ok. simpl. exists rep. split; [by apply P |].
    by rewrite <- R, E.
  - intros [= <-]. eapply set_call_ok; [exact Hs | exact Hi | reflexivity | done |].
    split; [exact D | by exists false | exact R | exact A].
Qed.

(** A step of [processReq] that only moves it to [p]. *)
Lemma set_proc_ok i c p s s' :
  system_ok s -> calls s !! i = Some c -> calls s' = <[i := set_proc p c]> (calls s) -> executed s' = executed s ->
  caller c = CWait -> proc_ok (runs i s) (set_proc p c) -> system_ok s'.
Proof.
  intros Hs Hi Ec Ee Hc Hp. eapply set_call_ok; [done | done | exact Ec | exact Ee |].
  destruct (ok_calls _ Hs _ _ Hi) as [D P R A]. split; [exact D | exact Hp | exact R | exact A].
Qed.

Lemma processReq_ok n m i c s s' :
  system_ok s -> calls s !! i = Some c -> processReq types n m i c s = Some s' -> system_ok s'.
Proof.
  intros Hs Hi E. pose proof (ok_calls _ Hs _ _ Hi) as [D P R A]. unfold processReq in E. unfold proc_ok in P.
  destruct (proc c) as [| | r | r | r [rep |] | counted rep | rep |] eqn:Ep; try discriminate.
  - injection E as <-. destruct P as [Pd Pc]. destruct (find_route _ _);
      (eapply set_proc_ok; [exact Hs | exact Hi | reflexivity | done | done |]); unfold proc_ok; simpl; naive_solver.
  - injection E as <-. destruct P as [Pd Pc]. destruct (negb (was_reliable r) && unlucky n).
    + eapply set_proc_ok; [exact Hs | exact Hi | reflexivity | done | done |]. unfold proc_ok. simpl. naive_solver.
    + eapply set_call_ok; [exact Hs | exact Hi | reflexivity | done |].
      split; [| | exact R | exact A]; unfold disp_ok, proc_ok, dispatching in *; simpl; rewrite Pd in *; naive_solver.
  - destruct P as [Pa Pc].
    assert (Hno : system_ok (set_call i (set_proc (PSend no_reply) c) s)).
    { eapply set_proc_ok; [exact Hs | exact Hi | reflexivity | done | done |]. unfold proc_ok. simpl. naive_solver. }
    repeat branch; injection E as <-; try exact Hno;
      (eapply set_proc_ok; [exact Hs | exact Hi | reflexivity | done | done |]); unfold proc_ok; simpl; naive_solver.
  - injection E as <-. eapply set_proc_ok; [exact Hs | exact Hi | reflexivity | done | done |]. unfold proc_ok. simpl. naive_solver.
  - destruct P as [Pa Pc]. injection E as <-. destruct counted;
      (eapply set_proc_ok; [exact Hs | exact Hi | reflexivity | done | done |]); unfold proc_ok; simpl; naive_solver.
  - destruct (caller c) eqn:Ec; try discriminate. by eapply Call_finish_ok.
Qed.

Lemma receive_reply_ok i c s s' :
  system_ok s -> calls s !! i = Some c -> receive_reply i c s = Some s' -> system_ok s'.
Proof.
  intros Hs Hi E. pose proof (ok_calls _ Hs _ _ Hi) as [D P R A]. unfold receive_reply in E. unfold disp_ok in D.
  destruct (disp c) as [| | | rep |] eqn:Ed; try by destruct (proc c).
  assert (Hdone : proc_ok (runs i s) (set_disp DDone c) -> system_ok (set_call i (set_disp DDone c) s)).
  { intros Hp. eapply set_call_ok; [exact Hs | exact Hi | reflexivity | done |].
    split; [by exists rep | exact Hp | exact R | exact A]. }
  unfold proc_ok, dispatching in *. simpl in *. rewrite Ed in P.
  destruct (proc c) as [| | r | r | r [rep' |] | counted rep' | rep' |] eqn:Ep;
    try (destruct (drain c); [injection E as <-; apply Hdone; naive_solver | discriminate]).
  injection E as <-. eapply set_call_ok; [exact Hs | exact Hi | reflexivity | done |].
  split; [by exists rep | | exact R | exact A]. unfold proc_ok. simpl. naive_solver.
Qed.

Lemma tick_ok i c s s' : system_ok s -> calls s !! i = Some c -> tick i c s = Some s' -> system_ok s'.
Proof.
  intros Hs Hi E. pose proof (ok_calls _ Hs _ _ Hi) as [D P R A]. unfold tick in E. unfold proc_ok in P.
  destruct (proc c) eqn:Ep; try discriminate. injection E as <-. branch; [| done].
  eapply set_call_ok; [exact Hs | exact Hi | reflexivity | done |].
  split; [exact D | | exact R | exact A]. unfold proc_ok. simpl. naive_solver.
Qed.
Lemma runs_app j s i r : (filter (fun x : nat * (value * value) => x.1 = j) (executed s ++ [(i, r)])).*2 =
  runs j s ++ (if decide (i = j) then [r] else []).
Proof.
  unfold runs. rewrite filter_app, fmap_app, filter_cons, filter_nil. simpl. by case_decide.
Qed.

(** What a service's dispatch runs and answers. *)
Lemma Service_dispatch_inv svc m rq ws rep run ws' :
  Service_dispatch (World := World) types svc m rq ws = Ok ((rep, run), ws') ->
  exists v rt, run = ((gobDecode (args rq) (Zero types (argsType rq))).1, v) /\
    rep = MkReply true (gobEncode (VPtr rt (Some v))).1.
Proof.
  unfold Service_dispatch. destruct (methods svc !! m) as [method |]; [| done].
  intros ([a ok] & ws1 & E1 & E)%st_bind_inv. apply st_bind_inv in E as (u & ws2 & E2 & E).
  apply st_bind_inv in E as (v & ws3 & E3 & E). apply st_bind_inv in E as ([rb ok'] & ws4 & E4 & E).
  injection E as <- <- <-. unfold on_gob, zoom in E1, E4.
  destruct (Decode _ _ _ _ _) as [[[a1 ok1] g1] | |] eqn:ED in E1; try discriminate. injection E1 as -> -> <-.
  destruct (Encode _ _ _) as [[[rb1 ok2] g2] | |] eqn:EE in E4; try discriminate. injection E4 as -> -> <-.
  apply Decode_inv in ED. apply Encode_inv in EE. rewrite ED. exists v. eexists. split; [done |]. by rewrite EE.
Qed.

(** While the handler has not run, a call can only fail: what is known of its
    other goroutines stays true when the dispatching one moves on. *)
Lemma no_answer c rep : answered [] c rep -> False.
Proof. by intros (v & rt & E & _). Qed.

Lemma proc_ok_dispatch ex d c :
  proc_ok [] c -> dispatching c -> dispatching (set_disp d c) -> proc_ok ex (set_disp d c).
Proof.
  unfold proc_ok, dispatching. simpl. intros P Hc Hd.
  assert (HD : disp c <> DIdle) by (intros E; by rewrite E in Hc).
  destruct (proc c) as [| | r | r | r [rep |] | counted rep | rep |]; try tauto.
  - by destruct P as [P%no_answer _].
  - destruct P as [Pr Pc]. split; [| done]. intros E. by apply Pr, no_answer in E.
  - destruct P as [Pr Pc]. split; [| done]. intros E. by apply Pr, no_answer in E.
Qed.

Lemma reply_ok_dispatch ex d c : reply_ok [] c -> reply_ok ex (set_disp d c).
Proof.
  unfold reply_ok. simpl. destruct (caller c) as [| | []]; try done. by intros (rep & E%no_answer & _).
Qed.

Lemma dispatch_ok i c s s' :
  system_ok s -> calls s !! i = Some c -> dispatch types i c s = Some s' -> system_ok s'.
Proof.
  intros Hs Hi E. pose proof (ok_calls _ Hs _ _ Hi) as [D P R A]. unfold dispatch in E. unfold disp_ok in D.
  destruct (disp c) as [| sv | svc m | rep |] eqn:Ed; try discriminate; rewrite D in P, R;
    assert (Hc : dispatching c) by (unfold dispatching; by rewrite Ed).
  - destruct (heap s !! sv) as [rs |] eqn:Eh; [| done].
    apply or_crash_inv in E as [([rs' [svc m]] & E & ->) | (_ & ->)]; [| by apply crash_ok].
    eapply set_call_ok; [exact Hs | exact Hi | reflexivity | done |]. rewrite D.
    split; [done | by apply proc_ok_dispatch | exact R | exact A].
  - apply or_crash_inv in E as [([[rep run] [w g]] & E & ->) | (_ & ->)]; [| by apply crash_ok].
    apply Service_dispatch_inv in E as (v & rt & -> & ->). destruct Hs as [Hcalls Hfresh].
    split; intros j; unfold runs; cbn [calls executed]; rewrite runs_app; [intros c1 |].
    + case_decide as Hj; [subst j |].
      * rewrite list_lookup_insert_eq by (by eapply lookup_lt_Some). intros [= <-]. rewrite D.
        split; [by exists v, rt | by apply proc_ok_dispatch | by apply reply_ok_dispatch | exact A].
      * rewrite list_lookup_insert_ne by done. rewrite app_nil_r. apply Hcalls.
    + rewrite length_insert. intros Hj. pose proof (lookup_lt_Some _ _ _ Hi).
      rewrite decide_False, app_nil_r by lia. by apply Hfresh.
Qed.

Lemma administer_ok a s s' : system_ok s -> administer a s = Some s' -> system_ok s'.
Proof.
  intros Hs E. destruct a; simpl in E;
    try (injection E as <-; by apply (same_calls_ok s));
    try (destruct (heap s !! _); [| done || (injection E as <-; by apply (same_calls_ok s))];
         (done || (injection E as <-; by apply (same_calls_ok s))));
    (apply or_crash_inv in E as [(n & _ & ->) | (_ & ->)]; by apply (same_calls_ok s)).
Qed.

Lemma exec_ok l s s' : system_ok s -> exec types l s = Some s' -> system_ok s'.
Proof.
  intros Hs E. unfold exec, on_call in E. destruct (crashed s); [done |].
  destruct l as [a | e sm a rt r | i | i | | i n m | i | i | i]; simpl in E;
    try (destruct (calls s !! i) as [c |] eqn:Ei; [| done]).
  - by eapply administer_ok.
  - case_decide; [| done]. by eapply Call_start_ok.
  - destruct (caller c) eqn:Ec; try done. branch; [| done]. injection E as <-. by apply take_request_ok.
  - destruct (caller c) eqn:Ec; try done. branch; [| done]. injection E as <-.
    pose proof (ok_calls _ Hs _ _ Ei) as [D P R A]. unfold proc_ok, reply_ok in P, R. rewrite Ec in P, R.
    eapply set_call_ok; [exact Hs | exact Ei | reflexivity | done |].
    split; [exact D | | exact R | exact A]. unfold proc_ok. simpl.
    destruct (proc c) as [| | r | r | r [rep |] | counted rep | rep |]; naive_solver.
  - branch; [| done]. injection E as <-. by apply (same_calls_ok s).
  - by eapply processReq_ok.
  - by eapply receive_reply_ok.
  - by eapply tick_ok.
  - by eapply dispatch_ok.
Qed.

Lemma reachable_ok w s : reachable (labrpc types w) s -> system_ok s.
Proof.
  apply (invariant_ind (labrpc types w)).
  - intros s0 ->. split; [done |]. done.
  - intros s1 s2 Hs [l E]. by eapply exec_ok.
Qed.
(** ** A call returns what its handler answered *)

(** Sending [v] to a new variable of its type gives [v]: what gob promises for
    values all of whose fields are exported. *)
Definition travels (v : value) : Prop := gobDecode (gobEncode v).1 (Zero types (TypeOf v)) = (v, true).

(** C22: in every execution a call runs the handler at most once.  If [Call]
    returns false, the reply argument is untouched.  If it returns true, the
    handler ran once, on the argument given, and the reply argument holds what
    the handler left in its own, provided that gob carries the two values
    faithfully and that the reply argument was zero. *)
Theorem Call_faithful w s i c :
  reachable (labrpc types w) s -> calls s !! i = Some c ->
  (length (runs i s) <= 1)%nat /\
  (caller c = CDone false -> reply c = given_reply c) /\
  (caller c = CDone true -> exists a v rt, runs i s = [(a, v)] /\
     reply c = (gobDecode (gobEncode (VPtr rt (Some v))).1 (given_reply c)).1 /\
     (travels (given_args c) -> a = given_args c) /\
     (travels v -> gobEncode (VPtr rt (Some v)) = gobEncode v -> given_reply c = Zero types (TypeOf v) ->
      reply c = v)).
Proof.
  intros Hs%reachable_ok Hi. destruct (ok_calls _ Hs _ _ Hi) as [D P R [A T]]. split; [| split].
  - unfold disp_ok in D. destruct (disp c); try (rewrite D; simpl; lia).
    + destruct D as (v & rt & -> & _). simpl. lia.
    + destruct D as (? & v & rt & -> & _). simpl. lia.
  - intros E. unfold reply_ok in R. by rewrite E in R.
  - intros E. unfold reply_ok in R. rewrite E in R. destruct R as (rep & (v & rt & Er & ->) & Ereply).
    exists (sent_argument c), v, rt. split; [done |]. split; [exact Ereply |]. split.
    + unfold travels, sent_argument. rewrite A, T. by intros ->.
    + simpl in Ereply. unfold travels. intros Hv Hflat Hz. by rewrite Ereply, Hz, Hflat, Hv.
Qed.
End spec.
