(* ===== verification/LabrpcRefine.v ===== *)
(** * The simulated network implements atomic calls that run at most once

    An abstract specification of [lab3/labrpc/labrpc.go] for its clients: a call
    is made; its handler runs once, in one step, or not at all; the call returns
    the handler's answer, or fails at any time.  The abstraction function [abs]
    maps every state of the network's goroutines to a state of the specification,
    and every step to a step of it or to none. *)
From S2P Require Import Prelude Strconv Effects Labgob LabgobSpec Labrpc LabrpcSystem LabrpcSpec.

Local Open Scope Z_scope.

Section refine.
Context `{UnicodeTable} `{Gob} `{PointerTypes}.
Variable types : gmap rtype (bytes * kind).
Context {World : Type}.
Implicit Types (s : system World) (c : call World).

(** ** The specification *)
Record rpc := MkRpc {
  rpc_method : bytes;
  rpc_args : value;
  rpc_reply : value;   (* what the reply argument held *)
  ran : option (value * value);   (* the handler's argument, and its reply *)
  returned : option (bool * value)   (* the result, and what the reply argument holds *)
}.

Record spec := MkSpec {
  spec_world : World;
  provided : list (Service World);
  rpcs : list rpc
}.

(** What arrives of an argument that is sent, and what a reply argument holds
    when the reply [v] has been decoded into it. *)
Definition arrives (a : value) : value := (gobDecode (gobEncode a).1 (Zero types (TypeOf a))).1.
Definition replied (rt : rtype) (v r : value) : value := (gobDecode (gobEncode (VPtr rt (Some v))).1 r).1.

Inductive spec_step (t : spec) : spec -> Prop :=
  | spec_provide svc : spec_step t (MkSpec (spec_world t) (svc :: provided t) (rpcs t))
  | spec_call sm a r : spec_step t (MkSpec (spec_world t) (provided t) (rpcs t ++ [MkRpc sm a r None None]))
  | spec_run i sm a r ret svc m method v w :
      rpcs t !! i = Some (MkRpc sm a r None ret) ->
      svc ∈ provided t -> split_method sm = Ok (svc_name svc, m) -> methods svc !! m = Some method ->
      Func method (arrives a)
        (Zero types (elem_type types (match In method !! 2%nat with Some rt => rt | None => 1%positive end))) (spec_world t) = Ok (v, w) ->
      spec_step t (MkSpec w (provided t) (<[i := MkRpc sm a r (Some (arrives a, v)) ret]> (rpcs t)))
  | spec_return i sm a r a' v rt :
      rpcs t !! i = Some (MkRpc sm a r (Some (a', v)) None) ->
      spec_step t (MkSpec (spec_world t) (provided t)
                     (<[i := MkRpc sm a r (Some (a', v)) (Some (true, replied rt v r))]> (rpcs t)))
  | spec_fail i sm a r x :
      rpcs t !! i = Some (MkRpc sm a r x None) ->
      spec_step t (MkSpec (spec_world t) (provided t) (<[i := MkRpc sm a r x (Some (false, r))]> (rpcs t))).

Definition rpc_spec (w : World) : lts spec := Lts (fun t => t = MkSpec w [] []) spec_step.

(** ** Abstraction *)
Definition abs_call s (i : nat) c : rpc :=
  MkRpc (svcMeth (req c)) (given_args c) (given_reply c) (head (runs i s))
    (match caller c with CDone ok => Some (ok, reply c) | _ => None end).

Definition abs (svcs : list (Service World)) s : spec := MkSpec (world s) svcs (imap (abs_call s) (calls s)).

(** The services on the servers, and those being called, have been provided. *)
Record known (svcs : list (Service World)) s : Prop := {
  known_heap : forall sv rs name svc, heap s !! sv = Some rs -> services rs !! name = Some svc -> svc ∈ svcs /\ svc_name svc = name;
  known_call : forall i c svc m, calls s !! i = Some c -> disp c = DCall svc m ->
    svc ∈ svcs /\ split_method (svcMeth (req c)) = Ok (svc_name svc, m)
}.

Lemma abs_lookup svcs s i : rpcs (abs svcs s) !! i = abs_call s i <$> calls s !! i.
Proof. apply list_lookup_imap. Qed.

(** A step that replaces call [i] replaces its abstraction. *)
Lemma abs_insert svcs s s' i c' :
  world s' = world s -> calls s' = <[i := c']> (calls s) -> executed s' = executed s ->
  abs svcs s' = MkSpec (world s) svcs (<[i := abs_call s i c']> (rpcs (abs svcs s))).
Proof.
  intros Ew Ec Ee. unfold abs. rewrite Ew, Ec. f_equal. simpl. apply list_eq. intros j.
  assert (Ea : forall j c, abs_call s' j c = abs_call s j c) by (intros; unfold abs_call, runs; by rewrite Ee).
  destruct (decide (i = j)) as [<- | Hj].
  - destruct (decide (i < length (calls s))%nat) as [Hi | Hi].
    + rewrite list_lookup_imap, !list_lookup_insert_eq; [by simpl; rewrite Ea | by rewrite length_imap | done].
    + rewrite !list_insert_ge by (rewrite ?length_imap; lia). rewrite !list_lookup_imap. by destruct (calls s !! i); simpl; rewrite ?Ea.
  - rewrite list_lookup_imap, !list_lookup_insert_ne, list_lookup_imap by done. by destruct (calls s !! j); simpl; rewrite ?Ea.
Qed.

(** A step that only moves the goroutines of call [i]. *)
Definition same_rpc c c' : Prop :=
  req c' = req c /\ given_args c' = given_args c /\ given_reply c' = given_reply c /\ reply c' = reply c /\
  (match caller c' with CDone ok => Some ok | _ => None end = match caller c with CDone ok => Some ok | _ => None end).

Lemma abs_same_rpc s i c c' : same_rpc c c' -> abs_call s i c' = abs_call s i c.
Proof. intros (E1 & E2 & E3 & E4 & E5). unfold abs_call. rewrite E1, E2, E3, E4. destruct (caller c), (caller c'); simplify_eq; done. Qed.

Lemma abs_silent svcs s s' i c c' :
  calls s !! i = Some c -> same_rpc c c' ->
  world s' = world s -> calls s' = <[i := c']> (calls s) -> executed s' = executed s -> abs svcs s' = abs svcs s.
Proof.
  intros Hi Hc Ew Ec Ee. rewrite (abs_insert svcs s s' i c') by done. rewrite (abs_same_rpc s i c c' Hc).
  rewrite list_insert_id; [done |]. by rewrite abs_lookup, Hi.
Qed.

Lemma abs_unmoved svcs s s' : world s' = world s -> calls s' = calls s -> executed s' = executed s -> abs svcs s' = abs svcs s.
Proof. intros Ew Ec Ee. unfold abs, abs_call, runs. by rewrite Ew, Ec, Ee. Qed.

(** What a step of the network is to the specification. *)
Definition simulated svcs svcs' s s' : Prop :=
  known svcs' s' /\ (abs svcs' s' = abs svcs s \/ spec_step (abs svcs s) (abs svcs' s')).

(** The services provided after a step. *)
Definition served (svcs : list (Service World)) (l : label World) : list (Service World) :=
  match l with LAdmin (AAddService _ svc) => svc :: svcs | _ => svcs end.

Lemma known_same svcs s s' : known svcs s -> heap s' = heap s -> calls s' = calls s -> known svcs s'.
Proof. intros [Kh Kc] Eh Ec. split; rewrite ?Eh, ?Ec; done. Qed.

Lemma known_insert svcs s s' i c' :
  known svcs s -> heap s' = heap s -> calls s' = <[i := c']> (calls s) ->
  (forall svc m, disp c' = DCall svc m -> svc ∈ svcs /\ split_method (svcMeth (req c')) = Ok (svc_name svc, m)) -> known svcs s'.
Proof.
  intros [Kh Kc] Eh Ec Hc'. split; rewrite ?Eh, ?Ec; [done |]. intros j c svc m Hj Hd.
  apply list_lookup_insert_Some in Hj as [(-> & -> & _) | (_ & Hj)]; [by apply Hc' | by eapply Kc].
Qed.

Lemma sim_unmoved svcs s s' :
  known svcs s -> heap s' = heap s -> world s' = world s -> calls s' = calls s -> executed s' = executed s -> simulated svcs svcs s s'.
Proof. intros K Eh Ew Ec Ee. split; [by eapply known_same | left; by apply abs_unmoved]. Qed.

Lemma sim_crash svcs s : known svcs s -> simulated svcs svcs s (crash s).
Proof. intros K. by apply sim_unmoved. Qed.

(** A call of the network's goroutines moves, and its handler does not start. *)
Definition quiet_disp c c' : Prop := disp c' = disp c \/ forall svc m, disp c' <> DCall svc m.

Lemma sim_silent svcs s s' i c c' :
  known svcs s -> calls s !! i = Some c -> same_rpc c c' -> quiet_disp c c' ->
  heap s' = heap s -> world s' = world s -> calls s' = <[i := c']> (calls s) -> executed s' = executed s -> simulated svcs svcs s s'.
Proof.
  intros K Hi Hc Hq Eh Ew Ec Ee. split; [| left; by eapply abs_silent].
  eapply known_insert; [done..|]. intros svc m Hd. destruct Hq as [Hq | Hq]; [| by destruct (Hq svc m)].
  rewrite (proj1 Hc). eapply known_call; [done.. |]. by rewrite <- Hq.
Qed.

(** A call returns. *)
Lemma sim_return svcs s s' i c c' ok :
  known svcs s -> calls s !! i = Some c ->
  (forall ok', caller c <> CDone ok') -> caller c' = CDone ok -> req c' = req c -> given_args c' = given_args c ->
  given_reply c' = given_reply c -> disp c' = disp c ->
  (if ok then exists a v rt, runs i s = [(a, v)] /\ reply c' = replied rt v (given_reply c) else reply c' = given_reply c) ->
  heap s' = heap s -> world s' = world s -> calls s' = <[i := c']> (calls s) -> executed s' = executed s -> simulated svcs svcs s s'.
Proof.
  intros K Hi Hnot Hc' E1 E2 E3 Ed Hr Eh Ew Ec Ee. split.
  { eapply known_insert; [done..|]. intros svc m Hd. rewrite E1. eapply known_call; [done.. |]. by rewrite <- Ed. }
  right. rewrite (abs_insert svcs s s' i c') by done. unfold abs_call at 1. rewrite Hc', E1, E2, E3.
  assert (Hl : rpcs (abs svcs s) !! i = Some (MkRpc (svcMeth (req c)) (given_args c) (given_reply c) (head (runs i s)) None)).
  { rewrite abs_lookup, Hi. simpl. unfold abs_call. destruct (caller c); [done.. |]. by destruct (Hnot ok0). }
  destruct ok.
  - destruct Hr as (a & v & rt & Er & ->). rewrite Er in *. simpl. by apply (spec_return (abs svcs s) i _ _ _ a v rt).
  - rewrite Hr. by apply (spec_fail (abs svcs s) i).
Qed.

(** ** The steps *)
Lemma sim_administer svcs a s s' : known svcs s -> administer a s = Some s' -> simulated svcs (served svcs (LAdmin a)) s s'.
Proof.
  intros K E. destruct a as [| | | | name | sv | sv svc | sn sv | sn | name sn | name yes]; simpl in E;
    try (injection E as <-; by apply sim_unmoved);
    try (apply or_crash_inv in E as [(n & _ & ->) | (_ & ->)]; [by apply sim_unmoved | by apply sim_crash]).
  - destruct (heap s !! sv); [done |]. injection E as <-. split; [| by left].
    destruct K as [Kh Kc]. split; [| done]. intros sv' rs name svc Hsv. simpl in Hsv.
    apply lookup_insert_Some in Hsv as [[<- <-] | [_ Hsv]]; [done | by eapply Kh].
  - destruct (heap s !! sv) as [rs |] eqn:Esv; [| done]. injection E as <-. split.
    + destruct K as [Kh Kc]. split.
      * intros sv' rs' name svc' Hsv Hsvc. simpl in Hsv. apply lookup_insert_Some in Hsv as [[<- <-] | [_ Hsv]].
        -- simpl in Hsvc. apply lookup_insert_Some in Hsvc as [[<- <-] | [_ Hsvc]]; [split; [apply elem_of_cons; by left | done] |].
           destruct (Kh _ _ _ _ Esv Hsvc). split; [apply elem_of_cons; by right | done].
        -- destruct (Kh _ _ _ _ Hsv Hsvc). split; [apply elem_of_cons; by right | done].
      * intros i c svc' m Hi Hd. destruct (Kc i c svc' m Hi Hd). split; [apply elem_of_cons; by right | done].
    + right. apply (spec_provide (abs svcs s) svc).
  - destruct (heap s !! sv); [| done]. injection E as <-. by apply sim_unmoved.
Qed.

Lemma sim_call svcs e sm a rt r s s' :
  known svcs s -> system_ok types s -> Call_start types e sm a rt r s = Some s' -> simulated svcs svcs s s'.
Proof.
  intros K Hs [([[b ok] g] & E & ->) | (_ & ->)]%or_crash_inv; [| by apply sim_crash].
  destruct ok; [| by apply sim_crash]. split.
  - destruct K as [Kh Kc]. split; [done |]. intros i c svc m Hi Hd. simpl in Hi.
    apply lookup_app_Some in Hi as [Hi | [_ Hi]]; [by eapply Kc |].
    apply list_lookup_singleton_Some in Hi as [_ <-]. by simpl in Hd.
  - right. unfold abs at 2. simpl. rewrite imap_app. simpl. unfold abs_call at 2. simpl.
    assert (Hfresh : runs (length (calls s) + 0) s = []) by (apply (ok_fresh _ _ Hs); lia).
    unfold runs in Hfresh |- *. simpl. rewrite Hfresh. apply (spec_call (abs svcs s) sm a r).
Qed.

Lemma sim_finish svcs i c rep s s' :
  known svcs s -> system_ok types s -> calls s !! i = Some c -> proc c = PSend rep -> caller c = CWait ->
  Call_finish types i c rep s = Some s' -> simulated svcs svcs s s'.
Proof.
  intros K Hs Hi Hp Hw. destruct (ok_calls _ _ Hs _ _ Hi) as [D P R A]. unfold proc_ok, reply_ok in P, R.
  rewrite Hp in P. rewrite Hw in R. unfold Call_finish. destruct (rep_ok rep) eqn:Er.
  - intros [([[v ok] g] & E & ->) | (_ & ->)]%or_crash_inv; [| by apply sim_crash].
    destruct ok; [| by apply sim_crash]. apply Decode_inv in E. destruct P as [P _].
    destruct (P eq_refl) as (v0 & rt & Eruns & ->). apply (sim_return svcs s _ i c (set_reply v (set_caller (CDone true) (set_proc PExit c))) true); [done | done | by rewrite Hw | done.. | | done | done | done | done].
    exists (sent_argument types c), v0, rt. split; [done |]. unfold replied. simpl in *. by rewrite <- R, E.
  - intros [= <-]. by apply (sim_return svcs s _ i c (set_caller (CDone false) (set_proc PExit c)) false); [done | done | by rewrite Hw | done..].
Qed.

Lemma sim_process svcs n m i c s s' :
  known svcs s -> system_ok types s -> calls s !! i = Some c -> processReq types n m i c s = Some s' -> simulated svcs svcs s s'.
Proof.
  intros K Hs Hi E. unfold processReq in E.
  assert (Hsilent : forall p s1, heap s1 = heap s -> world s1 = world s -> executed s1 = executed s ->
    calls s1 = <[i := set_proc p c]> (calls s) -> simulated svcs svcs s s1).
  { intros p s1 Eh Ew Ee Ec. apply (sim_silent svcs s s1 i c (set_proc p c)); [done | done | by split_and! | by left | done..]. }
  destruct (proc c) as [| | r | r | r [rep |] | counted rep | rep |] eqn:Ep; try discriminate.
  - injection E as <-. by eapply Hsilent.
  - injection E as <-. destruct (negb (was_reliable r) && unlucky n); [by eapply Hsilent |].
    apply (sim_silent svcs s _ i c (set_proc (PWait r) (set_disp (DStart (server r)) c))); [done | done | by split_and! | right; by intros svc m' Hd | done..].
  - repeat branch; injection E as <-; by eapply Hsilent.
  - injection E as <-. by eapply Hsilent.
  - injection E as <-. destruct counted; by eapply Hsilent.
  - destruct (caller c) eqn:Ec; try discriminate. by eapply sim_finish.
Qed.

(** What a service's dispatch runs. *)
Lemma Service_dispatch_runs (svc : Service World) m rq w g rep run w' g' :
  Service_dispatch types svc m rq (w, g) = Ok ((rep, run), (w', g')) ->
  exists method v, methods svc !! m = Some method /\ run = ((gobDecode (args rq) (Zero types (argsType rq))).1, v) /\
    Func method run.1 (Zero types (elem_type types (match In method !! 2%nat with Some rt => rt | None => 1%positive end))) w = Ok (v, w').
Proof.
  unfold Service_dispatch. destruct (methods svc !! m) as [method |]; [| done].
  intros ([a ok] & [w1 g1] & E1 & E)%st_bind_inv. apply st_bind_inv in E as (u & [w2 g2] & E2 & E).
  apply st_bind_inv in E as (v & [w3 g3] & E3 & E). apply st_bind_inv in E as ([rb ok'] & [w4 g4] & E4 & E).
  injection E as <- <- <- <-. unfold on_gob, on_world, zoom in E1, E3, E4. simpl in *.
  destruct (Decode _ _ _ _ _) as [[[a1 ok1] g1'] | |] eqn:ED in E1; try discriminate. injection E1 as -> -> <- <-.
  unfold lift in E2. destruct (check_index _); try discriminate. injection E2 as _ <- <-.
  destruct (Func method a _ w) as [[v' w3'] | |] eqn:EF in E3; try discriminate. injection E3 as -> <- <-.
  destruct (Encode _ _ _) as [[[rb1 ok2] g2'] | |] in E4; try discriminate. injection E4 as -> -> <- <-.
  apply Decode_inv in ED. rewrite ED. by exists method, v.
Qed.

Lemma sim_dispatch svcs i c s s' :
  known svcs s -> system_ok types s -> calls s !! i = Some c -> dispatch types i c s = Some s' -> simulated svcs svcs s s'.
Proof.
  intros K Hs Hi E. unfold dispatch in E. pose proof (ok_calls _ _ Hs _ _ Hi) as [D P R [Eargs Etype]]. unfold disp_ok in D.
  destruct (disp c) as [| sv | svc m | rep |] eqn:Ed; try discriminate.
  - destruct (heap s !! sv) as [rs |] eqn:Eh; [| done].
    apply or_crash_inv in E as [([rs' [svc m]] & E & ->) | (_ & ->)]; [| by apply sim_crash].
    unfold Server_dispatch in E. inv_bind. destruct x as [sn mn]. simpl in E.
    destruct (services rs !! sn) as [svc0 |] eqn:Esvc; [| done]. injection E as <- <- <-.
    destruct (known_heap _ _ K _ _ _ _ Eh Esvc) as [Hin Hname]. split; [split | left].
    + intros sv' rs'' name svc' Hsv Hsvc. simpl in Hsv. apply lookup_insert_Some in Hsv as [[<- <-] | [_ Hsv]]; by eapply known_heap.
    + intros j c1 svc1 m1 Hj Hd. simpl in Hj. apply list_lookup_insert_Some in Hj as [(-> & <- & _) | (_ & Hj)]; [| by eapply known_call].
      injection Hd as <- <-. split; [done |]. simpl. by rewrite Hname.
    + eapply abs_silent; [exact Hi | | reflexivity..]. by split_and!.
  - apply or_crash_inv in E as [([[rep run] [w g]] & E & ->) | (_ & ->)]; [| by apply sim_crash].
    destruct (known_call _ _ K _ _ _ _ Hi Ed) as [Hin Hsplit].
    apply Service_dispatch_runs in E as (method & v & Hm & -> & HF). split.
    { eapply (known_insert svcs s _ i (set_disp (DSend rep) c)); [done | done | done |]. by intros svc' m' Hd. }
    right. rewrite Eargs, Etype in *. fold (arrives (given_args c)) in *.
    assert (Hrun : spec_step (abs svcs s) (MkSpec w svcs (<[i := MkRpc (svcMeth (req c)) (given_args c) (given_reply c)
      (Some (arrives (given_args c), v)) (match caller c with CDone ok => Some (ok, reply c) | _ => None end)]> (rpcs (abs svcs s))))).
    { eapply (spec_run (abs svcs s) i); [| exact Hin | exact Hsplit | exact Hm | exact HF].
      rewrite abs_lookup, Hi. simpl. unfold abs_call. by rewrite D. }
    unfold abs at 2. cbn [world calls executed]. eenough (imap _ _ = _) as ->; [exact Hrun |].
    apply list_eq. intros j. rewrite list_lookup_imap.
    assert (Hj : forall j c', abs_call (MkSystem (net s) (heap s) w g (<[i := set_disp (DSend rep) c]> (calls s))
      (executed s ++ [(i, (arrives (given_args c), v))]) (crashed s)) j c' =
      if decide (i = j) then MkRpc (svcMeth (req c')) (given_args c') (given_reply c') (Some (arrives (given_args c), v))
        (match caller c' with CDone ok => Some (ok, reply c') | _ => None end) else abs_call s j c').
    { intros j' c'. unfold abs_call, runs at 1. cbn [executed]. rewrite runs_app. case_decide as Hij; [subst j'; by rewrite D |].
      by rewrite app_nil_r. }
    destruct (decide (i = j)) as [<- | Hij].
    + rewrite !list_lookup_insert_eq; [| by simpl; rewrite ?length_imap; eapply lookup_lt_Some..].
      simpl. rewrite Hj, decide_True by done. done.
    + rewrite !list_lookup_insert_ne, abs_lookup by done. destruct (calls s !! j); [| done]. simpl. by rewrite Hj, decide_False.
Qed.

Lemma exec_simulated svcs l s s' :
  known svcs s -> system_ok types s -> exec types l s = Some s' -> simulated svcs (served svcs l) s s'.
Proof.
  intros K Hs E. unfold exec, on_call in E. destruct (crashed s); [done |].
  destruct l as [a | e sm a rt r | i | i | | i n m | i | i | i]; simpl in E;
    try (destruct (calls s !! i) as [c |] eqn:Ei; [| done]).
  - by eapply sim_administer.
  - case_decide; [| done]. by eapply sim_call.
  - destruct (caller c) eqn:Ec; try done. branch; [| done]. injection E as <-.
    apply (sim_silent svcs s _ i c (set_proc PStart (set_caller CWait c))); [done | done | split_and!; try done; by rewrite Ec | by left | done..].
  - destruct (caller c) eqn:Ec; try done. branch; [| done]. injection E as <-.
    pose proof (ok_reply _ _ _ (ok_calls _ _ Hs _ _ Ei)) as R. unfold reply_ok in R. rewrite Ec in R.
    by apply (sim_return svcs s _ i c (set_caller (CDone false) c) false); [done | done | by rewrite Ec | done..].
  - branch; [| done]. injection E as <-. by apply sim_unmoved.
  - by eapply sim_process.
  - unfold receive_reply in E.
    destruct (proc c), (disp c) eqn:Ed; try discriminate; repeat (branch; try discriminate); injection E as <-;
      (eapply (sim_silent svcs s _ i c); [done | done | | | reflexivity | reflexivity | reflexivity | reflexivity]; [by split_and! | right; by intros svc m Hd]).
  - unfold tick in E. destruct (proc c); try discriminate. injection E as <-. branch; [| by apply sim_unmoved].
    eapply (sim_silent svcs s _ i c); [done | done | | | reflexivity | reflexivity | reflexivity | reflexivity]; [by split_and! | by left].
  - by eapply sim_dispatch.
Qed.

(** C19: refinement.  Every execution of the network's goroutines, with requests
    and replies delayed, reordered and dropped, servers deleted and replaced, and
    names enabled and disabled at any time, is an execution of atomic calls:
    [abs] of the state it reaches, with the services provided on the way, is
    reachable in the specification, where a handler runs at most once, on the
    argument sent, in one step of the objects' state, and a call that has run
    returns its reply or fails. *)
Theorem labrpc_refines_rpc w s :
  reachable (labrpc types w) s -> exists svcs, reachable (rpc_spec w) (abs svcs s).
Proof.
  intros Hs. cut (system_ok types s /\ exists svcs, known svcs s /\ reachable (rpc_spec w) (abs svcs s)).
  { intros (_ & svcs & _ & Hr). by exists svcs. }
  revert s Hs. apply (invariant_ind (labrpc types w)).
  - intros s0 Hs0. simpl in Hs0. subst s0. split; [apply (reachable_ok types w), reachable_init; done |]. exists [].
    split; [| by apply reachable_init]. split.
    + intros sv rs name svc Hsv. change ((∅ : gmap pointer (Server World)) !! sv = Some rs) in Hsv. by apply lookup_empty_Some in Hsv.
    + intros i c svc m Hi. change (([] : list (call World)) !! i = Some c) in Hi. by rewrite lookup_nil in Hi.
  - intros s1 s2 (Hok & svcs & K & Hr) [l E]. split; [by eapply exec_ok |].
    destruct (exec_simulated svcs l s1 s2 K Hok E) as (K' & [Ea | Hst]); exists (served svcs l); (split; [done |]).
    + by rewrite Ea.
    + by eapply reachable_step.
Qed.
End refine.
