(* ===== verification/LabrpcLive.v ===== *)
(** * Calls through the simulated network return

    The steps left to a call, that one of them can always be taken once its
    handler returns, and that nothing adds to them.  And what the code does when
    a server is deleted: none of its calls that is still in progress returns
    true. *)
From S2P Require Import Prelude Strconv Effects Labgob LabgobSpec Labrpc LabrpcSystem LabrpcSpec.

Local Open Scope Z_scope.

Section live.
Context `{UnicodeTable} `{Gob} `{PointerTypes}.
Variable types : gmap rtype (bytes * kind).
Context {World : Type}.
Implicit Types (s : system World) (c : call World).

(** ** The steps left *)

(** The steps left to the goroutine of [Call] and to [processReq], and to the
    goroutine that dispatches. *)
Definition main_work c : nat :=
  match caller c with
  | CDone _ => 0
  | CSend => 8
  | CWait =>
      match proc c with
      | PIdle => 7
      | PStart => 6
      | PDelay _ => 5
      | PWait _ => 4
      | PCheck _ _ => 3
      | PTimer _ _ => 2
      | PSend _ => 1
      | PExit => 0
      end
  end.

Definition disp_work c : nat :=
  match disp c with DIdle => 4 | DStart _ => 3 | DCall _ _ => 2 | DSend _ => 1 | DDone => 0 end.

Definition work c : nat := main_work c + disp_work c.

(** The pointers the network holds are to servers; its goroutine stops only
    once [done] is closed. *)
Definition allocated s (sv : pointer) : Prop := is_Some (heap s !! sv).

Definition pointers_ok s c : Prop :=
  match proc c with PDelay r => allocated s (server r) | _ => True end /\
  match disp c with DStart sv => allocated s sv | _ => True end.

Record heap_ok s : Prop := HeapOk {
  heap_servers : forall sn sv, server_at (net s) sn = Some sv -> allocated s sv;
  heap_calls : forall i c, calls s !! i = Some c -> pointers_ok s c;
  heap_running : running (net s) = false -> closed (net s) = true
}.

(** A step that keeps the servers and replaces one call at most. *)
Lemma heap_ok_frame s s' i c c' :
  heap_ok s -> calls s !! i = Some c -> calls s' = <[i := c']> (calls s) -> servers (net s') = servers (net s) ->
  running (net s') = running (net s) -> closed (net s') = closed (net s) ->
  (forall sv, allocated s sv -> allocated s' sv) -> (pointers_ok s c -> pointers_ok s' c') -> heap_ok s'.
Proof.
  intros [Hsv Hc Hr] Hi Ec Esv Er Ecl Hal Hp. split.
  - intros sn sv. unfold server_at. rewrite Esv. intros E. apply Hal, (Hsv sn), E.
  - intros j c1. rewrite Ec. destruct (decide (i = j)) as [<- | Hj].
    + rewrite list_lookup_insert_eq by (by eapply lookup_lt_Some). intros [= <-]. apply Hp. by eapply Hc.
    + rewrite list_lookup_insert_ne by done. intros Hj1. destruct (Hc _ _ Hj1) as [Ha Hb].
      split; [destruct (proc c1) | destruct (disp c1)]; auto.
  - by rewrite Er, Ecl.
Qed.
(** A step that keeps the calls. *)
Lemma heap_ok_same s s' :
  heap_ok s -> calls s' = calls s -> (forall sv, allocated s sv -> allocated s' sv) ->
  (forall sn sv, server_at (net s') sn = Some sv -> allocated s' sv) ->
  (running (net s') = false -> closed (net s') = true) -> heap_ok s'.
Proof.
  intros [Hsv Hc Hr] Ec Hal Hsv' Hr'. split; [exact Hsv' | | exact Hr'].
  intros i c. rewrite Ec. intros Hi. destruct (Hc _ _ Hi) as [Ha Hb].
  split; [destruct (proc c) | destruct (disp c)]; auto.
Qed.

Lemma heap_ok_crash s : heap_ok s -> heap_ok (crash s).
Proof. intros Hs. by destruct Hs. Qed.

Lemma allocated_insert s s' sv rs :
  heap s' = <[sv := rs]> (heap s) -> forall sv', allocated s sv' -> allocated s' sv'.
Proof.
  intros E sv' Ha. unfold allocated. rewrite E. destruct (decide (sv = sv')) as [<- | Hn].
  - rewrite lookup_insert_eq. by eexists.
  - by rewrite lookup_insert_ne.
Qed.

Lemma server_at_insert rn sn o sn' sv :
  server_at (set_server rn sn o) sn' = Some sv -> o = Some sv \/ server_at rn sn' = Some sv.
Proof.
  unfold server_at. simpl. destruct (decide (sn = sn')) as [<- | Hn].
  - rewrite lookup_insert_eq. simpl. by left.
  - rewrite lookup_insert_ne by done. by right.
Qed.

Lemma administer_heap_ok a s s' : heap_ok s -> administer a s = Some s' -> heap_ok s'.
Proof.
  intros Hs E. pose proof Hs as [Hsv Hc Hr].
  assert (Hnet : forall n, servers n = servers (net s) -> (running n = false -> closed n = true) -> heap_ok (set_net n s)).
  { intros n En Hn. apply (heap_ok_same s); try done. intros sn sv. unfold server_at. simpl. rewrite En. apply Hsv. }
  destruct a; simpl in E; try (injection E as <-; by apply Hnet).
  - apply or_crash_inv in E as [(n & E & ->) | (_ & ->)]; [| by apply heap_ok_crash].
    unfold Cleanup in E. branch; [done |]. injection E as <-. by apply Hnet.
  - apply or_crash_inv in E as [(n & E & ->) | (_ & ->)]; [| by apply heap_ok_crash].
    unfold MakeEnd in E. case_decide; [done |]. injection E as <-. by apply Hnet.
  - destruct (heap s !! sv) eqn:Eh; [done |]. injection E as <-.
    assert (Hal := allocated_insert s (set_heap (<[sv:=MakeServer]> (heap s)) s) sv MakeServer eq_refl).
    apply (heap_ok_same s); try done. intros sn sv' E. by eapply Hal, Hsv.
  - destruct (heap s !! sv) as [rs |] eqn:Eh; [| done]. injection E as <-.
    assert (Hal := allocated_insert s (set_heap (<[sv:=AddService rs svc]> (heap s)) s) sv _ eq_refl).
    apply (heap_ok_same s); try done. intros sn sv' E. by eapply Hal, Hsv.
  - destruct (heap s !! sv) as [rs |] eqn:Eh; [| done]. injection E as <-.
    apply (heap_ok_same s); try done. intros sn' sv' [[= <-] | E]%server_at_insert; [by exists rs | by apply (Hsv sn')].
  - injection E as <-.
    apply (heap_ok_same s); try done. intros sn' sv' [[=] | E]%server_at_insert. by apply (Hsv sn').
Qed.

Lemma find_route_server rn name r : find_route rn name = Some r -> server_at rn (servername r) = Some (server r).
Proof.
  unfold find_route, readEndnameInfo. destruct (is_enabled rn name), (connection rn name) as [sn |]; try done.
  simpl. destruct (server_at rn sn) eqn:E; [| done]. intros [= <-]. exact E.
Qed.

(** What a step of a call's own goroutines changes. *)
Lemma exec_heap_ok l s s' : heap_ok s -> exec types l s = Some s' -> heap_ok s'.
Proof.
  intros Hs E. unfold exec, on_call in E. destruct (crashed s); [done |].
  assert (Hset : forall i c c' n e g, calls s !! i = Some c -> servers n = servers (net s) ->
            running n = running (net s) -> closed n = closed (net s) -> (pointers_ok s c -> pointers_ok s c') ->
            heap_ok (MkSystem n (heap s) (world s) g (<[i := c']> (calls s)) e (crashed s))).
  { intros i c c' n e g Hi En Er Ec Hp. by eapply (heap_ok_frame s _ i c c'). }
  destruct l as [a | e sm a rt r | i | i | | i n m | i | i | i]; simpl in E;
    try (destruct (calls s !! i) as [c |] eqn:Ei; [| done]).
  - by eapply administer_heap_ok.
  - case_decide; [| done]. apply or_crash_inv in E as [([[b ok] g] & _ & ->) | (_ & ->)]; [| by apply heap_ok_crash].
    destruct ok; [| by apply heap_ok_crash]. destruct Hs as [Hsv Hc Hr]. split; [done | | done].
    intros i c [Hi | [_ Hi]]%lookup_app_Some; [by apply (Hc i) |].
    apply list_lookup_singleton_Some in Hi as [_ <-]. done.
  - destruct (caller c); try done. branch; [| done]. injection E as <-. eapply Hset; try done. by intros [_ ?].
  - destruct (caller c); try done. branch; [| done]. injection E as <-. by eapply Hset.
  - branch; [| done]. injection E as <-. pose proof Hs as [Hsv Hc Hr]. by apply (heap_ok_same s).
  - unfold processReq, Call_finish, pointers_ok in *.
    destruct (proc c) as [| | r | r | r [rep |] | counted rep | rep |] eqn:Ep; try discriminate.
    + injection E as <-. eapply Hset; try done. intros [_ Hd]. split; [| exact Hd]. simpl.
      destruct (find_route _ _) as [r |] eqn:Ef; [| done]. apply find_route_server in Ef. by eapply heap_servers.
    + injection E as <-. destruct (_ && _); eapply Hset; try done; unfold pointers_ok; simpl; rewrite Ep; tauto.
    + repeat branch; injection E as <-; eapply Hset; try done; unfold pointers_ok; simpl; rewrite Ep; tauto.
    + injection E as <-. eapply Hset; try done. unfold pointers_ok. simpl. tauto.
    + injection E as <-. destruct counted; eapply Hset; try done; unfold pointers_ok; simpl; tauto.
    + destruct (caller c); try done. branch.
      * apply or_crash_inv in E as [([[b ok] g] & _ & ->) | (_ & ->)]; [| by apply heap_ok_crash].
        destruct ok; [| by apply heap_ok_crash]. eapply Hset; try done. unfold pointers_ok; simpl; tauto.
      * injection E as <-. eapply Hset; try done. unfold pointers_ok; simpl; tauto.
  - unfold receive_reply in E. destruct (disp c) eqn:Ed; destruct (proc c) eqn:Ep; try discriminate E;
      try (destruct (drain c); [| done]); injection E as <-; eapply Hset; try done; unfold pointers_ok; simpl;
      rewrite ?Ep; tauto.
  - unfold tick in E. destruct (proc c) eqn:Ep; try discriminate E. injection E as <-. branch; [| done].
    eapply Hset; try done. unfold pointers_ok. simpl. rewrite Ep. tauto.
  - unfold dispatch in E. destruct (disp c) as [| sv | svc m | rep |] eqn:Ed; try discriminate E.
    + destruct (heap s !! sv) as [rs |] eqn:Eh; [| done].
      apply or_crash_inv in E as [([rs' [svc m]] & _ & ->) | (_ & ->)]; [| by apply heap_ok_crash].
      assert (Hal := allocated_insert s
        (set_heap (<[sv:=rs']> (heap s)) (set_call i (set_disp (DCall svc m) c) s)) sv rs' eq_refl).
      eapply (heap_ok_frame s); try done. unfold pointers_ok. simpl. intros [Hp _]. split; [| done].
      destruct (proc c); auto.
    + apply or_crash_inv in E as [([[rep run] [w g]] & _ & ->) | (_ & ->)]; [| by apply heap_ok_crash].
      eapply (heap_ok_frame s); try done. unfold pointers_ok. simpl. tauto.
Qed.

Lemma reachable_heap_ok w s : reachable (labrpc types w) s -> heap_ok s.
Proof.
  apply (invariant_ind (labrpc types w)).
  - intros s0 ->. split; [| done | done]. intros sn sv. unfold server_at. simpl. by rewrite lookup_empty.
  - intros s1 s2 Hs [l E]. by eapply exec_heap_ok.
Qed.
(** ** Progress *)

(** The steps of call [i]'s own goroutines, but for the timer that only looks
    whether the server is still there. *)
Definition own_step (i : nat) (l : label World) : Prop :=
  match l with
  | LTake j | LAbort j | LProcess j _ _ | LReceive j | LDispatch j => j = i
  | _ => False
  end.

(** If the call's handler is about to run, it does not run forever. *)
Definition handler_returns s c : Prop :=
  match disp c with
  | DCall svc m => forall method a r,
      methods svc !! m = Some method -> Func method a r (world s) <> Block
  | _ => True
  end.

Lemma Decode_returns b pt old g : Decode types b pt old g <> Block.
Proof. unfold Decode. destruct (checkValue_covers types pt g) as (g' & -> & _). done. Qed.

Lemma Encode_returns v g : Encode types v g <> Block.
Proof. unfold Encode. destruct (checkValue_covers types (TypeOf v) g) as (g' & -> & _). done. Qed.

Lemma or_crash_returns {A} (m : outcome A) k s : m <> Block -> exists s', or_crash m k s = Some s'.
Proof. unfold or_crash. destruct m; [eauto | eauto | done]. Qed.

Lemma bind_returns {S A B} (m : st S A) (f : A -> st S B) x :
  m x <> Block -> (forall a y, f a y <> Block) -> bind m f x <> Block.
Proof. unfold bind. intros Hm Hf. destruct (m x) as [[a y] | |]; [apply Hf | done | done]. Qed.

Lemma zoom_returns {S T A} (get : S -> T) set (m : st T A) x : m (get x) <> Block -> zoom get set m x <> Block.
Proof. unfold zoom. by destruct (m (get x)) as [[a t] | |]. Qed.

Lemma Service_dispatch_returns s (svc : Service World) m rq :
  (forall method a r, methods svc !! m = Some method -> Func method a r (world s) <> Block) ->
  Service_dispatch types svc m rq (world s, gob s) <> Block.
Proof.
  intros Hm. unfold Service_dispatch. destruct (methods svc !! m) as [method |] eqn:Em; [| done].
  unfold bind at 1. destruct (on_gob _ _) as [[[a ok] [w g]] | |] eqn:E1; [| done |].
  - unfold on_gob, zoom in E1. destruct (Decode _ _ _ _ _) as [[? ?] | |]; simpl in E1; try done.
    injection E1 as _ <- _. unfold bind at 1, lift, check_index. destruct (call_types_ok _ _); [| done].
    apply bind_returns; [by apply zoom_returns, Hm |].
    intros v y. apply bind_returns; [apply zoom_returns, Encode_returns |]. by intros [rb ok'] z.
  - unfold on_gob, zoom in E1. pose proof (Decode_returns (args rq) (PointerTo (argsType rq)) (Zero types (argsType rq)) (gob s)).
    by destruct (Decode _ _ _ _ _) as [[? ?] | |].
Qed.

Lemma Server_dispatch_returns (rs : Server World) rq : Server_dispatch rs rq <> Block.
Proof.
  unfold Server_dispatch, split_method, slice_from, slice_to, slice.
  repeat (destruct (_ && _); simpl; try done). by destruct (services rs !! _).
Qed.

(** The call's next step. *)
Lemma next_step w s i c :
  reachable (labrpc types w) s -> calls s !! i = Some c -> crashed s = false ->
  (forall ok, caller c <> CDone ok) -> handler_returns s c ->
  exists l s', own_step i l /\ exec types l s = Some s'.
Proof.
  intros Hr Hi Hcr Hn Hh. pose proof (reachable_heap_ok _ _ Hr) as [_ Hheap Hrun]. apply reachable_ok in Hr as Hs.
  destruct (ok_calls _ _ Hs _ _ Hi) as [D P R A]. destruct (Hheap _ _ Hi) as [Hp Hd].
  assert (Hexec : forall l f, own_step i l ->
            (exists s', f c = Some s') -> exec types l s = on_call i f s -> exists l s', own_step i l /\ exec types l s = Some s').
  { intros l f Hl (s' & E) El. exists l, s'. split; [done |]. rewrite El. unfold on_call. by rewrite Hi. }
  unfold proc_ok, dispatching in P.
  destruct (proc c) as [| | r | r | r [rep |] | counted rep | rep |] eqn:Ep.
  - destruct P as [_ [Ec | Ec]]; [| by apply Hn in Ec]. destruct (running (net s)) eqn:Er.
    + eapply (Hexec (LTake i)); [done | | unfold exec; by rewrite Hcr]. simpl. rewrite Ec, Er. eauto.
    + eapply (Hexec (LAbort i)); [done | | unfold exec; by rewrite Hcr]. simpl. rewrite Ec, Hrun by done. eauto.
  - eapply (Hexec (LProcess i 0 0)); [done | | unfold exec; by rewrite Hcr]. unfold processReq. rewrite Ep. eauto.
  - eapply (Hexec (LProcess i 0 0)); [done | | unfold exec; by rewrite Hcr]. unfold processReq. rewrite Ep. eauto.
  - destruct P as [Pd Pc]. unfold handler_returns in Hh. destruct (disp c) as [| sv | svc m | rep |] eqn:Ed; try done.
    + eapply (Hexec (LDispatch i)); [done | | unfold exec; by rewrite Hcr]. unfold dispatch. rewrite Ed.
      destruct Hd as [rs ->]. apply or_crash_returns, Server_dispatch_returns.
    + eapply (Hexec (LDispatch i)); [done | | unfold exec; by rewrite Hcr]. unfold dispatch. rewrite Ed.
      apply or_crash_returns, Service_dispatch_returns, Hh.
    + eapply (Hexec (LReceive i)); [done | | unfold exec; by rewrite Hcr]. unfold receive_reply. rewrite Ed, Ep. eauto.
  - eapply (Hexec (LProcess i 0 0)); [done | | unfold exec; by rewrite Hcr]. unfold processReq. rewrite Ep.
    repeat case_match; eauto.
  - eapply (Hexec (LProcess i 0 0)); [done | | unfold exec; by rewrite Hcr]. unfold processReq. rewrite Ep. eauto.
  - eapply (Hexec (LProcess i 0 0)); [done | | unfold exec; by rewrite Hcr]. unfold processReq. rewrite Ep. eauto.
  - destruct P as [_ Pc]. eapply (Hexec (LProcess i 0 0)); [done | | unfold exec; by rewrite Hcr].
    unfold processReq. rewrite Ep, Pc. unfold Call_finish. destruct (rep_ok rep); [| eauto].
    apply or_crash_returns, Decode_returns.
  - destruct P as [ok Pc]. by apply Hn in Pc.
Qed.

(** Nothing adds to the work left of a call, and its own steps take from it. *)
Definition shortens (l : label World) i c c' : Prop :=
  (work c' <= work c)%nat /\ (own_step i l -> (work c' < work c)%nat).

Definition shortened (l : label World) s s' : Prop :=
  forall i c, calls s !! i = Some c -> exists c', calls s' !! i = Some c' /\ shortens l i c c'.

Lemma shortened_set l s s' j c0 c1 :
  calls s !! j = Some c0 -> calls s' = <[j := c1]> (calls s) ->
  (forall i, own_step i l -> i = j) -> (work c1 < work c0)%nat -> shortened l s s'.
Proof.
  intros Hj Ec Hl Hw i c Hi. rewrite Ec. destruct (decide (j = i)) as [<- | Hn].
  - rewrite list_lookup_insert_eq by (by eapply lookup_lt_Some). exists c1. split; [done |].
    assert (c = c0) by congruence. subst. unfold shortens. lia.
  - rewrite list_lookup_insert_ne by done. exists c. split; [done |]. split; [done |]. intros E%Hl. by subst.
Qed.

Lemma shortened_same l s s' :
  calls s `prefix_of` calls s' -> (forall i, ~ own_step i l) -> shortened l s s'.
Proof.
  intros Hp Hl i c Hi. exists c. split; [by eapply prefix_lookup_Some |]. split; [done |]. by intros E%Hl.
Qed.

Lemma administer_calls a s s' : administer a s = Some s' -> calls s' = calls s.
Proof.
  intros E. destruct a; simpl in E; try (by injection E as <-); try (destruct (heap s !! _); by simplify_eq);
    by apply or_crash_inv in E as [(n & _ & ->) | (_ & ->)].
Qed.

(** Work left by the program counters. *)
Ltac count_work :=
  unfold work, main_work, disp_work; simpl;
  repeat match goal with H : caller _ = _ |- _ => rewrite H | H : proc _ = _ |- _ => rewrite H
                    | H : disp _ = _ |- _ => rewrite H end; simpl; try lia.

Lemma exec_shortened l s s' :
  system_ok types s -> exec types l s = Some s' -> crashed s' = false -> shortened l s s'.
Proof.
  intros Hs E Hcr. unfold exec, on_call in E. destruct (crashed s); [done |].
  destruct l as [a | e sm a rt r | i | i | | i n m | i | i | i]; simpl in E;
    try (destruct (calls s !! i) as [c |] eqn:Ei; [| done]; pose proof (ok_proc _ _ _ (ok_calls _ _ Hs _ _ Ei)) as P;
         unfold proc_ok, dispatching in P).
  - apply shortened_same; [| intros ? []]. by rewrite (administer_calls a s s').
  - apply shortened_same; [| intros ? []]. case_decide; [| done].
    apply or_crash_inv in E as [([[b ok] g] & _ & ->) | (_ & ->)]; [| done].
    destruct ok; [by apply prefix_app_r | done].
  - destruct (caller c) eqn:Ec; try done. branch; [| done]. injection E as <-.
    eapply shortened_set; [exact Ei | reflexivity | intros ? E'; exact (eq_sym E') | count_work].
  - destruct (caller c) eqn:Ec; try done. branch; [| done]. injection E as <-.
    eapply shortened_set; [exact Ei | reflexivity | intros ? E'; exact (eq_sym E') | count_work].
  - apply shortened_same; [| intros ? []]. branch; [| done]. by injection E as <-.
  - unfold processReq, Call_finish in E.
    destruct (proc c) as [| | r | r | r [rep |] | counted rep | rep |] eqn:Ep; try discriminate;
      assert (Pc : caller c = CWait) by tauto.
    + injection E as <-. eapply shortened_set; [exact Ei | reflexivity | intros ? E'; exact (eq_sym E') |].
      destruct (find_route _ _); count_work.
    + injection E as <-. eapply shortened_set; [exact Ei | reflexivity | intros ? E'; exact (eq_sym E') |].
      destruct P as [Pd _]. destruct (_ && _); count_work.
    + repeat branch; injection E as <-; (eapply shortened_set; [exact Ei | reflexivity | intros ? E'; exact (eq_sym E') | count_work]).
    + injection E as <-. eapply shortened_set; [exact Ei | reflexivity | intros ? E'; exact (eq_sym E') | count_work].
    + injection E as <-. destruct counted; (eapply shortened_set; [exact Ei | reflexivity | intros ? E'; exact (eq_sym E') | count_work]).
    + rewrite Pc in E. branch.
      * apply or_crash_inv in E as [([[b ok] g] & _ & ->) | (_ & ->)]; [| done]. destruct ok; [| done].
        eapply shortened_set; [exact Ei | reflexivity | intros ? E'; exact (eq_sym E') | count_work].
      * injection E as <-. eapply shortened_set; [exact Ei | reflexivity | intros ? E'; exact (eq_sym E') | count_work].
  - unfold receive_reply in E. destruct (disp c) eqn:Ed; destruct (proc c) eqn:Ep; try discriminate E;
      try (destruct (drain c); [| done]); injection E as <-;
      (eapply shortened_set; [exact Ei | reflexivity | intros ? E'; exact (eq_sym E') | count_work]); destruct (caller c); lia.
  - unfold tick in E. destruct (proc c) eqn:Ep; try discriminate E. injection E as <-. destruct P as [_ Pc]. branch.
    + eapply shortened_set; [exact Ei | reflexivity | intros ? [] | count_work].
    + by apply shortened_same; [| intros ? []].
  - unfold dispatch in E. destruct (disp c) as [| sv | svc m | rep |] eqn:Ed; try discriminate E.
    + destruct (heap s !! sv) as [rs |] eqn:Eh; [| done].
      apply or_crash_inv in E as [([rs' [svc m]] & _ & ->) | (_ & ->)]; [| done].
      eapply shortened_set; [exact Ei | reflexivity | intros ? E'; exact (eq_sym E') | count_work].
    + apply or_crash_inv in E as [([[rep run] [w g]] & _ & ->) | (_ & ->)]; [| done].
      eapply shortened_set; [exact Ei | reflexivity | intros ? E'; exact (eq_sym E') | count_work].
Qed.

(** C30: every call returns.  As long as [Call] has not returned and its handler,
    if it is about to run, returns, a step of the call's own goroutines can be
    taken; each of these takes from [work c], which is at most 12, and no other
    step of the system adds to it. *)
Theorem Call_returns w s i c :
  reachable (labrpc types w) s -> calls s !! i = Some c -> crashed s = false ->
  (work c <= 12)%nat /\
  (forall l s', exec types l s = Some s' -> crashed s' = false ->
     exists c', calls s' !! i = Some c' /\ (work c' <= work c)%nat /\ (own_step i l -> (work c' < work c)%nat)) /\
  ((forall ok, caller c <> CDone ok) -> handler_returns s c -> exists l s', own_step i l /\ exec types l s = Some s').
Proof.
  intros Hr Hi Hcr. split; [| split].
  - unfold work, main_work, disp_work. repeat case_match; lia.
  - intros l s' E Hcr'. by apply (exec_shortened l s s'); [eapply reachable_ok | | |].
  - by apply (next_step w).
Qed.

(** ** Deleted servers *)

(** The reply of call [i], routed to [r], has not passed the last check of the
    server, or is a failure. *)
Definition doomed (r : route) c : Prop :=
  match proc c with
  | PDelay r' | PWait r' | PCheck r' _ => r' = r
  | PTimer _ rep | PSend rep => rep_ok rep = false
  | PExit => True
  | PIdle | PStart => False
  end /\ (caller c = CWait \/ caller c = CDone false).

Definition gone (r : route) (rn : Network) : Prop := server_at rn (servername r) <> Some (server r).

(** A step that keeps the call, or one that moves it, without adding the server. *)
Lemma doomed_set s' r i c' (cs : list (call World)) :
  (i < length cs)%nat -> calls s' = <[i := c']> cs -> gone r (net s') -> doomed r c' ->
  gone r (net s') /\ exists c', calls s' !! i = Some c' /\ doomed r c'.
Proof. intros Hi E Hg Hd. split; [done |]. exists c'. by rewrite E, list_lookup_insert_eq. Qed.

(** The steps of the call itself. *)
Lemma processReq_doomed n m s s' i r c :
  gone r (net s) -> calls s !! i = Some c -> doomed r c -> processReq types n m i c s = Some s' ->
  gone r (net s') /\ exists c', calls s' !! i = Some c' /\ doomed r c'.
Proof.
  intros Hg Hi [Hp Hc] E. assert (Hl := lookup_lt_Some _ _ _ Hi). unfold processReq, Call_finish in E.
  destruct (proc c) as [| | r' | r' | r' [rep |] | counted rep | rep |] eqn:Ep; try done; subst.
  - injection E as <-. destruct (_ && _); by eapply doomed_set.
  - assert (Hdead : isServerDead (net s) (endname (req c)) r = true).
    { unfold isServerDead. rewrite bool_decide_eq_false_2 by done. apply orb_true_r. }
    rewrite Hdead in E. injection E as <-. by eapply doomed_set.
  - injection E as <-. by eapply doomed_set.
  - injection E as <-. destruct counted; by eapply doomed_set.
  - rewrite Hp in E. destruct (caller c) eqn:Ec; try done. injection E as <-.
    eapply doomed_set; [exact Hl | reflexivity | exact Hg | by split; [| right]].
Qed.

Lemma server_at_add rn sn sv r :
  (sn, sv) <> (servername r, server r) -> gone r rn -> gone r (set_server rn sn (Some sv)).
Proof.
  intros Hne Hg. unfold gone, server_at in *. simpl. destruct (decide (sn = servername r)) as [-> | Hn].
  - rewrite lookup_insert_eq. simpl. congruence.
  - by rewrite lookup_insert_ne.
Qed.

Lemma administer_gone a s s' r :
  gone r (net s) -> a <> AAddServer (servername r) (server r) -> administer a s = Some s' -> gone r (net s').
Proof.
  intros Hg Ha E. destruct a; simpl in E; try (by injection E as <-).
  - apply or_crash_inv in E as [(n & E & ->) | (_ & ->)]; [| done].
    unfold Cleanup in E. branch; [done |]. by injection E as <-.
  - apply or_crash_inv in E as [(n & E & ->) | (_ & ->)]; [| done].
    unfold MakeEnd in E. case_decide; [done |]. by injection E as <-.
  - destruct (heap s !! sv); [done |]. by injection E as <-.
  - destruct (heap s !! sv); [| done]. by injection E as <-.
  - destruct (heap s !! sv); [| done]. injection E as <-. apply server_at_add; [congruence | done].
  - injection E as <-. unfold gone, server_at, DeleteServer, set_server in *. simpl.
    destruct (decide (sn = servername r)) as [-> | Hn]; [by rewrite lookup_insert_eq | by rewrite lookup_insert_ne].
Qed.

(** What a step of the network leaves alone: the servers, and the calls it is
    not about. *)
Definition subject (l : label World) : option nat :=
  match l with
  | LTake i | LAbort i | LProcess i _ _ | LReceive i | LTick i | LDispatch i => Some i
  | LAdmin _ | LCall _ _ _ _ _ | LStop => None
  end.

Definition left_alone (l : label World) s s' : Prop :=
  servers (net s') = servers (net s) /\
  forall i c, subject l <> Some i -> calls s !! i = Some c -> calls s' !! i = Some c.

Lemma left_alone_set l s s' j c' :
  subject l = Some j -> servers (net s') = servers (net s) -> calls s' = <[j := c']> (calls s) -> left_alone l s s'.
Proof.
  intros Hl Es Ec. split; [done |]. intros i c Hi Hc. rewrite Ec, list_lookup_insert_ne by congruence. done.
Qed.

Lemma left_alone_same l s s' :
  servers (net s') = servers (net s) -> calls s `prefix_of` calls s' -> left_alone l s s'.
Proof. intros Es Hp. split; [done |]. intros i c _ Hc. by eapply prefix_lookup_Some. Qed.

Lemma exec_left_alone l s s' :
  exec types l s = Some s' -> (forall a, l <> LAdmin a) -> left_alone l s s'.
Proof.
  intros E Ha. unfold exec, on_call in E. destruct (crashed s); [done |].
  destruct l as [a | e sm a rt r | i | i | | i n m | i | i | i]; simpl in E;
    try (destruct (calls s !! i) as [c |] eqn:Ei; [| done]).
  - by destruct (Ha a).
  - case_decide; [| done].
    apply or_crash_inv in E as [([[b []] g] & _ & ->) | (_ & ->)]; (apply left_alone_same; [done | by apply prefix_app_r || done]).
  - destruct (caller c); try done. branch; [| done]. injection E as <-. by eapply left_alone_set.
  - destruct (caller c); try done. branch; [| done]. injection E as <-. by eapply left_alone_set.
  - branch; [| done]. injection E as <-. by apply left_alone_same.
  - unfold processReq, Call_finish in E. destruct (proc c) as [| | r | r | r [rep |] | counted rep | rep |]; try discriminate;
      try (injection E as <-; by eapply left_alone_set).
    + repeat branch; injection E as <-; by eapply left_alone_set.
    + injection E as <-. destruct counted; by eapply left_alone_set.
    + destruct (caller c); try done. branch; [| injection E as <-; by eapply left_alone_set].
      apply or_crash_inv in E as [([[b []] g] & _ & ->) | (_ & ->)];
        (by eapply left_alone_set) || by apply left_alone_same.
  - unfold receive_reply in E. destruct (disp c); destruct (proc c); try discriminate E;
      try (destruct (drain c); [| done]); injection E as <-; by eapply left_alone_set.
  - unfold tick in E. destruct (proc c); try discriminate E. injection E as <-.
    branch; [by eapply left_alone_set | by apply left_alone_same].
  - unfold dispatch in E. destruct (disp c) as [| sv | svc m | rep |]; try discriminate E.
    + destruct (heap s !! sv); [| done]. apply or_crash_inv in E as [([rs' [svc m]] & _ & ->) | (_ & ->)];
        [by eapply left_alone_set | by apply left_alone_same].
    + apply or_crash_inv in E as [([[rep run] [w g]] & _ & ->) | (_ & ->)];
        [by eapply left_alone_set | by apply left_alone_same].
Qed.

Lemma own_doomed l s s' i r c :
  gone r (net s) -> subject l = Some i -> calls s !! i = Some c -> doomed r c -> exec types l s = Some s' ->
  exists c', calls s' !! i = Some c' /\ doomed r c'.
Proof.
  intros Hg Hl Hi Hdoom E. assert (Hlt := lookup_lt_Some _ _ _ Hi). pose proof Hdoom as [Hp Hc].
  assert (Hset : forall c' s1, calls s1 = <[i := c']> (calls s) -> doomed r c' -> exists c', calls s1 !! i = Some c' /\ doomed r c').
  { intros c' s1 Es Hd. exists c'. by rewrite Es, list_lookup_insert_eq. }
  unfold exec, on_call in E. destruct (crashed s); [done |].
  destruct l as [| | j | j | | j n m | j | j | j]; try discriminate Hl; injection Hl as ->; rewrite Hi in E.
  - destruct (caller c); try done. naive_solver.
  - destruct (caller c); try done. naive_solver.
  - by eapply (processReq_doomed n m s s').
  - unfold receive_reply in E. unfold doomed in Hp. destruct (disp c); destruct (proc c) eqn:Ep; try discriminate E;
      try (destruct (drain c); [| done]); injection E as <-; eapply Hset; try reflexivity; unfold doomed; simpl;
      rewrite ?Ep; done.
  - unfold tick in E. destruct (proc c) eqn:Ep; try discriminate E. injection E as <-. branch; [| by exists c].
    eapply Hset; [reflexivity |]. unfold doomed in *. simpl in *. by rewrite Ep in Hdoom.
  - unfold dispatch in E. destruct (disp c) as [| sv | svc m | rep |]; try discriminate E.
    + destruct (heap s !! sv); [| done]. apply or_crash_inv in E as [([rs' [svc m]] & _ & ->) | (_ & ->)];
        [by eapply Hset | by exists c].
    + apply or_crash_inv in E as [([[rep run] [w g]] & _ & ->) | (_ & ->)]; [by eapply Hset | by exists c].
Qed.

Lemma exec_doomed l s s' i r c :
  gone r (net s) -> l <> LAdmin (AAddServer (servername r) (server r)) ->
  calls s !! i = Some c -> doomed r c -> exec types l s = Some s' ->
  gone r (net s') /\ exists c', calls s' !! i = Some c' /\ doomed r c'.
Proof.
  intros Hg Hl Hi Hd E. destruct (decide (subject l = Some i)) as [Hs | Hs].
  - split; [| by eapply own_doomed]. apply exec_left_alone in E as [Es _]; [| intros a ->; discriminate Hs].
    unfold gone, server_at in *. by rewrite Es.
  - assert (Ha : (exists a, l = LAdmin a) \/ forall a, l <> LAdmin a) by (destruct l; eauto).
    destruct Ha as [[a ->] | Ha].
    + unfold exec in E. destruct (crashed s); [done |].
      split; [apply (administer_gone a s); [exact Hg | intros ->; by apply Hl | exact E] |].
      exists c. by rewrite (administer_calls a s s' E).
    + apply exec_left_alone in E as [Es Ec]; [| done]. unfold gone, server_at in *. rewrite Es.
      split; [done |]. exists c. auto.
Qed.

(** C31: a call on its way to a server when the server is deleted, or replaced
    under its name, and not yet answered, never returns true, unless the same
    server is put back: whatever that server still does for it, the caller does
    not see. *)
Theorem deleted_server_never_answers ls s s' i r c c' :
  calls s !! i = Some c -> caller c = CWait ->
  (proc c = PDelay r \/ proc c = PWait r \/ exists rep, proc c = PCheck r rep) ->
  server_at (net s) (servername r) <> Some (server r) ->
  LAdmin (AAddServer (servername r) (server r)) ∉ ls ->
  run types ls s = Some s' -> calls s' !! i = Some c' -> caller c' <> CDone true.
Proof.
  intros Hi Hc Hp Hg Hls Hrun Hi'.
  assert (Hd : doomed r c) by (split; [destruct Hp as [-> | [-> | [rep ->]]]; done | by left]).
  clear Hc Hp. revert s c Hi Hg Hd Hrun. induction ls as [| l ls IH]; intros s c Hi Hg Hd Hrun; simpl in Hrun.
  - injection Hrun as ->. assert (c = c') by congruence. subst. destruct Hd as [_ [-> | ->]]; done.
  - apply bind_Some in Hrun as (s1 & E & Hrun).
    destruct (exec_doomed l s s1 i r c) as (Hg1 & c1 & Hi1 & Hd1); [done | set_solver | done | done | done |].
    eapply IH; [set_solver | exact Hi1 | exact Hg1 | exact Hd1 | exact Hrun].
Qed.
End live.
