(* ===== verification/LabrpcExamples.v ===== *)
(** * Runs of the simulated network

    A server with one service that adds its receiver, a counter, to the
    argument, and an encoding of numbers by their digits. *)
From Stdlib Require Import String.
From S2P Require Import Prelude Strconv Effects Labgob Labrpc LabrpcSystem LabrpcSpec LabrpcRefine LabrpcLive.

Local Open Scope Z_scope.

Module LabrpcExamples.
Definition tint : rtype := 1%positive.
Definition pint : rtype := 2%positive.
Definition trecv : rtype := 3%positive.

Definition types : gmap rtype (bytes * kind) :=
  list_to_map [(tint, (lit "int"%string, KBasic BInt)); (pint, ([], KPtr tint)); (trecv, ([], KOther))].

#[local] Instance letters : UnicodeTable := fun _ => false.
#[local] Instance pointers : PointerTypes := fun t => if decide (t = tint) then pint else (t + 100)%positive.

#[local] Instance digits_gob : Gob := {
  gobEncode v := match v with VNum _ z | VPtr _ (Some (VNum _ z)) => (fmt_d z, true) | _ => ([], false) end;
  gobDecode b old :=
    match old, Atoi b with VNum t _, Some z => (VNum t z, true) | _, _ => (old, false) end
}.

Definition Add : rmethod Z := MkMethod [] [trecv; tint; pint] 0
  (fun a _ w => match a with VNum t z => Ok (VNum t (z + w), w + 1) | _ => Panic end).

Definition counter : Service Z := MakeService types (lit "Counter"%string) [(lit "Add"%string, Add)].

Definition e : iface := IString (lit "end"%string).
Definition sn : iface := IInt 0.

Definition setup : list (label Z) :=
  LAdmin <$> [AMakeServer 1%positive; AAddService 1%positive counter; AMakeEnd e;
              AAddServer sn 1%positive; AConnect e (Some sn); AEnable e true].

(** A call with 20, up to the point where the handler has run. *)
Definition asked : list (label Z) :=
  setup ++ [LCall e (lit "Counter.Add"%string) (VNum tint 20) pint (VNum tint 0);
            LTake 0; LProcess 0 500 0; LProcess 0 500 0; LDispatch 0; LDispatch 0].

Definition answer : list (label Z) := [LReceive 0; LProcess 0 500 0; LProcess 0 500 0].

Definition after (ls : list (label Z)) : system Z :=
  match run types ls (initial_system 5) with Some s => s | None => initial_system 5 end.

Definition runs_through (ls : list (label Z)) : bool :=
  match run types ls (initial_system 5) with Some s => negb (crashed s) | None => false end.

Lemma after_reachable ls : runs_through ls = true -> reachable (labrpc types 5) (after ls).
Proof.
  unfold runs_through, after. destruct (run types ls (initial_system 5)) as [s |] eqn:E; [| done].
  intros _. by eapply run_reachable.
Qed.

(** What the caller has got, and the handlers run for it. *)
Definition outcome_of (s : system Z) : option (caller_pc * value * list (value * value)) :=
  match calls s !! 0%nat with Some c => Some (caller c, reply c, runs 0 s) | None => None end.

Definition isSome {A} (o : option A) : bool := match o with Some _ => true | None => false end.

Definition call_of (s : system Z) : call Z :=
  match calls s !! 0%nat with Some c => c
  | None => MkCall (MkReq e [] tint []) pint (VNum tint 0) CSend PIdle DIdle false (VNum tint 0) (VNum tint 0) end.

Example call_answered :
  outcome_of (after (asked ++ answer)) = Some (CDone true, VNum tint 25, [(VNum tint 20, VNum tint 25)]).
Proof. vm_compute. reflexivity. Qed.

(** The server is deleted while its reply waits: the handler has run, and the
    call fails. *)
Example call_to_deleted_server :
  outcome_of (after (asked ++ [LAdmin (ADeleteServer sn)] ++ answer)) =
  Some (CDone false, VNum tint 0, [(VNum tint 20, VNum tint 25)]).
Proof. vm_compute. reflexivity. Qed.

(** A dropped request: the handler never runs. *)
Example request_dropped :
  outcome_of (after (setup ++ [LAdmin (AReliable false);
    LCall e (lit "Counter.Add"%string) (VNum tint 20) pint (VNum tint 0);
    LTake 0; LProcess 0 99 0; LProcess 0 99 0; LProcess 0 0 0])) = Some (CDone false, VNum tint 0, []).
Proof. vm_compute. reflexivity. Qed.

(** A method name without a dot panics, in the goroutine that dispatches. *)
Example no_dot : split_method (lit "Add"%string) = Panic.
Proof. reflexivity. Qed.

Example two_dots : split_method (lit "a.b.Add"%string) = Ok (lit "a.b"%string, lit "Add"%string).
Proof. reflexivity. Qed.

(** The count of a server that was deleted, or never added, is asked of a nil
    pointer. *)
Example GetCount_deleted rn (h : gmap pointer (Server Z)) : GetCount (DeleteServer rn sn) h sn = Panic.
Proof. unfold GetCount, server_at. simpl. by rewrite lookup_insert_eq. Qed.

(** Nothing keeps a client end from being connected again. *)
Example connected_twice rn : connection (Connect (Connect rn e (Some sn)) e (Some (IInt 1))) e = Some (IInt 1).
Proof. unfold connection. simpl. by rewrite lookup_insert_eq. Qed.

(** The facts about a run that the theorems are applied to. *)
Definition answered_run : system Z := after (asked ++ answer).
Definition asked_run : system Z := after asked.
Definition deleted_run : system Z := after (asked ++ [LAdmin (ADeleteServer sn)]).

Lemma call_of_lookup s : isSome (calls s !! 0%nat) = true -> calls s !! 0%nat = Some (call_of s).
Proof. unfold call_of. by destruct (calls s !! 0%nat). Qed.

Lemma Call_faithful_witness :
  reachable (labrpc types 5) answered_run /\ caller (call_of answered_run) = CDone true /\
  exists a v rt, runs 0 answered_run = [(a, v)] /\
     reply (call_of answered_run) =
       (gobDecode (gobEncode (VPtr rt (Some v))).1 (given_reply (call_of answered_run))).1 /\
     (travels types (given_args (call_of answered_run)) -> a = given_args (call_of answered_run)) /\
     (travels types v -> gobEncode (VPtr rt (Some v)) = gobEncode v ->
      given_reply (call_of answered_run) = Zero types (TypeOf v) -> reply (call_of answered_run) = v).
Proof.
  assert (Hr : reachable (labrpc types 5) answered_run) by (apply after_reachable; vm_compute; reflexivity).
  assert (Hc : calls answered_run !! 0%nat = Some (call_of answered_run)) by (apply call_of_lookup; vm_compute; reflexivity).
  assert (Hd : caller (call_of answered_run) = CDone true) by (vm_compute; reflexivity).
  pose proof (Call_faithful types 5 answered_run 0 (call_of answered_run) Hr Hc) as (_ & _ & Ht).
  split; [exact Hr |]. split; [exact Hd | exact (Ht Hd)].
Defined.

Lemma labrpc_refines_rpc_witness :
  reachable (labrpc types 5) answered_run /\ exists svcs, reachable (rpc_spec types 5) (abs svcs answered_run).
Proof.
  assert (Hr : reachable (labrpc types 5) answered_run) by (apply after_reachable; vm_compute; reflexivity).
  split; [exact Hr | exact (labrpc_refines_rpc types 5 answered_run Hr)].
Defined.

Lemma Call_returns_witness :
  reachable (labrpc types 5) asked_run /\ (work (call_of asked_run) <= 12)%nat /\
  exists l s', own_step 0 l /\ exec types l asked_run = Some s'.
Proof.
  assert (Hr : reachable (labrpc types 5) asked_run) by (apply after_reachable; vm_compute; reflexivity).
  assert (Hc : calls asked_run !! 0%nat = Some (call_of asked_run)) by (apply call_of_lookup; vm_compute; reflexivity).
  assert (Hcr : crashed asked_run = false) by (vm_compute; reflexivity).
  assert (Hw : caller (call_of asked_run) = CWait) by (vm_compute; reflexivity).
  assert (Hh : match disp (call_of asked_run) with DSend _ => True | _ => False end) by (vm_compute; exact I).
  pose proof (Call_returns types 5 asked_run 0 (call_of asked_run) Hr Hc Hcr) as (Hwork & _ & Hstep).
  split; [exact Hr |]. split; [exact Hwork |]. apply Hstep.
  - intros ok E. rewrite Hw in E. discriminate E.
  - unfold handler_returns. destruct (disp (call_of asked_run)); try exact I. destruct Hh.
Defined.

Definition is_wait (p : proc_pc) : option route := match p with PWait r => Some r | _ => None end.

Lemma deleted_server_never_answers_witness :
  exists s' c', run types answer deleted_run = Some s' /\ calls s' !! 0%nat = Some c' /\ caller c' <> CDone true.
Proof.
  assert (Hok : match run types answer deleted_run with
                | Some s' => isSome (calls s' !! 0%nat) | None => false end = true) by (vm_compute; reflexivity).
  destruct (run types answer deleted_run) as [s' |] eqn:Hrun; [| discriminate Hok].
  exists s', (call_of s'). apply call_of_lookup in Hok. split; [reflexivity |]. split; [exact Hok |].
  assert (Hc : calls deleted_run !! 0%nat = Some (call_of deleted_run)) by (apply call_of_lookup; vm_compute; reflexivity).
  refine (deleted_server_never_answers types answer deleted_run s' 0 (MkRoute sn 1%positive true false)
            (call_of deleted_run) (call_of s') Hc _ _ _ _ Hrun Hok).
  - vm_compute. reflexivity.
  - right. left. vm_compute. reflexivity.
  - vm_compute. discriminate.
  - unfold answer. intros [E | [E | [E | []]]]%list_elem_of_In; discriminate E.
Defined.
End LabrpcExamples.
