(* ===== verification/RaftRpc.v ===== *)
(** * Raft as a service of the simulated network

    The two calls of [lab3/raft/raft.go] over [lab3/labrpc/labrpc.go]: the Go
    values of their arguments and replies, the methods of a [*Raft] as [reflect]
    lists them, and the service [MakeService] makes of them.  The objects whose
    methods are called are the peers, by pointer. *)
From Stdlib Require Import String.
From S2P Require Import Prelude Strconv Effects Labgob LabgobSpec Labrpc Persister RaftServer.

Local Open Scope Z_scope.

(** ** Commands as [interface{}] values *)
Class CommandValue (Cmd : Type) := {
  of_command : Cmd -> value;
  to_command : value -> option Cmd;
  to_of_command c : to_command (of_command c) = Some c
}.

(** [*Raft]; what it points to is never encoded, nor looked at. *)
Definition tRaft : rtype := 40%positive.

#[export] Instance pointer_types : PointerTypes := RaftTypes.ptr.

Section rpc.
Context {Cmd : Type} `{GoRuntime Cmd} `{CommandValue Cmd}.

(** ** Messages as Go values *)
Definition of_int (z : Z) : value := VNum RaftTypes.tint z.
Definition of_bool (b : bool) : value := VBool RaftTypes.tbool b.

Definition of_interface (c : option Cmd) : value := VInterface RaftTypes.tinterface (of_command <$> c).
Definition of_element (e : LogElement Cmd) : value :=
  VStruct RaftTypes.LogElement [of_int (le_Term e); of_interface (le_Command e); of_int (le_Index e)].

Definition of_RequestVoteArgs (a : RequestVoteArgs) : value :=
  VStruct RaftTypes.RequestVoteArgs [of_int (rv_Term a); of_int (rv_IDcand a); of_int (rv_LastLogIdx a); of_int (rv_LastLogTerm a)].
Definition of_RequestVoteReply (r : RequestVoteReply) : value :=
  VStruct RaftTypes.RequestVoteReply [of_int (rvr_Term r); of_bool (rvr_VoteGranted r)].
Definition of_AppendEntriesArgs (a : AppendEntriesArgs Cmd) : value :=
  VStruct RaftTypes.AppendEntriesArgs [of_int (ae_Term a); of_int (ae_LeaderId a); of_int (ae_PrevLogIdx a); of_int (ae_PrevLogTerm a);
    VSeq RaftTypes.Log (of_element <$> ae_Entries a); of_int (ae_LeaderCommit a)].
Definition of_AppendEntriesResults (r : AppendEntriesResults) : value :=
  VStruct RaftTypes.AppendEntriesResults [of_int (aer_Term r); of_bool (aer_Success r); of_int (aer_NextTryIdx r)].

(** A pointer to a message. *)
Definition pointer_to (v : value) : value := VPtr (RaftTypes.ptr (TypeOf v)) (Some v).

(** What a method reads of its arguments; a value of another type does not
    reach it. *)
Definition to_interface (v : value) : option (option Cmd) :=
  match v with
  | VInterface _ None => Some None
  | VInterface _ (Some v) => c ← to_command v; Some (Some c)
  | _ => None
  end.

Definition to_element (v : value) : option (LogElement Cmd) :=
  match v with
  | VStruct _ [VNum _ term; c; VNum _ index] => c ← to_interface c; Some (MkLogElement term c index)
  | _ => None
  end.

Definition to_RequestVoteArgs (v : value) : option RequestVoteArgs :=
  match v with
  | VPtr _ (Some (VStruct _ [VNum _ t; VNum _ id; VNum _ i; VNum _ lt])) => Some (MkRequestVoteArgs t id i lt)
  | _ => None
  end.
Definition to_RequestVoteReply (v : value) : option RequestVoteReply :=
  match v with
  | VStruct _ [VNum _ t; VBool _ g] => Some (MkRequestVoteReply t g)
  | _ => None
  end.
Definition to_AppendEntriesArgs (v : value) : option (AppendEntriesArgs Cmd) :=
  match v with
  | VPtr _ (Some (VStruct _ [VNum _ t; VNum _ id; VNum _ pi; VNum _ pt; VSeq _ es; VNum _ c])) =>
      es ← mapM to_element es; Some (MkAppendEntriesArgs t id pi pt es c)
  | _ => None
  end.
Definition to_AppendEntriesResults (v : value) : option AppendEntriesResults :=
  match v with
  | VStruct _ [VNum _ t; VBool _ s; VNum _ n] => Some (MkAppendEntriesResults t s n)
  | _ => None
  end.

(** ** The methods of a peer *)

(** The peers, by pointer. *)
Definition World : Type := gmap pointer (Raft Cmd).

(** A method with a pointer to its arguments and one to its reply: a nil or
    ill-typed argument panics. *)
Definition handler {A R} (read : value -> option A) (read_reply : value -> option R) (write : R -> value)
    (f : Raft Cmd -> A -> R -> outcome (Raft Cmd * R)) (p : pointer) (a r : value) : st World value := fun w =>
  match w !! p, read a, read_reply r with
  | Some rf, Some args, Some reply =>
      '(rf, reply) ← f rf args reply; Ok (write reply, <[p := rf]> w)
  | _, _, _ => Panic
  end.

(** A method of another shape, which [reflect] cannot call with two arguments. *)
Definition uncallable (a r : value) : st World value := fun _ => Panic.

Definition RequestVote_method (p : pointer) : rmethod World :=
  MkMethod [] [tRaft; RaftTypes.ptr RaftTypes.RequestVoteArgs; RaftTypes.ptr RaftTypes.RequestVoteReply] 0
    (handler to_RequestVoteArgs to_RequestVoteReply of_RequestVoteReply RequestVote p).
Definition AppendEntries_method (p : pointer) : rmethod World :=
  MkMethod [] [tRaft; RaftTypes.ptr RaftTypes.AppendEntriesArgs; RaftTypes.ptr RaftTypes.AppendEntriesResults] 0
    (handler to_AppendEntriesArgs to_AppendEntriesResults of_AppendEntriesResults AppendEntries p).

(** The exported methods of [*Raft], by name. *)
Definition raft_methods (p : pointer) : list (bytes * rmethod World) := [
  (lit "AppendEntries", AppendEntries_method p);
  (lit "GetState", MkMethod [] [tRaft] 2 uncallable);
  (lit "Kill", MkMethod [] [tRaft] 0 uncallable);
  (lit "RequestVote", RequestVote_method p);
  (lit "Start", MkMethod [] [tRaft; RaftTypes.tinterface] 3 uncallable)].

(** [labrpc.MakeService(rf)]. *)
Definition raft_service (p : pointer) : Service World := MakeService RaftTypes.types (lit "Raft") (raft_methods p).

(** Exactly the two handlers are served. *)
Lemma raft_service_methods p :
  methods (raft_service p) = <[lit "RequestVote" := RequestVote_method p]> {[ lit "AppendEntries" := AppendEntries_method p ]}.
Proof. reflexivity. Qed.

(** ** Reading what was written *)
Lemma to_of_interface c : to_interface (of_interface c) = Some c.
Proof. destruct c as [c |]; simpl; [by rewrite to_of_command | done]. Qed.

Lemma to_of_element e : to_element (of_element e) = Some e.
Proof. destruct e. unfold to_element, of_element, of_int. by rewrite to_of_interface. Qed.

Lemma to_of_entries es : mapM to_element (of_element <$> es) = Some es.
Proof. apply mapM_Some, Forall2_fmap_l, Forall_Forall2_diag, Forall_true. apply to_of_element. Qed.

Lemma to_of_RequestVoteArgs a : to_RequestVoteArgs (pointer_to (of_RequestVoteArgs a)) = Some a.
Proof. by destruct a. Qed.
Lemma to_of_RequestVoteReply r : to_RequestVoteReply (of_RequestVoteReply r) = Some r.
Proof. by destruct r. Qed.
Lemma to_of_AppendEntriesArgs a : to_AppendEntriesArgs (pointer_to (of_AppendEntriesArgs a)) = Some a.
Proof. destruct a. unfold to_AppendEntriesArgs, of_AppendEntriesArgs, of_int. simpl. by rewrite to_of_entries. Qed.
Lemma to_of_AppendEntriesResults r : to_AppendEntriesResults (of_AppendEntriesResults r) = Some r.
Proof. by destruct r. Qed.
End rpc.
#[export] Hint Rewrite @to_of_RequestVoteArgs @to_of_RequestVoteReply @to_of_AppendEntriesArgs
  @to_of_AppendEntriesResults : go.
