(* ===== verification/RaftRpcSpec.v ===== *)
(** * Raft's calls over the simulated network

    What [Call("Raft.RequestVote", args, reply)] and its like mean for the peers:
    the refinement of [LabrpcRefine] at the services of [RaftRpc]. *)
From Stdlib Require Import String.
From S2P Require Import Prelude Strconv Effects Labgob LabgobSpec Labrpc LabrpcSystem LabrpcSpec LabrpcRefine Persister RaftServer RaftRpc.

Local Open Scope Z_scope.

Section raft.
Context {Cmd : Type} `{GoRuntime Cmd} `{CommandValue Cmd} `{UnicodeTable} `{Gob}.
Abbreviation World := (World (Cmd := Cmd)).
Abbreviation types := RaftTypes.types.
Implicit Types (s : system World) (t : spec (World := World)).

(** A step that adds no service but those of peers. *)
Definition raft_only (l : label World) : Prop :=
  match l with LAdmin (AAddService _ svc) => exists p, svc = raft_service p | _ => True end.

(** A peer also runs critical sections of its own, of which nothing is assumed. *)
Definition set_world (w : World) s : system World := MkSystem (net s) (heap s) w (gob s) (calls s) (executed s) (crashed s).
Definition own_step s s' : Prop := exists p rf rf', world s !! p = Some rf /\ s' = set_world (<[p := rf']> (world s)) s.

(** The network as the harness uses it. *)
Definition raft_network (w : World) : lts (system World) :=
  Lts (fun s => s = initial_system w) (fun s s' => (exists l, raft_only l /\ exec types l s = Some s') \/ own_step s s').

(** In the execution that has led from [w] to [s], the goroutine that dispatches
    call [i] has run a handler: when it had found peer [p] to be the service, it ran
    [f] on the state [rf] the peer was in, and left the peer in state [rf']. *)
Inductive ran_handler {A R} (f : Raft Cmd -> A -> R -> outcome (Raft Cmd * R)) (w : World) s (i : nat) (args : A) (reply reply' : R) : Prop :=
  | RanHandler s1 s2 c p m rf rf' :
      reachable (raft_network w) s1 -> calls s1 !! i = Some c -> disp c = DCall (raft_service p) m ->
      world s1 !! p = Some rf -> f rf args reply = Ok (rf', reply') ->
      exec types (LDispatch i) s1 = Some s2 -> world s2 = <[p := rf']> (world s1) ->
      rtc (lts_step (raft_network w)) s2 s -> ran_handler f w s i args reply reply'.

Lemma ran_handler_later {A R} (f : Raft Cmd -> A -> R -> outcome (Raft Cmd * R)) w s s' i args reply reply' :
  lts_step (raft_network w) s s' -> ran_handler f w s i args reply reply' -> ran_handler f w s' i args reply reply'.
Proof. intros Hst []. eapply RanHandler; try done. by eapply rtc_r. Qed.

Definition zero_vote : RequestVoteReply := MkRequestVoteReply 0 false.
Definition zero_append : AppendEntriesResults := MkAppendEntriesResults 0 false 0.

(** The values a handler was run on, and the reply it left, by method. *)
Definition handled w s (i : nat) (sm : bytes) (a v : value) : Prop :=
  (sm = lit "Raft.RequestVote" -> exists args reply, to_RequestVoteArgs a = Some args /\ v = of_RequestVoteReply reply /\
     ran_handler RequestVote w s i args zero_vote reply) /\
  (sm = lit "Raft.AppendEntries" -> exists args reply, to_AppendEntriesArgs a = Some args /\ v = of_AppendEntriesResults reply /\
     ran_handler AppendEntries w s i args zero_append reply).

Lemma handled_later w s s' i sm a v : lts_step (raft_network w) s s' -> handled w s i sm a v -> handled w s' i sm a v.
Proof.
  intros Hst [Hv Ha]. split; intros E; [destruct (Hv E) as (args & reply & ? & ? & ?) | destruct (Ha E) as (args & reply & ? & ? & ?)];
    exists args, reply; split_and!; try done; by eapply ran_handler_later.
Qed.

(** What is true of the specification when only peers are served; [h] is what is
    known of the handlers that have run. *)
Record raft_ok (h : nat -> bytes -> value -> value -> Prop) t : Prop := {
  rk_provided : forall svc, svc ∈ provided t -> exists p, svc = raft_service p;
  rk_ran : forall i c a v, rpcs t !! i = Some c -> ran c = Some (a, v) -> a = arrives types (rpc_args c) /\ h i (rpc_method c) a v;
  rk_returned : forall i c x, rpcs t !! i = Some c -> returned c = Some (true, x) ->
    exists a v rt, ran c = Some (a, v) /\ x = replied rt v (rpc_reply c)
}.

Lemma raft_ok_mono (h h' : nat -> bytes -> value -> value -> Prop) t t' :
  (forall i sm a v, h i sm a v -> h' i sm a v) -> provided t' = provided t -> rpcs t' = rpcs t -> raft_ok h t -> raft_ok h' t'.
Proof.
  intros Hh Ep Er [Kp Kr Kt]. split; rewrite ?Ep, ?Er; [done | | done].
  intros i c a v Hi Hc. destruct (Kr i c a v Hi Hc). auto.
Qed.

(** Running a handler of a peer, through the pointer to it. *)
Lemma handler_runs {A R} (read : value -> option A) (read_reply : value -> option R) write f p a r (w : World) v w' :
  handler read read_reply write f p a r w = Ok (v, w') ->
  exists args reply reply' rf rf', read a = Some args /\ read_reply r = Some reply /\ v = write reply' /\
    w !! p = Some rf /\ f rf args reply = Ok (rf', reply') /\ w' = <[p := rf']> w.
Proof.
  unfold handler. destruct (w !! p) as [rf |] eqn:Ep; [| done]. destruct (read a) as [args |]; [| done].
  destruct (read_reply r) as [reply |]; [| done]. intros Hf. apply bind_inv in Hf as ([rf' reply'] & Hf & [= <- <-]).
  by exists args, reply, reply', rf, rf'.
Qed.

(** A step that runs something is one of a call's dispatching goroutine. *)
Definition dispatched (l : label World) s s' (i : nat) (a v : value) : Prop :=
  exists c svc m method, l = LDispatch i /\ calls s !! i = Some c /\ disp c = DCall svc m /\ executed s' = executed s ++ [(i, (a, v))] /\
    methods svc !! m = Some method /\
    Func method a (Zero types (elem_type types (match In method !! 2%nat with Some rt => rt | None => 1%positive end))) (world s) = Ok (v, world s').

Lemma exec_executed (l : label World) s s' :
  exec types l s = Some s' -> executed s' = executed s \/ exists i a v, dispatched l s s' i a v.
Proof.
  intros E. unfold exec, on_call in E. destruct (crashed s); [done |].
  destruct l as [ad | e sm a rt r | i | i | | i k m | i | i | i]; simpl in E;
    try (destruct (calls s !! i) as [c |] eqn:Ei; [| done]).
  - left. destruct ad; simpl in E; try (by injection E as <-);
      try (destruct (heap s !! _); try done; by injection E as <-); by apply or_crash_inv in E as [(? & _ & ->) | (_ & ->)].
  - left. case_decide; [| done]. apply or_crash_inv in E as [([[b ok] g] & _ & ->) | (_ & ->)]; [by destruct ok | done].
  - left. destruct (caller c); try done. branch; [| done]. by injection E as <-.
  - left. destruct (caller c); try done. branch; [| done]. by injection E as <-.
  - left. branch; [| done]. by injection E as <-.
  - left. unfold processReq, Call_finish in E. repeat (branch || case_match); simplify_eq; try done.
    apply or_crash_inv in E as [([[b ok] g] & _ & ->) | (_ & ->)]; [by destruct ok | done].
  - left. unfold receive_reply in E. repeat (branch || case_match); simplify_eq; done.
  - left. unfold tick in E. repeat (branch || case_match); simplify_eq; done.
  - unfold dispatch in E. destruct (disp c) as [| sv | svc m | rep |] eqn:Ed; try discriminate.
    + left. destruct (heap s !! sv); [| done]. by apply or_crash_inv in E as [([rs' [svc m]] & _ & ->) | (_ & ->)].
    + apply or_crash_inv in E as [([[rep run] [w g]] & E & ->) | (_ & ->)]; [right | by left].
      apply Service_dispatch_runs in E as (method & v & Hm & -> & HF). do 3 eexists. by exists c, svc, m, method.
Qed.

Lemma dispatched_handled w svcs l s s' i a v c :
  reachable (raft_network w) s -> exec types l s = Some s' -> known svcs s -> (forall svc, svc ∈ svcs -> exists p, svc = raft_service p) ->
  dispatched l s s' i a v -> calls s !! i = Some c -> handled w s' i (svcMeth (req c)) a v.
Proof.
  intros Hs E K Hp (c' & svc & m & method & -> & Hi & Hd & _ & Hm & HF) Hi'. assert (c' = c) by congruence. subst c'.
  destruct (known_call _ _ K _ _ _ _ Hi Hd) as [Hin Hsplit]. destruct (Hp svc Hin) as [p ->].
  rewrite raft_service_methods in Hm. split; intros Esm; rewrite Esm in Hsplit.
  - assert (m = lit "RequestVote") as -> by (vm_compute in Hsplit; injection Hsplit as <-; reflexivity).
    rewrite lookup_insert_eq in Hm. injection Hm as <-. apply handler_runs in HF as (args & reply & reply' & rf & rf' & Ha & Hr & -> & Hrf & Hf & Hw).
    assert (reply = zero_vote) as -> by (vm_compute in Hr; injection Hr as <-; reflexivity). exists args, reply'.
    split_and!; try done. by eapply RanHandler; [| | | | | | | apply rtc_refl].
  - assert (m = lit "AppendEntries") as -> by (vm_compute in Hsplit; injection Hsplit as <-; reflexivity).
    rewrite lookup_insert_ne, lookup_singleton_eq in Hm by (vm_compute; discriminate).
    injection Hm as <-. apply handler_runs in HF as (args & reply & reply' & rf & rf' & Ha & Hr & -> & Hrf & Hf & Hw).
    assert (reply = zero_append) as -> by (vm_compute in Hr; injection Hr as <-; reflexivity). exists args, reply'.
    split_and!; try done. by eapply RanHandler; [| | | | | | | apply rtc_refl].
Qed.

Lemma raft_ok_step (h h' : nat -> bytes -> value -> value -> Prop) t t' :
  raft_ok h t -> spec_step types t t' -> (forall svc, svc ∈ provided t' -> exists p, svc = raft_service p) ->
  (forall i sm a v, h i sm a v -> h' i sm a v) ->
  (forall i c c' a v, rpcs t !! i = Some c -> ran c = None -> rpcs t' !! i = Some c' -> ran c' = Some (a, v) -> h' i (rpc_method c) a v) ->
  raft_ok h' t'.
Proof.
  intros [Kp Kr Kt] Hst Hp Hh Hnew.
  assert (Kr' : forall i c a v, rpcs t !! i = Some c -> ran c = Some (a, v) -> a = arrives types (rpc_args c) /\ h' i (rpc_method c) a v).
  { intros i c a v Hi Hc. destruct (Kr i c a v Hi Hc). auto. }
  split; [done | |].
  - intros i c a v Hi Hc. destruct Hst as [svc | sm a0 r | i0 sm a0 r ret svc m method v0 w0 Hi0 Hin Hsplit Hm HF | i0 sm a0 r a1 v0 rt Hi0 | i0 sm a0 r x Hi0]; simpl in *.
    + by eapply Kr'.
    + apply lookup_app_Some in Hi as [Hi | [_ Hi]]; [by eapply Kr' |]. by apply list_lookup_singleton_Some in Hi as [_ <-].
    + apply list_lookup_insert_Some in Hi as [(-> & <- & _) | (_ & Hi)]; [| by eapply Kr']. injection Hc as <- <-. split; [done |]. simpl.
      eapply (Hnew _ (MkRpc _ _ _ None _)); [exact Hi0 | done | apply list_lookup_insert_eq; by eapply lookup_lt_Some | done].
    + apply list_lookup_insert_Some in Hi as [(-> & <- & _) | (_ & Hi)]; [| by eapply Kr']. by apply (Kr' _ _ _ _ Hi0).
    + apply list_lookup_insert_Some in Hi as [(-> & <- & _) | (_ & Hi)]; [| by eapply Kr']. by apply (Kr' _ _ _ _ Hi0).
  - intros i c x Hi Hc. destruct Hst as [svc | sm a0 r | i0 sm a0 r ret svc m method v0 w0 Hi0 Hin Hsplit Hm HF | i0 sm a0 r a1 v0 rt Hi0 | i0 sm a0 r y Hi0]; simpl in *.
    + by eapply Kt.
    + apply lookup_app_Some in Hi as [Hi | [_ Hi]]; [by eapply Kt |]. by apply list_lookup_singleton_Some in Hi as [_ <-].
    + apply list_lookup_insert_Some in Hi as [(-> & <- & _) | (_ & Hi)]; [| by eapply Kt]. destruct (Kt _ _ _ Hi0 Hc) as (a' & v' & rt & Hran & _). done.
    + apply list_lookup_insert_Some in Hi as [(-> & <- & _) | (_ & Hi)]; [| by eapply Kt]. simpl in *.
      injection Hc as <-. by exists a1, v0, rt.
    + by apply list_lookup_insert_Some in Hi as [(-> & <- & _) | (_ & Hi)]; [| by eapply Kt].
Qed.

Lemma known_initial (w : World) : known [] (initial_system w).
Proof.
  split.
  - intros sv rs name svc Hsv. change ((∅ : gmap pointer (Server World)) !! sv = Some rs) in Hsv. by apply lookup_empty_Some in Hsv.
  - intros i c svc m Hi. change (([] : list (call World)) !! i = Some c) in Hi. by rewrite lookup_nil in Hi.
Qed.

(** The invariant, with what a step adds. *)
Lemma exec_raft_ok w svcs l s s' :
  reachable (raft_network w) s -> system_ok types s -> known svcs s -> raft_ok (handled w s) (abs svcs s) ->
  raft_only l -> exec types l s = Some s' -> raft_ok (handled w s') (abs (served svcs l) s').
Proof.
  intros Hs Hok K Hr Hl E. assert (Hst : lts_step (raft_network w) s s') by (left; by exists l).
  destruct (exec_simulated types svcs l s s' K Hok E) as (K' & Ha).
  assert (Hp : forall svc, svc ∈ served svcs l -> exists p, svc = raft_service p).
  { intros svc Hin. destruct l as [a | | | | | | | |]; try by apply (rk_provided _ _ Hr).
    destruct a; try by apply (rk_provided _ _ Hr).
    apply elem_of_cons in Hin as [-> | Hin]; [done | by apply (rk_provided _ _ Hr)]. }
  assert (Hlater : forall i sm a v, handled w s i sm a v -> handled w s' i sm a v) by (intros; by eapply handled_later).
  destruct Ha as [Ea | Hspec].
  { rewrite Ea. by eapply (raft_ok_mono (handled w s)). }
  eapply raft_ok_step; [exact Hr | exact Hspec | exact Hp | exact Hlater |].
  intros i c c' a v Hi Hn Hi' Hran. rewrite abs_lookup in Hi, Hi'.
  destruct (calls s !! i) as [d |] eqn:Ed; [| done]. destruct (calls s' !! i) as [d' |]; [| done]. simplify_eq/=.
  unfold runs in Hn, Hran. destruct (exec_executed l s s' E) as [Ee | (k & a' & v' & Hd)]; [rewrite Ee in Hran; congruence |].
  pose proof Hd as (_ & _ & _ & _ & _ & _ & _ & Ee & _). rewrite Ee in Hran. fold (runs i s) in Hn. rewrite runs_app in Hran.
  destruct (runs i s); [| done]. simpl in Hran. case_decide; [| done]. subst k. simpl in Hran. simplify_eq.
  eapply dispatched_handled; [exact Hs | exact E | exact K | apply (rk_provided _ _ Hr) | exact Hd | exact Ed].
Qed.

Lemma reachable_raft_ok w s : reachable (raft_network w) s -> exists svcs, raft_ok (handled w s) (abs svcs s).
Proof.
  intros Hs. cut (reachable (raft_network w) s /\ system_ok types s /\ exists svcs, known svcs s /\ raft_ok (handled w s) (abs svcs s)).
  { intros (_ & _ & svcs & _ & Hr). by exists svcs. }
  revert s Hs. apply (invariant_ind (raft_network w)).
  - intros s0 Hs0. simpl in Hs0. subst s0. split; [by apply reachable_init |].
    split; [apply (reachable_ok types w), reachable_init; done |]. exists [].
    split; [apply known_initial |]. split; [intros svc Hin; by apply elem_of_nil in Hin | |].
    + intros i c a v Hi. change (([] : list rpc) !! i = Some c) in Hi. by rewrite lookup_nil in Hi.
    + intros i c x Hi. change (([] : list rpc) !! i = Some c) in Hi. by rewrite lookup_nil in Hi.
  - intros s1 s2 (Hr1 & Hok & svcs & K & Hr) Hst. split; [by eapply reachable_step |].
    destruct Hst as [(l & Hl & E) | Hown].
    + split; [by eapply exec_ok |]. exists (served svcs l). split; [by eapply exec_simulated | by eapply exec_raft_ok].
    + assert (Hst : lts_step (raft_network w) s1 s2) by by right. destruct Hown as (p & rf & rf' & _ & ->).
      split; [by apply (same_calls_ok types s1) |]. exists svcs. split; [by eapply known_same |].
      apply (raft_ok_mono (handled w s1) _ (abs svcs s1)); [intros; by eapply handled_later | done | done | done].
Qed.

(** C20: Raft's calls.  When the servers of the network serve peers only, and
    whatever the peers do besides, a call of [Raft.RequestVote] or
    [Raft.AppendEntries] that returns true has run that handler: in some step of the
    execution its dispatching goroutine ran it on the peer whose service it had
    found, in the state that peer was in, on the arguments given to the call and a
    zero reply, and put the peer in the state the handler left.  The call's reply
    argument holds what the handler answered, as far as gob carries it; the arguments
    must be ones that gob carries faithfully. *)
Theorem raft_calls_run_handlers w s i c :
  reachable (raft_network w) s -> calls s !! i = Some c -> caller c = CDone true -> travels types (given_args c) ->
  (forall args, svcMeth (req c) = lit "Raft.RequestVote" -> given_args c = pointer_to (of_RequestVoteArgs args) ->
     exists answer rt, ran_handler RequestVote w s i args zero_vote answer /\
       reply c = replied rt (of_RequestVoteReply answer) (given_reply c)) /\
  (forall args, svcMeth (req c) = lit "Raft.AppendEntries" -> given_args c = pointer_to (of_AppendEntriesArgs args) ->
     exists answer rt, ran_handler AppendEntries w s i args zero_append answer /\
       reply c = replied rt (of_AppendEntriesResults answer) (given_reply c)).
Proof.
  intros Hs Hi Hc Htr. destruct (reachable_raft_ok w s Hs) as [svcs Hok].
  assert (Habs : rpcs (abs svcs s) !! i = Some (abs_call s i c)) by by rewrite abs_lookup, Hi.
  destruct (rk_returned _ _ Hok i _ (reply c) Habs) as (a & v & rt & Hran & Hrep); [unfold abs_call; simpl; by rewrite Hc |].
  destruct (rk_ran _ _ Hok i _ a v Habs Hran) as (-> & Hv & Ha). simpl in *.
  assert (Harr : arrives types (given_args c) = given_args c) by (unfold arrives; by rewrite Htr).
  rewrite Harr in *. split; intros args Hm Hg; rewrite Hg in *.
  - destruct (Hv Hm) as (args' & answer & Hread & -> & Hr). rewrite to_of_RequestVoteArgs in Hread. injection Hread as <-.
    by exists answer, rt.
  - destruct (Ha Hm) as (args' & answer & Hread & -> & Hr). rewrite to_of_AppendEntriesArgs in Hread. injection Hread as <-.
    by exists answer, rt.
Qed.
End raft.

(** ** A vote over the network *)
Module RaftRpcExamples.
#[local] Instance all_registered : GoRuntime nat := {| registered := fun _ => true; newcap := fun cap _ => (2 * cap)%nat |}.
#[local] Instance ascii : UnicodeTable := fun _ => false.

Definition number_of (v : value) : option nat := match v with VNum _ z => Some (Z.to_nat z) | _ => None end.

#[local] Instance number_commands : CommandValue nat :=
  {| of_command c := VNum 1%positive (Z.of_nat c); to_command := number_of; to_of_command c := f_equal Some (Nat2Z.id c) |}.

(** An encoding of the messages of an election. *)
Definition encode_vote (v : value) : bytes * bool :=
  match v with
  | VPtr _ (Some (VStruct _ [VNum _ a; VNum _ b; VNum _ c; VNum _ d])) => ([6; a; b; c; d], true)
  | VPtr _ (Some (VStruct _ [VNum _ t; VBool _ g])) => ([7; t; if g then 1 else 0], true)
  | _ => ([], false)
  end.

Definition decode_vote (b : bytes) (old : value) : value * bool :=
  match b with
  | [6; a; b; c; d] => (pointer_to (of_RequestVoteArgs (MkRequestVoteArgs a b c d)), true)
  | [7; t; g] => (of_RequestVoteReply (MkRequestVoteReply t (g =? 1)), true)
  | _ => (old, false)
  end.

#[local] Instance vote_gob : Gob := {| gobEncode := encode_vote; gobDecode := decode_vote |}.

Definition e : iface := IString (lit "end").
Definition ballot : RequestVoteArgs := MkRequestVoteArgs 1 0 0 0.
Definition voters : World (Cmd := nat) := {[ 1%positive := Make 3 1 MakePersister ]}.

Definition steps : list (label (World (Cmd := nat))) :=
  (LAdmin <$> [AMakeServer 1%positive; AAddService 1%positive (raft_service 1%positive); AMakeEnd e;
               AAddServer (IInt 1) 1%positive; AConnect e (Some (IInt 1)); AEnable e true]) ++
  [LCall e (lit "Raft.RequestVote") (pointer_to (of_RequestVoteArgs ballot)) (RaftTypes.ptr RaftTypes.RequestVoteReply)
     (of_RequestVoteReply zero_vote);
   LTake 0; LProcess 0 500 0; LProcess 0 500 0; LDispatch 0; LDispatch 0; LReceive 0; LProcess 0 500 0; LProcess 0 500 0].

Definition no_call : call (World (Cmd := nat)) :=
  MkCall (MkReq e [] 1%positive []) 1%positive (VNum 1%positive 0) CSend PIdle DIdle false (VNum 1%positive 0) (VNum 1%positive 0).

Definition voted : system (World (Cmd := nat)) :=
  match run RaftTypes.types steps (initial_system voters) with Some s => s | None => initial_system voters end.
Definition vote_call : call (World (Cmd := nat)) := default no_call (calls voted !! 0%nat).

(** The vote is granted, and the voter remembers it. *)
Example vote_granted :
  caller vote_call = CDone true /\ reply vote_call = of_RequestVoteReply (MkRequestVoteReply 1 true) /\
  (votedFor <$> world voted !! 1%positive) = Some 0.
Proof. vm_compute. split_and!; reflexivity. Qed.

Lemma run_raft_network (w : World (Cmd := nat)) ls s0 s :
  Forall raft_only ls -> reachable (raft_network w) s0 -> run RaftTypes.types ls s0 = Some s -> reachable (raft_network w) s.
Proof.
  revert s0. induction ls as [| l ls IH]; intros s0 Hls Hr E; simpl in E; [congruence |].
  apply Forall_cons in Hls as [Hl Hls]. apply bind_Some in E as (s1 & E1 & E). apply (IH s1); [done | | done].
  eapply reachable_step; [exact Hr | left; by exists l].
Qed.

Definition is_some {A} (o : option A) : bool := match o with Some _ => true | None => false end.

Lemma raft_calls_run_handlers_witness :
  reachable (raft_network voters) voted /\
  exists answer rt, ran_handler (Cmd := nat) RequestVote voters voted 0 ballot zero_vote answer /\
    reply vote_call = replied rt (of_RequestVoteReply answer) (given_reply vote_call).
Proof.
  assert (Hok : is_some (run RaftTypes.types steps (initial_system voters)) = true) by (vm_compute; reflexivity).
  assert (Hr : reachable (raft_network voters) voted).
  { unfold voted. destruct (run RaftTypes.types steps (initial_system voters)) as [s |] eqn:E; [| discriminate Hok].
    apply (run_raft_network voters steps (initial_system voters)); [| by apply reachable_init | exact E].
    repeat (apply Forall_cons; split; [first [exact I | by exists 1%positive] |]). constructor. }
  assert (Hc : calls voted !! 0%nat = Some vote_call).
  { unfold vote_call. destruct (calls voted !! 0%nat) eqn:E; [reflexivity |].
    assert (Hn : is_some (calls voted !! 0%nat) = true) by (vm_compute; reflexivity). rewrite E in Hn. discriminate Hn. }
  assert (Hd : caller vote_call = CDone true) by (vm_compute; reflexivity).
  assert (Ht : travels RaftTypes.types (given_args vote_call)) by (vm_compute; reflexivity).
  split; [exact Hr |].
  refine (proj1 (raft_calls_run_handlers voters voted 0 vote_call Hr Hc Hd Ht) ballot _ _); vm_compute; reflexivity.
Defined.
End RaftRpcExamples.
