(* ===== verification/Config.v ===== *)
(** * The Raft test harness: [lab3/raft/config.go]

    The harness starts, crashes and connects peers over the simulated network,
    and checks from outside that they agree.  Its state is the Go [config];
    [host] is what it shares with the rest of the process: the servers and the
    peers, by pointer, the goroutines that read the apply channels, the clock and
    the random sources.  Everything else runs while the test waits for a lock or
    sleeps: [others] of the class [Rest] says what it does there. *)
From Stdlib Require Import String.
From S2P Require Import Prelude Strconv Effects Labgob Labrpc Base64 Persister RaftServer RaftRpc.

Local Open Scope Z_scope.

(** ** State *)
Section state.
Context {Cmd E : Type}.

(** A [*Persister]: an object of its own, or the one a peer persists to. *)
Inductive persister_ptr := Own (ps : Persister (gob_message Cmd)) | Inside (rf : pointer).

(** [None] stands for a nil pointer, slice or map. *)
Record config := MkConfig {
  net : Network;
  n : nat;
  rafts : list (option pointer);
  applyErr : list bytes;
  connected : list bool;
  saved : list (option persister_ptr);
  endnames : list (option (list bytes));
  logs : list (option (gmap Z (option Cmd)));
  start : Z;
  t0 : Z; rpcs0 : Z; cmds0 : Z; bytes0 : Z;
  maxIndex : Z; maxIndex0 : Z
}.

Record host := MkHost {
  servers_heap : gmap pointer (Server (World (Cmd := Cmd)));
  rafts_heap : World (Cmd := Cmd);
  peers_of : gmap pointer (list bytes);   (* the ends each peer was made with *)
  appliers_of : list (Z * pointer);   (* go applier(i, applyCh) *)
  now : Z;   (* nanoseconds *)
  math_rand : rng;
  crypto_rand : rng;
  test_failed : bool;   (* t.Failed() *)
  env : E   (* the rest of the process *)
}.

Record harness := MkHarness { cfg : config; hst : host }.
End state.
Arguments persister_ptr : clear implicits.
Arguments config : clear implicits.
Arguments host : clear implicits.
Arguments harness : clear implicits.

(** ** The test goroutine

    It goes on; or [t.Fatalf] ends it with a message, here the format without its
    arguments, and the test has failed; or the process ends, by a panic or
    [log.Fatalf]; or it goes on forever. *)
Section verdict.
Context {S : Type}.

Inductive verdict (A : Type) := Done (a : A) (s : S) | Failed (message : string) (s : S) | Died | Forever.

Definition tst (A : Type) : Type := S -> verdict A.
End verdict.
Arguments Done {S A} a s.
Arguments Failed {S A} message s.
Arguments Died {S A}.
Arguments Forever {S A}.
Arguments verdict : clear implicits.
Arguments tst : clear implicits.

#[export] Instance tst_ret {S} : MRet (tst S) := fun A a s => Done a s.
#[export] Instance tst_bind {S} : MBind (tst S) := fun A B f m s =>
  match m s with Done a s => f a s | Failed m s => Failed m s | Died => Died | Forever => Forever end.

Definition get {S A} (f : S -> A) : tst S A := fun s => Done (f s) s.
Definition put {S} (f : S -> S) : tst S unit := fun s => Done tt (f s).
Definition go {S A} (m : outcome A) : tst S A := fun s =>
  match m with Ok a => Done a s | Panic => Died | Block => Forever end.

(** [for i := 0; i < n; i++], over the values of [i]. *)
Fixpoint for_each {S} (js : list Z) (body : Z -> tst S unit) : tst S unit :=
  match js with [] => mret tt | i :: js => body i ;; for_each js body end.

Definition below (n : nat) : list Z := Z.of_nat <$> seq 0 n.

(** ** Setters *)
Section setters.
Context {Cmd E : Type}.
Implicit Types c : config Cmd.
Implicit Types h : host Cmd E.
Implicit Types s : harness Cmd E.

Definition set_cfg_net v c := MkConfig v (n c) (rafts c) (applyErr c) (connected c) (saved c) (endnames c) (logs c) (start c) (t0 c) (rpcs0 c) (cmds0 c) (bytes0 c) (maxIndex c) (maxIndex0 c).
Definition set_rafts v c := MkConfig (net c) (n c) v (applyErr c) (connected c) (saved c) (endnames c) (logs c) (start c) (t0 c) (rpcs0 c) (cmds0 c) (bytes0 c) (maxIndex c) (maxIndex0 c).
Definition set_connected v c := MkConfig (net c) (n c) (rafts c) (applyErr c) v (saved c) (endnames c) (logs c) (start c) (t0 c) (rpcs0 c) (cmds0 c) (bytes0 c) (maxIndex c) (maxIndex0 c).
Definition set_saved v c := MkConfig (net c) (n c) (rafts c) (applyErr c) (connected c) v (endnames c) (logs c) (start c) (t0 c) (rpcs0 c) (cmds0 c) (bytes0 c) (maxIndex c) (maxIndex0 c).
Definition set_endnames v c := MkConfig (net c) (n c) (rafts c) (applyErr c) (connected c) (saved c) v (logs c) (start c) (t0 c) (rpcs0 c) (cmds0 c) (bytes0 c) (maxIndex c) (maxIndex0 c).
Definition set_logs v c := MkConfig (net c) (n c) (rafts c) (applyErr c) (connected c) (saved c) (endnames c) v (start c) (t0 c) (rpcs0 c) (cmds0 c) (bytes0 c) (maxIndex c) (maxIndex0 c).
Definition set_maxIndex v c := MkConfig (net c) (n c) (rafts c) (applyErr c) (connected c) (saved c) (endnames c) (logs c) (start c) (t0 c) (rpcs0 c) (cmds0 c) (bytes0 c) v (maxIndex0 c).
(** The statistics [begin] starts. *)
Definition set_stats t r k b m c := MkConfig (net c) (n c) (rafts c) (applyErr c) (connected c) (saved c) (endnames c) (logs c) (start c) t r k b (maxIndex c) m.

Definition set_servers_heap v h := MkHost v (rafts_heap h) (peers_of h) (appliers_of h) (now h) (math_rand h) (crypto_rand h) (test_failed h) (env h).
Definition set_rafts_heap v h := MkHost (servers_heap h) v (peers_of h) (appliers_of h) (now h) (math_rand h) (crypto_rand h) (test_failed h) (env h).
Definition set_peers_of v h := MkHost (servers_heap h) (rafts_heap h) v (appliers_of h) (now h) (math_rand h) (crypto_rand h) (test_failed h) (env h).
Definition set_appliers_of v h := MkHost (servers_heap h) (rafts_heap h) (peers_of h) v (now h) (math_rand h) (crypto_rand h) (test_failed h) (env h).
Definition set_math_rand v h := MkHost (servers_heap h) (rafts_heap h) (peers_of h) (appliers_of h) (now h) v (crypto_rand h) (test_failed h) (env h).
Definition set_crypto_rand v h := MkHost (servers_heap h) (rafts_heap h) (peers_of h) (appliers_of h) (now h) (math_rand h) v (test_failed h) (env h).
Definition set_test_failed v h := MkHost (servers_heap h) (rafts_heap h) (peers_of h) (appliers_of h) (now h) (math_rand h) (crypto_rand h) v (env h).

Definition on_cfg (f : config Cmd -> config Cmd) s : harness Cmd E := MkHarness (f (cfg s)) (hst s).
Definition on_hst (f : host Cmd E -> host Cmd E) s : harness Cmd E := MkHarness (cfg s) (f (hst s)).
Definition on_net (f : Network -> Network) : harness Cmd E -> harness Cmd E := on_cfg (fun c => set_cfg_net (f (net c)) c).
End setters.

(** ** The operations *)

(** What else happens in the process while the test waits for a lock ([d] is
    0) or sleeps for [d] nanoseconds; the order in which a loop over a map meets
    its entries; how [%v] prints a command; and the length in bytes of an encoded
    state. *)
Class Rest (Cmd E : Type) := {
  others : Z -> harness Cmd E -> harness Cmd E;
  iterate : gmap Z (list Z) -> list (Z * list Z);
  sprint : option Cmd -> bytes;
  gob_size : list (gob_message Cmd) -> Z
}.

Definition second : Z := 1000000000.
Definition millisecond : Z := 1000000.

(** The characters of [base64.URLEncoding]. *)
Definition url_alphabet : bytes := lit "ABCDEFGHIJKLMNOPQRSTUVWXYZabcdefghijklmnopqrstuvwxyz0123456789-_".
Definition url_char (c : Z) : Z :=
  match sextet c with Some v => default pad (url_alphabet !! Z.to_nat v) | None => c end.
Definition URLEncoding (b : bytes) : bytes := url_char <$> Encode b.

Section operations.
Context {Cmd E : Type} `{EqDecision Cmd} `{GoRuntime Cmd} `{CommandValue Cmd} `{Rest Cmd E}.
Abbreviation harness := (harness Cmd E).
Abbreviation tst := (tst harness).

Definition others_run (d : Z) : tst unit := put (others d).
Definition Sleep (d : Z) : tst unit := others_run d.
Definition Lock : tst unit := others_run 0.

Definition the {A} (f : config Cmd -> A) : tst A := get (fun s => f (cfg s)).

(** [t.Fatalf]. *)
Definition Fatalf {A} (message : string) : tst A := fun s => Failed message (on_hst (set_test_failed true) s).

(** Reading and writing an element of a slice of the harness. *)
Definition at_index {A} (f : config Cmd -> list A) (i : Z) : tst A := l ← the f; go (index l i).
Definition store {A} (f : config Cmd -> list A) (upd : list A -> config Cmd -> config Cmd) (i : Z) (a : A) : tst unit :=
  l ← the f; l ← go (set_index l i a); put (on_cfg (upd l)).

Definition or_nil {A} (o : option A) : outcome A := match o with Some a => Ok a | None => Panic end.

(** A new object. *)
Definition new_pointer {A} (h : gmap pointer A) : pointer := fresh (dom h).

Fixpoint read_bytes (k : nat) : tst bytes :=
  match k with
  | O => mret []
  | S k =>
      r ← get (fun s => crypto_rand (hst s));
      put (on_hst (set_crypto_rand (rest r))) ;;
      b ← read_bytes k; mret (first_draw r mod 256 :: b)
  end.

Definition randstring (k : nat) : tst bytes :=
  b ← read_bytes (2 * k); go (slice_to (URLEncoding b) (Z.of_nat k)).

(** *** Persisters *)
Definition read_persister (p : persister_ptr Cmd) : tst (Persister (gob_message Cmd)) := fun s =>
  match p with
  | Own ps => Done ps s
  | Inside r => match rafts_heap (hst s) !! r with Some rf => Done (persister rf) s | None => Died end
  end.

(** [if cfg.saved[i] != nil { cfg.saved[i] = f(cfg.saved[i]) }] *)
Definition resave (f : Persister (gob_message Cmd) -> Persister (gob_message Cmd)) (i : Z) : tst unit :=
  p ← at_index saved i;
  match p with
  | Some p => ps ← read_persister p; store saved set_saved i (Some (Own (f ps)))
  | None => mret tt
  end.

(** *** Connecting *)
Definition endname_of (i j : Z) : tst bytes := e ← at_index endnames i; l ← go (or_nil e); go (index l j).

Definition enable (i j : Z) (yes : bool) : tst unit :=
  name ← endname_of i j; put (on_net (fun rn => Enable rn (IString name) yes)).

Definition connect (i : Z) : tst unit :=
  store connected set_connected i true ;;
  k ← the n;
  for_each (below k) (fun j => c ← at_index connected j; if c : bool then enable i j true else mret tt) ;;
  for_each (below k) (fun j => c ← at_index connected j; if c : bool then enable j i true else mret tt).

Definition disconnect (i : Z) : tst unit :=
  store connected set_connected i false ;;
  k ← the n;
  for_each (below k) (fun j => e ← at_index endnames i; if e is Some _ then enable i j false else mret tt) ;;
  for_each (below k) (fun j => e ← at_index endnames j; if e is Some _ then enable j i false else mret tt).

(** *** Crashing and starting *)
Definition kill (r : pointer) : tst unit := put (on_hst (fun h => set_rafts_heap (alter Kill r (rafts_heap h)) h)).

Definition crash1 (i : Z) : tst unit :=
  disconnect i ;;
  put (on_net (fun rn => DeleteServer rn (IInt i))) ;;
  Lock ;;
  resave Copy i ;;
  rf ← at_index rafts i;
  match rf with
  | Some r => kill r ;; Lock ;; store rafts set_rafts i None
  | None => mret tt
  end ;;
  resave (fun ps => SaveStateAndSnapshot MakePersister (ReadRaftState ps) (ReadSnapshot ps)) i.

(** The loop that makes the names of the ends of peer [i]. *)
Definition name_ends (i : Z) : tst unit :=
  k ← the n;
  store endnames set_endnames i (Some (replicate k [])) ;;
  for_each (below k) (fun j =>
    name ← randstring 20;
    e ← at_index endnames i; l ← go (or_nil e); l ← go (set_index l j name);
    store endnames set_endnames i (Some l)).

Definition make_ends (i : Z) : tst unit :=
  k ← the n;
  for_each (below k) (fun j =>
    name ← endname_of i j;
    rn ← the net; rn ← go (MakeEnd rn (IString name)); put (on_net (fun _ => rn)) ;;
    name ← endname_of i j;
    put (on_net (fun rn => Connect rn (IString name) (Some (IInt j))))).

(** [Make(ends, i, cfg.saved[i], applyCh)]: the new peer holds the persister. *)
Definition make_raft (i : Z) : tst pointer :=
  k ← the n;
  p ← at_index saved i;
  p ← go (or_nil p);
  ps ← read_persister p;
  e ← at_index endnames i; names ← go (or_nil e);
  r ← get (fun s => new_pointer (rafts_heap (hst s)));
  put (on_hst (fun h => set_rafts_heap (<[r := Make k i ps]> (rafts_heap h))
                          (set_peers_of (<[r := names]> (peers_of h)) h))) ;;
  store saved set_saved i (Some (Inside r)) ;;
  mret r.

(** A server with the one service, under the name [i]. *)
Definition add_server (i : Z) (r : pointer) : tst unit :=
  sv ← get (fun s => new_pointer (servers_heap (hst s)));
  put (on_hst (fun h => set_servers_heap (<[sv := AddService MakeServer (raft_service r)]> (servers_heap h)) h)) ;;
  put (on_net (fun rn => AddServer rn (IInt i) sv)).

Definition start1 (i : Z) : tst unit :=
  crash1 i ;;
  name_ends i ;;
  make_ends i ;;
  Lock ;;
  p ← at_index saved i;
  match p with
  | Some _ => resave Copy i
  | None => store saved set_saved i (Some (Own MakePersister))
  end ;;
  r ← make_raft i;
  Lock ;;
  store rafts set_rafts i (Some r) ;;
  put (on_hst (fun h => set_appliers_of (appliers_of h ++ [(i, r)]) h)) ;;
  add_server i r.

(** *** Checking what is applied *)

(** [old, oldok := cfg.logs[j][index]]; a nil map has no entries. *)
Definition logged (l : option (gmap Z (option Cmd))) (idx : Z) : option (option Cmd) := l ≫= (.!! idx).

Definition conflict_text (i j idx : Z) (v old : option Cmd) : bytes :=
  lit "commit index=" ++ fmt_d idx ++ lit " server=" ++ fmt_d i ++ [32] ++ sprint v ++ lit " != server=" ++
  fmt_d j ++ [32] ++ sprint old.

(** The loop over the servers, from [j] on; the message of the last conflict
    stays. *)
Fixpoint find_conflict (i j idx : Z) (v : option Cmd) (ls : list (option (gmap Z (option Cmd)))) (err : bytes) : bytes :=
  match ls with
  | [] => err
  | l :: ls =>
      let err := match logged l idx with
                 | Some old => if decide (old = v) then err else conflict_text i j idx v old
                 | None => err
                 end in
      find_conflict i (j + 1) idx v ls err
  end.

Definition checkLogs (i : Z) (m : ApplyMsg Cmd) : tst (bytes * bool) :=
  let v := am_Command m in
  ls ← the logs;
  let err_msg := find_conflict i 0 (CommandIndex m) v ls [] in
  mine ← at_index logs i;
  let prevok := bool_decide (is_Some (logged mine (CommandIndex m - 1))) in
  mine ← go (or_nil mine);
  store logs set_logs i (Some (<[CommandIndex m := v]> mine)) ;;
  put (on_cfg (fun c => if maxIndex c <? CommandIndex m then set_maxIndex (CommandIndex m) c else c)) ;;
  mret (err_msg, prevok).

(** A message from the apply channel; an error ends the process, so the
    assignment to [applyErr] after it is never reached. *)
Definition apply_message (i : Z) (m : ApplyMsg Cmd) : tst unit :=
  if CommandValid m then
    '(err_msg, prevok) ← checkLogs i m;
    let err_msg := if (1 <? CommandIndex m) && negb prevok
                   then lit "server " ++ fmt_d i ++ lit " apply out of order " ++ fmt_d (CommandIndex m) else err_msg in
    if len err_msg =? 0 then mret tt else go Panic
  else mret tt.

(** One turn of [applier], of the goroutine started for peer [i] with the
    channel of [r]: it waits while the channel is empty. *)
Definition applier (i : Z) (r : pointer) : tst unit :=
  rf ← get (fun s => rafts_heap (hst s) !! r);
  rf ← go (or_nil rf);
  match cApplyMsg rf with
  | [] => go Block
  | m :: ms =>
      put (on_hst (fun h => set_rafts_heap (<[r := set_cApplyMsg ms rf]> (rafts_heap h)) h)) ;;
      apply_message i m
  end.

(** *** The network *)
Definition setunreliable (unrel : bool) : tst unit := put (on_net (fun rn => Reliable rn (negb unrel))).
Definition setlongreordering (longrel : bool) : tst unit := put (on_net (fun rn => LongReordering rn longrel)).

Definition rpcCount (server : Z) : tst Z :=
  Lock ;; m ← get (fun s => GetCount (net (cfg s)) (servers_heap (hst s)) (IInt server)); go m.
Definition rpcTotal : tst Z := Lock ;; the (fun c => GetTotalCount (net c)).
Definition bytesTotal : tst Z := Lock ;; the (fun c => GetTotalBytes (net c)).

(** *** Set up and clean up *)
Definition checkTimeout : tst unit :=
  failed ← get (fun s => test_failed (hst s));
  t ← get (fun s => now (hst s) - start (cfg s));
  if negb failed && (120 * second <? t) then Fatalf "test took longer than 120 seconds" else mret tt.

Definition cleanup : tst unit :=
  rs ← the rafts;
  for_each (below (length rs)) (fun i =>
    r ← at_index rafts i; match r with Some r => kill r | None => mret tt end) ;;
  rn ← the net; rn ← go (Cleanup rn); put (on_net (fun _ => rn)) ;;
  checkTimeout.

Definition new_config (k : nat) (t : Z) : config Cmd :=
  MkConfig MakeNetwork k (replicate k None) (replicate k []) (replicate k false) (replicate k None)
    (replicate k None) (replicate k None) t 0 0 0 0 0 0.

Definition make_config (k : nat) (unreliable : bool) : tst unit :=
  t ← get (fun s => now (hst s));
  put (on_cfg (fun _ => new_config k t)) ;;
  setunreliable unreliable ;;
  put (on_net (fun rn => LongDelays rn true)) ;;
  for_each (below k) (fun i => store logs set_logs i (Some ∅) ;; start1 i) ;;
  for_each (below k) connect.

(** *** Asking the peers *)

(** [cfg.rafts[i].GetState()]; a nil peer panics. *)
Definition GetState_of (r : option pointer) : tst (Z * bool) :=
  Lock ;;
  r ← go (or_nil r);
  rf ← get (fun s => rafts_heap (hst s) !! r);
  rf ← go (or_nil rf);
  mret (GetState rf).

(** The connected leaders by term, in the order of the servers. *)
Fixpoint find_leaders (js : list Z) (leaders : gmap Z (list Z)) : tst (gmap Z (list Z)) :=
  match js with
  | [] => mret leaders
  | i :: js =>
      c ← at_index connected i;
      leaders ← (if c : bool then
                   r ← at_index rafts i;
                   '(term, leader) ← GetState_of r;
                   mret (if leader : bool then <[term := default [] (leaders !! term) ++ [i]]> leaders else leaders)
                 else mret leaders);
      find_leaders js leaders
  end.

(** The loop over the map: the highest term. *)
Fixpoint last_term (entries : list (Z * list Z)) (lastTermWithLeader : Z) : tst Z :=
  match entries with
  | [] => mret lastTermWithLeader
  | (term, leaders) :: entries =>
      if 1 <? len leaders then Fatalf "term %d has %d (>1) leaders"
      else last_term entries (if lastTermWithLeader <? term then term else lastTermWithLeader)
  end.

Fixpoint checkOneLeader_from (iters : nat) : tst Z :=
  match iters with
  | O => Fatalf "expected one leader, got none"
  | S iters =>
      r ← get (fun s => math_rand (hst s));
      put (on_hst (set_math_rand (rest r))) ;;
      Sleep ((450 + Z.rem (first_draw r mod 2 ^ 63) 100) * millisecond) ;;
      k ← the n;
      leaders ← find_leaders (below k) ∅;
      lastTermWithLeader ← last_term (iterate leaders) (-1);
      if bool_decide (leaders = ∅) then checkOneLeader_from iters
      else go (index (default [] (leaders !! lastTermWithLeader)) 0)
  end.

Definition checkOneLeader : tst Z := checkOneLeader_from 10.

Fixpoint checkTerms_from (js : list Z) (term : Z) : tst Z :=
  match js with
  | [] => mret term
  | i :: js =>
      c ← at_index connected i;
      if c : bool then
        r ← at_index rafts i;
        '(xterm, _) ← GetState_of r;
        if term =? -1 then checkTerms_from js xterm
        else if term =? xterm then checkTerms_from js term else Fatalf "servers disagree on term"
      else checkTerms_from js term
  end.

Definition checkTerms : tst Z := k ← the n; checkTerms_from (below k) (-1).

Definition checkNoLeader : tst unit :=
  k ← the n;
  for_each (below k) (fun i =>
    c ← at_index connected i;
    if c : bool then
      r ← at_index rafts i;
      '(_, is_leader) ← GetState_of r;
      if is_leader : bool then Fatalf "expected no leader, but %v claims to be leader" else mret tt
    else mret tt).

(** *** Waiting for agreement *)
Fixpoint nCommitted_from (js : list Z) (idx count : Z) (cmd : option Cmd) : tst (Z * option Cmd) :=
  match js with
  | [] => mret (count, cmd)
  | i :: js =>
      err ← at_index applyErr i;
      if negb (len err =? 0) then Fatalf "%v"
      else
        Lock ;;
        l ← at_index logs i;
        match logged l idx with
        | Some cmd1 =>
            if (0 <? count) && negb (bool_decide (cmd = cmd1)) then Fatalf "committed values do not match"
            else nCommitted_from js idx (count + 1) cmd1
        | None => nCommitted_from js idx count cmd
        end
  end.

Definition nCommitted (idx : Z) : tst (Z * option Cmd) :=
  rs ← the rafts; nCommitted_from (below (length rs)) idx 0 None.

(** Whether some peer has moved past [startTerm]. *)
Fixpoint moved_on (rs : list (option pointer)) (startTerm : Z) : tst bool :=
  match rs with
  | [] => mret false
  | r :: rs => '(t, _) ← GetState_of r; if startTerm <? t then mret true else moved_on rs startTerm
  end.

(** The polling loop of [wait], with [iters] turns left: whether to go on to
    the verdict. *)
Fixpoint wait_from (iters : nat) (idx k startTerm to : Z) : tst bool :=
  match iters with
  | O => mret true
  | S iters =>
      '(nd, _) ← nCommitted idx;
      if k <=? nd then mret true
      else
        Sleep to ;;
        let to := if to <? second then to * 2 else to in
        moved ← (if -1 <? startTerm then rs ← the rafts; moved_on rs startTerm else mret false);
        if moved : bool then mret false else wait_from iters idx k startTerm to
  end.

(** The command; [None] stands for the -1 of a test that can no longer win. *)
Definition wait (idx k startTerm : Z) : tst (option (option Cmd)) :=
  go_on ← wait_from 30 idx k startTerm (10 * millisecond);
  if go_on : bool then
    '(nd, cmd) ← nCommitted idx;
    if nd <? k then Fatalf "only %d decided for index %d; wanted %d" else mret (Some cmd)
  else mret None.

(** The loop of [one] that offers the command to the peers in turn, [k] of
    them: where it starts next, and the index a leader gave the command, or -1. *)
Fixpoint offer (k : nat) (cmd : option Cmd) (starts : Z) : tst (Z * Z) :=
  match k with
  | O => mret (starts, -1)
  | S k =>
      total ← the n;
      starts ← go (go_rem (starts + 1) (Z.of_nat total));
      Lock ;;
      c ← at_index connected starts;
      r ← (if c : bool then at_index rafts starts else mret None);
      match r with
      | Some r =>
          Lock ;;
          rf ← get (fun s => rafts_heap (hst s) !! r);
          rf ← go (or_nil rf);
          '(rf, (index1, _, ok)) ← go (Start rf cmd);
          put (on_hst (fun h => set_rafts_heap (<[r := rf]> (rafts_heap h)) h)) ;;
          if ok : bool then mret (starts, index1) else offer k cmd starts
      | None => offer k cmd starts
      end
  end.

(** Five seconds of polling: whether the command was agreed on. *)
Fixpoint await (fuel : nat) (t1 idx : Z) (cmd : option Cmd) (expectedServers : Z) : tst bool :=
  match fuel with
  | O => go Block
  | S fuel =>
      t ← get (fun s => now (hst s));
      if t - t1 <? 5 * second then
        '(nd, cmd1) ← nCommitted idx;
        if (0 <? nd) && (expectedServers <=? nd) && bool_decide (cmd1 = cmd) then mret true
        else Sleep (20 * millisecond) ;; await fuel t1 idx cmd expectedServers
      else mret false
  end.

(** A turn of [await] sleeps 20 milliseconds, and 250 of them make 5 seconds. *)
Definition await_fuel : nat := 251.

Fixpoint one_from (fuel : nat) (t : Z) (starts : Z) (cmd : option Cmd) (expectedServers : Z) (retry : bool) : tst Z :=
  match fuel with
  | O => go Block
  | S fuel =>
      t' ← get (fun s => now (hst s));
      if t' - t <? 25 * second then
        k ← the n;
        '(starts, idx) ← offer k cmd starts;
        if negb (idx =? -1) then
          t1 ← get (fun s => now (hst s));
          agreed ← await await_fuel t1 idx cmd expectedServers;
          if agreed : bool then mret idx
          else if negb retry then Fatalf "one(%v) failed to reach agreement"
          else one_from fuel t starts cmd expectedServers retry
        else
          Sleep (50 * millisecond) ;; one_from fuel t starts cmd expectedServers retry
      else Fatalf "one(%v) failed to reach agreement"
  end.

(** A turn sleeps 50 milliseconds or more, and 500 of them make 25 seconds. *)
Definition one_fuel : nat := 501.

Definition one (cmd : option Cmd) (expectedServers : Z) (retry : bool) : tst Z :=
  t ← get (fun s => now (hst s)); one_from one_fuel t 0 cmd expectedServers retry.

(** *** Statistics *)
Definition begin : tst unit :=
  t ← get (fun s => now (hst s));
  rpcs ← rpcTotal;
  nbytes ← bytesTotal;
  put (on_cfg (fun c => set_stats t rpcs 0 nbytes (maxIndex c) c)).

(** What the passed message reports. *)
Record report := MkReport { real_time : Z; npeers : nat; nrpc : Z; nbytes : Z; ncmds : Z }.

Definition end_test : tst (option report) :=
  checkTimeout ;;
  failed ← get (fun s => test_failed (hst s));
  if failed : bool then mret None
  else
    Lock ;;
    t ← get (fun s => now (hst s) - t0 (cfg s));
    k ← the n;
    rpcs ← rpcTotal; rpcs0 ← the rpcs0;
    b ← bytesTotal; b0 ← the bytes0;
    cmds ← the (fun c => i64 (maxIndex c - maxIndex0 c));
    mret (Some (MkReport t k (i64 (rpcs - rpcs0)) (i64 (b - b0)) cmds)).

(** The largest persisted state; a nil persister panics. *)
Fixpoint LogSize_from (js : list Z) (logsize : Z) : tst Z :=
  match js with
  | [] => mret logsize
  | i :: js =>
      Lock ;;
      p ← at_index saved i;
      p ← go (or_nil p);
      ps ← read_persister p;
      let k := gob_size (raftstate ps) in   (* RaftStateSize *)
      LogSize_from js (if logsize <? k then k else logsize)
  end.

Definition LogSize : tst Z := k ← the n; LogSize_from (below k) 0.
End operations.
