(* ===== verification/ConfigLogic.v ===== *)
(** * Reasoning about the test goroutine

    Weakest preconditions for the verdicts of [Config], with one condition for
    each way a test can end; a rule for its loops; and what the rest of the
    process may do while the test waits ([rely]). *)
From Stdlib Require Import String.
From S2P Require Import Prelude Strconv Effects Labgob Labrpc Persister RaftServer RaftRpc Config.

Local Open Scope Z_scope.

(** ** Weakest preconditions *)
Section wp.
Context {S : Type} (fails : string -> S -> Prop) (dies forever : Prop).

Definition wp {A} (m : tst S A) (Q : A -> S -> Prop) (s : S) : Prop :=
  match m s with Done a s => Q a s | Failed e s => fails e s | Died => dies | Forever => forever end.

Lemma wp_ret {A} (a : A) (Q : A -> S -> Prop) s : Q a s -> wp (mret a) Q s.
Proof. done. Qed.

Lemma wp_bind {A B} (m : tst S A) (f : A -> tst S B) (Q : B -> S -> Prop) s :
  wp m (fun a => wp (f a) Q) s -> wp (m ≫= f) Q s.
Proof. unfold wp, mbind, tst_bind. by destruct (m s). Qed.

Lemma wp_mono {A} (m : tst S A) (P Q : A -> S -> Prop) s :
  wp m P s -> (forall a s', P a s' -> Q a s') -> wp m Q s.
Proof. unfold wp. destruct (m s); auto. Qed.

(** A step with a known postcondition, then the rest. *)
Lemma wp_then {A B} (P : A -> S -> Prop) (m : tst S A) (f : A -> tst S B) (Q : B -> S -> Prop) s :
  wp m P s -> (forall a s', P a s' -> wp (f a) Q s') -> wp (m ≫= f) Q s.
Proof. intros Hm Hf. apply wp_bind. by eapply wp_mono. Qed.

Lemma wp_get {A} (f : S -> A) (Q : A -> S -> Prop) s : Q (f s) s -> wp (get f) Q s.
Proof. done. Qed.

Lemma wp_put f (Q : unit -> S -> Prop) s : Q tt (f s) -> wp (put f) Q s.
Proof. done. Qed.

Lemma wp_go {A} (o : outcome A) (Q : A -> S -> Prop) s :
  (forall a, o = Ok a -> Q a s) -> (o = Panic -> dies) -> (o = Block -> forever) -> wp (go o) Q s.
Proof. unfold wp, go. destruct o; auto. Qed.

(** A loop: [I j] holds after [j] turns. *)
Lemma wp_for (I : nat -> S -> Prop) (k : nat) (body : Z -> tst S unit) s :
  I O s -> (forall j s, (j < k)%nat -> I j s -> wp (body (Z.of_nat j)) (fun _ => I (j + 1)%nat) s) ->
  wp (for_each (below k) body) (fun _ => I k) s.
Proof.
  intros H0 Hb. cut (forall r m s, (m + r = k)%nat -> I m s ->
    wp (for_each (Z.of_nat <$> seq m r) body) (fun _ => I k) s).
  { intros Hr. by apply (Hr k O). }
  clear s H0. intros r. induction r as [| r IH]; intros m s Hm HI; simpl.
  - apply wp_ret. by rewrite Nat.add_0_r in Hm; subst.
  - eapply wp_then; [apply Hb; [lia | exact HI] |]. intros [] s' HI'. apply IH; [lia |].
    by rewrite Nat.add_1_r in HI'.
Qed.
End wp.
Arguments wp {S} fails dies forever {A} m Q s.

(** Only the tests that go on. *)
Abbreviation after m Q s := (wp (fun _ _ => True) True True m Q s).

Lemma after_Done {S A} (m : tst S A) (Q : A -> S -> Prop) s a s' : after m Q s -> m s = Done a s' -> Q a s'.
Proof. unfold wp. intros H E. by rewrite E in H. Qed.

(** Take the next step of a computation. *)
Ltac wp_step :=
  lazymatch goal with
  | |- wp _ _ _ (mret _) _ _ => apply wp_ret
  | |- wp _ _ _ (_ ≫= _) _ _ => apply wp_bind
  | |- wp _ _ _ (get _) _ _ => apply wp_get
  | |- wp _ _ _ (the _) _ _ => apply wp_get
  | |- wp _ _ _ (put _) _ _ => apply wp_put
  | |- wp _ _ _ (go (Ok _)) _ _ => apply wp_ret
  | |- wp _ _ _ (go (or_nil (Some _))) _ _ => apply wp_ret
  end.
Ltac wp_steps := repeat wp_step.

(** ** Reading and writing the harness *)
Section harness.
Context {Cmd E : Type} `{EqDecision Cmd} `{GoRuntime Cmd} `{CommandValue Cmd} `{Rest Cmd E}.
Implicit Types s : harness Cmd E.
Implicit Types c : config Cmd.

Lemma after_at_index {A} (f : config Cmd -> list A) i (Q : A -> harness Cmd E -> Prop) s :
  (forall k a, i = Z.of_nat k -> f (cfg s) !! k = Some a -> Q a s) -> after (at_index f i) Q s.
Proof.
  intros HQ. unfold at_index. wp_steps. apply wp_go; [| done..]. intros a [Hi Ha]%index_Ok.
  apply (HQ (Z.to_nat i)); [lia | done].
Qed.

Lemma after_store {A} (f : config Cmd -> list A) upd i a (Q : unit -> harness Cmd E -> Prop) s :
  (forall k, i = Z.of_nat k -> (k < length (f (cfg s)))%nat ->
     Q tt (on_cfg (upd (<[k := a]> (f (cfg s)))) s)) ->
  after (store f upd i a) Q s.
Proof.
  intros HQ. unfold store. wp_steps. apply wp_go; [| done..]. intros l [Hi ->]%set_index_Ok. wp_steps.
  apply HQ; unfold len in *; lia.
Qed.

(** The name of the end from peer [i] to peer [j]. *)
Definition end_of c (i j : nat) : option bytes := e ← endnames c !! i; l ← e; l !! j.

Lemma after_endname_of i j (Q : bytes -> harness Cmd E -> Prop) s :
  (forall k m name, i = Z.of_nat k -> j = Z.of_nat m -> end_of (cfg s) k m = Some name -> Q name s) ->
  after (endname_of i j) Q s.
Proof.
  intros HQ. unfold endname_of. apply wp_bind, after_at_index. intros k e -> He. wp_steps.
  apply wp_go; [| done..]. intros l Hl. destruct e as [l' |]; [| done]. injection Hl as <-.
  apply wp_go; [| done..]. intros name [Hj Hn]%index_Ok. apply (HQ k (Z.to_nat j)); [done | lia |].
  unfold end_of. by rewrite He.
Qed.

(** ** The rest of the process *)

(** What only the test changes in the network. *)
Definition same_admin (rn rn' : Network) : Prop :=
  ends rn' = ends rn /\ enabled rn' = enabled rn /\ servers rn' = servers rn /\ connections rn' = connections rn.

(** While the test waits [d] nanoseconds, the other goroutines run the peers,
    carry their messages and log what is applied; an entry that is in a log
    stays there. *)
Record rely (d : Z) s s' : Prop := {
  rely_cfg : exists rn ls m, cfg s' = set_maxIndex m (set_logs ls (set_cfg_net rn (cfg s))) /\ same_admin (net (cfg s)) rn;
  rely_length : length (logs (cfg s')) = length (logs (cfg s));
  rely_logs : forall i l idx v, logs (cfg s) !! i = Some l -> logged l idx = Some v ->
    exists l', logs (cfg s') !! i = Some l' /\ logged l' idx = Some v;
  rely_services : services <$> servers_heap (hst s') = services <$> servers_heap (hst s);
  rely_rafts : dom (rafts_heap (hst s')) = dom (rafts_heap (hst s));
  rely_log : forall r rf, rafts_heap (hst s) !! r = Some rf -> log rf <> [] ->
    exists rf', rafts_heap (hst s') !! r = Some rf' /\ log rf' <> [];   (* no peer loses its base entry *)
  rely_peers : peers_of (hst s') = peers_of (hst s);
  rely_appliers : appliers_of (hst s') = appliers_of (hst s);
  rely_now : now (hst s) + d <= now (hst s');
  rely_failed : test_failed (hst s') = test_failed (hst s)
}.
End harness.

(** A rest of the process that leaves the harness to the test. *)
Class Behaved (Cmd E : Type) `{Rest Cmd E} := {
  others_rely d s : 0 <= d -> rely d s (others d s);
  iterate_all m : iterate m ≡ₚ map_to_list m
}.
