(* ===== verification/ConfigRouting.v ===== *)
(** * Who can talk to whom in the Raft test harness

    The effect of [connect], [disconnect], [crash1] and [start1] on the simulated
    network, and the invariant they keep: an end is enabled exactly when it is
    one of the current ends of two connected peers, and leads to the server of
    the peer it was made for. *)
From Stdlib Require Import String.
From S2P Require Import Prelude Strconv Effects Labgob Labrpc Persister RaftServer RaftRpc Config ConfigLogic.

Local Open Scope Z_scope.

Create HintDb harness.

Definition set_enabled (m : gmap iface bool) (rn : Network) : Network :=
  MkNetworkRecord (reliable rn) (longDelays rn) (longReordering rn) (ends rn) m
    (servers rn) (connections rn) (running rn) (closed rn) (count rn) (bytes_sent rn).

Definition enabled_in (m : gmap iface bool) (nm : iface) : Prop := default false (m !! nm) = true.

Lemma enabled_insert (m : gmap iface bool) nm nm' (yes : bool) :
  enabled_in (<[nm := yes]> m) nm' <-> if yes then enabled_in m nm' \/ nm' = nm else enabled_in m nm' /\ nm' <> nm.
Proof.
  unfold enabled_in. destruct (decide (nm = nm')) as [<- | Hne].
  - rewrite lookup_insert_eq. simpl. destruct yes; naive_solver.
  - rewrite lookup_insert_ne by done. destruct yes; naive_solver.
Qed.

Section routing.
Context {Cmd E : Type} `{EqDecision Cmd} `{GoRuntime Cmd} `{CommandValue Cmd} `{Rest Cmd E}.
Implicit Types s : harness Cmd E.
Implicit Types c : config Cmd.

Abbreviation enabled_of s := (enabled (net (cfg s))).

(** ** Loops that enable or disable ends *)
Section enables.
Context (yes : bool) (s : harness Cmd E) (k : nat) (p : nat -> Prop) (f g : nat -> nat) (body : Z -> tst (harness Cmd E) unit).

Definition touched (k : nat) (nm : iface) : Prop :=
  exists j name, (j < k)%nat /\ p j /\ end_of (cfg s) (f j) (g j) = Some name /\ nm = IString name.

Hypothesis Hbody : forall j m, (j < k)%nat ->
  after (body (Z.of_nat j)) (fun _ s' =>
    (p j /\ exists name, end_of (cfg s) (f j) (g j) = Some name /\
       s' = on_net (fun rn => Enable rn (IString name) yes) (on_net (set_enabled m) s)) \/
    (~ p j /\ s' = on_net (set_enabled m) s)) (on_net (set_enabled m) s).

Lemma after_enables :
  after (for_each (below k) body) (fun _ s' => exists m, s' = on_net (set_enabled m) s /\
    forall nm, enabled_in m nm <->
      if yes then enabled_in (enabled_of s) nm \/ touched k nm else enabled_in (enabled_of s) nm /\ ~ touched k nm) s.
Proof.
  apply (wp_for _ _ _ (fun k s' => exists m, s' = on_net (set_enabled m) s /\ forall nm, enabled_in m nm <->
      if yes then enabled_in (enabled_of s) nm \/ touched k nm else enabled_in (enabled_of s) nm /\ ~ touched k nm)).
  - exists (enabled_of s). split; [by destruct s as [[[] ? ?] ?] |]. intros nm.
    assert (~ touched 0 nm) by (intros (j & _ & Hj & _); lia). destruct yes; tauto.
  - intros j s1 Hj (m & -> & Hm). eapply wp_mono; [by apply Hbody |]. intros [] s2 Hs2.
    assert (Hstep : forall nm, touched (j + 1) nm <-> touched j nm \/
      (p j /\ exists name, end_of (cfg s) (f j) (g j) = Some name /\ nm = IString name)).
    { intros nm. unfold touched. split.
      - intros (j' & name & Hj' & Hp & He & ->). destruct (decide (j' = j)) as [-> | Hne]; [eauto 10 |].
        left. exists j', name. split; [lia | done].
      - intros [(j' & name & Hj' & Hr) | (Hp & name & He & ->)]; [exists j', name; split; [lia | done] |].
        exists j, name. split; [lia | done]. }
    destruct Hs2 as [(Hp & name & He & ->) | (Hp & ->)].
    + exists (<[IString name := yes]> m). split; [done |]. intros nm. rewrite enabled_insert. specialize (Hstep nm).
      specialize (Hm nm). assert (Hname : touched (j + 1) nm <-> touched j nm \/ nm = IString name) by naive_solver.
      destruct yes; tauto.
    + exists m. split; [done |]. intros nm. specialize (Hstep nm). specialize (Hm nm). destruct yes; tauto.
Qed.
End enables.

(** An end from peer [i], or to it. *)
Definition end_at c (i : nat) (q : nat -> Prop) (nm : iface) : Prop :=
  exists j name, (j < n c)%nat /\ q j /\ (end_of c i j = Some name \/ end_of c j i = Some name) /\ nm = IString name.

Lemma after_enable i j yes (Q : unit -> harness Cmd E -> Prop) s :
  (forall name, end_of (cfg s) i j = Some name -> Q tt (on_net (fun rn => Enable rn (IString name) yes) s)) ->
  after (enable (Z.of_nat i) (Z.of_nat j) yes) Q s.
Proof.
  intros HQ. unfold enable. apply wp_bind, after_endname_of. intros k m name Hk Hm He. apply Nat2Z.inj in Hk, Hm. subst.
  by apply wp_put, HQ.
Qed.

Lemma after_connect i s :
  after (connect i) (fun _ s' => exists k m, i = Z.of_nat k /\ (k < length (connected (cfg s)))%nat /\
    s' = on_net (set_enabled m) (on_cfg (set_connected (<[k := true]> (connected (cfg s)))) s) /\
    forall nm, enabled_in m nm <-> enabled_in (enabled_of s) nm \/
      end_at (cfg s) k (fun j => <[k := true]> (connected (cfg s)) !! j = Some true) nm) s.
Proof.
  unfold connect. apply wp_bind, after_store. intros k -> Hk. set (conn := <[k := true]> (connected (cfg s))).
  set (s1 := on_cfg (set_connected conn) s). apply wp_bind, wp_get. change (n (cfg s1)) with (n (cfg s)).
  eapply wp_then.
  { apply (after_enables true s1 _ (fun j => conn !! j = Some true) (fun _ => k) (fun j => j)).
    intros j m Hj. apply wp_bind, after_at_index. intros j' b Hj' Hb. apply Nat2Z.inj in Hj'. subst j'.
    destruct b; [| right; split; [intros E'; change (conn !! j = Some false) in Hb; congruence | done]].
    apply after_enable. intros name He. left. split; [done |]. by exists name. }
  intros [] s2 (m1 & -> & Hm1). eapply wp_mono.
  { apply (after_enables true (on_net (set_enabled m1) s1) _ (fun j => conn !! j = Some true) (fun j => j) (fun _ => k)).
    intros j m Hj. apply wp_bind, after_at_index. intros j' b Hj' Hb. apply Nat2Z.inj in Hj'. subst j'.
    destruct b; [| right; split; [intros E'; change (conn !! j = Some false) in Hb; congruence | done]].
    apply after_enable. intros name He. left. split; [done |]. by exists name. }
  intros [] s3 (m2 & -> & Hm2). exists k, m2. split; [done |]. split; [done |]. split; [done |].
  intros nm. rewrite Hm2. simpl. rewrite Hm1. unfold touched, end_at. simpl. naive_solver.
Qed.

Lemma after_disconnect i s :
  after (disconnect i) (fun _ s' => exists k m, i = Z.of_nat k /\ (k < length (connected (cfg s)))%nat /\
    s' = on_net (set_enabled m) (on_cfg (set_connected (<[k := false]> (connected (cfg s)))) s) /\
    forall nm, enabled_in m nm <-> enabled_in (enabled_of s) nm /\ ~ end_at (cfg s) k (fun _ => True) nm) s.
Proof.
  unfold disconnect. apply wp_bind, after_store. intros k -> Hk. set (conn := <[k := false]> (connected (cfg s))).
  set (s1 := on_cfg (set_connected conn) s). apply wp_bind, wp_get. change (n (cfg s1)) with (n (cfg s)).
  eapply wp_then.
  { apply (after_enables false s1 _ (fun j => exists l, endnames (cfg s) !! k = Some (Some l)) (fun _ => k) (fun j => j)).
    intros j m Hj. apply wp_bind, after_at_index. intros k' e Hk' He. apply Nat2Z.inj in Hk'. subst k'.
    destruct e as [l |]; [| right; split; [intros [l E']; change (endnames (cfg s) !! k = Some None) in He; congruence | done]].
    apply after_enable. intros name Hn. left. split; [by exists l |]. by exists name. }
  intros [] s2 (m1 & -> & Hm1). eapply wp_mono.
  { apply (after_enables false (on_net (set_enabled m1) s1) _ (fun j => exists l, endnames (cfg s) !! j = Some (Some l))
      (fun j => j) (fun _ => k)).
    intros j m Hj. apply wp_bind, after_at_index. intros k' e Hk' He. apply Nat2Z.inj in Hk'. subst k'.
    destruct e as [l |]; [| right; split; [intros [l E']; change (endnames (cfg s) !! j = Some None) in He; congruence | done]].
    apply after_enable. intros name Hn. left. split; [by exists l |]. by exists name. }
  intros [] s3 (m2 & -> & Hm2). exists k, m2. split; [done |]. split; [done |]. split; [done |].
  assert (Hnil : forall i j name, end_of (cfg s) i j = Some name -> exists l, endnames (cfg s) !! i = Some (Some l)).
  { intros i' j' name He. unfold end_of in He. destruct (endnames (cfg s) !! i') as [[l |] |]; try done. by exists l. }
  intros nm. rewrite Hm2. simpl. rewrite Hm1. unfold touched, end_at. simpl. split.
  - intros [[Ho Ht1] Ht2]. split; [done |]. intros (j & name & Hj & _ & [He | He] & ->); [apply Ht1 | apply Ht2]; exists j, name; eauto.
  - intros [Ho Ht]. split; [split; [done |] |]; intros (j & name & Hj & _ & He & ->); apply Ht; exists j, name; eauto.
Qed.

(** ** The invariant *)

(** Peer [i] runs: its server serves it, and it was made with its ends. *)
Definition runs s (i : nat) (r : pointer) : Prop :=
  r ∈ dom (rafts_heap (hst s)) /\
  (exists l, endnames (cfg s) !! i = Some (Some l) /\ peers_of (hst s) !! r = Some l) /\
  exists sv rs, server_at (net (cfg s)) (IInt (Z.of_nat i)) = Some sv /\ servers_heap (hst s) !! sv = Some rs /\
    services rs = {[ lit "Raft" := raft_service r ]}.

(** The ends from [i] to [j] with [ok i j] are in place, and the others being
    made; peer [i] and its server agree if [up i]. *)
Record routed (ok : nat -> nat -> Prop) (up : nat -> Prop) s : Prop := {
  ro_length : length (connected (cfg s)) = n (cfg s) /\ length (endnames (cfg s)) = n (cfg s) /\
    length (rafts (cfg s)) = n (cfg s);
  ro_row : forall i l, endnames (cfg s) !! i = Some (Some l) -> length l = n (cfg s);
  ro_ends : forall i j name, ok i j -> end_of (cfg s) i j = Some name ->
    IString name ∈ ends (net (cfg s)) /\ connection (net (cfg s)) (IString name) = Some (IInt (Z.of_nat j));
  ro_unique : forall i j i' j' name, ok i j -> ok i' j' -> end_of (cfg s) i j = Some name ->
    end_of (cfg s) i' j' = Some name -> i = i' /\ j = j';
  ro_enabled : forall nm, enabled_in (enabled_of s) nm <->
    exists i j name, ok i j /\ nm = IString name /\ end_of (cfg s) i j = Some name /\
      connected (cfg s) !! i = Some true /\ connected (cfg s) !! j = Some true;
  ro_rafts : forall i o, up i -> rafts (cfg s) !! i = Some o ->
    match o with Some r => runs s i r | None => server_at (net (cfg s)) (IInt (Z.of_nat i)) = None end
}.

Definition all_ends (i j : nat) : Prop := True.
Definition not_from (k : nat) (i j : nat) : Prop := i <> k.
Definition up_to (k m : nat) (i j : nat) : Prop := i <> k \/ (j < m)%nat.
Definition all_peers (i : nat) : Prop := True.
Definition not_peer (k : nat) (i : nat) : Prop := i <> k.

Lemma end_bounds ok up s i j name :
  routed ok up s -> end_of (cfg s) i j = Some name -> (i < n (cfg s))%nat /\ (j < n (cfg s))%nat.
Proof.
  intros HR He. unfold end_of in He. destruct (endnames (cfg s) !! i) as [[l |] |] eqn:El; try done. simpl in He.
  destruct (ro_length _ _ _ HR) as (_ & Hl & _). apply lookup_lt_Some in He. rewrite (ro_row _ _ _ HR _ _ El) in He.
  apply lookup_lt_Some in El. lia.
Qed.

Lemma routed_rely ok up d s s' : routed ok up s -> rely d s s' -> routed ok up s'.
Proof.
  intros [Hl Hrow He Hu Hen Hr] Hrely. destruct (rely_cfg _ _ _ Hrely) as (rn & ls & m & Ec & Ee & Een & Es & Eco).
  split; rewrite ?Ec; simpl; unfold end_of, connection in *; simpl; rewrite ?Ee, ?Een, ?Eco; try done.
  intros i o Hu' Ho. specialize (Hr i o Hu' Ho). unfold runs, server_at in *. rewrite Ec. simpl. rewrite Es.
  destruct o as [r |]; [| done]. destruct Hr as (Hd & (l & El & Ep) & sv & rs & Esv & Ers & Hsv).
  rewrite (rely_rafts _ _ _ Hrely), (rely_peers _ _ _ Hrely). split; [done | split; [by exists l |]].
  assert (Hsvc : (services <$> servers_heap (hst s')) !! sv = Some (services rs))
    by by rewrite (rely_services _ _ _ Hrely), lookup_fmap, Ers.
  rewrite lookup_fmap in Hsvc. destruct (servers_heap (hst s') !! sv) as [rs' |] eqn:Ers'; [| done].
  injection Hsvc as Hsvc. exists sv, rs'. by rewrite Hsvc.
Qed.

Lemma insert_true (l : list bool) (k j : nat) (b : bool) :
  (k < length l)%nat -> <[k := b]> l !! j = Some true <-> if decide (j = k) then b = true else l !! j = Some true.
Proof.
  intros Hk. destruct (decide (j = k)) as [-> | Hne].
  - rewrite list_lookup_insert_eq by done. naive_solver.
  - by rewrite list_lookup_insert_ne.
Qed.

(** A step on the connections alone. *)
Lemma routed_connections ok up s (k : nat) (b : bool) m :
  routed ok up s -> (k < length (connected (cfg s)))%nat ->
  (forall nm, enabled_in m nm <-> exists i j name, ok i j /\ nm = IString name /\ end_of (cfg s) i j = Some name /\
      <[k := b]> (connected (cfg s)) !! i = Some true /\ <[k := b]> (connected (cfg s)) !! j = Some true) ->
  routed ok up (on_net (set_enabled m) (on_cfg (set_connected (<[k := b]> (connected (cfg s)))) s)).
Proof.
  intros [Hl Hrow He Hu Hen Hr] Hk Hm. split; simpl; try done.
  by rewrite length_insert.
Qed.

Lemma connect_routed i s :
  routed all_ends all_peers s -> after (connect i) (fun _ s' => routed all_ends all_peers s') s.
Proof.
  intros HR. eapply wp_mono; [apply after_connect |]. intros [] s' (k & m & -> & Hk & -> & Hm).
  apply routed_connections; [done.. |]. intros nm. rewrite Hm, (ro_enabled _ _ _ HR). unfold end_at. setoid_rewrite insert_true; [| done..].
  split.
  - intros [(i & j & name & Ho & -> & He & Hi & Hj) | (j & name & Hj & Hc & He & ->)].
    + exists i, j, name. repeat destruct (decide _); done.
    + destruct He as [He | He]; [exists k, j, name | exists j, k, name]; repeat destruct (decide _); done.
  - intros (i & j & name & Ho & -> & He & Hi & Hj). destruct (end_bounds _ _ _ _ _ _ HR He) as [Hin Hjn].
    destruct (decide (i = k)) as [-> | Hik].
    { right. exists j, name. eauto. }
    destruct (decide (j = k)) as [-> | Hjk]; [| left; eauto 10].
    right. exists i, name. rewrite decide_False by done. eauto.
Qed.

Lemma disconnect_routed i s :
  routed all_ends all_peers s -> after (disconnect i) (fun _ s' => exists k, i = Z.of_nat k /\ (k < n (cfg s'))%nat /\
    connected (cfg s') !! k = Some false /\ routed all_ends all_peers s') s.
Proof.
  intros HR. eapply wp_mono; [apply after_disconnect |]. intros [] s' (k & m & -> & Hk & -> & Hm).
  destruct (ro_length _ _ _ HR) as (Hl & _). exists k. split; [done |]. split; [simpl; lia |].
  split; [simpl; by rewrite list_lookup_insert_eq |].
  apply routed_connections; [done.. |]. intros nm. rewrite Hm, (ro_enabled _ _ _ HR). unfold end_at. setoid_rewrite insert_true; [| done..].
  split.
  - intros [(i & j & name & Ho & -> & He & Hi & Hj) Hno]. destruct (end_bounds _ _ _ _ _ _ HR He) as [Hin Hjn].
    exists i, j, name. split; [done |]. split; [done |]. split; [done |].
    rewrite !decide_False; [done | |]; intros ->; apply Hno; eauto 10.
  - intros (i & j & name & Ho & -> & He & Hi & Hj).
    destruct (decide (i = k)) as [-> | Hik]; [done |]. destruct (decide (j = k)) as [-> | Hjk]; [done |].
    split; [eauto 10 |]. intros (j' & name' & _ & _ & He' & [= ->]).
    destruct He' as [He' | He']; destruct (ro_unique _ _ _ HR _ _ _ _ _ I I He He'); congruence.
Qed.

Lemma routed_fewer ok up (up' : nat -> Prop) s : routed ok up s -> (forall i, up' i -> up i) -> routed ok up' s.
Proof. intros [Hl Hrow He Hu Hen Hr] Hup. split; try done. intros i o Hi. by apply Hr, Hup. Qed.

(** ** Crashing *)

(** Peer [k] is cut off, and its server is gone. *)
Definition down s (k : nat) : Prop :=
  connected (cfg s) !! k = Some false /\ server_at (net (cfg s)) (IInt (Z.of_nat k)) = None.

Lemma down_rely d s s' k : down s k -> rely d s s' -> down s' k.
Proof.
  intros [Hc Hs] Hr. destruct (rely_cfg _ _ _ Hr) as (rn & ls & m & Ec & _ & _ & Es & _).
  unfold down, server_at in *. rewrite Ec. simpl. by rewrite Es.
Qed.

Lemma server_at_set rn i o j :
  server_at (set_server rn (IInt (Z.of_nat i)) o) (IInt (Z.of_nat j)) =
  if decide (j = i) then o else server_at rn (IInt (Z.of_nat j)).
Proof.
  unfold server_at, set_server. simpl. destruct (decide (j = i)) as [-> | Hne]; [by rewrite lookup_insert_eq |].
  rewrite lookup_insert_ne; [done |]. intros [= E1]. lia.
Qed.

Lemma after_resave f i s :
  after (resave f i) (fun _ s' => exists l, s' = on_cfg (set_saved l) s) s.
Proof.
  unfold resave. apply wp_bind, after_at_index. intros k p -> Hp. destruct p as [p |].
  - apply wp_bind. unfold read_persister, wp at 1. destruct p as [ps | r].
    + apply after_store. intros. by eexists.
    + destruct (rafts_heap (hst s) !! r) as [rf |]; [| done]. apply after_store. intros. by eexists.
  - apply wp_ret. exists (saved (cfg s)). by destruct s as [[] ?].
Qed.

Lemma after_kill r s :
  after (kill r) (fun _ s' => cfg s' = cfg s /\ dom (rafts_heap (hst s')) = dom (rafts_heap (hst s)) /\
    servers_heap (hst s') = servers_heap (hst s) /\ peers_of (hst s') = peers_of (hst s)) s.
Proof. apply wp_put. split; [done | split; [| done]]. exact (dom_alter_L (M := gmap pointer) (D := gset pointer) Kill (rafts_heap (hst s)) r). Qed.

(** Steps on what the invariant does not mention. *)
Lemma routed_saved ok up s l : routed ok up s -> routed ok up (on_cfg (set_saved l) s).
Proof. by intros [Hl Hrow He Hu Hen Hr]. Qed.

Lemma routed_host ok up s s' :
  routed ok up s -> cfg s' = cfg s -> dom (rafts_heap (hst s)) ⊆ dom (rafts_heap (hst s')) ->
  servers_heap (hst s') = servers_heap (hst s) -> peers_of (hst s') = peers_of (hst s) -> routed ok up s'.
Proof.
  intros [Hl Hrow He Hu Hen Hr] Ec Ed Es Ep. split; rewrite ?Ec; try done.
  intros i o Hui Ho. specialize (Hr i o Hui Ho). unfold runs. rewrite Ec, Es, Ep.
  destruct o as [r |]; [| done]. destruct Hr as (Hd & Hrest). split; [by apply Ed | done].
Qed.

Context `{!Behaved Cmd E}.

Lemma after_Lock (Q : unit -> harness Cmd E -> Prop) s :
  (forall s', rely 0 s s' -> Q tt s') -> after Lock Q s.
Proof. intros HQ. apply wp_put, HQ, others_rely. done. Qed.

(** Peer [k] is being crashed or started. *)
Definition offline (ok : nat -> nat -> Prop) (k : nat) s : Prop :=
  (k < n (cfg s))%nat /\ routed ok (not_peer k) s /\ down s k.

Lemma offline_rely ok k d s s' : offline ok k s -> rely d s s' -> offline ok k s'.
Proof.
  intros (Hk & HR & Hd) Hr. split; [by destruct (rely_cfg _ _ _ Hr) as (? & ? & ? & -> & _) |].
  split; [by eapply routed_rely | by eapply down_rely].
Qed.

Lemma offline_saved ok k s l : offline ok k s -> offline ok k (on_cfg (set_saved l) s).
Proof. intros (Hk & HR & Hd). split; [done |]. split; [by apply routed_saved | done]. Qed.

Lemma offline_resave ok k f i s : offline ok k s -> after (resave f i) (fun _ => offline ok k) s.
Proof. intros Hs. eapply wp_mono; [apply after_resave |]. intros [] s' (l & ->). by apply offline_saved. Qed.

Lemma offline_Lock ok k s : offline ok k s -> after Lock (fun _ => offline ok k) s.
Proof. intros Hs. apply after_Lock. intros s'. by apply offline_rely. Qed.

(** A crashed peer and its deleted server agree. *)
Lemma offline_none ok k s :
  offline ok k s -> rafts (cfg s) !! k = Some None -> routed ok all_peers s.
Proof.
  intros (Hk & [Hl Hrow He Hu Hen Hr] & Hd) Hn. split; try done. intros i o _ Ho.
  destruct (decide (i = k)) as [-> | Hne]; [| by apply Hr]. rewrite Hn in Ho. injection Ho as <-. apply Hd.
Qed.

Lemma offline_disconnected k s i :
  routed all_ends all_peers s -> i = Z.of_nat k -> (k < n (cfg s))%nat -> connected (cfg s) !! k = Some false ->
  offline all_ends k (on_net (fun rn => DeleteServer rn (IInt i)) s).
Proof.
  intros HR -> Hk Hc. split; [done |]. unfold DeleteServer.
  split; [| split; [done | by simpl; rewrite server_at_set, decide_True]].
  destruct HR as [Hl Hrow He Hu Hen Hr]. split; try done. intros i o Hi Ho. specialize (Hr i o I Ho).
  assert (Hsv : server_at (set_server (net (cfg s)) (IInt (Z.of_nat k)) None) (IInt (Z.of_nat i)) =
    server_at (net (cfg s)) (IInt (Z.of_nat i))) by by rewrite server_at_set, decide_False.
  unfold runs. simpl. by rewrite Hsv.
Qed.

(** The peer the pointer leads to is killed, and forgotten. *)
Lemma offline_forget ok k r s :
  offline ok k s ->
  after (kill r ;; Lock ;; store rafts set_rafts (Z.of_nat k) None)
    (fun _ s' => offline ok k s' /\ rafts (cfg s') !! k = Some None) s.
Proof.
  intros (Hk & HR & Hd). eapply wp_then; [apply after_kill |]. intros [] s1 (Ec & Ed & Es & Ep).
  assert (Hs1 : offline ok k s1).
  { split; [by rewrite Ec |]. split; [| unfold down; by rewrite Ec].
    eapply routed_host; [exact HR | done | by rewrite Ed | done | done]. }
  eapply wp_then; [by apply offline_Lock |]. intros [] s2 (Hk2 & [Hl Hrow He Hu Hen Hr] & Hd2).
  apply after_store. intros k' Ek Hlt. apply Nat2Z.inj in Ek. subst k'. simpl.
  split; [| by rewrite list_lookup_insert_eq]. split; [done |]. split; [| done]. split; try done.
  - simpl. by rewrite length_insert.
  - intros i o Hi. simpl. rewrite list_lookup_insert_ne by done. by apply Hr.
Qed.

Lemma after_crash1 i s :
  routed all_ends all_peers s ->
  after (crash1 i) (fun _ s' => exists k, i = Z.of_nat k /\ offline all_ends k s' /\ rafts (cfg s') !! k = Some None) s.
Proof.
  intros HR. unfold crash1. eapply wp_then; [by apply disconnect_routed |]. intros [] s1 (k & -> & Hk & Hc & HR1).
  apply wp_bind, wp_put. eapply wp_then; [by apply offline_Lock, offline_disconnected |]. intros [] s2 Hs2.
  eapply wp_then; [by apply offline_resave |]. intros [] s3 Hs3.
  apply wp_bind, after_at_index. intros k' rf Ek Hrf. apply Nat2Z.inj in Ek. subst k'.
  eapply (wp_then _ _ _ (fun _ s' => offline all_ends k s' /\ rafts (cfg s') !! k = Some None)).
  { destruct rf as [r |]; [by apply offline_forget | by apply wp_ret]. }
  intros [] s4 [Hs4 Hn]. eapply wp_mono; [apply after_resave |]. intros [] s5 (l & ->). exists k.
  split; [done |]. split; [by apply offline_saved | done].
Qed.

(** ** Starting *)
Lemma after_randstring k s :
  after (randstring k) (fun _ s' => exists r, s' = on_hst (set_crypto_rand r) s) s.
Proof.
  unfold randstring. cut (forall m s, after (read_bytes m) (fun _ s' => exists r, s' = on_hst (set_crypto_rand r) s) s).
  { intros Hr. eapply wp_then; [apply Hr |]. intros b s1 (r & ->). apply wp_go; [| done..]. intros name _. by exists r. }
  clear s. intros m. induction m as [| m IH]; intros s; simpl.
  - apply wp_ret. exists (crypto_rand (hst s)). by destruct s as [? []].
  - apply wp_bind, wp_get, wp_bind, wp_put. eapply wp_then; [apply IH |]. intros b s1 (r & ->). apply wp_ret. by exists r.
Qed.

Lemma after_name_ends k s :
  (k < n (cfg s))%nat ->
  after (name_ends (Z.of_nat k)) (fun _ s' => exists l r, length l = n (cfg s) /\
    s' = on_hst (set_crypto_rand r) (on_cfg (set_endnames (<[k := Some l]> (endnames (cfg s)))) s)) s.
Proof.
  intros Hk. unfold name_ends. apply wp_bind, wp_get, wp_bind, after_store. intros k' Ek Hlt. apply Nat2Z.inj in Ek. subst k'.
  apply (wp_for _ _ _ (fun _ s' => exists l r, length l = n (cfg s) /\
    s' = on_hst (set_crypto_rand r) (on_cfg (set_endnames (<[k := Some l]> (endnames (cfg s)))) s))).
  - exists (replicate (n (cfg s)) []), (crypto_rand (hst s)). rewrite length_replicate. split; [done |]. by destruct s as [? []].
  - intros j s1 Hj (l & r & Hl & ->). eapply wp_then; [apply after_randstring |]. intros name s2 (r' & ->).
    apply wp_bind, after_at_index. intros k' e Ek He. apply Nat2Z.inj in Ek. subst k'. simpl in He.
    rewrite list_lookup_insert_eq in He by done. injection He as <-. wp_steps. apply wp_go; [| done..].
    intros l' [_ ->]%set_index_Ok. apply after_store. intros k' Ek _. apply Nat2Z.inj in Ek. subst k'.
    exists (<[Z.to_nat (Z.of_nat j) := name]> l), r'. rewrite length_insert. split; [done |].
    simpl. unfold on_cfg, on_hst, set_endnames, set_crypto_rand. simpl. by rewrite list_insert_insert_eq.
Qed.

Lemma end_of_insert c k l i j :
  end_of (set_endnames (<[k := l]> (endnames c)) c) i j =
  if decide (i = k /\ (k < length (endnames c))%nat) then l ≫= (.!! j) else end_of c i j.
Proof.
  unfold end_of. simpl. destruct (decide (i = k /\ _)) as [[-> Hk] | Hn]; [by rewrite list_lookup_insert_eq |].
  rewrite list_lookup_insert. rewrite decide_False by naive_solver. done.
Qed.

Lemma offline_name_ends k s :
  offline all_ends k s ->
  after (name_ends (Z.of_nat k)) (fun _ s' => offline (not_from k) k s' /\ rafts (cfg s') = rafts (cfg s)) s.
Proof.
  intros (Hk & [Hl Hrow He Hu Hen Hr] & Hd). eapply wp_mono; [by apply after_name_ends |].
  intros [] s' (l & r & Hll & ->). split; [| done]. split; [done |]. split; [| done].
  assert (Hend : forall i j, i <> k -> end_of (set_endnames (<[k := Some l]> (endnames (cfg s))) (cfg s)) i j = end_of (cfg s) i j).
  { intros i j Hi. rewrite end_of_insert. by rewrite decide_False by tauto. }
  split; simpl.
  - by rewrite length_insert.
  - intros i l'. destruct (decide (i = k)) as [-> | Hi].
    + rewrite list_lookup_insert_eq by lia. by intros [= <-].
    + rewrite list_lookup_insert_ne by done. apply Hrow.
  - intros i j name Hi. rewrite Hend by done. by apply He.
  - intros i j i' j' name Hi Hi'. rewrite !Hend by done. by apply Hu.
  - intros nm. rewrite Hen. destruct Hd as [Hc _]. split; intros (i & j & name & Hi & -> & Hn & Hci & Hcj); exists i, j, name.
    + destruct (decide (i = k)) as [-> | Hik]; [congruence |]. rewrite Hend by done. done.
    + by rewrite Hend in Hn.
  - intros i o Hi Ho. specialize (Hr i o Hi Ho). unfold runs. simpl. by rewrite list_lookup_insert_ne.
Qed.

(** One more end is made, and connected to the server of [j]. *)
Lemma offline_make_end k j name rn s :
  offline (up_to k j) k s -> end_of (cfg s) k j = Some name -> MakeEnd (net (cfg s)) (IString name) = Ok rn ->
  offline (up_to k (j + 1)) k (on_net (fun rn => Connect rn (IString name) (Some (IInt (Z.of_nat j)))) (on_net (fun _ => rn) s)).
Proof.
  intros (Hk & [Hl Hrow He Hu Hen Hr] & Hd) Hn Hm. unfold MakeEnd in Hm. destruct (decide _) as [| Hnew]; [done |].
  injection Hm as <-. split; [done |]. split; [| done].
  assert (Hup : forall i j', up_to k (j + 1) i j' -> up_to k j i j' \/ (i = k /\ j' = j)) by (unfold up_to; intros; lia).
  assert (Hold : forall i j' name', up_to k j i j' -> end_of (cfg s) i j' = Some name' -> name' <> name)
    by (intros i j' name' Ho Hn' ->; by apply He in Hn' as [Hin _]).
  split; try done.
  - intros i j' name' [Ho | [-> ->]]%Hup Hn'.
    + destruct (He _ _ _ Ho Hn') as [Hin Hc]. pose proof (Hold _ _ _ Ho Hn'). split; [simpl; set_solver |].
      unfold connection in *. simpl. by rewrite !lookup_insert_ne by congruence.
    + change (end_of (cfg s) k j = Some name') in Hn'. assert (name' = name) as -> by congruence. split; [simpl; set_solver |].
      unfold connection. simpl. by rewrite lookup_insert_eq.
  - intros i j' i2 j2 name' [Ho | [-> ->]]%Hup [Ho2 | [-> ->]]%Hup Hn1 Hn2; [by eapply Hu | | | done].
    + change (end_of (cfg s) k j = Some name') in Hn2. destruct (Hold _ _ _ Ho Hn1). congruence.
    + change (end_of (cfg s) k j = Some name') in Hn1. destruct (Hold _ _ _ Ho2 Hn2). congruence.
  - intros nm. simpl. rewrite enabled_insert, Hen. destruct Hd as [Hc _]. split.
    + intros [(i & j' & name' & Ho & -> & Hn' & Hci & Hcj) Hne]. exists i, j', name'.
      split; [unfold up_to in *; lia | done].
    + intros (i & j' & name' & [Ho | [-> ->]]%Hup & -> & Hn' & Hci & Hcj); [| simpl in Hci; congruence].
      split; [by exists i, j', name' |]. intros [= ->]. by apply (Hold _ _ _ Ho Hn').
Qed.

Lemma offline_make_ends k s :
  offline (not_from k) k s ->
  after (make_ends (Z.of_nat k)) (fun _ s' => offline all_ends k s' /\ rafts (cfg s') = rafts (cfg s)) s.
Proof.
  intros Hs. unfold make_ends. apply wp_bind, wp_get.
  assert (Hn : forall s', offline (up_to k (n (cfg s))) k s' -> n (cfg s') = n (cfg s) -> offline all_ends k s').
  { intros s' (Hk & HR & Hd) En. split; [done |]. split; [| done]. pose proof (fun i j name => end_bounds _ _ s' i j name HR) as Hb.
    destruct HR as [Hl Hrow He Hu Hen Hr].
    assert (Hall : forall i j name, end_of (cfg s') i j = Some name -> up_to k (n (cfg s)) i j)
      by (intros i j name Hn; apply Hb in Hn; right; lia).
    split; try done; [intros; eapply He; eauto | intros; eapply Hu; eauto |]. intros nm. rewrite Hen. split.
    - intros (i & j & name & _ & Hrest). by exists i, j, name.
    - intros (i & j & name & _ & -> & Hn & Hrest). exists i, j, name. eauto. }
  eapply wp_mono; [apply (wp_for _ _ _ (fun j s' => offline (up_to k j) k s' /\ n (cfg s') = n (cfg s) /\ rafts (cfg s') = rafts (cfg s))) |].
  - split; [| done]. destruct Hs as (Hk & [Hl Hrow He Hu Hen Hr] & Hd). split; [done |]. split; [| done].
    assert (Hup : forall i j, up_to k 0 i j <-> not_from k i j) by (unfold up_to, not_from; lia).
    split; try done.
    + intros i j name Ho%Hup. by apply He.
    + intros i j i' j' name Ho%Hup Ho'%Hup. by apply Hu.
    + intros nm. rewrite Hen. by setoid_rewrite Hup.
  - intros j s1 Hj (Hs1 & En & Er). apply wp_bind, after_endname_of. intros k' j' name Ek Ej Hname.
    apply Nat2Z.inj in Ek, Ej. subst k' j'. wp_steps. apply wp_go; [| done..]. intros rn Hrn. wp_steps.
    apply after_endname_of. intros k' j' name' Ek Ej Hname'. apply Nat2Z.inj in Ek, Ej. subst k' j'.
    change (end_of (cfg s1) k j = Some name') in Hname'. assert (name' = name) as -> by congruence. apply wp_put.
    split; [by eapply offline_make_end | done].
  - intros [] s' (Hs' & En & Er). split; [by apply Hn | done].
Qed.

(** A peer made with its current ends. *)
Definition made s (k : nat) (r : pointer) : Prop :=
  r ∈ dom (rafts_heap (hst s)) /\ exists l, endnames (cfg s) !! k = Some (Some l) /\ peers_of (hst s) !! r = Some l.

Lemma made_rely d s s' k r : made s k r -> rely d s s' -> made s' k r.
Proof.
  intros (Hd & l & El & Ep) Hr. destruct (rely_cfg _ _ _ Hr) as (rn & ls & m & Ec & _).
  unfold made. rewrite Ec, (rely_rafts _ _ _ Hr), (rely_peers _ _ _ Hr). split; [done | by exists l].
Qed.

Lemma new_pointer_fresh {A} (h : gmap pointer A) : new_pointer h ∉ dom h.
Proof. apply is_fresh. Qed.

Lemma in_dom_insert {A} (h : gmap pointer A) r a x : x ∈ dom (<[r := a]> h) <-> x = r \/ x ∈ dom h.
Proof. rewrite dom_insert. set_solver. Qed.

Lemma after_make_raft k s :
  after (make_raft (Z.of_nat k)) (fun r s' => (r ∉ dom (rafts_heap (hst s))) /\
    exists p ps names l, saved (cfg s) !! k = Some (Some p) /\ read_persister p s = Done ps s /\
      endnames (cfg s) !! k = Some (Some names) /\
      s' = on_cfg (set_saved l) (on_hst (fun h => set_rafts_heap (<[r := Make (n (cfg s)) (Z.of_nat k) ps]> (rafts_heap h))
             (set_peers_of (<[r := names]> (peers_of h)) h)) s) /\ l = <[k := Some (Inside r)]> (saved (cfg s))) s.
Proof.
  unfold make_raft. apply wp_bind, wp_get, wp_bind, after_at_index. intros k' p Ek Hp. apply Nat2Z.inj in Ek. subst k'.
  destruct p as [p |]; [| done]. wp_steps.
  assert (Hread : forall Q, (forall ps, read_persister p s = Done ps s -> Q ps s) -> after (read_persister p) Q s).
  { intros Q HQ. unfold wp. destruct p as [ps | r]; simpl in *; [by apply HQ |]. destruct (rafts_heap (hst s) !! r); [by apply HQ | done]. }
  apply Hread. clear Hread. intros ps Hps. wp_steps. apply after_at_index. intros k' e Ek He. apply Nat2Z.inj in Ek. subst k'.
  destruct e as [names |]; [| done]. wp_steps. apply after_store. intros k' Ek Hlt. apply Nat2Z.inj in Ek. subst k'.
  apply wp_ret. split; [apply new_pointer_fresh |]. by exists p, ps, names, (<[k := Some (Inside (new_pointer (rafts_heap (hst s))))]> (saved (cfg s))).
Qed.

Lemma offline_make_raft k s :
  offline all_ends k s ->
  after (make_raft (Z.of_nat k)) (fun r s' => offline all_ends k s' /\ made s' k r) s.
Proof.
  intros (Hk & [Hl Hrow He Hu Hen Hr] & Hd). eapply wp_mono; [apply after_make_raft |].
  intros r s' (Hnew & p & ps & names & l & _ & _ & Hnames & -> & _). split.
  - split; [done |]. split; [| done]. split; try done. intros i o Hi Ho. specialize (Hr i o Hi Ho). unfold runs. simpl.
    destruct o as [r0 |]; [| done]. destruct Hr as (Hd0 & (l0 & El0 & Ep0) & Hsv).
    assert (r0 <> r) by by intros ->. split; [apply in_dom_insert; by right |].
    split; [exists l0; by rewrite lookup_insert_ne | done].
  - split; [apply in_dom_insert; by left |]. exists names. simpl. by rewrite lookup_insert_eq.
Qed.

(** The peer is entered, and its server added: it is up. *)
Lemma online k r l s :
  offline all_ends k s -> made s k r ->
  after (store rafts set_rafts (Z.of_nat k) (Some r) ;;
         put (on_hst (fun h => set_appliers_of (appliers_of h ++ [l]) h)) ;; add_server (Z.of_nat k) r)
    (fun _ s' => routed all_ends all_peers s' /\ rafts (cfg s') !! k = Some (Some r)) s.
Proof.
  intros (Hk & [Hl Hrow He Hu Hen Hr] & Hd) (Hdom & names & Enames & Epeers). unfold add_server.
  apply wp_bind, after_store. intros k' Ek Hlt. apply Nat2Z.inj in Ek. subst k'. wp_steps.
  set (sv := new_pointer _). assert (Hsv : sv ∉ dom (servers_heap (hst s))) by apply new_pointer_fresh.
  split; [| simpl; by rewrite list_lookup_insert_eq]. split; try done.
  - simpl. by rewrite length_insert.
  - intros i o _. simpl. unfold runs. simpl. unfold AddServer. rewrite server_at_set.
    destruct (decide (i = k)) as [-> | Hne].
    + rewrite list_lookup_insert_eq by done. intros [= <-]. split; [done |]. split; [by exists names |].
      exists sv. eexists. split; [done |]. split; [by rewrite lookup_insert_eq | done].
    + rewrite list_lookup_insert_ne by done. intros Ho. specialize (Hr i o Hne Ho). destruct o as [r0 |]; [| done].
      destruct Hr as (Hd0 & Hp0 & sv0 & rs & Esv & Ers & Hrs). split; [done |]. split; [done |].
      exists sv0, rs. split; [done |]. split; [| done]. rewrite lookup_insert_ne; [done |]. intros E1. apply Hsv. rewrite E1. by apply elem_of_dom.
Qed.

Lemma after_start1 i s :
  routed all_ends all_peers s -> after (start1 i) (fun _ s' => routed all_ends all_peers s') s.
Proof.
  intros HR. unfold start1. eapply wp_then; [by apply after_crash1 |]. intros [] s1 (k & -> & Hs1 & _).
  eapply wp_then; [by apply offline_name_ends |]. intros [] s2 [Hs2 _].
  eapply wp_then; [by apply offline_make_ends |]. intros [] s3 [Hs3 _].
  eapply wp_then; [by apply offline_Lock |]. intros [] s4 Hs4.
  apply wp_bind, after_at_index. intros k' p Ek Hp. apply Nat2Z.inj in Ek. subst k'.
  eapply (wp_then _ _ _ (fun _ => offline all_ends k)).
  { destruct p as [p |]; [by apply offline_resave |]. apply after_store. intros k' Ek Hlt. by apply offline_saved. }
  intros [] s5 Hs5. eapply wp_then; [by apply offline_make_raft |]. intros r s6 [Hs6 Hm].
  apply wp_bind, after_Lock. intros s7 H67. eapply wp_mono; [apply (online k r (Z.of_nat k, r) s7) |].
  - by eapply offline_rely.
  - by eapply made_rely.
  - by intros [] s8 [HR8 _].
Qed.

(** ** Sessions *)
Lemma routed_new k t h : routed all_ends all_peers (MkHarness (new_config k t) h : harness Cmd E).
Proof.
  assert (Hnone : forall A i (x : option A), replicate k (@None A) !! i = Some x -> x = None)
    by (intros A i x [-> _]%lookup_replicate; done).
  assert (Hend : forall i j, end_of (new_config k t : config Cmd) i j = None).
  { intros i j. unfold end_of. simpl. destruct (replicate k None !! i) as [e |] eqn:Ee; [| done]. by rewrite (Hnone _ _ _ Ee). }
  split; simpl; rewrite ?length_replicate; try done.
  - by intros i l Hi%Hnone.
  - intros i j name _. by rewrite Hend.
  - intros i j i' j' name _ _. by rewrite Hend.
  - intros nm. split; [done |]. intros (i & j & name & _ & _ & Hn & _). by rewrite Hend in Hn.
  - intros i o _ Ho%Hnone. by subst o.
Qed.

Lemma make_config_routed k unreliable s :
  after (make_config k unreliable) (fun _ s' => routed all_ends all_peers s') s.
Proof.
  unfold make_config, setunreliable. do 8 wp_step.
  eapply wp_then.
  { apply (wp_for _ _ _ (fun _ => routed all_ends all_peers)).
    - destruct (routed_new k (now (hst s)) (hst s)) as [Hl Hrow He Hu Hen Hr]. split; done.
    - intros j s1 Hj Hs1. apply wp_bind, after_store. intros m _ _. apply after_start1.
      destruct Hs1 as [Hl Hrow He Hu Hen Hr]. split; done. }
  intros [] s1 Hs1. apply (wp_for _ _ _ (fun _ => routed all_ends all_peers)); [done |].
  intros j s2 Hj Hs2. by apply connect_routed.
Qed.

(** What a test does with its harness. *)
Inductive operation :=
  | OStart1 (i : Z) | OCrash1 (i : Z) | OConnect (i : Z) | ODisconnect (i : Z)
  | OSetunreliable (b : bool) | OSetlongreordering (b : bool) | OSleep (d : Z)
  | OCheckOneLeader | OCheckTerms | OCheckNoLeader | ONCommitted (idx : Z) | OWait (idx k startTerm : Z)
  | OOne (cmd : option Cmd) (expectedServers : Z) (retry : bool) | OBegin | OEnd.

Definition perform (o : operation) : tst (harness Cmd E) unit :=
  match o with
  | OStart1 i => start1 i
  | OCrash1 i => crash1 i
  | OConnect i => connect i
  | ODisconnect i => disconnect i
  | OSetunreliable b => setunreliable b
  | OSetlongreordering b => setlongreordering b
  | OSleep d => Sleep (Z.max 0 d)
  | OCheckOneLeader => checkOneLeader ;; mret tt
  | OCheckTerms => checkTerms ;; mret tt
  | OCheckNoLeader => checkNoLeader
  | ONCommitted idx => nCommitted idx ;; mret tt
  | OWait idx k startTerm => wait idx k startTerm ;; mret tt
  | OOne cmd k retry => one cmd k retry ;; mret tt
  | OBegin => begin
  | OEnd => end_test ;; mret tt
  end.

Fixpoint perform_all (os : list operation) : tst (harness Cmd E) unit :=
  match os with [] => mret tt | o :: os => perform o ;; perform_all os end.

(** ** Computations that keep the invariant *)
Definition harmless {A} (m : tst (harness Cmd E) A) : Prop :=
  forall s, routed all_ends all_peers s -> after m (fun _ => routed all_ends all_peers) s.

Lemma harmless_ret {A} (a : A) : harmless (mret a).
Proof. intros s Hs. by apply wp_ret. Qed.

Lemma harmless_bind {A B} (m : tst _ A) (f : A -> tst _ B) : harmless m -> (forall a, harmless (f a)) -> harmless (m ≫= f).
Proof. intros Hm Hf s Hs. eapply wp_then; [by apply Hm |]. intros a s'. apply Hf. Qed.

Lemma harmless_get {A} (f : harness Cmd E -> A) : harmless (get f).
Proof. by intros s Hs. Qed.

Lemma harmless_go {A} (o : outcome A) : harmless (go o).
Proof. intros s Hs. by apply wp_go. Qed.

Lemma harmless_Fatalf {A} message : harmless (Fatalf (A := A) message).
Proof. by intros s Hs. Qed.

Lemma harmless_others d : 0 <= d -> harmless (others_run d).
Proof. intros Hd s Hs. apply wp_put. eapply routed_rely; [exact Hs | by apply others_rely]. Qed.

Lemma harmless_Lock : harmless Lock.
Proof. by apply harmless_others. Qed.

Lemma harmless_hst f :
  (forall h : host Cmd E, dom (rafts_heap h) ⊆ dom (rafts_heap (f h)) /\ servers_heap (f h) = servers_heap h /\ peers_of (f h) = peers_of h) ->
  harmless (put (on_hst f)).
Proof. intros Hf s Hs. apply wp_put. destruct (Hf (hst s)) as (Hd & Es & Ep). by eapply routed_host. Qed.

Lemma harmless_the {A} (f : config Cmd -> A) : harmless (the f).
Proof. apply harmless_get. Qed.

Lemma harmless_at_index {A} (f : config Cmd -> list A) i : harmless (at_index f i).
Proof. apply harmless_bind; [apply harmless_the | intros; apply harmless_go]. Qed.

Lemma harmless_for (js : list Z) body : (forall j, harmless (body j)) -> harmless (for_each js body).
Proof.
  intros Hb. induction js as [| j js IH]; simpl; [apply harmless_ret |]. apply harmless_bind; [done | by intros []].
Qed.

#[local] Hint Resolve harmless_ret harmless_get harmless_go harmless_Fatalf harmless_Lock harmless_the harmless_at_index
  harmless_for : harness.

(** Follow the structure of a computation. *)
Ltac harmless :=
  repeat first
    [ progress intros
    | solve [eauto with harness]
    | match goal with
      | |- harmless (_ ≫= _) => apply harmless_bind
      | |- harmless (match ?x with _ => _ end) => destruct x
      | |- harmless (if ?b then _ else _) => destruct b
      | |- harmless (let (_, _) := ?x in _) => destruct x
      end ].

Lemma harmless_GetState_of r : harmless (GetState_of r).
Proof. unfold GetState_of. harmless. Qed.
#[local] Hint Resolve harmless_GetState_of : harness.

Lemma harmless_find_leaders js l : harmless (find_leaders js l).
Proof. revert l. induction js; intros l; simpl; harmless. Qed.

Lemma harmless_last_term es t : harmless (last_term es t).
Proof. revert t. induction es as [| [] es IH]; intros t; simpl; harmless. Qed.

Lemma harmless_draw r : harmless (put (on_hst (E := E) (set_math_rand r))).
Proof. by apply harmless_hst. Qed.
#[local] Hint Resolve harmless_find_leaders harmless_last_term harmless_draw : harness.

Lemma harmless_Sleep d : 0 <= d -> harmless (Sleep d).
Proof. apply harmless_others. Qed.

Lemma harmless_checkOneLeader k : harmless (checkOneLeader_from k).
Proof.
  induction k; simpl; [harmless |]. apply harmless_bind; [harmless | intros r]. apply harmless_bind; [harmless | intros _].
  apply harmless_bind; [| intros _; harmless]. apply harmless_Sleep. unfold millisecond.
  pose proof (Z.mod_pos_bound (first_draw r) (2 ^ 63) eq_refl) as [Hpos _].
  pose proof (Z.rem_nonneg (first_draw r mod 2 ^ 63) 100 ltac:(done) Hpos). lia.
Qed.

Lemma harmless_checkTerms js t : harmless (checkTerms_from js t).
Proof. revert t. induction js; intros t; simpl; harmless. Qed.

Lemma harmless_nCommitted idx : harmless (nCommitted idx).
Proof.
  unfold nCommitted. apply harmless_bind; [harmless | intros rs]. generalize (below (length rs)) as js. intros js.
  generalize 0 (@None Cmd). induction js; intros c o; simpl; harmless.
Qed.

Lemma harmless_moved_on rs t : harmless (moved_on rs t).
Proof. induction rs; simpl; harmless. Qed.
#[local] Hint Resolve harmless_checkOneLeader harmless_checkTerms harmless_nCommitted harmless_moved_on : harness.

Lemma harmless_wait_from iters idx k t to : 0 <= to -> harmless (wait_from iters idx k t to).
Proof.
  revert to. induction iters as [| iters IH]; intros to Hto; simpl; [harmless |].
  apply harmless_bind; [harmless | intros [nd c]]. destruct (k <=? nd); [harmless |].
  apply harmless_bind; [by apply harmless_Sleep | intros _]. apply harmless_bind; [harmless |]. intros [|]; [harmless |].
  apply IH. destruct (to <? second); lia.
Qed.

Lemma harmless_offer k cmd st : harmless (offer k cmd st).
Proof.
  revert st. induction k as [| k IH]; intros st; simpl; [harmless |].
  do 4 (apply harmless_bind; [harmless | intros ?]). apply harmless_bind; [harmless |]. intros [r |]; [| harmless].
  do 3 (apply harmless_bind; [harmless | intros ?]). apply harmless_bind; [harmless |]. intros [rf' [[idx t] ok]].
  apply harmless_bind; [| harmless]. apply harmless_hst. intros h. split; [| done]. simpl.
  intros x Hx. apply in_dom_insert. by right.
Qed.

Lemma harmless_await fuel t idx cmd k : harmless (await fuel t idx cmd k).
Proof. induction fuel; simpl; harmless. by apply harmless_Sleep. Qed.
#[local] Hint Resolve harmless_wait_from harmless_offer harmless_await : harness.

Lemma harmless_one fuel t st cmd k retry : harmless (one_from fuel t st cmd k retry).
Proof. revert st. induction fuel; intros st; cbn [one_from]; harmless. by apply harmless_Sleep. Qed.

Lemma perform_routed o : harmless (perform o).
Proof.
  assert (Hput : forall f, (forall s, routed all_ends all_peers s -> routed all_ends all_peers (f s)) -> harmless (put f))
    by (intros f Hf s Hs; apply wp_put; auto).
  destruct o; unfold perform, setunreliable, setlongreordering, checkOneLeader, checkTerms, checkNoLeader, wait, one, begin, end_test,
    checkTimeout, rpcTotal, bytesTotal.
  - intros s. apply after_start1.
  - intros s Hs. eapply wp_mono; [by apply after_crash1 |]. intros [] s' (k & _ & Hoff & Hn). by eapply offline_none.
  - intros s. apply connect_routed.
  - intros s Hs. eapply wp_mono; [by apply disconnect_routed |]. intros [] s' (k & _ & _ & _ & HR). done.
  - apply Hput. intros s [Hl Hrow He Hu Hen Hr]. split; done.
  - apply Hput. intros s [Hl Hrow He Hu Hen Hr]. split; done.
  - apply harmless_Sleep. lia.
  - harmless.
  - harmless.
  - apply harmless_bind; [harmless |]. intros k. apply harmless_for. intros j. harmless.
  - harmless.
  - apply harmless_bind; [| harmless]. apply harmless_bind; [by apply harmless_wait_from | harmless].
  - apply harmless_bind; [| harmless]. apply harmless_bind; [harmless |]. intros t. apply harmless_one.
  - do 3 (apply harmless_bind; [harmless | intros ?]). apply Hput. intros s [Hl Hrow He Hu Hen Hr]. split; done.
  - harmless.
Qed.

Lemma perform_all_routed os : harmless (perform_all os).
Proof. induction os as [| o os IH]; simpl; [apply harmless_ret |]. apply harmless_bind; [apply perform_routed | by intros []]. Qed.
End routing.
