(* ===== verification/ConfigSpec.v ===== *)
(** * What the Raft test harness promises a test

    Messages go only between connected peers, and to the peers they are meant
    for; a restarted peer finds what its predecessor had persisted; an entry is
    logged exactly when it contradicts no log and leaves no gap; [one] returns,
    and only with an entry that enough servers have logged; and
    [checkOneLeader] never sees two leaders of one term, because Raft never has
    them. *)
From Stdlib Require Import String.
From S2P Require Import Prelude Strconv Effects Labgob Labrpc Persister RaftServer RaftServerFacts RaftCluster RaftElection RaftRpc Config ConfigLogic ConfigRouting.

Local Open Scope Z_scope.

Section spec.
Context {Cmd E : Type} `{EqDecision Cmd} `{GoRuntime Cmd} `{CommandValue Cmd} `{Rest Cmd E} `{!Behaved Cmd E}.
Implicit Types s : harness Cmd E.
Implicit Types c : config Cmd.

(** ** Routing *)

(** The server a request on an end is delivered to. *)
Definition leads_to s (i j : nat) (rt : option route) : Prop :=
  match rt with
  | Some rt =>
      connected (cfg s) !! i = Some true /\ connected (cfg s) !! j = Some true /\
      Labrpc.servername rt = IInt (Z.of_nat j) /\
      exists r rs, rafts (cfg s) !! j = Some (Some r) /\ servers_heap (hst s) !! Labrpc.server rt = Some rs /\
        services rs = {[ lit "Raft" := raft_service r ]}
  | None => connected (cfg s) !! i = Some false \/ connected (cfg s) !! j = Some false \/ rafts (cfg s) !! j = Some None
  end.

Lemma routed_leads_to s i j name :
  routed all_ends all_peers s -> end_of (cfg s) i j = Some name ->
  leads_to s i j (find_route (net (cfg s)) (IString name)).
Proof.
  intros HR He. destruct (end_bounds _ _ _ _ _ _ HR He) as [Hi Hj]. destruct HR as [(Hlc & _ & Hlr) _ Hends Hu Hen Hr].
  destruct (Hends i j name I He) as [_ Hconn].
  destruct (lookup_lt_is_Some_2 (connected (cfg s)) i) as [ci Hci]; [lia |].
  destruct (lookup_lt_is_Some_2 (connected (cfg s)) j) as [cj Hcj]; [lia |].
  destruct (lookup_lt_is_Some_2 (rafts (cfg s)) j) as [o Ho]; [lia |].
  unfold find_route, readEndnameInfo. rewrite Hconn. simpl.
  destruct (is_enabled (net (cfg s)) (IString name)) eqn:Een.
  - apply Hen in Een as (i' & j' & name' & _ & [= <-] & He' & Hi' & Hj').
    destruct (Hu _ _ _ _ _ I I He He') as [<- <-]. specialize (Hr j o I Ho). destruct o as [r |].
    + destruct Hr as (_ & _ & sv & rs & -> & Hrs & Hsvc). simpl. split_and!; try done. by exists r, rs.
    + rewrite Hr. simpl. auto.
  - simpl. destruct ci; [| by left]. destruct cj; [| by right; left]. exfalso.
    cut (is_enabled (net (cfg s)) (IString name) = true); [congruence |]. apply Hen. by exists i, j, name.
Qed.

(** C17: the network a test sees.  Whatever a test does with its harness, and
    however the rest of the process runs meanwhile, a request on the current end
    from peer [i] to peer [j] is delivered exactly when both are connected and [j]
    runs, and then to the server that serves the instance of [j] started last.
    A running instance has the current ends; any other end, such as one of a
    replaced instance, leads nowhere. *)
Theorem harness_routing k unreliable os s s' :
  (make_config k unreliable ;; perform_all os) s = Done tt s' ->
  (forall i j name, end_of (cfg s') i j = Some name -> leads_to s' i j (find_route (net (cfg s')) (IString name))) /\
  (forall nm rt, find_route (net (cfg s')) nm = Some rt ->
     exists i j name, nm = IString name /\ end_of (cfg s') i j = Some name) /\
  (forall i r, rafts (cfg s') !! i = Some (Some r) ->
     exists l, endnames (cfg s') !! i = Some (Some l) /\ peers_of (hst s') !! r = Some l).
Proof.
  intros Hrun. assert (HR : routed all_ends all_peers s').
  { eapply (after_Done _ (fun _ => routed all_ends all_peers) s); [| exact Hrun].
    eapply wp_then; [apply make_config_routed |]. intros [] s1. apply perform_all_routed. }
  split; [intros; by apply routed_leads_to |]. split; [| by intros i r Hr; apply (ro_rafts _ _ _ HR i (Some r) I Hr)].
  intros nm rt Hrt. unfold find_route, readEndnameInfo in Hrt.
  destruct (is_enabled (net (cfg s')) nm) eqn:Een; [| done].
  apply (ro_enabled _ _ _ HR) in Een as (i & j & name & _ & -> & He & _). by exists i, j, name.
Qed.

(** ** Restarting *)

(** What the persister of peer [k] holds. *)
Definition content s (k : nat) : Persister (gob_message Cmd) :=
  match saved (cfg s) !! k with
  | Some (Some (Own ps)) => ps
  | Some (Some (Inside r)) => match rafts_heap (hst s) !! r with Some rf => persister rf | None => MakePersister end
  | _ => MakePersister
  end.

(** Peer [k] holds on to no persister that others write to. *)
Definition holds (k : nat) (o : option (Persister (gob_message Cmd))) s : Prop :=
  saved (cfg s) !! k = Some (Own <$> o).

Definition keeps_saved {A} (m : tst (harness Cmd E) A) : Prop :=
  forall s, after m (fun _ s' => saved (cfg s') = saved (cfg s)) s.

Lemma keeps_saved_ret {A} (a : A) : keeps_saved (mret a).
Proof. by intros s. Qed.

Lemma keeps_saved_bind {A B} (m : tst _ A) (f : A -> tst _ B) : keeps_saved m -> (forall a, keeps_saved (f a)) -> keeps_saved (m ≫= f).
Proof. intros Hm Hf s. eapply wp_then; [apply Hm |]. intros a s1 E1. eapply wp_mono; [apply Hf |]. simpl. by intros b s2 ->. Qed.

Lemma keeps_saved_go {A} (o : outcome A) : keeps_saved (go o).
Proof. intros s. by apply wp_go. Qed.

Lemma keeps_saved_put f : (forall s, saved (cfg (f s)) = saved (cfg s)) -> keeps_saved (put f).
Proof. intros Hf s. by apply wp_put. Qed.

Lemma keeps_saved_at_index {A} (f : config Cmd -> list A) i : keeps_saved (at_index f i).
Proof. intros s. by apply after_at_index. Qed.

Lemma keeps_saved_store {A} (f : config Cmd -> list A) upd i a :
  (forall l c, saved (upd l c) = saved c) -> keeps_saved (store f upd i a).
Proof. intros Hu s. apply after_store. intros. apply Hu. Qed.

Lemma keeps_saved_Lock : keeps_saved Lock.
Proof. intros s. apply after_Lock. intros s' Hr. by destruct (rely_cfg _ _ _ Hr) as (? & ? & ? & -> & _). Qed.

Lemma keeps_saved_for js body : (forall j, keeps_saved (body j)) -> keeps_saved (for_each js body).
Proof. intros Hb. induction js as [| j js IH]; simpl; [apply keeps_saved_ret |]. apply keeps_saved_bind; [done | by intros []]. Qed.

#[local] Hint Resolve keeps_saved_ret keeps_saved_go keeps_saved_at_index keeps_saved_Lock : harness.

Ltac keeps_saved :=
  repeat first
    [ progress intros
    | solve [eauto with harness]
    | apply keeps_saved_bind
    | apply keeps_saved_for
    | by apply keeps_saved_put
    | by apply keeps_saved_store
    | match goal with
      | |- keeps_saved (match ?x with _ => _ end) => destruct x
      | |- keeps_saved (get _) => by intro
      | |- keeps_saved (the _) => by intro
      end ].

Lemma keeps_saved_endname_of i j : keeps_saved (endname_of i j).
Proof. unfold endname_of. keeps_saved. Qed.
#[local] Hint Resolve keeps_saved_endname_of : harness.

Lemma keeps_saved_disconnect i : keeps_saved (disconnect i).
Proof. unfold disconnect, enable. keeps_saved. Qed.

Lemma keeps_saved_randstring k : keeps_saved (randstring k).
Proof.
  unfold randstring. apply keeps_saved_bind; [| keeps_saved]. induction (2 * k)%nat as [| m IH]; simpl; keeps_saved.
Qed.
#[local] Hint Resolve keeps_saved_disconnect keeps_saved_randstring : harness.

Lemma keeps_saved_name_ends i : keeps_saved (name_ends i).
Proof. unfold name_ends. keeps_saved. Qed.

Lemma keeps_saved_make_ends i : keeps_saved (make_ends i).
Proof. unfold make_ends. keeps_saved. Qed.

Lemma holds_keeps {A} (m : tst (harness Cmd E) A) k o s : keeps_saved m -> holds k o s -> after m (fun _ => holds k o) s.
Proof. intros Hm Ho. eapply wp_mono; [apply Hm |]. unfold holds. by intros _ s' ->. Qed.

(** The slot of peer [k] takes a persister of its own. *)
Lemma after_resave_slot f k s :
  after (resave f (Z.of_nat k)) (fun _ s' => exists o, holds k (f <$> o) s' /\ default MakePersister o = content s k) s.
Proof.
  unfold resave. apply wp_bind, after_at_index. intros k' p Ek Hp. apply Nat2Z.inj in Ek. subst k'. unfold content. rewrite Hp.
  destruct p as [p |]; [| apply wp_ret; by exists None]. apply wp_bind. unfold wp at 1, read_persister.
  assert (Hst : forall ps, after (store saved set_saved (Z.of_nat k) (Some (Own (f ps))))
    (fun _ s' => exists o, holds k (f <$> o) s' /\ default MakePersister o = ps) s).
  { intros ps. apply after_store. intros k' Ek Hlt. apply Nat2Z.inj in Ek. subst k'. exists (Some ps). split; [| done].
    unfold holds. simpl. by rewrite list_lookup_insert_eq. }
  destruct p as [ps | r]; [apply Hst |]. destruct (rafts_heap (hst s) !! r) as [rf |] eqn:E1; [| done].
  apply Hst.
Qed.

Lemma after_resave_held f k o s : holds k o s -> after (resave f (Z.of_nat k)) (fun _ => holds k (f <$> o)) s.
Proof.
  intros Ho. unfold resave. apply wp_bind, after_at_index. intros k' p Ek Hp. apply Nat2Z.inj in Ek. subst k'.
  unfold holds in Ho. rewrite Ho in Hp. injection Hp as <-. destruct o as [ps |]; [| by apply wp_ret].
  simpl. apply wp_bind, wp_ret, after_store. intros k' Ek Hlt. apply Nat2Z.inj in Ek. subst k'.
  unfold holds. simpl. by rewrite list_lookup_insert_eq.
Qed.

Lemma Copy_id (ps : Persister (gob_message Cmd)) : Copy ps = ps.
Proof. by destruct ps. Qed.

Lemma resaved_id (ps : Persister (gob_message Cmd)) : SaveStateAndSnapshot MakePersister (ReadRaftState ps) (ReadSnapshot ps) = ps.
Proof. destruct ps. unfold SaveStateAndSnapshot, ReadRaftState, ReadSnapshot. simpl. by rewrite !clone_id. Qed.

(** The state in which the crash copies the persister: the test has only cut
    the peer off, and the others have run. *)
Definition crash_point s s0 : Prop :=
  exists s1, hst s1 = hst s /\ saved (cfg s1) = saved (cfg s) /\ rely 0 s1 s0.

Lemma after_crash1_saved i s :
  after (crash1 i) (fun _ s' => exists k s0 o, i = Z.of_nat k /\ crash_point s s0 /\ holds k o s' /\
    default MakePersister o = content s0 k) s.
Proof.
  unfold crash1. eapply wp_then; [apply after_disconnect |]. intros [] s1 (k & m & -> & Hk & -> & _).
  apply wp_bind, wp_put, wp_bind, after_Lock. intros s2 H12.
  eapply wp_then; [apply after_resave_slot |]. intros [] s3 (o & Ho & Econt).
  assert (Hid : Copy <$> o = o) by (destruct o; simpl; [by rewrite Copy_id | done]). rewrite Hid in Ho.
  apply wp_bind. eapply wp_mono; [apply (holds_keeps _ k o); [apply keeps_saved_at_index | done] |]. intros rf s4 Hs4.
  eapply (wp_then _ _ _ (fun _ => holds k o)).
  { apply holds_keeps; [| done]. unfold kill. keeps_saved. }
  intros [] s5 Hs5. eapply wp_mono; [by apply after_resave_held |]. intros [] s6 Hs6. exists k, s2, o. split; [done |].
  split; [eexists; split; [| split; [| exact H12]]; done |]. split; [| done].
  destruct o as [ps |]; [| done]. simpl in Hs6. by rewrite resaved_id in Hs6.
Qed.

(** Where a peer has just been made. *)
Definition made_with s (k : nat) (r : pointer) (ps : Persister (gob_message Cmd)) : Prop :=
  rafts_heap (hst s) !! r = Some (Make (n (cfg s)) (Z.of_nat k) ps) /\ saved (cfg s) !! k = Some (Some (Inside r)).

Lemma after_start1_saved i s :
  after (start1 i) (fun _ s' => exists k s0 s1 s2 r, i = Z.of_nat k /\ crash_point s s0 /\
    made_with s1 k r (content s0 k) /\ rely 0 s1 s2 /\ rafts_heap (hst s') = rafts_heap (hst s2) /\
    n (cfg s') = n (cfg s1) /\ rafts (cfg s') !! k = Some (Some r) /\ saved (cfg s') !! k = Some (Some (Inside r))) s.
Proof.
  unfold start1. eapply wp_then; [apply after_crash1_saved |]. intros [] s1 (k & s0 & o & -> & Hcp & Ho & Econt).
  eapply wp_then; [apply holds_keeps; [apply keeps_saved_name_ends | exact Ho] |]. intros [] s2 Hs2.
  eapply wp_then; [apply holds_keeps; [apply keeps_saved_make_ends | exact Hs2] |]. intros [] s3 Hs3.
  eapply wp_then; [apply holds_keeps; [apply keeps_saved_Lock | exact Hs3] |]. intros [] s4 Hs4.
  apply wp_bind, after_at_index. intros k' p Ek Hp. apply Nat2Z.inj in Ek. subst k'.
  eapply (wp_then _ _ _ (fun _ => holds k (Some (content s0 k)))).
  { unfold holds in Hs4. rewrite Hs4 in Hp. injection Hp as <-. rewrite <- Econt. destruct o as [ps |]; simpl.
    - eapply wp_mono; [apply (after_resave_held _ k (Some ps)); exact Hs4 |]. simpl. by rewrite Copy_id.
    - apply after_store. intros k' Ek Hlt. apply Nat2Z.inj in Ek. subst k'. unfold holds. simpl. by rewrite list_lookup_insert_eq. }
  intros [] s5 Hs5. eapply wp_then; [apply after_make_raft |].
  intros r s6 (_ & p' & ps & names & l & Hp' & Hread & _ & Hs6 & Hl). unfold holds in Hs5. rewrite Hs5 in Hp'.
  injection Hp' as <-. injection Hread as <-. apply wp_bind, after_Lock. intros s7 H67.
  assert (Hmade : made_with s6 k r (content s0 k)).
  { rewrite Hs6. split; simpl; [exact (lookup_insert_eq (M := gmap pointer) _ _ _) |]. rewrite Hl, list_lookup_insert_eq; [done |].
    by eapply lookup_lt_Some. }
  clear Hs6. destruct (rely_cfg _ _ _ H67) as (rn & ls & m & Ec & _).
  apply wp_bind, after_store. intros k' Ek Hlt. apply Nat2Z.inj in Ek. subst k'. unfold add_server. wp_steps.
  exists k, s0, s6, s7, r. split; [done |]. split; [done |]. split; [done |]. split; [done |]. simpl. rewrite Ec. simpl.
  split; [done |]. split; [done |]. split; [| apply Hmade]. rewrite Ec in Hlt. by rewrite list_lookup_insert_eq.
Qed.

(** What [Make] reads back of what [persist] saved. *)
Lemma Make_persisted k i (rf : Raft Cmd) ps :
  encodable (log rf) = true -> raftstate ps = raftstate (persister (persist rf)) ->
  let peer := Make k i ps in
  currentTerm peer = currentTerm rf /\ log peer = log rf /\ votedFor peer = -1 /\ state peer = FOLLOWER.
Proof.
  intros Henc Hps. unfold persist in Hps. rewrite Henc in Hps. simpl in Hps. rewrite clone_id in Hps.
  unfold Make, ReadRaftState. rewrite Hps, clone_id. simpl.
  match goal with |- context [persist ?r] => destruct (persist_set r) as [ps' ->] end. done.
Qed.

(** Restarting a peer.  [start1] makes a new instance from what the
    persister of the old one holds when the harness copies it, after it has cut
    the peer off; nothing the old instance persists later reaches the new one.
    In particular, if the old instance last persisted in a state [rf], the new
    one starts with the term and the log of [rf], as a follower, without its
    vote. *)
Theorem restart_keeps_persisted i s s' :
  start1 i s = Done tt s' ->
  exists k s0 s1 s2 r peer, i = Z.of_nat k /\ crash_point s s0 /\
    rafts_heap (hst s1) !! r = Some peer /\ peer = Make (n (cfg s')) i (content s0 k) /\
    rely 0 s1 s2 /\ rafts_heap (hst s') = rafts_heap (hst s2) /\
    rafts (cfg s') !! k = Some (Some r) /\ saved (cfg s') !! k = Some (Some (Inside r)) /\
    (forall rf, encodable (log rf) = true -> raftstate (content s0 k) = raftstate (persister (persist rf)) ->
       currentTerm peer = currentTerm rf /\ log peer = log rf /\ votedFor peer = -1 /\ state peer = FOLLOWER).
Proof.
  intros Hrun. destruct (after_Done _ _ _ _ _ (after_start1_saved i s) Hrun)
    as (k & s0 & s1 & s2 & r & -> & Hcp & [Hpeer Hin] & Hr & Eh & En & Hraft & Hsaved).
  exists k, s0, s1, s2, r, (Make (n (cfg s')) (Z.of_nat k) (content s0 k)). rewrite En at 1.
  split_and!; try done. intros rf. apply Make_persisted.
Qed.

(** ** The logs the harness keeps *)

(** No two logs disagree, and no log has a gap above 1. *)
Record logs_ok c : Prop := LogsOk {
  logs_agree : forall i j li lj idx v w, logs c !! i = Some li -> logs c !! j = Some lj ->
    logged li idx = Some v -> logged lj idx = Some w -> v = w;
  logs_filled : forall i l idx v, logs c !! i = Some l -> logged l idx = Some v -> 1 < idx -> is_Some (logged l (idx - 1))
}.

(** Some server has logged another command. *)
Definition contradicts c (idx : Z) (v : option Cmd) : Prop :=
  exists j l w, logs c !! j = Some l /\ logged l idx = Some w /\ w <> v.

Lemma find_conflict_nil i j idx (v : option Cmd) ls err :
  find_conflict i j idx v ls err = [] <-> err = [] /\ forall l w, l ∈ ls -> logged l idx = Some w -> w = v.
Proof.
  revert j err. induction ls as [| l ls IH]; intros j err; simpl.
  { split; [intros ->; split; [done |]; intros l w Hl; inversion Hl | by intros []]. }
  rewrite IH. destruct (logged l idx) as [old |] eqn:El; [destruct (decide (old = v)) as [<- | Hne] |].
  - split; intros [-> Hall]; (split; [done |]); intros l' w; [intros [-> | Hl']%elem_of_cons Hw; [congruence | by eapply Hall] |].
    intros Hl'. apply Hall, elem_of_cons. by right.
  - split; [intros [Et _]; unfold conflict_text in Et; simpl in Et; discriminate Et |]. intros [_ Hall]. destruct Hne.
    apply (Hall l); [apply elem_of_cons; by left | done].
  - split; intros [-> Hall]; (split; [done |]); intros l' w; [intros [-> | Hl']%elem_of_cons Hw; [congruence | by eapply Hall] |].
    intros Hl'. apply Hall, elem_of_cons. by right.
Qed.

Lemma find_conflict_found i j idx (v : option Cmd) ls err :
  find_conflict i j idx v ls err <> [] -> err <> [] \/ exists l w, l ∈ ls /\ logged l idx = Some w /\ w <> v.
Proof.
  revert j err. induction ls as [| l ls IH]; intros j err; simpl; [by left |]. intros [He | (l' & w & Hl' & Hw)]%IH.
  - destruct (logged l idx) as [old |] eqn:El; [| by left]. destruct (decide (old = v)) as [| Hne]; [by left |].
    right. exists l, old. split; [apply elem_of_cons; by left | done].
  - right. exists l', w. split; [apply elem_of_cons; by right | done].
Qed.

Lemma find_conflict_contradicts i c idx v : find_conflict i 0 idx v (logs c) [] = [] <-> ~ contradicts c idx v.
Proof.
  rewrite find_conflict_nil. split.
  - intros [_ Hall] (j & l & w & Hl & Hw & Hne). apply Hne, (Hall l); [by eapply list_elem_of_lookup_2 | done].
  - intros Hno. split; [done |]. intros l w (j & Hl)%list_elem_of_lookup_1 Hw. destruct (decide (w = v)) as [| Hne]; [done |].
    destruct Hno. by exists j, l, w.
Qed.

(** Logging a command that contradicts nothing and leaves no gap. *)
Definition log_entry (k : nat) (l : gmap Z (option Cmd)) (idx : Z) (v : option Cmd) c : config Cmd :=
  set_maxIndex (Z.max (maxIndex c) idx) (set_logs (<[k := Some (<[idx := v]> l)]> (logs c)) c).

Lemma log_entry_lookup k l idx v c j l' idx' w :
  logs c !! k = Some (Some l) -> logs (log_entry k l idx v c) !! j = Some l' -> logged l' idx' = Some w ->
  (idx' = idx /\ w = v) \/ exists l0, logs c !! j = Some l0 /\ logged l0 idx' = Some w.
Proof.
  intros Hk Hj Hw. simpl in Hj. destruct (decide (j = k)) as [-> | Hne].
  - rewrite list_lookup_insert_eq in Hj by by eapply lookup_lt_Some. injection Hj as <-. simpl in Hw.
    destruct (decide (idx = idx')) as [<- | Hi]; [rewrite lookup_insert_eq in Hw; left; split; congruence |].
    rewrite lookup_insert_ne in Hw by done. right. by exists (Some l).
  - rewrite list_lookup_insert_ne in Hj by done. right. by exists l'.
Qed.

Lemma log_entry_keeps k l idx v c j l0 idx' w :
  logs c !! k = Some (Some l) -> ~ contradicts c idx v -> logs c !! j = Some l0 -> logged l0 idx' = Some w ->
  exists l', logs (log_entry k l idx v c) !! j = Some l' /\ logged l' idx' = Some w.
Proof.
  intros Hk Hno Hj Hw. simpl. destruct (decide (j = k)) as [-> | Hne]; [| by exists l0; rewrite list_lookup_insert_ne].
  rewrite Hk in Hj. injection Hj as <-. eexists. rewrite list_lookup_insert_eq by by eapply lookup_lt_Some.
  split; [done |]. simpl. destruct (decide (idx = idx')) as [<- | Hi]; [| by rewrite lookup_insert_ne].
  rewrite lookup_insert_eq. f_equal. destruct (decide (w = v)) as [| Hne]; [done |]. destruct Hno. by exists k, (Some l), w.
Qed.

Lemma log_entry_ok k l idx v c :
  logs_ok c -> logs c !! k = Some (Some l) -> ~ contradicts c idx v -> (1 < idx -> is_Some (l !! (idx - 1))) ->
  logs_ok (log_entry k l idx v c).
Proof.
  intros [Ha Hf] Hk Hno Hprev. assert (Hv : forall j l0 w, logs c !! j = Some l0 -> logged l0 idx = Some w -> w = v).
  { intros j l0 w Hj Hw. destruct (decide (w = v)) as [| Hne]; [done |]. destruct Hno. by exists j, l0, w. }
  split.
  - intros i j li lj idx' w w' Hi Hj Hw Hw'.
    destruct (log_entry_lookup _ _ _ _ _ _ _ _ _ Hk Hi Hw) as [[-> ->] | (l1 & Hl1 & Hw1)];
      destruct (log_entry_lookup _ _ _ _ _ _ _ _ _ Hk Hj Hw') as [[E1 E2] | (l2 & Hl2 & Hw2)]; subst; try done.
    + symmetry. by eapply Hv.
    + by eapply Hv.
    + exact (Ha _ _ _ _ _ _ _ Hl1 Hl2 Hw1 Hw2).
  - intros i li idx' w Hi Hw Hgt. destruct (log_entry_lookup _ _ _ _ _ _ _ _ _ Hk Hi Hw) as [[-> ->] | (l1 & Hl1 & Hw1)].
    + simpl in Hi. destruct (decide (i = k)) as [-> | Hne].
      * rewrite list_lookup_insert_eq in Hi by by eapply lookup_lt_Some. injection Hi as <-. simpl.
        rewrite lookup_insert_ne by lia. by apply Hprev.
      * rewrite list_lookup_insert_ne in Hi by done. by eapply Hf.
    + destruct (Hf _ _ _ _ Hl1 Hw1 Hgt) as [w0 Hw0].
      destruct (log_entry_keeps _ _ _ _ _ _ _ _ _ Hk Hno Hl1 Hw0) as (l' & Hl' & Hw'). assert (l' = li) as -> by congruence. by exists w0.
Qed.

Lemma checkLogs_eq k m l s :
  logs (cfg s) !! k = Some (Some l) ->
  checkLogs (Z.of_nat k) m s =
  Done (find_conflict (Z.of_nat k) 0 (CommandIndex m) (am_Command m) (logs (cfg s)) [],
        bool_decide (is_Some (l !! (CommandIndex m - 1))))
    (on_cfg (log_entry k l (CommandIndex m) (am_Command m)) s).
Proof.
  intros Hk. pose proof (lookup_lt_Some _ _ _ Hk) as Hlt.
  assert (Eat : at_index logs (Z.of_nat k) s = Done (Some l) s).
  { unfold at_index, the, get, mbind, tst_bind, go. rewrite (proj2 (index_Ok _ _ (Some l))); [done |]. split; [lia |]. by rewrite Nat2Z.id. }
  unfold checkLogs, mbind, tst_bind, the, get. rewrite Eat. unfold store, mbind, tst_bind, the, get. simpl.
  unfold go, set_index, len. rewrite (proj2 (Z.ltb_ge _ _)), (proj2 (Z.leb_gt _ _)) by lia. simpl. unfold put. f_equal.
  unfold on_cfg, log_entry. simpl. rewrite Nat2Z.id. destruct (maxIndex (cfg s) <? CommandIndex m) eqn:Em; zbool.
  - by rewrite Z.max_r by lia.
  - rewrite Z.max_l by lia. by destruct s as [[] ?].
Qed.

(** C37: what the harness accepts.  One turn of the goroutine that reads the
    apply channel of an instance of peer [k] logs the message exactly when no
    server has logged another command at its index and the entry before it is in
    the log of [k]; every other message with a command ends the process.  What
    is logged stays, the logs agree, and they have no gaps. *)
Theorem applier_exact k r rf m ms l s :
  rafts_heap (hst s) !! r = Some rf -> cApplyMsg rf = m :: ms -> logs (cfg s) !! k = Some (Some l) -> logs_ok (cfg s) ->
  match applier (Z.of_nat k) r s with
  | Done _ s' =>
      rafts_heap (hst s') = <[r := set_cApplyMsg ms rf]> (rafts_heap (hst s)) /\ logs_ok (cfg s') /\
      (CommandValid m = false -> cfg s' = cfg s) /\
      (CommandValid m = true ->
         ~ contradicts (cfg s) (CommandIndex m) (am_Command m) /\
         (1 < CommandIndex m -> is_Some (l !! (CommandIndex m - 1))) /\
         cfg s' = log_entry k l (CommandIndex m) (am_Command m) (cfg s)) /\
      (forall j l0 idx v, logs (cfg s) !! j = Some l0 -> logged l0 idx = Some v ->
         exists l', logs (cfg s') !! j = Some l' /\ logged l' idx = Some v)
  | Died =>
      CommandValid m = true /\
      (contradicts (cfg s) (CommandIndex m) (am_Command m) \/ (1 < CommandIndex m /\ l !! (CommandIndex m - 1) = None))
  | _ => False
  end.
Proof.
  intros Hr Hm Hk Hok. unfold applier, get, mbind, tst_bind. rewrite Hr. simpl. rewrite Hm. unfold put.
  set (s1 := on_hst _ s). unfold apply_message. destruct (CommandValid m) eqn:Hv; [| simpl; split_and!; eauto; done].
  unfold mbind, tst_bind. rewrite (checkLogs_eq k m l s1) by done. change (cfg s1) with (cfg s).
  pose proof (find_conflict_contradicts (Z.of_nat k) (cfg s) (CommandIndex m) (am_Command m)) as Hc.
  destruct ((1 <? CommandIndex m) && negb (bool_decide (is_Some (l !! (CommandIndex m - 1))))) eqn:Hgap.
  - simpl. zbool. split; [done |]. right. split; [done |]. by apply eq_None_not_Some.
  - assert (Hp : 1 < CommandIndex m -> is_Some (l !! (CommandIndex m - 1))).
    { intros Hi. zbool. destruct Hgap as [Hgap | Hgap]; zbool; [lia | done]. }
    destruct (find_conflict _ _ _ _ _ _) as [| b bs] eqn:Ec; simpl.
    + assert (Hno : ~ contradicts (cfg s) (CommandIndex m) (am_Command m)) by by apply Hc.
      split; [done |]. split; [by apply log_entry_ok |]. split; [done |]. split; [done |].
      intros j l0 idx v Hj Hw. exact (log_entry_keeps _ _ _ _ _ _ _ _ _ Hk Hno Hj Hw).
    + split; [done |]. left.
      destruct (find_conflict_found _ _ _ _ _ _ ltac:(rewrite Ec; discriminate)) as [[] | (l0 & w & (j & Hj)%list_elem_of_lookup_1 & Hw & Hne)]; [done |].
      by exists j, l0, w.
Qed.
End spec.
