(* ===== verification/ConfigAgree.v ===== *)
(** * When the test harness waits for agreement

    [nCommitted], [offer] and [one] of [Config]: what their answers mean while the
    peers run, and that [one] returns. *)
From Stdlib Require Import String.
From S2P Require Import Prelude Strconv Effects Labgob Labrpc Persister RaftServer RaftRpc Config ConfigLogic.

Local Open Scope Z_scope.

Section agree.
Context {Cmd E : Type} `{EqDecision Cmd} `{GoRuntime Cmd} `{CommandValue Cmd} `{Rest Cmd E} `{!Behaved Cmd E}.
Implicit Types s : harness Cmd E.

(** The slices have one element per server, and every instance entered has a
    log. *)
Record sound s : Prop := {
  so_connected : length (connected (cfg s)) = n (cfg s);
  so_rafts : length (rafts (cfg s)) = n (cfg s);
  so_applyErr : length (applyErr (cfg s)) = n (cfg s);
  so_logs : length (logs (cfg s)) = n (cfg s);
  so_peers : forall i r, rafts (cfg s) !! i = Some (Some r) -> exists rf, rafts_heap (hst s) !! r = Some rf /\ log rf <> []
}.

(** Time has passed, and what was logged still is. *)
Definition later s s' : Prop :=
  (sound s -> sound s' /\ n (cfg s') = n (cfg s)) /\ now (hst s) <= now (hst s') /\
  forall i l idx v, logs (cfg s) !! i = Some l -> logged l idx = Some v ->
    exists l', logs (cfg s') !! i = Some l' /\ logged l' idx = Some v.

#[export] Instance later_preorder : PreOrder later.
Proof.
  split; [split; [done | split; [lia | eauto]] |]. intros s1 s2 s3 (S12 & N12 & L12) (S23 & N23 & L23).
  split; [intros [H2 E2]%S12; apply S23 in H2 as [H3 E3]; split; [done | congruence] |]. split; [lia |].
  intros i l idx v Hl Hv. destruct (L12 _ _ _ _ Hl Hv) as (l' & Hl' & Hv'). by eapply L23.
Qed.

Lemma rely_later d s s' : 0 <= d -> rely d s s' -> later s s'.
Proof.
  intros Hd Hr. pose proof (rely_now _ _ _ Hr). pose proof (rely_length _ _ _ Hr) as El.
  destruct (rely_cfg _ _ _ Hr) as (rn & ls & m & Ec & _). split; [| split; [lia | apply Hr]].
  intros [Hc Hrf Ha Hlg Hp]. rewrite Ec in El. simpl in El. split; [| by rewrite Ec]. split; rewrite Ec; simpl; [done.. | lia |].
  intros i r Hi. destruct (Hp i r Hi) as (rf & Erf & Hlog). by eapply (rely_log _ _ _ Hr).
Qed.

(** The test itself starts a command on a peer. *)
Lemma later_peer r rf s :
  log rf <> [] -> later s (on_hst (fun h => set_rafts_heap (<[r := rf]> (rafts_heap h)) h) s).
Proof.
  intros Hlog. split; [| split; simpl; [lia | eauto]]. intros [Hc Hrf Ha Hlg Hp]. split; [| done]. split; simpl; try done.
  intros i r' Hi. destruct (decide (r' = r)) as [-> | Hne].
  - exists rf. split; [exact (lookup_insert_eq (M := gmap pointer) _ _ _) | done].
  - destruct (Hp i r' Hi) as (rf' & Hrf' & Hl). exists rf'. split; [| done].
    rewrite <- Hrf'. by apply (lookup_insert_ne (M := gmap pointer)).
Qed.

(** At least [k] servers have logged the command. *)
Definition agreed s (idx : Z) (cmd : option Cmd) (k : Z) : Prop :=
  exists servers : list nat, NoDup servers /\ k <= len servers /\
    forall i, i ∈ servers -> exists l, logs (cfg s) !! i = Some l /\ logged l idx = Some cmd.

Lemma agreed_later s s' idx cmd k : agreed s idx cmd k -> later s s' -> agreed s' idx cmd k.
Proof.
  intros (A & Hnd & Hk & HA) (_ & _ & Hl). exists A. split; [done |]. split; [done |]. intros i Hi.
  destruct (HA i Hi) as (l & El & Ev). by eapply Hl.
Qed.

Section finishes.
(** The tests that end: a failure with another message than that of [one] may
    happen at any time. *)
Variable fails : string -> harness Cmd E -> Prop.
Definition one_message : string := "one(%v) failed to reach agreement".
Hypothesis other_messages : forall e s, e <> one_message -> fails e s.
Abbreviation finishes m Q s := (wp fails False False m Q s).

Lemma finishes_others d s (Q : unit -> harness Cmd E -> Prop) :
  0 <= d -> (forall s', rely d s s' -> Q tt s') -> finishes (others_run d) Q s.
Proof. intros Hd HQ. apply wp_put, HQ. by apply others_rely. Qed.

Lemma finishes_at_index {A} (f : config Cmd -> list A) (i : nat) (Q : A -> harness Cmd E -> Prop) s :
  length (f (cfg s)) = n (cfg s) -> (i < n (cfg s))%nat -> (forall a, f (cfg s) !! i = Some a -> Q a s) ->
  finishes (at_index f (Z.of_nat i)) Q s.
Proof.
  intros Hl Hi HQ. unfold at_index. wp_steps. destruct (index_total (f (cfg s)) (Z.of_nat i)) as [a Ea]; [unfold len; lia |].
  rewrite Ea. apply HQ. apply index_Ok in Ea as [_ Ea]. by rewrite Nat2Z.id in Ea.
Qed.

(** The servers found so far, those from [m] on being still to be asked. *)
Lemma nCommitted_from_agrees r m idx count cmd A s :
  sound s -> (m + r)%nat = n (cfg s) ->
  NoDup A -> len A = count -> (forall i, i ∈ A -> (i < m)%nat /\ exists l, logs (cfg s) !! i = Some l /\ logged l idx = Some cmd) ->
  finishes (nCommitted_from (Z.of_nat <$> seq m r) idx count cmd)
    (fun nc s' => later s s' /\ 0 <= nc.1 /\ agreed s' idx nc.2 nc.1) s.
Proof.
  revert m count cmd A s. induction r as [| r IH]; intros m count cmd A s Hs Hm Hnd Hlen HA; simpl.
  { apply wp_ret. split; [reflexivity |]. simpl. pose proof (len_nonneg A). split; [lia |]. exists A.
    split; [done |]. split; [lia |]. intros i Hi. by apply HA. }
  apply wp_bind, finishes_at_index; [exact (so_applyErr _ Hs) | lia |]. intros err _.
  destruct (negb _); [by apply other_messages |].
  apply wp_bind, finishes_others; [done |]. intros s1 Hr. pose proof (rely_later 0 _ _ ltac:(lia) Hr) as (Hsound & Hnow & Hlog).
  destruct (Hsound Hs) as [Hs1 En]. assert (H01 : later s s1) by done.
  apply wp_bind, finishes_at_index; [exact (so_logs _ Hs1) | lia |]. intros l Hl.
  assert (HA1 : forall i, i ∈ A -> (i < m)%nat /\ exists l, logs (cfg s1) !! i = Some l /\ logged l idx = Some cmd).
  { intros i Hi. destruct (HA i Hi) as (Hlt & l0 & El & Ev). split; [done |]. by eapply Hlog. }
  assert (Hpost : forall count' cmd' A', NoDup A' -> len A' = count' ->
    (forall i, i ∈ A' -> (i < S m)%nat /\ exists l, logs (cfg s1) !! i = Some l /\ logged l idx = Some cmd') ->
    finishes (nCommitted_from (Z.of_nat <$> seq (S m) r) idx count' cmd')
      (fun nc s' => later s s' /\ 0 <= nc.1 /\ agreed s' idx nc.2 nc.1) s1).
  { intros count' cmd' A' Hnd' Hlen' HA'. eapply wp_mono; [apply (IH (S m) count' cmd' A'); [done | lia | done..] |].
    intros nc s2 (H12 & Hrest). split; [by transitivity s1 | done]. }
  destruct (logged l idx) as [cmd1 |] eqn:Ev.
  - destruct ((0 <? count) && _) eqn:Hsame; [by apply other_messages |].
    apply (Hpost _ _ (m :: A)).
    + apply NoDup_cons. split; [| done]. intros Hin. destruct (HA m Hin). lia.
    + unfold len in *. simpl. lia.
    + intros i [-> | Hi]%elem_of_cons; [split; [lia |]; by exists l |]. destruct (HA1 i Hi) as (Hlt & l0 & El & Ev0).
      split; [lia |]. exists l0. split; [done |]. rewrite Ev0. f_equal. zbool. destruct Hsame as [Hc | Hc]; zbool; [| done].
      destruct A as [| a A]; [by apply elem_of_nil in Hi |]. unfold len in Hlen. simpl in Hlen. lia.
  - apply (Hpost _ _ A); [done.. |]. intros i Hi. destruct (HA1 i Hi). split; [lia | done].
Qed.

Lemma nCommitted_agrees idx s :
  sound s -> finishes (nCommitted idx) (fun nc s' => later s s' /\ 0 <= nc.1 /\ agreed s' idx nc.2 nc.1) s.
Proof.
  intros Hs. unfold nCommitted, below. wp_steps. apply (nCommitted_from_agrees _ _ _ _ _ []); [done | by apply so_rafts | constructor | done |].
  by intros i Hi%elem_of_nil.
Qed.

(** [Start] needs the base entry of the log, and keeps it. *)
Lemma Start_total rf (cmd : option Cmd) : log rf <> [] -> exists rf' res, Start rf cmd = Ok (rf', res) /\ log rf' <> [].
Proof.
  intros Hlog. unfold Start. destruct (bool_decide _); [| by eexists _, _].
  destruct (index_total (log rf) (len (log rf) - 1)) as [e Ee].
  { destruct (log rf); [done |]. unfold len. simpl. lia. }
  unfold last_entry. rewrite Ee. simpl. eexists _, _. split; [done |].
  unfold persist. destruct (encodable _); simpl; by destruct (log rf).
Qed.

Lemma offer_later k cmd (st : nat) s :
  sound s -> (k <= n (cfg s))%nat ->
  finishes (offer k cmd (Z.of_nat st)) (fun r s' => later s s' /\ exists st' : nat, r.1 = Z.of_nat st') s.
Proof.
  revert st s. induction k as [| k IH]; intros st s Hs Hk; simpl; [apply wp_ret; split; [reflexivity | by exists st] |]. wp_steps.
  unfold go_rem. rewrite (proj2 (Z.eqb_neq _ _)) by lia. wp_steps.
  pose proof (Z.rem_bound_pos (Z.of_nat st + 1) (Z.of_nat (n (cfg s))) ltac:(lia) ltac:(lia)) as Hst.
  rewrite <- (Z2Nat.id (Z.rem _ _)) by lia. set (st' := Z.to_nat _). assert (Hlt : (st' < n (cfg s))%nat) by lia. clearbody st'. clear Hst.
  apply finishes_others; [done |]. intros s1 Hr1. pose proof (rely_later 0 _ _ ltac:(lia) Hr1) as H1l.
  destruct (proj1 H1l Hs) as [Hs1 En1].
  assert (Hgo : forall s2, later s1 s2 -> finishes (offer k cmd (Z.of_nat st')) (fun r s' => later s s' /\ exists st' : nat, r.1 = Z.of_nat st') s2).
  { intros s2 H2. destruct (proj1 H2 Hs1) as [Hs2 En2]. eapply wp_mono; [apply IH; [done | lia] |].
    intros a s3 [H3 Ha]. split; [| done]. transitivity s1; [done |]. by transitivity s2. }
  apply wp_bind, finishes_at_index; [exact (so_connected _ Hs1) | lia |]. intros c _. apply wp_bind.
  eapply (wp_mono _ _ _ _ (fun r s' => s' = s1 /\ forall p, r = Some p -> rafts (cfg s1) !! st' = Some (Some p))).
  { destruct c; [| by apply wp_ret]. apply finishes_at_index; [exact (so_rafts _ Hs1) | lia |]. by intros r Hr; split; [| by intros p ->]. }
  intros r s2 [-> Hr]. destruct r as [r |]; [| by apply Hgo]. specialize (Hr r eq_refl).
  apply wp_bind, finishes_others; [done |]. intros s2 Hr2. pose proof (rely_later 0 _ _ ltac:(lia) Hr2) as H2l.
  destruct (proj1 H2l Hs1) as [Hs2 _]. assert (Hr' : rafts (cfg s2) !! st' = Some (Some r)).
  { destruct (rely_cfg _ _ _ Hr2) as (? & ? & ? & -> & _). exact Hr. }
  destruct (so_peers _ Hs2 _ _ Hr') as (rf & Erf & Hlog). wp_steps. rewrite Erf. wp_steps.
  destruct (Start_total rf cmd Hlog) as (rf' & [[idx t] ok] & -> & Hlog'). wp_steps.
  pose proof (later_peer r rf' s2 Hlog') as H3l.
  destruct ok; [apply wp_ret; split; [| by exists st'] | apply Hgo]; (transitivity s2; [| done]).
  - by transitivity s1.
  - done.
Qed.

(** Sleeping. *)
Lemma finishes_Sleep d s (Q : unit -> harness Cmd E -> Prop) :
  0 <= d -> (forall s', later s s' -> now (hst s) + d <= now (hst s') -> Q tt s') -> finishes (Sleep d) Q s.
Proof. intros Hd HQ. apply finishes_others; [done |]. intros s' Hr. apply HQ; [by eapply rely_later | apply Hr]. Qed.

Lemma await_agrees fuel t1 idx cmd k s :
  sound s -> (1 <= fuel)%nat -> 5 * second - (now (hst s) - t1) <= (Z.of_nat fuel - 1) * (20 * millisecond) ->
  finishes (await fuel t1 idx cmd k) (fun b s' => later s s' /\
    if b then agreed s' idx cmd (Z.max 1 k) else 5 * second <= now (hst s') - t1) s.
Proof.
  unfold second, millisecond. revert s. induction fuel as [| fuel IH]; intros s Hs Hf Ht; [lia |]. cbn [await]. wp_steps.
  destruct (now (hst s) - t1 <? 5 * second) eqn:Hlt; unfold second in Hlt; zbool.
  2: { apply wp_ret. split; [reflexivity | lia]. }
  eapply wp_then; [by apply nCommitted_agrees |]. intros [nd cmd1] s1 (H1l & Hnd & Hag). simpl in *.
  destruct (proj1 H1l Hs) as [Hs1 _]. destruct ((0 <? nd) && _ && _) eqn:Hok.
  - apply wp_ret. split; [done |]. zbool. subst cmd1. destruct Hag as (A & HA1 & HA2 & HA3). exists A. split; [done |]. split; [lia | done].
  - clear Hok. apply wp_bind, finishes_Sleep; [unfold millisecond; lia |]. intros s2 H2l H2n. unfold millisecond in H2n.
    destruct (proj1 H2l Hs1) as [Hs2 _]. destruct H1l as (H1s & H1n & H1g). eapply wp_mono; [apply IH; [done | lia..] |].
    intros b s3 (H3l & Hb). split; [| done]. transitivity s1; [done |]. by transitivity s2.
Qed.
End finishes.

(** ** [one] *)

(** A failure to agree is not reported before its time. *)
Definition late (retry : bool) (t : Z) (message : string) s : Prop :=
  message = one_message -> (if retry then 25 else 5) * second <= now (hst s) - t.

Lemma one_from_agrees fuel t (st : nat) cmd k retry s :
  sound s -> t <= now (hst s) -> (1 <= fuel)%nat -> 25 * second - (now (hst s) - t) <= (Z.of_nat fuel - 1) * (50 * millisecond) ->
  wp (late retry t) False False (one_from fuel t (Z.of_nat st) cmd k retry)
    (fun idx s' => later s s' /\ agreed s' idx cmd (Z.max 1 k)) s.
Proof.
  assert (Hother : forall e s, e <> one_message -> late retry t e s) by (by intros e s' He ->).
  unfold second, millisecond. revert st s. induction fuel as [| fuel IH]; intros st s Hs Hnow Hf Ht; [lia |]. cbn [one_from]. wp_steps.
  destruct (now (hst s) - t <? 25 * second) eqn:Hlt; unfold second in Hlt; zbool.
  2: { intros _. simpl. unfold second. destruct retry; lia. }
  wp_steps. eapply wp_mono; [by apply offer_later |]. intros [st0 idx] s1 (H1l & st' & Est). simpl in Est. subst st0.
  destruct (proj1 H1l Hs) as [Hs1 _]. pose proof (proj1 (proj2 H1l)) as Hn1.
  assert (Hnext : forall s2, later s1 s2 -> now (hst s1) + 50 * 1000000 <= now (hst s2) ->
    wp (late retry t) False False (one_from fuel t (Z.of_nat st') cmd k retry)
      (fun idx s' => later s s' /\ agreed s' idx cmd (Z.max 1 k)) s2).
  { intros s2 H2l H2n. destruct (proj1 H2l Hs1) as [Hs2 _]. eapply wp_mono; [apply IH; [done | lia..] |].
    intros idx' s3 [H3l Hag]. split; [| done]. transitivity s1; [done |]. by transitivity s2. }
  destruct (negb (idx =? -1)).
  - wp_steps. eapply wp_mono; [apply (await_agrees _ Hother await_fuel); [done | |] |].
    + unfold await_fuel. lia.
    + unfold await_fuel, second, millisecond. lia.
    + intros [|] s2 [H2l Hb]; [apply wp_ret; split; [by transitivity s1 | done] |].
      destruct retry; simpl; [apply Hnext; [done |]; unfold second in Hb; lia |].
      intros _. simpl. unfold second in *. lia.
  - apply wp_bind, (finishes_Sleep (late retry t)); [unfold millisecond; lia |]. intros s2 H2l H2n. by apply Hnext.
Qed.

(** C18: what [one] promises.  However the rest of the process runs, as long as
    it lets time pass while the test sleeps and keeps what is logged, [one]
    returns; the index it returns holds the command in the logs of the expected
    number of servers, and of at least one; and it gives up only after the 25
    seconds its loop runs, or after 5 if it may not retry.  (Its comment in the
    source says it gives up after about 10 seconds.) *)
Theorem one_agrees cmd k retry s :
  sound s ->
  match one cmd k retry s with
  | Done idx s' => later s s' /\ agreed s' idx cmd (Z.max 1 k)
  | Failed message s' => late retry (now (hst s)) message s'
  | Died => False
  | Forever => False
  end.
Proof.
  intros Hs. cut (wp (late retry (now (hst s))) False False (one cmd k retry)
    (fun idx s' => later s s' /\ agreed s' idx cmd (Z.max 1 k)) s); [unfold wp; by destruct (one _ _ _ _) |].
  unfold one. apply wp_bind, wp_get, (one_from_agrees one_fuel _ 0); [done | | |].
  - lia.
  - unfold one_fuel. lia.
  - unfold one_fuel, second, millisecond. lia.
Qed.
End agree.
