(* ===== verification/ConfigLeader.v ===== *)
(** * The test harness finds a leader of the cluster

    [checkOneLeader] of [Config] over the cluster of [RaftCluster]: while the test
    looks from peer to peer, the cluster goes on, and election safety says that
    what it sees at different times fits together. *)
From Stdlib Require Import String.
From S2P Require Import Prelude Strconv Effects Labgob Labrpc Persister RaftServer RaftServerFacts RaftCluster RaftElection RaftMemory RaftSafe RaftRpc Config ConfigLogic ConfigAgree.

Local Open Scope Z_scope.

(** ** The cluster behind the harness

    A [view] of the harness as a cluster: its nodes are the instances entered,
    and what the others do are steps of the cluster.  The test draws random
    numbers, which the cluster does not see. *)
Class Observed {Cmd E : Type} `{GoRuntime Cmd} `{Rest Cmd E} (k : nat) (view : harness Cmd E -> cluster Cmd) := {
  view_peer s i r rf : rafts (cfg s) !! i = Some (Some r) -> rafts_heap (hst s) !! r = Some rf ->
    nodes (view s) !! i = Some rf;
  view_others d s : 0 <= d -> rtc (lts_step (cluster_system quiet k)) (view s) (view (others d s));
  view_draw s r : view (on_hst (set_math_rand r) s) = view s
}.

Section leader.
Context {Cmd E : Type} `{EqDecision Cmd} `{GoRuntime Cmd} `{CommandValue Cmd} `{Rest Cmd E} `{!Behaved Cmd E}.
Context (k : nat) (view : harness Cmd E -> cluster Cmd) `{!Observed k view}.
Implicit Types s : harness Cmd E.

Abbreviation becomes := (rtc (lts_step (cluster_system quiet k))).

(** The test watches: the cluster moves on, the harness stays. *)
Definition watched s s' : Prop :=
  later s s' /\ connected (cfg s') = connected (cfg s) /\ rafts (cfg s') = rafts (cfg s) /\ becomes (view s) (view s').

#[export] Instance watched_preorder : PreOrder watched.
Proof.
  split; [intros s; split_and!; try done; apply rtc_refl |].
  intros s1 s2 s3 (L12 & C12 & R12 & V12) (L23 & C23 & R23 & V23).
  split; [by transitivity s2 |]. split; [congruence |]. split; [congruence |]. by etrans.
Qed.

Lemma watched_others d s : 0 <= d -> watched s (others d s).
Proof.
  intros Hd. pose proof (others_rely d s Hd) as Hr. split; [by eapply rely_later |].
  destruct (rely_cfg _ _ _ Hr) as (? & ? & ? & -> & _). split; [done |]. split; [done |]. by apply view_others.
Qed.

(** Every connected peer runs. *)
Definition all_run s : Prop := forall i, connected (cfg s) !! i = Some true -> exists r, rafts (cfg s) !! i = Some (Some r).

(** [i] led term [t] at some time between two states. *)
Definition led s s' (i : nat) (t : Z) : Prop :=
  connected (cfg s) !! i = Some true /\ exists v, becomes (view s) v /\ becomes v (view s') /\ leads v i t.

Lemma led_later s s' s'' i t : led s s' i t -> watched s' s'' -> led s s'' i t.
Proof. intros (Hc & v & Hv1 & Hv2 & Hl) (_ & _ & _ & Hv). split; [done |]. exists v. split; [done |]. split; [by etrans | done]. Qed.

(** The only way to fail. *)
Definition no_leader (message : string) s : Prop := message = "expected one leader, got none"%string.

Abbreviation looks m Q s := (wp no_leader False False m Q s).

Section from.
Variable s0 : harness Cmd E.
Hypothesis Hs0 : sound s0.
Hypothesis Hrun0 : all_run s0.
Hypothesis Hcl : (0 < k)%nat.
Hypothesis Hreach : reachable (cluster_system quiet k) (view s0).

Lemma watched_sound s : watched s0 s -> sound s /\ n (cfg s) = n (cfg s0) /\ all_run s.
Proof.
  intros (Hl & Ec & Er & _). destruct (proj1 Hl Hs0) as [Hs En]. split; [done |]. split; [done |].
  intros i Hi. rewrite Er. apply Hrun0. by rewrite <- Ec.
Qed.

(** A peer found leading, at this moment. *)
Lemma looks_GetState i r s :
  watched s0 s -> connected (cfg s) !! i = Some true -> rafts (cfg s) !! i = Some (Some r) ->
  looks (GetState_of (Some r)) (fun tl s' => watched s s' /\ (tl.2 = true -> leads (view s') i tl.1)) s.
Proof.
  intros Hw Hc Hr. unfold GetState_of. apply wp_bind, wp_put. pose proof (watched_others 0 s ltac:(lia)) as Hw1.
  set (s1 := others 0 s) in *. destruct (watched_sound s1) as (Hs1 & _); [by transitivity s |].
  assert (Hr1 : rafts (cfg s1) !! i = Some (Some r)) by (destruct Hw1 as (_ & _ & -> & _); done).
  destruct (so_peers _ Hs1 _ _ Hr1) as (rf & Erf & _). wp_steps. rewrite Erf. wp_steps. split; [done |]. simpl.
  intros Hl%bool_decide_eq_true_1. exists rf. split; [by eapply view_peer |]. done.
Qed.

(** The leaders of the peers below [m]: one for each term. *)
Definition leaders_ok (m : nat) (l : gmap Z (list Z)) s : Prop :=
  forall t js, l !! t = Some js -> exists j, js = [Z.of_nat j] /\ (j < m)%nat /\ led s0 s j t.

Lemma leaders_later m m' l s s' : leaders_ok m l s -> watched s s' -> (m <= m')%nat -> leaders_ok m' l s'.
Proof. intros Hl Hw Hm t js Ht. destruct (Hl t js Ht) as (j & -> & Hj & Hled). exists j. split; [done |]. split; [lia |]. by eapply led_later. Qed.

Lemma leaders_insert m l s t :
  leaders_ok m l s -> led s0 s m t -> leads (view s) m t ->
  leaders_ok (S m) (<[t := default [] (l !! t) ++ [Z.of_nat m]]> l) s.
Proof.
  intros Hl Hled Hm t' js. destruct (decide (t' = t)) as [-> | Hne].
  - rewrite lookup_insert_eq. intros [= <-]. destruct (l !! t) as [js |] eqn:El; [| by exists m; split_and!; [| lia |]].
    destruct (Hl t js El) as (j & -> & Hj & _ & v & Hv1 & Hv2 & Hlj). exfalso.
    assert (j = m); [| lia]. apply (one_leader_per_term k v (view s) j m t); [| done..].
    destruct Hreach as (c0 & Hc0 & Hc). exists c0. split; [done | by etrans].
  - rewrite lookup_insert_ne by done. intros Hi. destruct (Hl t' js Hi) as (j & -> & Hj & Hj'). exists j. split_and!; [done | lia | done].
Qed.

Lemma looks_find_leaders r m l s :
  watched s0 s -> (m + r)%nat = n (cfg s0) -> leaders_ok m l s ->
  looks (find_leaders (Z.of_nat <$> seq m r) l) (fun l' s' => watched s0 s' /\ leaders_ok (n (cfg s0)) l' s') s.
Proof.
  revert m l s. induction r as [| r IH]; intros m l s Hw Hm Hl; simpl.
  { apply wp_ret. split; [done |]. by rewrite <- Hm, Nat.add_0_r. }
  destruct (watched_sound s Hw) as (Hs & En & Hrun). apply wp_bind, (finishes_at_index no_leader); [by apply so_connected | lia |].
  intros c Hc. apply wp_bind. eapply (wp_mono _ _ _ _ (fun l' s' => watched s0 s' /\ leaders_ok (S m) l' s')).
  2: { intros l' s' [Hw' Hl']. apply IH; [done | lia | done]. }
  destruct c; [| apply wp_ret; split; [done | by eapply leaders_later; [| | apply Nat.le_succ_diag_r]]].
  destruct (Hrun m Hc) as [p Hp]. apply wp_bind, (finishes_at_index no_leader); [by apply so_rafts | lia |].
  intros o Ho. assert (o = Some p) as -> by congruence. eapply wp_then; [by eapply looks_GetState |].
  intros [t leader] s1 [Hw1 Hlead]. simpl in Hlead. assert (Hw01 : watched s0 s1) by by transitivity s.
  apply wp_ret. split; [done |]. destruct leader; [| by eapply leaders_later; [| | apply Nat.le_succ_diag_r]].
  specialize (Hlead eq_refl). apply leaders_insert; [by eapply leaders_later | | done]. split.
  - destruct Hw as (_ & Ec & _). by rewrite <- Ec.
  - exists (view s1). split; [apply Hw01 |]. split; [apply rtc_refl | done].
Qed.

(** The loop over the map finds no second leader, and returns the last term. *)
Lemma looks_last_term es t0 s :
  (forall t js, (t, js) ∈ es -> len js = 1) ->
  looks (last_term es t0) (fun t s' => s' = s /\ t0 <= t /\ (t = t0 \/ exists js, (t, js) ∈ es) /\
    forall t' js, (t', js) ∈ es -> t' <= t) s.
Proof.
  revert t0. induction es as [| [t js] es IH]; intros t0 Hall; simpl.
  - apply wp_ret. split; [done |]. split; [lia |]. split; [by left |]. intros t' js Hin. by apply elem_of_nil in Hin.
  - rewrite (Hall t js) by (apply elem_of_cons; by left). simpl.
    eapply wp_mono; [apply IH; intros; eapply Hall, elem_of_cons; by right |].
    intros t1 s1 (-> & Hle & Hin & Hmax). split; [done |]. destruct (t0 <? t) eqn:Hlt; zbool.
    + split; [lia |]. split; [right; destruct Hin as [-> | [js' Hin]]; [exists js | exists js']; apply elem_of_cons; auto |].
      intros t' js' [[= -> ->] | Hin']%elem_of_cons; [done | by eapply Hmax].
    + split; [lia |]. split; [destruct Hin as [-> | [js' Hin]]; [by left | right; exists js'; apply elem_of_cons; auto] |].
      intros t' js' [[= -> ->] | Hin']%elem_of_cons; [lia | by eapply Hmax].
Qed.

(** Leaders have a term. *)
Lemma led_term s i t : watched s0 s -> led s0 s i t -> 1 <= t.
Proof.
  intros Hw (_ & v & Hv & _ & rf & Hrf & Hl & <-). destruct Hreach as (c0 & Hc0 & Hc).
  destruct (reachable_safe k v Hcl) as (V & e & W & HI & HS); [exists c0; split; [done | by etrans] |].
  by destruct (po_leader _ (si_node _ _ _ HS i rf Hrf) Hl).
Qed.

Lemma looks_checkOneLeader iters s :
  watched s0 s ->
  looks (checkOneLeader_from iters) (fun i s' => exists j t, i = Z.of_nat j /\ watched s0 s' /\ led s0 s' j t) s.
Proof.
  revert s. induction iters as [| iters IH]; intros s Hw; simpl; [done |]. wp_steps. set (s1 := on_hst _ s).
  assert (Hw1 : watched s s1).
  { split; [split; [intros Hs; split; [destruct Hs; split; done | done] | split; [simpl; lia | eauto]] |].
    split; [done |]. split; [done |]. unfold s1. rewrite view_draw. apply rtc_refl. }
  unfold Sleep, others_run. wp_steps.
  set (d := _ * millisecond). assert (Hd : 0 <= d).
  { unfold d, millisecond. pose proof (Z.mod_pos_bound (first_draw (math_rand (hst s))) (2 ^ 63) eq_refl) as [Hpos _].
    pose proof (Z.rem_nonneg (first_draw (math_rand (hst s)) mod 2 ^ 63) 100 ltac:(done) Hpos). lia. }
  clearbody d. set (s2 := others d s1). assert (Hw2 : watched s0 s2).
  { transitivity s; [done |]. transitivity s1; [done |]. by apply watched_others. }
  clearbody s2. clear s1 Hw1. eapply wp_mono.
  { apply (looks_find_leaders (n (cfg s2)) 0 ∅ s2 Hw2); [by destruct (watched_sound s2 Hw2) as (_ & -> & _) |]. by intros t js Ht. }
  intros l s3 [Hw3 Hl]. assert (Hit : forall t js, (t, js) ∈ iterate l <-> l !! t = Some js).
  { intros t js. rewrite (iterate_all l). apply elem_of_map_to_list. }
  wp_steps. eapply wp_mono; [apply looks_last_term; intros t js Ht%Hit; by destruct (Hl t js Ht) as (j & -> & _) |].
  intros t s4 (-> & Ht & Hin & Hmax). destruct (bool_decide_reflect (l = ∅)) as [-> | Hne]; [by apply IH |].
  destruct (map_choose l Hne) as (t1 & js1 & Ht1). destruct (Hl _ _ Ht1) as (j1 & -> & _ & Hled1).
  apply Hit in Ht1 as Ht1'. apply Hmax in Ht1'. pose proof (led_term s3 j1 t1 Hw3 Hled1) as Hpos.
  destruct Hin as [-> | [js Hin]]; [lia |]. apply Hit in Hin. rewrite Hin. destruct (Hl t js Hin) as (j & -> & _ & Hled).
  apply wp_ret. by exists j, t.
Qed.
End from.

(** C16: the harness against Raft.  When the peers a test watches are a cluster
    without restarts and with prompt election goroutines, [checkOneLeader] never
    finds two leaders of one term, though it asks the peers one after the other
    while the cluster goes on; it ends, and returns a connected peer that led a
    term meanwhile, or fails because nobody led when it looked. *)
Theorem checkOneLeader_finds_leader s :
  sound s -> all_run s -> (0 < k)%nat -> reachable (cluster_system quiet k) (view s) ->
  match checkOneLeader s with
  | Done i s' => exists j t, i = Z.of_nat j /\ watched s s' /\ led s s' j t
  | Failed message _ => message = "expected one leader, got none"%string
  | Died => False
  | Forever => False
  end.
Proof.
  intros Hs Hrun Hk Hreach. cut (looks checkOneLeader (fun i s' => exists j t, i = Z.of_nat j /\ watched s s' /\ led s s' j t) s).
  { unfold wp. by destruct (checkOneLeader s). }
  by apply looks_checkOneLeader.
Qed.
End leader.
