(* ===== verification/ConfigExamples.v ===== *)
(** * Runs of the Raft test harness

    The theorems about the harness at concrete sessions, with two simple rests of
    the process: one in which only time passes, and one in which what the first
    instance appends is applied everywhere. *)
From Stdlib Require Import String.
From S2P Require Import Prelude Strconv Effects Labgob Labrpc Persister RaftServer RaftServerFacts RaftCluster RaftElection RaftRpc Config ConfigLogic ConfigRouting ConfigSpec ConfigAgree ConfigLeader.

Local Open Scope Z_scope.

Module ConfigExamples.
#[local] Instance all_registered : GoRuntime nat := {| registered := fun _ => true; newcap := fun cap _ => (2 * cap)%nat |}.

Definition number_of (v : value) : option nat := match v with VNum _ z => Some (Z.to_nat z) | _ => None end.

#[local] Instance number_commands : CommandValue nat :=
  {| of_command c := VNum 1%positive (Z.of_nat c); to_command := number_of; to_of_command c := f_equal Some (Nat2Z.id c) |}.

Definition host_of {E} (h : host nat E) (t : Z) : host nat E :=
  MkHost (servers_heap h) (rafts_heap h) (peers_of h) (appliers_of h) t (math_rand h) (crypto_rand h) (test_failed h) (env h).

(** ** Only time passes *)
Section idle.
Context {E : Type}.

Definition pass (d : Z) (s : harness nat E) : harness nat E := on_hst (fun h => host_of h (now h + d)) s.

Definition idle : Rest nat E :=
  {| others := pass; iterate := map_to_list; sprint c := []; gob_size := len |}.

Lemma pass_rely d s : rely d s (pass d s).
Proof.
  split; simpl; eauto; [| lia]. exists (net (cfg s)), (logs (cfg s)), (maxIndex (cfg s)). split; [by destruct s as [[] ?] | done].
Qed.

Lemma idle_behaved : @Behaved nat E idle.
Proof. split; [intros d s _; apply pass_rely | done]. Qed.
End idle.

#[local] Instance unit_idle : Rest nat unit := idle.
#[local] Instance unit_behaved : Behaved nat unit := idle_behaved.

(** An empty harness. *)
Definition blank {E} (e : E) : harness nat E :=
  MkHarness (new_config 0 0) (MkHost ∅ ∅ ∅ [] 0 (Rng (fun _ => 0) 0) (Rng (fun k => Z.of_N (k * k)) 0) false e).

Definition state_of {S A} (s : S) (v : verdict S A) : S := match v with Done _ s => s | _ => s end.

Definition is_Done {S A} (v : verdict S A) : bool := match v with Done _ _ => true | _ => false end.

Lemma state_of_Done {S} (s : S) (v : verdict S unit) : is_Done v = true -> v = Done tt (state_of s v).
Proof. by destruct v as [[] ? | | |]. Qed.

(** Peer 1 is restarted and connected again, peer 0 is cut off. *)
Definition operations : list (operation (Cmd := nat)) := [OCrash1 1; OStart1 1; OConnect 1; ODisconnect 0].
Definition session_end : harness nat unit :=
  state_of (blank tt) ((make_config 3 false ;; perform_all operations) (blank tt)).

Definition route_from (s : harness nat unit) (i j : nat) : option (option route) :=
  name ← end_of (cfg s) i j; Some (find_route (net (cfg s)) (IString name)).

Example session_routes :
  route_from session_end 1 2 = Some (Some (MkRoute (IInt 2) 3%positive true false)) /\
  route_from session_end 2 1 = Some (Some (MkRoute (IInt 1) 4%positive true false)) /\
  route_from session_end 0 1 = Some None /\ route_from session_end 1 0 = Some None.
Proof. vm_compute. split_and!; reflexivity. Qed.

Lemma harness_routing_witness :
  (make_config 3 false ;; perform_all operations) (blank tt) = Done tt session_end /\
  (forall i j name, end_of (cfg session_end) i j = Some name ->
     leads_to session_end i j (find_route (net (cfg session_end)) (IString name))).
Proof.
  assert (Hrun : (make_config 3 false ;; perform_all operations) (blank tt) = Done tt session_end) by (apply state_of_Done; vm_compute; reflexivity).
  split; [exact Hrun |]. exact (proj1 (harness_routing 3 false operations (blank tt) session_end Hrun)).
Defined.

(** ** Restarting *)

(** The instance of peer 2 has persisted an entry of term 3. *)
Definition entry7 : LogElement nat := MkLogElement 3 (Some 7%nat) 1.
Definition persisted_end : harness nat unit :=
  on_hst (fun h => set_rafts_heap
    (alter (fun rf => persist (set_log [MkLogElement 0 None 0; entry7] (set_currentTerm 3 rf))) 3%positive (rafts_heap h)) h)
    session_end.
Definition restarted : harness nat unit := state_of (blank tt) (start1 2 persisted_end).

Definition peer_at {E} (s : harness nat E) (i : nat) : option (Raft nat) :=
  match rafts (cfg s) !! i with Some (Some r) => rafts_heap (hst s) !! r | _ => None end.

Example restarted_peer :
  (fun rf => (currentTerm rf, log rf, votedFor rf, state rf)) <$> peer_at restarted 2 =
  Some (3, [MkLogElement 0 None 0; entry7], -1, FOLLOWER).
Proof. vm_compute. reflexivity. Qed.

Lemma restart_keeps_persisted_witness :
  start1 2 persisted_end = Done tt restarted /\
  exists k (s0 s1 s2 : harness nat unit) r peer, 2 = Z.of_nat k /\ crash_point persisted_end s0 /\
    rafts_heap (hst s1) !! r = Some peer /\ peer = Make (n (cfg restarted)) 2 (content s0 k) /\ rely 0 s1 s2 /\
    rafts (cfg restarted) !! k = Some (Some r).
Proof.
  assert (Hrun : start1 2 persisted_end = Done tt restarted) by (apply state_of_Done; vm_compute; reflexivity).
  split; [exact Hrun |].
  destruct (restart_keeps_persisted 2 persisted_end restarted Hrun) as (k & s0 & s1 & s2 & r & peer & Hk & Hcp & Hp & Em & Hr & _ & Hraft & _).
  exists k, s0, s1, s2, r, peer. split_and!; assumption.
Defined.

(** ** Applying *)
Definition message7 : ApplyMsg nat := MkApplyMsg true (Some 7%nat) 1.
Definition dummy : Raft nat := Make 3 0 MakePersister.
Definition applying : harness nat unit :=
  on_hst (fun h => set_rafts_heap (alter (set_cApplyMsg [message7]) 3%positive (rafts_heap h)) h) session_end.
Definition applying_peer : Raft nat := default dummy (rafts_heap (hst applying) !! 3%positive).

Lemma lookup_default {A} (d : A) (o : option A) : match o with Some _ => true | None => false end = true -> o = Some (default d o).
Proof. by destruct o. Qed.

Lemma logs_ok_empty (c : config nat) k : logs c = replicate k (Some ∅) -> logs_ok c.
Proof.
  intros El. split; rewrite El.
  - by intros i j li lj idx v w [-> _]%lookup_replicate [-> _]%lookup_replicate.
  - by intros i l idx v [-> _]%lookup_replicate.
Qed.

Lemma applier_exact_witness :
  exists s', applier 2 3%positive applying = Done tt s' /\ logs_ok (cfg s') /\
    cfg s' = log_entry 2 ∅ 1 (Some 7%nat) (cfg applying).
Proof.
  assert (Hr : rafts_heap (hst applying) !! 3%positive = Some applying_peer) by (apply lookup_default; vm_compute; reflexivity).
  assert (Hm : cApplyMsg applying_peer = [message7]) by (vm_compute; reflexivity).
  assert (Hlogs : logs (cfg applying) = replicate 3 (Some ∅)) by (vm_compute; reflexivity).
  assert (Hd : is_Done (applier 2 3%positive applying) = true) by (vm_compute; reflexivity).
  pose proof (applier_exact 2 3%positive applying_peer message7 [] ∅ applying Hr Hm ltac:(rewrite Hlogs; reflexivity)
    (logs_ok_empty _ 3 Hlogs)) as Hex.
  change (Z.of_nat 2) with 2 in Hex. destruct (applier 2 3%positive applying) as [[] s' | | |]; [| discriminate Hd..].
  destruct Hex as (_ & Hok & _ & Hv & _). exists s'. split; [reflexivity |]. split; [exact Hok |].
  exact (proj2 (proj2 (Hv eq_refl))).
Defined.

(** What the peers of the run of [RaftElection] that breaks state machine
    safety apply. *)
Definition applied_in_divergence : list (Z * ApplyMsg nat) :=
  match run_actions quiet divergence (boot 3) with
  | Ok s => concat (imap (fun i rf => pair (Z.of_nat i) <$> cApplyMsg rf) (nodes s))
  | _ => []
  end.

Fixpoint apply_all (ms : list (Z * ApplyMsg nat)) : tst (harness nat unit) unit :=
  match ms with [] => mret tt | (i, m) :: ms => apply_message i m ;; apply_all ms end.

(** The harness notices. *)
Example divergence_noticed :
  is_Done (apply_all (take 3 applied_in_divergence) session_end) = true /\
  apply_all applied_in_divergence session_end = Died.
Proof. vm_compute. split; reflexivity. Qed.

(** ** Everybody applies what the first instance has in its log *)
Inductive replication := Replicating.

Definition entries_of (s : harness nat replication) : gmap Z (option nat) :=
  match rafts_heap (hst s) !! 1%positive with
  | Some rf => list_to_map ((fun e => (le_Index e, le_Command e)) <$> drop 1 (log rf))
  | None => ∅
  end.

Definition replicate_all (d : Z) (s : harness nat replication) : harness nat replication :=
  on_cfg (fun c => set_logs (map (option_map (fun l => l ∪ entries_of s)) (logs c)) c) (pass d s).

#[local] Instance replicating : Rest nat replication :=
  {| others := replicate_all; iterate := map_to_list; sprint c := []; gob_size := len |}.

#[local] Instance replicating_behaved : Behaved nat replication.
Proof.
  split; [intros d s _ | done]. split; simpl; eauto; [| | | lia].
  - exists (net (cfg s)), (logs (cfg (replicate_all d s))), (maxIndex (cfg s)). split; [by destruct s as [[] ?] | done].
  - by rewrite length_map.
  - intros i l idx v Hl Hv. rewrite list_lookup_fmap, Hl. simpl. eexists. split; [done |].
    destruct l as [l |]; [| done]. simpl in *. by apply lookup_union_Some_l.
Qed.

(** Three connected peers, of which the first leads. *)
Definition with_leader : harness nat replication :=
  on_hst (fun h => set_rafts_heap (alter (set_state LEADER) 1%positive (rafts_heap h)) h)
    (state_of (blank Replicating) (make_config 3 false (blank Replicating))).

Lemma sound_check {E} (s : harness nat E) :
  forallb (fun l => Nat.eqb l (n (cfg s)))
    [length (connected (cfg s)); length (rafts (cfg s)); length (applyErr (cfg s)); length (logs (cfg s))] = true ->
  forallb (fun o => match o with
                    | Some r => match rafts_heap (hst s) !! r with Some rf => 0 <? len (log rf) | None => false end
                    | None => true end) (rafts (cfg s)) = true ->
  sound s.
Proof.
  intros Hl Hp. simpl in Hl. repeat rewrite andb_true_iff in Hl. destruct Hl as (Hc & Hr & Ha & Hlog & _).
  apply Nat.eqb_eq in Hc, Hr, Ha, Hlog. split; try done. intros i r Hi. rewrite forallb_forall in Hp.
  specialize (Hp (Some r) (proj1 (list_elem_of_In _ _) (list_elem_of_lookup_2 _ _ _ Hi))). simpl in Hp.
  destruct (rafts_heap (hst s) !! r) as [rf |]; [| discriminate Hp]. exists rf. split; [done |]. intros E1. by rewrite E1 in Hp.
Qed.

Definition index_of {S} (v : verdict S Z) : option Z := match v with Done i _ => Some i | _ => None end.

Lemma one_agrees_witness :
  exists s', one (Some 7%nat) 3 true with_leader = Done 1 s' /\ agreed s' 1 (Some 7%nat) 3.
Proof.
  assert (Hs : sound with_leader) by (apply sound_check; vm_compute; reflexivity).
  assert (Hi : index_of (one (Some 7%nat) 3 true with_leader) = Some 1) by (vm_compute; reflexivity).
  pose proof (one_agrees (Some 7%nat) 3 true with_leader Hs) as Hone.
  destruct (one (Some 7%nat) 3 true with_leader) as [idx s' | | |]; [| discriminate Hi..].
  injection Hi as ->. exists s'. split; [reflexivity | exact (proj2 Hone)].
Defined.

(** ** A cluster in which nothing moves *)
Definition cluster_rest : Type := list ticker_pc * list (packet nat).

#[local] Instance cluster_idle : Rest nat cluster_rest := idle.
#[local] Instance cluster_behaved : Behaved nat cluster_rest := idle_behaved.

Definition cluster_view (s : harness nat cluster_rest) : cluster nat :=
  Cluster ((fun o => match o with Some r => default dummy (rafts_heap (hst s) !! r) | None => dummy end) <$> rafts (cfg s))
    (env (hst s)).1 (env (hst s)).2.

#[local] Instance cluster_observed : Observed 3 cluster_view.
Proof.
  split.
  - intros s i r rf Hi Hr. simpl. rewrite list_lookup_fmap, Hi. simpl. by rewrite Hr.
  - intros d s _. apply rtc_refl.
  - done.
Qed.

(** The harness of a cluster whose peer [i] is instance [i + 1]. *)
Definition harness_of (c : cluster nat) : harness nat cluster_rest :=
  let s := blank (tickers c, RaftCluster.net c) in
  let ps := Pos.of_succ_nat <$> seq 0 (length (nodes c)) in
  let k := length (nodes c) in
  MkHarness
    (MkConfig MakeNetwork k (Some <$> ps) (replicate k []) (replicate k true) (replicate k None) (replicate k None)
       (replicate k (Some ∅)) 0 0 0 0 0 0 0)
    (set_rafts_heap (list_to_map (zip ps (nodes c))) (hst s)).

Definition won : cluster nat := match run_actions quiet win_0 (boot 3) with Ok s => s | _ => boot 3 end.

Lemma checkOneLeader_finds_leader_witness :
  exists s', checkOneLeader (harness_of won) = Done 0 s' /\ exists t, led 3 cluster_view (harness_of won) s' 0 t.
Proof.
  assert (Hs : sound (harness_of won)) by (apply sound_check; vm_compute; reflexivity).
  assert (Hrun : all_run (harness_of won)).
  { intros i Hi. assert (Hlt : (i < 3)%nat).
    { apply lookup_lt_Some in Hi. exact Hi. }
    exists (Pos.of_succ_nat i). destruct i as [| [| [| i]]]; [reflexivity | reflexivity | reflexivity | lia]. }
  assert (Hwon : run_actions quiet win_0 (boot 3) = Ok won) by (vm_compute; reflexivity).
  assert (Hview : cluster_view (harness_of won) = won) by (vm_compute; reflexivity).
  assert (Hreach : reachable (cluster_system quiet 3) (cluster_view (harness_of won))).
  { rewrite Hview. exact (run_actions_reachable quiet 3 win_0 won Hwon). }
  assert (Hi : index_of (checkOneLeader (harness_of won)) = Some 0) by (vm_compute; reflexivity).
  pose proof (checkOneLeader_finds_leader 3 cluster_view (harness_of won) Hs Hrun ltac:(lia) Hreach) as Hc.
  destruct (checkOneLeader (harness_of won)) as [idx s' | | |]; [| discriminate Hi..].
  injection Hi as ->. destruct Hc as (j & t & Hj & _ & Hled). exists s'. split; [reflexivity |]. exists t.
  replace j with 0%nat in Hled by lia. exact Hled.
Defined.
End ConfigExamples.
