(* ===== verification/Loadgen.v ===== *)
(** * The load generator: [lab1/cmd/loadgen/loadgen.go]

    One goroutine per connection starts requests as the rate limiter lets it,
    each request runs in a goroutine of its own and updates five counters with
    atomic additions, and a reporter prints them every second, loading one
    after the other.  A state machine whose steps are those of any of the
    goroutines; the clock, the random limits, the [rate] package and the replies
    of the service are whatever a step says they are. *)
From stdpp Require Import relations.
From S2P Require Import Prelude Strconv Effects Services ServicesSpec VideoRec.

Local Open Scope Z_scope.

Definition MIN_USER_COUNT : Z := 5000.

Definition getNextUserId (userId : Z) : Z := u64 (u64 (userId + 1) mod MIN_USER_COUNT + USER_ID_OFFSET).

(** The package variables. *)
Record totals := Totals {
  totalSent : Z; totalResponses : Z; totalSuccesses : Z; totalLatencyMs : Z; totalStale : Z
}.

Definition add_sent (t : totals) : totals :=
  Totals (u64 (totalSent t + 1)) (totalResponses t) (totalSuccesses t) (totalLatencyMs t) (totalStale t).
Definition add_response (t : totals) : totals :=
  Totals (totalSent t) (u64 (totalResponses t + 1)) (totalSuccesses t) (totalLatencyMs t) (totalStale t).
Definition add_success (t : totals) : totals :=
  Totals (totalSent t) (totalResponses t) (u64 (totalSuccesses t + 1)) (totalLatencyMs t) (totalStale t).
Definition add_latency (ms : Z) (t : totals) : totals :=
  Totals (totalSent t) (totalResponses t) (totalSuccesses t) (u64 (totalLatencyMs t + ms)) (totalStale t).
Definition add_stale (t : totals) : totals :=
  Totals (totalSent t) (totalResponses t) (totalSuccesses t) (totalLatencyMs t) (u64 (totalStale t + 1)).

(** ** [sendRequest]

    Where the goroutine of a request is: before the next of these operations.
    The last three are those of the deferred function. *)
Inductive point := AtSent | AtCall | AtStale | AtResponses | AtLatency | AtSuccesses | AtEnd.

#[export] Instance point_eq_dec : EqDecision point.
Proof. solve_decision. Defined.

(** Its local variables. *)
Record frame := Frame {
  f_userId : Z; f_responseLimit : Z; f_start : Z; f_elapsed : Z; f_wasSuccess : bool; f_wasStale : bool; f_point : point
}.

Definition new_frame (userId : Z) : frame := Frame userId 0 0 0 false false AtSent.

Definition at_point (p : point) (f : frame) : frame :=
  Frame (f_userId f) (f_responseLimit f) (f_start f) (f_elapsed f) (f_wasSuccess f) (f_wasStale f) p.

(** The next operation: [now] is the time in nanoseconds, [drawn] what
    [rand.Int31n(10)] draws, [reply] what [GetTopVideos] returns. *)
Definition sendRequest_next (now drawn : Z) (reply : result GetTopVideosResponse) (f : frame) (t : totals)
    : option (frame * totals) :=
  match f_point f with
  | AtSent =>
      Some (Frame (f_userId f) (i32 (drawn mod 10 + 1)) now 0 false false AtCall, add_sent t)
  | AtCall =>
      Some (match reply with
            | inl response =>
                Frame (f_userId f) (f_responseLimit f) (f_start f) 0 true (StaleResponse response)
                  (if StaleResponse response then AtStale else AtResponses)
            | inr _ => at_point AtResponses f
            end, t)
  | AtStale => Some (at_point AtResponses f, add_stale t)
  | AtResponses => Some (at_point AtLatency f, add_response t)
  | AtLatency =>
      let elapsed := u64 (Z.quot (now - f_start f) milliseconds) in
      Some (Frame (f_userId f) (f_responseLimit f) (f_start f) elapsed (f_wasSuccess f) (f_wasStale f)
              (if f_wasSuccess f then AtSuccesses else AtEnd), add_latency elapsed t)
  | AtSuccesses => Some (at_point AtEnd f, add_success t)
  | AtEnd => None
  end.

(** ** [reportStats]

    A line it prints; the two ratios are computed from these numbers in
    floating point. *)
Record report := Report {
  total_sent : Z; total_responses : Z; total_errors : Z; stale_responses : Z; latency_ms : Z
}.

(** What the reporter has loaded for the next line. *)
Inductive reporter :=
  | Waiting
  | LoadedResponses (numReqs : Z)
  | LoadedSuccesses (numReqs numErrors : Z)
  | LoadedLatency (numReqs numErrors latencyMs : Z)
  | LoadedStale (numReqs numErrors latencyMs staleResponses : Z).

Definition reportStats_next (r : reporter) (t : totals) : reporter * list report :=
  match r with
  | Waiting => (LoadedResponses (totalResponses t), [])
  | LoadedResponses n => (LoadedSuccesses n (u64 (n - totalSuccesses t)), [])
  | LoadedSuccesses n e => (LoadedLatency n e (totalLatencyMs t), [])
  | LoadedLatency n e l => (LoadedStale n e l (totalStale t), [])
  | LoadedStale n e l s => (Waiting, [Report (totalSent t) n e s l])
  end.

(** ** [main] *)

(** The goroutine of a connection: still to dial, or in its loop. *)
Inductive sender := Dialing | Looping (userId : Z).

Record state := State {
  tot : totals; senders : list sender; frames : list frame; rep : reporter; printed : list report; exited : bool
}.

Definition numConns (targetQps : Z) : Z := if targetQps <? 1000 then targetQps else 1000.
Definition maxBurst (targetQps : Z) : Z := if targetQps <? 100 then targetQps else 100.

(** After [for i := 0; i < numConns; i++ { go ... }]. *)
Definition start (targetQps : Z) : state :=
  State (Totals 0 0 0 0 0) (replicate (Z.to_nat (numConns targetQps)) Dialing) [] Waiting [] false.

Inductive step (s : state) : state -> Prop :=
  | step_dial i (err : bool) :
      exited s = false -> senders s !! i = Some Dialing ->
      step s (if err then State (tot s) (senders s) (frames s) (rep s) (printed s) true
              else State (tot s) (<[i := Looping USER_ID_OFFSET]> (senders s)) (frames s) (rep s) (printed s) false)
  | step_wait i userId :   (* limiter.Wait returned nil *)
      exited s = false -> senders s !! i = Some (Looping userId) ->
      step s (State (tot s) (<[i := Looping (getNextUserId userId)]> (senders s)) (frames s ++ [new_frame userId])
                (rep s) (printed s) false)
  | step_request j f now drawn reply f' t' :
      exited s = false -> frames s !! j = Some f -> sendRequest_next now drawn reply f (tot s) = Some (f', t') ->
      step s (State t' (senders s) (<[j := f']> (frames s)) (rep s) (printed s) false)
  | step_report :
      exited s = false ->
      step s (let r := reportStats_next (rep s) (tot s) in
              State (tot s) (senders s) (frames s) r.1 (printed s ++ r.2) false).

Definition loadgen (targetQps : Z) : lts state := Lts (fun s => s = start targetQps) step.

(** ** What the counters count *)

(** The requests past each addition. *)
Definition sent (f : frame) : bool := negb (bool_decide (f_point f = AtSent)).
Definition responded (f : frame) : bool :=
  match f_point f with AtLatency | AtSuccesses | AtEnd => true | _ => false end.
Definition succeeded (f : frame) : bool := match f_point f with AtEnd => f_wasSuccess f | _ => false end.
Definition stale (f : frame) : bool :=
  match f_point f with AtResponses | AtLatency | AtSuccesses | AtEnd => f_wasStale f | _ => false end.

Definition sum_elapsed (fs : list frame) : Z := foldr (fun f n => f_elapsed f + n) 0 fs.

Section counting.
Lemma sum_insert fs j f f' : fs !! j = Some f -> sum_elapsed (<[j := f']> fs) = sum_elapsed fs - f_elapsed f + f_elapsed f'.
Proof.
  revert j. induction fs as [|g fs IH]; intros [|j] Hj; simpl in *; [done..| | ].
  - injection Hj as ->. lia.
  - rewrite (IH j Hj). lia.
Qed.

Lemma sum_app fs gs : sum_elapsed (fs ++ gs) = sum_elapsed fs + sum_elapsed gs.
Proof. induction fs as [|f fs IH]; simpl; [done | ]. lia. Qed.

Lemma responded_sent f : responded f = true -> sent f = true.
Proof. unfold responded, sent. by destruct (f_point f). Qed.
Lemma succeeded_responded f : succeeded f = true -> responded f = true.
Proof. unfold responded, succeeded. by destruct (f_point f). Qed.
Lemma stale_sent f : stale f = true -> sent f = true.
Proof. unfold stale, sent. by destruct (f_point f). Qed.
End counting.

(** ** The invariant *)

(** A request moves forward: the counters change by what its position says. *)
Definition gain (P : frame -> bool) (f f' : frame) : Z := (if P f' then 1 else 0) - (if P f then 1 else 0).

(** A request that has not replied is neither a success nor stale. *)
Definition frame_ok (f : frame) : Prop :=
  200000 <= f_userId f < 205000 /\
  match f_point f with
  | AtSent | AtCall => f_wasSuccess f = false /\ f_wasStale f = false /\ f_elapsed f = 0
  | AtStale => f_wasStale f = true /\ f_elapsed f = 0
  | AtResponses | AtLatency => f_elapsed f = 0
  | AtSuccesses => f_wasSuccess f = true
  | AtEnd => True
  end.

(** The counters hold these numbers, modulo 2^64. *)
Record tracks (t : totals) (sent responses successes latency stale : Z) : Prop := {
  tr_sent : totalSent t = u64 sent;
  tr_responses : totalResponses t = u64 responses;
  tr_successes : totalSuccesses t = u64 successes;
  tr_latency : totalLatencyMs t = u64 latency;
  tr_stale : totalStale t = u64 stale
}.

Lemma next_gains now drawn reply f t f' t' a b c d e :
  frame_ok f -> sendRequest_next now drawn reply f t = Some (f', t') -> tracks t a b c d e ->
  frame_ok f' /\
  tracks t' (a + gain sent f f') (b + gain responded f f') (c + gain succeeded f f')
    (d + (f_elapsed f' - f_elapsed f)) (e + gain stale f f') /\
  0 <= gain sent f f' /\ 0 <= gain responded f f' /\ 0 <= gain succeeded f f' /\ 0 <= gain stale f f'.
Proof.
  intros Hf E [Ha Hb Hc Hd He]. destruct f as [u lim st el ok sl p], t as [ts tr tc tl ta].
  destruct Hf as [Hu Hp]. simpl in *. subst ts tr tc tl ta.
  destruct p; simpl in E; (try done); try destruct reply as [[vs []]|]; injection E as <- <-;
    (destruct ok; try by destruct_and?); (destruct sl; try by destruct_and?);
    (split; [split; [exact Hu | simpl; destruct_and?; auto] | ]);
    (split; [ | by vm_compute]);
    split; simpl; rewrite ?u64_add_l; f_equal; unfold gain, sent, responded, succeeded, stale; simpl; destruct_and?; lia.
Qed.

Definition sender_ok (x : sender) : Prop := match x with Dialing => True | Looping u => 200000 <= u < 205000 end.

(** [v] is a count, modulo 2^64, no greater than [n]. *)
Definition at_most (n v : Z) : Prop := exists k, v = u64 k /\ 0 <= k <= n.

(** A printed line: it loads the requests sent last. *)
Definition report_ok (n : Z) (r : report) : Prop :=
  exists k, total_sent r = u64 k /\ 0 <= k <= n /\ at_most k (total_responses r) /\ at_most k (stale_responses r).

Definition reporter_ok (fs : list frame) (r : reporter) : Prop :=
  match r with
  | Waiting => True
  | LoadedResponses n | LoadedSuccesses n _ | LoadedLatency n _ _ => at_most (tally responded fs) n
  | LoadedStale n _ _ s => at_most (tally responded fs) n /\ at_most (tally stale fs) s
  end.

Record inv (s : state) : Prop := {
  inv_counts : tracks (tot s) (tally sent (frames s)) (tally responded (frames s)) (tally succeeded (frames s))
                 (sum_elapsed (frames s)) (tally stale (frames s));
  inv_frames : Forall frame_ok (frames s);
  inv_senders : Forall sender_ok (senders s);
  inv_reporter : reporter_ok (frames s) (rep s);
  inv_printed : Forall (report_ok (tally sent (frames s))) (printed s)
}.

Lemma at_most_le n m v : n <= m -> at_most n v -> at_most m v.
Proof. intros Hnm (k & -> & Hk). exists k. lia. Qed.

Lemma reporter_ok_le fs gs r :
  tally responded fs <= tally responded gs -> tally stale fs <= tally stale gs -> reporter_ok fs r -> reporter_ok gs r.
Proof. intros H1 H2. destruct r; simpl; [done | eauto using at_most_le..| ]. intros [? ?]. eauto using at_most_le. Qed.

Lemma report_ok_le n m rs : n <= m -> Forall (report_ok n) rs -> Forall (report_ok m) rs.
Proof. intros Hnm Hrs. eapply Forall_impl; [exact Hrs | ]. intros r (k & Hk & Hle & Hr). exists k. split_and!; [done | lia | lia | apply Hr..]. Qed.

(** The ids a sender goes through: all of them, in order, for ever. *)
Lemma getNextUserId_next k : 0 <= k < 5000 -> getNextUserId (200000 + k) = 200000 + (k + 1) mod 5000.
Proof.
  intros Hk. unfold getNextUserId, MIN_USER_COUNT, USER_ID_OFFSET. rewrite (u64_small (_ + 1)) by lia.
  replace (200000 + k + 1) with (k + 1 + 40 * 5000) by lia. rewrite Z_mod_plus_full.
  pose proof (Z.mod_pos_bound (k + 1) 5000). rewrite u64_small by lia. lia.
Qed.

Lemma users_cycle n : Nat.iter n getNextUserId USER_ID_OFFSET = 200000 + Z.of_nat n mod 5000.
Proof.
  induction n as [|n IH]; [done | ]. rewrite Nat.iter_succ, IH, getNextUserId_next by (apply Z.mod_pos_bound; lia).
  rewrite Zplus_mod_idemp_l. do 2 f_equal. lia.
Qed.

Lemma next_user_range u : 200000 <= u < 205000 -> 200000 <= getNextUserId u < 205000.
Proof.
  intros Hu. replace u with (200000 + (u - 200000)) by lia. rewrite getNextUserId_next by lia.
  pose proof (Z.mod_pos_bound (u - 200000 + 1) 5000). lia.
Qed.

Lemma inv_start targetQps : inv (start targetQps).
Proof. split; simpl; [by split | constructor | by apply Forall_replicate | done | constructor]. Qed.

Lemma inv_step s s' : inv s -> step s s' -> inv s'.
Proof.
  intros [Ht Hf Hs Hr Hp] Hstep. destruct Hstep as [i err _ _ | i u _ Hi | j f now drawn reply f' t' _ Hj E | _].
  - destruct err; split; simpl; try done. apply Forall_insert; [done | unfold USER_ID_OFFSET; simpl; lia].
  - pose proof (Forall_lookup_1 _ _ _ _ Hs Hi) as Hu. simpl in Hu.
    assert (Hc : forall P, P (new_frame u) = false -> tally P (frames s ++ [new_frame u]) = tally P (frames s)).
    { intros P HP. rewrite tally_snoc, HP. lia. }
    split; simpl.
    + rewrite !Hc by done. rewrite sum_app. simpl. by rewrite Z.add_0_r.
    + apply Forall_app. split; [done | ]. apply Forall_singleton. by split.
    + apply Forall_insert; [done | by apply next_user_range].
    + eapply reporter_ok_le; [ | | exact Hr]; rewrite Hc by done; lia.
    + by rewrite Hc.
  - pose proof (Forall_lookup_1 _ _ _ _ Hf Hj) as Hfj.
    destruct (next_gains _ _ _ _ _ _ _ _ _ _ _ _ Hfj E Ht) as (Hf' & Ht' & G1 & G2 & G3 & G4).
    assert (Hc : forall P, tally P (<[j := f']> (frames s)) = tally P (frames s) + gain P f f').
    { intros P. rewrite (tally_insert P _ _ _ _ Hj). unfold gain. lia. }
    split; simpl.
    + rewrite !Hc, (sum_insert _ _ _ f' Hj).
      by replace (sum_elapsed (frames s) - f_elapsed f + f_elapsed f') with (sum_elapsed (frames s) + (f_elapsed f' - f_elapsed f)) by lia.
    + by apply Forall_insert.
    + done.
    + eapply reporter_ok_le; [ | | exact Hr]; rewrite Hc; lia.
    + rewrite Hc. eapply report_ok_le; [ | exact Hp]. lia.
  - pose proof (tally_bounds responded (frames s)). pose proof (tally_bounds stale (frames s)).
    pose proof (tally_le _ _ (frames s) responded_sent). pose proof (tally_le _ _ (frames s) stale_sent).
    split; simpl; [done | done | done | | ].
    + destruct (rep s); simpl in *; try done; [ | split; [done | ]];
        (eexists; split; [apply Ht | lia]).
    + apply Forall_app. split; [done | ]. destruct (rep s) as [ | | | |n e l st]; simpl; try done. apply Forall_singleton.
      destruct Hr as [Hn Hst]. exists (tally sent (frames s)). simpl. split; [apply Ht | ]. split; [pose proof (tally_bounds sent (frames s)); lia | ].
      split; [by eapply at_most_le, Hn | by eapply at_most_le, Hst].
Qed.

Lemma inv_reachable targetQps : invariant (loadgen targetQps) inv.
Proof. apply invariant_ind; [intros s ->; apply inv_start | intros s s'; apply inv_step]. Qed.

(** C27: the accounting of the load generator.  Whatever the goroutines of the
    connections, of the requests and of the reporter interleave into, and
    whatever the service replies, as long as fewer than 2^64 requests were
    started: the five counters are the numbers of requests past each addition
    and the sum of their latencies modulo 2^64; no more requests succeed than
    are answered, or are answered than are sent; once all are done as many were
    answered as started; and no printed line counts more responses, or more
    stale ones, than requests sent. *)
Theorem loadgen_accounts targetQps s :
  reachable (loadgen targetQps) s -> len (frames s) < 2 ^ 64 ->
  let t := tot s in
  totalSent t = tally sent (frames s) /\ totalResponses t = tally responded (frames s) /\
  totalSuccesses t = tally succeeded (frames s) /\ totalStale t = tally stale (frames s) /\
  totalLatencyMs t = u64 (sum_elapsed (frames s)) /\
  totalSuccesses t <= totalResponses t <= totalSent t /\ totalStale t <= totalSent t /\
  (Forall (fun f => f_point f = AtEnd) (frames s) -> totalResponses t = len (frames s)) /\
  Forall (fun r => total_responses r <= total_sent r <= totalSent t /\ stale_responses r <= total_sent r) (printed s).
Proof.
  intros Hs Hlt. destruct (inv_reachable _ _ Hs) as [[H1 H2 H3 H4 H5] _ _ _ Hp].
  pose proof (tally_bounds sent (frames s)). pose proof (tally_bounds responded (frames s)).
  pose proof (tally_bounds succeeded (frames s)). pose proof (tally_bounds stale (frames s)).
  pose proof (tally_le _ _ (frames s) responded_sent). pose proof (tally_le _ _ (frames s) succeeded_responded).
  pose proof (tally_le _ _ (frames s) stale_sent).
  cbn zeta. rewrite H1, H2, H3, H4, H5, !u64_small by lia. do 4 (split; [done | ]). split; [done | ].
  split; [lia | ]. split; [lia | ]. split.
  - intros Hend. apply tally_all. eapply Forall_impl; [exact Hend | ]. intros f Hf. unfold responded. by rewrite Hf.
  - eapply Forall_impl; [exact Hp | ]. intros r (k & -> & Hk & (b & -> & Hb) & (c & -> & Hc)). rewrite !u64_small by lia. lia.
Qed.

(** Every request asks the user service for a user that exists, whatever seed
    its database was made from. *)
Theorem loadgen_users_exist `{GoFakeIt} (source : Z -> rng) options us targetQps s :
  MakeUserServiceServer source options = Ok us -> reachable (loadgen targetQps) s ->
  Forall (fun f => is_Some (users us !! f_userId f)) (frames s).
Proof.
  intros E Hs. destruct (MakeUserServiceServer_total source options) as (us' & nu & E' & _ & Hnu & Hdom & _).
  rewrite E in E'. injection E' as <-. destruct (inv_reachable _ _ Hs) as [_ Hf _ _ _].
  eapply Forall_impl; [exact Hf | ]. intros f [Hu _]. apply Hdom. unfold id_in, USER_ID_OFFSET. lia.
Qed.

(** ** Runs *)
Section runs.

(** A step, by the goroutine that makes it. *)
Inductive move := Dial (i : nat) | Wait (i : nat) | Request (j : nat) (now drawn : Z) (reply : result GetTopVideosResponse) | Tick.

Definition run_move (s : state) (m : move) : option state :=
  if exited s then None else
  match m with
  | Dial i =>
      match senders s !! i with
      | Some Dialing => Some (State (tot s) (<[i := Looping USER_ID_OFFSET]> (senders s)) (frames s) (rep s) (printed s) false)
      | _ => None
      end
  | Wait i =>
      match senders s !! i with
      | Some (Looping u) => Some (State (tot s) (<[i := Looping (getNextUserId u)]> (senders s)) (frames s ++ [new_frame u])
                                    (rep s) (printed s) false)
      | _ => None
      end
  | Request j now drawn reply =>
      f ← frames s !! j;
      x ← sendRequest_next now drawn reply f (tot s);
      Some (State x.2 (senders s) (<[j := x.1]> (frames s)) (rep s) (printed s) false)
  | Tick => let r := reportStats_next (rep s) (tot s) in
      Some (State (tot s) (senders s) (frames s) r.1 (printed s ++ r.2) false)
  end.

Fixpoint run (s : state) (ms : list move) : option state :=
  match ms with [] => Some s | m :: ms => s' ← run_move s m; run s' ms end.

Lemma run_move_step s m s' : run_move s m = Some s' -> step s s'.
Proof.
  unfold run_move. destruct (exited s) eqn:Ex; [done | ]. destruct m as [i | i | j now drawn reply | ].
  - destruct (senders s !! i) as [[|u]|] eqn:Ei; intros [= <-]. by apply (step_dial s i false).
  - destruct (senders s !! i) as [[|u]|] eqn:Ei; intros [= <-]. by apply step_wait.
  - intros (f & Hj & (x & E & [= <-])%bind_Some)%bind_Some. destruct x. by eapply step_request.
  - intros [= <-]. by apply step_report.
Qed.

Lemma moves_reachable q ms s : run (start q) ms = Some s -> reachable (loadgen q) s.
Proof.
  intros E. exists (start q). split; [done | ]. revert E. generalize (start q) as s0. induction ms as [|m ms IH]; intros s0; simpl.
  - intros [= ->]. apply rtc_refl.
  - intros (s1 & E1 & E2)%bind_Some. eapply rtc_l; [by eapply run_move_step | by apply IH].
Qed.

Definition answered (stale : bool) : result GetTopVideosResponse := inl (MkResponse [] stale).

(** Two requests of one connection, one answered stale and one failed, and a
    line printed after both. *)
Definition two_requests : list move :=
  let req j t r := Request j (t * milliseconds) 3 r in
  [Dial 0; Wait 0; Wait 0; req 0%nat 5 (answered true); req 1%nat 6 (answered true); req 0%nat 9 (answered true);
   req 0%nat 9 (answered true); req 1%nat 12 (inr (Other [])); req 0%nat 15 (answered true); req 0%nat 15 (answered true);
   req 0%nat 15 (answered true); req 1%nat 18 (answered true); req 1%nat 18 (answered true); Tick; Tick; Tick; Tick; Tick].

Lemma loadgen_accounts_witness :
  exists s, reachable (loadgen 20) s /\ printed s = [Report 2 2 1 1 22] /\ f_userId <$> frames s = [200000; 200001] /\
    totalResponses (tot s) = 2 /\ totalResponses (tot s) <= totalSent (tot s).
Proof.
  destruct (run (start 20) two_requests) as [s|] eqn:E; [ | by vm_compute in E].
  exists s. pose proof (moves_reachable _ _ _ E) as Hs.
  destruct (loadgen_accounts 20 s Hs) as (_ & _ & _ & _ & _ & Hle & _ & Hend & _).
  { vm_compute in E. injection E as <-. reflexivity. }
  split; [exact Hs | ]. vm_compute in E. injection E as <-. split; [reflexivity | ]. split; [reflexivity | ].
  split; [apply Hend; repeat constructor | apply Hle].
Defined.

(** The reporter loads the responses before the successes: a request that ends
    between the two makes the errors of the line wrap around, though no request
    has failed. *)
Theorem report_underflows :
  exists s, reachable (loadgen 1) s /\ Forall (fun f => f_wasSuccess f = true) (frames s) /\
    exists l, printed s = [Report 1 0 (2 ^ 64 - 1) 0 l].
Proof.
  set (req := Request 0 milliseconds 3 (answered false)).
  destruct (run (start 1) [Dial 0; Wait 0; Tick; req; req; req; req; req; Tick; Tick; Tick; Tick]) as [s|] eqn:E; [ | by vm_compute in E].
  exists s. split; [by eapply moves_reachable | ]. vm_compute in E. injection E as <-. split; [by repeat constructor | by eexists].
Qed.
End runs.
