(* ===== verification/Clients.v ===== *)
(** * The programs around the services of lab 1: [cmd/frontend], [cmd/stats] and
      [logging]

    The frontend asks for one user and for recommendations and checks two of
    them; the statistics reader prints a line of counters; the middleware logs
    a line for each request a server handles.  What the [grpc], [net] and
    [influxdb] packages do is a [Network] and the arguments of the middleware;
    the log is the list of messages given to the [log] package. *)
From Stdlib Require Import String.
From S2P Require Import Prelude Strconv Effects FailureInjection Services ServicesSpec VideoRec VideoRecTop Base64 Bcrypt BcryptSpec Ranker.

Local Open Scope Z_scope.
Local Open Scope st_scope.

(** What a client program reaches through [grpc]; a call is given the time its
    context allows, in nanoseconds. *)
Class Network (S : Type) `{TDigest} := {
  net_conn : Type;
  net_NewClient : bytes -> st S (result net_conn);
  net_Close : net_conn -> st S unit;
  net_GetUser : net_conn -> Z -> list Z -> st S (result (list UserInfo));
  net_GetTopVideos : net_conn -> Z -> Z -> Z -> st S (result GetTopVideosResponse);
  net_GetStats : net_conn -> Z -> st S (result GetStatsResponse);
  net_UnixMicro : st S Z;
  fmt_error : error -> bytes;      (* %v *)
  fmt_float2 : float -> bytes      (* %.2f *)
}.

(** A process: what it has logged or printed, and the world. *)
Record process (S : Type) := Process { logged : list bytes; net : S }.
Arguments Process {S}.
Arguments logged {S}.
Arguments net {S}.

(** [log.Fatalf] logs and exits; deferred functions do not run. *)
Inductive ended (A : Type) := Returned (a : A) | Exited.
Arguments Returned {A}.
Arguments Exited {A}.

Section programs.
Context {S : Type} `{TDigest} `{!Network S}.

Definition prog (A : Type) : Type := st (process S) (ended A).
Definition on_net {A} (m : st S A) : st (process S) A := zoom net (fun w p => Process (logged p) w) m.
Definition Printf (line : bytes) : st (process S) unit := modify (fun p => Process (logged p ++ [line]) (net p)).
Definition Fatalf {A} (line : bytes) : prog A := Printf line ;;; ret Exited.
Definition and_then {A B} (m : prog A) (k : A -> prog B) : prog B :=
  r <- m ;; match r with Returned a => k a | Exited => ret Exited end.

Definition serviceConn (address : bytes) : st (process S) (result net_conn) := on_net (net_NewClient address).

(** ** [frontend.go] *)
Record frontend_flags := MkFrontendFlags { f_videoRecServiceAddr : bytes; f_userServiceAddr : bytes; f_netId : bytes }.

Definition getUserId (netId : bytes) : Z := u64 (New64 netId mod 5000 + 200000).

Definition user_line (u : UserInfo) : bytes :=
  lit "This user has name " ++ Username u ++ lit ", their email is " ++ Email u ++
  lit ", and their profile URL is " ++ ProfileUrl u ++ [10].

Definition fetchUser (flags : frontend_flags) (userId : Z) : prog unit :=
  c <- serviceConn (f_userServiceAddr flags) ;;
  match c with
  | inr err => Fatalf (lit "fail to dial: " ++ fmt_error err)
  | inl userServiceConn =>
      out <- on_net (net_GetUser userServiceConn (3 * seconds) [userId]) ;;
      let failed (err : bytes) :=
        Fatalf (lit "Error retrieving user information for user (userId " ++ fmt_d userId ++ lit "): " ++ err ++ [10]) in
      match out with
      | inr err => failed (fmt_error err)
      | inl [userInfo] => Printf (user_line userInfo) ;;; on_net (net_Close userServiceConn) ;;; ret (Returned tt)
      | inl _ => failed (lit "<nil>")
      end
  end.

Definition video_line (i : nat) (v : VideoInfo) : bytes :=
  lit "  [" ++ fmt_d (Z.of_nat i) ++ lit "] Video id=" ++ fmt_d (VideoId v) ++ lit ", title=" ++ [34] ++ Title v ++ [34] ++
  lit ", author=" ++ Author v ++ lit ", url=" ++ Url v.

Fixpoint print_videos (i : nat) (vs : list VideoInfo) : st (process S) unit :=
  match vs with
  | [] => ret tt
  | v :: vs => Printf (video_line i v) ;;; print_videos (i + 1) vs
  end.

Definition sendSingleTestRequest (userId : Z) (client : net_conn) : prog (list VideoInfo) :=
  out <- on_net (net_GetTopVideos client (10 * seconds) userId 5) ;;
  match out with
  | inr err =>
      Fatalf (lit "Error retrieving video recommendations for user (userId " ++ fmt_d userId ++ lit "): " ++
              fmt_error err ++ [10])
  | inl out =>
      Printf (lit "Recommended videos:") ;;;
      print_videos 0 (Videos out) ;;;
      ret (Returned (Videos out))
  end.

(** The two conditions of [main] that fail a test. *)
Definition case1_wrong (videos : list VideoInfo) : bool :=
  match videos with
  | [v0; v1; v2; v3; v4] =>
      negb (VideoId v0 =? 1012) || negb (bool_decide (Author v1 = lit "Harry Boehm")) || negb (VideoId v2 =? 1209) ||
      negb (bool_decide (Url v3 = lit "https://video-data.localhost/blob/1309")) ||
      negb (bool_decide (Title v4 = lit "precious here"))
  | _ => true
  end.
Definition case2_wrong (videos : list VideoInfo) : bool :=
  match videos with
  | [v0; v1; v2; v3; v4] =>
      negb (VideoId v0 =? 1196) || negb (bool_decide (Author v1 = lit "Rocky Okuneva")) || negb (VideoId v2 =? 1071) ||
      negb (bool_decide (Url v3 = lit "https://video-data.localhost/blob/1041")) ||
      negb (bool_decide (Title v4 = lit "witty downstairs"))
  | _ => true
  end.

Definition test_case (n userId : Z) (wrong : list VideoInfo -> bool) (client : net_conn) : prog unit :=
  Printf (lit "Test case " ++ fmt_d n ++ lit ": UserId=" ++ fmt_d userId) ;;;
  and_then (sendSingleTestRequest userId client) (fun videos =>
    if wrong videos then Fatalf (lit "Test case " ++ fmt_d n ++ lit " FAILED! Wrong recommendations")
    else ret (Returned tt)).

Definition frontend_main (flags : frontend_flags) : prog unit :=
  c <- serviceConn (f_videoRecServiceAddr flags) ;;
  match c with
  | inr err => Fatalf (lit "fail to dial: " ++ fmt_error err)
  | inl videoRecServiceConn =>
      let userId := getUserId (f_netId flags) in
      Printf (lit "Welcome " ++ f_netId flags ++ lit "! The UserId we picked for you is " ++ fmt_d userId ++
              lit "." ++ [10; 10]) ;;;
      and_then (fetchUser flags userId) (fun _ =>
      and_then (sendSingleTestRequest userId videoRecServiceConn) (fun _ =>
      Printf ([10; 10] ++ lit "==== BASIC TESTS ====" ++ [10]) ;;;
      and_then (test_case 1 204054 case1_wrong videoRecServiceConn) (fun _ =>
      and_then (test_case 2 203584 case2_wrong videoRecServiceConn) (fun _ =>
      Printf (lit "OK: basic tests passed!") ;;;
      on_net (net_Close videoRecServiceConn) ;;;
      ret (Returned tt)))))
  end.

(** ** [stats.go] *)
Definition tab : bytes := [9].

Definition printHeader : st (process S) unit := Printf
  (lit "now_us" ++ tab ++ lit "total_requests" ++ tab ++ lit "total_errors" ++ tab ++ lit "active_requests" ++ tab ++
   lit "user_service_errors" ++ tab ++ lit "video_service_errors" ++ tab ++ lit "average_latency_ms" ++ tab ++
   lit "p99_latency_ms" ++ tab ++ lit "stale_responses").

Definition printStats (r : GetStatsResponse) : st (process S) unit :=
  now <- on_net net_UnixMicro ;;
  Printf (fmt_d now ++ tab ++ fmt_d (st_TotalRequests r) ++ tab ++ fmt_d (st_TotalErrors r) ++ tab ++
          fmt_d (st_ActiveRequests r) ++ tab ++ fmt_d (st_UserServiceErrors r) ++ tab ++
          fmt_d (st_VideoServiceErrors r) ++ tab ++ fmt_float2 (st_AverageLatencyMs r) ++ tab ++
          fmt_float2 (st_P99LatencyMs r) ++ tab ++ fmt_d (st_StaleResponses r) ++ [10]).

Definition gatherStats (client : net_conn) : st (process S) unit :=
  out <- on_net (net_GetStats client (1 * seconds)) ;;
  match out with
  | inr err => Printf (lit "Error retrieving stats: " ++ fmt_error err ++ [10])
  | inl out => printStats out
  end.

(** [main], for a number of ticks of its endless loop, each goroutine run
    before the next tick. *)
Fixpoint gather_ticks (ticks : nat) (client : net_conn) : st (process S) unit :=
  match ticks with O => ret tt | Datatypes.S ticks => gatherStats client ;;; gather_ticks ticks client end.

Definition stats_main (ticks : nat) (videoRecServiceAddr : bytes) : prog unit :=
  c <- serviceConn videoRecServiceAddr ;;
  match c with
  | inr err => Fatalf (lit "fail to create connection: " ++ fmt_error err)
  | inl conn => printHeader ;;; gatherStats conn ;;; gather_ticks ticks conn ;;; ret (Returned tt)
  end.
End programs.

(** ** [logging.go] *)
Section logging.

(** [net.Addr]: a TCP or UDP address, or another kind. *)
Inductive Addr := TCPAddr (IP : bytes) | UDPAddr (IP : bytes) | OtherAddr.

Definition getIpFromAddr (addr : Addr) : bytes :=
  match addr with TCPAddr ip => ip | UDPAddr ip => ip | OtherAddr => lit "unknown" end.

(** [peer.FromContext] is [from]; [net.LookupAddr] is [LookupAddr]. *)
Definition getPeerHost (LookupAddr : bytes -> result (list bytes)) (from : option Addr) : bytes :=
  match from with
  | Some addr =>
      let ip := getIpFromAddr addr in
      match LookupAddr ip with inl (hostname :: _) => hostname | _ => ip end
  | None => lit "unknown"
  end.

(** The two loggers: one has a measurement to write points to. *)
Inductive Logger := StderrLogger | InfluxLogger (measurement : bytes).

Record influx_flags := MkInfluxFlags { influxDbUrl : bytes; influxDbAuthToken : bytes; influxMeasurement : bytes }.

Definition MakeLogger (flags : influx_flags) : ended Logger :=
  if bool_decide (influxDbUrl flags = []) then Returned StderrLogger
  else if bool_decide (influxDbAuthToken flags = []) || bool_decide (influxMeasurement flags = []) then Exited
  else Returned (InfluxLogger (influxMeasurement flags)).

(** What a logger emits: a line on the standard error, with the latency in
    microseconds, and a point with its measurement, tags and fields. *)
Inductive record_out :=
  | Line (peerAddr : bytes) (isError : bool) (latencyUs : Z)
  | Point (measurement client host : bytes) (isError : bool) (latencyUs : Z).

Definition LogRequest (logger : Logger) (peerAddr hostname : bytes) (isError : bool) (latencyUs : Z) : list record_out :=
  match logger with
  | StderrLogger => [Line peerAddr isError latencyUs]
  | InfluxLogger measurement =>
      [Line peerAddr isError latencyUs; Point measurement peerAddr hostname isError latencyUs]
  end.

(** The interceptor around a handler; the state is what was emitted and the
    world of the handler. *)
Definition MakeMiddleware {S Req Resp} (UnixMicro : S -> Z) (peerAddr hostname : bytes) (logger : Logger)
    (handler : Req -> st S (result Resp)) (req : Req) : st (list record_out * S) (result Resp) :=
  startTime <- gets (fun s => UnixMicro s.2) ;;
  r <- zoom snd (fun w s => (s.1, w)) (handler req) ;;
  latency <- gets (fun s => UnixMicro s.2 - startTime) ;;
  modify (fun s => (s.1 ++ LogRequest logger peerAddr hostname (match r with inl _ => false | inr _ => true end) latency, s.2)) ;;;
  ret r.
End logging.
