(* ===== verification/ClientsSpec.v ===== *)
(** * What the programs around the services do

    The frontend against the whole of lab 1: the two services, the
    recommendation server over them, and the tests of the frontend's [main].
    The statistics reader and the middleware. *)
From Stdlib Require Import String Sorting.Sorted.
From S2P Require Import Prelude Strconv Effects FailureInjection Services ServicesSpec VideoRec VideoRecTop.
From S2P Require Import VideoRecSpec VideoRecFresh VideoRecMock VideoRecExamples Ranker Clients.

Local Open Scope Z_scope.
Local Open Scope st_scope.

(** ** The frontend over the mock clients *)

Definition unimplemented {A} : result A := inr (Other (lit "unknown service")).

(** Connections name the address dialled.  The user service of the mocks listens
    on [uaddr] and the recommendation server on [vaddr]; a connection to
    another address has neither service.  A request reaches the recommendation
    server with its deadline. *)
Definition MockNetwork `{TDigest} `{Ranker} (uc : MockUserServiceClient) (vc : MockVideoServiceClient)
    (uaddr vaddr : bytes) (usched vsched : schedule) : Network (env world) :=
  let b := MockBackend uc vc in {|
  net_conn := bytes;
  net_NewClient := fun address => ret (inl address);
  net_Close := fun _ => ret tt;
  net_GetUser := fun c _ ids =>
    if bool_decide (c = uaddr) then call (mock_GetUser uc ids) else ret unimplemented;
  net_GetTopVideos := fun c timeout userId limit e =>
    if bool_decide (c = vaddr) then GetTopVideos usched vsched (Some (w_now (outer e) + timeout)) userId limit e
    else Ok (unimplemented, e);
  net_GetStats := fun c _ =>
    if bool_decide (c = vaddr) then r <- GetStats ;; ret (inl r) else ret unimplemented;
  net_UnixMicro := gets (fun e => w_now (outer e) / 1000);
  fmt_error := fun e => match e with Status _ m | Other m => m end;
  fmt_float2 := fun _ => []
|}.

Section frontend.
Context `{TDigest} `{Ranker} (us : UserServiceServer) (vs : VideoServiceServer) (usched vsched : schedule) (nu nv : Z).
Context (Hqu : quiet (us_fi us)) (Hqv : quiet (vs_fi vs)).
Context (Hu : 1 <= us_MaxBatchSize (us_options us) < 2 ^ 63) (Hv : vs_MaxBatchSize (vs_options vs) < 2 ^ 63).
Context (Hnv : 0 <= nv) (Htwin : twin_databases nu nv (users us) (videos vs)).
Context (Hfu : fair usched) (Hfv : fair vsched) (flags : frontend_flags).

#[local] Instance network : Network (env world) := 
  MockNetwork (MkMockUser us) (MkMockVideo vs) (f_userServiceAddr flags) (f_videoRecServiceAddr flags) usched vsched.

Abbreviation ready' := (ready (us_MaxBatchSize (us_options us)) (vs_MaxBatchSize (vs_options vs))).
Abbreviation recommended' := (recommended (users us) (videos vs)).

Lemma on_net_Ok {S} `{!Network S} {A} (m : st S A) l e a e' :
  m e = Ok (a, e') -> on_net m (Process l e) = Ok (a, Process l e').
Proof. intros E. unfold on_net, zoom. simpl. by rewrite E. Qed.

Lemma print_videos_run {S} `{!Network S} i vids l (e : S) :
  print_videos i vids (Process l e) = Ok (tt, Process (l ++ imap (fun k v => video_line (i + k) v) vids) e).
Proof.
  revert i l. induction vids as [|v vids IH]; intros i l; simpl; [by rewrite app_nil_r | ].
  rewrite (st_bind_Ok _ _ _ _ _ eq_refl). simpl. rewrite IH, <- app_assoc, Nat.add_0_r. simpl. do 4 f_equal. f_equal.
  apply imap_ext. intros k x _. simpl. f_equal. lia.
Qed.

Lemma and_then_Returned {S} `{!Network S} {A B} (m : prog (S := S) A) (k : A -> prog (S := S) B) p a p' :
  m p = Ok (Returned a, p') -> and_then m k p = k a p'.
Proof. intros E. unfold and_then. by rewrite (st_bind_Ok _ _ _ _ _ E). Qed.

Lemma and_then_Exited {S} `{!Network S} {A B} (m : prog (S := S) A) (k : A -> prog (S := S) B) p p' :
  m p = Ok (Exited, p') -> and_then m k p = Ok (Exited, p').
Proof. intros E. unfold and_then. by rewrite (st_bind_Ok _ _ _ _ _ E). Qed.

(** A user of the database is fetched and printed. *)
Lemma fetchUser_found id u l e :
  users us !! id = Some u -> ready' e ->
  exists e', fetchUser flags id (Process l e) = Ok (Returned tt, Process (l ++ [user_line u]) e') /\ ready' e'.
Proof.
  intros Hid Hr. unfold fetchUser, serviceConn. rewrite (st_bind_Ok _ _ _ _ _ (on_net_Ok _ l e _ e eq_refl)).
  destruct (GetUser_quiet us Hqu [id] (outer e)) as (r & w & E & _ & _ & Hans).
  unfold known in Hans. simpl in Hans. rewrite Hid in Hans. simpl in Hans.
  rewrite Hans in E by (split; [done | unfold len; simpl; lia]).
  assert (E' : net_GetUser (f_userServiceAddr flags) (3 * seconds) [id] e = Ok (inl [u], Env (srv e) w)).
  { cbn. rewrite bool_decide_true by done. unfold call, zoom, mock_GetUser. simpl. by rewrite E. }
  rewrite (st_bind_Ok _ _ _ _ _ (on_net_Ok _ l e _ _ E')).
  exists (Env (srv e) w). by split.
Qed.

(** The log of a request for recommendations. *)
Definition request_log (vids : list VideoInfo) : list bytes := lit "Recommended videos:" :: imap video_line vids.

Lemma request_printed id u l e :
  users us !! id = Some u -> SubscribedTo u <> [] -> ready' e ->
  exists ranked e', recommended' u ranked /\ ready' e' /\
    sendSingleTestRequest id (f_videoRecServiceAddr flags) (Process l e) =
      Ok (Returned (cut 5 ranked), Process (l ++ request_log (cut 5 ranked)) e').
Proof.
  intros Hid Hne Hr.
  destruct (request_served us vs nu nv usched vsched (Some (w_now (outer e) + 10 * seconds)) id 5 u e)
    as (e' & ranked & E & Hrec & Hr' & _); try done; [lia | | ].
  { intros t [= <-]. unfold seconds. lia. }
  exists ranked, e'. split; [done | ]. split; [done | ]. unfold sendSingleTestRequest.
  assert (E2 : net_GetTopVideos (f_videoRecServiceAddr flags) (10 * seconds) id 5 e = Ok (inl (MkResponse (cut 5 ranked) false), e')).
  { cbn. by rewrite bool_decide_true. }
  rewrite (st_bind_Ok _ _ _ _ _ (on_net_Ok _ l e _ _ E2)).
  rewrite (st_bind_Ok _ _ _ _ _ eq_refl). simpl. rewrite (st_bind_Ok _ _ _ _ _ (print_videos_run _ _ _ _)).
  unfold ret, request_log. by rewrite <- app_assoc.
Qed.

Definition case_line (n userId : Z) : bytes := lit "Test case " ++ fmt_d n ++ lit ": UserId=" ++ fmt_d userId.
Definition failed_line (n : Z) : bytes := lit "Test case " ++ fmt_d n ++ lit " FAILED! Wrong recommendations".

(** A test passes or fails by its condition on the videos recommended. *)
Lemma test_decided n id wrong u l e :
  users us !! id = Some u -> SubscribedTo u <> [] -> ready' e ->
  exists ranked e', recommended' u ranked /\ ready' e' /\
    test_case n id wrong (f_videoRecServiceAddr flags) (Process l e) =
      let l' := (l ++ [case_line n id]) ++ request_log (cut 5 ranked) in
      if wrong (cut 5 ranked) then Ok (Exited, Process (l' ++ [failed_line n]) e') else Ok (Returned tt, Process l' e').
Proof.
  intros Hid Hne Hr. unfold test_case. rewrite (st_bind_Ok _ _ _ _ _ eq_refl). simpl.
  destruct (request_printed id u (l ++ [case_line n id]) e) as (ranked & e' & Hrec & Hr' & E); [done.. | ].
  exists ranked, e'. split; [done | ]. split; [done | ]. unfold case_line in *.
  rewrite (and_then_Returned _ _ _ _ _ E). by destruct (wrong _).
Qed.

(** What a test logs, given whether its videos are wrong. *)
Definition test_log (n userId : Z) (vids : list VideoInfo) (wrong : bool) : list bytes :=
  case_line n userId :: request_log vids ++ (if wrong then [failed_line n] else []).

(** The whole log of [main], from the videos of its three requests. *)
Definition main_log (u : UserInfo) (vids vids1 vids2 : list VideoInfo) : list bytes :=
  [lit "Welcome " ++ f_netId flags ++ lit "! The UserId we picked for you is " ++ fmt_d (getUserId (f_netId flags)) ++
     lit "." ++ [10; 10]; user_line u] ++ request_log vids ++ [[10; 10] ++ lit "==== BASIC TESTS ====" ++ [10]] ++
  test_log 1 204054 vids1 (case1_wrong vids1) ++
  (if case1_wrong vids1 then []
   else test_log 2 203584 vids2 (case2_wrong vids2) ++
        if case2_wrong vids2 then [] else [lit "OK: basic tests passed!"]).

Definition main_verdict (vids1 vids2 : list VideoInfo) : ended unit :=
  if case1_wrong vids1 || case2_wrong vids2 then Exited else Returned tt.

(** [main], whose verdict is that of the two tests. *)
Lemma main_decided u u1 u2 e :
  users us !! getUserId (f_netId flags) = Some u -> users us !! 204054 = Some u1 -> users us !! 203584 = Some u2 ->
  SubscribedTo u <> [] -> SubscribedTo u1 <> [] -> SubscribedTo u2 <> [] -> ready' e ->
  exists ranked ranked1 ranked2 e', recommended' u ranked /\ recommended' u1 ranked1 /\ recommended' u2 ranked2 /\
    frontend_main flags (Process [] e) =
      Ok (main_verdict (cut 5 ranked1) (cut 5 ranked2),
          Process (main_log u (cut 5 ranked) (cut 5 ranked1) (cut 5 ranked2)) e').
Proof.
  intros Hid Hid1 Hid2 Hne Hne1 Hne2 Hr. unfold frontend_main, serviceConn.
  rewrite (st_bind_Ok _ _ _ _ _ (on_net_Ok _ [] e _ e eq_refl)). rewrite (st_bind_Ok _ _ _ _ _ eq_refl).
  cbn [logged net app]. set (l0 := [_ : bytes]).
  destruct (fetchUser_found _ u l0 e Hid Hr) as (e1 & E1 & Hr1). rewrite (and_then_Returned _ _ _ _ _ E1).
  destruct (request_printed _ u (l0 ++ [user_line u]) e1 Hid Hne Hr1) as (r & e2 & Hrec & Hr2 & E2).
  rewrite (and_then_Returned _ _ _ _ _ E2). rewrite (st_bind_Ok _ _ _ _ _ eq_refl). cbn [logged net].
  set (l2 := (_ ++ [_] : list bytes)).
  destruct (test_decided 1 204054 case1_wrong u1 l2 e2 Hid1 Hne1 Hr2) as (r1 & e3 & Hrec1 & Hr3 & E3).
  destruct (test_decided 2 203584 case2_wrong u2 ((l2 ++ [case_line 1 204054]) ++ request_log (cut 5 r1)) e3 Hid2 Hne2 Hr3)
    as (r2 & e4 & Hrec2 & Hr4 & E4).
  cbn zeta in E3, E4. exists r, r1, r2. unfold main_log, main_verdict, test_log, lit in *.
  destruct (case1_wrong (cut 5 r1)) eqn:W1; [eexists; do 3 (split; [done | ]) | ].
  { rewrite (and_then_Exited _ _ _ _ E3). cbn [orb]. unfold l2, l0. do 3 f_equal. by simplify_list_eq. }
  rewrite (and_then_Returned _ _ _ _ _ E3). destruct (case2_wrong (cut 5 r2)) eqn:W2; eexists; do 3 (split; [done | ]).
  - rewrite (and_then_Exited _ _ _ _ E4). cbn [orb]. unfold l2, l0. do 3 f_equal. by simplify_list_eq.
  - rewrite (and_then_Returned _ _ _ _ _ E4), (st_bind_Ok _ _ _ _ _ eq_refl). cbn [logged net].
    rewrite (st_bind_Ok _ _ _ _ _ (on_net_Ok _ _ _ _ _ eq_refl)). cbn [orb]. unfold l2, l0. unfold ret. do 3 f_equal. by simplify_list_eq.
Qed.
End frontend.

(** C21: the whole of lab 1 with the mock clients, from its frontend.  Start the
    two services from one seed without failure injection and a recommendation
    server, over mock clients to them, that has probed them.  Whatever net id the
    frontend is given, it picks a user that exists.  If that user and those of
    the two tests follow someone, then, under every schedule of the server's
    goroutines, the frontend logs exactly: its welcome, the user fetched from
    the user service, the top five of the videos recommended to that user, and
    for each test, up to the first that fails, the top five recommended to the
    test's user and whether they are the videos expected.  It exits with
    success exactly when both tests pass. *)
Theorem frontend_end_to_end `{GoFakeIt} (source : Z -> rng) (uopts : UserServiceOptions) (vopts : VideoServiceOptions)
    `{TDigest} `{Ranker} (opts : VideoRecServiceOptions) :
  us_Seed uopts = vs_Seed vopts ->
  us_SleepNs uopts = 0 -> us_FailureRate uopts = 0 -> us_ResponseOmissionRate uopts = 0 ->
  vs_SleepNs vopts = 0 -> vs_FailureRate vopts = 0 -> vs_ResponseOmissionRate vopts = 0 ->
  1 <= us_MaxBatchSize uopts < 2 ^ 63 -> 1 <= vs_MaxBatchSize vopts < 2 ^ 63 -> 1 <= MaxBatchSize opts < 2 ^ 63 ->
  exists uc vc, MakeMockUserServiceClient source uopts = Ok uc /\ MakeMockVideoServiceClient source vopts = Ok vc /\
    let b := MockBackend uc vc in
    let udb := users (u_inMemServer uc) in
    let vdb := videos (v_inMemServer vc) in
    forall w, exists e1 e2,
      UpdateUserServiceMaxBatchSize 1 (Env (MakeVideoRecServiceServerWithMocks opts) w) = Ok (true, e1) /\
      UpdateVideoServiceMaxBatchSize 1 e1 = Ok (true, e2) /\
      forall flags, exists u u1 u2,
        udb !! getUserId (f_netId flags) = Some u /\ udb !! 204054 = Some u1 /\ udb !! 203584 = Some u2 /\
        forall usched vsched, fair usched -> fair vsched ->
          SubscribedTo u <> [] -> SubscribedTo u1 <> [] -> SubscribedTo u2 <> [] ->
          exists ranked ranked1 ranked2 e3,
            recommended udb vdb u ranked /\ recommended udb vdb u1 ranked1 /\ recommended udb vdb u2 ranked2 /\
            let n := MockNetwork uc vc (f_userServiceAddr flags) (f_videoRecServiceAddr flags) usched vsched in
            frontend_main flags (Process [] e2) =
              Ok (main_verdict (cut 5 ranked1) (cut 5 ranked2),
                  Process (main_log flags u (cut 5 ranked) (cut 5 ranked1) (cut 5 ranked2)) e3).
Proof.
  intros Hseed Hu1 Hu2 Hu3 Hv1 Hv2 Hv3 Hub Hvb Hopt.
  destruct (services_start source uopts vopts Hseed) as (us & vs & nu & nv & Eu & Ev & Huo & Hvo & Hqu & Hqv & Hnv & Ht & Hnu);
    [done.. | ].
  exists (MkMockUser us), (MkMockVideo vs). unfold MakeMockUserServiceClient, MakeMockVideoServiceClient. rewrite Eu, Ev.
  split; [done | ]. split; [done | ]. cbn zeta. intros w.
  destruct (probes_ready us vs opts w) as (e1 & e2 & E1 & E2 & Hr & Hw); [done | done | by rewrite ?Huo, ?Hvo.. | ].
  exists e1, e2. split; [exact E1 | ]. split; [exact E2 | ]. intros flags.
  assert (Hdb : forall id, 200000 <= id < 205000 -> exists u, users us !! id = Some u).
  { intros id Hid. destruct Ht as [[Hdom _] _ _]. apply Hdom. unfold id_in, USER_ID_OFFSET. lia. }
  destruct (Hdb (getUserId (f_netId flags))) as (u & Hu).
  { unfold getUserId. pose proof (Z.mod_pos_bound (Ranker.New64 (f_netId flags)) 5000). rewrite u64_small; lia. }
  destruct (Hdb 204054) as (u1 & Hdb1); [lia | ]. destruct (Hdb 203584) as (u2 & Hdb2); [lia | ].
  exists u, u1, u2. do 3 (split; [done | ]). intros usched vsched Hfu Hfv Hne Hne1 Hne2. cbn [u_inMemServer v_inMemServer].
  apply (main_decided us vs usched vsched nu nv Hqu Hqv); try done; [by rewrite Huo | rewrite Hvo; lia].
Qed.

Section witness.
#[local] Existing Instance blank_fake.
#[local] Existing Instance list_digest.
#[local] Existing Instance feature_ranker.

(** The flags' defaults. *)
Definition default_flags : frontend_flags := MkFrontendFlags (lit "[::1]:8080") (lit "[::1]:8081") (lit "xs66").

Lemma default_user : 200000 < getUserId (f_netId default_flags) < 205000.
Proof. change (getUserId (f_netId default_flags)) with (getUserId (lit "xs66")). by vm_compute. Qed.

Lemma last_test_log n id vids : last (test_log n id vids true) = Some (failed_line n).
Proof. unfold test_log. by rewrite app_comm_cons, last_snoc. Qed.

Lemma failed_not_ok n : failed_line n <> lit "OK: basic tests passed!".
Proof. discriminate. Qed.

Lemma verdict_line flags u vids vids1 vids2 :
  main_verdict vids1 vids2 = Returned tt <-> last (main_log flags u vids vids1 vids2) = Some (lit "OK: basic tests passed!").
Proof.
  unfold main_verdict, main_log. destruct (case1_wrong vids1); cbn [orb].
  { rewrite app_nil_r, !last_app, last_test_log. split; [done | ]. intros [= E]. }
  destruct (case2_wrong vids2); rewrite ?app_nil_r, !last_app, ?last_test_log; [ | done].
  split; [done | ]. intros [= E].
Qed.

Lemma frontend_end_to_end_witness :
  exists uc vc, MakeMockUserServiceClient zeros DefaultUserServiceOptions = Ok uc /\
    MakeMockVideoServiceClient zeros DefaultVideoServiceOptions = Ok vc /\
    exists (e2 : env world) u vids vids1 vids2 e3, let n := MockNetwork uc vc (lit "[::1]:8081") (lit "[::1]:8080") in_order in_order in
      let log := main_log default_flags u vids vids1 vids2 in
      frontend_main default_flags (Process [] e2) = Ok (main_verdict vids1 vids2, Process log e3) /\
      (main_verdict vids1 vids2 = Returned tt <-> last log = Some (lit "OK: basic tests passed!")).
Proof.
  destruct (frontend_end_to_end zeros DefaultUserServiceOptions DefaultVideoServiceOptions plain)
    as (uc & vc & Eu & Ev & H); [reflexivity.. | cbn; lia | cbn; lia | cbn; lia | ].
  exists uc, vc. split; [exact Eu | ]. split; [exact Ev | ].
  destruct (H zero_world) as (e1 & e2 & _ & _ & Hf). destruct (Hf default_flags) as (u & u1 & u2 & Hu & Hu1 & Hu2 & Hrun).
  assert (Hne : forall id v, 200000 < id < 205000 -> users (u_inMemServer uc) !! id = Some v -> SubscribedTo v <> []).
  { intros id v Hid Hv. destruct (zeros_client uc id Eu Hid) as (v' & Hv' & Hs). rewrite Hv in Hv'. by injection Hv' as <-. }
  destruct (Hrun in_order in_order) as (r & r1 & r2 & e3 & _ & _ & _ & E);
    [apply in_order_fair | apply in_order_fair | exact (Hne _ _ default_user Hu) | exact (Hne 204054 _ ltac:(lia) Hu1) | exact (Hne 203584 _ ltac:(lia) Hu2) | ].
  exists e2, u. do 4 eexists. split; [exact E | apply verdict_line].
Defined.
End witness.

(** ** The middleware *)

Lemma middleware_run {S Req Resp} UnixMicro peerAddr hostname logger (handler : Req -> st S (result Resp)) req log s :
  MakeMiddleware UnixMicro peerAddr hostname logger handler req (log, s) =
  match handler req s with
  | Ok (r, s') => Ok (r, (log ++ LogRequest logger peerAddr hostname (match r with inl _ => false | inr _ => true end)
                                   (UnixMicro s' - UnixMicro s), s'))
  | Panic => Panic
  | Block => Block
  end.
Proof. unfold MakeMiddleware, bind, gets, zoom, modify, ret. simpl. by destruct (handler req s) as [[r s']| | ]. Qed.

(** The lines a logger has written to the standard error. *)
Definition is_line (r : record_out) : bool := match r with Line _ _ _ => true | Point _ _ _ _ _ => false end.
Definition lines (log : list record_out) : nat := length (filter is_line log).

Section logged_server.
Context {S : Type} `{Backend S} `{TDigest} `{Ranker}.

Record request := MkRequest { r_usched : schedule; r_vsched : schedule; r_deadline : option Z; r_userId : Z; r_limit : Z }.

Definition handle (r : request) : st (env S) reply :=
  GetTopVideos (r_usched r) (r_vsched r) (r_deadline r) (r_userId r) (r_limit r).

(** Requests served one after another behind the middleware of [main]. *)
Fixpoint serve (logger : Logger) (peerAddr hostname : bytes) (rs : list request) : st (list record_out * env S) (list reply) :=
  match rs with
  | [] => ret []
  | r :: rs =>
      x <- MakeMiddleware (fun e => clock (outer e) / 1000) peerAddr hostname logger handle r ;;
      xs <- serve logger peerAddr hostname rs ;; ret (x :: xs)
  end.

Lemma lines_LogRequest log logger peer host e t : lines (log ++ LogRequest logger peer host e t) = Datatypes.S (lines log).
Proof. unfold lines. rewrite filter_app, length_app. destruct logger; simpl; lia. Qed.

Lemma GetTopVideos_counted us vs d userId limit (e : env S) r e' :
  GetTopVideos us vs d userId limit e = Ok (r, e') ->
  counters (srv e') TotalRequests = u64 (counters (srv e) TotalRequests + 1).
Proof.
  intros E. apply GetTopVideos_inv in E as (r1 & e3 & E & _ & Hc & _).
  apply top_videos_untouched in E as (_ & Htot & _). rewrite !Hc, Htot by discriminate. cbn -[u64 decide].
  by repeat first [rewrite decide_True by done | rewrite decide_False by done].
Qed.

(** Whichever logger [MakeLogger] chose, the middleware changes no reply, and
    the log and the statistics of the server agree: each request served adds
    one line to the log and one to [TotalRequests]. *)
Theorem log_agrees_with_stats logger peerAddr hostname rs log e out log' e' :
  0 <= counters (srv e) TotalRequests < 2 ^ 64 ->
  serve logger peerAddr hostname rs (log, e) = Ok (out, (log', e')) ->
  length out = length rs /\ (lines log' = lines log + length rs)%nat /\
  counters (srv e') TotalRequests = u64 (counters (srv e) TotalRequests + Z.of_nat (length rs)).
Proof.
  revert log e out. induction rs as [|r rs IH]; intros log e out Hc E; cbn [serve] in E.
  { injection E as <- <- <-. simpl. rewrite Z.add_0_r, u64_small by lia. split_and!; lia. }
  apply st_bind_inv in E as (x & [log1 e1] & E1 & E). apply st_bind_inv in E as (xs & [log2 e2] & E2 & E).
  injection E as <- <- <-. rewrite middleware_run in E1. destruct (handle r e) as [[y e3]| | ] eqn:Eh; [ | done..].
  injection E1 as <- <- <-. apply GetTopVideos_counted in Eh. apply IH in E2 as (Hl & Hn & Ht); [ | rewrite Eh; apply u64_range].
  rewrite lines_LogRequest in Hn. rewrite Ht, Eh, u64_add_l. simpl. split_and!; [lia | lia | f_equal; lia].
Qed.
End logged_server.
